(* ===== verification/_CoqProject ===== *)
-Q . S2P
Prelude.v
X509.v
PathTypes.v
Verifier.v
Samples.v
Names.v
Subtrees.v
PolicyTree.v
CertChecks.v
ChainWalk.v
WalkSound.v
WalkPolicy.v
WalkNames.v
ValidatePath.v
PathBuilder.v
PathBuilderSpec.v
Revocation.v
SignerDiscovery.v
Crl.v
CrlSpec.v
Ocsp.v
Identity.v
IdentitySpec.v
Aia.v
Chain.v
ChainSpec.v
Merkle.v
Sct.v
CtLogList.v
Ct.v
CtSpec.v
RevFetch.v
RevCache.v
RevHttpSpec.v
LintTypes.v
Json.v
Deviation.v
OscalParse.v
OscalProfile.v
LintRunner.v
DeviationRunner.v
LintRules.v
OscalEmit.v
LintSpec.v
HexSpec.v
LintRulesSpec.v
DeviationSpec.v
OscalSpec.v
OscalProfileSpec.v
TimeSpec.v
LintExamples.v
CabfLints.v
CabfLintsSpec.v
Profiles.v
ProfilesSpec.v
ChainSimple.v
ChainSimpleSpec.v
TrustStore.v
TrustStoreSpec.v
SerdeDer.v
SerdeDerSpec.v
RustStr.v
ZlintBridge.v
ZlintBridgeSpec.v
PolicyZlint.v
HttpClients.v
HttpClientsSpec.v
AsyncRev.v
DiffTest.v
DiffTestSpec.v
ErrorDisplay.v
Stubs.v
DiffOracle.v
DiffCorpus.v
DiffTree.v
DiffRun.v
DiffOracleSpec.v
DiffRunSpec.v
DiffProcess.v
DiffMain.v
