(* ===== verification/Prelude.v ===== *)
(** * pkix: a verification library for the certification path validator

    ** The program

    The repository is a workspace of Rust crates that validate X.509
    certification paths.  The parts modelled here, from the bottom up, and how
    they call each other:

    - [pkix-path] (src/pkix-path/src: lib.rs, serde_der.rs) validates a given
      chain against trust anchors as RFC 5280 section 6 says; the signature
      backend is behind the trait [SignatureVerifier];
    - [pkix-path-builder] searches a pool of certificates for chains to an
      anchor, and hands them to [validate_path];
    - [pkix-revocation] answers from a CRL or an OCSP response that was fetched
      before whether a certificate is revoked, behind the trait
      [RevocationChecker]; [pkix-revocation-http] finds the URLs in the
      certificate, fetches over a client, checks, and caches, in a synchronous
      and an asynchronous form;
    - [pkix-identity] parses host names, addresses and mailboxes and matches
      them with a certificate;
    - [pkix-aia] is the interface to a fetcher of issuer certificates and
      [pkix-aia-http] a fetcher;
    - [pkix-chain] combines them: [verify_one] validates or reassembles a chain
      and checks its revocation, and an entry point per use adds its identity
      and profile checks; [pkix-chain-simple] is a gate for simple chains in
      front of the validator;
    - [pkix-truststore] loads anchors from files; [pkix-profiles] and
      [pkix-profiles-cabf] make policies of profiles;
    - [pkix-ct] verifies certificate transparency: timestamps, tree heads and
      inclusion proofs against a list of logs;
    - [pkix-lint] runs lints over certificates and chains under a policy of
      deviations and exchanges both with OSCAL documents; [pkix-lint-cabf] holds
      the lints of the CA/B Forum, [pkix-zlint-bridge] runs zlint as a process
      and [pkix-policy-zlint] makes lints of its checks;
    - [pkix-difftest] compares verdicts on chains of corpora with those of other
      validators, which are crates or programs;
    - [pkix-ac] and [pkix-composite] are interfaces whose functions refuse every
      input.

    Each part calls those above it through its functions or through a trait;
    a trait is a type class here, and the theorems on a client hold for every
    instance.

    ** Files

    - Prelude: outcomes of Rust code, loops, ASCII strings, and the tactics and
      hints of the development ([pkix] database, [inv_ok], [solve_no_panic],
      [by_computation]).  RustStr: UTF-8, lines and trimming of the standard
      library.
    - X509: the structures of the crates [x509-cert], [der] and [spki], and
      their functions as type classes.  PathTypes: the errors, the policy, the
      anchors and the results of [pkix-path].  Verifier: the trait
      [SignatureVerifier] and [DefaultVerifier].
    - Names: [names_match] with [NormalizedIter] and the BMPString transcoder.
      Subtrees: [check_name_constraints] and the matching of each name form.
      PolicyTree: the functions on the vector of policy nodes.
    - CertChecks: the helpers that read one certificate.  ChainWalk:
      [chain_walk], its [WorkingState] as a record and each block of its loop
      as a definition.  WalkSound, WalkPolicy, WalkNames: what the loop
      establishes.  ValidatePath: [validate_path] and the guarantees.
    - SerdeDer, SerdeDerSpec: serialised anchors, paths and errors.
      ErrorDisplay: the renderings of the errors of all these crates.
    - PathBuilder: the iterator [PathCandidates] as the state machine of the
      source ([next_turn] is a turn of its loop) and [build_path],
      [build_first_valid_path].  PathBuilderSpec: it implements the recursive
      search [paths], which finds the chains of [candidate_chain].
    - Revocation: errors and the trait.  SignerDiscovery, Crl: the CRL checker,
      CrlSpec: what it promises.  Ocsp: the OCSP checker and its specification.
    - RevFetch: URLs, requests and the checkers that fetch; RevCache: the cache
      in memory and on disk and the cached checkers; RevHttpSpec: what they
      promise.  HttpClients: the interfaces of ureq and reqwest, and a Module
      per client ([Ureq], [Reqwest], [AiaHttp]); HttpClientsSpec: that they
      agree, on a server too.  AsyncRev: the asynchronous checkers and their
      agreement with the synchronous ones.
    - Identity: names with their parsers, conversions and renderings, and
      matching; IdentitySpec: what a match means.
    - Aia: the fetcher interface.  Chain: [verify_one], [build_with_aia] and the
      entry points; ChainSpec: the loop that fetches as a step relation with its
      invariant, and the meaning of every outcome.  ChainSimple,
      ChainSimpleSpec: the gate for simple chains.
    - TrustStore, TrustStoreSpec: the loaders of anchors.  Profiles,
      ProfilesSpec: the profiles.  Stubs: the placeholder crates.
    - Merkle: trees and audit paths with the verifier of RFC 6962.  Sct: the
      encoding of timestamps.  CtLogList: the JSON list and its dates.  Ct: the
      verification; CtSpec: what it guarantees.
    - LintTypes: findings, severities, results.  LintRunner: the class [Lint] and
      the runner.  LintRules: the lints of the crate; CabfLints: those of the
      CA/B Forum.  Deviation: deviations and their store; DeviationRunner: runs
      under them.  Json: JSON values.  OscalParse, OscalProfile, OscalEmit:
      documents in, composition of Profiles, documents out.  LintSpec,
      LintRulesSpec, CabfLintsSpec, DeviationSpec, OscalSpec, OscalProfileSpec,
      HexSpec, TimeSpec: what they promise; LintExamples.
    - ZlintBridge, ZlintBridgeSpec: the process, its output and the cache.
      PolicyZlint: its checks as lints, what they promise, and examples.
    - DiffTest: chains from PEM, classes, reports.  DiffOracle: the oracles in
      the process; DiffProcess: those that are openssl and a Python library.
      DiffCorpus: the corpora of limbo and of the NIST tests; DiffTree: trees of
      directories.  DiffRun: runs and the command line.  DiffTestSpec,
      DiffOracleSpec, DiffRunSpec, DiffMain: what they promise.
    - Samples: a toy encoding and small certificates, on which the witnesses and
      the examples are evaluated.

    A definition has the name of the Rust function it models, unless a name is
    used twice (then it is prefixed by the type or the part, as
    [path_builder_config_new] for [PathBuilderConfig::new]); a long function is
    cut into definitions at its comments, and composed of them in its order.

    ** Modelling

    - [result] is Rust's [Result] with the outcome [Panic] for an index out of
      range, an [expect] on [None], a slice of a vector or a [str] out of bounds,
      a subtraction of [usize] below zero and an [Instant] beyond the last; the
      theorems show where it does not occur, and the one on [wait_for_child]
      where it does.
    - [u8], [u16], [u32] and [u64] values are [N] with the saturation or the
      checks of the source written out, signed sums that stay in range are [Z];
      a [[u8; 32]] that is hashed into a tree is a [Hash32];
      [usize] indices are [nat], and depths and budgets of the path builder [N].
      Bytes are [N]; a [str] is the list of its UTF-8 octets or, where the source
      handles characters, of scalar values; a text that is only rendered is a
      [string].
    - A [SystemTime] is its seconds from the epoch, a [Duration] its
      nanoseconds.
    - References that the source compares by address are indices
      (SignerDiscovery).  A [HashMap] is a [gmap], a [HashSet] a [gset], a [Vec] a
      [list]; a JSON object is an association list in the order of its keys.
    - State behind a lock or outside the process is passed along: the caches
      ([CacheLaws] says what a cache promises), the requests that were sent, the
      files that a child process writes, the turns of its clock.  A body of a
      response and a file are streams of reads that may fail or never end.  An
      [async fn] is the computation between its waits, and the runtime a relation
      that resumes any task ([turn]).
    - A trait object is a type with an instance of the class of the trait: a
      bundle of lints is a type [L] with [Lint L].
    - Parameters, never defined here: the DER decoders and encoders (classes
      [DecodeOwned], [Encode], [PathAsn1], [KeyIdAsn1], [CrlAsn1], [OcspAsn1],
      [ChainAsn1], [CtAsn1], [LintLib], [FieldCodecs], [OcspRequestLib]), PEM
      ([PemLib], [PemDecode], [PemEncode]) and base64 ([Base64], but the encoder
      of DiffProcess is source), the RustCrypto
      schemes and digests ([RustCrypto], [Digests], [Sha256]), [idna]
      ([IdentityLib]), serde and its formats ([SerdeLib], [JsonLib], [JsonText],
      [LimboJson], [PkitsJson], [JsonBytes], [JsonPretty]), the texts of library
      types ([SerialDisplay], [NameText], [OidText], [DebugText], [HeaderText]),
      files, paths and processes ([FileSystem], [ReadFile], [DirFs], [PathLib],
      [Ancestors], [Os], [Host], [Processes], [Harness], [Console]) and the
      network ([AiaFetcher],
      [RevocationFetcher], [AsyncRevocationFetcher], [UreqAgent],
      [ReqwestClient]).  Nothing is assumed of them except where a theorem says
      so.

    ** Fuel

    The loops of the source that are not over a list run on fuel or on a
    measure, and theorems show that it suffices: [path_candidates_next] has as
    many turns as a measure of its stacks and its budget ([next_spec]);
    [build_first_valid_path] needs one turn per unit of budget, since each
    candidate costs one; the loops of [NormalizedIter] have the bytes left as
    fuel ([normalized_iter_correct]), as have those over UTF-8, lists of
    timestamps ([from_serialized_list_correct]) and PEM blocks
    ([split_pem_blocks_correct], [filter_non_certificate_blocks_correct]);
    [prune_policy_tree] recurses on the depth, as the source counts it down;
    [reaches_self_signed] has the bound of the source, the number of
    certificates, which loses nothing ([new_with_signer_discovery_correct]);
    [aia_loop] the five iterations of the source; [resolve_profile] one level
    more than there are documents, since its stack holds each once
    ([resolve_profile_correct]); [wait_for_child] the turns that its deadline
    allows ([wait_for_child_ends]); the batches of zlint the certificates left
    ([run_on_certs_correct]); [read_chunks] more turns than the body has chunks
    ([read_chunks_streams]), or than the cap has octets when no chunk is empty
    ([read_chunks_bounded]); [fmt_digits] ten digits, more than any octet or
    group has.

    ** What the theorems show

    - Path validation: a validated path satisfies every condition of the
      specification at every index ([validate_path_sound]), no name of it is
      under an excluded subtree above it and the permitted ones hold
      ([validate_path_names_sound]), the policy tree is well formed and present
      when a policy is required ([validate_path_policy]); the anchor, the errors
      and the absence of panics are characterised ([validate_path_anchor],
      [validate_path_error], [validate_path_no_panic]).
    - Its parts against specifications independent of their loops: name
      matching is an equivalence ([names_match_equivalence]), the iterator
      yields the canonical form ([normalized_iter_correct]), a name matches a
      subtree when it is within it ([name_matches_subtree_correct]), each step
      on the policy tree computes the tree of the RFC ([policy_step_d_correct],
      [apply_mappings_correct], [policy_tree_post_op_prune_correct],
      [intersect_user_policy_set_correct]).  What a format has written is read
      back, where it writes the absence of a value ([serde_round_trip]); two errors that render alike are equal
      ([path_error_display_tells]).
    - Path building: the resumable search yields exactly the candidate chains,
      in order, and always ends ([path_candidates_refine],
      [path_candidates_are_candidate_chains], [build_path_correct],
      [build_first_valid_path_correct]).
    - Revocation: the checkers answer exactly when their source is authentic,
      current and in scope, and then what it says
      ([crl_check_revocation_correct], [ocsp_check_correct] and the theorems on
      the constructors).  Online, the first source that can be read decides
      ([online_check_correct]); with a cache, a live entry is a source without a
      request ([cached_crl_check_correct]) and no order of insertions loses the newest
      CRL ([guarded_puts_keep_largest]).  The clients agree ([clients_agree]),
      and asynchronous checks give what synchronous ones give, in whatever order
      they are resumed ([async_checks_agree]).
    - Identities: a match is exactly a covering alternative name
      ([verify_identity_correct]); host names are normalised
      ([normalize_dns_name_correct]); addresses and mailboxes print and parse
      back ([ip_display_parse_roundtrip], [mailbox_display_parse_roundtrip]).
    - Chain verification: what is accepted ([verify_one_correct]), what
      reassembly may fetch ([build_with_aia_correct]), what each error means
      ([verify_one_error]), and what each entry point adds
      ([identity_use_cases_correct], [verify_ocsp_responder_correct],
      [verify_time_stamper_correct]); simple chains ([verify_simple_correct]);
      anchors from files ([read_file_capped_correct], [from_pem_correct]);
      profiles ([web_pki_path_correct], [smime_tiers_correct]).
    - Transparency: audit paths, with the collision that a wrong one gives away
      ([verify_inclusion_correct]), the encoding of
      timestamps ([from_serialized_list_correct]), their verification
      ([verify_sct_correct]), the list of logs ([imported_log_list_correct]).
    - Lints: the runner ([lint_run_correct]), the lints ([shipped_lints_correct],
      [cabf_lints_correct]), deviations ([deviation_store_correct],
      [deviation_run_correct]), OSCAL ([policy_round_trip],
      [resolve_profile_correct]), zlint ([wait_for_child_ends],
      [run_on_certs_correct], [zlint_run_refines]).
    - The harness: classes ([classify_correct]), reports
      ([sort_by_severity_correct], [count_per_class_correct]), the verdict of the
      oracle ([verify_correct]); a chain that the builder found for a test passes
      the oracle ([limbo_item_passes]); its reader of dates agrees with that of
      the list of logs ([rfc3339_parsers_agree]); every item of a corpus is
      classified or reported ([run_corpus_correct]).  A tree gives the same
      items in whatever order its directories are listed
      ([load_order_independent]); the output of another validator is read as
      written ([openssl_run_correct], [pyca_run_correct],
      [base64_roundtrip]); every command ends with one of three codes and a run
      that succeeds has written its reports ([main_exit_codes],
      [emit_reports_correct]).
    - The placeholders accept nothing ([composite_validates_nothing],
      [attribute_certs_refused]).
    - Concrete chains, CRLs and names on which the code departs from RFC 5280 or
      from its documentation, such as [user_policy_set_not_enforced],
      [emptied_permitted_subtrees_reopened], [matches_uri_at_sign_in_path] and
      [discovered_direct_crl_answers_for_other_issuers].

    ** What is not modelled

    The decoding of certificates and the cryptography are library code.
    Of serialisation, the derived forms of [ValidationPolicy] and [DnAttrRule],
    of the findings and of the types of the bridge to zlint are left out: they
    are generated.  [clap], which splits the arguments of the command line, is a
    library: the commands and the options that it yields are modelled, and
    output streams are never closed.  Left out for good are the crates that hold
    only documentation or reserved names (pkix-dane, pkix-dane-resolver,
    pkix-pkilint-bridge, pkix-policy-pkilint, pkix-truststore-pkcs11,
    pkix-truststore-system), and the tests. *)
From stdpp Require Export base decidable option list numbers strings sets.

(** ** Results of Rust code

    [result E A] is Rust's [Result<A, E>] with one constructor more: [Panic] is
    the outcome of an out-of-range index or of an [expect] on [None].  [?] is
    the monadic bind. *)
Inductive result (E A : Type) : Type :=
| Ok (a : A)
| Err (e : E)
| Panic.
Arguments Ok {E A} a.
Arguments Err {E A} e.
Arguments Panic {E A}.

#[global] Instance result_eq_dec {E A} `{EqDecision E, EqDecision A} :
  EqDecision (result E A).
Proof. solve_decision. Defined.

#[global] Instance result_ret {E} : MRet (result E) := λ A a, Ok a.
#[global] Instance result_bind {E} : MBind (result E) := λ A B k r,
  match r with Ok a => k a | Err e => Err e | Panic => Panic end.
#[global] Instance result_fmap {E} : FMap (result E) := λ A B f r,
  match r with Ok a => Ok (f a) | Err e => Err e | Panic => Panic end.

(** [r.map_err(f)] *)
Definition map_err {E F A} (f : E → F) (r : result E A) : result F A :=
  match r with Ok a => Ok a | Err e => Err (f e) | Panic => Panic end.

(** [o.ok_or(e)] *)
Definition ok_or {E A} (o : option A) (e : E) : result E A :=
  match o with Some a => Ok a | None => Err e end.

(** [r.ok()] *)
Definition to_ok {E A} (r : result E A) : option A :=
  match r with Ok a => Some a | _ => None end.

(** [if b { return Err(e) }] *)
Definition fail_if {E} (b : bool) (e : E) : result E unit :=
  if b then Err e else Ok tt.

(** [v[i]] in Rust: out of range it panics. *)
Definition index {E A} (l : list A) (i : nat) : result E A :=
  match l !! i with Some a => Ok a | None => Panic end.

(** [opt.expect(..)] *)
Definition expect {E A} (o : option A) : result E A :=
  match o with Some a => Ok a | None => Panic end.

(** [for (i, x) in l.iter().enumerate() { f(i, x)?; }], from index [i]. *)
Fixpoint try_for_each_from {E A} (i : nat) (f : nat → A → result E unit)
    (l : list A) : result E unit :=
  match l with
  | [] => Ok tt
  | x :: l => _ ← f i x; try_for_each_from (S i) f l
  end.
Definition try_for_each {E A} (f : nat → A → result E unit) (l : list A) :
  result E unit := try_for_each_from 0 f l.

(** [for x in l { acc = f(acc, x)?; }] *)
Fixpoint try_fold {E A B} (f : A → B → result E A) (a : A) (l : list B) :
  result E A :=
  match l with
  | [] => Ok a
  | x :: l => a' ← f a x; try_fold f a' l
  end.

(** ** Machine integers: [u8], [u32] and [u64] values are [N], [usize]
    indices are [nat]. *)
Definition u32_max : N := 4294967295.
Definition u64_max : N := 18446744073709551615.
Definition u32_saturating_add (a b : N) : N := N.min u32_max (a + b).
Definition u32_of_usize (n : nat) : N := N.min u32_max (N.of_nat n).

(** ** Bytes and ASCII strings *)
Abbreviation bytes := (list N).

(** [from_be_bytes] of the octets, padded on the left by zeros. *)
Definition from_be_bytes (b : bytes) : N := foldl (λ a x, a * 256 + x)%N 0%N b.

(** The bytes of a string literal. *)
Definition str (s : string) : bytes := Ascii.N_of_ascii <$> String.list_ascii_of_string s.

Definition to_ascii_lowercase (b : N) : N :=
  if decide (65 ≤ b ∧ b ≤ 90)%N then (b + 32)%N else b.

Definition lower (s : bytes) : bytes := to_ascii_lowercase <$> s.

Definition eq_ignore_ascii_case (a b : bytes) : bool :=
  bool_decide (lower a = lower b).

(** [s.strip_prefix(c)] *)
Definition strip_prefix_char (c : N) (s : bytes) : option bytes :=
  match s with
  | b :: r => if decide (b = c) then Some r else None
  | [] => None
  end.

(** [s.contains(c)] *)
Definition contains_char (c : N) (s : bytes) : bool := bool_decide (c ∈ s).

(** [s.split_once(c)]: around the first occurrence. *)
Fixpoint split_once (c : N) (s : bytes) : option (bytes * bytes) :=
  match s with
  | [] => None
  | b :: r =>
      if decide (b = c) then Some ([], r)
      else match split_once c r with
           | Some (x, y) => Some (b :: x, y)
           | None => None
           end
  end.

(** [s.find(pat)] for a string pattern: the first index it occurs at. *)
Fixpoint find_str (pat s : bytes) : option nat :=
  if decide (pat `prefix_of` s) then Some 0
  else match s with
       | [] => None
       | _ :: r => S <$> find_str pat r
       end.

(** [s.find([c1, c2, ..])]: the first index of one of the characters. *)
Fixpoint find_any_char (cs s : bytes) : option nat :=
  match s with
  | [] => None
  | b :: r => if decide (b ∈ cs) then Some 0 else S <$> find_any_char cs r
  end.

(** ** Lemmas *)
Create HintDb pkix.

Section result_lemmas.
Context {E A B : Type}.
Implicit Types (r : result E A) (k : A → result E B).

Lemma bind_Ok r k b : r ≫= k = Ok b ↔ ∃ a, r = Ok a ∧ k a = Ok b.
Proof. destruct r; cbn; naive_solver. Qed.

Lemma bind_Err r k e :
  r ≫= k = Err e ↔ r = Err e ∨ ∃ a, r = Ok a ∧ k a = Err e.
Proof. destruct r; cbn; naive_solver. Qed.

Lemma fmap_Ok (f : A → B) r b : f <$> r = Ok b ↔ ∃ a, r = Ok a ∧ f a = b.
Proof. destruct r; cbn; naive_solver. Qed.

Lemma map_err_Ok {F} (f : E → F) r a : map_err f r = Ok a ↔ r = Ok a.
Proof. destruct r; cbn; naive_solver. Qed.

Lemma map_err_Err {F} (f : E → F) r e :
  map_err f r = Err e ↔ ∃ e', r = Err e' ∧ f e' = e.
Proof. destruct r; cbn; naive_solver. Qed.

Lemma ok_or_Ok (o : option A) (e : E) a : ok_or o e = Ok a ↔ o = Some a.
Proof. destruct o; cbn; naive_solver. Qed.

Lemma fail_if_Ok (b : bool) (e : E) u : fail_if b e = Ok u ↔ b = false.
Proof. destruct b, u; cbn; naive_solver. Qed.

Lemma fail_if_Err (b : bool) (e e' : E) : fail_if b e = Err e' ↔ b = true ∧ e = e'.
Proof. destruct b; cbn; naive_solver. Qed.

Lemma index_Ok (l : list A) i a : index (E:=E) l i = Ok a ↔ l !! i = Some a.
Proof. unfold index. case_match; naive_solver. Qed.

Lemma to_ok_Some r a : to_ok r = Some a ↔ r = Ok a.
Proof. destruct r; cbn; naive_solver. Qed.
End result_lemmas.

(** [inv_ok H] takes apart a successful chain of binds [H : ... = Ok _]. *)
Ltac inv_ok_step :=
  match goal with
  | H : mbind _ _ = Ok _ |- _ =>
      apply bind_Ok in H; let x := fresh "r" in let H1 := fresh "Hr" in
      destruct H as (x & H1 & H)
  | H : fmap _ _ = Ok _ |- _ =>
      apply fmap_Ok in H; let x := fresh "r" in let H1 := fresh "Hr" in
      destruct H as (x & H1 & H)
  | H : map_err _ _ = Ok _ |- _ => apply map_err_Ok in H
  | H : ok_or _ _ = Ok _ |- _ => apply ok_or_Ok in H
  | H : fail_if _ _ = Ok _ |- _ => apply fail_if_Ok in H
  | H : index _ _ = Ok _ |- _ => apply index_Ok in H
  | H : mret _ = Ok _ |- _ => cbv [mret result_ret] in H
  | H : Err _ = Ok _ |- _ => discriminate H
  | H : Panic = Ok _ |- _ => discriminate H
  | H : Ok _ = Ok _ |- _ => injection H as H
  end.
Ltac inv_ok := repeat inv_ok_step.

(** ** Absence of panics *)
Definition no_panic {E A} (r : result E A) : Prop := r ≠ Panic.

Section no_panic.
Context {E A B : Type}.

Lemma no_panic_ok (a : A) : no_panic (E:=E) (Ok a).
Proof. done. Qed.
Lemma no_panic_err (e : E) : no_panic (A:=A) (Err e).
Proof. done. Qed.
Lemma no_panic_mret (a : A) : no_panic (E:=E) (mret a).
Proof. done. Qed.
Lemma no_panic_fail_if (b : bool) (e : E) : no_panic (fail_if b e).
Proof. by destruct b. Qed.
Lemma no_panic_ok_or (o : option A) (e : E) : no_panic (ok_or o e).
Proof. by destruct o. Qed.
Lemma no_panic_map_err {F} (f : E → F) (r : result E A) :
  no_panic r → no_panic (map_err f r).
Proof. by destruct r. Qed.
Lemma no_panic_fmap (f : A → B) (r : result E A) : no_panic r → no_panic (f <$> r).
Proof. by destruct r. Qed.

Lemma no_panic_bind (r : result E A) (k : A → result E B) :
  no_panic r → (∀ a, r = Ok a → no_panic (k a)) → no_panic (r ≫= k).
Proof. destruct r; cbn; [|done..]. intros _ H. by apply H. Qed.

End no_panic.

Lemma no_panic_try_for_each_from {E A} (f : nat → A → result E unit) l i :
  (∀ j x, no_panic (f j x)) → no_panic (try_for_each_from i f l).
Proof.
  intros Hf. revert i; induction l as [|x l IH]; intros i; cbn; [done|].
  apply no_panic_bind; [apply Hf|]. intros; apply IH.
Qed.

Lemma no_panic_try_for_each {E A} (f : nat → A → result E unit) l :
  (∀ j x, no_panic (f j x)) → no_panic (try_for_each f l).
Proof. apply no_panic_try_for_each_from. Qed.

(** The same for a body that does not panic on the elements of the list. *)
Lemma no_panic_try_for_each_in {E A} (f : nat → A → result E unit) l :
  (∀ j x, l !! j = Some x → no_panic (f j x)) → no_panic (try_for_each f l).
Proof.
  unfold try_for_each. change (∀ j x, l !! j = Some x → no_panic (f j x))
    with (∀ j x, l !! j = Some x → no_panic (f (0 + j) x)). generalize 0.
  induction l as [|x l IH]; intros i Hf; cbn [try_for_each_from]; [done|].
  apply no_panic_bind; [specialize (Hf 0 x eq_refl); by rewrite Nat.add_0_r in Hf|].
  intros _ _. apply IH. intros j y Hy. rewrite Nat.add_succ_l, <-Nat.add_succ_r.
  by apply (Hf (S j)).
Qed.

Lemma no_panic_index {E A} (l : list A) i : i < length l → no_panic (index (E:=E) l i).
Proof. intros [x Hx]%lookup_lt_is_Some_2. unfold index. by rewrite Hx. Qed.

#[export] Hint Resolve no_panic_ok no_panic_mret no_panic_err no_panic_fail_if no_panic_ok_or
  no_panic_map_err no_panic_fmap no_panic_try_for_each : pkix.

(** Proves [no_panic] of a chain of binds, matches and conditionals. *)
Ltac solve_no_panic :=
  repeat (intros || case_match || (apply no_panic_bind; [|intros ? _])
          || (progress eauto with pkix)).

(** ** Loops *)
Section loops.
Context {E A : Type}.
Implicit Types (f : nat → A → result E unit) (l : list A).

Lemma try_for_each_from_Ok f l i :
  try_for_each_from i f l = Ok tt ↔ ∀ j x, l !! j = Some x → f (i + j) x = Ok tt.
Proof.
  revert i. induction l as [|x l IH]; intros i; cbn [try_for_each_from].
  { split; [intros _ j ? [=]|done]. }
  rewrite bind_Ok. setoid_rewrite IH. split.
  - intros ([] & Hx & Hl) [|j] y; cbn; [intros [= ->]; by rewrite Nat.add_0_r|].
    intros Hy. specialize (Hl j y Hy). by rewrite Nat.add_succ_r.
  - intros H. exists tt. split; [by specialize (H 0 x eq_refl); rewrite Nat.add_0_r in H|].
    intros j y Hy. specialize (H (S j) y Hy). by rewrite Nat.add_succ_r in H.
Qed.

Lemma try_for_each_Ok f l :
  try_for_each f l = Ok tt ↔ ∀ j x, l !! j = Some x → f j x = Ok tt.
Proof. apply (try_for_each_from_Ok f l 0). Qed.

Lemma try_for_each_from_Err f l i e :
  try_for_each_from i f l = Err e ↔
  ∃ j x, l !! j = Some x ∧ f (i + j) x = Err e ∧
    ∀ k y, k < j → l !! k = Some y → f (i + k) y = Ok tt.
Proof.
  revert i. induction l as [|x l IH]; intros i; cbn [try_for_each_from].
  { split; [done|]. intros (j & ? & [=] & _). }
  rewrite bind_Err. setoid_rewrite IH. split.
  - intros [Hx | ([] & Hx & j & y & Hy & He & Hk)].
    + exists 0, x. rewrite Nat.add_0_r. repeat split; [done|]. lia.
    + exists (S j), y. rewrite Nat.add_succ_r. repeat split; [done..|].
      intros [|k] z Hlt; cbn; [intros [= ->]; by rewrite Nat.add_0_r|].
      rewrite Nat.add_succ_r. apply Hk; lia.
  - intros ([|j] & y & Hy & He & Hk); cbn in Hy.
    + left. injection Hy as ->. by rewrite Nat.add_0_r in He.
    + right. exists tt. split; [specialize (Hk 0 x); rewrite Nat.add_0_r in Hk;
        apply Hk; [lia|done]|].
      exists j, y. rewrite Nat.add_succ_r in He. repeat split; [done..|].
      intros k z Hlt Hz. specialize (Hk (S k) z). rewrite Nat.add_succ_r in Hk.
      apply Hk; [lia|done].
Qed.

Lemma try_for_each_Err f l e :
  try_for_each f l = Err e ↔
  ∃ j x, l !! j = Some x ∧ f j x = Err e ∧
    ∀ k y, k < j → l !! k = Some y → f k y = Ok tt.
Proof. apply (try_for_each_from_Err f l 0). Qed.
End loops.

(** An invariant of a fallible fold. *)
Lemma try_fold_invariant {E A B} (P : A → Prop) (f : A → B → result E A) a l a' :
  P a → (∀ a b a', b ∈ l → P a → f a b = Ok a' → P a') →
  try_fold f a l = Ok a' → P a'.
Proof.
  revert a. induction l as [|x l IH]; intros a Ha Hf Hl; cbn in Hl.
  { by injection Hl as <-. }
  inv_ok. eapply IH; [|intros; eapply Hf; [by right|..]; done|exact Hl].
  eapply Hf; [by left|exact Ha|done].
Qed.

Lemma try_fold_pure {E A B} (f : A → B → result E A) (g : A → B → A) a l :
  (∀ a b, f a b = Ok (g a b)) → try_fold f a l = Ok (foldl g a l).
Proof.
  intros Hf. revert a. induction l as [|x l IH]; intros a; cbn; [done|].
  rewrite Hf. cbn [mbind result_bind]. apply IH.
Qed.

(** ** ASCII strings *)
Lemma to_ascii_lowercase_idem b :
  to_ascii_lowercase (to_ascii_lowercase b) = to_ascii_lowercase b.
Proof. unfold to_ascii_lowercase. repeat case_decide; lia. Qed.

Lemma lower_idem s : lower (lower s) = lower s.
Proof.
  unfold lower. rewrite <-list_fmap_compose. apply list_fmap_ext.
  intros ???; cbn. apply to_ascii_lowercase_idem.
Qed.

Lemma lower_app s t : lower (s ++ t) = lower s ++ lower t.
Proof. apply fmap_app. Qed.

Lemma length_lower s : length (lower s) = length s.
Proof. apply length_fmap. Qed.

Lemma lower_drop n s : lower (drop n s) = drop n (lower s).
Proof. apply fmap_drop. Qed.

Lemma eq_ignore_ascii_case_spec a b :
  eq_ignore_ascii_case a b = true ↔ lower a = lower b.
Proof. apply bool_decide_eq_true. Qed.

#[global] Instance eq_ignore_ascii_case_equiv :
  Equivalence (λ a b, eq_ignore_ascii_case a b = true).
Proof.
  split; repeat intro; rewrite ?eq_ignore_ascii_case_spec in *; congruence.
Qed.

Lemma strip_prefix_char_Some c s r : strip_prefix_char c s = Some r ↔ s = c :: r.
Proof. destruct s as [|b s]; cbn; [done|]. case_decide; naive_solver. Qed.

Lemma split_once_Some c s x y :
  split_once c s = Some (x, y) ↔ s = x ++ c :: y ∧ c ∉ x.
Proof.
  revert x. induction s as [|b s IH]; intros x; cbn.
  { split; [done|]. intros [H _]. by destruct x. }
  case_decide as Hb.
  - subst b. split.
    + intros [= <- <-]. split; [done|apply not_elem_of_nil].
    + intros [H Hx]. destruct x as [|b x]; cbn in H; simplify_eq; [done|].
      destruct Hx. by left.
  - destruct (split_once c s) as [[u v]|] eqn:Hs.
    + split.
      * intros [= <- <-]. destruct (proj1 (IH u) eq_refl) as [-> Hu].
        split; [done|]. rewrite not_elem_of_cons. naive_solver.
      * intros [H Hx]. destruct x as [|b' x]; cbn in H; simplify_eq.
        rewrite not_elem_of_cons in Hx.
        assert (Some (u, v) = Some (x, y)) as [= -> ->] by (apply IH; naive_solver).
        done.
    + split; [done|]. intros [H Hx]. destruct x as [|b' x]; cbn in H; simplify_eq.
      rewrite not_elem_of_cons in Hx.
      assert (None = Some (x, y)) by (apply IH; naive_solver). done.
Qed.

Lemma split_once_None c s : split_once c s = None ↔ c ∉ s.
Proof.
  split.
  - induction s as [|b s IH]; cbn; [intros _; apply not_elem_of_nil|].
    case_decide; [done|]. destruct (split_once c s) as [[]|]; [done|].
    intros _. rewrite not_elem_of_cons. auto.
  - intros H. destruct (split_once c s) as [[x y]|] eqn:Hs; [|done].
    apply split_once_Some in Hs as [-> _]. destruct H. set_solver.
Qed.

Lemma length_pos {A} (l : list A) : l ≠ [] → 0 < length l.
Proof. destruct l; cbn; [done|lia]. Qed.

(** [iter().all(..)] and [iter().any(..)] *)
Lemma forallb_elem {A} (f : A → bool) l : forallb f l = true ↔ ∀ x, x ∈ l → f x = true.
Proof. rewrite forallb_forall. by setoid_rewrite list_elem_of_In. Qed.

Lemma existsb_elem {A} (f : A → bool) l : existsb f l = true ↔ ∃ x, x ∈ l ∧ f x = true.
Proof. rewrite existsb_exists. by setoid_rewrite list_elem_of_In. Qed.

Lemma existsb_elem_false {A} (f : A → bool) l :
  existsb f l = false ↔ ∀ x, x ∈ l → f x = false.
Proof.
  rewrite <-not_true_iff_false, existsb_elem. split.
  - intros H x Hx. apply not_true_is_false. naive_solver.
  - intros H (x & Hx & Hf). rewrite H in Hf; done.
Qed.

Lemma forallb_zip {A B} (f : A * B → bool) l k :
  forallb f (zip l k) = true ↔
  ∀ i x y, l !! i = Some x → k !! i = Some y → f (x, y) = true.
Proof.
  rewrite forallb_elem. split.
  - intros H i x y Hx Hy. apply H, list_elem_of_lookup. exists i.
    rewrite lookup_zip_with, Hx; cbn. by rewrite Hy.
  - intros H [x y] [i Hi]%list_elem_of_lookup. rewrite lookup_zip_with in Hi.
    destruct (l !! i) eqn:Hl; cbn in Hi; [|done].
    destruct (k !! i) eqn:Hk; cbn in Hi; [|done]. injection Hi as -> ->. eauto.
Qed.

Lemma bool_not_true (b : bool) : b ≠ true ↔ b = false.
Proof. by destruct b. Qed.

Lemma find_str_Some pat s i : find_str pat s = Some i → pat `prefix_of` drop i s.
Proof.
  revert i. induction s as [|b s IH]; intros i; cbn; case_decide; try done;
    try (by intros [= <-]).
  destruct (find_str pat s) as [j|]; [|done]. intros [= <-]. cbn. auto.
Qed.

(** Before the first of some characters there is none of them. *)
Lemma find_any_char_take cs s c :
  c ∈ cs → c ∉ take (default (length s) (find_any_char cs s)) s.
Proof.
  intros Hc. induction s as [|b s IH]; cbn; [apply not_elem_of_nil|].
  case_decide; cbn; [apply not_elem_of_nil|].
  destruct (find_any_char cs s) as [i|]; cbn in *; rewrite not_elem_of_cons;
    (split; [congruence|done]).
Qed.

Lemma find_any_char_le cs s : default (length s) (find_any_char cs s) ≤ length s.
Proof.
  induction s as [|b s IH]; cbn; [done|]. case_decide; cbn; [lia|].
  destruct (find_any_char cs s); cbn in *; lia.
Qed.

(** A computation that does not panic and fails with one error only. *)
Definition only_err {E A} (e : E) (r : result E A) : Prop :=
  match r with Ok _ => True | Err e' => e' = e | Panic => False end.

Lemma only_err_bind {E A B} (e : E) (r : result E A) (k : A → result E B) :
  only_err e r → (∀ a, only_err e (k a)) → only_err e (r ≫= k).
Proof. by destruct r; cbn; auto. Qed.

Lemma only_err_fail_if {E} (e : E) b : only_err e (fail_if b e).
Proof. by destruct b. Qed.

Lemma only_err_try_for_each {E A} (e : E) (f : nat → A → result E unit) l :
  (∀ i x, only_err e (f i x)) → only_err e (try_for_each f l).
Proof.
  intros Hf. unfold try_for_each. generalize 0.
  induction l as [|x l IH]; intros i; cbn; [done|]. by apply only_err_bind.
Qed.

#[export] Hint Resolve only_err_fail_if only_err_try_for_each : pkix.

(** Proves a decidable closed proposition by evaluating it. *)
Ltac by_computation :=
  match goal with |- ?P => refine (bool_decide_unpack P _); vm_compute; exact I end.

(** [&v[start..stop]]: it panics when the range is not within the vector. *)
Definition slice_range {E A} (start stop : nat) (l : list A) : result E (list A) :=
  if decide (start ≤ stop ∧ stop ≤ length l) then Ok (take (stop - start) (drop start l))
  else Panic.

Lemma slice_range_Ok {E A} start stop (l : list A) :
  start ≤ stop → stop ≤ length l →
  slice_range (E:=E) start stop l = Ok (take (stop - start) (drop start l)).
Proof. intros. unfold slice_range. by rewrite decide_True. Qed.

(** [&v[start..]] *)
Definition slice_from {E A} (start : nat) (l : list A) : result E (list A) :=
  slice_range start (length l) l.

Lemma slice_from_Ok {E A} start (l : list A) :
  start ≤ length l → slice_from (E:=E) start l = Ok (drop start l).
Proof.
  intros. unfold slice_from. rewrite slice_range_Ok by done.
  by rewrite take_ge by (rewrite length_drop; lia).
Qed.

(** [v.split_at(mid)] *)
Definition split_at {E A} (mid : nat) (l : list A) : result E (list A * list A) :=
  if decide (mid ≤ length l) then Ok (take mid l, drop mid l) else Panic.

(** [a - b] on [usize]: below zero it panics (with overflow checks; without
    them it wraps around, to an index that no vector has). *)
Definition usize_sub {E} (a b : nat) : result E nat :=
  if decide (b ≤ a) then Ok (a - b) else Panic.

Lemma usize_sub_Ok {E} a b : b ≤ a → usize_sub (E:=E) a b = Ok (a - b).
Proof. intros. unfold usize_sub. by rewrite decide_True. Qed.

Lemma usize_sub_inv {E} a b n : usize_sub (E:=E) a b = Ok n → b ≤ a ∧ n = a - b.
Proof. unfold usize_sub. case_decide; [|done]. intros [= <-]. done. Qed.

(** [iter().any(f)] and [iter().filter(f).collect()] for a closure that may
    panic; [any] stops at the first [true]. *)
Fixpoint try_any {E A} (f : A → result E bool) (l : list A) : result E bool :=
  match l with
  | [] => Ok false
  | x :: l => b ← f x; if b : bool then Ok true else try_any f l
  end.

Fixpoint try_filter {E A} (f : A → result E bool) (l : list A) : result E (list A) :=
  match l with
  | [] => Ok []
  | x :: l => b ← f x; r ← try_filter f l; mret (if b : bool then x :: r else r)
  end.

(** [iter().map(f).collect()] for a closure that may panic. *)
Fixpoint try_map {E A B} (f : A → result E B) (l : list A) : result E (list B) :=
  match l with
  | [] => Ok []
  | x :: l => y ← f x; r ← try_map f l; mret (y :: r)
  end.

(** They are the pure ones when the closure returns on every element. *)
Lemma try_map_pure {E A B} (f : A → result E B) (g : A → B) l :
  (∀ x, x ∈ l → f x = Ok (g x)) → try_map f l = Ok (g <$> l).
Proof.
  induction l as [|x l IH]; intros Hf; cbn [try_map]; [done|].
  rewrite Hf by left. by rewrite IH by (intros y Hy; apply Hf; by right).
Qed.

Lemma try_any_pure {E A} (f : A → result E bool) (g : A → bool) l :
  (∀ x, x ∈ l → f x = Ok (g x)) → try_any f l = Ok (existsb g l).
Proof.
  induction l as [|x l IH]; intros Hf; cbn [try_any existsb]; [done|].
  rewrite Hf by left. cbn [mbind result_bind]. destruct (g x); [done|]. apply IH.
  intros y Hy. apply Hf. by right.
Qed.

Lemma try_filter_pure {E A} (f : A → result E bool) (g : A → bool) l :
  (∀ x, x ∈ l → f x = Ok (g x)) → try_filter f l = Ok (filter (λ x, g x = true) l).
Proof.
  induction l as [|x l IH]; intros Hf; cbn [try_filter]; [done|].
  rewrite Hf by left. rewrite IH by (intros y Hy; apply Hf; by right).
  cbn [mbind result_bind]. rewrite filter_cons. by destruct (g x).
Qed.

Lemma elem_of_option_list {A} (o : option A) x : x ∈ option_list o ↔ o = Some x.
Proof.
  destruct o; cbn; rewrite ?list_elem_of_singleton, ?elem_of_nil; naive_solver.
Qed.

(** ** Filters *)
Section filters.
Context {A : Type} (P : A → Prop) `{∀ x, Decision (P x)}.

Lemma length_filter_full (l : list A) : length (filter P l) = length l ↔ Forall P l.
Proof.
  induction l as [|x l IH]; [by split|]. rewrite filter_cons, Forall_cons.
  pose proof (length_filter P l). case_decide; cbn [length]; [rewrite <-IH|]; intuition lia.
Qed.

Lemma filter_nil_Forall (l : list A) : filter P l = [] ↔ Forall (λ x, ¬ P x) l.
Proof.
  induction l as [|x l IH]; [by split|]. rewrite filter_cons, Forall_cons.
  case_decide; [|by rewrite IH; tauto]. split; [done|tauto].
Qed.

(** Counting by a loop. *)
Lemma foldl_count (f : nat → A → nat) (n : nat) (l : list A) :
  (∀ n x, f n x = if decide (P x) then S n else n) →
  foldl f n l = n + length (filter P l).
Proof.
  intros Hf. revert n. induction l as [|x l IH]; intros n; cbn [foldl]; [cbn; lia|].
  rewrite IH, Hf, filter_cons. case_decide; cbn [length]; lia.
Qed.
End filters.

(** ** Big-endian numbers *)
Lemma be_bytes_acc acc b :
  foldl (λ a x, a * 256 + x)%N acc b = (acc * 256 ^ N.of_nat (length b) + from_be_bytes b)%N.
Proof.
  unfold from_be_bytes. revert acc. induction b as [|x b IH]; intros acc; [cbn; lia|].
  cbn [foldl length]. rewrite IH, (IH (0 * 256 + x)%N), Nat2N.inj_succ, N.pow_succ_r'. lia.
Qed.

Lemma from_be_bytes_snoc b x : from_be_bytes (b ++ [x]) = (from_be_bytes b * 256 + x)%N.
Proof. unfold from_be_bytes. by rewrite foldl_app. Qed.

Lemma be_bytes_lt b :
  Forall (λ x, x < 256)%N b → (from_be_bytes b < 256 ^ N.of_nat (length b))%N.
Proof.
  induction b as [|x b IH] using rev_ind; [done|]. intros [Hb Hx]%Forall_app.
  rewrite from_be_bytes_snoc, length_app, Nat.add_1_r, Nat2N.inj_succ, N.pow_succ_r'.
  specialize (IH Hb). inversion Hx. lia.
Qed.
