(* ===== verification/X509.v ===== *)
(** * X.509 data as the library reads it

    The structures of the crates [x509-cert], [spki] and [der], restricted to
    the fields the source reads, and the functions of those crates as type
    classes: a decoder [from_der], an encoder [to_der] and the other calls are
    parameters of every definition that uses them.  Nothing of this file is
    code of the repository. *)
From S2P Require Import Prelude.

(** ** Object identifiers, ASN.1 values and names *)

(** [der::asn1::ObjectIdentifier]: its arcs. *)
Abbreviation ObjectIdentifier := (list N).

(** [der::Tag]: the string tags the source names, any other by its number. *)
Inductive Tag :=
| Utf8String | PrintableString | Ia5String | VisibleString | BmpString
| OtherTag (number : N).
#[global] Instance Tag_eq_dec : EqDecision Tag.
Proof. solve_decision. Defined.

(** [der::Any]: a tag and the content octets. *)
Record Any := { any_tag : Tag; any_value : bytes }.
#[global] Instance Any_eq_dec : EqDecision Any.
Proof. solve_decision. Defined.

(** [AttributeTypeAndValue] *)
Record AttributeTypeAndValue := { ava_oid : ObjectIdentifier; ava_value : Any }.
#[global] Instance AttributeTypeAndValue_eq_dec : EqDecision AttributeTypeAndValue.
Proof. solve_decision. Defined.

(** [RelativeDistinguishedName] and [Name]: a sequence of sets of values. *)
Abbreviation RelativeDistinguishedName := (list AttributeTypeAndValue).
Abbreviation Name := (list RelativeDistinguishedName).

(** [RdnSequence::is_empty] *)
Definition name_is_empty (n : Name) : bool :=
  match n with [] => true | _ => false end.

(** ** Keys and algorithms *)
Record AlgorithmIdentifier := { alg_oid : ObjectIdentifier; alg_parameters : option Any }.
#[global] Instance AlgorithmIdentifier_eq_dec : EqDecision AlgorithmIdentifier.
Proof. solve_decision. Defined.

Record BitString := { unused_bits : N; raw_bytes : bytes }.
#[global] Instance BitString_eq_dec : EqDecision BitString.
Proof. solve_decision. Defined.

Record SubjectPublicKeyInfo :=
  { spki_algorithm : AlgorithmIdentifier; subject_public_key : BitString }.
#[global] Instance SubjectPublicKeyInfo_eq_dec : EqDecision SubjectPublicKeyInfo.
Proof. solve_decision. Defined.

(** [SerialNumber]: its content octets, compared verbatim. *)
Abbreviation SerialNumber := bytes.

(** [x509_cert::time::Time], read only through [to_unix_duration().as_secs()]:
    a [u64] number of seconds. *)
Record Time := { to_unix_secs : N }.
#[global] Instance Time_eq_dec : EqDecision Time.
Proof. solve_decision. Defined.

(** ** Certificates *)
Record Extension := { extn_id : ObjectIdentifier; critical : bool; extn_value : bytes }.
#[global] Instance Extension_eq_dec : EqDecision Extension.
Proof. solve_decision. Defined.

Record TbsCertificate := {
  serial_number : SerialNumber;
  tbs_signature : AlgorithmIdentifier;
  issuer : Name;
  not_before : Time;
  not_after : Time;
  subject : Name;
  subject_public_key_info : SubjectPublicKeyInfo;
  extensions : option (list Extension) }.
#[global] Instance TbsCertificate_eq_dec : EqDecision TbsCertificate.
Proof. solve_decision. Defined.

Record Certificate := {
  tbs_certificate : TbsCertificate;
  signature_algorithm : AlgorithmIdentifier;
  cert_signature : BitString }.
#[global] Instance Certificate_eq_dec : EqDecision Certificate.
Proof. solve_decision. Defined.

(** [extensions.as_deref().unwrap_or(&[])] *)
Definition cert_extensions (c : Certificate) : list Extension :=
  default [] (extensions (tbs_certificate c)).

(** ** Decoded extensions *)
Inductive GeneralName :=
| OtherName (type_id : ObjectIdentifier) (value : Any)
| Rfc822Name (s : bytes)
| DnsName (s : bytes)
| DirectoryName (n : Name)
| EdiPartyName (b : bytes)
| UniformResourceIdentifier (s : bytes)
| IpAddress (b : bytes)
| RegisteredId (oid : ObjectIdentifier).
#[global] Instance GeneralName_eq_dec : EqDecision GeneralName.
Proof. solve_decision. Defined.

Record GeneralSubtree :=
  { base : GeneralName; st_minimum : N; st_maximum : option N }.
#[global] Instance GeneralSubtree_eq_dec : EqDecision GeneralSubtree.
Proof. solve_decision. Defined.
Abbreviation GeneralSubtrees := (list GeneralSubtree).

Record NameConstraints := {
  permitted_subtrees : option GeneralSubtrees;
  excluded_subtrees : option GeneralSubtrees }.
#[global] Instance NameConstraints_eq_dec : EqDecision NameConstraints.
Proof. solve_decision. Defined.

Record SubjectAltName := { san_names : list GeneralName }.
Record ExtendedKeyUsage := { eku_oids : list ObjectIdentifier }.
Record BasicConstraints := { ca : bool; path_len_constraint : option N }.
Record KeyUsage := {
  digital_signature : bool; non_repudiation : bool; key_encipherment : bool;
  data_encipherment : bool; key_agreement : bool; key_cert_sign : bool;
  crl_sign : bool; encipher_only : bool; decipher_only : bool }.

Record PolicyQualifierInfo :=
  { policy_qualifier_id : ObjectIdentifier; qualifier : option Any }.
#[global] Instance PolicyQualifierInfo_eq_dec : EqDecision PolicyQualifierInfo.
Proof. solve_decision. Defined.
Record PolicyInformation := {
  policy_identifier : ObjectIdentifier;
  policy_qualifiers : option (list PolicyQualifierInfo) }.
Record CertificatePolicies := { cp_infos : list PolicyInformation }.
Record PolicyMapping := {
  issuer_domain_policy : ObjectIdentifier; subject_domain_policy : ObjectIdentifier }.
Record PolicyMappings := { pm_mappings : list PolicyMapping }.
Record PolicyConstraints := {
  require_explicit_policy : option N; inhibit_policy_mapping : option N }.
Record InhibitAnyPolicy := { iap_skip : N }.
Record AuthorityKeyIdentifier := { key_identifier : option bytes }.
Record SubjectKeyIdentifier := { ski_bytes : bytes }.

(** ** The functions of the [der], [x509-cert] and [spki] crates *)

(** [der::Error], observed through its [Display] rendering. *)
Abbreviation der_error := string.

(** [T::from_der] *)
Class DecodeOwned (T : Type) := from_der : bytes → der_error + T.
#[global] Hint Mode DecodeOwned ! : typeclass_instances.

(** [t.to_der()], [t.encode_to_vec(..)] *)
Class Encode (T : Type) := to_der : T → der_error + bytes.
#[global] Hint Mode Encode ! : typeclass_instances.

(** A call of such a function: it returns an error or a value. *)
Definition lift_der {E A} (f : der_error → E) (r : der_error + A) : result E A :=
  match r with inl e => Err (f e) | inr a => Ok a end.

Lemma lift_der_Ok {E A} (f : der_error → E) (r : der_error + A) a :
  lift_der f r = Ok a ↔ r = inr a.
Proof. destruct r; cbn; naive_solver. Qed.

Lemma no_panic_lift_der {E A} (f : der_error → E) (r : der_error + A) :
  no_panic (lift_der f r).
Proof. by destruct r. Qed.
#[export] Hint Resolve no_panic_lift_der : pkix.

(** The decoders and encoders path validation calls. *)
Class PathAsn1 := {
  decode_key_usage :: DecodeOwned KeyUsage;
  decode_basic_constraints :: DecodeOwned BasicConstraints;
  decode_subject_alt_name :: DecodeOwned SubjectAltName;
  decode_extended_key_usage :: DecodeOwned ExtendedKeyUsage;
  decode_name_constraints :: DecodeOwned NameConstraints;
  decode_certificate_policies :: DecodeOwned CertificatePolicies;
  decode_policy_mappings :: DecodeOwned PolicyMappings;
  decode_policy_constraints :: DecodeOwned PolicyConstraints;
  decode_inhibit_any_policy :: DecodeOwned InhibitAnyPolicy;
  encode_tbs_certificate :: Encode TbsCertificate;
  (** [any.decode_as::<Ia5StringRef>()] *)
  decode_as_ia5 : Any → option bytes;
  (** [BitString::as_bytes] *)
  bit_string_as_bytes : BitString → option bytes;
  (** The length of the magnitude of the modulus of a DER [RSAPublicKey]:
      [SliceReader::sequence], [UintRef::decode] and [tlv_bytes] on the bytes. *)
  rsa_modulus_len : bytes → option nat }.

(** The decoders of the key identifiers. *)
Class KeyIdAsn1 := {
  decode_aki :: DecodeOwned AuthorityKeyIdentifier;
  decode_ski :: DecodeOwned SubjectKeyIdentifier }.

(** [[u8; 32]]: thirty-two octets. *)
Definition is_hash (b : bytes) : bool :=
  bool_decide (length b = 32 ∧ Forall (λ x, x < 256)%N b).
Record Hash32 := { hash_bytes : bytes; hash_ok : is_hash hash_bytes = true }.

Lemma hash_bytes_inj (a b : Hash32) : hash_bytes a = hash_bytes b → a = b.
Proof. destruct a as [a Ha], b as [b Hb]. cbn. intros ->. f_equal. apply proof_irrel. Qed.

#[global] Instance Hash32_eq_dec : EqDecision Hash32.
Proof.
  refine (λ a b, cast_if (decide (hash_bytes a = hash_bytes b)));
    [by apply hash_bytes_inj|congruence].
Defined.

(** [Sha256::digest] of the crate [sha2]. *)
Class Sha256 := sha256 : bytes → Hash32.
(** Its octets. *)
Definition sha256_digest `{Sha256} (b : bytes) : bytes := hash_bytes (sha256 b).

Lemma sha256_octets `{Sha256} b : Forall (λ x, x < 256)%N (sha256_digest b).
Proof. by pose proof (hash_ok (sha256 b)) as [_ ?]%bool_decide_eq_true_1. Qed.
Lemma length_sha256 `{Sha256} b : length (sha256_digest b) = 32.
Proof. by pose proof (hash_ok (sha256 b)) as [? _]%bool_decide_eq_true_1. Qed.
