(* ===== verification/PathTypes.v ===== *)
(** * Inputs, outputs and errors of path validation (pkix-path/src/lib.rs)

    The error type, the trust anchor, the policy and the result record of
    [validate_path], the OID constants and the lookup of an extension of a
    certificate. *)
From S2P Require Import Prelude X509.

(** ** Object identifiers *)
Definition OID_KEY_USAGE : ObjectIdentifier := [2; 5; 29; 15]%N.
Definition OID_BASIC_CONSTRAINTS : ObjectIdentifier := [2; 5; 29; 19]%N.
Definition OID_SUBJECT_ALT_NAME : ObjectIdentifier := [2; 5; 29; 17]%N.
Definition OID_EXTENDED_KEY_USAGE : ObjectIdentifier := [2; 5; 29; 37]%N.
Definition OID_NAME_CONSTRAINTS : ObjectIdentifier := [2; 5; 29; 30]%N.
Definition OID_CERTIFICATE_POLICIES : ObjectIdentifier := [2; 5; 29; 32]%N.
Definition OID_POLICY_MAPPINGS : ObjectIdentifier := [2; 5; 29; 33]%N.
Definition OID_POLICY_CONSTRAINTS : ObjectIdentifier := [2; 5; 29; 36]%N.
Definition OID_INHIBIT_ANY_POLICY : ObjectIdentifier := [2; 5; 29; 54]%N.
Definition OID_ANY_POLICY : ObjectIdentifier := [2; 5; 29; 32; 0]%N.
Definition OID_EMAIL_ADDRESS : ObjectIdentifier := [1; 2; 840; 113549; 1; 9; 1]%N.

Definition HANDLED_CRITICAL_OIDS : list ObjectIdentifier := [
  OID_KEY_USAGE; OID_BASIC_CONSTRAINTS; OID_SUBJECT_ALT_NAME;
  OID_EXTENDED_KEY_USAGE; OID_NAME_CONSTRAINTS; OID_CERTIFICATE_POLICIES;
  OID_POLICY_MAPPINGS; OID_POLICY_CONSTRAINTS; OID_INHIBIT_ANY_POLICY ].

(** ** Errors *)

(** [DerError]: the cached rendering, and the [der::Error] it was built from
    unless the value was deserialised. *)
Record DerError := { inner : option der_error; message : string }.

(** [DerError::new] *)
Definition der_error_new (e : der_error) : DerError := {| inner := Some e; message := e |}.

(** [impl PartialEq for DerError] *)
Definition der_error_eq (a b : DerError) : bool := bool_decide (message a = message b).

Inductive Error :=
| SignatureInvalid (index : nat)
| MalformedCertificate (index : nat)
| ValidityPeriod (index : nat)
| ChainBroken (index : nat)
| NoTrustedPath
| PathTooLong
| NotCA (index : nat)
| KeyUsageMissing (index : nat)
| CrlSignMissing (index : nat)
| UnhandledCriticalExtension (index : nat)
| NameConstraintViolation (index : nat)
| PolicyViolation (index : nat)
| Der (e : DerError)
| ValidityPeriodExceedsMax (index : nat)
| AlgorithmNotAllowed (index : nat)
| KeyTooSmall (index : nat)
| MissingSan
| MissingRfc822San
| MissingEku
| MissingLeafPolicyOid (required : ObjectIdentifier)
| SubjectDnAttrRuleUnmet
| DuplicateCertificate (first second : nat).

(** [pkix_path::Result<T>] *)
Abbreviation Result := (result Error).

(** ** Extensions of a certificate *)

(** [.iter().find(|e| e.extn_id == oid)] *)
Definition find_ext (cert : Certificate) (oid : ObjectIdentifier) : option Extension :=
  snd <$> list_find (λ e, extn_id e = oid) (cert_extensions cert).

Definition find_cert_ext {T} `{DecodeOwned T} (cert : Certificate)
    (oid : ObjectIdentifier) : option T :=
  e ← find_ext cert oid;
  match from_der (extn_value e) with inl _ => None | inr t => Some t end.

Definition try_find_cert_ext {T} `{DecodeOwned T} (cert : Certificate)
    (oid : ObjectIdentifier) : result der_error (option T) :=
  match find_ext cert oid with
  | None => Ok None
  | Some e => Some <$> lift_der id (from_der (extn_value e))
  end.

(** ** Trust anchors *)
Record TrustAnchor := {
  anchor_subject : Name;
  anchor_spki : SubjectPublicKeyInfo;
  anchor_name_constraints : option NameConstraints }.

(** [TrustAnchor::new] *)
Definition trust_anchor_new (subject : Name) (spki : SubjectPublicKeyInfo) : TrustAnchor :=
  {| anchor_subject := subject; anchor_spki := spki; anchor_name_constraints := None |}.

(** [TrustAnchor::from_cert] *)
Definition trust_anchor_from_cert `{DecodeOwned NameConstraints} (cert : Certificate) :
    TrustAnchor :=
  let name_constraints := find_cert_ext cert OID_NAME_CONSTRAINTS in
  {| anchor_subject := subject (tbs_certificate cert);
     anchor_spki := subject_public_key_info (tbs_certificate cert);
     anchor_name_constraints := name_constraints |}.

(** [impl From<&Certificate> for TrustAnchor] *)
Definition trust_anchor_from `{DecodeOwned NameConstraints} (cert : Certificate) :
    TrustAnchor :=
  {| anchor_subject := subject (tbs_certificate cert);
     anchor_spki := subject_public_key_info (tbs_certificate cert);
     anchor_name_constraints := find_cert_ext cert OID_NAME_CONSTRAINTS |}.

(** [impl TryFrom<Certificate> for TrustAnchor] *)
Definition trust_anchor_try_from `{DecodeOwned NameConstraints} (cert : Certificate) :
    result DerError TrustAnchor :=
  name_constraints ←
    map_err der_error_new (try_find_cert_ext cert OID_NAME_CONSTRAINTS);
  mret {| anchor_subject := subject (tbs_certificate cert);
          anchor_spki := subject_public_key_info (tbs_certificate cert);
          anchor_name_constraints := name_constraints |}.

(** ** Rules on the attributes of the leaf's subject *)
Inductive DnAttrRule :=
| Field (oid : ObjectIdentifier)
| AllOf (rules : list DnAttrRule)
| AnyOf (rules : list DnAttrRule).

(** ** The policy *)
Record ValidationPolicy := {
  max_path_len : N;
  current_time_unix : N;
  enforce_key_usage : bool;
  require_crl_sign_on_cas : bool;
  initial_explicit_policy : bool;
  initial_any_policy_inhibit : bool;
  initial_policy_mapping_inhibit : bool;
  initial_policy_set : list ObjectIdentifier;
  max_validity_secs : option N;
  allowed_signature_algs : option (list ObjectIdentifier);
  min_rsa_key_bits : option N;
  require_subject_alt_name : bool;
  require_rfc822_san : bool;
  required_leaf_eku : option (list ObjectIdentifier);
  required_leaf_policy_oids : option (list ObjectIdentifier);
  required_leaf_subject_dn_attrs : option DnAttrRule }.

(** [ValidationPolicy::new] *)
Definition validation_policy_new (now_unix : N) : ValidationPolicy := {|
  max_path_len := 10;
  current_time_unix := now_unix;
  enforce_key_usage := true;
  require_crl_sign_on_cas := false;
  initial_explicit_policy := false;
  initial_any_policy_inhibit := false;
  initial_policy_mapping_inhibit := false;
  initial_policy_set := [];
  max_validity_secs := None;
  allowed_signature_algs := None;
  min_rsa_key_bits := None;
  require_subject_alt_name := false;
  require_rfc822_san := false;
  required_leaf_eku := None;
  required_leaf_policy_oids := None;
  required_leaf_subject_dn_attrs := None |}.

(** [policy.current_time_unix = now_unix] *)
Definition set_current_time_unix (now_unix : N) (p : ValidationPolicy) : ValidationPolicy := {|
  max_path_len := max_path_len p;
  current_time_unix := now_unix;
  enforce_key_usage := enforce_key_usage p;
  require_crl_sign_on_cas := require_crl_sign_on_cas p;
  initial_explicit_policy := initial_explicit_policy p;
  initial_any_policy_inhibit := initial_any_policy_inhibit p;
  initial_policy_mapping_inhibit := initial_policy_mapping_inhibit p;
  initial_policy_set := initial_policy_set p;
  max_validity_secs := max_validity_secs p;
  allowed_signature_algs := allowed_signature_algs p;
  min_rsa_key_bits := min_rsa_key_bits p;
  require_subject_alt_name := require_subject_alt_name p;
  require_rfc822_san := require_rfc822_san p;
  required_leaf_eku := required_leaf_eku p;
  required_leaf_policy_oids := required_leaf_policy_oids p;
  required_leaf_subject_dn_attrs := required_leaf_subject_dn_attrs p |}.

(** [trait Profile] *)
Class Profile (P : Type) := {
  profile_id : P → string;
  profile_version : P → string;
  profile_policy : P → N → ValidationPolicy;
  profile_policy_oids : P → list ObjectIdentifier }.

(** ** The result of validation *)
Record PolicyTreeNode := {
  ptn_depth : nat;
  ptn_valid_policy : ObjectIdentifier;
  ptn_expected_policy_set : list ObjectIdentifier;
  ptn_qualifiers : list PolicyQualifierInfo }.

Record ValidatedPath := {
  anchor_index : nat;
  path_depth : nat;
  leaf_subject : Name;
  leaf_issuer : Name;
  leaf_serial : SerialNumber;
  leaf_spki : SubjectPublicKeyInfo;
  valid_policy_tree : option (list PolicyTreeNode) }.

(** [ValidatedPath::policy_qualifiers] *)
Definition validated_path_policy_qualifiers (p : ValidatedPath) :
    list (ObjectIdentifier * PolicyQualifierInfo) :=
  mjoin ((λ node, (λ q, (ptn_valid_policy node, q)) <$> ptn_qualifiers node)
           <$> default [] (valid_policy_tree p)).

(** ** Lemmas on extension lookup *)
Lemma find_ext_bind cert oid :
  find_ext cert oid =
  exts ← extensions (tbs_certificate cert); snd <$> list_find (λ e, extn_id e = oid) exts.
Proof. unfold find_ext, cert_extensions. by destruct (extensions _). Qed.

Lemma find_ext_Some cert oid e :
  find_ext cert oid = Some e → e ∈ cert_extensions cert ∧ extn_id e = oid.
Proof.
  unfold find_ext. rewrite fmap_Some. intros ([i e'] & (Hl & Hid & _)%list_find_Some & ->).
  split; [|done]. by eapply list_elem_of_lookup_2.
Qed.

Lemma find_ext_None cert oid :
  find_ext cert oid = None ↔ ∀ e, e ∈ cert_extensions cert → extn_id e ≠ oid.
Proof.
  unfold find_ext. rewrite fmap_None, list_find_None, Forall_forall. done.
Qed.

Lemma no_panic_try_find_cert_ext {T} `{DecodeOwned T} cert oid :
  no_panic (try_find_cert_ext (T:=T) cert oid).
Proof.
  unfold try_find_cert_ext. case_match; [|done]. auto with pkix.
Qed.
#[export] Hint Resolve no_panic_try_find_cert_ext : pkix.

(** [TryFrom] and [From] build the same anchor whenever the former succeeds. *)
Lemma trust_anchor_try_from_Ok `{DecodeOwned NameConstraints} cert a :
  trust_anchor_try_from cert = Ok a → a = trust_anchor_from cert.
Proof.
  unfold trust_anchor_try_from, trust_anchor_from, try_find_cert_ext, find_cert_ext.
  intros Ha. inv_ok. rewrite <-Ha. f_equal. destruct (find_ext _ _) as [e|]; cbn in *;
    inv_ok; [|by subst].
  apply lift_der_Ok in Hr0. by subst r; rewrite Hr0.
Qed.
