(* ===== verification/Verifier.v ===== *)
(** * Signature verification (pkix-path/src/lib.rs)

    The interface [SignatureVerifier] that path validation is proved against,
    and [DefaultVerifier], which dispatches on the algorithm.  The RustCrypto
    crates are parameters: the parsing of a key, of a signature, and the
    verification equation of each scheme. *)
From S2P Require Import Prelude X509.

(** [trait SignatureVerifier]: [true] is [Ok(())], [false] the opaque error. *)
Class SignatureVerifier (V : Type) :=
  verify_signature : V → AlgorithmIdentifier → SubjectPublicKeyInfo → bytes → bytes → bool.
#[global] Hint Mode SignatureVerifier ! : typeclass_instances.

(** ** The backends *)

(** One scheme of the [p256], [p384] or [rsa] crate. *)
Record Scheme := {
  VerifyingKey : Type;
  Signature : Type;
  key_try_from : SubjectPublicKeyInfo → option VerifyingKey;
  signature_try_from : bytes → option Signature;
  verify : VerifyingKey → bytes → Signature → bool }.

Class RustCrypto := {
  p256_ecdsa_sha256 : Scheme;
  p384_ecdsa_sha384 : Scheme;
  rsa_pkcs1v15_sha256 : Scheme;
  rsa_pkcs1v15_sha384 : Scheme;
  rsa_pkcs1v15_sha512 : Scheme }.

(** The cargo features of the crate. *)
Record Features := { feature_p256 : bool; feature_p384 : bool; feature_rsa : bool }.

Definition OID_ECDSA_P256_SHA256 : ObjectIdentifier := [1; 2; 840; 10045; 4; 3; 2]%N.
Definition OID_ECDSA_P384_SHA384 : ObjectIdentifier := [1; 2; 840; 10045; 4; 3; 3]%N.
Definition OID_SHA256_WITH_RSA : ObjectIdentifier := [1; 2; 840; 113549; 1; 1; 11]%N.
Definition OID_SHA384_WITH_RSA : ObjectIdentifier := [1; 2; 840; 113549; 1; 1; 12]%N.
Definition OID_SHA512_WITH_RSA : ObjectIdentifier := [1; 2; 840; 113549; 1; 1; 13]%N.
Definition OID_RSA_ENCRYPTION : ObjectIdentifier := [1; 2; 840; 113549; 1; 1; 1]%N.

(** The body the five backends share. *)
Definition scheme_verify (expected : ObjectIdentifier) (s : Scheme)
    (algorithm : AlgorithmIdentifier) (issuer_spki : SubjectPublicKeyInfo)
    (message signature : bytes) : bool :=
  if decide (alg_oid algorithm ≠ expected) then false
  else match key_try_from s issuer_spki with
  | None => false
  | Some vk =>
      match signature_try_from s signature with
      | None => false
      | Some sig => verify s vk message sig
      end
  end.

Section backends.
Context `{RustCrypto}.

Inductive EcdsaP256Verifier := MkEcdsaP256Verifier.
#[global] Instance EcdsaP256Verifier_impl : SignatureVerifier EcdsaP256Verifier :=
  λ _, scheme_verify OID_ECDSA_P256_SHA256 p256_ecdsa_sha256.

Inductive EcdsaP384Verifier := MkEcdsaP384Verifier.
#[global] Instance EcdsaP384Verifier_impl : SignatureVerifier EcdsaP384Verifier :=
  λ _, scheme_verify OID_ECDSA_P384_SHA384 p384_ecdsa_sha384.

Inductive RsaPkcs1v15Sha256Verifier := MkRsaPkcs1v15Sha256Verifier.
#[global] Instance RsaPkcs1v15Sha256Verifier_impl : SignatureVerifier RsaPkcs1v15Sha256Verifier :=
  λ _, scheme_verify OID_SHA256_WITH_RSA rsa_pkcs1v15_sha256.

Inductive RsaPkcs1v15Sha384Verifier := MkRsaPkcs1v15Sha384Verifier.
#[global] Instance RsaPkcs1v15Sha384Verifier_impl : SignatureVerifier RsaPkcs1v15Sha384Verifier :=
  λ _, scheme_verify OID_SHA384_WITH_RSA rsa_pkcs1v15_sha384.

Inductive RsaPkcs1v15Sha512Verifier := MkRsaPkcs1v15Sha512Verifier.
#[global] Instance RsaPkcs1v15Sha512Verifier_impl : SignatureVerifier RsaPkcs1v15Sha512Verifier :=
  λ _, scheme_verify OID_SHA512_WITH_RSA rsa_pkcs1v15_sha512.

(** ** DefaultVerifier *)
Record DefaultVerifier := { default_features : Features }.
#[global] Instance DefaultVerifier_impl : SignatureVerifier DefaultVerifier :=
  λ self algorithm issuer_spki message signature,
    let oid := alg_oid algorithm in
    let f := default_features self in
    if feature_p256 f && bool_decide (oid = OID_ECDSA_P256_SHA256)
    then verify_signature MkEcdsaP256Verifier algorithm issuer_spki message signature
    else if feature_p384 f && bool_decide (oid = OID_ECDSA_P384_SHA384)
    then verify_signature MkEcdsaP384Verifier algorithm issuer_spki message signature
    else if feature_rsa f && bool_decide (oid = OID_SHA256_WITH_RSA)
    then verify_signature MkRsaPkcs1v15Sha256Verifier algorithm issuer_spki message signature
    else if feature_rsa f && bool_decide (oid = OID_SHA384_WITH_RSA)
    then verify_signature MkRsaPkcs1v15Sha384Verifier algorithm issuer_spki message signature
    else if feature_rsa f && bool_decide (oid = OID_SHA512_WITH_RSA)
    then verify_signature MkRsaPkcs1v15Sha512Verifier algorithm issuer_spki message signature
    else false.

(** ** Specification: a table from algorithms to schemes *)
Definition scheme_table (f : Features) : list (ObjectIdentifier * Scheme) :=
  (if feature_p256 f then [(OID_ECDSA_P256_SHA256, p256_ecdsa_sha256)] else []) ++
  (if feature_p384 f then [(OID_ECDSA_P384_SHA384, p384_ecdsa_sha384)] else []) ++
  (if feature_rsa f then [(OID_SHA256_WITH_RSA, rsa_pkcs1v15_sha256);
                          (OID_SHA384_WITH_RSA, rsa_pkcs1v15_sha384);
                          (OID_SHA512_WITH_RSA, rsa_pkcs1v15_sha512)] else []).

(** The key and the signature parse, and the equation of the scheme holds. *)
Definition scheme_accepts (s : Scheme) (spki : SubjectPublicKeyInfo) (msg sig : bytes) : Prop :=
  ∃ vk sg, key_try_from s spki = Some vk ∧ signature_try_from s sig = Some sg ∧
           verify s vk msg sg = true.

Lemma scheme_verify_spec oid s alg spki msg sig :
  scheme_verify oid s alg spki msg sig = true ↔
  alg_oid alg = oid ∧ scheme_accepts s spki msg sig.
Proof.
  unfold scheme_verify, scheme_accepts. case_decide as Ho; [naive_solver|].
  destruct (key_try_from s spki), (signature_try_from s sig); naive_solver.
Qed.

Lemma scheme_verify_other oid s alg spki msg sig :
  alg_oid alg ≠ oid → scheme_verify oid s alg spki msg sig = false.
Proof. intros Ho. unfold scheme_verify. by rewrite decide_True. Qed.

(** At most one entry of the table can accept, the one the dispatch selects. *)
Lemma default_verifier_table f alg spki msg sig :
  verify_signature {| default_features := f |} alg spki msg sig =
  existsb (λ e, scheme_verify e.1 e.2 alg spki msg sig) (scheme_table f).
Proof.
  cbv beta delta [verify_signature DefaultVerifier_impl EcdsaP256Verifier_impl
    EcdsaP384Verifier_impl RsaPkcs1v15Sha256Verifier_impl RsaPkcs1v15Sha384Verifier_impl
    RsaPkcs1v15Sha512Verifier_impl]; cbn [default_features]. unfold scheme_table.
  destruct (feature_p256 f), (feature_p384 f), (feature_rsa f); cbn [andb existsb app fst snd];
    repeat (case_bool_decide as Ho;
      [repeat match goal with
       | |- context [scheme_verify ?o ?s alg spki msg sig] =>
           rewrite (scheme_verify_other o s) by (rewrite Ho; by vm_compute)
       end; cbn; by rewrite ?orb_false_r
      |rewrite (scheme_verify_other _ _ _ _ _ _ Ho); clear Ho]); done.
Qed.

(** The default verifier accepts a signature exactly when a scheme of an
    enabled feature is registered for the algorithm of the certificate, and
    that scheme parses the issuer's key and the signature and accepts the
    message; every other algorithm is refused. *)
Theorem default_verifier_dispatch f alg spki msg sig :
  verify_signature {| default_features := f |} alg spki msg sig = true ↔
  ∃ s, (alg_oid alg, s) ∈ scheme_table f ∧ scheme_accepts s spki msg sig.
Proof.
  rewrite default_verifier_table, existsb_elem. setoid_rewrite scheme_verify_spec. split.
  - intros ([o s] & Hin & Ho & Ha). cbn in Ho, Ha. subst o. by exists s.
  - intros (s & Hin & Ha). exists (alg_oid alg, s). by repeat split.
Qed.
End backends.
