(* ===== verification/Samples.v ===== *)
(** * Concrete instances for the witnesses

    A toy encoding that instantiates the decoders and encoders the model takes
    as parameters, and builders of small certificates.  Nothing here models
    code of the repository: the witnesses evaluate the model on it. *)
From S2P Require Import Prelude X509 PathTypes Verifier.

(** A policy is one number, 0 stands for anyPolicy and 254 for the policy of
    mail certificates that name a validated person. *)
Definition sample_policy (n : N) : ObjectIdentifier :=
  if decide (n = 0)%N then OID_ANY_POLICY
  else if decide (n = 254)%N then [2; 23; 140; 1; 5; 4; 3]%N else [n].

Fixpoint sample_pairs (b : bytes) : list (N * N) :=
  match b with x :: y :: r => (x, y) :: sample_pairs r | _ => [] end.

Definition sample_policy_info (n : N) : PolicyInformation :=
  {| policy_identifier := sample_policy n; policy_qualifiers := None |}.

(** A subtree on a DNS name. *)
Definition dns_subtree (b : bytes) : GeneralSubtree :=
  {| base := DnsName b; st_minimum := 0; st_maximum := None |}.

(** The first octet 255 makes any value malformed. *)
Definition sample_der {T} (f : bytes → T) (b : bytes) : der_error + T :=
  match b with 255%N :: _ => inl "malformed"%string | _ => inr (f b) end.

#[export] Instance sample_asn1 : PathAsn1 := {|
  decode_key_usage := sample_der (λ b, {|
    digital_signature := true; non_repudiation := false; key_encipherment := false;
    data_encipherment := false; key_agreement := false;
    key_cert_sign := bool_decide (1 ∈ b)%N; crl_sign := bool_decide (2 ∈ b)%N;
    encipher_only := false; decipher_only := false |});
  decode_basic_constraints := sample_der (λ b,
    match b with
    | 1%N :: r => {| ca := true; path_len_constraint := head r |}
    | _ => {| ca := false; path_len_constraint := None |}
    end);
  decode_subject_alt_name := sample_der (λ b,
    {| san_names := match b with
                    | 1%N :: r => [Rfc822Name r]
                    | 2%N :: r => [DnsName r]
                    | _ => []
                    end |});
  decode_extended_key_usage := sample_der (λ b, {| eku_oids := (λ n, [1; 3; 6; 1; 5; 5; 7; 3; n]%N) <$> b |});
  decode_name_constraints := sample_der (λ b,
    match b with
    | 0%N :: r => {| permitted_subtrees := Some [dns_subtree r]; excluded_subtrees := None |}
    | 1%N :: r => {| permitted_subtrees := None; excluded_subtrees := Some [dns_subtree r] |}
    | _ => {| permitted_subtrees := None; excluded_subtrees := None |}
    end);
  decode_certificate_policies := sample_der (λ b, {| cp_infos := sample_policy_info <$> b |});
  decode_policy_mappings := sample_der (λ b, {| pm_mappings :=
    (λ p, {| issuer_domain_policy := sample_policy p.1;
             subject_domain_policy := sample_policy p.2 |}) <$> sample_pairs b |});
  decode_policy_constraints := sample_der (λ b,
    {| require_explicit_policy := head b; inhibit_policy_mapping := head (tail b) |});
  decode_inhibit_any_policy := sample_der (λ b, {| iap_skip := default 0%N (head b) |});
  encode_tbs_certificate := λ t, inr (serial_number t);
  decode_as_ia5 := λ a, if decide (any_tag a = Ia5String) then Some (any_value a) else None;
  bit_string_as_bytes := λ b, if decide (unused_bits b = 0)%N then Some (raw_bytes b) else None;
  rsa_modulus_len := λ b, Some (length b) |}.

(** A name with one common name. *)
Definition sample_name (s : string) : Name :=
  [[{| ava_oid := [2; 5; 4; 3]%N; ava_value := {| any_tag := Utf8String; any_value := str s |} |}]].

Definition sample_alg : AlgorithmIdentifier := {| alg_oid := [1; 1]%N; alg_parameters := None |}.

Definition sample_spki (k : bytes) : SubjectPublicKeyInfo := {|
  spki_algorithm := {| alg_oid := [1; 2]%N; alg_parameters := None |};
  subject_public_key := {| unused_bits := 0; raw_bytes := k |} |}.

Definition sample_ext (oid : ObjectIdentifier) (v : bytes) : Extension :=
  {| extn_id := oid; critical := true; extn_value := v |}.

(** A certificate valid from 100 to 200, whose key is its subject and whose
    signature is the name of the issuer. *)
Definition sample_cert (iss subj : string) (serial : N) (exts : list Extension) : Certificate := {|
  tbs_certificate := {|
    serial_number := [serial]; tbs_signature := sample_alg;
    issuer := sample_name iss;
    not_before := {| to_unix_secs := 100 |}; not_after := {| to_unix_secs := 200 |};
    subject := sample_name subj;
    subject_public_key_info := sample_spki (str subj);
    extensions := Some exts |};
  signature_algorithm := sample_alg;
  cert_signature := {| unused_bits := 0; raw_bytes := str iss |} |}.

Definition sample_anchor (s : string) : TrustAnchor :=
  trust_anchor_new (sample_name s) (sample_spki (str s)).

(** The extensions of a certification authority. *)
Definition sample_ca_exts : list Extension :=
  [ sample_ext OID_BASIC_CONSTRAINTS [1]%N; sample_ext OID_KEY_USAGE [1; 2]%N ].

(** A verifier that accepts a signature equal to the issuer's key. *)
Inductive SampleVerifier := MkSampleVerifier.
#[export] Instance SampleVerifier_impl : SignatureVerifier SampleVerifier :=
  λ _ _ spki _ sig, bool_decide (sig = raw_bytes (subject_public_key spki)).

Definition sample_policies : ValidationPolicy := validation_policy_new 150.

(** An issuer certificate with further extensions. *)
Definition sample_ca (iss subj : string) (serial : N) (exts : list Extension) : Certificate :=
  sample_cert iss subj serial (sample_ca_exts ++ exts).

#[export] Instance sample_key_ids : KeyIdAsn1 := {|
  decode_aki := sample_der (λ b, {| key_identifier := Some b |});
  decode_ski := sample_der (λ b, {| ski_bytes := b |}) |}.

(** Thirty-two octets from any, for sample digests. *)
Definition pad32_octets (b : bytes) : bytes := take 32 ((λ x, x mod 256)%N <$> b ++ replicate 32 0%N).
Lemma pad32_ok b : is_hash (pad32_octets b) = true.
Proof.
  unfold is_hash, pad32_octets. apply bool_decide_eq_true_2. split.
  - rewrite length_take, length_fmap, length_app, length_replicate. lia.
  - apply Forall_take, Forall_fmap, Forall_true. intros x. by apply N.mod_lt.
Qed.
Definition pad32 (b : bytes) : Hash32 := {| hash_bytes := pad32_octets b; hash_ok := pad32_ok b |}.
