(* ===== verification/Names.v ===== *)
(** * Distinguished-name comparison (pkix-path/src/lib.rs)

    [NormalizedIter] is the byte iterator of the source with its state;
    [canonical] is the specification of what it yields.  [names_match] is
    proved an equivalence and registered for setoid rewriting. *)
From S2P Require Import Prelude X509 PathTypes.

(** ** The normalising iterator *)
Abbreviation SPACE := 32%N.

Record NormalizedIter := { ni_bytes : bytes; ni_pos : nat; ni_pending_space : bool }.

(** [bytes.iter().position(|&b| b != b' ')] *)
Fixpoint position_non_space (l : bytes) : option nat :=
  match l with
  | [] => None
  | b :: r => if decide (b = SPACE) then S <$> position_non_space r else Some 0
  end.

(** [bytes.iter().rposition(|&b| b != b' ')] *)
Definition rposition_non_space (l : bytes) : option nat :=
  (λ i, length l - 1 - i) <$> position_non_space (reverse l).

(** [NormalizedIter::new] *)
Definition normalized_iter_new (b : bytes) : Result NormalizedIter :=
  let start := default (length b) (position_non_space b) in
  from_start ← slice_from start b;
  let stop := match rposition_non_space from_start with
              | None => start
              | Some i => start + i + 1
              end in
  trimmed ← slice_range start stop b;
  mret {| ni_bytes := trimmed; ni_pos := 0; ni_pending_space := false |}.

(** [while self.pos < self.bytes.len() && self.bytes[self.pos] == b' ']:
    [fuel] bounds the iterations, [length bytes - pos] is enough. *)
Fixpoint skip_spaces (fuel : nat) (l : bytes) (pos : nat) : Result nat :=
  match fuel with
  | 0 => Ok pos
  | S fuel =>
      if decide (pos < length l) then
        b ← index l pos;
        if decide (b = SPACE) then skip_spaces fuel l (S pos) else Ok pos
      else Ok pos
  end.

(** [NormalizedIter::next] *)
Definition normalized_iter_next (it : NormalizedIter) : Result (option N * NormalizedIter) :=
  it ← (if ni_pending_space it
        then pos ← skip_spaces (length (ni_bytes it) - ni_pos it) (ni_bytes it) (ni_pos it);
             mret {| ni_bytes := ni_bytes it; ni_pos := pos; ni_pending_space := false |}
        else Ok it);
  if decide (length (ni_bytes it) ≤ ni_pos it) then Ok (None, it)
  else
    b ← index (ni_bytes it) (ni_pos it);
    mret (if decide (b = SPACE)
          then (Some SPACE, {| ni_bytes := ni_bytes it; ni_pos := S (ni_pos it);
                               ni_pending_space := true |})
          else (Some (to_ascii_lowercase b),
                {| ni_bytes := ni_bytes it; ni_pos := S (ni_pos it);
                   ni_pending_space := ni_pending_space it |})).

(** The bytes the iterator yields until [None]; every call of [next] but the
    last advances [ni_pos]. *)
Fixpoint normalized_iter_collect (fuel : nat) (it : NormalizedIter) : Result bytes :=
  match fuel with
  | 0 => Ok []
  | S fuel =>
      '(item, it) ← normalized_iter_next it;
      match item with
      | None => Ok []
      | Some b => rest ← normalized_iter_collect fuel it; mret (b :: rest)
      end
  end.

Definition normalized_bytes (b : bytes) : Result bytes :=
  it ← normalized_iter_new b;
  normalized_iter_collect (S (length b)) it.

(** The comparisons below are [bool]s: [normalized_iter_correct] shows that the
    iterator always returns, so what a panic would be is not used. *)
Definition normalized (b : bytes) : bytes :=
  match normalized_bytes b with Ok l => l | _ => [] end.

(** [NormalizedIter::new(a).eq(NormalizedIter::new(b))] *)
Definition normalized_eq (a b : bytes) : bool :=
  bool_decide (normalized a = normalized b).

(** ** BMPString transcoding *)

(** [u16::from_be_bytes([hi, lo])] *)
Definition u16_from_be_bytes (hi lo : N) : N := hi * 256 + lo.

(** [char::from_u32] on a 16-bit value: [None] on a surrogate. *)
Definition char_from_u16 (cp : N) : option N :=
  if decide (55296 ≤ cp ∧ cp ≤ 57343)%N then None else Some cp.

(** [char::encode_utf8] for a scalar value below 0x10000. *)
Definition encode_utf8 (c : N) : bytes :=
  if decide (c < 128)%N then [c]
  else if decide (c < 2048)%N then
    [192 + N.shiftr c 6; 128 + N.land c 63]%N
  else
    [224 + N.shiftr c 12; 128 + N.land (N.shiftr c 6) 63; 128 + N.land c 63]%N.

(** The loop over [bytes.chunks_exact(2)]. *)
Fixpoint bmp_chunks_to_utf8 (b : bytes) : option bytes :=
  match b with
  | hi :: lo :: r =>
      ch ← char_from_u16 (u16_from_be_bytes hi lo);
      rest ← bmp_chunks_to_utf8 r;
      Some (encode_utf8 ch ++ rest)
  | _ => Some []
  end.

Definition bmp_string_to_utf8 (b : bytes) : option bytes :=
  if decide (length b `mod` 2 ≠ 0) then None else bmp_chunks_to_utf8 b.

(** ** Attribute values and names *)
Definition any_to_str_bytes (a : Any) : option bytes :=
  match any_tag a with
  | Utf8String | PrintableString | Ia5String | VisibleString => Some (any_value a)
  | BmpString => bmp_string_to_utf8 (any_value a)
  | OtherTag _ => None
  end.

Definition ava_values_match (a b : Any) : bool :=
  match any_to_str_bytes a, any_to_str_bytes b with
  | Some a_bytes, Some b_bytes => normalized_eq a_bytes b_bytes
  | None, None => bool_decide (any_tag a = any_tag b) && bool_decide (any_value a = any_value b)
  | _, _ => false
  end.

(** [b_ava.oid == a_ava.oid && ava_values_match(..)] *)
Definition ava_match (a b : AttributeTypeAndValue) : bool :=
  bool_decide (ava_oid a = ava_oid b) && ava_values_match (ava_value a) (ava_value b).

(** The body of the loop of [names_match] on one pair of RDNs. *)
Definition rdns_match (a_avas b_avas : RelativeDistinguishedName) : bool :=
  bool_decide (length a_avas = length b_avas) &&
  forallb (λ a, existsb (λ b, ava_match a b) b_avas) a_avas &&
  forallb (λ b, existsb (λ a, ava_match a b) a_avas) b_avas.

Definition names_match (a b : Name) : bool :=
  bool_decide (length a = length b) &&
  forallb (λ p, rdns_match p.1 p.2) (zip a b).

(** ** Predicates on names and certificates *)
Definition dn_contains_oid (subject : Name) (oid : ObjectIdentifier) : bool :=
  existsb (λ rdn : RelativeDistinguishedName,
             existsb (λ ava, bool_decide (ava_oid ava = oid)) rdn) subject.

Fixpoint evaluate_dn_attr_rule (subject : Name) (rule : DnAttrRule) : bool :=
  match rule with
  | Field oid => dn_contains_oid subject oid
  | AllOf rules => forallb (evaluate_dn_attr_rule subject) rules
  | AnyOf rules => existsb (evaluate_dn_attr_rule subject) rules
  end.

Definition is_self_issued_cert (cert : Certificate) : bool :=
  negb (name_is_empty (subject (tbs_certificate cert))) &&
  names_match (subject (tbs_certificate cert)) (issuer (tbs_certificate cert)).

(** [a.algorithm.oid == b.algorithm.oid && a.subject_public_key == b.subject_public_key] *)
Definition spki_key_matches (a b : SubjectPublicKeyInfo) : bool :=
  bool_decide (alg_oid (spki_algorithm a) = alg_oid (spki_algorithm b)) &&
  bool_decide (subject_public_key a = subject_public_key b).

(** ** Specification of the normalisation *)

(** The maximal runs of bytes other than the space. *)
Fixpoint words (l : bytes) : list bytes :=
  match l with
  | [] => []
  | b :: r =>
      if decide (b = SPACE) then words r
      else match r with
           | [] => [[b]]
           | c :: _ =>
               if decide (c = SPACE) then [b] :: words r
               else match words r with
                    | w :: ws => (b :: w) :: ws
                    | [] => [[b]]
                    end
           end
  end.

Fixpoint join_words (ws : list bytes) : bytes :=
  match ws with
  | [] => []
  | [w] => w
  | w :: ws => w ++ SPACE :: join_words ws
  end.

(** The words in lower case, separated by single spaces. *)
Definition canonical (l : bytes) : bytes := join_words (lower <$> words l).

(** What [next] yields from a state, as a function of the bytes left. *)
Fixpoint yield_from (pending : bool) (l : bytes) : bytes :=
  match l with
  | [] => []
  | b :: r =>
      if decide (b = SPACE)
      then if pending then yield_from true r else SPACE :: yield_from true r
      else to_ascii_lowercase b :: yield_from false r
  end.

(** The code points of a BMPString: its big-endian 16-bit units. *)
Fixpoint bmp_units (b : bytes) : list N :=
  match b with
  | hi :: lo :: r => u16_from_be_bytes hi lo :: bmp_units r
  | _ => []
  end.

(** A decoder of UTF-8 sequences of one to three bytes; [None] on other
    input. *)
Fixpoint decode_utf8 (fuel : nat) (b : bytes) : option (list N) :=
  match fuel with
  | 0 => None
  | S fuel =>
      match b with
      | [] => Some []
      | b0 :: r0 =>
          if decide (b0 < 128)%N then (b0 ::.) <$> decode_utf8 fuel r0
          else match r0 with
          | [] => None
          | b1 :: r1 =>
              if decide (b0 < 224)%N then
                (((b0 - 192) * 64 + (b1 - 128))%N ::.) <$> decode_utf8 fuel r1
              else match r1 with
              | [] => None
              | b2 :: r2 =>
                  (((b0 - 224) * 4096 + (b1 - 128) * 64 + (b2 - 128))%N ::.)
                    <$> decode_utf8 fuel r2
              end
          end
      end
  end.

Definition is_surrogate (c : N) : Prop := (55296 ≤ c ≤ 57343)%N.

(** ** The iterator yields the canonical form *)
Lemma skip_spaces_yield fuel l pos :
  length l - pos ≤ fuel →
  ∃ p, skip_spaces fuel l pos = Ok p ∧
    yield_from false (drop p l) = yield_from true (drop pos l) ∧ pos ≤ p ∧ l !! p ≠ Some SPACE.
Proof.
  revert pos. induction fuel as [|fuel IH]; intros pos Hfuel; cbn [skip_spaces].
  - exists pos. rewrite drop_ge by lia. split_and!; [done..|].
    rewrite lookup_ge_None_2; [done|lia].
  - case_decide as Hlt.
    + destruct (lookup_lt_is_Some_2 l pos Hlt) as [b Hb]. unfold index. rewrite Hb.
      cbn [mbind result_bind]. case_decide as Hsp.
      * subst b. destruct (IH (S pos)) as (p & -> & Hy & Hle & Hp); [lia|]. exists p.
        split_and!; [done| |lia|done]. rewrite Hy, (drop_S _ _ _ Hb). cbn [yield_from].
        by rewrite decide_True.
      * exists pos. split_and!; [done| |done|congruence].
        rewrite (drop_S _ _ _ Hb). cbn [yield_from]. by rewrite !decide_False by congruence.
    + exists pos. rewrite drop_ge by lia. split_and!; [done..|].
      rewrite lookup_ge_None_2; [done|lia].
Qed.

(** One call of [next], from the bytes that are left. *)
Lemma normalized_iter_next_spec it :
  ∃ item it', normalized_iter_next it = Ok (item, it') ∧ ni_bytes it' = ni_bytes it ∧
    let rest it := yield_from (ni_pending_space it) (drop (ni_pos it) (ni_bytes it)) in
    match item with
    | None => rest it = []
    | Some b => rest it = b :: rest it' ∧ ni_pos it < ni_pos it' ∧ ni_pos it < length (ni_bytes it)
    end.
Proof.
  destruct it as [l pos pending]. unfold normalized_iter_next.
  cbn [ni_bytes ni_pos ni_pending_space].
  assert (∃ p, (if pending then pos ← skip_spaces (length l - pos) l pos;
        mret {| ni_bytes := l; ni_pos := pos; ni_pending_space := false |}
      else Ok {| ni_bytes := l; ni_pos := pos; ni_pending_space := pending |}) =
      Ok {| ni_bytes := l; ni_pos := p; ni_pending_space := false |} ∧
    yield_from false (drop p l) = yield_from pending (drop pos l) ∧ pos ≤ p)
    as (p & -> & <- & Hle).
  { destruct pending; [|by exists pos].
    destruct (skip_spaces_yield (length l - pos) l pos) as (p & -> & Hy & Hle & _); [done|].
    by exists p. }
  cbn [mbind result_bind ni_bytes ni_pos ni_pending_space]. case_decide as Hend.
  { do 2 eexists. split_and!; [done|done|]. by rewrite drop_ge. }
  destruct (lookup_lt_is_Some_2 l p) as [b Hb]; [lia|]. unfold index. rewrite Hb.
  cbn [mbind result_bind mret result_ret]. rewrite (drop_S _ _ _ Hb). cbn [yield_from].
  case_decide as Hsp; do 2 eexists; (split; [done|]); cbn [ni_bytes ni_pos ni_pending_space];
    (split_and!; [done|done|lia|lia]).
Qed.

Lemma collect_yield fuel it :
  length (ni_bytes it) - ni_pos it < fuel →
  normalized_iter_collect fuel it =
  Ok (yield_from (ni_pending_space it) (drop (ni_pos it) (ni_bytes it))).
Proof.
  revert it. induction fuel as [|fuel IH]; intros it Hfuel; [lia|]. cbn [normalized_iter_collect].
  destruct (normalized_iter_next_spec it) as (item & it' & -> & Hb & Hitem).
  cbn [mbind result_bind] in *. destruct item as [b|]; [|by rewrite Hitem].
  destruct Hitem as (-> & Hpos & Hlt). rewrite IH by (rewrite Hb; lia). done.
Qed.

(** Trimming: [NormalizedIter::new] cuts the spaces at both ends. *)
Lemma position_non_space_None l : position_non_space l = None → l = replicate (length l) SPACE.
Proof.
  induction l as [|b l IH]; cbn; [done|]. case_decide; [|done].
  destruct (position_non_space l); [done|]. intros _. subst b. f_equal. auto.
Qed.

Lemma position_non_space_Some l i :
  position_non_space l = Some i →
  i < length l ∧ take i l = replicate i SPACE ∧ ∃ b, l !! i = Some b ∧ b ≠ SPACE.
Proof.
  revert i. induction l as [|b l IH]; intros i; cbn; [done|].
  case_decide as Hb.
  - destruct (position_non_space l) as [j|] eqn:Hj; [|done].
    intros [= <-]. destruct (IH j eq_refl) as (? & Ht & ?). cbn.
    split_and!; [lia| |done]. subst b. by rewrite Ht.
  - intros [= <-]. cbn. split_and!; [lia|done|]. by exists b.
Qed.

Lemma normalized_iter_new_spec b :
  ∃ t i j, normalized_iter_new b =
      Ok {| ni_bytes := t; ni_pos := 0; ni_pending_space := false |} ∧
    b = replicate i SPACE ++ t ++ replicate j SPACE ∧
    head t ≠ Some SPACE ∧ last t ≠ Some SPACE.
Proof.
  unfold normalized_iter_new.
  destruct (position_non_space b) as [i|] eqn:Hi; cbn [from_option id].
  2: { apply position_non_space_None in Hi. exists [], (length b), 0.
       rewrite slice_from_Ok by lia. cbn [mbind result_bind]. rewrite drop_all. cbn.
       rewrite slice_range_Ok by lia. rewrite Nat.sub_diag. split_and!; [done| |done..].
       by rewrite !app_nil_r. }
  apply position_non_space_Some in Hi as (Hlt & Htake & x & Hx & Hns).
  rewrite slice_from_Ok by lia. cbn [mbind result_bind]. unfold rposition_non_space.
  set (t := drop i b).
  assert (length t = length b - i) as Hlen by apply length_drop.
  assert (b = replicate i SPACE ++ t) as Hb by (unfold t; by rewrite <-Htake, take_drop).
  assert (head t = Some x) as Hhd.
  { rewrite <-Hx. unfold t. rewrite <-(Nat.add_0_r i) at 2.
    by rewrite <-lookup_drop, head_lookup. }
  destruct (position_non_space (reverse t)) as [j|] eqn:Hj; cbn [fmap option_fmap option_map].
  2: { apply position_non_space_None in Hj. exfalso.
       destruct t as [|y t']; [done|]. cbn in Hhd. injection Hhd as ->.
       apply Hns. assert (x ∈ reverse (x :: t')) as Hin by (apply elem_of_reverse; left).
       rewrite Hj in Hin. by apply elem_of_replicate in Hin as [-> _]. }
  apply position_non_space_Some in Hj as (Hjlt & Hjt & y & Hy & Hyns).
  rewrite length_reverse in Hjlt. rewrite slice_range_Ok by lia. fold t.
  replace (i + (length t - 1 - j) + 1 - i) with (length t - j) by lia.
  exists (take (length t - j) t), i, j. split; [done|]. rewrite take_reverse in Hjt.
  apply (f_equal reverse) in Hjt. rewrite reverse_involutive, reverse_replicate in Hjt.
  rewrite <-Hjt, take_drop. split_and!; [done| |].
  - rewrite head_lookup, lookup_take_lt by lia. rewrite <-head_lookup, Hhd. congruence.
  - rewrite last_lookup, length_take, lookup_take_lt by lia.
    rewrite reverse_lookup in Hy by lia.
    replace (pred (length t - j `min` length t)) with (length t - S j) by lia.
    replace (pred ((length t - j) `min` length t)) with (length t - S j) by lia.
    rewrite Hy. congruence.
Qed.

(** Words of padded and of joined byte strings. *)
Definition is_word (w : bytes) : Prop := w ≠ [] ∧ SPACE ∉ w.

Lemma words_space l : words (SPACE :: l) = words l.
Proof. cbn [words]. by rewrite decide_True. Qed.

Lemma words_cons b l :
  b ≠ SPACE →
  words (b :: l) = match l with
                   | [] => [[b]]
                   | c :: _ => if decide (c = SPACE) then [b] :: words l
                               else match words l with
                                    | w :: ws => (b :: w) :: ws
                                    | [] => [[b]]
                                    end
                   end.
Proof. intros. cbn [words]. by rewrite decide_False. Qed.

Lemma words_replicate_app i l : words (replicate i SPACE ++ l) = words l.
Proof. induction i as [|i IH]; [done|]. cbn [replicate app]. by rewrite words_space. Qed.

Lemma words_app_replicate l j : words (l ++ replicate j SPACE) = words l.
Proof.
  induction l as [|b l IH]; cbn [app].
  { rewrite <-(app_nil_r (replicate j _)). apply words_replicate_app. }
  destruct (decide (b = SPACE)) as [->|Hb]; [by rewrite !words_space|].
  rewrite !words_cons by done. destruct l as [|c l]; cbn [app].
  - destruct j as [|j]; [done|]. cbn [replicate]. rewrite decide_True by done.
    f_equal. cbn [app] in IH. rewrite words_space. cbn in IH.
    by rewrite decide_True in IH.
  - cbn [app] in IH. by rewrite IH.
Qed.

Lemma words_nil l : words l = [] → l = replicate (length l) SPACE.
Proof.
  induction l as [|b l IH]; [done|].
  destruct (decide (b = SPACE)) as [->|Hb].
  - rewrite words_space. intros H. cbn. f_equal. auto.
  - rewrite words_cons by done. destruct l; [done|].
    case_decide; [done|]. by case_match.
Qed.

Lemma last_space_words l : last l ≠ Some SPACE → l ≠ [] → words l ≠ [].
Proof.
  intros Hl Hne Hw. apply words_nil in Hw. apply Hl. rewrite Hw.
  rewrite last_lookup, length_replicate. destruct l; [done|].
  apply lookup_replicate_2. cbn. lia.
Qed.

Lemma words_are_words l : Forall is_word (words l).
Proof.
  induction l as [|b l IH]; [constructor|].
  destruct (decide (b = SPACE)) as [->|Hb]; [by rewrite words_space|].
  assert (is_word [b]) by (split; [done|]; by rewrite list_elem_of_singleton).
  rewrite words_cons by done. destruct l as [|c l]; [by apply Forall_singleton|].
  case_decide; [by constructor|].
  destruct (words (c :: l)) as [|w ws]; [by apply Forall_singleton|].
  apply Forall_cons in IH as [[? ?] ?]. constructor; [|done].
  split; [done|]. rewrite not_elem_of_cons. auto.
Qed.

Lemma words_word w : is_word w → words w = [w].
Proof.
  induction w as [|b w IH]; intros [Hne Hw]; [done|].
  rewrite not_elem_of_cons in Hw. destruct Hw as [Hb Hw].
  rewrite words_cons by done. destruct w as [|c w]; [done|].
  rewrite not_elem_of_cons in Hw. rewrite decide_False by naive_solver.
  rewrite IH; [done|]. split; [done|]. by rewrite not_elem_of_cons.
Qed.

Lemma words_word_space w l : is_word w → words (w ++ SPACE :: l) = w :: words l.
Proof.
  induction w as [|b w IH]; intros [Hne Hw]; [done|].
  rewrite not_elem_of_cons in Hw. destruct Hw as [Hb Hw].
  cbn [app]. rewrite words_cons by done. destruct w as [|c w]; cbn [app].
  - by rewrite decide_True, words_space.
  - cbn [app] in IH. rewrite IH by (split; [done|set_solver]).
    rewrite not_elem_of_cons in Hw. by rewrite decide_False by naive_solver.
Qed.

Lemma words_join ws : Forall is_word ws → words (join_words ws) = ws.
Proof.
  induction ws as [|w ws IH]; intros Hws; [done|].
  apply Forall_cons in Hws as [Hw Hws].
  destruct ws as [|w' ws]; [by apply words_word|].
  change (words (w ++ SPACE :: join_words (w' :: ws)) = w :: w' :: ws).
  rewrite words_word_space by done. f_equal. auto.
Qed.

Lemma to_ascii_lowercase_space b : to_ascii_lowercase b = SPACE ↔ b = SPACE.
Proof. unfold to_ascii_lowercase. case_decide; lia. Qed.

Lemma lower_is_word w : is_word w → is_word (lower w).
Proof.
  intros [Hne Hw]. split; [by destruct w|]. unfold lower.
  rewrite list_elem_of_fmap. intros (b & Hb & Hin).
  symmetry in Hb. apply (proj1 (to_ascii_lowercase_space b)) in Hb. by subst b.
Qed.

(** Normalising twice is normalising once, seen through the words. *)
Lemma words_canonical l : words (canonical l) = lower <$> words l.
Proof.
  apply words_join. rewrite Forall_fmap.
  eapply Forall_impl; [apply words_are_words|apply lower_is_word].
Qed.

(** What the state machine yields on a trimmed string. *)
Lemma yield_from_canonical l :
  last l ≠ Some SPACE →
  yield_from true l = canonical l ∧
  yield_from false l =
    (if decide (head l = Some SPACE) then SPACE :: canonical l else canonical l).
Proof.
  induction l as [|b l IH]; intros Hlast; [done|].
  assert (l ≠ [] → last l ≠ Some SPACE) as Hlast' by (by destruct l).
  cbn [yield_from head]. destruct (decide (b = SPACE)) as [->|Hb].
  - rewrite decide_True by done. unfold canonical. rewrite words_space.
    destruct l as [|c l]; [done|]. by destruct IH as [-> _]; [auto|].
  - rewrite !decide_False by congruence.
    cut (to_ascii_lowercase b :: yield_from false l = canonical (b :: l)); [done|].
    destruct l as [|c l]; [unfold canonical; by rewrite words_cons|].
    destruct IH as [_ ->]; [auto|]. cbn [head].
    assert (words (c :: l) ≠ []) as Hne by (apply last_space_words; auto).
    unfold canonical. rewrite (words_cons b) by done.
    destruct (decide (c = SPACE)) as [->|Hc].
    + rewrite decide_True by done. cbn [fmap list_fmap lower join_words].
      by destruct (words (SPACE :: l)).
    + rewrite decide_False by congruence.
      destruct (words (c :: l)) as [|w [|w' ws]]; done.
Qed.

Lemma normalized_bytes_Ok b : normalized_bytes b = Ok (canonical b).
Proof.
  unfold normalized_bytes. destruct (normalized_iter_new_spec b) as (t & i & j & -> & Hb & Hhd & Hlast).
  cbn [mbind result_bind]. rewrite collect_yield; cbn [ni_bytes ni_pos ni_pending_space].
  2: { rewrite Hb, !length_app. lia. }
  rewrite drop_0. destruct (yield_from_canonical t Hlast) as [_ ->].
  rewrite decide_False by done. unfold canonical. f_equal. f_equal. f_equal.
  by rewrite Hb, words_replicate_app, words_app_replicate.
Qed.

Lemma normalized_canonical b : normalized b = canonical b.
Proof. unfold normalized. by rewrite normalized_bytes_Ok. Qed.

Lemma normalized_eq_words a b :
  normalized_eq a b = true ↔ lower <$> words a = lower <$> words b.
Proof.
  unfold normalized_eq. rewrite bool_decide_eq_true, !normalized_canonical. split.
  - intros H. by rewrite <-!words_canonical, H.
  - unfold canonical. by intros ->.
Qed.

(** ** Attribute values, RDNs and names up to matching *)

(** What decides whether two attribute values match. *)
Definition value_key (a : Any) : list bytes + Any :=
  match any_to_str_bytes a with
  | Some s => inl (lower <$> words s)
  | None => inr a
  end.
Definition ava_key (a : AttributeTypeAndValue) : ObjectIdentifier * (list bytes + Any) :=
  (ava_oid a, value_key (ava_value a)).

(** Two RDNs with as many values and the same set of keys. *)
Definition rdn_equiv (a b : RelativeDistinguishedName) : Prop :=
  length a = length b ∧ ∀ k, k ∈ ava_key <$> a ↔ k ∈ ava_key <$> b.

Lemma ava_values_match_key a b :
  ava_values_match a b = true ↔ value_key a = value_key b.
Proof.
  unfold ava_values_match, value_key.
  destruct (any_to_str_bytes a), (any_to_str_bytes b); [|done..|].
  - rewrite normalized_eq_words. split; [by intros ->|by intros [= ->]].
  - rewrite andb_true_iff, !bool_decide_eq_true. destruct a, b; naive_solver.
Qed.

Lemma ava_match_key a b : ava_match a b = true ↔ ava_key a = ava_key b.
Proof.
  unfold ava_match, ava_key.
  rewrite andb_true_iff, bool_decide_eq_true, ava_values_match_key.
  split; [by intros [-> ->]|by intros [= -> ->]].
Qed.

Lemma existsb_ava_key (f : AttributeTypeAndValue → bool) k l :
  (∀ b, f b = true ↔ k = ava_key b) → existsb f l = true ↔ k ∈ ava_key <$> l.
Proof.
  intros Hf. rewrite existsb_exists, list_elem_of_fmap. setoid_rewrite Hf.
  setoid_rewrite <-list_elem_of_In. naive_solver.
Qed.

Lemma rdns_match_equiv a b : rdns_match a b = true ↔ rdn_equiv a b.
Proof.
  unfold rdns_match, rdn_equiv.
  rewrite !andb_true_iff, bool_decide_eq_true, !forallb_forall.
  setoid_rewrite <-list_elem_of_In.
  assert (∀ x, existsb (λ y, ava_match x y) b = true ↔ ava_key x ∈ ava_key <$> b) as Hb.
  { intros x. apply existsb_ava_key. intros y. apply ava_match_key. }
  assert (∀ x, existsb (λ y, ava_match y x) a = true ↔ ava_key x ∈ ava_key <$> a) as Ha.
  { intros x. apply existsb_ava_key. intros y. rewrite ava_match_key. naive_solver. }
  setoid_rewrite Hb. setoid_rewrite Ha. split.
  - intros [[Hlen H1] H2]. split; [done|]. intros k.
    rewrite !list_elem_of_fmap. split; intros (x & -> & Hx).
    + by apply list_elem_of_fmap, H1.
    + by apply list_elem_of_fmap, H2.
  - intros [Hlen H]. split_and!; [done|..]; intros x Hx; apply H;
      by apply list_elem_of_fmap_2.
Qed.

Lemma names_match_Forall2 a b : names_match a b = true ↔ Forall2 rdn_equiv a b.
Proof.
  unfold names_match. rewrite andb_true_iff, bool_decide_eq_true. split.
  - intros [Hlen H]. revert b Hlen H. induction a as [|x a IH]; intros [|y b] Hlen H;
      try done. cbn in H. apply andb_true_iff in H as [Hx H].
    constructor; [by apply rdns_match_equiv|]. apply IH; [by injection Hlen|done].
  - induction 1 as [|x y a b Hxy Hab [Hlen IH]]; [done|]. cbn. split; [by f_equal|].
    rewrite IH, andb_true_r. by apply rdns_match_equiv.
Qed.

#[global] Instance rdn_equiv_equivalence : Equivalence rdn_equiv.
Proof.
  split; [by split| |].
  - intros a b [? H]. split; [done|]. intros k. by rewrite H.
  - intros a b c [? H1] [? H2]. split; [congruence|]. intros k. by rewrite H1, H2.
Qed.

Definition name_equiv (a b : Name) : Prop := names_match a b = true.

#[global] Instance name_equiv_equivalence : Equivalence name_equiv.
Proof.
  unfold name_equiv. split; [intros a|intros a b|intros a b c];
    rewrite !names_match_Forall2; [done|by symmetry|by etrans].
Qed.

#[global] Instance names_match_proper :
  Proper (name_equiv ==> name_equiv ==> eq) names_match.
Proof.
  intros a a' Ha b b' Hb. apply eq_true_iff_eq.
  change (name_equiv a b ↔ name_equiv a' b'). by rewrite Ha, Hb.
Qed.

(** The iterator of the source yields the canonical form: lower-case words
    separated by single spaces, without leading or trailing space. *)

(** ** BMPString transcoding *)
Lemma shiftr_div (c k : N) : N.shiftr c k = (c / 2 ^ k)%N.
Proof. apply N.shiftr_div_pow2. Qed.
Lemma land_63 (c : N) : N.land c 63 = (c mod 64)%N.
Proof. apply (N.land_ones c 6). Qed.

Lemma decode_encode_utf8 c r fuel :
  (c < 65536)%N →
  decode_utf8 (S fuel) (encode_utf8 c ++ r) = (c ::.) <$> decode_utf8 fuel r.
Proof.
  intros Hc. unfold encode_utf8. rewrite !shiftr_div, !land_63.
  change (2 ^ 6)%N with 64%N. change (2 ^ 12)%N with 4096%N.
  assert (c / 4096 = c / 64 / 64)%N as -> by by rewrite N.Div0.div_div.
  pose proof (N.div_mod' c 64) as Hq. pose proof (N.mod_lt c 64 ltac:(done)) as Hm.
  pose proof (N.div_mod' (c / 64) 64) as Hq'.
  pose proof (N.mod_lt (c / 64) 64 ltac:(done)) as Hm'.
  set (m := (c mod 64)%N) in *. set (m' := ((c / 64) mod 64)%N) in *.
  set (q' := (c / 64 / 64)%N) in *. set (q := (c / 64)%N) in *.
  clearbody m m' q' q.
  destruct (decide (c < 128)%N); [|destruct (decide (c < 2048)%N)];
    cbn -[decide N.div N.modulo N.add N.sub N.mul].
  - by rewrite decide_True.
  - rewrite decide_False, decide_True by lia.
    by replace ((192 + q - 192) * 64 + (128 + m - 128))%N with c by lia.
  - rewrite !decide_False by lia.
    by replace ((224 + q' - 224) * 4096 + (128 + m' - 128) * 64 + (128 + m - 128))%N
      with c by lia.
Qed.

(** Induction two elements at a time, as [chunks_exact(2)] goes. *)
Lemma pair_ind {A} (P : list A → Prop) :
  P [] → (∀ x, P [x]) → (∀ x y l, P l → P (x :: y :: l)) → ∀ l, P l.
Proof.
  intros H0 H1 H2. fix IH 1. intros [|x [|y l]]; [done|done|]. apply H2, IH.
Qed.

Lemma bmp_chunks_Some b u :
  bmp_chunks_to_utf8 b = Some u ↔
  Forall (λ c, ¬ is_surrogate c) (bmp_units b) ∧ u = mjoin (encode_utf8 <$> bmp_units b).
Proof.
  revert u. induction b as [| |hi lo b IH] using pair_ind; intros u; cbn.
  1,2: split; [intros [= <-]; by split|intros [_ ->]; done].
  rewrite Forall_cons. unfold char_from_u16, is_surrogate.
  destruct (decide _) as [Hs|Hs]; cbn; [naive_solver|].
  destruct (bmp_chunks_to_utf8 b) as [r|]; cbn.
  - destruct (proj1 (IH r) eq_refl) as [? ->]. naive_solver.
  - split; [done|]. intros [[_ Hf] _]. pose proof (proj2 (IH _) (conj Hf eq_refl)). done.
Qed.

Lemma bmp_units_bound b :
  Forall (λ x, x < 256)%N b → Forall (λ c, c < 65536)%N (bmp_units b).
Proof.
  induction b as [| |hi lo b IH] using pair_ind; intros Hb; [constructor..|].
  rewrite !Forall_cons in Hb. cbn. constructor; [|naive_solver].
  unfold u16_from_be_bytes. lia.
Qed.

Lemma decode_utf8_units cs :
  Forall (λ c, c < 65536)%N cs →
  decode_utf8 (S (length cs)) (mjoin (encode_utf8 <$> cs)) = Some cs.
Proof.
  induction 1 as [|c cs Hc Hcs IH]; [done|].
  change (mjoin (encode_utf8 <$> c :: cs))
    with (encode_utf8 c ++ mjoin (encode_utf8 <$> cs)).
  cbn [length]. by rewrite decode_encode_utf8, IH.
Qed.

(** ** Attribute rules *)
Lemma dn_contains_oid_spec s oid :
  dn_contains_oid s oid = true ↔ ∃ rdn ava, rdn ∈ s ∧ ava ∈ rdn ∧ ava_oid ava = oid.
Proof.
  unfold dn_contains_oid. rewrite existsb_exists. setoid_rewrite existsb_exists.
  setoid_rewrite bool_decide_eq_true. setoid_rewrite <-list_elem_of_In. naive_solver.
Qed.

(** Induction on a rule with the hypothesis for every sub-rule. *)
Lemma DnAttrRule_nested_ind (P : DnAttrRule → Prop) :
  (∀ oid, P (Field oid)) → (∀ rs, Forall P rs → P (AllOf rs)) →
  (∀ rs, Forall P rs → P (AnyOf rs)) → ∀ r, P r.
Proof.
  intros HF HA HO. fix IH 1. intros [oid|rs|rs]; [apply HF|apply HA|apply HO];
    induction rs; constructor; auto.
Qed.

(** ** Properties of name comparison *)
Section properties.

(** C24: names match exactly when they have as many RDNs and each pair of RDNs
    has as many attribute values and the same set of (type, normalised value)
    pairs; matching is an equivalence relation. *)
Theorem names_match_equivalence :
  (∀ a b, names_match a b = true ↔ Forall2 rdn_equiv a b) ∧
  Equivalence (λ a b, names_match a b = true).
Proof. split; [apply names_match_Forall2|apply name_equiv_equivalence]. Qed.

(** The byte iterator of the source yields the words of its input in lower
    case joined by single spaces, so two strings compare equal exactly when
    they have the same words up to case; no slice or index of it is out of
    range. *)
Theorem normalized_iter_correct a b :
  normalized_bytes a = Ok (canonical a) ∧
  (normalized_eq a b = true ↔ lower <$> words a = lower <$> words b) ∧
  normalized (normalized a) = normalized a.
Proof.
  split_and!; [apply normalized_bytes_Ok|apply normalized_eq_words|].
  rewrite !normalized_canonical. unfold canonical at 1. rewrite words_canonical.
  unfold canonical. f_equal. rewrite <-list_fmap_compose.
  apply list_fmap_ext. intros; apply lower_idem.
Qed.

(** Transcoding a BMPString succeeds exactly on an even number of octets
    without a surrogate code unit, and decoding the UTF-8 it returns gives
    back the code units. *)
Theorem bmp_string_to_utf8_roundtrip b (Hb : Forall (λ x, x < 256)%N b) :
  (is_Some (bmp_string_to_utf8 b) ↔
     length b `mod` 2 = 0 ∧ Forall (λ c, ¬ is_surrogate c) (bmp_units b)) ∧
  (∀ u, bmp_string_to_utf8 b = Some u →
     decode_utf8 (S (length (bmp_units b))) u = Some (bmp_units b)).
Proof.
  unfold bmp_string_to_utf8. case_decide as Hlen.
  { split; [|done]. split; [by intros []|]. intros [? _]. done. }
  split.
  - split.
    + intros [u Hu%bmp_chunks_Some]. split; [lia|naive_solver].
    + intros [_ Hs]. eexists. by apply bmp_chunks_Some.
  - intros u [_ ->]%bmp_chunks_Some. by apply decode_utf8_units, bmp_units_bound.
Qed.

Lemma bmp_string_to_utf8_roundtrip_witness :
  decode_utf8 3 [195; 169; 226; 130; 172]%N = Some [233; 8364]%N.
Proof.
  refine (proj2 (bmp_string_to_utf8_roundtrip [0; 233; 32; 172]%N _) _ _);
    [repeat constructor|reflexivity].
Defined.

(** An attribute rule depends only on the attribute types of the subject,
    and adding attributes never falsifies it; [AllOf] of nothing holds and
    [AnyOf] of nothing does not. *)
Theorem evaluate_dn_attr_rule_monotone rule s s'
    (Hsub : ∀ oid, dn_contains_oid s oid = true → dn_contains_oid s' oid = true) :
  (evaluate_dn_attr_rule s rule = true → evaluate_dn_attr_rule s' rule = true) ∧
  evaluate_dn_attr_rule s (AllOf []) = true ∧ evaluate_dn_attr_rule s (AnyOf []) = false.
Proof.
  split; [|done]. induction rule as [oid|rs IH|rs IH] using DnAttrRule_nested_ind; cbn.
  - apply Hsub.
  - rewrite !forallb_forall. setoid_rewrite <-list_elem_of_In.
    rewrite Forall_forall in IH. auto.
  - rewrite !existsb_exists. setoid_rewrite <-list_elem_of_In.
    rewrite Forall_forall in IH. naive_solver.
Qed.

Lemma evaluate_dn_attr_rule_monotone_witness :
  let cn := {| ava_oid := [2;5;4;3]%N; ava_value := {| any_tag := Utf8String; any_value := str "a" |} |} in
  evaluate_dn_attr_rule [[cn]; [cn]] (AllOf [AnyOf [Field [2;5;4;10]%N; Field [2;5;4;3]%N]]) = true.
Proof.
  intros cn. refine (proj1 (evaluate_dn_attr_rule_monotone _ [[cn]] [[cn]; [cn]] _) _); [|reflexivity].
  intros oid. cbn. destruct (bool_decide _); done.
Defined.

(** Two malformed BMPString values with equal octets do match: neither
    transcodes, and the comparison falls back to the raw octets. *)
Theorem malformed_bmp_values_match :
  let v := {| any_tag := BmpString; any_value := [216; 0]%N |} in
  any_to_str_bytes v = None ∧ ava_values_match v v = true.
Proof. split; reflexivity. Qed.
End properties.
