(* ===== verification/Subtrees.v ===== *)
(** * Name constraints (pkix-path/src/lib.rs)

    Matching of a general name against a subtree for each name form, and the
    check of the names of one certificate against the accumulated permitted
    and excluded subtrees.  [dns_within], [rfc822_within], [uri_host_within],
    [ip_within] and [name_allowed] are the specifications.  Rust's IA5 strings
    are ASCII, so slicing at a byte offset never splits a character. *)
From S2P Require Import Prelude X509 PathTypes Samples Names.

(** ** The mask of constrained name forms *)

(** [NcTypeMask(u32)] *)
Abbreviation NcTypeMask := N.
Definition NC_EMPTY : NcTypeMask := 0%N.
Definition NC_RFC822 : NcTypeMask := N.shiftl 1 0.
Definition NC_DNS : NcTypeMask := N.shiftl 1 1.
Definition NC_DIRECTORY_NAME : NcTypeMask := N.shiftl 1 2.
Definition NC_URI : NcTypeMask := N.shiftl 1 3.
Definition NC_IP_ADDRESS : NcTypeMask := N.shiftl 1 4.

(** [NcTypeMask::intersects] *)
Definition intersects (a b : NcTypeMask) : bool := bool_decide (N.land a b ≠ 0%N).

(** [BitOr for NcTypeMask] *)
Definition nc_bitor (a b : NcTypeMask) : NcTypeMask := N.lor a b.

Definition name_type_bit (name : GeneralName) : NcTypeMask :=
  match name with
  | Rfc822Name _ => NC_RFC822
  | DnsName _ => NC_DNS
  | DirectoryName _ => NC_DIRECTORY_NAME
  | UniformResourceIdentifier _ => NC_URI
  | IpAddress _ => NC_IP_ADDRESS
  | _ => NC_EMPTY
  end.

(** ** Matching a name against a subtree *)
Definition dn_within_subtree (subject constraint : Name) : bool :=
  if decide (length subject < length constraint) then false
  else forallb
    (λ p : RelativeDistinguishedName * RelativeDistinguishedName,
       let '(c_rdn, s_rdn) := p in
       if decide (length c_rdn ≠ length s_rdn) then false
       else forallb (λ c_ava, existsb (λ s_ava, ava_match c_ava s_ava) s_rdn) c_rdn)
    (zip constraint subject).

Definition same_nc_variant (a b : GeneralName) : bool :=
  bool_decide (name_type_bit a ≠ NC_EMPTY) && bool_decide (name_type_bit a = name_type_bit b).

Abbreviation DOT := 46%N.
Abbreviation AT := 64%N.

(** [s.len() > t.len() && s[s.len() - t.len()..].eq_ignore_ascii_case(t)] *)
Definition ends_with_longer (s t : bytes) : Result bool :=
  if decide (length t < length s) then
    start ← usize_sub (length s) (length t);
    rest ← slice_from start s;
    mret (eq_ignore_ascii_case rest t)
  else Ok false.

Definition matches_dns_name (subject constraint : bytes) : Result bool :=
  if decide (constraint = []) then Ok false
  else match strip_prefix_char DOT constraint with
  | Some suffix =>
      if eq_ignore_ascii_case subject suffix then Ok false
      else ends_with_longer subject constraint
  | None =>
      if eq_ignore_ascii_case subject constraint then Ok true
      else if decide (length constraint + 1 < length subject) then
        start ← usize_sub (length subject) (length constraint);
        dot ← usize_sub start 1;
        b ← index subject dot;
        if decide (b = DOT) then
          rest ← slice_from start subject;
          mret (eq_ignore_ascii_case rest constraint)
        else Ok false
      else Ok false
  end.

Definition matches_rfc822_name (subject constraint : bytes) : Result bool :=
  if contains_char AT constraint then Ok (eq_ignore_ascii_case subject constraint)
  else match split_once AT subject with
  | None => Ok false
  | Some (_, domain) =>
      match strip_prefix_char DOT constraint with
      | Some suffix =>
          if eq_ignore_ascii_case domain suffix then Ok false
          else ends_with_longer domain constraint
      | None => Ok (eq_ignore_ascii_case domain constraint)
      end
  end.

Definition matches_uri_host (host constraint : bytes) : Result bool :=
  if decide (constraint = []) then Ok false
  else match strip_prefix_char DOT constraint with
  | Some suffix =>
      if eq_ignore_ascii_case host suffix then Ok false
      else ends_with_longer host constraint
  | None => Ok (eq_ignore_ascii_case host constraint)
  end.

(** The host [matches_uri] extracts; [None] where it returns [false] at once. *)
Definition uri_host (subject_uri : bytes) : Result (option bytes) :=
  match find_str (str "://") subject_uri with
  | None => Ok None
  | Some after_scheme =>
      rest ← slice_from (after_scheme + 3) subject_uri;
      let rest := match split_once AT rest with Some (_, h) => h | None => rest end in
      let host_end := default (length rest) (find_any_char (str "/?#:") rest) in
      host ← slice_range 0 host_end rest;
      mret (Some host)
  end.

Definition matches_uri (subject_uri constraint : bytes) : Result bool :=
  host ← uri_host subject_uri;
  match host with
  | Some host => matches_uri_host host constraint
  | None => Ok false
  end.

(** [match constraint_bytes.len() { .. }]: [expected_subj_len] and [half]. *)
Definition ip_lengths (constraint_len : nat) : option (nat * nat) :=
  match constraint_len with 8 => Some (4, 4) | 32 => Some (16, 16) | _ => None end.

Definition matches_ip_address (subject_bytes constraint_bytes : bytes) : Result bool :=
  match ip_lengths (length constraint_bytes) with
  | None => Ok false
  | Some (expected_subj_len, half) =>
      if decide (length subject_bytes ≠ expected_subj_len) then Ok false
      else
        '(addr, mask) ← split_at half constraint_bytes;
        mret (forallb (λ p : N * (N * N), let '(s, (a, m)) := p in
                         bool_decide (N.land s m = N.land a m))
                (zip subject_bytes (zip addr mask)))
  end.

Definition name_matches_subtree (name : GeneralName) (subtree : GeneralSubtree) : Result bool :=
  match name, base subtree with
  | DnsName subj, DnsName constr => matches_dns_name subj constr
  | DirectoryName subj, DirectoryName constr => Ok (dn_within_subtree subj constr)
  | Rfc822Name subj, Rfc822Name constr => matches_rfc822_name subj constr
  | UniformResourceIdentifier subj, UniformResourceIdentifier constr =>
      matches_uri subj constr
  | IpAddress subj, IpAddress constr => matches_ip_address subj constr
  | _, _ => Ok false
  end.

(** ** Checking the names of a certificate *)
Inductive CheckMode := Excluded | Permitted.

Definition check_subject_dn_against_subtrees (subject : Name) (subject_is_empty : bool)
    (subtrees : list GeneralSubtree) (mode : CheckMode)
    (nc_constrained_types : NcTypeMask) (index : nat) : Result unit :=
  if subject_is_empty then Ok tt
  else
    let subject_constrained := intersects nc_constrained_types NC_DIRECTORY_NAME in
    let dn_matches_any :=
      existsb (λ st, match base st with
                     | DirectoryName constr => dn_within_subtree subject constr
                     | _ => false
                     end) subtrees in
    match mode with
    | Excluded => fail_if dn_matches_any (NameConstraintViolation index)
    | Permitted =>
        fail_if (subject_constrained && negb dn_matches_any) (NameConstraintViolation index)
    end.

Definition check_san_against_subtrees (san : option SubjectAltName)
    (subtrees : list GeneralSubtree) (mode : CheckMode)
    (nc_constrained_types : NcTypeMask) (index : nat) : Result unit :=
  match san with
  | None => Ok tt
  | Some san_ext =>
      let type_constrained name := intersects nc_constrained_types (name_type_bit name) in
      try_for_each (λ _ name,
        match mode with
        | Excluded =>
            matched ← try_any (name_matches_subtree name) subtrees;
            fail_if matched (NameConstraintViolation index)
        | Permitted =>
            if type_constrained name : bool then
              matched ← try_any (name_matches_subtree name) subtrees;
              fail_if (negb matched) (NameConstraintViolation index)
            else Ok tt
        end) (san_names san_ext)
  end.

(** [matches!(st.base, GeneralName::Rfc822Name(_))] *)
Definition is_rfc822_subtree (st : GeneralSubtree) : bool :=
  match base st with Rfc822Name _ => true | _ => false end.

(** [if let GeneralName::Rfc822Name(constraint) = &st.base
     { matches_rfc822_name(email, constraint) }] *)
Definition email_matches_subtree (email : bytes) (st : GeneralSubtree) : Result bool :=
  match base st with
  | Rfc822Name constraint => matches_rfc822_name email constraint
  | _ => Ok false
  end.

Section check_name_constraints.
Context `{PathAsn1}.

(** The body of the loop over the attributes of the subject. *)
Definition check_email_ava (permitted_rfc822 : option GeneralSubtrees)
    (nc_excluded : GeneralSubtrees) (index : nat) (ava : AttributeTypeAndValue) :
    Result unit :=
  if decide (ava_oid ava ≠ OID_EMAIL_ADDRESS) then Ok tt
  else match decode_as_ia5 (ava_value ava) with
  | None => Ok tt
  | Some email_str =>
      _ ← try_for_each (λ _ st,
            matched ← email_matches_subtree email_str st;
            fail_if matched (NameConstraintViolation index)) nc_excluded;
      match permitted_rfc822 with
      | None => Ok tt
      | Some permitted =>
          matched ← try_any (email_matches_subtree email_str) permitted;
          fail_if (negb matched) (NameConstraintViolation index)
      end
  end.

(** The closure [check_names]. *)
Definition check_names (cert : Certificate) (san : option SubjectAltName)
    (nc_constrained_types : NcTypeMask) (index : nat)
    (subtrees : list GeneralSubtree) (mode : CheckMode) : Result unit :=
  let subject := subject (tbs_certificate cert) in
  let subject_is_empty := name_is_empty subject in
  _ ← check_subject_dn_against_subtrees subject subject_is_empty subtrees mode
        nc_constrained_types index;
  check_san_against_subtrees san subtrees mode nc_constrained_types index.

Definition check_name_constraints (cert : Certificate) (san : option SubjectAltName)
    (nc_permitted : option GeneralSubtrees) (nc_excluded : GeneralSubtrees)
    (nc_constrained_types : NcTypeMask) (index : nat) : Result unit :=
  let subject := subject (tbs_certificate cert) in
  let subject_is_empty := name_is_empty subject in
  let check_names := check_names cert san nc_constrained_types index in
  _ ← check_names nc_excluded Excluded;
  _ ← match nc_permitted with
      | Some permitted => check_names permitted Permitted
      | None => Ok tt
      end;
  let has_rfc822_excluded := existsb is_rfc822_subtree nc_excluded in
  let has_rfc822_constraint :=
    intersects nc_constrained_types NC_RFC822 || has_rfc822_excluded in
  if has_rfc822_constraint && negb subject_is_empty then
    let permitted_rfc822 :=
      if intersects nc_constrained_types NC_RFC822
      then Some (match nc_permitted with
                 | Some p => filter (λ st, is_rfc822_subtree st = true) p
                 | None => []
                 end)
      else None in
    try_for_each (λ _ (rdn : RelativeDistinguishedName),
      try_for_each (λ _ ava, check_email_ava permitted_rfc822 nc_excluded index ava) rdn)
      subject
  else Ok tt.
End check_name_constraints.

(** ** Specifications *)

(** [s] is [t] with something in front, up to ASCII case. *)
Definition proper_suffix_ci (s t : bytes) : Prop :=
  ∃ x, x ≠ [] ∧ lower s = x ++ lower t.

(** A dNSName constraint: ".d" admits the names below d, "d" admits d and the
    names below it, the empty one admits nothing. *)
Definition dns_within (s c : bytes) : Prop :=
  c ≠ [] ∧
  (if decide (head c = Some DOT) then proper_suffix_ci s c
   else lower s = lower c ∨ proper_suffix_ci s (DOT :: c)).

(** A host against the constraint of a URI: ".d" admits the hosts below d, "d"
    only d. *)
Definition uri_host_within (s c : bytes) : Prop :=
  c ≠ [] ∧
  (if decide (head c = Some DOT) then proper_suffix_ci s c else lower s = lower c).

(** A mailbox: a constraint with "@" is one mailbox, another is a domain. *)
Definition rfc822_within (s c : bytes) : Prop :=
  if decide (AT ∈ c) then lower s = lower c
  else (∃ l d, s = l ++ AT :: d ∧ (AT ∉ l) ∧
    (if decide (head c = Some DOT) then proper_suffix_ci d c else lower d = lower c)).

(** An address under an address and a mask of the same length. *)
Definition ip_within (s c : bytes) : Prop :=
  ∃ addr mask, c = addr ++ mask ∧ length addr = length s ∧ length mask = length s ∧
    (length s = 4 ∨ length s = 16) ∧
    ∀ i b a m, s !! i = Some b → addr !! i = Some a → mask !! i = Some m →
      N.land b m = N.land a m.

(** A name under a base, for each form the code handles. *)
Definition name_within (n b : GeneralName) : Prop :=
  match n, b with
  | DnsName s, DnsName c => dns_within s c
  | DirectoryName s, DirectoryName c => dn_within_subtree s c = true
  | Rfc822Name s, Rfc822Name c => rfc822_within s c
  | UniformResourceIdentifier s, UniformResourceIdentifier c =>
      ∃ h, uri_host s = Ok (Some h) ∧ uri_host_within h c
  | IpAddress s, IpAddress c => ip_within s c
  | _, _ => False
  end.

(** ** The matchers meet their specifications *)
(** A matcher returns, and says whether [P] holds. *)
Definition decides (r : Result bool) (P : Prop) : Prop := ∃ b, r = Ok b ∧ (b = true ↔ P).

Lemma decides_Ok (b : bool) (P : Prop) : (b = true ↔ P) → decides (Ok b) P.
Proof. intros Hb. by exists b. Qed.

Lemma decides_iff r (P Q : Prop) : (P ↔ Q) → decides r P → decides r Q.
Proof. intros HPQ (b & Hr & Hb). exists b. split; [done|]. by rewrite Hb. Qed.

Lemma decides_false (P : Prop) : ¬ P → decides (Ok false) P.
Proof. intros HP. by apply decides_Ok. Qed.

Lemma decides_true r P : decides r P → r = Ok true ↔ P.
Proof. intros (b & -> & <-). naive_solver. Qed.

Lemma ends_with_longer_spec s t : decides (ends_with_longer s t) (proper_suffix_ci s t).
Proof.
  unfold ends_with_longer, proper_suffix_ci. case_decide as Hlen.
  - rewrite usize_sub_Ok by lia. cbn [mbind result_bind]. rewrite slice_from_Ok by lia.
    apply decides_Ok. rewrite eq_ignore_ascii_case_spec, lower_drop. split.
    + intros Hd. exists (take (length s - length t) (lower s)). split.
      * intros Hx%(f_equal length). rewrite length_take, length_lower in Hx. cbn in Hx. lia.
      * by rewrite <-Hd, take_drop.
    + intros (x & Hx & Hs). pose proof (f_equal length Hs) as Hl.
      rewrite length_app, !length_lower in Hl.
      rewrite Hs. replace (length s - length t) with (length x) by lia.
      by rewrite drop_app_length.
  - apply decides_false. intros (x & Hx & Hs). pose proof (f_equal length Hs) as Hl.
    rewrite length_app, !length_lower in Hl. pose proof (length_pos x Hx). lia.
Qed.

Lemma proper_suffix_ci_neq s t : proper_suffix_ci s t → lower s ≠ lower t.
Proof.
  intros (x & Hx & Hs) Heq. rewrite Hs in Heq. apply (f_equal length) in Heq.
  rewrite length_app in Heq. pose proof (length_pos x Hx). lia.
Qed.

Lemma proper_suffix_ci_cons_neq s b t : proper_suffix_ci s (b :: t) → lower s ≠ lower t.
Proof.
  intros (x & Hx & Hs) Heq. rewrite Hs in Heq. apply (f_equal length) in Heq.
  rewrite length_app, !length_lower in Heq. cbn in Heq. lia.
Qed.

Lemma strip_prefix_char_None c s : strip_prefix_char c s = None ↔ head s ≠ Some c.
Proof. destruct s as [|b s]; cbn; [done|]. case_decide; naive_solver. Qed.

(** The shape shared by the three matchers: a constraint with a leading dot. *)
Lemma dot_suffix_spec s c r :
  strip_prefix_char DOT c = Some r →
  decides (if eq_ignore_ascii_case s r then Ok false else ends_with_longer s c)
    (proper_suffix_ci s c).
Proof.
  intros ->%strip_prefix_char_Some. destruct (eq_ignore_ascii_case s r) eqn:Heq.
  - apply decides_false. apply eq_ignore_ascii_case_spec in Heq.
    intros Hs. by apply (proper_suffix_ci_cons_neq _ _ _ Hs).
  - apply ends_with_longer_spec.
Qed.

(** A name below the domain [c]: the octet before the suffix is a dot. *)
Lemma dot_before_suffix s c :
  length c + 1 < length s →
  (s !! (length s - length c - 1) = Some DOT ∧ lower (drop (length s - length c) s) = lower c) ↔
  proper_suffix_ci s (DOT :: c).
Proof.
  intros Hlen. rewrite lower_drop. unfold proper_suffix_ci. split.
  - intros [Hdot Hd]. set (i := length s - length c - 1) in *.
    exists (take i (lower s)). split.
    { intros Hx%(f_equal length). rewrite length_take, length_lower in Hx. cbn in Hx. lia. }
    rewrite <-(take_drop i (lower s)) at 1. f_equal.
    assert (lower s !! i = Some DOT) as Hl.
    { unfold lower. by rewrite list_lookup_fmap, Hdot. }
    rewrite (drop_S _ _ _ Hl). replace (S i) with (length s - length c) by lia.
    by rewrite Hd.
  - intros (x & Hx & Hs). pose proof (f_equal length Hs) as Hls.
    rewrite length_app, !length_lower in Hls. cbn in Hls. split.
    + assert (lower s !! (length s - length c - 1) = Some DOT) as Hl.
      { rewrite Hs, lookup_app_r by lia.
        by replace (length s - length c - 1 - length x) with 0 by lia. }
      unfold lower in Hl. rewrite list_lookup_fmap in Hl.
      destruct (s !! _) as [b|]; [|done]. cbn in Hl. f_equal.
      injection Hl as Hl. unfold to_ascii_lowercase in Hl. case_decide; lia.
    + rewrite Hs. change (DOT :: c) with ([DOT] ++ c). rewrite lower_app, app_assoc.
      replace (length s - length c) with (length (x ++ lower [DOT])).
      { by rewrite drop_app_length. }
      rewrite length_app. cbn. lia.
Qed.

Lemma matches_dns_name_spec s c : decides (matches_dns_name s c) (dns_within s c).
Proof.
  unfold matches_dns_name, dns_within. destruct (decide (c = [])) as [->|Hc].
  { apply decides_false. naive_solver. }
  destruct (strip_prefix_char DOT c) as [r|] eqn:Hr.
  - eapply decides_iff, (dot_suffix_spec s c r Hr). apply strip_prefix_char_Some in Hr as ->.
    cbn [head]. rewrite decide_True by done. naive_solver.
  - apply strip_prefix_char_None in Hr. rewrite (decide_False (P:=head c = Some DOT)) by done.
    destruct (eq_ignore_ascii_case s c) eqn:Heq.
    { apply decides_Ok. apply eq_ignore_ascii_case_spec in Heq. naive_solver. }
    assert (lower s ≠ lower c) as Hne by (rewrite <-eq_ignore_ascii_case_spec; congruence).
    case_decide as Hlen.
    + pose proof (dot_before_suffix s c Hlen) as Hd. rewrite !usize_sub_Ok by lia.
      cbn [mbind result_bind]. rewrite usize_sub_Ok by lia. cbn [mbind result_bind]. unfold index.
      destruct (lookup_lt_is_Some_2 s (length s - length c - 1)) as [b Hb]; [lia|].
      rewrite Hb in *. cbn [mbind result_bind]. case_decide as Hbd.
      * rewrite slice_from_Ok by lia. apply decides_Ok. rewrite eq_ignore_ascii_case_spec.
        naive_solver.
      * apply decides_false. naive_solver.
    + apply decides_false. intros [_ [?|(x & Hx & Hs)]]; [done|].
      pose proof (f_equal length Hs) as Hls. rewrite length_app, !length_lower in Hls.
      pose proof (length_pos x Hx). cbn in Hls. lia.
Qed.

Lemma matches_uri_host_spec s c : decides (matches_uri_host s c) (uri_host_within s c).
Proof.
  unfold matches_uri_host, uri_host_within.
  destruct (decide (c = [])) as [->|Hc]; [apply decides_false; naive_solver|].
  destruct (strip_prefix_char DOT c) as [r|] eqn:Hr.
  - eapply decides_iff, (dot_suffix_spec s c r Hr). apply strip_prefix_char_Some in Hr as ->.
    cbn [head]. rewrite decide_True by done. naive_solver.
  - apply strip_prefix_char_None in Hr. rewrite decide_False by done.
    apply decides_Ok. rewrite eq_ignore_ascii_case_spec. naive_solver.
Qed.

(** The rule on the domain of a mailbox. *)
Lemma rfc822_domain_spec d c :
  decides (match strip_prefix_char DOT c with
    | Some suffix => if eq_ignore_ascii_case d suffix then Ok false else ends_with_longer d c
    | None => Ok (eq_ignore_ascii_case d c) end)
    (if decide (head c = Some DOT) then proper_suffix_ci d c else lower d = lower c).
Proof.
  destruct (strip_prefix_char DOT c) as [r|] eqn:Hr.
  - eapply decides_iff, (dot_suffix_spec d c r Hr). apply strip_prefix_char_Some in Hr as ->.
    cbn [head]. by rewrite decide_True.
  - apply strip_prefix_char_None in Hr. rewrite decide_False by done.
    apply decides_Ok, eq_ignore_ascii_case_spec.
Qed.

Lemma matches_rfc822_name_spec s c : decides (matches_rfc822_name s c) (rfc822_within s c).
Proof.
  unfold matches_rfc822_name, rfc822_within, contains_char.
  destruct (decide (AT ∈ c)) as [Hat|Hat].
  { rewrite bool_decide_eq_true_2 by done. apply decides_Ok, eq_ignore_ascii_case_spec. }
  rewrite bool_decide_eq_false_2 by done.
  destruct (split_once AT s) as [[l d]|] eqn:Hs.
  - eapply decides_iff, rfc822_domain_spec. apply split_once_Some in Hs as Hs'.
    destruct Hs' as [-> Hl]. split.
    + intros H. by exists l, d.
    + intros (l' & d' & Heq & Hl' & H).
      assert (split_once AT (l ++ AT :: d) = Some (l', d')) as Hs'.
      { rewrite Heq. by apply split_once_Some. }
      rewrite Hs in Hs'. by injection Hs' as -> ->.
  - apply split_once_None in Hs. apply decides_false.
    intros (l & d & -> & _). destruct Hs. set_solver.
Qed.

(** Slicing out the host stays within the text. *)
Lemma uri_host_total s :
  uri_host s = Ok (after_scheme ← find_str (str "://") s;
    let rest := drop (after_scheme + 3) s in
    let rest := match split_once AT rest with Some (_, h) => h | None => rest end in
    Some (take (default (length rest) (find_any_char (str "/?#:") rest)) rest)).
Proof.
  unfold uri_host. destruct (find_str _ s) as [i|] eqn:Hi; [|done].
  apply find_str_Some in Hi as [r Hr]. pose proof (f_equal length Hr) as Hl.
  rewrite length_app, length_drop in Hl. change (length (str "://")) with 3 in Hl.
  rewrite slice_from_Ok by lia. cbn [mbind result_bind option_bind].
  set (rest := match split_once AT _ with Some (_, h) => h | None => _ end).
  pose proof (find_any_char_le (str "/?#:") rest).
  rewrite slice_range_Ok by lia. cbn [mbind result_bind mret result_ret].
  by rewrite Nat.sub_0_r, drop_0.
Qed.

Lemma ip_lengths_spec n :
  ip_lengths n = if decide (n = 8) then Some (4, 4)
                 else if decide (n = 32) then Some (16, 16) else None.
Proof. do 33 (destruct n as [|n]; [done|]). by repeat case_decide. Qed.

Lemma matches_ip_address_spec s c : decides (matches_ip_address s c) (ip_within s c).
Proof.
  assert (∀ k, length c = 2 * k → k = 4 ∨ k = 16 →
    decides (if decide (length s ≠ k) then Ok false
     else '(addr, mask) ← split_at k c;
          mret (forallb (λ p : N * (N * N), let '(s, (a, m)) := p in
                   bool_decide (N.land s m = N.land a m)) (zip s (zip addr mask))))
      (ip_within s c)) as Hk.
  { intros k Hc Hk. case_decide as Hs.
    { apply decides_false. intros (addr & mask & -> & Ha & Hm & _).
      rewrite length_app in Hc. lia. }
    unfold split_at. rewrite decide_True by lia. cbn [mbind result_bind].
    apply decides_Ok. rewrite forallb_zip. split.
    - intros H. exists (take k c), (drop k c).
      rewrite take_drop, length_take, length_drop. split_and!; [done|lia|lia|lia|].
      intros i b a m Hb Ha Hm.
      eapply bool_decide_eq_true, (H i b (a, m)); [done|].
      rewrite lookup_zip_with, Ha; cbn. by rewrite Hm.
    - intros (addr & mask & -> & Ha & Hm & _ & H) i b [a m] Hb Hz.
      rewrite take_app_length', drop_app_length' in Hz by lia.
      rewrite lookup_zip_with in Hz. destruct (addr !! i) eqn:?; cbn in Hz; [|done].
      destruct (mask !! i) eqn:?; cbn in Hz; [|done]. injection Hz as -> ->.
      apply bool_decide_eq_true. eauto. }
  unfold matches_ip_address. rewrite ip_lengths_spec.
  destruct (decide (length c = 8)); [apply Hk; lia|].
  destruct (decide (length c = 32)); [apply Hk; lia|]. apply decides_false.
  intros (addr & mask & -> & Ha & Hm & Hs & _). rewrite length_app in *. lia.
Qed.

Lemma name_matches_subtree_decides n st :
  decides (name_matches_subtree n st) (name_within n (base st)).
Proof.
  unfold name_matches_subtree, name_within.
  destruct n, (base st); try (apply decides_false; tauto).
  - apply matches_rfc822_name_spec.
  - apply matches_dns_name_spec.
  - by apply decides_Ok.
  - unfold matches_uri. rewrite uri_host_total. cbn [mbind result_bind].
    set (o := after_scheme ← _; _). change (decides (match o with
      | Some host => matches_uri_host host s0 | None => Ok false end)
      (∃ h, Ok (E:=Error) o = Ok (Some h) ∧ uri_host_within h s0)).
    destruct o as [h|]; [|apply decides_false; naive_solver].
    eapply decides_iff, matches_uri_host_spec. naive_solver.
  - apply matches_ip_address_spec.
Qed.

Lemma name_matches_subtree_spec n st :
  name_matches_subtree n st = Ok true ↔ name_within n (base st).
Proof. apply decides_true, name_matches_subtree_decides. Qed.

(** The answer, which always comes. *)
Definition name_in (n : GeneralName) (st : GeneralSubtree) : bool :=
  match name_matches_subtree n st with Ok b => b | _ => false end.

Lemma name_matches_subtree_total n st : name_matches_subtree n st = Ok (name_in n st).
Proof. unfold name_in. by destruct (name_matches_subtree_decides n st) as (b & -> & _). Qed.

Lemma name_in_true n st : name_in n st = true ↔ name_matches_subtree n st = Ok true.
Proof. rewrite name_matches_subtree_total. split; [by intros ->|by intros [= ->]]. Qed.

Lemma name_in_false n st : name_in n st = false ↔ name_matches_subtree n st = Ok false.
Proof. rewrite name_matches_subtree_total. split; [by intros ->|by intros [= ->]]. Qed.

Lemma any_in_true n l :
  existsb (name_in n) l = true ↔ ∃ st, st ∈ l ∧ name_matches_subtree n st = Ok true.
Proof. rewrite existsb_elem. apply exist_proper; intros st. by rewrite name_in_true. Qed.

Lemma any_in_false n l :
  existsb (name_in n) l = false ↔ ∀ st, st ∈ l → name_matches_subtree n st = Ok false.
Proof. rewrite existsb_elem_false. apply forall_proper; intros st. by rewrite name_in_false. Qed.

Lemma try_any_name_in n l : try_any (name_matches_subtree n) l = Ok (existsb (name_in n) l).
Proof. apply try_any_pure. intros st _. apply name_matches_subtree_total. Qed.

(** ** Matching composes *)

(** The rule of the source on a host or a domain, for DNS and URI and mailbox
    domains alike, is transitive. *)
Lemma proper_suffix_ci_trans s t u :
  proper_suffix_ci s t → proper_suffix_ci t u → proper_suffix_ci s u.
Proof.
  intros (x & Hx & Hs) (y & Hy & Ht). exists (x ++ y). rewrite Hs, Ht, app_assoc.
  split; [|done]. by destruct x.
Qed.

Lemma proper_suffix_ci_proper s s' t t' :
  lower s = lower s' → lower t = lower t' → proper_suffix_ci s t → proper_suffix_ci s' t'.
Proof. unfold proper_suffix_ci. by intros -> ->. Qed.

Lemma lower_head_dot s t : lower s = lower t → head s = Some DOT ↔ head t = Some DOT.
Proof.
  intros H. assert (∀ b, to_ascii_lowercase b = DOT ↔ b = DOT) as Hb.
  { intros b. unfold to_ascii_lowercase. case_decide; lia. }
  destruct s as [|b s], t as [|c t]; cbn in *; try done.
  injection H as H _. specialize (Hb b) as Hb1. specialize (Hb c) as Hb2. naive_solver.
Qed.

Lemma lower_elem c s :
  ¬ (65 ≤ c ≤ 90)%N → ¬ (97 ≤ c ≤ 122)%N → c ∈ lower s ↔ c ∈ s.
Proof.
  intros Hu Hl. unfold lower. rewrite list_elem_of_fmap. split.
  - intros (b & -> & Hb). revert Hu Hl. unfold to_ascii_lowercase.
    case_decide; [lia|done].
  - intros Hc. exists c. split; [|done]. unfold to_ascii_lowercase. by rewrite decide_False.
Qed.

Lemma lower_nil s t : lower s = lower t → s = [] ↔ t = [].
Proof. by destruct s, t. Qed.

Lemma dns_within_trans s t u : dns_within s t → dns_within t u → dns_within s u.
Proof.
  unfold dns_within. intros [Ht Hst] [Hu Htu]. split; [done|].
  destruct (decide (head u = Some DOT)) as [Hd|Hd].
  - destruct (decide (head t = Some DOT)); [by eapply proper_suffix_ci_trans|].
    destruct Hst as [Hst|(x & Hx & Hs)]; [by eapply proper_suffix_ci_proper|].
    destruct Htu as (y & Hy & Htu). exists (x ++ DOT :: y). split; [by destruct x|].
    rewrite Hs. change (lower (DOT :: t)) with (DOT :: lower t).
    by rewrite Htu, <-app_assoc.
  - destruct (decide (head t = Some DOT)) as [Hdt|Hdt].
    + destruct Htu as [Htu|Htu].
      { destruct Hd. by apply (lower_head_dot t u). }
      right. by eapply proper_suffix_ci_trans.
    + destruct Hst as [Hst|Hst], Htu as [Htu|Htu].
      * left. congruence.
      * right. by eapply proper_suffix_ci_proper.
      * right. eapply proper_suffix_ci_proper; [done| |done]. cbn. by f_equal.
      * right. eapply proper_suffix_ci_trans; [done|].
        destruct Htu as (y & Hy & Htu). exists (DOT :: y). split; [done|].
        change (lower (DOT :: t)) with (DOT :: lower t). by rewrite Htu.
Qed.

Lemma rfc822_domain_trans (d e c : bytes) :
  lower d = lower e →
  (if decide (head c = Some DOT) then proper_suffix_ci e c else lower e = lower c) →
  (if decide (head c = Some DOT) then proper_suffix_ci d c else lower d = lower c).
Proof.
  intros Hde. case_decide; [by eapply proper_suffix_ci_proper|congruence].
Qed.

Lemma split_at_lower l d s :
  lower s = lower (l ++ AT :: d) → AT ∉ l →
  ∃ l' d', s = l' ++ AT :: d' ∧ (AT ∉ l') ∧ lower d' = lower d.
Proof.
  intros H Hl. rewrite lower_app in H.
  apply fmap_app_inv in H as (l' & r & Hl' & Hr & ->).
  destruct r as [|b d']; [done|]. injection Hr as Hb Hd'.
  assert (b = AT) as ->.
  { change (to_ascii_lowercase AT) with AT in Hb. unfold to_ascii_lowercase in Hb.
    case_decide; lia. }
  exists l', d'. split_and!; [done| |done].
  rewrite <-(lower_elem AT l') by lia. unfold lower at 1. rewrite <-Hl'.
  by rewrite (lower_elem AT l) by lia.
Qed.

Lemma rfc822_within_trans s t u : rfc822_within s t → rfc822_within t u → rfc822_within s u.
Proof.
  unfold rfc822_within. intros Hst Htu. destruct (decide (AT ∈ u)) as [Hu|Hu].
  - assert (AT ∈ t) as Ht.
    { rewrite <-(lower_elem AT t), Htu by lia. by rewrite lower_elem by lia. }
    rewrite decide_True in Hst by done. congruence.
  - destruct Htu as (l & d & -> & Hl & Hd).
    rewrite decide_True in Hst by set_solver.
    destruct (split_at_lower l d s) as (l' & d' & -> & Hl' & Hd'); [done..|].
    exists l', d'. split_and!; [done..|]. by eapply rfc822_domain_trans.
Qed.

Abbreviation COLON := 58%N.

(** A constraint that is itself a URI with a scheme admits no host. *)
Lemma uri_host_no_colon s h : uri_host s = Ok (Some h) → COLON ∉ h.
Proof.
  rewrite uri_host_total. destruct (find_str _ s) as [i|]; cbn -[find_any_char]; [|done].
  intros [= <-]. apply find_any_char_take. apply list_elem_of_lookup. by exists 3.
Qed.

Lemma uri_constraint_with_scheme h t g :
  COLON ∉ h → uri_host_within h t → uri_host t ≠ Ok (Some g).
Proof.
  intros Hh [_ Ht]. rewrite uri_host_total. destruct (find_str _ t) as [i|] eqn:Hi; cbn; [|done].
  intros _. apply find_str_Some in Hi as [r Hr]. apply Hh.
  assert (COLON ∈ t) as Hc.
  { rewrite <-(take_drop i t), Hr. set_solver. }
  rewrite <-(lower_elem COLON t) in Hc by lia.
  rewrite <-(lower_elem COLON h) by lia.
  case_decide; [destruct Ht as (x & _ & ->); set_solver|by rewrite Ht].
Qed.

Lemma dn_within_subtree_spec s c :
  dn_within_subtree s c = true ↔
  length c ≤ length s ∧
  ∀ i r q, c !! i = Some r → s !! i = Some q →
    length r = length q ∧ ∀ k, k ∈ ava_key <$> r → k ∈ ava_key <$> q.
Proof.
  unfold dn_within_subtree. case_decide; [split; [done|lia]|].
  rewrite forallb_zip. split.
  - intros H'. split; [lia|]. intros i r q Hr Hq. specialize (H' i r q Hr Hq).
    case_decide as Hl; [done|]. split; [done|].
    rewrite forallb_elem in H'. intros k (a & -> & Ha)%list_elem_of_fmap.
    apply H', existsb_elem in Ha as (b & Hb & Hab%ava_match_key).
    rewrite Hab. by apply list_elem_of_fmap_2.
  - intros [_ H'] i r q Hr Hq. destruct (H' i r q Hr Hq) as [Hl Hk].
    rewrite decide_False by lia. rewrite forallb_elem. intros a Ha.
    destruct (proj1 (list_elem_of_fmap _ _ _) (Hk _ (list_elem_of_fmap_2 _ _ _ Ha)))
      as (b & Hab & Hb).
    apply existsb_elem. exists b. split; [done|]. by apply ava_match_key.
Qed.

Lemma dn_within_subtree_trans s t u :
  dn_within_subtree s t = true → dn_within_subtree t u = true →
  dn_within_subtree s u = true.
Proof.
  rewrite !dn_within_subtree_spec. intros [Hl1 H1] [Hl2 H2]. split; [lia|].
  intros i r q Hr Hq. apply lookup_lt_Some in Hr as Hlt.
  destruct (lookup_lt_is_Some_2 t i) as [m Hm]; [lia|].
  destruct (H1 i m q Hm Hq), (H2 i r m Hr Hm). split; [congruence|]. auto.
Qed.

Lemma dn_within_subtree_refl s : dn_within_subtree s s = true.
Proof.
  apply dn_within_subtree_spec. split; [done|]. intros i r q Hr Hq.
  rewrite Hr in Hq. by injection Hq as ->.
Qed.

Lemma name_within_trans n m b : name_within n m → name_within m b → name_within n b.
Proof.
  destruct n, m; try done; destruct b; try done; cbn.
  - apply rfc822_within_trans.
  - apply dns_within_trans.
  - apply dn_within_subtree_trans.
  - intros (h & Hh & Hw) (g & Hg & _).
    destruct (uri_constraint_with_scheme _ _ g (uri_host_no_colon _ _ Hh) Hw Hg).
  - intros (a & m & Hb & Ha & Hm & Hs & _) (a' & m' & _ & Ha' & _ & Hs' & _).
    exfalso. subst. rewrite length_app in Hs'. lia.
Qed.

Lemma name_matches_subtree_trans n st st' :
  name_matches_subtree n st = Ok true → name_matches_subtree (base st) st' = Ok true →
  name_matches_subtree n st' = Ok true.
Proof. rewrite !name_matches_subtree_spec. apply name_within_trans. Qed.

(** A name can only match a base of its own form. *)
Lemma name_matches_same_type n st :
  name_matches_subtree n st = Ok true → same_nc_variant n (base st) = true.
Proof. unfold name_matches_subtree. by destruct n, (base st). Qed.

(** ** The check of the names of one certificate *)
Section check_spec.
Context `{PathAsn1}.

(** The mailboxes of the emailAddress attributes of a subject. *)
Definition subject_emails (subj : Name) : list bytes :=
  omap (λ ava, if decide (ava_oid ava = OID_EMAIL_ADDRESS)
               then decode_as_ia5 (ava_value ava) else None) (mjoin subj).

(** The names of a certificate that constraints apply to. *)
Definition constrained_names (cert : Certificate) (san : option SubjectAltName) :
    list GeneralName :=
  let subj := subject (tbs_certificate cert) in
  (if name_is_empty subj then [] else [DirectoryName subj]) ++
  default [] (san_names <$> san) ++ (Rfc822Name <$> subject_emails subj).

(** A name is admitted by a state of the walk: under no excluded subtree, and
    under a permitted one when its form is constrained. *)
Definition name_allowed (permitted : option GeneralSubtrees) (excluded : GeneralSubtrees)
    (constrained : NcTypeMask) (n : GeneralName) : Prop :=
  (∀ st, st ∈ excluded → name_matches_subtree n st = Ok false) ∧
  (∀ p, permitted = Some p → intersects constrained (name_type_bit n) = true →
     ∃ st, st ∈ p ∧ name_matches_subtree n st = Ok true).

Lemma existsb_ext {A} (f g : A → bool) l : (∀ x, f x = g x) → existsb f l = existsb g l.
Proof. intros Hfg. induction l; cbn; [done|]. by rewrite Hfg, IHl. Qed.

(** The condition of one mode on one name. *)
Definition admitted_in (m : CheckMode) (p : GeneralSubtrees) (t : NcTypeMask)
    (n : GeneralName) : Prop :=
  match m with
  | Excluded => ∀ st, st ∈ p → name_matches_subtree n st = Ok false
  | Permitted => intersects t (name_type_bit n) = true →
      ∃ st, st ∈ p ∧ name_matches_subtree n st = Ok true
  end.

Lemma admitted_in_spec m p t n i :
  match m with
  | Excluded => fail_if (existsb (name_in n) p) (NameConstraintViolation i)
  | Permitted => fail_if (intersects t (name_type_bit n) && negb (existsb (name_in n) p))
      (NameConstraintViolation i)
  end = Ok tt ↔ admitted_in m p t n.
Proof.
  destruct m; cbn [admitted_in]; rewrite fail_if_Ok.
  - apply any_in_false.
  - rewrite <-any_in_true. destruct (intersects _ _), (existsb _ _); naive_solver.
Qed.

(** The same, as [check_san_against_subtrees] computes it. *)
Lemma admitted_in_checked m p t n i :
  match m with
  | Excluded => matched ← try_any (name_matches_subtree n) p;
      fail_if matched (NameConstraintViolation i)
  | Permitted => if intersects t (name_type_bit n) then
      matched ← try_any (name_matches_subtree n) p;
      fail_if (negb matched) (NameConstraintViolation i) else Ok tt
  end = Ok tt ↔ admitted_in m p t n.
Proof.
  rewrite <-(admitted_in_spec m p t n i), !try_any_name_in. cbn [mbind result_bind].
  destruct m; [done|]. by destruct (intersects _ _).
Qed.

Lemma check_subject_dn_Ok subj p m t i :
  check_subject_dn_against_subtrees subj false p m t i = Ok tt ↔
  admitted_in m p t (DirectoryName subj).
Proof.
  rewrite <-(admitted_in_spec m p t _ i). unfold check_subject_dn_against_subtrees.
  rewrite (existsb_ext _ (name_in (DirectoryName subj))).
  { by destruct m. }
  intros st. unfold name_in, name_matches_subtree. by destruct (base st).
Qed.

Lemma check_san_Ok san p m t i :
  check_san_against_subtrees san p m t i = Ok tt ↔
  ∀ n, n ∈ default [] (san_names <$> san) → admitted_in m p t n.
Proof.
  unfold check_san_against_subtrees. destruct san as [san|]; cbn.
  2: { split; [|done]. intros _ n Hn. by apply not_elem_of_nil in Hn. }
  rewrite try_for_each_Ok. split.
  - intros Hok n [j Hj]%list_elem_of_lookup. apply (admitted_in_checked m p t n i). by eapply Hok.
  - intros Had j n Hj. apply (admitted_in_checked m p t n i), Had. by eapply list_elem_of_lookup_2.
Qed.

Lemma email_matches_subtree_rfc822 e :
  email_matches_subtree e = name_matches_subtree (Rfc822Name e).
Proof. done. Qed.

Lemma check_email_Ok permitted excluded i ava e :
  ava_oid ava = OID_EMAIL_ADDRESS → decode_as_ia5 (ava_value ava) = Some e →
  check_email_ava permitted excluded i ava = Ok tt ↔
  (∀ st, st ∈ excluded → name_matches_subtree (Rfc822Name e) st = Ok false) ∧
  (∀ p, permitted = Some p → ∃ st, st ∈ p ∧ name_matches_subtree (Rfc822Name e) st = Ok true).
Proof.
  intros Ho He. unfold check_email_ava. rewrite decide_False by naive_solver. rewrite He.
  rewrite email_matches_subtree_rfc822, bind_Ok. split.
  - intros ([] & Hx & Hp). rewrite try_for_each_Ok in Hx. split.
    + intros st [j Hj]%list_elem_of_lookup. specialize (Hx j st Hj).
      rewrite name_matches_subtree_total in Hx. apply name_in_false. by apply fail_if_Ok in Hx.
    + intros p ->. rewrite try_any_name_in in Hp. cbn [mbind result_bind] in Hp.
      by rewrite fail_if_Ok, negb_false_iff, any_in_true in Hp.
  - intros [Hx Hp]. exists tt. split.
    + apply try_for_each_Ok. intros j st Hj%list_elem_of_lookup_2. by rewrite (Hx st Hj).
    + destruct permitted as [p|]; [|done]. rewrite try_any_name_in. cbn [mbind result_bind].
      rewrite fail_if_Ok, negb_false_iff, any_in_true. by apply Hp.
Qed.

(** The walk over the attributes checks every mailbox of the subject. *)
Lemma check_emails_Ok permitted excluded i subj :
  try_for_each (λ _ (rdn : RelativeDistinguishedName),
    try_for_each (λ _ ava, check_email_ava permitted excluded i ava) rdn) subj = Ok tt ↔
  ∀ e, e ∈ subject_emails subj →
    (∀ st, st ∈ excluded → name_matches_subtree (Rfc822Name e) st = Ok false) ∧
    (∀ p, permitted = Some p → ∃ st, st ∈ p ∧ name_matches_subtree (Rfc822Name e) st = Ok true).
Proof.
  rewrite try_for_each_Ok. setoid_rewrite try_for_each_Ok. split.
  - intros Hok e He. unfold subject_emails in He.
    apply list_elem_of_omap in He as (ava & Hava & He).
    apply list_elem_of_join in Hava as (rdn & Hava & Hrdn).
    apply list_elem_of_lookup in Hava as [k Hk], Hrdn as [j Hj].
    specialize (Hok j rdn Hj k ava Hk). case_decide; [|done].
    by apply (check_email_Ok permitted excluded i ava e).
  - intros Had j rdn Hj k ava Hk.
    destruct (decide (ava_oid ava = OID_EMAIL_ADDRESS)) as [Ho|Ho].
    2: { unfold check_email_ava. by rewrite decide_True. }
    destruct (decode_as_ia5 (ava_value ava)) as [e|] eqn:He.
    2: { unfold check_email_ava. rewrite He. by case_decide. }
    apply (check_email_Ok permitted excluded i ava e); [done..|]. apply Had.
    unfold subject_emails. apply list_elem_of_omap. exists ava. split.
    + apply list_elem_of_join. exists rdn.
      split; by eapply list_elem_of_lookup_2.
    + by rewrite decide_True.
Qed.

Lemma check_names_Ok cert san t i p m :
  check_names cert san t i p m = Ok tt ↔
  ∀ n, n ∈ (if name_is_empty (subject (tbs_certificate cert)) then []
            else [DirectoryName (subject (tbs_certificate cert))]) ++
           default [] (san_names <$> san) → admitted_in m p t n.
Proof.
  unfold check_names. setoid_rewrite elem_of_app. rewrite bind_Ok.
  destruct (name_is_empty _).
  - split.
    + intros ([] & _ & Hs) n [Hn|Hn]; [by apply not_elem_of_nil in Hn|].
      by eapply check_san_Ok.
    + intros Hn. exists tt. split; [done|]. apply check_san_Ok. auto.
  - setoid_rewrite list_elem_of_singleton. split.
    + intros ([] & Hd & Hs) n [->|Hn]; [by eapply check_subject_dn_Ok|by eapply check_san_Ok].
    + intros Hn. exists tt. split; [apply check_subject_dn_Ok|apply check_san_Ok]; auto.
Qed.

Lemma intersects_empty t : intersects NC_EMPTY t = false.
Proof. done. Qed.

(** The guard of the walk over the attributes and the filter on the permitted
    subtrees lose nothing. *)
Lemma check_subject_emails_Ok subj permitted excluded t i :
  (permitted = None → t = NC_EMPTY) →
  (if (intersects t NC_RFC822 || existsb is_rfc822_subtree excluded) &&
      negb (name_is_empty subj)
   then try_for_each (λ _ (rdn : RelativeDistinguishedName),
          try_for_each (λ _ ava,
            check_email_ava
              (if intersects t NC_RFC822
               then Some (match permitted with
                          | Some p => filter (λ st, is_rfc822_subtree st = true) p
                          | None => []
                          end)
               else None) excluded i ava) rdn) subj
   else Ok tt) = Ok tt ↔
  ∀ e, e ∈ subject_emails subj → name_allowed permitted excluded t (Rfc822Name e).
Proof.
  intros Hp. destruct (name_is_empty subj) eqn:Hempty.
  { rewrite andb_false_r. split; [|done]. intros _ e He. destruct subj; [|done].
    by apply not_elem_of_nil in He. }
  rewrite andb_true_r. unfold name_allowed. cbn [name_type_bit].
  destruct (intersects t NC_RFC822) eqn:Ht; cbn [orb].
  - destruct permitted as [p|]; [|by rewrite Hp, intersects_empty in Ht].
    rewrite check_emails_Ok. apply forall_proper; intros e.
    assert ((∃ st, st ∈ filter (λ st, is_rfc822_subtree st = true) p ∧
                   name_matches_subtree (Rfc822Name e) st = Ok true) ↔
            (∃ st, st ∈ p ∧ name_matches_subtree (Rfc822Name e) st = Ok true)) as Hf.
    { setoid_rewrite list_elem_of_filter. split; [naive_solver|].
      intros (st & Hst & Hm). exists st. split_and!; [|done..].
      unfold name_matches_subtree, is_rfc822_subtree in *. by destruct (base st). }
    naive_solver.
  - destruct (existsb is_rfc822_subtree excluded) eqn:Hx.
    + rewrite check_emails_Ok. naive_solver.
    + split; [|done]. intros _ e _. split; [|done]. intros st Hst.
      apply (proj1 (existsb_elem_false _ _) Hx) in Hst.
      unfold name_matches_subtree, is_rfc822_subtree in *. by destruct (base st).
Qed.

(** The whole check, in a state where the permitted set exists as soon as a
    form is constrained. *)
Lemma check_name_constraints_Ok cert san permitted excluded t i :
  (permitted = None → t = NC_EMPTY) →
  check_name_constraints cert san permitted excluded t i = Ok tt ↔
  ∀ n, n ∈ constrained_names cert san → name_allowed permitted excluded t n.
Proof.
  intros Hp. unfold check_name_constraints, constrained_names. cbv zeta.
  rewrite app_assoc. set (names := (if name_is_empty _ then _ else _) ++ _).
  setoid_rewrite elem_of_app. setoid_rewrite list_elem_of_fmap. split.
  - intros Hok. apply bind_Ok in Hok as ([] & Hx & Hok).
    apply bind_Ok in Hok as ([] & Hperm & He).
    pose proof (proj1 (check_subject_emails_Ok _ permitted excluded t i Hp) He).
    intros n [Hn|(e & -> & Hn)]; [|auto].
    split; [by eapply check_names_Ok in Hx|]. intros p ->.
    by eapply check_names_Ok in Hperm.
  - intros Hn. apply bind_Ok. exists tt. split.
    { apply check_names_Ok. intros n Hin. by destruct (Hn n (or_introl Hin)). }
    apply bind_Ok. exists tt. split; [|apply check_subject_emails_Ok; naive_solver].
    destruct permitted as [p|]; [|done]. apply check_names_Ok.
    intros n Hin. destruct (Hn n (or_introl Hin)) as [_ Hp']. cbn. by apply Hp'.
Qed.

(** It does not panic, and its only error is the violation at the index. *)
Lemma check_name_constraints_errors cert san permitted excluded t i :
  only_err (NameConstraintViolation i)
    (check_name_constraints cert san permitted excluded t i).
Proof.
  unfold check_name_constraints, check_names, check_subject_dn_against_subtrees,
    check_san_against_subtrees, check_email_ava.
  repeat (intros || rewrite email_matches_subtree_rfc822 || rewrite try_any_name_in
          || rewrite name_matches_subtree_total || apply only_err_fail_if || done
          || apply only_err_try_for_each || case_match || apply only_err_bind).
Qed.
End check_spec.

(** ** Properties *)
Section properties.
Context `{PathAsn1}.


(** C21: checking the names of a certificate succeeds exactly when its subject,
    each of its alternative names and each emailAddress of its subject is
    allowed by the current state, it never panics, and it fails only with the
    violation at the index of the certificate. *)
Theorem check_name_constraints_correct cert san permitted excluded t i
    (Hstate : permitted = None → t = NC_EMPTY) :
  (check_name_constraints cert san permitted excluded t i = Ok tt ↔
     ∀ n, n ∈ constrained_names cert san → name_allowed permitted excluded t n) ∧
  (check_name_constraints cert san permitted excluded t i = Ok tt ∨
   check_name_constraints cert san permitted excluded t i = Err (NameConstraintViolation i)).
Proof.
  split; [by apply check_name_constraints_Ok|].
  pose proof (check_name_constraints_errors cert san permitted excluded t i) as He.
  destruct (check_name_constraints _ _ _ _ _ _) as [[]|e|]; cbn in He; [auto|subst; auto|done].
Qed.

End properties.

Lemma check_name_constraints_correct_witness :
  check_name_constraints (sample_cert "ca" "leaf" 1 []) (Some {| san_names := [DnsName (str "a.b.example")] |})
    None [dns_subtree (str "b.example")] NC_EMPTY 3 = Err (NameConstraintViolation 3).
Proof.
  destruct (check_name_constraints_correct (sample_cert "ca" "leaf" 1 [])
    (Some {| san_names := [DnsName (str "a.b.example")] |})
    None [dns_subtree (str "b.example")] NC_EMPTY 3 (λ _, eq_refl)) as [Hok [H'|H']]; [|exact H'].
  destruct (proj1 Hok H' (DnsName (str "a.b.example"))) as [Hx _]; [by right; left|].
  by specialize (Hx (dns_subtree (str "b.example")) (list_elem_of_here _ _)).
Defined.

(** The user information is cut at the first "@" of the whole remainder of the
    URI, so an "@" in the path selects the host. *)
Theorem matches_uri_at_sign_in_path :
  uri_host (str "https://evil.example/@good.example") = Ok (Some (str "good.example")) ∧
  matches_uri (str "https://evil.example/@good.example") (str "good.example") = Ok true.
Proof. split; reflexivity. Qed.
