(* ===== verification/PolicyTree.v ===== *)
(** * The valid policy tree (pkix-path/src/lib.rs)

    The tree is the vector of nodes of the source, each with its depth;
    parenthood is not stored, a node of depth d+1 is a child of a node of
    depth d when its policy is in the expected set.  One definition per block
    of [chain_walk] that reads or writes the tree, and [prune_policy_tree]. *)
From S2P Require Import Prelude X509 PathTypes.

Record PolicyNode := {
  depth : nat;
  valid_policy : ObjectIdentifier;
  expected_policy_set : list ObjectIdentifier;
  qualifiers : list PolicyQualifierInfo }.
#[global] Instance PolicyNode_eq_dec : EqDecision PolicyNode.
Proof. solve_decision. Defined.

Definition cert_any_policy_qualifiers (cp : CertificatePolicies) : list PolicyQualifierInfo :=
  default []
    ('(_, pi) ← list_find (λ pi, policy_identifier pi = OID_ANY_POLICY) (cp_infos cp);
     policy_qualifiers pi).

Definition init_policy_tree : list PolicyNode :=
  [{| depth := 0; valid_policy := OID_ANY_POLICY;
      expected_policy_set := [OID_ANY_POLICY]; qualifiers := [] |}].

(** ** Pruning *)

(** The policies of the nodes at depth [d]. *)
Definition policies_at (d : nat) (tree : list PolicyNode) : list ObjectIdentifier :=
  valid_policy <$> filter (λ n, depth n = d) tree.

(** The body of the loop of [prune_policy_tree] for [d = prune_depth + 1]. *)
Definition prune_depth_step (prune_depth : nat) (tree : list PolicyNode) : list PolicyNode :=
  let child_policies := policies_at (S prune_depth) tree in
  filter (λ n, depth n ≠ prune_depth ∨
               existsb (λ cp, bool_decide (cp ∈ expected_policy_set n)) child_policies = true)
    tree.

(** The loop, from [prune_depth] down to 1. *)
Fixpoint prune_loop (prune_depth : nat) (tree : list PolicyNode) : list PolicyNode :=
  match prune_depth with
  | 0 => tree
  | S k => prune_loop k (prune_depth_step prune_depth tree)
  end.

(** [d - 1] underflows when [cert_depth] is 0. *)
Definition prune_policy_tree {E} (tree : list PolicyNode) (cert_depth : nat) :
    result E (list PolicyNode) :=
  match cert_depth with
  | 0 => Panic
  | S prune_depth => Ok (prune_loop prune_depth tree)
  end.

Definition policy_tree_post_op_prune {E} (tree : list PolicyNode) (prune_depth : nat) :
    result E (list PolicyNode * bool) :=
  tree ← (if decide (0 < prune_depth) then prune_policy_tree tree prune_depth else Ok tree);
  mret (tree, negb (existsb (λ nd, bool_decide (1 ≤ depth nd)) tree)).

(** [if policy_tree_post_op_prune(tree, d) { state.policy_tree = None; }] *)
Definition prune_or_null {E} (tree : list PolicyNode) (prune_depth : nat) :
    result E (option (list PolicyNode)) :=
  '(tree, is_null) ← policy_tree_post_op_prune tree prune_depth;
  mret (if is_null : bool then None else Some tree).

(** ** 6.1.3(d): the policies of a certificate *)

(** [nd.depth == cert_depth - 1 && test(nd)]: the subtraction underflows when
    [cert_depth] is 0. *)
Definition at_parent_depth {E} (cert_depth : nat) (test : PolicyNode → bool) (nd : PolicyNode) :
    result E bool :=
  parent_depth ← usize_sub cert_depth 1;
  mret (bool_decide (depth nd = parent_depth) && test nd).

(** (d)(1): the nodes added for one [PolicyInformation] other than anyPolicy. *)
Definition policy_info_nodes {E} (tree : list PolicyNode) (cert_depth : nat)
    (policy_info : PolicyInformation) : result E (list PolicyNode) :=
  let p_oid := policy_identifier policy_info in
  let quals := default [] (policy_qualifiers policy_info) in
  let node := {| depth := cert_depth; valid_policy := p_oid;
                 expected_policy_set := [p_oid]; qualifiers := quals |} in
  parents ← try_filter (at_parent_depth cert_depth
              (λ parent, bool_decide (p_oid ∈ expected_policy_set parent))) tree;
  match parents with
  | _ :: _ => mret ((λ _, node) <$> parents)
  | [] =>
      has_any_parent ← try_any (at_parent_depth cert_depth
        (λ parent, bool_decide (valid_policy parent = OID_ANY_POLICY))) tree;
      mret (if has_any_parent : bool then [node] else [])
  end.

(** (d)(2): the nodes added for the anyPolicy of the certificate. *)
Definition any_policy_nodes {E} (tree : list PolicyNode) (cert_depth : nat)
    (cp_ext : CertificatePolicies) (new_nodes : list PolicyNode) : result E (list PolicyNode) :=
  let any_policy_qualifiers := cert_any_policy_qualifiers cp_ext in
  let already_covered := valid_policy <$> new_nodes in
  parents ← try_filter (at_parent_depth cert_depth (λ _, true)) tree;
  mret (mjoin ((λ parent,
    (λ ep, {| depth := cert_depth; valid_policy := ep;
              expected_policy_set := [ep]; qualifiers := any_policy_qualifiers |})
      <$> filter (λ ep, ep ∉ already_covered) (expected_policy_set parent)) <$> parents)).

(** The tree after [tree.extend(new_nodes)]; [may_expand] is
    [state.inhibit_any > 0 || (i > 0 && is_self_issued_cert(cert))]. *)
Definition extend_policy_tree {E} (tree : list PolicyNode) (cert_depth : nat)
    (cp_ext : CertificatePolicies) (may_expand : bool) : result E (list PolicyNode) :=
  let is_any := λ pi, bool_decide (policy_identifier pi = OID_ANY_POLICY) in
  let has_any_policy := existsb is_any (cp_infos cp_ext) in
  new_nodes ← try_fold (λ new_nodes pi,
      nodes ← policy_info_nodes tree cert_depth pi; mret (new_nodes ++ nodes)) []
    (filter (λ pi, is_any pi = false) (cp_infos cp_ext));
  any_nodes ← (if has_any_policy && may_expand
               then any_policy_nodes tree cert_depth cp_ext new_nodes else Ok []);
  mret (tree ++ new_nodes ++ any_nodes).

(** The block (policy-d) of [chain_walk]. *)
Definition policy_step_d {E} (policy_tree : option (list PolicyNode))
    (cert_cp : option CertificatePolicies) (cert_depth : nat) (may_expand : bool) :
    result E (option (list PolicyNode)) :=
  match policy_tree with
  | None => Ok None
  | Some tree =>
      match cert_cp with
      | Some cp_ext =>
          tree ← extend_policy_tree tree cert_depth cp_ext may_expand;
          prune_or_null tree cert_depth
      | None => Ok None
      end
  end.

(** ** 6.1.4(a)-(b): policy mappings *)

(** [for node in tree.iter_mut()]: one node under one mapping. *)
Definition map_node (cert_depth : nat) (idp sdp : ObjectIdentifier) (node : PolicyNode) :
    PolicyNode :=
  if decide (depth node = cert_depth ∧ valid_policy node = idp) then
    let kept := filter (λ p, p ≠ idp) (expected_policy_set node) in
    {| depth := depth node; valid_policy := valid_policy node;
       expected_policy_set := if decide (sdp ∈ kept) then kept else kept ++ [sdp];
       qualifiers := qualifiers node |}
  else node.

(** (b)(1) for one mapping. *)
Definition apply_mapping (cert_depth : nat) (any_quals : list PolicyQualifierInfo)
    (tree : list PolicyNode) (mapping : PolicyMapping) : list PolicyNode :=
  let idp := issuer_domain_policy mapping in
  let sdp := subject_domain_policy mapping in
  let found := existsb (λ node, bool_decide (depth node = cert_depth ∧ valid_policy node = idp))
                 tree in
  let tree := map_node cert_depth idp sdp <$> tree in
  if found then tree
  else if existsb (λ nd, bool_decide (depth nd = cert_depth ∧ valid_policy nd = OID_ANY_POLICY))
            tree
  then tree ++ [{| depth := cert_depth; valid_policy := idp;
                   expected_policy_set := [sdp]; qualifiers := any_quals |}]
  else tree.

(** (b)(1) and (b)(2). *)
Definition apply_mappings {E} (tree : list PolicyNode) (pm : PolicyMappings)
    (cert_cp : option CertificatePolicies) (policy_mapping : N) (cert_depth : nat) :
    result E (list PolicyNode) :=
  if decide (0 < policy_mapping)%N then
    let any_quals := default [] (cert_any_policy_qualifiers <$> cert_cp) in
    Ok (foldl (apply_mapping cert_depth any_quals) tree (pm_mappings pm))
  else
    let mapped_policies := issuer_domain_policy <$> pm_mappings pm in
    let tree := filter (λ nd, depth nd ≠ cert_depth ∨ valid_policy nd ∉ mapped_policies) tree in
    '(tree, _) ← policy_tree_post_op_prune tree cert_depth;
    mret tree.

(** The blocks (policy-a) and (policy-b): the check of the mappings, their
    application, and the final test for an empty tree. *)
Definition policy_step_mappings (policy_tree : option (list PolicyNode))
    (pm : option PolicyMappings) (cert_cp : option CertificatePolicies)
    (policy_mapping : N) (cert_depth i : nat) : Result (option (list PolicyNode)) :=
  policy_tree ←
    match pm with
    | None => Ok policy_tree
    | Some pm =>
        _ ← try_for_each (λ _ mapping,
              fail_if (bool_decide (issuer_domain_policy mapping = OID_ANY_POLICY) ||
                       bool_decide (subject_domain_policy mapping = OID_ANY_POLICY))
                (PolicyViolation i)) (pm_mappings pm);
        match policy_tree with
        | None => Ok None
        | Some tree => Some <$> apply_mappings tree pm cert_cp policy_mapping cert_depth
        end
    end;
  match policy_tree with
  | None => Ok None
  | Some tree => prune_or_null tree 0
  end.

(** ** 6.1.5(g)(iii): intersection with the user's policies *)

(** [vpns_indices] *)
Definition vpns_indices {E} (tree : list PolicyNode) : result E (list nat) :=
  vpns ← try_filter (λ e : nat * PolicyNode,
    if decide (1 ≤ depth e.2) then
      try_any (at_parent_depth (depth e.2) (λ p, bool_decide (valid_policy p = OID_ANY_POLICY))) tree
    else Ok false) (imap pair tree);
  mret (fst <$> (vpns : list (nat * PolicyNode))).

(** [to_delete_vpns] *)
Definition vpns_to_delete {E} (initial_policy_set : list ObjectIdentifier)
    (tree : list PolicyNode) : result E (list (nat * ObjectIdentifier)) :=
  indices ← vpns_indices tree;
  out_of_set ← try_filter (λ idx,
    nd ← index tree idx;
    mret (bool_decide (valid_policy nd ≠ OID_ANY_POLICY ∧ valid_policy nd ∉ initial_policy_set)))
    indices;
  try_map (λ idx, nd ← index tree idx; mret (depth nd, valid_policy nd)) out_of_set.

(** One depth of the downward cascade. *)
Definition cascade_step {E} (d : nat) (tree : list PolicyNode) : result E (list PolicyNode) :=
  parent_depth ← usize_sub d 1;
  let reachable := mjoin (expected_policy_set <$> filter (λ nd, depth nd = parent_depth) tree) in
  let any_parent := existsb (λ nd, bool_decide (depth nd = parent_depth) &&
                                   bool_decide (valid_policy nd = OID_ANY_POLICY)) tree in
  mret (filter (λ nd, depth nd ≠ d ∨ valid_policy nd ∈ reachable ∨ any_parent = true) tree).

(** [for d in 2..=leaf_depth] *)
Definition cascade {E} (leaf_depth : nat) (tree : list PolicyNode) : result E (list PolicyNode) :=
  try_fold (λ tree d, cascade_step d tree) tree (seq 2 (leaf_depth - 1)).

(** Step (iii)(2). *)
Definition delete_out_of_set {E} (initial_policy_set : list ObjectIdentifier) (leaf_depth : nat)
    (tree : list PolicyNode) : result E (list PolicyNode) :=
  to_delete ← vpns_to_delete initial_policy_set tree;
  match to_delete with
  | [] => Ok tree
  | _ => cascade leaf_depth (filter (λ nd, (depth nd, valid_policy nd) ∉ to_delete) tree)
  end.

(** Step (iii)(3). *)
Definition materialise_leaf_any (initial_policy_set : list ObjectIdentifier) (leaf_depth : nat)
    (tree : list PolicyNode) : list PolicyNode :=
  match list_find (λ nd, depth nd = leaf_depth ∧ valid_policy nd = OID_ANY_POLICY) tree with
  | None => tree
  | Some (_, leaf_any) =>
      let leaf_policies := policies_at leaf_depth tree in
      let additions :=
        (λ p_oid, {| depth := leaf_depth; valid_policy := p_oid;
                     expected_policy_set := [p_oid]; qualifiers := qualifiers leaf_any |})
          <$> filter (λ p_oid, p_oid ∉ leaf_policies) initial_policy_set in
      filter (λ nd, ¬ (depth nd = leaf_depth ∧ valid_policy nd = OID_ANY_POLICY))
        (tree ++ additions)
  end.

Definition intersect_user_policy_set {E} (initial_policy_set : list ObjectIdentifier)
    (leaf_depth : nat) (policy_tree : option (list PolicyNode)) :
    result E (option (list PolicyNode)) :=
  match initial_policy_set with
  | [] => Ok policy_tree
  | _ =>
      match policy_tree with
      | None => Ok None
      | Some tree =>
          tree ← delete_out_of_set initial_policy_set leaf_depth tree;
          let tree := materialise_leaf_any initial_policy_set leaf_depth tree in
          prune_or_null tree leaf_depth
      end
  end.

(** ** What the checked definitions compute

    Below a certificate, at depth 1 or more, no subtraction underflows; these
    are the values. *)
Lemma at_parent_depth_Ok {E} D test nd :
  1 ≤ D → at_parent_depth (E:=E) D test nd = Ok (bool_decide (depth nd = D - 1) && test nd).
Proof. intros HD. unfold at_parent_depth. by rewrite usize_sub_Ok. Qed.

Lemma filter_parents {E} D test tree :
  1 ≤ D → try_filter (E:=E) (at_parent_depth D test) tree =
  Ok (filter (λ nd, bool_decide (depth nd = D - 1) && test nd = true) tree).
Proof. intros HD. apply try_filter_pure. intros nd _. by apply at_parent_depth_Ok. Qed.

Lemma any_parent_test {E} D test tree :
  1 ≤ D → try_any (E:=E) (at_parent_depth D test) tree =
  Ok (existsb (λ nd, bool_decide (depth nd = D - 1) && test nd) tree).
Proof. intros HD. apply try_any_pure. intros nd _. by apply at_parent_depth_Ok. Qed.

Definition info_nodes (tree : list PolicyNode) (D : nat) (pi : PolicyInformation) :
    list PolicyNode :=
  let p_oid := policy_identifier pi in
  let node := {| depth := D; valid_policy := p_oid; expected_policy_set := [p_oid];
                 qualifiers := default [] (policy_qualifiers pi) |} in
  match filter (λ m, depth m = D - 1 ∧ p_oid ∈ expected_policy_set m) tree with
  | [] => if existsb (λ m, bool_decide (depth m = D - 1) &&
                           bool_decide (valid_policy m = OID_ANY_POLICY)) tree
          then [node] else []
  | parents => (λ _, node) <$> parents
  end.

Lemma policy_info_nodes_Ok {E} tree D pi :
  1 ≤ D → policy_info_nodes (E:=E) tree D pi = Ok (info_nodes tree D pi).
Proof.
  intros HD. unfold policy_info_nodes, info_nodes. rewrite filter_parents by done.
  cbn [mbind result_bind]. rewrite any_parent_test by done.
  rewrite (list_filter_iff _ (λ m, depth m = D - 1 ∧ policy_identifier pi ∈ expected_policy_set m))
    by (intros m; rewrite andb_true_iff, !bool_decide_eq_true; done).
  by destruct (filter _ tree).
Qed.

Definition any_nodes (tree : list PolicyNode) (D : nat) (cp : CertificatePolicies)
    (new : list PolicyNode) : list PolicyNode :=
  mjoin ((λ m,
    (λ ep, {| depth := D; valid_policy := ep; expected_policy_set := [ep];
              qualifiers := cert_any_policy_qualifiers cp |})
      <$> filter (λ ep, ep ∉ valid_policy <$> new) (expected_policy_set m))
    <$> filter (λ m, depth m = D - 1) tree).

Lemma any_policy_nodes_Ok {E} tree D cp new :
  1 ≤ D → any_policy_nodes (E:=E) tree D cp new = Ok (any_nodes tree D cp new).
Proof.
  intros HD. unfold any_policy_nodes. rewrite filter_parents by done.
  rewrite (list_filter_iff _ (λ m, depth m = D - 1))
    by (intros m; rewrite andb_true_r, bool_decide_eq_true; done). done.
Qed.

Definition extended_tree (tree : list PolicyNode) (D : nat) (cp : CertificatePolicies)
    (may_expand : bool) : list PolicyNode :=
  let is_any := λ pi, bool_decide (policy_identifier pi = OID_ANY_POLICY) in
  let new := mjoin (info_nodes tree D <$> filter (λ pi, is_any pi = false) (cp_infos cp)) in
  tree ++ new ++ (if existsb is_any (cp_infos cp) && may_expand
                  then any_nodes tree D cp new else []).

Lemma extend_policy_tree_Ok {E} tree D cp may :
  1 ≤ D → extend_policy_tree (E:=E) tree D cp may = Ok (extended_tree tree D cp may).
Proof.
  intros HD. unfold extend_policy_tree, extended_tree. cbv zeta.
  set (l := filter _ (cp_infos cp)).
  assert (∀ acc, try_fold (E:=E) (λ new_nodes pi,
      nodes ← policy_info_nodes tree D pi; mret (new_nodes ++ nodes)) acc l =
    Ok (acc ++ mjoin (info_nodes tree D <$> l))) as Hfold.
  { induction l as [|pi l IH]; intros acc; cbn [try_fold]; [by rewrite app_nil_r|].
    rewrite policy_info_nodes_Ok by done. cbn [mbind result_bind mret result_ret].
    rewrite IH, fmap_cons. change (mjoin (?x :: ?k)) with (x ++ mjoin k). by rewrite app_assoc. }
  rewrite Hfold. cbn [mbind result_bind app]. destruct (_ && _); [|done].
  by rewrite any_policy_nodes_Ok.
Qed.

(** ** Pruning keeps what leads to the deepest level *)

(** A node of [tree] from which a chain of children in [tree] leads to depth
    [D]. *)
Inductive reaches (tree : list PolicyNode) (D : nat) : PolicyNode → Prop :=
| reaches_at n : n ∈ tree → depth n = D → reaches tree D n
| reaches_child n m :
    n ∈ tree → depth m = S (depth n) → valid_policy m ∈ expected_policy_set n →
    reaches tree D m → reaches tree D n.

Lemma reaches_elem tree D n : reaches tree D n → n ∈ tree.
Proof. by destruct 1. Qed.

Lemma reaches_depth tree D n : reaches tree D n → depth n ≤ D.
Proof. induction 1; lia. Qed.

Lemma elem_of_policies_at d tree p :
  p ∈ policies_at d tree ↔ ∃ m, m ∈ tree ∧ depth m = d ∧ valid_policy m = p.
Proof.
  unfold policies_at. rewrite list_elem_of_fmap. setoid_rewrite list_elem_of_filter.
  naive_solver.
Qed.

Lemma elem_of_prune_depth_step k tree n :
  n ∈ prune_depth_step k tree ↔
  n ∈ tree ∧ (depth n = k → ∃ m, m ∈ tree ∧ depth m = S k ∧
                                valid_policy m ∈ expected_policy_set n).
Proof.
  unfold prune_depth_step. rewrite list_elem_of_filter, existsb_elem.
  setoid_rewrite elem_of_policies_at. setoid_rewrite bool_decide_eq_true.
  destruct (decide (depth n = k)); naive_solver.
Qed.

Lemma reaches_prune_step k tree n :
  depth n ≤ k →
  reaches (prune_depth_step k tree) k n ↔ reaches tree (S k) n.
Proof.
  intros Hn. split.
  - induction 1 as [n Hin Hd|n m Hin Hd Hp Hm IH].
    + apply elem_of_prune_depth_step in Hin as [Hin Hc].
      destruct (Hc Hd) as (m & Hm & Hdm & Hp).
      apply (reaches_child _ _ n m); [done|lia|done|]. by apply reaches_at.
    + apply elem_of_prune_depth_step in Hin as [Hin _].
      eapply reaches_child; [done..|]. apply IH. by apply reaches_depth in Hm.
  - induction 1 as [n Hin Hd|n m Hin Hd Hp Hm IH]; [lia|].
    destruct (decide (depth n = k)) as [Hk|Hk].
    + apply reaches_at; [|done]. apply elem_of_prune_depth_step. split; [done|].
      intros _. exists m. split_and!; [by eapply reaches_elem|lia|done].
    + eapply reaches_child; [|done..|apply IH; lia].
      apply elem_of_prune_depth_step. naive_solver.
Qed.

Lemma elem_of_prune_loop k tree n :
  n ∈ prune_loop k tree ↔
  n ∈ tree ∧ (depth n = 0 ∨ k < depth n ∨ reaches tree (S k) n).
Proof.
  revert tree. induction k as [|k IH]; intros tree; cbn [prune_loop].
  { split; [|tauto]. intros H. split; [done|]. lia. }
  rewrite IH, elem_of_prune_depth_step. split.
  - intros [[Hin Hc] H]. split; [done|].
    destruct H as [H|[H|H]]; [by left| |].
    + destruct (decide (depth n = S k)) as [Hd|]; [|right; left; lia].
      right; right. destruct (Hc Hd) as (m & ? & ? & ?).
      apply (reaches_child _ _ n m); [done|lia|done|]. by apply reaches_at.
    + right; right. apply (reaches_prune_step (S k)); [|done].
      by apply reaches_depth in H.
  - intros [Hin H]. destruct (decide (depth n ≤ S k)) as [Hle|Hle].
    + destruct H as [H|[H|H]]; [|lia|].
      { split; [split; [done|lia]|by left]. }
      apply (reaches_prune_step (S k)) in H; [|done].
      pose proof (reaches_elem _ _ _ H) as He.
      apply elem_of_prune_depth_step in He as [_ Hc]. split; [done|by right; right].
    + split; [split; [done|lia]|]. right; left; lia.
Qed.

(** Pruning is a filter: it neither adds nor reorders nodes. *)
Lemma prune_loop_sublist k tree : prune_loop k tree `sublist_of` tree.
Proof.
  revert tree. induction k as [|k IH]; intros tree; cbn; [done|].
  etrans; [apply IH|apply sublist_filter].
Qed.

(** ** The calls of the pruner never panic *)
Definition prune (d : nat) (tree : list PolicyNode) : list PolicyNode :=
  prune_loop (d - 1) tree.

Definition tree_is_null (tree : list PolicyNode) : bool :=
  negb (existsb (λ nd, bool_decide (1 ≤ depth nd)) tree).

Lemma post_op_prune_Ok {E} tree d :
  policy_tree_post_op_prune (E:=E) tree d = Ok (prune d tree, tree_is_null (prune d tree)).
Proof.
  unfold policy_tree_post_op_prune, prune.
  destruct d as [|d]; [done|]. rewrite decide_True by lia. cbn.
  by rewrite Nat.sub_0_r.
Qed.

Lemma prune_or_null_Ok {E} tree d :
  prune_or_null (E:=E) tree d =
  Ok (if tree_is_null (prune d tree) then None else Some (prune d tree)).
Proof. unfold prune_or_null. by rewrite post_op_prune_Ok. Qed.

Lemma tree_is_null_false tree :
  tree_is_null tree = false ↔ ∃ n, n ∈ tree ∧ 1 ≤ depth n.
Proof.
  unfold tree_is_null. rewrite negb_false_iff, existsb_elem.
  by setoid_rewrite bool_decide_eq_true.
Qed.

Lemma no_panic_prune_or_null {E} tree d : no_panic (prune_or_null (E:=E) tree d).
Proof. by rewrite prune_or_null_Ok. Qed.
#[export] Hint Resolve no_panic_prune_or_null : pkix.

Lemma no_panic_policy_step_d {E} t cp d b :
  1 ≤ d → no_panic (policy_step_d (E:=E) t cp d b).
Proof.
  intros Hd. unfold policy_step_d. destruct t, cp; [|done..].
  rewrite extend_policy_tree_Ok by done. cbn [mbind result_bind]. auto with pkix.
Qed.

Lemma apply_mappings_Ok {E} tree pm cp m d :
  ∃ t, apply_mappings (E:=E) tree pm cp m d = Ok t.
Proof.
  unfold apply_mappings. case_decide; [by eexists|].
  rewrite post_op_prune_Ok. by eexists.
Qed.

Lemma no_panic_policy_step_mappings t pm cp m d i :
  no_panic (policy_step_mappings t pm cp m d i).
Proof.
  unfold policy_step_mappings. apply no_panic_bind.
  - destruct pm as [pm|]; [|done]. apply no_panic_bind; [auto with pkix|].
    intros _ _. destruct t; [|done]. apply no_panic_fmap.
    destruct (apply_mappings_Ok (E:=Error) l pm cp m d) as [t ->]. done.
  - intros [t'|] _; [|done]. auto with pkix.
Qed.

(** ** Deletion of the policies that the user does not accept *)
Definition any_parent (tree : list PolicyNode) (n : PolicyNode) : Prop :=
  1 ≤ depth n ∧ ∃ m, m ∈ tree ∧ depth m = depth n - 1 ∧ valid_policy m = OID_ANY_POLICY.

Lemma any_parent_spec tree n :
  any_parent tree n ↔ bool_decide (1 ≤ depth n) &&
    existsb (λ p, bool_decide (depth p = depth n - 1) &&
                  bool_decide (valid_policy p = OID_ANY_POLICY)) tree = true.
Proof.
  unfold any_parent. rewrite andb_true_iff, bool_decide_eq_true, existsb_elem.
  setoid_rewrite andb_true_iff. setoid_rewrite bool_decide_eq_true. done.
Qed.

Lemma vpns_indices_spec {E} tree :
  ∃ l, vpns_indices (E:=E) tree = Ok l ∧
    ∀ i, i ∈ l ↔ ∃ n, tree !! i = Some n ∧ any_parent tree n.
Proof.
  unfold vpns_indices.
  rewrite (try_filter_pure _ (λ e, bool_decide (1 ≤ depth e.2) &&
    existsb (λ p, bool_decide (depth p = depth e.2 - 1) &&
                  bool_decide (valid_policy p = OID_ANY_POLICY)) tree)).
  2:{ intros e _. case_decide as Hd; [|by rewrite bool_decide_eq_false_2].
      by rewrite any_parent_test, bool_decide_eq_true_2. }
  eexists. split; [done|]. intros i. rewrite list_elem_of_fmap.
  setoid_rewrite list_elem_of_filter. setoid_rewrite <-any_parent_spec.
  setoid_rewrite elem_of_lookup_imap. split.
  - by intros ([? n] & -> & Hp & (j & x & [= <- <-] & Hx)); exists n.
  - intros (n & Hn & Hp). exists (i, n). eauto 10.
Qed.

Lemma vpns_to_delete_spec {E} s tree :
  ∃ l, vpns_to_delete (E:=E) s tree = Ok l ∧
    ∀ n, n ∈ tree → (depth n, valid_policy n) ∉ l → any_parent tree n →
      valid_policy n = OID_ANY_POLICY ∨ valid_policy n ∈ s.
Proof.
  unfold vpns_to_delete. destruct (vpns_indices_spec (E:=E) tree) as (l & -> & Hl).
  cbn [mbind result_bind]. set (node i := default {| depth := 0; valid_policy := []; expected_policy_set := []; qualifiers := [] |}
    (tree !! i)).
  assert (∀ i, i ∈ l → index (E:=E) tree i = Ok (node i)) as Hnode.
  { intros i (n & Hn & _)%Hl. apply index_Ok. unfold node. by rewrite Hn. }
  rewrite (try_filter_pure _ (λ i, bool_decide
    (valid_policy (node i) ≠ OID_ANY_POLICY ∧ valid_policy (node i) ∉ s)))
    by (intros i Hi; by rewrite Hnode).
  cbn [mbind result_bind].
  rewrite (try_map_pure _ (λ i, (depth (node i), valid_policy (node i))))
    by (intros i [_ Hi]%list_elem_of_filter; by rewrite Hnode).
  eexists. split; [done|]. intros n [i Hi]%list_elem_of_lookup Hout Hany.
  destruct (decide (valid_policy n = OID_ANY_POLICY)) as [|Hna]; [by left|right].
  destruct (decide (valid_policy n ∈ s)) as [|Hs]; [done|]. destruct Hout.
  assert (node i = n) as Hni by (unfold node; by rewrite Hi).
  apply list_elem_of_fmap. exists i. rewrite Hni. split; [done|].
  apply list_elem_of_filter. rewrite Hni. split; [by apply bool_decide_eq_true|]. apply Hl. eauto.
Qed.

(** The cascade only removes nodes. *)
Lemma cascade_step_spec {E} d tree :
  1 ≤ d → ∃ t, cascade_step (E:=E) d tree = Ok t ∧ ∀ n, n ∈ t → n ∈ tree.
Proof.
  intros Hd. unfold cascade_step. rewrite usize_sub_Ok by done. eexists. split; [done|].
  intros n Hn. by apply list_elem_of_filter in Hn as [_ ?].
Qed.

Lemma cascade_spec {E} L tree : ∃ t, cascade (E:=E) L tree = Ok t ∧ ∀ n, n ∈ t → n ∈ tree.
Proof.
  unfold cascade. assert (Forall (λ d, 1 ≤ d) (seq 2 (L - 1))) as Hds.
  { apply Forall_forall. intros d Hd%elem_of_seq. lia. }
  revert tree. induction Hds as [|d ds Hd Hds IH]; intros tree; cbn [try_fold]; [by eexists|].
  destruct (cascade_step_spec (E:=E) d tree Hd) as (kept & -> & Hkept). cbn [mbind result_bind].
  destruct (IH kept) as (t & -> & Ht). exists t. split; [done|]. auto.
Qed.

Lemma delete_out_of_set_spec {E} s L tree :
  ∃ t, delete_out_of_set (E:=E) s L tree = Ok t ∧ ∀ n, n ∈ t →
    n ∈ tree ∧ (any_parent tree n → valid_policy n = OID_ANY_POLICY ∨ valid_policy n ∈ s).
Proof.
  unfold delete_out_of_set. destruct (vpns_to_delete_spec (E:=E) s tree) as (l & -> & Hl).
  cbn [mbind result_bind]. destruct l as [|v vs].
  - exists tree. split; [done|]. intros n Hn. split; [done|]. apply Hl; [done|].
    apply not_elem_of_nil.
  - destruct (cascade_spec (E:=E) L
      (filter (λ nd, (depth nd, valid_policy nd) ∉ v :: vs) tree)) as (t & -> & Ht).
    exists t. split; [done|]. intros n Hn%Ht. apply list_elem_of_filter in Hn as [Hout Hn]. auto.
Qed.

Lemma no_panic_intersect_user_policy_set {E} s d t :
  no_panic (intersect_user_policy_set (E:=E) s d t).
Proof.
  unfold intersect_user_policy_set. destruct s as [|p s], t as [t|]; [done..| |done].
  destruct (delete_out_of_set_spec (E:=E) (p :: s) d t) as (t' & -> & _).
  cbn [mbind result_bind]. auto with pkix.
Qed.
#[export] Hint Resolve no_panic_policy_step_d no_panic_policy_step_mappings
  no_panic_intersect_user_policy_set : pkix.

(** ** Well-formed trees *)

(** After processing depth [D], no node is deeper and each node below the root
    leads to depth [D]. *)
Record tree_wf (D : nat) (tree : list PolicyNode) : Prop := {
  wf_depth n : n ∈ tree → depth n ≤ D;
  wf_reaches n : n ∈ tree → 1 ≤ depth n → reaches tree D n }.

(** A tree that is not NULL at [D] has a node at depth [D]. *)
Definition tree_live (D : nat) (tree : list PolicyNode) : Prop :=
  ∃ n, n ∈ tree ∧ depth n = D.

Lemma reaches_end tree D n : reaches tree D n → tree_live D tree.
Proof. induction 1; [by eexists|done]. Qed.

Lemma reaches_prune_loop k tree n :
  reaches tree (S k) n → 1 ≤ depth n → reaches (prune_loop k tree) (S k) n.
Proof.
  induction 1 as [n Hin Hd|n m Hin Hd Hp Hm IH]; intros Hn.
  - apply reaches_at; [|done]. apply elem_of_prune_loop. split; [done|]. lia.
  - eapply reaches_child; [|done..|apply IH; lia].
    apply elem_of_prune_loop. split; [done|]. right; right.
    by eapply reaches_child.
Qed.

Lemma prune_wf D tree :
  1 ≤ D → (∀ n, n ∈ tree → depth n ≤ D) → tree_wf D (prune D tree).
Proof.
  intros HD Hle. destruct D as [|k]; [lia|]. unfold prune. cbn. rewrite Nat.sub_0_r.
  split; intros n Hn; apply elem_of_prune_loop in Hn as Hn'; destruct Hn' as [Hin H].
  - auto.
  - intros Hd. specialize (Hle n Hin). destruct H as [H|[H|H]]; [lia| |].
    + apply reaches_at; [done|lia].
    + by apply reaches_prune_loop.
Qed.

Lemma elem_of_prune_deepest D tree n : D ≤ depth n → n ∈ prune D tree ↔ n ∈ tree.
Proof.
  intros Hn. unfold prune. rewrite elem_of_prune_loop.
  destruct (decide (D = 0)); split; try tauto; intros H; (split; [done|]); lia.
Qed.

Lemma wf_null D tree : 1 ≤ D → tree_wf D tree → tree_is_null tree = false ↔ tree_live D tree.
Proof.
  intros HD [_ Hr]. rewrite tree_is_null_false. split.
  - intros (n & Hn & Hd). by eapply reaches_end, Hr.
  - intros (n & Hn & Hd). exists n. split; [done|lia].
Qed.

(** What [prune_or_null] returns at depth [D]: NULL exactly when no node of
    depth [D] is left, a well-formed tree with the same deepest nodes
    otherwise. *)
Lemma prune_or_null_spec {E} D tree r :
  1 ≤ D → (∀ n, n ∈ tree → depth n ≤ D) → prune_or_null (E:=E) tree D = Ok r →
  match r with
  | None => ¬ tree_live D tree
  | Some t => tree_wf D t ∧ tree_live D t ∧ ∀ n, depth n = D → n ∈ t ↔ n ∈ tree
  end.
Proof.
  intros HD Hle. rewrite prune_or_null_Ok. intros [= <-].
  pose proof (prune_wf D tree HD Hle) as Hwf.
  pose proof (wf_null D _ HD Hwf) as Hnull.
  destruct (tree_is_null (prune D tree)) eqn:Hn.
  - intros (n & Hin & Hd). assert (tree_live D (prune D tree)) as Hl.
    { exists n. split; [|done]. apply elem_of_prune_deepest; [lia|done]. }
    apply Hnull in Hl. done.
  - split_and!; [done|by apply Hnull|]. intros n Hd. apply elem_of_prune_deepest. lia.
Qed.

(** ** 6.1.3(d) *)

(** The policies valid at depth [D] by RFC 5280 6.1.3(d)(1) and (2). *)
Definition policy_valid (tree : list PolicyNode) (D : nat) (cp : CertificatePolicies)
    (may_expand : bool) (p : ObjectIdentifier) : Prop :=
  let asserted q := ∃ pi, pi ∈ cp_infos cp ∧ policy_identifier pi = q in
  let expected := ∃ m, m ∈ tree ∧ depth m = D - 1 ∧ p ∈ expected_policy_set m in
  let under_any := ∃ m, m ∈ tree ∧ depth m = D - 1 ∧ valid_policy m = OID_ANY_POLICY in
  (p ≠ OID_ANY_POLICY ∧ asserted p ∧ (expected ∨ under_any)) ∨
  (asserted OID_ANY_POLICY ∧ may_expand = true ∧ expected).

Lemma elem_of_info_nodes tree D pi n :
  n ∈ info_nodes tree D pi →
  depth n = D ∧ valid_policy n = policy_identifier pi ∧ expected_policy_set n = [policy_identifier pi].
Proof.
  unfold info_nodes. destruct (filter _ tree) as [|m ms].
  - destruct (existsb _ _); [|by intros ?%not_elem_of_nil].
    by intros ->%list_elem_of_singleton.
  - by intros (? & -> & _)%list_elem_of_fmap.
Qed.

Lemma info_nodes_nonempty tree D pi :
  (∃ n, n ∈ info_nodes tree D pi) ↔
  ∃ m, m ∈ tree ∧ depth m = D - 1 ∧
       (policy_identifier pi ∈ expected_policy_set m ∨ valid_policy m = OID_ANY_POLICY).
Proof.
  unfold info_nodes.
  set (f := λ parent, depth parent = D - 1 ∧ policy_identifier pi ∈ expected_policy_set parent).
  destruct (filter _ tree) as [|m ms] eqn:Hf.
  - assert (∀ m, m ∈ tree → ¬ f m) as Hno.
    { intros m Hm Hfm. apply (not_elem_of_nil m). rewrite <-Hf.
      by apply list_elem_of_filter. }
    unfold f in Hno. destruct (existsb _ tree) eqn:He.
    + apply existsb_elem in He as (m & Hm & [Hd Hv]%andb_true_iff).
      apply bool_decide_eq_true in Hd, Hv. split; [|intros _; eexists; by left].
      intros _. exists m. auto.
    + split; [by intros [? ?%not_elem_of_nil]|]. intros (m & Hm & Hd & [Hp|Hp]).
      * destruct (Hno m Hm). done.
      * apply (proj1 (existsb_elem_false _ _) He) in Hm.
        by rewrite !bool_decide_eq_true_2 in Hm.
  - split; [|intros _; eexists; by left]. intros _. exists m.
    pose proof (list_elem_of_here m ms) as Hm. rewrite <-Hf in Hm.
    apply list_elem_of_filter in Hm as [[? ?] ?]. auto.
Qed.

Lemma elem_of_any_nodes tree D cp new n :
  n ∈ any_nodes tree D cp new ↔
  ∃ m ep, m ∈ tree ∧ depth m = D - 1 ∧ ep ∈ expected_policy_set m ∧
          (ep ∉ valid_policy <$> new) ∧
          n = {| depth := D; valid_policy := ep; expected_policy_set := [ep];
                 qualifiers := cert_any_policy_qualifiers cp |}.
Proof.
  unfold any_nodes. rewrite list_elem_of_join. split.
  - intros (l & Hn & (m & -> & Hm)%list_elem_of_fmap).
    apply list_elem_of_fmap in Hn as (ep & -> & Hep).
    apply list_elem_of_filter in Hm as [? ?], Hep as [? ?]. by exists m, ep.
  - intros (m & ep & Hm & Hd & Hep & Hnew & ->). eexists. split; cycle 1.
    + apply list_elem_of_fmap. exists m. split; [reflexivity|]. by apply list_elem_of_filter.
    + apply list_elem_of_fmap. exists ep. split; [done|]. by apply list_elem_of_filter.
Qed.

Section extend.
Variables (tree : list PolicyNode) (D : nat) (cp : CertificatePolicies) (may : bool).
Hypothesis HD : 1 ≤ D.
Hypothesis Htree : ∀ n, n ∈ tree → depth n ≤ D - 1.

Let new_nodes := mjoin (info_nodes tree D <$>
  filter (λ pi, bool_decide (policy_identifier pi = OID_ANY_POLICY) = false) (cp_infos cp)).

Lemma elem_of_new_nodes n :
  n ∈ new_nodes ↔ ∃ pi, pi ∈ cp_infos cp ∧ policy_identifier pi ≠ OID_ANY_POLICY ∧
                        n ∈ info_nodes tree D pi.
Proof.
  unfold new_nodes. rewrite list_elem_of_join. split.
  - intros (l & Hn & (pi & -> & Hpi)%list_elem_of_fmap).
    apply list_elem_of_filter in Hpi as [Hany%bool_decide_eq_false ?]. eauto.
  - intros (pi & Hpi & Hany & Hn). eexists. split; [done|].
    apply list_elem_of_fmap_2, list_elem_of_filter. by rewrite bool_decide_eq_false.
Qed.

Lemma extend_depth n : n ∈ extended_tree tree D cp may → depth n ≤ D.
Proof.
  unfold extended_tree. fold new_nodes. rewrite !elem_of_app.
  intros [Hn|[Hn|Hn]].
  - specialize (Htree n Hn). lia.
  - apply elem_of_new_nodes in Hn as (pi & _ & _ & Hn).
    apply elem_of_info_nodes in Hn. lia.
  - destruct (_ && _); [|by apply not_elem_of_nil in Hn].
    apply elem_of_any_nodes in Hn as (m & ep & _ & _ & _ & _ & ->). cbn. lia.
Qed.

Lemma elem_of_new_policies p :
  p ∈ valid_policy <$> new_nodes ↔
  p ≠ OID_ANY_POLICY ∧ (∃ pi, pi ∈ cp_infos cp ∧ policy_identifier pi = p) ∧
  ∃ m, m ∈ tree ∧ depth m = D - 1 ∧ (p ∈ expected_policy_set m ∨ valid_policy m = OID_ANY_POLICY).
Proof.
  rewrite list_elem_of_fmap. setoid_rewrite elem_of_new_nodes. split.
  - intros (n & -> & pi & Hpi & Hany & Hn).
    destruct (elem_of_info_nodes _ _ _ _ Hn) as (_ & -> & _).
    split_and!; [done|by exists pi|]. apply info_nodes_nonempty. by exists n.
  - intros (Hany & (pi & Hpi & <-) & Hm).
    apply info_nodes_nonempty in Hm as [n Hn]. exists n.
    destruct (elem_of_info_nodes _ _ _ _ Hn) as (_ & -> & _). eauto.
Qed.

Lemma extend_policies p :
  p ∈ policies_at D (extended_tree tree D cp may) ↔ policy_valid tree D cp may p.
Proof.
  rewrite elem_of_policies_at. unfold extended_tree, policy_valid. fold new_nodes.
  set (has_any := existsb _ _).
  assert (has_any = true ↔
    ∃ pi, pi ∈ cp_infos cp ∧ policy_identifier pi = OID_ANY_POLICY) as Hany.
  { unfold has_any. rewrite existsb_elem. by setoid_rewrite bool_decide_eq_true. }
  pose proof (elem_of_new_policies p) as Hnew. split.
  - intros (n & Hn & Hd & Hp). rewrite !elem_of_app in Hn. destruct Hn as [Hn|[Hn|Hn]].
    + specialize (Htree n Hn). lia.
    + assert (p ∈ valid_policy <$> new_nodes) as H by (rewrite <-Hp; by apply list_elem_of_fmap_2).
      apply Hnew in H. left. naive_solver.
    + destruct (has_any && may) eqn:Hb; [|by apply not_elem_of_nil in Hn].
      apply andb_true_iff in Hb as [Hh Hmay].
      apply elem_of_any_nodes in Hn as (m & ep & Hm & Hdm & Hep & _ & ->).
      right. naive_solver.
  - intros H. destruct (decide (p ∈ valid_policy <$> new_nodes)) as [Hin|Hout].
    { apply list_elem_of_fmap in Hin as (n & -> & Hn). exists n.
      rewrite !elem_of_app. split_and!; [by right; left| |done].
      apply elem_of_new_nodes in Hn as (pi & _ & _ & Hn).
      by apply elem_of_info_nodes in Hn as [? _]. }
    destruct H as [H|(Hh & Hmay & m & Hm & Hd & Hp)].
    { destruct Hout. apply Hnew. naive_solver. }
    eexists. rewrite !elem_of_app. split; [right; right|].
    { rewrite (proj2 Hany Hh), Hmay. cbn [andb]. apply elem_of_any_nodes.
      by exists m, p. }
    done.
Qed.

Lemma extend_live :
  tree_live D (extended_tree tree D cp may) ↔ ∃ p, policy_valid tree D cp may p.
Proof.
  setoid_rewrite <-extend_policies. setoid_rewrite elem_of_policies_at.
  unfold tree_live. naive_solver.
Qed.
End extend.

Lemma policy_step_d_spec {E} tree cp D may r :
  1 ≤ D → (∀ n, n ∈ tree → depth n ≤ D - 1) →
  policy_step_d (E:=E) (Some tree) (Some cp) D may = Ok r →
  match r with
  | None => ∀ p, ¬ policy_valid tree D cp may p
  | Some t => tree_wf D t ∧ tree_live D t ∧
      ∀ p, p ∈ policies_at D t ↔ policy_valid tree D cp may p
  end.
Proof.
  intros HD Htree Hr.
  cbn in Hr. rewrite extend_policy_tree_Ok in Hr by done. cbn [mbind result_bind] in Hr.
  assert (∀ n, n ∈ extended_tree tree D cp may → depth n ≤ D) as Hle.
  { intros n. by apply extend_depth. }
  pose proof (prune_or_null_spec D _ r HD Hle Hr) as Hp.
  destruct r as [t|].
  - destruct Hp as (Hwf & Hl & Hn). split_and!; [done..|]. intros p.
    rewrite <-(extend_policies tree D cp may HD Htree), !elem_of_policies_at.
    split; intros (n & Hin & Hd & Hv); exists n; (split; [by apply Hn|done]).
  - intros p Hv. apply Hp. apply extend_live; eauto.
Qed.

(** ** 6.1.4(b) *)
Lemma map_node_depth D i s n : depth (map_node D i s n) = depth n.
Proof. unfold map_node. by case_decide. Qed.
Lemma map_node_valid_policy D i s n : valid_policy (map_node D i s n) = valid_policy n.
Proof. unfold map_node. by case_decide. Qed.

(** Mapping touches only the nodes of depth [D]: they keep their depth and
    policy, new ones have depth [D]. *)
Lemma apply_mapping_above D q tree m n :
  depth n ≠ D → n ∈ apply_mapping D q tree m ↔ n ∈ tree.
Proof.
  intros Hn.
  assert (n ∈ map_node D (issuer_domain_policy m) (subject_domain_policy m) <$> tree ↔ n ∈ tree)
    as Hmap.
  { rewrite list_elem_of_fmap. split.
    - intros (n' & -> & Hin). rewrite map_node_depth in Hn. unfold map_node.
      by rewrite decide_False by tauto.
    - intros Hin. exists n. split; [|done]. unfold map_node. by rewrite decide_False by tauto. }
  unfold apply_mapping. destruct (existsb _ tree); [done|].
  destruct (existsb _ _); [|done]. rewrite elem_of_app, list_elem_of_singleton.
  split; [|tauto]. intros [Hi| ->]; [tauto|]. by cbn in Hn.
Qed.

Lemma apply_mapping_depth D q tree m n :
  n ∈ apply_mapping D q tree m → depth n = D ∨ n ∈ tree.
Proof.
  intros Hn. destruct (decide (depth n = D)); [by left|right].
  by eapply apply_mapping_above.
Qed.

(** Every policy of depth [D] stays; mapping can only add the issuer domain
    policy of a mapping. *)
Lemma apply_mapping_policies D q tree m p :
  p ∈ policies_at D tree → p ∈ policies_at D (apply_mapping D q tree m).
Proof.
  rewrite !elem_of_policies_at. intros (n & Hn & Hd & Hp).
  assert (map_node D (issuer_domain_policy m) (subject_domain_policy m) n
            ∈ apply_mapping D q tree m) as Hin.
  { unfold apply_mapping. destruct (existsb _ tree);
      [|destruct (existsb _ _); rewrite ?elem_of_app; [left|]]; by apply list_elem_of_fmap_2. }
  eexists. split; [exact Hin|]. by rewrite map_node_depth, map_node_valid_policy.
Qed.

Lemma apply_mapping_wf D q tree m :
  1 ≤ D → tree_wf D tree → tree_wf D (apply_mapping D q tree m).
Proof.
  intros HD [Hle Hr]. split.
  - intros n [->|Hn]%apply_mapping_depth; [done|auto].
  - intros n Hn Hd. destruct (decide (depth n = D)); [by apply reaches_at|].
    apply apply_mapping_above in Hn; [|done].
    specialize (Hr n Hn Hd). clear Hn Hd.
    induction Hr as [n Hin Hdn|n k Hin Hdn Hp Hk IH]; [done|].
    apply (apply_mapping_above D q tree m) in Hin; [|done].
    destruct (decide (depth k = D)) as [Hdk|Hdk].
    + apply reaches_elem in Hk.
      assert (valid_policy k ∈ policies_at D tree) as Hpk
        by (apply elem_of_policies_at; by exists k).
      apply (apply_mapping_policies _ q _ m) in Hpk.
      apply elem_of_policies_at in Hpk as (k' & Hk' & Hdk' & Hv').
      apply (reaches_child _ _ n k'); [done|lia|by rewrite Hv'|].
      by apply reaches_at.
    + by apply (reaches_child _ _ n k); auto.
Qed.

Lemma apply_mapping_live D q tree m :
  tree_live D tree → tree_live D (apply_mapping D q tree m).
Proof.
  intros (n & Hn & Hd). assert (valid_policy n ∈ policies_at D tree) as Hp
    by (apply elem_of_policies_at; by exists n).
  apply (apply_mapping_policies _ q _ m) in Hp.
  apply elem_of_policies_at in Hp as (k & ? & ? & _). by exists k.
Qed.

Lemma apply_mappings_spec {E} tree pm cp mapping D t :
  1 ≤ D → tree_wf D tree → tree_live D tree →
  apply_mappings (E:=E) tree pm cp mapping D = Ok t →
  tree_wf D t ∧
  ((0 < mapping)%N → tree_live D t) ∧
  (mapping = 0%N → ∀ p, p ∈ policies_at D t ↔
     p ∈ policies_at D tree ∧ p ∉ issuer_domain_policy <$> pm_mappings pm).
Proof.
  intros HD Hwf Hl. unfold apply_mappings. case_decide as Hm.
  - intros [= <-]. split_and!; [| |lia].
    + clear Hl. revert tree Hwf. induction (pm_mappings pm) as [|m ms IH];
        intros tree Hwf; cbn; [done|]. apply IH. by apply apply_mapping_wf.
    + intros _. clear Hwf. revert tree Hl. induction (pm_mappings pm) as [|m ms IH];
        intros tree Hl; cbn; [done|]. apply IH. by apply apply_mapping_live.
  - rewrite post_op_prune_Ok. intros [= <-].
    set (kept := filter _ tree).
    assert (∀ n, n ∈ kept ↔
      n ∈ tree ∧ (depth n = D → valid_policy n ∉ issuer_domain_policy <$> pm_mappings pm)) as Hk.
    { intros n. unfold kept. rewrite list_elem_of_filter.
      destruct (decide (depth n = D)); naive_solver. }
    split_and!; [|lia|].
    + apply prune_wf; [done|]. intros n [Hn _]%Hk. by apply Hwf.
    + intros _ p. rewrite !elem_of_policies_at. split.
      * intros (n & Hn & Hd & Hp). apply elem_of_prune_deepest, Hk in Hn; [|lia].
        naive_solver.
      * intros ((n & Hn & Hd & Hp) & Hout). exists n. split_and!; [|done..].
        apply elem_of_prune_deepest; [lia|]. apply Hk. naive_solver.
Qed.

(** NULL test without pruning. *)
Lemma prune_or_null_zero {E} D tree r :
  1 ≤ D → tree_wf D tree → prune_or_null (E:=E) tree 0 = Ok r →
  match r with None => ¬ tree_live D tree | Some t => t = tree ∧ tree_live D tree end.
Proof.
  intros HD Hwf. rewrite prune_or_null_Ok. intros [= <-].
  unfold prune. cbn [Nat.sub prune_loop]. pose proof (wf_null D _ HD Hwf) as Hn.
  destruct (tree_is_null tree).
  - by intros ?%Hn.
  - split; [done|by apply Hn].
Qed.

Lemma policy_step_mappings_wf tree pm cp mapping D i t :
  1 ≤ D → tree_wf D tree → tree_live D tree →
  policy_step_mappings (Some tree) pm cp mapping D i = Ok (Some t) →
  tree_wf D t ∧ tree_live D t.
Proof.
  intros HD Hwf Hl Hs. unfold policy_step_mappings in Hs.
  apply bind_Ok in Hs as (o & Ho & Hs). destruct pm as [pm|].
  - apply bind_Ok in Ho as ([] & _ & Ho). apply fmap_Ok in Ho as (t' & Ht' & <-).
    apply apply_mappings_spec in Ht' as (Hwf' & _); [|done..].
    apply (prune_or_null_zero D) in Hs as [-> ?]; done.
  - injection Ho as <-. apply (prune_or_null_zero D) in Hs as [-> ?]; done.
Qed.

(** The node [n] under all the mappings in order. *)
Definition map_node_all (D : nat) (ms : list PolicyMapping) (n : PolicyNode) : PolicyNode :=
  foldl (λ n m, map_node D (issuer_domain_policy m) (subject_domain_policy m) n) n ms.

(** The subject domain policies [p] is mapped to. *)
Definition targets (p : ObjectIdentifier) (ms : list PolicyMapping) : list ObjectIdentifier :=
  subject_domain_policy <$> filter (λ m, issuer_domain_policy m = p) ms.

Lemma map_node_all_elem D q ms tree n :
  n ∈ tree → map_node_all D ms n ∈ foldl (apply_mapping D q) tree ms.
Proof.
  revert tree n. induction ms as [|m ms IH]; intros tree n Hn; cbn; [done|].
  apply IH. unfold apply_mapping.
  destruct (existsb _ tree); [|destruct (existsb _ _); rewrite ?elem_of_app; [left|]];
    by apply list_elem_of_fmap_2.
Qed.

Lemma map_node_all_expected D ms n q :
  depth n = D → valid_policy n ∉ targets (valid_policy n) ms →
  q ∈ expected_policy_set (map_node_all D ms n) ↔
  (q ∈ expected_policy_set n ∧ (targets (valid_policy n) ms = [] ∨ q ≠ valid_policy n)) ∨
  q ∈ targets (valid_policy n) ms.
Proof.
  revert n. induction ms as [|m ms IH]; intros n Hd Ht.
  { unfold targets. cbn. rewrite elem_of_nil. tauto. }
  change (map_node_all D (m :: ms) n) with
    (map_node_all D ms (map_node D (issuer_domain_policy m) (subject_domain_policy m) n)).
  assert (valid_policy n ∉ targets (valid_policy n) ms) as Ht'.
  { unfold targets in *. rewrite filter_cons in Ht. case_decide; [|done].
    rewrite fmap_cons, not_elem_of_cons in Ht. tauto. }
  rewrite IH by by rewrite ?map_node_depth, ?map_node_valid_policy.
  rewrite map_node_valid_policy. unfold targets in *. rewrite filter_cons in Ht |- *.
  unfold map_node. destruct (decide (issuer_domain_policy m = valid_policy n)) as [Hi|Hi].
  - rewrite decide_True by done. cbn [expected_policy_set valid_policy].
    rewrite fmap_cons, not_elem_of_cons in Ht. rewrite fmap_cons, elem_of_cons, Hi.
    set (kept := filter _ (expected_policy_set n)).
    assert (q ∈ kept ↔ q ≠ valid_policy n ∧ q ∈ expected_policy_set n) as Hk
      by (unfold kept; by rewrite list_elem_of_filter).
    assert (q ∈ (if decide (subject_domain_policy m ∈ kept) then kept
                 else kept ++ [subject_domain_policy m]) ↔
            q ∈ kept ∨ q = subject_domain_policy m) as ->.
    { case_decide; [naive_solver|]. by rewrite elem_of_app, list_elem_of_singleton. }
    rewrite Hk. destruct (decide (q = subject_domain_policy m)) as [->|].
    + destruct Ht as [Hne _]. split; [|intros _; left; split; [by right|right; congruence]].
      intros _. right. by left.
    + naive_solver.
  - rewrite decide_False by naive_solver. done.
Qed.

(** ** 6.1.5(g)(iii) *)
Lemma materialise_leaf_any_elem s L tree n :
  n ∈ materialise_leaf_any s L tree →
  (n ∈ tree ∨ (depth n = L ∧ valid_policy n ∈ s)) ∧
  (depth n = L → valid_policy n ≠ OID_ANY_POLICY ∨ OID_ANY_POLICY ∈ s) ∧
  (n ∈ tree → depth n = L → valid_policy n ≠ OID_ANY_POLICY).
Proof.
  unfold materialise_leaf_any. destruct (list_find _ tree) as [[k la]|] eqn:Hf.
  - intros [Hout Hn]%list_elem_of_filter. rewrite elem_of_app in Hn.
    assert (n ∈ tree ∨ (depth n = L ∧ valid_policy n ∈ s)) as H.
    { destruct Hn as [Hn|Hn]; [by left|right].
      apply list_elem_of_fmap in Hn as (p & -> & Hp). by apply list_elem_of_filter in Hp as [_ ?]. }
    naive_solver.
  - apply list_find_None in Hf. rewrite Forall_forall in Hf. naive_solver.
Qed.

Lemma materialise_depth s L tree n :
  (∀ n, n ∈ tree → depth n ≤ L) → n ∈ materialise_leaf_any s L tree → depth n ≤ L.
Proof.
  intros Hle Hn. apply materialise_leaf_any_elem in Hn as [[Hn|[Hn _]] _]; [auto|lia].
Qed.

Lemma intersect_user_policy_set_spec {E} s L tree r :
  1 ≤ L → (∀ n, n ∈ tree → depth n ≤ L) → s ≠ [] →
  intersect_user_policy_set (E:=E) s L (Some tree) = Ok r →
  match r with
  | None => True
  | Some t => tree_wf L t ∧ tree_live L t ∧ ∀ n, n ∈ t →
      (n ∈ tree ∨ (depth n = L ∧ valid_policy n ∈ s)) ∧
      (any_parent tree n → valid_policy n = OID_ANY_POLICY ∨ valid_policy n ∈ s)
  end.
Proof.
  intros HL Hle Hs Hr. unfold intersect_user_policy_set in Hr.
  destruct s as [|p s]; [done|]. set (S := p :: s) in *.
  destruct (delete_out_of_set_spec (E:=E) S L tree) as (t0 & Ht0 & Hdel).
  rewrite Ht0 in Hr. cbn [mbind result_bind] in Hr.
  set (tree' := materialise_leaf_any S L t0) in *.
  assert (∀ n, n ∈ tree' → depth n ≤ L) as Hle'.
  { intros n. apply materialise_depth. intros k [Hk _]%Hdel. auto. }
  pose proof (prune_or_null_spec L tree' r HL Hle' Hr) as Hp.
  destruct r as [t|]; [|done]. destruct Hp as (Hwf & Hl & _). split_and!; [done..|].
  assert (∀ n, n ∈ t → n ∈ tree') as Hsub.
  { intros n Hn. rewrite prune_or_null_Ok in Hr. destruct (tree_is_null _); [done|].
    injection Hr as <-. unfold prune in Hn. by apply elem_of_prune_loop in Hn as [? _]. }
  intros n Hn%Hsub. apply materialise_leaf_any_elem in Hn as [[Hn|[Hd Hv]] _].
  - apply Hdel in Hn as [? ?]. auto.
  - auto.
Qed.

(** ** Properties *)

(** Pruning at depth [D] never panics; it keeps the root and the nodes of
    depth [D] or more, and of the others exactly those from which a chain of
    children leads to depth [D], in their order; the flag it returns is true
    exactly when only the root is left. *)
Theorem policy_tree_post_op_prune_correct tree D (HD : 1 ≤ D) :
  ∃ t b, policy_tree_post_op_prune (E:=Error) tree D = Ok (t, b) ∧
    t `sublist_of` tree ∧
    (∀ n, n ∈ t ↔ n ∈ tree ∧ (depth n = 0 ∨ D ≤ depth n ∨ reaches tree D n)) ∧
    (b = true ↔ ∀ n, n ∈ t → depth n = 0).
Proof.
  exists (prune D tree), (tree_is_null (prune D tree)).
  split_and!; [apply post_op_prune_Ok|apply prune_loop_sublist| |].
  - intros n. unfold prune. rewrite elem_of_prune_loop.
    replace (S (D - 1)) with D by lia. replace (D - 1 < depth n) with (D - 1 < depth n) by done.
    assert (D - 1 < depth n ↔ D ≤ depth n) as -> by lia. done.
  - pose proof (tree_is_null_false (prune D tree)) as Hn. split.
    + intros Hb n Hin. destruct (decide (depth n = 0)) as [|Hd]; [done|].
      assert (tree_is_null (prune D tree) = false) by (apply Hn; exists n; split; [done|lia]).
      congruence.
    + intros Ha. destruct (tree_is_null _); [done|].
      destruct (proj1 Hn eq_refl) as (n & Hin & Hd). specialize (Ha n Hin). lia.
Qed.

Lemma policy_tree_post_op_prune_correct_witness :
  let node d p e := {| depth := d; valid_policy := p; expected_policy_set := e; qualifiers := [] |} in
  ∃ t b, policy_tree_post_op_prune (E:=Error)
    (init_policy_tree ++ [node 1 [7%N] [[7%N]]; node 1 [8%N] [[8%N]]; node 2 [7%N] [[7%N]]]) 2
    = Ok (t, b) ∧ b = false ∧ node 1 [8%N] [[8%N]] ∉ t.
Proof.
  intros node.
  destruct (policy_tree_post_op_prune_correct
    (init_policy_tree ++ [node 1 [7%N] [[7%N]]; node 1 [8%N] [[8%N]]; node 2 [7%N] [[7%N]]]) 2
    ltac:(lia)) as (t & b & Ht & _ & _ & Hb).
  vm_compute in Ht. injection Ht as <- <-. do 2 eexists. split; [reflexivity|].
  split; [reflexivity|]. by_computation.
Defined.

(** C23: after the certificate policies of the certificate at depth [D] the
    tree is NULL when no policy is valid there by RFC 5280 6.1.3(d)(1)-(2),
    and otherwise has at depth [D] exactly the valid policies, no deeper node,
    and no node below the root that leads nowhere. *)
Theorem policy_step_d_correct tree cp D may r
    (HD : 1 ≤ D) (Htree : ∀ n, n ∈ tree → depth n ≤ D - 1)
    (Hr : policy_step_d (E:=Error) (Some tree) (Some cp) D may = Ok r) :
  match r with
  | None => ∀ p, ¬ policy_valid tree D cp may p
  | Some t => tree_wf D t ∧ tree_live D t ∧
      ∀ p, p ∈ policies_at D t ↔ policy_valid tree D cp may p
  end.
Proof. by eapply policy_step_d_spec. Qed.

Lemma policy_step_d_correct_witness :
  policy_valid init_policy_tree 1
    {| cp_infos := [{| policy_identifier := [7%N]; policy_qualifiers := None |}] |} false [7%N].
Proof.
  refine (proj1 (proj2 (proj2 (policy_step_d_correct init_policy_tree
    {| cp_infos := [{| policy_identifier := [7%N]; policy_qualifiers := None |}] |} 1 false
    (Some (init_policy_tree ++ [{| depth := 1; valid_policy := [7%N];
       expected_policy_set := [[7%N]]; qualifiers := [] |}])) _ _ eq_refl)) [7%N]) _).
  - lia.
  - intros n ->%list_elem_of_singleton. done.
  - by_computation.
Defined.

(** Applying policy mappings keeps the tree well formed; with mapping
    inhibited it removes exactly the mapped policies of the certificate's
    depth; otherwise it removes nothing there and gives each node the subject
    policies its policy is mapped to as expected set (for mappings that do not
    send the policy to itself). *)
Theorem apply_mappings_correct tree pm cp mapping D t
    (HD : 1 ≤ D) (Hwf : tree_wf D tree) (Hl : tree_live D tree)
    (Ht : apply_mappings (E:=Error) tree pm cp mapping D = Ok t) :
  tree_wf D t ∧
  (mapping = 0%N → ∀ p, p ∈ policies_at D t ↔
     p ∈ policies_at D tree ∧ p ∉ issuer_domain_policy <$> pm_mappings pm) ∧
  ((0 < mapping)%N → ∀ n, n ∈ tree → depth n = D →
     let tg := targets (valid_policy n) (pm_mappings pm) in
     valid_policy n ∉ tg → expected_policy_set n = [valid_policy n] →
     ∃ n', n' ∈ t ∧ depth n' = D ∧ valid_policy n' = valid_policy n ∧
       ∀ q, q ∈ expected_policy_set n' ↔
         if decide (tg = []) then q = valid_policy n else q ∈ tg).
Proof.
  destruct (apply_mappings_spec tree pm cp mapping D t HD Hwf Hl Ht) as (Hwf' & _ & Hdel).
  split_and!; [done..|]. intros Hm n Hn Hd tg Htg He. unfold apply_mappings in Ht.
  rewrite decide_True in Ht by done. injection Ht as <-.
  exists (map_node_all D (pm_mappings pm) n).
  assert (∀ ms k, depth (map_node_all D ms k) = depth k ∧
                  valid_policy (map_node_all D ms k) = valid_policy k) as Hk.
  { intros ms. induction ms as [|m ms IH]; intros k; [done|]. cbn.
    destruct (IH (map_node D (issuer_domain_policy m) (subject_domain_policy m) k)) as [H1 H2].
    unfold map_node_all in *. by rewrite H1, H2, map_node_depth, map_node_valid_policy. }
  destruct (Hk (pm_mappings pm) n) as [-> ->]. split_and!; [by apply map_node_all_elem|done..|].
  intros q. rewrite map_node_all_expected by done. fold tg. rewrite He, list_elem_of_singleton.
  case_decide as Htn; [rewrite Htn, elem_of_nil; naive_solver|naive_solver].
Qed.

Lemma apply_mappings_correct_witness :
  let root := {| depth := 1; valid_policy := [7%N]; expected_policy_set := [[7%N]]; qualifiers := [] |} in
  let pm := {| pm_mappings := [{| issuer_domain_policy := [7%N]; subject_domain_policy := [8%N] |}] |} in
  ∃ t, apply_mappings (E:=Error) (init_policy_tree ++ [root]) pm None 1 1 = Ok t ∧ tree_wf 1 t.
Proof.
  intros root pm. eexists. split; [reflexivity|].
  refine (proj1 (apply_mappings_correct (init_policy_tree ++ [root]) pm None 1 1 _ _ _ _ eq_refl)).
  - lia.
  - split.
    + intros n. cbn. rewrite !elem_of_cons, elem_of_nil. intros [->|[->|[]]]; cbn; lia.
    + intros n. cbn. rewrite !elem_of_cons, elem_of_nil. intros [->|[->|[]]]; cbn; [lia|].
      intros _. apply reaches_at; [by right; left|done].
  - exists root. split; [by right; left|done].
Defined.

(** After the intersection with a non-empty user-initial-policy-set, each
    node of the tree was there before or is one of the user's policies at the
    leaf, and each node under an anyPolicy node of the tree is anyPolicy or
    one of the user's policies; the tree is well formed and, unless NULL,
    reaches the leaf. *)
Theorem intersect_user_policy_set_correct s L tree t
    (HL : 1 ≤ L) (Htree : ∀ n, n ∈ tree → depth n ≤ L) (Hs : s ≠ [])
    (Ht : intersect_user_policy_set (E:=Error) s L (Some tree) = Ok (Some t)) :
  tree_wf L t ∧ tree_live L t ∧ ∀ n, n ∈ t →
    (n ∈ tree ∨ (depth n = L ∧ valid_policy n ∈ s)) ∧
    (any_parent tree n → valid_policy n = OID_ANY_POLICY ∨ valid_policy n ∈ s).
Proof. by apply (intersect_user_policy_set_spec (E:=Error) s L tree (Some t)). Qed.

Lemma intersect_user_policy_set_correct_witness :
  let node d p e := {| depth := d; valid_policy := p; expected_policy_set := e; qualifiers := [] |} in
  let tree := init_policy_tree ++ [node 1 [7%N] [[7%N]]; node 1 [8%N] [[8%N]]] in
  ∃ t, intersect_user_policy_set (E:=Error) [[8%N]] 1 (Some tree) = Ok (Some t) ∧ tree_live 1 t.
Proof.
  intros node tree. eexists. split; [reflexivity|].
  refine (proj1 (proj2 (intersect_user_policy_set_correct [[8%N]] 1 tree _ _ _ _ eq_refl))); [lia| |done].
  intros n. cbn. rewrite !elem_of_cons, elem_of_nil. intros [->|[->|[->|[]]]]; cbn; lia.
Defined.

(** Two mappings of one policy, the first to itself: the second removes the
    policy from the expected set, although both targets are in the mappings. *)
Theorem map_node_all_drops_identity_mapping :
  let n := {| depth := 1; valid_policy := [7%N]; expected_policy_set := [[7%N]]; qualifiers := [] |} in
  let ms := [{| issuer_domain_policy := [7%N]; subject_domain_policy := [7%N] |};
             {| issuer_domain_policy := [7%N]; subject_domain_policy := [8%N] |}] in
  expected_policy_set (map_node_all 1 ms n) = [[8%N]] ∧
  [7%N] ∈ targets [7%N] ms.
Proof. split; [reflexivity|]. by left. Qed.

(** An anyPolicy node whose only child was created by 6.1.3(d)(1)(ii) is
    pruned, since the policy of the child is not in its expected set. *)
Theorem any_policy_parent_is_pruned :
  let any1 := {| depth := 1; valid_policy := OID_ANY_POLICY;
                 expected_policy_set := [OID_ANY_POLICY]; qualifiers := [] |} in
  let cp := {| cp_infos := [{| policy_identifier := [7%N]; policy_qualifiers := None |}] |} in
  ∃ t, policy_step_d (E:=Error) (Some (init_policy_tree ++ [any1])) (Some cp) 2 false = Ok (Some t) ∧
    [7%N] ∈ policies_at 2 t ∧ any1 ∉ t.
Proof.
  intros any1 cp. eexists. split; [reflexivity|].
  split; by_computation.
Qed.
