(* ===== verification/CertChecks.v ===== *)
(** * Checks of one certificate (pkix-path/src/lib.rs)

    The helpers of [validate_path] and [chain_walk] that read one certificate,
    each with the lemma that says exactly when it succeeds. *)
From S2P Require Import Prelude X509 PathTypes Names Verifier.

Definition usize_max : N := u64_max.

Section checks.
Context `{PathAsn1}.

(** ** Readers of extensions *)
Definition has_key_cert_sign (cert : Certificate) : result der_error (option bool) :=
  (λ opt : option KeyUsage, key_cert_sign <$> opt) <$> try_find_cert_ext cert OID_KEY_USAGE.

Definition has_crl_sign (cert : Certificate) : result der_error (option bool) :=
  (λ opt : option KeyUsage, crl_sign <$> opt) <$> try_find_cert_ext cert OID_KEY_USAGE.

Definition cert_subject_alt_names (cert : Certificate) (index : nat) :
    Result (option SubjectAltName) :=
  map_err (λ _, MalformedCertificate index) (try_find_cert_ext cert OID_SUBJECT_ALT_NAME).

Definition cert_name_constraints (cert : Certificate) (index : nat) :
    Result (option NameConstraints) :=
  nc ← map_err (λ _, MalformedCertificate index)
         (try_find_cert_ext cert OID_NAME_CONSTRAINTS);
  _ ← match nc with
      | Some nc =>
          let subtrees := default [] (permitted_subtrees nc) ++ default [] (excluded_subtrees nc) in
          try_for_each (λ _ st,
            fail_if (bool_decide (st_minimum st ≠ 0%N) || bool_decide (is_Some (st_maximum st)))
              (MalformedCertificate index)) subtrees
      | None => Ok tt
      end;
  mret nc.

Definition cert_is_ca (cert : Certificate) : result DerError bool :=
  match find_ext cert OID_BASIC_CONSTRAINTS with
  | None => Ok false
  | Some ext =>
      bc ← lift_der der_error_new (from_der (extn_value ext));
      mret (ca (bc : BasicConstraints))
  end.

Definition cert_has_san_identity (cert : Certificate) : bool :=
  if negb (name_is_empty (subject (tbs_certificate cert))) then false
  else existsb (λ ext, bool_decide (extn_id ext = OID_SUBJECT_ALT_NAME) && critical ext)
         (cert_extensions cert).

(** ** Guards *)
Definition check_critical_extensions (cert : Certificate) (index : nat) : Result unit :=
  try_for_each (λ _ ext,
    fail_if (critical ext && negb (bool_decide (extn_id ext ∈ HANDLED_CRITICAL_OIDS)))
      (UnhandledCriticalExtension index)) (cert_extensions cert).

Definition time_to_unix_secs (t : Time) : N := to_unix_secs t.

Definition check_validity (cert : Certificate) (now_unix : N) (index : nat) : Result unit :=
  let nb := time_to_unix_secs (not_before (tbs_certificate cert)) in
  let na := time_to_unix_secs (not_after (tbs_certificate cert)) in
  if bool_decide (nb ≤ now_unix)%N && bool_decide (now_unix ≤ na)%N then Ok tt
  else Err (ValidityPeriod index).

Definition enforce_signature_alg_allowlist (cert : Certificate) (policy : ValidationPolicy)
    (index : nat) : Result unit :=
  match allowed_signature_algs policy with
  | Some allowed =>
      fail_if (negb (bool_decide (alg_oid (signature_algorithm cert) ∈ allowed)))
        (AlgorithmNotAllowed index)
  | None => Ok tt
  end.

Definition check_max_validity (cert : Certificate) (policy : ValidationPolicy) (index : nat) :
    Result unit :=
  match max_validity_secs policy with
  | Some max_secs =>
      let nb := to_unix_secs (not_before (tbs_certificate cert)) in
      let na := to_unix_secs (not_after (tbs_certificate cert)) in
      fail_if (bool_decide (max_secs < na - nb)%N) (ValidityPeriodExceedsMax index)
  | None => Ok tt
  end.

(** [usize] is 64 bits wide. *)
Definition rsa_public_key_bits (spki : SubjectPublicKeyInfo) : option N :=
  if decide (alg_oid (spki_algorithm spki) ≠ OID_RSA_ENCRYPTION) then None
  else
    raw ← bit_string_as_bytes (subject_public_key spki);
    modulus_byte_len ← rsa_modulus_len raw;
    let bits := N.min usize_max (N.of_nat modulus_byte_len * 8) in
    if decide (bits ≤ u32_max)%N then Some bits else None.

Definition check_min_rsa_bits (cert : Certificate) (policy : ValidationPolicy) (index : nat) :
    Result unit :=
  match min_rsa_key_bits policy with
  | Some min_bits =>
      match rsa_public_key_bits (subject_public_key_info (tbs_certificate cert)) with
      | Some actual_bits => fail_if (bool_decide (actual_bits < min_bits)%N) (KeyTooSmall index)
      | None => Ok tt
      end
  | None => Ok tt
  end.

Definition check_issuer_linkage (cert : Certificate) (working_issuer_name : Name)
    (working_issuer_is_san_identity : bool) (index : nat) : Result unit :=
  fail_if (negb working_issuer_is_san_identity &&
           negb (names_match working_issuer_name (issuer (tbs_certificate cert))))
    (ChainBroken index).

Definition verify_cert_signature {V} `{SignatureVerifier V} (cert : Certificate)
    (working_spki : SubjectPublicKeyInfo) (verifier : V) (index : nat) : Result unit :=
  tbs_bytes ← lift_der (λ e, Der (der_error_new e)) (to_der (tbs_certificate cert));
  if verify_signature verifier (signature_algorithm cert) working_spki tbs_bytes
       (raw_bytes (cert_signature cert))
  then Ok tt else Err (SignatureInvalid index).

(** ** Checks of the whole chain *)

(** [for i in 0..chain.len()] and [for j in (i + 1)..chain.len()] *)
Definition check_inputs (chain : list Certificate) (anchors : list TrustAnchor) : Result unit :=
  if bool_decide (chain = []) || bool_decide (anchors = []) then Err NoTrustedPath
  else try_for_each (λ _ i,
    try_for_each (λ _ j,
      a ← index chain i;
      b ← index chain j;
      fail_if (names_match (issuer (tbs_certificate a)) (issuer (tbs_certificate b)) &&
               bool_decide (serial_number (tbs_certificate a) = serial_number (tbs_certificate b)))
        (DuplicateCertificate i j)) (seq (S i) (length chain - S i))) (seq 0 (length chain)).

Definition check_oid_consistency (chain : list Certificate) : Result unit :=
  try_for_each (λ index cert,
    fail_if (bool_decide (alg_oid (signature_algorithm cert) ≠
                          alg_oid (tbs_signature (tbs_certificate cert))))
      (MalformedCertificate index)) chain.

(** ** When they succeed *)
Lemma check_validity_Ok cert now i u :
  check_validity cert now i = Ok u ↔
  (to_unix_secs (not_before (tbs_certificate cert)) ≤ now ≤
   to_unix_secs (not_after (tbs_certificate cert)))%N.
Proof.
  unfold check_validity, time_to_unix_secs. destruct u.
  destruct (_ && _) eqn:Hb.
  - apply andb_true_iff in Hb as [H1%bool_decide_eq_true H2%bool_decide_eq_true]. naive_solver.
  - apply andb_false_iff in Hb as [Hb%bool_decide_eq_false|Hb%bool_decide_eq_false]; naive_solver.
Qed.

Lemma check_critical_extensions_Ok cert i :
  check_critical_extensions cert i = Ok tt ↔
  ∀ e, e ∈ cert_extensions cert → critical e = true → extn_id e ∈ HANDLED_CRITICAL_OIDS.
Proof.
  unfold check_critical_extensions. rewrite try_for_each_Ok. split.
  - intros Hc e [j Hj]%list_elem_of_lookup He. apply Hc, fail_if_Ok in Hj.
    rewrite He in Hj. by apply negb_false_iff, bool_decide_eq_true in Hj.
  - intros Hc j e Hj%list_elem_of_lookup_2. apply fail_if_Ok.
    destruct (critical e) eqn:He; [|done]. rewrite bool_decide_eq_true_2; [done|auto].
Qed.

Lemma enforce_allowlist_Ok cert p i u :
  enforce_signature_alg_allowlist cert p i = Ok u ↔
  ∀ l, allowed_signature_algs p = Some l → alg_oid (signature_algorithm cert) ∈ l.
Proof.
  unfold enforce_signature_alg_allowlist. destruct u, (allowed_signature_algs p) as [l|].
  - rewrite fail_if_Ok, negb_false_iff, bool_decide_eq_true. naive_solver.
  - naive_solver.
Qed.

Lemma check_max_validity_Ok cert p i u :
  check_max_validity cert p i = Ok u ↔
  ∀ m, max_validity_secs p = Some m →
    (to_unix_secs (not_after (tbs_certificate cert)) -
     to_unix_secs (not_before (tbs_certificate cert)) ≤ m)%N.
Proof.
  unfold check_max_validity. destruct u, (max_validity_secs p) as [m|]; [|naive_solver].
  rewrite fail_if_Ok, bool_decide_eq_false. split.
  - intros Hm ? [= <-]. lia.
  - intros Hm. specialize (Hm m eq_refl). lia.
Qed.

Lemma check_min_rsa_bits_Ok cert p i u :
  check_min_rsa_bits cert p i = Ok u ↔
  ∀ m b, min_rsa_key_bits p = Some m →
    rsa_public_key_bits (subject_public_key_info (tbs_certificate cert)) = Some b → (m ≤ b)%N.
Proof.
  unfold check_min_rsa_bits. destruct u, (min_rsa_key_bits p) as [m|]; [|naive_solver].
  destruct (rsa_public_key_bits _) as [b|]; [|naive_solver].
  rewrite fail_if_Ok, bool_decide_eq_false. split.
  - intros Hm ? ? [= <-] [= <-]. lia.
  - intros Hm. specialize (Hm m b eq_refl eq_refl). lia.
Qed.

Lemma check_issuer_linkage_Ok cert n b i u :
  check_issuer_linkage cert n b i = Ok u ↔
  b = true ∨ names_match n (issuer (tbs_certificate cert)) = true.
Proof.
  unfold check_issuer_linkage. rewrite fail_if_Ok, andb_false_iff, !negb_false_iff. done.
Qed.

Lemma verify_cert_signature_Ok {V} `{SignatureVerifier V} cert k (v : V) i u :
  verify_cert_signature cert k v i = Ok u ↔
  ∃ tbs, to_der (tbs_certificate cert) = inr tbs ∧
    verify_signature v (signature_algorithm cert) k tbs (raw_bytes (cert_signature cert)) = true.
Proof.
  unfold verify_cert_signature. destruct u. rewrite bind_Ok. setoid_rewrite lift_der_Ok.
  apply exist_proper; intros tbs. case_match; naive_solver.
Qed.

Lemma check_oid_consistency_Ok chain :
  check_oid_consistency chain = Ok tt ↔
  ∀ c, c ∈ chain → alg_oid (signature_algorithm c) = alg_oid (tbs_signature (tbs_certificate c)).
Proof.
  unfold check_oid_consistency. rewrite try_for_each_Ok. split.
  - intros Hc c [j Hj]%list_elem_of_lookup. apply Hc, fail_if_Ok, bool_decide_eq_false in Hj.
    by apply dec_stable.
  - intros Hc j c Hj%list_elem_of_lookup_2. apply fail_if_Ok, bool_decide_eq_false.
    intros Hne. by apply Hne, Hc.
Qed.

(** Two certificates with the same issuer and serial number. *)
Definition same_identity (a b : Certificate) : Prop :=
  names_match (issuer (tbs_certificate a)) (issuer (tbs_certificate b)) = true ∧
  serial_number (tbs_certificate a) = serial_number (tbs_certificate b).

Lemma check_inputs_Ok chain anchors :
  check_inputs chain anchors = Ok tt ↔
  chain ≠ [] ∧ anchors ≠ [] ∧
  ∀ i j a b, i < j → chain !! i = Some a → chain !! j = Some b → ¬ same_identity a b.
Proof.
  unfold check_inputs. destruct (decide (chain = [])) as [->|Hc]; [cbn; naive_solver|].
  rewrite (bool_decide_eq_false_2 (chain = [])) by done.
  destruct (decide (anchors = [])) as [->|Ha]; [cbn; naive_solver|].
  rewrite (bool_decide_eq_false_2 (anchors = [])) by done. cbn [orb].
  rewrite try_for_each_Ok. setoid_rewrite try_for_each_Ok. setoid_rewrite lookup_seq.
  unfold same_identity. split.
  - intros Hd. split_and!; [done..|]. intros i j a b Hij Hi Hj [Hn Hs].
    pose proof (lookup_lt_Some _ _ _ Hj). specialize (Hd i i ltac:(lia) (j - S i) j ltac:(lia)).
    unfold index in Hd. rewrite Hi, Hj in Hd. cbn [mbind result_bind] in Hd.
    by rewrite Hn, bool_decide_eq_true_2 in Hd.
  - intros (_ & _ & Hd) k i [-> Hi] m j [-> Hj].
    destruct (lookup_lt_is_Some_2 chain (0 + k)) as [a Hca]; [lia|].
    destruct (lookup_lt_is_Some_2 chain (S (0 + k) + m)) as [b Hcb]; [lia|].
    unfold index. rewrite Hca, Hcb. cbn [mbind result_bind]. apply fail_if_Ok, not_true_iff_false.
    intros [Hn Hs%bool_decide_eq_true]%andb_true_iff.
    by apply (Hd (0 + k) (S (0 + k) + m) a b); [lia|..].
Qed.

(** ** No panics, and the errors carry the index *)
Lemma no_panic_cert_name_constraints cert i : no_panic (cert_name_constraints cert i).
Proof.
  unfold cert_name_constraints. apply no_panic_bind; [auto with pkix|]. intros nc _.
  apply no_panic_bind; [|done]. destruct nc; auto with pkix.
Qed.

Lemma no_panic_verify_cert_signature {V} `{SignatureVerifier V} cert k (v : V) i :
  no_panic (verify_cert_signature cert k v i).
Proof.
  unfold verify_cert_signature. apply no_panic_bind; [auto with pkix|].
  intros ? _. by case_match.
Qed.

Lemma no_panic_check_inputs chain anchors : no_panic (check_inputs chain anchors).
Proof.
  unfold check_inputs. case_match; [done|].
  apply no_panic_try_for_each_in. intros k i [-> Hi]%lookup_seq.
  apply no_panic_try_for_each_in. intros m j [-> Hj]%lookup_seq.
  apply no_panic_bind; [apply no_panic_index; lia|intros a _].
  apply no_panic_bind; [apply no_panic_index; lia|auto with pkix].
Qed.
End checks.

#[export] Hint Resolve no_panic_cert_name_constraints no_panic_verify_cert_signature
  no_panic_check_inputs : pkix.
