(* ===== verification/ChainWalk.v ===== *)
(** * The walk over the chain (pkix-path/src/lib.rs, [chain_walk])

    [WorkingState] is the state of RFC 5280 6.1.2 threaded from the
    certificate next to the anchor down to the leaf; [process_cert] is the
    body of the loop, cut into the blocks the source marks with comments, and
    [chain_walk] the function with its initialisation and its wrap-up. *)
From S2P Require Import Prelude X509 PathTypes Names Subtrees PolicyTree Verifier CertChecks.

Record WorkingState := {
  working_spki : SubjectPublicKeyInfo;
  working_issuer_name : Name;
  working_issuer_is_san_identity : bool;
  nc_permitted : option GeneralSubtrees;
  nc_excluded : GeneralSubtrees;
  nc_constrained_types : NcTypeMask;
  explicit_policy : N;
  inhibit_any : N;
  policy_mapping : N;
  policy_tree : option (list PolicyNode) }.

(** ** Field updates *)
Definition set_policy_tree (t : option (list PolicyNode)) (s : WorkingState) : WorkingState := {|
  working_spki := working_spki s; working_issuer_name := working_issuer_name s;
  working_issuer_is_san_identity := working_issuer_is_san_identity s;
  nc_permitted := nc_permitted s; nc_excluded := nc_excluded s;
  nc_constrained_types := nc_constrained_types s;
  explicit_policy := explicit_policy s; inhibit_any := inhibit_any s;
  policy_mapping := policy_mapping s; policy_tree := t |}.

Definition set_counters (e a m : N) (s : WorkingState) : WorkingState := {|
  working_spki := working_spki s; working_issuer_name := working_issuer_name s;
  working_issuer_is_san_identity := working_issuer_is_san_identity s;
  nc_permitted := nc_permitted s; nc_excluded := nc_excluded s;
  nc_constrained_types := nc_constrained_types s;
  explicit_policy := e; inhibit_any := a; policy_mapping := m; policy_tree := policy_tree s |}.

Definition set_nc (p : option GeneralSubtrees) (x : GeneralSubtrees) (t : NcTypeMask)
    (s : WorkingState) : WorkingState := {|
  working_spki := working_spki s; working_issuer_name := working_issuer_name s;
  working_issuer_is_san_identity := working_issuer_is_san_identity s;
  nc_permitted := p; nc_excluded := x; nc_constrained_types := t;
  explicit_policy := explicit_policy s; inhibit_any := inhibit_any s;
  policy_mapping := policy_mapping s; policy_tree := policy_tree s |}.

Definition set_issuer (k : SubjectPublicKeyInfo) (n : Name) (b : bool) (s : WorkingState) :
    WorkingState := {|
  working_spki := k; working_issuer_name := n; working_issuer_is_san_identity := b;
  nc_permitted := nc_permitted s; nc_excluded := nc_excluded s;
  nc_constrained_types := nc_constrained_types s;
  explicit_policy := explicit_policy s; inhibit_any := inhibit_any s;
  policy_mapping := policy_mapping s; policy_tree := policy_tree s |}.

(** ** The name-constraint state *)

(** [for entry in &permitted { bits |= name_type_bit(&entry.base); }] *)
Definition constrain_types (bits : NcTypeMask) (permitted : GeneralSubtrees) : NcTypeMask :=
  foldl (λ bits st, nc_bitor bits (name_type_bit (base st))) bits permitted.

(** The first loop: the entries of the new set that are kept. *)
Definition keep_new (current new_permitted : GeneralSubtrees) : Result GeneralSubtrees :=
  try_filter (λ n,
    let same_type_in_current := filter (λ c, same_nc_variant (base c) (base n) = true) current in
    match same_type_in_current with
    | [] => Ok true
    | _ => try_any (name_matches_subtree (base n)) same_type_in_current
    end) new_permitted.

(** [same_nc_variant(&a.base, &b.base) && name_matches_subtree(&a.base, b)
     && name_matches_subtree(&b.base, a)] *)
Definition same_subtree (a b : GeneralSubtree) : Result bool :=
  if same_nc_variant (base a) (base b) then
    ab ← name_matches_subtree (base a) b;
    if ab : bool then name_matches_subtree (base b) a else Ok false
  else Ok false.

(** The body of the second loop, on one current entry. *)
Definition keep_current (new_permitted : GeneralSubtrees) (result : GeneralSubtrees)
    (c : GeneralSubtree) : Result GeneralSubtrees :=
  let same_type_in_new := filter (λ n, same_nc_variant (base n) (base c) = true) new_permitted in
  match same_type_in_new with
  | [] => Ok (result ++ [c])
  | _ =>
      within_new ← try_any (name_matches_subtree (base c)) same_type_in_new;
      if within_new : bool then
        already_in_result ← try_any (λ e, same_subtree e c) result;
        mret (if already_in_result : bool then result else result ++ [c])
      else Ok result
  end.

Definition intersect_permitted (current new_permitted : GeneralSubtrees) : Result GeneralSubtrees :=
  result ← keep_new current new_permitted;
  try_fold (keep_current new_permitted) result current.

Definition union_excluded (excluded new_excluded : GeneralSubtrees) : Result GeneralSubtrees :=
  try_fold (λ acc new_entry,
    already_present ← try_any (λ existing, same_subtree existing new_entry) acc;
    mret (if already_present : bool then acc else acc ++ [new_entry])) excluded new_excluded.

(** The block (i): the update from one NameConstraints extension. *)
Definition update_nc (nc : NameConstraints) (s : WorkingState) : Result WorkingState :=
  s ← match permitted_subtrees nc with
      | None => Ok s
      | Some new_permitted =>
          let types := constrain_types (nc_constrained_types s) new_permitted in
          permitted ← match nc_permitted s with
                      | None => Ok new_permitted
                      | Some current => intersect_permitted current new_permitted
                      end;
          mret (set_nc (Some permitted) (nc_excluded s) types s)
      end;
  match excluded_subtrees nc with
  | None => Ok s
  | Some new_excluded =>
      excluded ← union_excluded (nc_excluded s) new_excluded;
      mret (set_nc (nc_permitted s) excluded (nc_constrained_types s) s)
  end.

(** ** Initialisation (6.1.2) *)
Definition init_state (chain : list Certificate) (anchor : TrustAnchor)
    (policy : ValidationPolicy) : WorkingState :=
  let '(initial_nc_permitted, initial_nc_excluded) :=
    match anchor_name_constraints anchor with
    | None => (None, [])
    | Some nc => (permitted_subtrees nc, default [] (excluded_subtrees nc))
    end in
  let initial_nc_constrained_types :=
    match initial_nc_permitted with
    | None => NC_EMPTY
    | Some permitted => constrain_types NC_EMPTY permitted
    end in
  let n_u32 := u32_of_usize (length chain) in
  {| working_spki := anchor_spki anchor;
     working_issuer_name := anchor_subject anchor;
     working_issuer_is_san_identity := false;
     nc_permitted := initial_nc_permitted;
     nc_excluded := initial_nc_excluded;
     nc_constrained_types := initial_nc_constrained_types;
     explicit_policy :=
       if initial_explicit_policy policy then 0%N else u32_saturating_add n_u32 1;
     inhibit_any :=
       if initial_any_policy_inhibit policy then 0%N else u32_saturating_add n_u32 1;
     policy_mapping :=
       if initial_policy_mapping_inhibit policy then 0%N else u32_saturating_add n_u32 1;
     policy_tree := Some init_policy_tree |}.

(** ** The loop body *)
Section walk.
Context `{PathAsn1} {V : Type} `{SignatureVerifier V}.

(** The blocks (a0) to (d). *)
Definition basic_checks (policy : ValidationPolicy) (verifier : V) (i : nat)
    (cert : Certificate) (state : WorkingState) : Result unit :=
  _ ← enforce_signature_alg_allowlist cert policy i;
  _ ← verify_cert_signature cert (working_spki state) verifier i;
  _ ← check_issuer_linkage cert (working_issuer_name state)
        (working_issuer_is_san_identity state) i;
  _ ← check_validity cert (current_time_unix policy) i;
  _ ← check_max_validity cert policy i;
  _ ← check_min_rsa_bits cert policy i;
  check_critical_extensions cert i.

(** The decoding of CertificatePolicies and the blocks (policy-d), (policy-f). *)
Definition policy_checks (cert_depth i : nat) (cert : Certificate) (state : WorkingState) :
    Result (option CertificatePolicies * WorkingState) :=
  cert_cp ← map_err (λ _, MalformedCertificate i)
              (try_find_cert_ext cert OID_CERTIFICATE_POLICIES);
  let may_expand := bool_decide (0 < inhibit_any state)%N ||
                    (bool_decide (0 < i) && is_self_issued_cert cert) in
  tree ← policy_step_d (policy_tree state) cert_cp cert_depth may_expand;
  let state := set_policy_tree tree state in
  _ ← fail_if (bool_decide (explicit_policy state = 0%N) &&
               bool_decide (policy_tree state = None)) (PolicyViolation i);
  mret (cert_cp, state).

(** The block (e): the names of the certificate; it returns the decoded SAN. *)
Definition name_checks (i : nat) (cert : Certificate) (state : WorkingState) :
    Result (option SubjectAltName) :=
  san ← cert_subject_alt_names cert i;
  _ ← if bool_decide (i = 0) || negb (is_self_issued_cert cert)
      then check_name_constraints cert san (nc_permitted state) (nc_excluded state)
             (nc_constrained_types state) i
      else Ok tt;
  mret san.

(** The blocks (e2), (e3), (e3a), (e3b) and (e4), on the leaf. *)
Definition check_leaf_san (policy : ValidationPolicy) (san : option SubjectAltName) :
    Result unit :=
  if require_subject_alt_name policy then
    let san_is_nonempty :=
      match san with Some s => negb (bool_decide (san_names s = [])) | None => false end in
    fail_if (negb san_is_nonempty) MissingSan
  else Ok tt.

Definition check_leaf_eku (policy : ValidationPolicy) (cert : Certificate) : Result unit :=
  match required_leaf_eku policy with
  | None => Ok tt
  | Some required_ekus =>
      eku ← map_err (λ _, MalformedCertificate 0)
              (try_find_cert_ext cert OID_EXTENDED_KEY_USAGE);
      match eku : option ExtendedKeyUsage with
      | None => fail_if (negb (bool_decide (required_ekus = []))) MissingEku
      | Some eku =>
          try_for_each (λ _ req_oid,
            fail_if (negb (existsb (λ e, bool_decide (e = req_oid)) (eku_oids eku))) MissingEku)
            required_ekus
      end
  end.

Definition check_leaf_policy_oids (policy : ValidationPolicy)
    (cert_cp : option CertificatePolicies) : Result unit :=
  match required_leaf_policy_oids policy with
  | None => Ok tt
  | Some required =>
      match cert_cp with
      | None =>
          match head required with
          | Some first => Err (MissingLeafPolicyOid first)
          | None => Ok tt
          end
      | Some cp_ext =>
          try_for_each (λ _ req_oid,
            fail_if (negb (existsb (λ pi, bool_decide (policy_identifier pi = req_oid))
                             (cp_infos cp_ext))) (MissingLeafPolicyOid req_oid)) required
      end
  end.

Definition check_leaf_dn (policy : ValidationPolicy) (cert : Certificate) : Result unit :=
  match required_leaf_subject_dn_attrs policy with
  | None => Ok tt
  | Some dn_rule =>
      fail_if (negb (evaluate_dn_attr_rule (subject (tbs_certificate cert)) dn_rule))
        SubjectDnAttrRuleUnmet
  end.

Definition check_leaf_rfc822 (policy : ValidationPolicy) (san : option SubjectAltName) :
    Result unit :=
  if require_subject_alt_name policy && require_rfc822_san policy then
    let has_rfc822 :=
      match san with
      | Some s => existsb (λ name, match name with Rfc822Name _ => true | _ => false end)
                    (san_names s)
      | None => false
      end in
    fail_if (negb has_rfc822) MissingRfc822San
  else Ok tt.

Definition leaf_checks (policy : ValidationPolicy) (i : nat) (cert : Certificate)
    (san : option SubjectAltName) (cert_cp : option CertificatePolicies) : Result unit :=
  if decide (i = 0) then
    _ ← check_leaf_san policy san;
    _ ← check_leaf_eku policy cert;
    _ ← check_leaf_policy_oids policy cert_cp;
    _ ← check_leaf_dn policy cert;
    check_leaf_rfc822 policy san
  else Ok tt.

(** The blocks (f), (g), (g') and (h) on an issuer. *)
Definition ca_checks (policy : ValidationPolicy) (chain : list Certificate) (i : nat)
    (cert : Certificate) : Result unit :=
  bc ← map_err (λ _, MalformedCertificate i) (try_find_cert_ext cert OID_BASIC_CONSTRAINTS);
  _ ← fail_if (negb (match bc : option BasicConstraints with Some b => ca b | None => false end))
        (NotCA i);
  _ ← if enforce_key_usage policy then
        ku ← map_err (λ _, MalformedCertificate i) (has_key_cert_sign cert);
        fail_if (bool_decide (ku = Some false)) (KeyUsageMissing i)
      else Ok tt;
  _ ← if require_crl_sign_on_cas policy then
        ku ← map_err (λ _, MalformedCertificate i) (has_crl_sign cert);
        fail_if (bool_decide (ku = Some false)) (CrlSignMissing i)
      else Ok tt;
  match b ← bc; path_len_constraint b with
  | None => Ok tt
  | Some path_len =>
      below ← slice_range 1 i chain;
      let effective_depth := length (filter (λ c, is_self_issued_cert c = false) below) in
      fail_if (bool_decide (path_len < N.of_nat effective_depth)%N) PathTooLong
  end.

(** The blocks (policy-a) and (policy-b). *)
Definition mapping_step (cert_depth i : nat) (cert : Certificate) (cert_cp : option CertificatePolicies)
    (state : WorkingState) : Result WorkingState :=
  pm ← map_err (λ _, MalformedCertificate i) (try_find_cert_ext cert OID_POLICY_MAPPINGS);
  tree ← policy_step_mappings (policy_tree state) pm cert_cp (policy_mapping state) cert_depth i;
  mret (set_policy_tree tree state).

(** The blocks (policy-h), (policy-i) and (policy-j). *)
Definition counter_step (i : nat) (cert : Certificate) (state : WorkingState) :
    Result WorkingState :=
  let state :=
    if negb (is_self_issued_cert cert)
    then set_counters (explicit_policy state - 1) (inhibit_any state - 1)
           (policy_mapping state - 1) state
    else state in
  pc ← map_err (λ _, MalformedCertificate i) (try_find_cert_ext cert OID_POLICY_CONSTRAINTS);
  let state :=
    match pc : option PolicyConstraints with
    | None => state
    | Some pc =>
        set_counters
          (match require_explicit_policy pc with
           | Some req => N.min (explicit_policy state) req | None => explicit_policy state end)
          (inhibit_any state)
          (match inhibit_policy_mapping pc with
           | Some ipm => N.min (policy_mapping state) ipm | None => policy_mapping state end)
          state
    end in
  iap ← map_err (λ _, MalformedCertificate i) (try_find_cert_ext cert OID_INHIBIT_ANY_POLICY);
  mret match iap : option InhibitAnyPolicy with
       | None => state
       | Some iap => set_counters (explicit_policy state) (N.min (inhibit_any state) (iap_skip iap))
                       (policy_mapping state) state
       end.

(** The block (i). *)
Definition nc_step (i : nat) (cert : Certificate) (state : WorkingState) : Result WorkingState :=
  nc ← cert_name_constraints cert i;
  match nc with Some nc => update_nc nc state | None => Ok state end.

(** [if i > 0 { .. }] *)
Definition issuer_step (policy : ValidationPolicy) (chain : list Certificate)
    (cert_depth i : nat) (cert : Certificate) (cert_cp : option CertificatePolicies) (state : WorkingState) :
    Result WorkingState :=
  if decide (0 < i) then
    _ ← ca_checks policy chain i cert;
    state ← mapping_step cert_depth i cert cert_cp state;
    state ← counter_step i cert state;
    nc_step i cert state
  else Ok state.

(** One iteration. *)
Definition process_cert (policy : ValidationPolicy) (verifier : V) (chain : list Certificate)
    (i : nat) (cert : Certificate) (state : WorkingState) : Result WorkingState :=
  _ ← basic_checks policy verifier i cert state;
  cert_depth ← usize_sub (length chain) i;
  '(cert_cp, state) ← policy_checks cert_depth i cert state;
  san ← name_checks i cert state;
  _ ← leaf_checks policy i cert san cert_cp;
  state ← issuer_step policy chain cert_depth i cert cert_cp state;
  mret (set_issuer (subject_public_key_info (tbs_certificate cert))
          (subject (tbs_certificate cert)) (cert_has_san_identity cert) state).

(** [for i in (0..k).rev()] *)
Fixpoint walk_loop (policy : ValidationPolicy) (verifier : V) (chain : list Certificate)
    (k : nat) (state : WorkingState) : Result WorkingState :=
  match k with
  | 0 => Ok state
  | S i =>
      cert ← index chain i;
      state ← process_cert policy verifier chain i cert state;
      walk_loop policy verifier chain i state
  end.

(** ** The wrap-up (6.1.5) *)

(** 6.1.5(a)-(b). *)
Definition leaf_wrap_up (chain : list Certificate) (state : WorkingState) : Result WorkingState :=
  leaf ← index chain 0;
  let state :=
    if negb (is_self_issued_cert leaf)
    then set_counters (explicit_policy state - 1) (inhibit_any state) (policy_mapping state) state
    else state in
  pc ← map_err (λ _, MalformedCertificate 0) (try_find_cert_ext leaf OID_POLICY_CONSTRAINTS);
  mret match b ← (pc : option PolicyConstraints); require_explicit_policy b with
       | Some req => set_counters (N.min (explicit_policy state) req) (inhibit_any state)
                       (policy_mapping state) state
       | None => state
       end.

Definition chain_walk (chain : list Certificate) (anchor : TrustAnchor)
    (policy : ValidationPolicy) (verifier : V) : Result (option (list PolicyNode)) :=
  let n := length chain in
  state ← walk_loop policy verifier chain n (init_state chain anchor policy);
  state ← leaf_wrap_up chain state;
  tree ← intersect_user_policy_set (initial_policy_set policy) n (policy_tree state);
  _ ← fail_if (bool_decide (explicit_policy state = 0%N) && bool_decide (tree = None))
        (PolicyViolation 0);
  mret tree.
End walk.
