(* ===== verification/WalkSound.v ===== *)
(** * What a successful walk has checked

    [cert_ok] lists the conditions on the certificate at one index; a walk
    that returns [Ok] has established it at every index, against the key and
    the name of the next certificate or of the anchor.  The walk does not
    panic, and the policy tree it carries is well formed. *)
From S2P Require Import Prelude X509 PathTypes Names Subtrees PolicyTree Verifier CertChecks ChainWalk.

(** ** What the checked updates compute

    No matcher panics, so neither do the loops over the subtrees; these are
    their values. *)
Definition same_subtree_in (a b : GeneralSubtree) : bool :=
  same_nc_variant (base a) (base b) && name_in (base a) b && name_in (base b) a.

Lemma same_subtree_Ok a b : same_subtree a b = Ok (same_subtree_in a b).
Proof.
  unfold same_subtree, same_subtree_in. rewrite !name_matches_subtree_total.
  destruct (same_nc_variant _ _); [|done]. by destruct (name_in (base a) b).
Qed.

Definition new_kept (current new_permitted : GeneralSubtrees) : GeneralSubtrees :=
  filter (λ n,
    match filter (λ c, same_nc_variant (base c) (base n) = true) current with
    | [] => true
    | l => existsb (name_in (base n)) l
    end = true) new_permitted.

Lemma keep_new_Ok current new_permitted :
  keep_new current new_permitted = Ok (new_kept current new_permitted).
Proof.
  apply try_filter_pure. intros n _. destruct (filter _ current); [done|]. apply try_any_name_in.
Qed.

Definition current_kept (new_permitted result : GeneralSubtrees) (c : GeneralSubtree) :
    GeneralSubtrees :=
  match filter (λ n, same_nc_variant (base n) (base c) = true) new_permitted with
  | [] => result ++ [c]
  | l =>
      if existsb (name_in (base c)) l then
        if existsb (λ e, same_subtree_in e c) result then result else result ++ [c]
      else result
  end.

Lemma keep_current_Ok new_permitted result c :
  keep_current new_permitted result c = Ok (current_kept new_permitted result c).
Proof.
  unfold keep_current, current_kept. destruct (filter _ new_permitted); [done|].
  rewrite try_any_name_in. cbn [mbind result_bind]. destruct (existsb _ _); [|done].
  by rewrite (try_any_pure _ (λ e, same_subtree_in e c)) by (intros; apply same_subtree_Ok).
Qed.

Definition permitted_by_both (current new_permitted : GeneralSubtrees) : GeneralSubtrees :=
  foldl (current_kept new_permitted) (new_kept current new_permitted) current.

Lemma intersect_permitted_Ok current new_permitted :
  intersect_permitted current new_permitted = Ok (permitted_by_both current new_permitted).
Proof.
  unfold intersect_permitted. rewrite keep_new_Ok. apply try_fold_pure, keep_current_Ok.
Qed.

Definition excluded_by_either (excluded new_excluded : GeneralSubtrees) : GeneralSubtrees :=
  foldl (λ acc new_entry,
    if existsb (λ existing, same_subtree_in existing new_entry) acc then acc
    else acc ++ [new_entry]) excluded new_excluded.

Lemma union_excluded_Ok excluded new_excluded :
  union_excluded excluded new_excluded = Ok (excluded_by_either excluded new_excluded).
Proof.
  apply try_fold_pure. intros acc x.
  by rewrite (try_any_pure _ (λ e, same_subtree_in e x)) by (intros; apply same_subtree_Ok).
Qed.

(** The state after [update_nc]. *)
Definition updated (nc : NameConstraints) (s : WorkingState) : WorkingState :=
  match update_nc nc s with Ok s' => s' | _ => s end.

Lemma update_nc_Ok nc s : update_nc nc s = Ok (updated nc s).
Proof.
  unfold updated, update_nc.
  destruct (permitted_subtrees nc), (nc_permitted s), (excluded_subtrees nc);
    cbn [mbind result_bind]; rewrite ?intersect_permitted_Ok; cbn [mbind result_bind mret result_ret];
    by rewrite ?union_excluded_Ok.
Qed.

Section walk_sound.
Context `{PathAsn1} {V : Type} `{SignatureVerifier V}.
Implicit Types (policy : ValidationPolicy) (chain : list Certificate) (anchor : TrustAnchor)
  (verifier : V).

(** The key, the name and the SAN-identity flag the certificate at [i] is
    checked against: those of its successor in the chain, or the anchor's. *)
Definition issuer_of chain anchor (i : nat) : SubjectPublicKeyInfo * Name * bool :=
  match chain !! S i with
  | Some c => (subject_public_key_info (tbs_certificate c), subject (tbs_certificate c),
               cert_has_san_identity c)
  | None => (anchor_spki anchor, anchor_subject anchor, false)
  end.

(** A decoded extension: absent, or present and well formed. *)
Definition ext_is {T} `{DecodeOwned T} (cert : Certificate) (oid : ObjectIdentifier)
    (o : option T) : Prop :=
  match find_ext cert oid with
  | None => o = None
  | Some e => ∃ t, from_der (extn_value e) = inr t ∧ o = Some t
  end.

(** The number of certificates between the leaf and index [i] that are not
    self-issued. *)
Definition intermediates_below chain (i : nat) : nat :=
  length (filter (λ c, is_self_issued_cert c = false) (take (i - 1) (drop 1 chain))).

(** The conditions on an issuer. *)
Record issuer_ok policy chain (i : nat) (cert : Certificate) : Prop := {
  issuer_is_ca : ∃ bc : BasicConstraints,
    ext_is cert OID_BASIC_CONSTRAINTS (Some bc) ∧ ca bc = true ∧
    ∀ l, path_len_constraint bc = Some l → (N.of_nat (intermediates_below chain i) ≤ l)%N;
  issuer_key_usage : enforce_key_usage policy = true →
    ∃ ku : option KeyUsage, ext_is cert OID_KEY_USAGE ku ∧ key_cert_sign <$> ku ≠ Some false;
  issuer_crl_sign : require_crl_sign_on_cas policy = true →
    ∃ ku : option KeyUsage, ext_is cert OID_KEY_USAGE ku ∧ crl_sign <$> ku ≠ Some false }.

(** The conditions on the leaf, as the policy asks for them. *)
Record leaf_ok policy (cert : Certificate) : Prop := {
  leaf_san : require_subject_alt_name policy = true →
    ∃ s : SubjectAltName, ext_is cert OID_SUBJECT_ALT_NAME (Some s) ∧ san_names s ≠ [] ∧
      (require_rfc822_san policy = true → ∃ m, Rfc822Name m ∈ san_names s);
  leaf_eku : ∀ req oid, required_leaf_eku policy = Some req → oid ∈ req →
    ∃ e : ExtendedKeyUsage, ext_is cert OID_EXTENDED_KEY_USAGE (Some e) ∧ oid ∈ eku_oids e;
  leaf_policies : ∀ req oid, required_leaf_policy_oids policy = Some req → oid ∈ req →
    ∃ cp : CertificatePolicies, ext_is cert OID_CERTIFICATE_POLICIES (Some cp) ∧
      ∃ pi, pi ∈ cp_infos cp ∧ policy_identifier pi = oid;
  leaf_dn : ∀ r, required_leaf_subject_dn_attrs policy = Some r →
    evaluate_dn_attr_rule (subject (tbs_certificate cert)) r = true }.

(** The conditions on the certificate at index [i]. *)
Record cert_ok policy (verifier : V) chain anchor (i : nat) (cert : Certificate) : Prop := {
  ok_signature : ∃ tbs, to_der (tbs_certificate cert) = inr tbs ∧
    verify_signature verifier (signature_algorithm cert) (issuer_of chain anchor i).1.1
      tbs (raw_bytes (cert_signature cert)) = true;
  ok_linkage : (issuer_of chain anchor i).2 = true ∨
    names_match (issuer_of chain anchor i).1.2 (issuer (tbs_certificate cert)) = true;
  ok_validity : (to_unix_secs (not_before (tbs_certificate cert)) ≤ current_time_unix policy ≤
    to_unix_secs (not_after (tbs_certificate cert)))%N;
  ok_algorithm : ∀ l, allowed_signature_algs policy = Some l →
    alg_oid (signature_algorithm cert) ∈ l;
  ok_max_validity : ∀ m, max_validity_secs policy = Some m →
    (to_unix_secs (not_after (tbs_certificate cert)) -
     to_unix_secs (not_before (tbs_certificate cert)) ≤ m)%N;
  ok_rsa_bits : ∀ m b, min_rsa_key_bits policy = Some m →
    rsa_public_key_bits (subject_public_key_info (tbs_certificate cert)) = Some b → (m ≤ b)%N;
  ok_critical : ∀ e, e ∈ cert_extensions cert → critical e = true →
    extn_id e ∈ HANDLED_CRITICAL_OIDS;
  ok_issuer : 0 < i → issuer_ok policy chain i cert;
  ok_leaf : i = 0 → leaf_ok policy cert }.

(** ** Reading extensions *)
Lemma try_find_cert_ext_Ok {T} `{DecodeOwned T} cert oid (o : option T) :
  try_find_cert_ext cert oid = Ok o ↔ ext_is cert oid o.
Proof.
  unfold try_find_cert_ext, ext_is. destruct (find_ext cert oid) as [e|]; [|naive_solver].
  rewrite fmap_Ok. setoid_rewrite lift_der_Ok. naive_solver.
Qed.

Lemma ext_is_fun {T} `{DecodeOwned T} cert oid (o o' : option T) :
  ext_is cert oid o → ext_is cert oid o' → o = o'.
Proof. rewrite <-!try_find_cert_ext_Ok. congruence. Qed.

(** ** The blocks on the leaf *)
Lemma check_leaf_eku_Ok policy cert :
  check_leaf_eku policy cert = Ok tt →
  ∀ req oid, required_leaf_eku policy = Some req → oid ∈ req →
    ∃ e : ExtendedKeyUsage, ext_is cert OID_EXTENDED_KEY_USAGE (Some e) ∧ oid ∈ eku_oids e.
Proof.
  unfold check_leaf_eku. intros Hc req oid Hreq Hoid. rewrite Hreq in Hc.
  apply bind_Ok in Hc as (o & Ho%map_err_Ok%try_find_cert_ext_Ok & Hc).
  destruct o as [e|].
  - exists e. split; [done|]. apply list_elem_of_lookup in Hoid as [j Hj].
    rewrite try_for_each_Ok in Hc. apply Hc, fail_if_Ok, negb_false_iff, existsb_elem in Hj.
    destruct Hj as (x & Hx & ->%bool_decide_eq_true). done.
  - apply fail_if_Ok, negb_false_iff, bool_decide_eq_true in Hc. subst req.
    by apply not_elem_of_nil in Hoid.
Qed.

Lemma check_leaf_policy_oids_Ok policy cp :
  check_leaf_policy_oids policy cp = Ok tt →
  ∀ req oid, required_leaf_policy_oids policy = Some req → oid ∈ req →
    ∃ c, cp = Some c ∧ ∃ pi, pi ∈ cp_infos c ∧ policy_identifier pi = oid.
Proof.
  unfold check_leaf_policy_oids. intros Hc req oid Hreq Hoid. rewrite Hreq in Hc.
  destruct cp as [c|].
  - exists c. split; [done|]. apply list_elem_of_lookup in Hoid as [j Hj].
    rewrite try_for_each_Ok in Hc. apply Hc, fail_if_Ok, negb_false_iff, existsb_elem in Hj.
    destruct Hj as (x & Hx & Heq%bool_decide_eq_true). by exists x.
  - destruct req; [|done]. by apply not_elem_of_nil in Hoid.
Qed.

Lemma check_leaf_san_Ok policy san :
  check_leaf_san policy san = Ok tt → check_leaf_rfc822 policy san = Ok tt →
  require_subject_alt_name policy = true →
  ∃ s, san = Some s ∧ san_names s ≠ [] ∧
    (require_rfc822_san policy = true → ∃ m, Rfc822Name m ∈ san_names s).
Proof.
  unfold check_leaf_san, check_leaf_rfc822. intros Hs Hr Hreq'.
  rewrite Hreq' in Hs, Hr. cbn [andb] in Hr.
  apply fail_if_Ok, negb_false_iff in Hs. destruct san as [s|]; [|done].
  apply negb_true_iff, bool_decide_eq_false in Hs. exists s. split_and!; [done..|].
  intros Hreq. rewrite Hreq in Hr. apply fail_if_Ok, negb_false_iff, existsb_elem in Hr.
  destruct Hr as ([] & Hin & Heq); try done. by eexists.
Qed.

Lemma leaf_checks_Ok policy cert san cp :
  leaf_checks policy 0 cert san cp = Ok tt →
  ext_is cert OID_SUBJECT_ALT_NAME san → ext_is cert OID_CERTIFICATE_POLICIES cp →
  leaf_ok policy cert.
Proof.
  unfold leaf_checks. rewrite decide_True by done. intros Hc Hsan Hcp.
  apply bind_Ok in Hc as ([] & Hs & Hc). apply bind_Ok in Hc as ([] & He & Hc).
  apply bind_Ok in Hc as ([] & Hp & Hc). apply bind_Ok in Hc as ([] & Hd & Hr).
  split.
  - intros Hreq. destruct (check_leaf_san_Ok policy san Hs Hr Hreq) as (s & -> & Hne & Hm).
    by exists s.
  - by apply check_leaf_eku_Ok.
  - intros req oid Hreq Hoid.
    destruct (check_leaf_policy_oids_Ok policy cp Hp req oid Hreq Hoid) as (c & -> & Hpi).
    by exists c.
  - intros r Hreq. unfold check_leaf_dn in Hd. rewrite Hreq in Hd.
    by apply fail_if_Ok, negb_false_iff in Hd.
Qed.

(** ** The blocks on an issuer *)
Lemma key_usage_bit_Ok (f : KeyUsage → bool) cert (e e' : Error) :
  (ku ← map_err (λ _, e) ((λ opt : option KeyUsage, f <$> opt) <$>
                            try_find_cert_ext cert OID_KEY_USAGE);
   fail_if (bool_decide (ku = Some false)) e') = Ok tt →
  ∃ ku : option KeyUsage, ext_is cert OID_KEY_USAGE ku ∧ f <$> ku ≠ Some false.
Proof.
  intros Hk. apply bind_Ok in Hk as (o & Ho%map_err_Ok & Hk).
  apply fmap_Ok in Ho as (ku & Hku%try_find_cert_ext_Ok & <-).
  apply fail_if_Ok, bool_decide_eq_false in Hk. eauto.
Qed.

Lemma ca_checks_Ok policy chain i cert :
  0 < i → i ≤ length chain →
  ca_checks policy chain i cert = Ok tt → issuer_ok policy chain i cert.
Proof.
  intros Hi Hlen Hc. unfold ca_checks, has_key_cert_sign, has_crl_sign in Hc.
  apply bind_Ok in Hc as (bc & Hbc%map_err_Ok%try_find_cert_ext_Ok & Hc).
  apply bind_Ok in Hc as ([] & Hca%fail_if_Ok%negb_false_iff & Hc).
  apply bind_Ok in Hc as ([] & Hku & Hc). apply bind_Ok in Hc as ([] & Hcrl & Hpl).
  destruct bc as [bc|]; [|done]. split.
  - exists bc. split_and!; [done..|]. intros l Hl. cbn in Hpl. rewrite Hl in Hpl.
    rewrite slice_range_Ok in Hpl by lia. cbn in Hpl.
    apply fail_if_Ok, bool_decide_eq_false in Hpl. unfold intermediates_below. lia.
  - intros He. rewrite He in Hku. by eapply key_usage_bit_Ok.
  - intros He. rewrite He in Hcrl. by eapply key_usage_bit_Ok.
Qed.

(** ** One iteration *)
Record step_facts policy (verifier : V) chain i cert state state' : Prop := {
  step_basic : basic_checks policy verifier i cert state = Ok tt;
  step_split : ∃ cp san s1 s2,
    i ≤ length chain ∧
    policy_checks (length chain - i) i cert state = Ok (cp, s1) ∧
    name_checks i cert s1 = Ok san ∧
    leaf_checks policy i cert san cp = Ok tt ∧
    issuer_step policy chain (length chain - i) i cert cp s1 = Ok s2 ∧
    state' = set_issuer (subject_public_key_info (tbs_certificate cert))
      (subject (tbs_certificate cert)) (cert_has_san_identity cert) s2 }.

Lemma process_cert_Ok policy verifier chain i cert state state' :
  process_cert policy verifier chain i cert state = Ok state' →
  step_facts policy verifier chain i cert state state'.
Proof.
  unfold process_cert. intros Hp.
  apply bind_Ok in Hp as ([] & Hb & Hp). apply bind_Ok in Hp as (d & Hd & Hp).
  apply usize_sub_inv in Hd as [Hle ->]. apply bind_Ok in Hp as ([cp s1] & Hpc & Hp).
  apply bind_Ok in Hp as (san & Hn & Hp). apply bind_Ok in Hp as ([] & Hl & Hp).
  apply bind_Ok in Hp as (s2 & His & [= <-]). split; [done|]. by exists cp, san, s1, s2.
Qed.

Lemma policy_checks_Ok d i cert state cp s1 :
  policy_checks d i cert state = Ok (cp, s1) →
  ext_is cert OID_CERTIFICATE_POLICIES cp ∧
  ∃ t, policy_step_d (E:=Error) (policy_tree state) cp d
         (bool_decide (0 < inhibit_any state)%N ||
          (bool_decide (0 < i) && is_self_issued_cert cert)) = Ok t ∧
    s1 = set_policy_tree t state ∧ (explicit_policy state = 0%N → t ≠ None).
Proof.
  unfold policy_checks. intros Hp.
  apply bind_Ok in Hp as (cp' & Hcp%map_err_Ok%try_find_cert_ext_Ok & Hp).
  apply bind_Ok in Hp as (t & Ht & Hp). apply bind_Ok in Hp as ([] & Hf & [= <- <-]).
  split; [done|]. exists t. split_and!; [done..|].
  apply fail_if_Ok, andb_false_iff in Hf. cbn in Hf.
  rewrite !bool_decide_eq_false in Hf. naive_solver.
Qed.

Lemma name_checks_Ok i cert state san :
  name_checks i cert state = Ok san →
  ext_is cert OID_SUBJECT_ALT_NAME san ∧
  (i = 0 ∨ is_self_issued_cert cert = false →
   check_name_constraints cert san (nc_permitted state) (nc_excluded state)
     (nc_constrained_types state) i = Ok tt).
Proof.
  unfold name_checks, cert_subject_alt_names. intros Hn.
  apply bind_Ok in Hn as (s & Hs%map_err_Ok%try_find_cert_ext_Ok & Hn).
  apply bind_Ok in Hn as ([] & Hc & [= <-]). split; [done|]. intros Hi.
  destruct (bool_decide (i = 0) || negb (is_self_issued_cert cert)) eqn:Hb; [done|].
  apply orb_false_iff in Hb as [Hb1%bool_decide_eq_false Hb2%negb_false_iff].
  destruct Hi; congruence.
Qed.

Lemma basic_checks_Ok policy verifier i cert state :
  basic_checks policy verifier i cert state = Ok tt →
  enforce_signature_alg_allowlist cert policy i = Ok tt ∧
  verify_cert_signature cert (working_spki state) verifier i = Ok tt ∧
  check_issuer_linkage cert (working_issuer_name state)
    (working_issuer_is_san_identity state) i = Ok tt ∧
  check_validity cert (current_time_unix policy) i = Ok tt ∧
  check_max_validity cert policy i = Ok tt ∧
  check_min_rsa_bits cert policy i = Ok tt ∧
  check_critical_extensions cert i = Ok tt.
Proof.
  unfold basic_checks. intros Hb.
  do 6 (apply bind_Ok in Hb as ([] & ? & Hb)). done.
Qed.

Definition issuer_fields (s : WorkingState) : SubjectPublicKeyInfo * Name * bool :=
  (working_spki s, working_issuer_name s, working_issuer_is_san_identity s).

Lemma process_cert_sound policy verifier chain anchor i cert state state' :
  chain !! i = Some cert → issuer_fields state = issuer_of chain anchor i →
  process_cert policy verifier chain i cert state = Ok state' →
  cert_ok policy verifier chain anchor i cert.
Proof.
  intros Hcert Hf Hp. apply lookup_lt_Some in Hcert as Hlt.
  destruct (process_cert_Ok _ _ _ _ _ _ _ Hp) as [Hb (cp & san & s1 & s2 & _ & Hpc & Hn & Hl & His & _)].
  apply basic_checks_Ok in Hb as (Ha & Hs & Hli & Hv & Hm & Hr & Hcr).
  apply policy_checks_Ok in Hpc as [Hcp _]. apply name_checks_Ok in Hn as [Hsan _].
  unfold issuer_fields in Hf.
  split; rewrite <-?Hf; cbn [fst snd].
  - by eapply verify_cert_signature_Ok.
  - by eapply check_issuer_linkage_Ok.
  - by eapply check_validity_Ok.
  - by eapply enforce_allowlist_Ok.
  - by eapply check_max_validity_Ok.
  - by eapply check_min_rsa_bits_Ok.
  - by eapply check_critical_extensions_Ok.
  - intros Hi. unfold issuer_step in His. rewrite decide_True in His by done.
    apply bind_Ok in His as ([] & Hca & _). apply ca_checks_Ok; [done|lia|done].
  - intros ->. by eapply leaf_checks_Ok.
Qed.

Lemma process_cert_issuer policy verifier chain anchor i cert state state' :
  chain !! S i = Some cert →
  process_cert policy verifier chain (S i) cert state = Ok state' →
  issuer_fields state' = issuer_of chain anchor i.
Proof.
  intros Hc Hp. destruct (process_cert_Ok _ _ _ _ _ _ _ Hp) as [_ (?&?&?&?&_&_&_&_&_&->)].
  unfold issuer_of. by rewrite Hc.
Qed.

(** ** The loop *)
Lemma walk_loop_sound policy verifier chain anchor k state state' :
  (∀ i, k = S i → issuer_fields state = issuer_of chain anchor i) →
  walk_loop policy verifier chain k state = Ok state' →
  ∀ i c, i < k → chain !! i = Some c → cert_ok policy verifier chain anchor i c.
Proof.
  revert state. induction k as [|k IH]; intros state Hf Hw i c Hi Hc; [lia|].
  cbn in Hw. apply bind_Ok in Hw as (cert & Hcert%index_Ok & Hw).
  apply bind_Ok in Hw as (s1 & Hp & Hw).
  destruct (decide (i = k)) as [->|].
  - rewrite Hc in Hcert. injection Hcert as <-. eapply process_cert_sound; eauto.
  - eapply (IH s1); [|done|lia|done]. intros j ->. by eapply process_cert_issuer.
Qed.

Lemma chain_walk_sound policy verifier chain anchor t :
  chain_walk chain anchor policy verifier = Ok t →
  ∀ i c, chain !! i = Some c → cert_ok policy verifier chain anchor i c.
Proof.
  intros Hw i c Hc. unfold chain_walk in Hw. apply bind_Ok in Hw as (s & Hw & _).
  eapply walk_loop_sound; [|exact Hw|by eapply lookup_lt_Some|done].
  intros j Hj. unfold init_state, issuer_fields, issuer_of.
  rewrite lookup_ge_None_2 by lia. by destruct (anchor_name_constraints anchor).
Qed.

(** ** No panic *)
Lemma no_panic_check_name_constraints cert san p x t i :
  no_panic (check_name_constraints cert san p x t i).
Proof.
  pose proof (check_name_constraints_errors cert san p x t i).
  by destruct (check_name_constraints _ _ _ _ _ _).
Qed.
#[local] Hint Resolve no_panic_check_name_constraints : pkix.

Lemma no_panic_leaf_checks policy i cert san cp : no_panic (leaf_checks policy i cert san cp).
Proof.
  unfold leaf_checks, check_leaf_san, check_leaf_eku, check_leaf_policy_oids, check_leaf_dn,
    check_leaf_rfc822. solve_no_panic.
Qed.

Lemma no_panic_ca_checks policy chain i cert :
  0 < i → i ≤ length chain → no_panic (ca_checks policy chain i cert).
Proof.
  intros Hi Hlen. unfold ca_checks, has_key_cert_sign, has_crl_sign.
  apply no_panic_bind; [auto with pkix|intros bc _].
  apply no_panic_bind; [auto with pkix|intros _ _].
  apply no_panic_bind; [solve_no_panic|intros _ _].
  apply no_panic_bind; [solve_no_panic|intros _ _].
  case_match; [|done]. rewrite slice_range_Ok by lia. cbn. auto with pkix.
Qed.

Lemma no_panic_update_nc nc s : no_panic (update_nc nc s).
Proof. by rewrite update_nc_Ok. Qed.
#[local] Hint Resolve no_panic_update_nc : pkix.

Lemma no_panic_issuer_step policy chain d i cert cp state :
  i ≤ length chain → no_panic (issuer_step policy chain d i cert cp state).
Proof.
  intros Hlen. unfold issuer_step, mapping_step, counter_step, nc_step. case_decide; [|done].
  apply no_panic_bind; [by apply no_panic_ca_checks|intros _ _].
  repeat first [solve [auto with pkix]|case_match|apply no_panic_bind; [|intros ? _]].
Qed.

Lemma no_panic_process_cert policy (verifier : V) chain i cert state :
  i < length chain → no_panic (process_cert policy verifier chain i cert state).
Proof.
  intros Hlen. unfold process_cert. apply no_panic_bind.
  { unfold basic_checks, enforce_signature_alg_allowlist, check_issuer_linkage, check_validity,
      check_max_validity, check_min_rsa_bits, check_critical_extensions. solve_no_panic. }
  intros _ _. rewrite usize_sub_Ok by lia. cbn [mbind result_bind]. apply no_panic_bind.
  { unfold policy_checks. assert (1 ≤ length chain - i) by lia.
    repeat first [solve [auto with pkix]|apply no_panic_bind; [|intros ? _]]. }
  intros [cp s1] _. apply no_panic_bind.
  { unfold name_checks, cert_subject_alt_names. apply no_panic_bind; [auto with pkix|intros san _].
    apply no_panic_bind; [case_match; auto with pkix|done]. }
  intros san _. apply no_panic_bind; [apply no_panic_leaf_checks|intros _ _].
  apply no_panic_bind; [apply no_panic_issuer_step; lia|done].
Qed.

Lemma no_panic_walk_loop policy (verifier : V) chain k state :
  k ≤ length chain → no_panic (walk_loop policy verifier chain k state).
Proof.
  revert state. induction k as [|k IH]; intros state Hk; cbn; [done|].
  destruct (lookup_lt_is_Some_2 chain k) as [c Hc]; [lia|]. unfold index. rewrite Hc.
  change (no_panic (process_cert policy verifier chain k c state ≫=
                    λ state, walk_loop policy verifier chain k state)).
  apply no_panic_bind; [apply no_panic_process_cert; lia|]. intros; apply IH; lia.
Qed.

Lemma no_panic_chain_walk chain anchor policy (verifier : V) :
  chain ≠ [] → no_panic (chain_walk chain anchor policy verifier).
Proof.
  intros Hne. unfold chain_walk.
  apply no_panic_bind; [by apply no_panic_walk_loop|intros s _].
  apply no_panic_bind.
  { unfold leaf_wrap_up, index. destruct chain as [|c cs]; [done|]. cbn [lookup list_lookup].
    apply no_panic_bind; [done|intros ? _]. apply no_panic_bind; [auto with pkix|].
    intros; done. }
  intros ? _. apply no_panic_bind; [auto with pkix|intros ? _].
  apply no_panic_bind; [auto with pkix|done].
Qed.
End walk_sound.
