(* ===== verification/WalkPolicy.v ===== *)
(** * The policy state along the walk

    The invariant of the policy tree through the loop of [chain_walk] and its
    wrap-up, and what an explicit-policy requirement guarantees. *)
From S2P Require Import Prelude X509 PathTypes Names Subtrees PolicyTree Verifier CertChecks ChainWalk WalkSound.

Definition root_node : PolicyNode :=
  {| depth := 0; valid_policy := OID_ANY_POLICY; expected_policy_set := [OID_ANY_POLICY];
     qualifiers := [] |}.

(** The tree after the certificates down to depth [D]. *)
Record tree_inv (D : nat) (t : list PolicyNode) : Prop := {
  inv_wf : tree_wf D t;
  inv_live : 1 ≤ D → tree_live D t;
  inv_root : root_node ∈ t }.

Definition state_inv (D : nat) (s : WorkingState) : Prop :=
  ∀ t, policy_tree s = Some t → tree_inv D t.

(** The root survives every operation on the tree. *)
Lemma root_prune d t : root_node ∈ t → root_node ∈ prune d t.
Proof. intros Hr. unfold prune. apply elem_of_prune_loop. split; [done|by left]. Qed.

Lemma root_prune_or_null {E} d t t' :
  root_node ∈ t → prune_or_null (E:=E) t d = Ok (Some t') → root_node ∈ t'.
Proof.
  intros Hr. rewrite prune_or_null_Ok. destruct (tree_is_null _); [done|].
  intros [= <-]. by apply root_prune.
Qed.

Lemma policy_step_d_inv {E} D t cp may t' :
  tree_inv D t → policy_step_d (E:=E) (Some t) cp (S D) may = Ok (Some t') → tree_inv (S D) t'.
Proof.
  intros [[Hle _] _ Hroot] Hs. destruct cp as [cp|]; [|done].
  destruct (policy_step_d_spec (E:=E) t cp (S D) may (Some t')) as (Hwf & Hl & _); [lia| |exact Hs|].
  { intros n Hn. cbn. rewrite Nat.sub_0_r. auto. }
  cbn in Hs. rewrite extend_policy_tree_Ok in Hs by lia. cbn [mbind result_bind] in Hs.
  split; [done|done|]. eapply root_prune_or_null; [|exact Hs].
  unfold extended_tree. apply elem_of_app. by left.
Qed.

Lemma apply_mapping_root D q t m :
  1 ≤ D → root_node ∈ t → root_node ∈ apply_mapping D q t m.
Proof. intros HD Hr. apply apply_mapping_above; [cbn; lia|done]. Qed.

Lemma apply_mappings_root {E} t pm cp m D t' :
  1 ≤ D → root_node ∈ t → apply_mappings (E:=E) t pm cp m D = Ok t' → root_node ∈ t'.
Proof.
  intros HD Hr. unfold apply_mappings. case_decide.
  - intros [= <-]. revert t Hr. induction (pm_mappings pm) as [|x ms IH]; intros t Hr; [done|].
    cbn. apply IH. by apply apply_mapping_root.
  - rewrite post_op_prune_Ok. intros [= <-]. apply root_prune, list_elem_of_filter.
    split; [cbn; lia|done].
Qed.

Lemma policy_step_mappings_inv D t pm cp m i t' :
  1 ≤ D → tree_inv D t →
  policy_step_mappings (Some t) pm cp m D i = Ok (Some t') → tree_inv D t'.
Proof.
  intros HD [Hwf Hl Hroot] Hs.
  destruct (policy_step_mappings_wf t pm cp m D i t' HD Hwf (Hl HD) Hs) as [Hwf' Hl'].
  split; [done|done|]. unfold policy_step_mappings in Hs.
  apply bind_Ok in Hs as (o & Ho & Hs). destruct pm as [pm|].
  - apply bind_Ok in Ho as ([] & _ & Ho). apply fmap_Ok in Ho as (t1 & Ht1 & <-).
    eapply root_prune_or_null; [|exact Hs]. by eapply apply_mappings_root.
  - injection Ho as <-. by eapply root_prune_or_null.
Qed.

Lemma policy_step_mappings_None pm cp m D i o :
  policy_step_mappings None pm cp m D i = Ok o → o = None.
Proof.
  unfold policy_step_mappings. intros Hs. apply bind_Ok in Hs as (o' & Ho & Hs).
  destruct pm as [pm|].
  - apply bind_Ok in Ho as ([] & _ & [= <-]). by injection Hs.
  - injection Ho as <-. by injection Hs.
Qed.

Section walk_policy.
Context `{PathAsn1} {V : Type} `{SignatureVerifier V}.
Implicit Types (policy : ValidationPolicy) (chain : list Certificate) (anchor : TrustAnchor)
  (verifier : V).

(** Nothing but the policy blocks touches the tree, and the explicit-policy
    counter never rises. *)
Lemma counter_step_facts i cert s s' :
  counter_step i cert s = Ok s' →
  policy_tree s' = policy_tree s ∧ (explicit_policy s' ≤ explicit_policy s)%N.
Proof.
  unfold counter_step. intros Hs. apply bind_Ok in Hs as (pc & _ & Hs).
  apply bind_Ok in Hs as (iap & _ & [= <-]).
  destruct (is_self_issued_cert cert), pc as [[[] []]|], iap; cbn; split; try done; lia.
Qed.

Lemma update_nc_facts nc s s' :
  update_nc nc s = Ok s' →
  policy_tree s' = policy_tree s ∧ explicit_policy s' = explicit_policy s.
Proof.
  unfold update_nc. intros Hs. apply bind_Ok in Hs as (s1 & Hp & Hx).
  assert (policy_tree s1 = policy_tree s ∧ explicit_policy s1 = explicit_policy s) as [<- <-].
  { destruct (permitted_subtrees nc); [|by injection Hp as <-].
    by apply bind_Ok in Hp as (p & _ & [= <-]). }
  destruct (excluded_subtrees nc); [|by injection Hx as <-].
  by apply bind_Ok in Hx as (x & _ & [= <-]).
Qed.

Lemma nc_step_facts i cert s s' :
  nc_step i cert s = Ok s' →
  policy_tree s' = policy_tree s ∧ explicit_policy s' = explicit_policy s.
Proof.
  unfold nc_step. intros Hs. apply bind_Ok in Hs as ([nc|] & _ & Hs); [|by injection Hs as <-].
  by apply update_nc_facts in Hs.
Qed.

Lemma mapping_step_facts d i cert cp s s' :
  1 ≤ d → state_inv d s → mapping_step d i cert cp s = Ok s' →
  state_inv d s' ∧ explicit_policy s' = explicit_policy s.
Proof.
  unfold mapping_step. intros Hi Hinv Hs. apply bind_Ok in Hs as (pm & _ & Hs).
  apply bind_Ok in Hs as (t & Ht & [= <-]). split; [|done].
  intros t' Ht'. cbn in Ht'. subst t. destruct (policy_tree s) as [t0|] eqn:Ht0.
  - eapply policy_step_mappings_inv; [lia|by apply Hinv|exact Ht].
  - by apply policy_step_mappings_None in Ht.
Qed.

Lemma issuer_step_facts policy chain d i cert cp s s' :
  1 ≤ d → state_inv d s → issuer_step policy chain d i cert cp s = Ok s' →
  state_inv d s' ∧ (explicit_policy s' ≤ explicit_policy s)%N.
Proof.
  unfold issuer_step. intros Hi Hinv Hs. case_decide as Hpos; [|injection Hs as <-; done].
  apply bind_Ok in Hs as ([] & _ & Hs). apply bind_Ok in Hs as (s1 & Hs1 & Hs).
  apply bind_Ok in Hs as (s2 & Hs2 & Hs3).
  apply mapping_step_facts in Hs1 as [Hinv1 He1]; [|done..].
  apply counter_step_facts in Hs2 as [Ht2 He2]. apply nc_step_facts in Hs3 as [Ht3 He3].
  split; [|lia]. intros t Ht. apply Hinv1. congruence.
Qed.

Lemma process_cert_policy policy verifier chain i cert s s' :
  i < length chain → state_inv (length chain - S i) s →
  process_cert policy verifier chain i cert s = Ok s' →
  state_inv (length chain - i) s' ∧ (explicit_policy s' ≤ explicit_policy s)%N ∧
  (explicit_policy s = 0%N → policy_tree s ≠ None).
Proof.
  intros Hi Hinv Hp. destruct (process_cert_Ok _ _ _ _ _ _ _ Hp)
    as [_ (cp & san & s1 & s2 & _ & Hpc & _ & _ & His & ->)].
  apply policy_checks_Ok in Hpc as [_ (t & Ht & -> & He)].
  apply issuer_step_facts in His as [Hinv' He']; [|lia|].
  2: { intros t' [= ->]. destruct (policy_tree s) as [t0|] eqn:Ht0; [|done].
       replace (length chain - i) with (S (length chain - S i)) in * by lia.
       eapply policy_step_d_inv; [by apply Hinv|exact Ht]. }
  split_and!; [done|done|]. intros Hz Hnone. apply (He Hz).
  rewrite Hnone in Ht. by injection Ht as <-.
Qed.

Lemma walk_loop_policy policy verifier chain k s s' :
  k ≤ length chain → state_inv (length chain - k) s →
  walk_loop policy verifier chain k s = Ok s' →
  state_inv (length chain) s' ∧ (explicit_policy s' ≤ explicit_policy s)%N.
Proof.
  revert s. induction k as [|k IH]; intros s Hk Hinv Hw.
  { injection Hw as <-. rewrite Nat.sub_0_r in Hinv. done. }
  cbn in Hw. apply bind_Ok in Hw as (cert & _ & Hw). apply bind_Ok in Hw as (s1 & Hp & Hw).
  apply process_cert_policy in Hp as (Hinv1 & He1 & _); [|lia|done].
  apply IH in Hw as [? ?]; [|lia|done]. split; [done|lia].
Qed.

Lemma leaf_wrap_up_facts chain s s' :
  leaf_wrap_up chain s = Ok s' →
  policy_tree s' = policy_tree s ∧ (explicit_policy s' ≤ explicit_policy s)%N.
Proof.
  unfold leaf_wrap_up. intros Hs. apply bind_Ok in Hs as (leaf & _ & Hs).
  apply bind_Ok in Hs as (pc & _ & [= <-]).
  destruct (is_self_issued_cert leaf), pc as [[[] ?]|]; cbn; split; try done; lia.
Qed.

Lemma init_state_inv chain anchor policy : state_inv 0 (init_state chain anchor policy).
Proof.
  intros t Ht. assert (t = init_policy_tree) as ->.
  { unfold init_state in Ht. by destruct (anchor_name_constraints anchor); injection Ht as <-. }
  split; [split|lia|by left]; intros nd ->%list_elem_of_singleton; cbn; lia.
Qed.

Lemma init_state_explicit chain anchor policy :
  initial_explicit_policy policy = true →
  explicit_policy (init_state chain anchor policy) = 0%N.
Proof.
  intros Hp. unfold init_state. by destruct (anchor_name_constraints anchor); cbn; rewrite Hp.
Qed.

(** The tree a successful walk returns. *)
Lemma chain_walk_policy policy verifier chain anchor t :
  chain ≠ [] → chain_walk chain anchor policy verifier = Ok t →
  (initial_explicit_policy policy = true → t ≠ None) ∧
  ∀ tr, t = Some tr → tree_wf (length chain) tr ∧ tree_live (length chain) tr ∧
    (initial_policy_set policy ≠ [] → ∀ nd, nd ∈ tr → depth nd = 1 →
       valid_policy nd = OID_ANY_POLICY ∨ valid_policy nd ∈ initial_policy_set policy).
Proof.
  intros Hne Hw. unfold chain_walk in Hw.
  assert (1 ≤ length chain) as Hlen by by apply length_pos.
  apply bind_Ok in Hw as (s & Hl & Hw). apply bind_Ok in Hw as (s' & Hwrap & Hw).
  apply bind_Ok in Hw as (tree & Hi & Hw). apply bind_Ok in Hw as ([] & Hf & [= <-]).
  apply walk_loop_policy in Hl as [Hinv He]; [|done|rewrite Nat.sub_diag; apply init_state_inv].
  apply leaf_wrap_up_facts in Hwrap as [Ht He']. split.
  - intros Hx ->. rewrite (init_state_explicit chain anchor policy Hx) in He.
    apply fail_if_Ok in Hf. rewrite bool_decide_eq_true_2 in Hf by lia. done.
  - intros tr ->. rewrite Ht in Hi.
    destruct (policy_tree s) as [t0|] eqn:Ht0.
    2: { unfold intersect_user_policy_set in Hi. by destruct (initial_policy_set policy). }
    specialize (Hinv t0 Ht0) as [Hwf Hlive Hroot].
    destruct (decide (initial_policy_set policy = [])) as [Hs|Hs].
    { rewrite Hs in Hi. injection Hi as ->. split_and!; [done|by apply Hlive|done]. }
    destruct (intersect_user_policy_set_spec _ _ t0 (Some tr) Hlen (wf_depth _ _ Hwf) Hs Hi)
      as (Hwf' & Hl' & Hn). split_and!; [done..|]. intros _ nd Hnd Hd.
    apply Hn; [done|]. split; [lia|]. exists root_node. by rewrite Hd.
Qed.
End walk_policy.
