(* ===== verification/WalkNames.v ===== *)
(** * The name constraints along the walk

    What the accumulated permitted and excluded subtrees mean for the names of
    the certificates below: [update_nc] never loses an excluded subtree, and
    never widens the permitted ones as long as no form has been emptied. *)
From S2P Require Import Prelude X509 PathTypes Names Subtrees PolicyTree Verifier CertChecks ChainWalk WalkSound WalkPolicy.

(** ** Forms of names *)
Lemma same_nc_variant_spec a b :
  same_nc_variant a b = true ↔ name_type_bit a ≠ NC_EMPTY ∧ name_type_bit a = name_type_bit b.
Proof. unfold same_nc_variant. by rewrite andb_true_iff, !bool_decide_eq_true. Qed.

Lemma same_nc_variant_sym a b : same_nc_variant a b = true → same_nc_variant b a = true.
Proof. rewrite !same_nc_variant_spec. intros [? <-]. done. Qed.

Lemma same_nc_variant_trans a b c :
  same_nc_variant a b = true → same_nc_variant b c = true → same_nc_variant a c = true.
Proof. rewrite !same_nc_variant_spec. intros [? <-]. tauto. Qed.

Lemma intersects_type_bits a b :
  intersects (name_type_bit a) (name_type_bit b) = same_nc_variant a b.
Proof. by destruct a, b. Qed.

Lemma intersects_lor s t u : intersects (nc_bitor s t) u = intersects s u || intersects t u.
Proof.
  unfold intersects, nc_bitor. rewrite N.land_lor_distr_l.
  apply eq_true_iff_eq. rewrite orb_true_iff, !bool_decide_eq_true, N.lor_eq_0_iff.
  destruct (decide (N.land s u = 0%N)); tauto.
Qed.

Lemma constrain_types_spec bits l n :
  intersects (constrain_types bits l) (name_type_bit n) = true ↔
  intersects bits (name_type_bit n) = true ∨
  ∃ st, st ∈ l ∧ same_nc_variant n (base st) = true.
Proof.
  unfold constrain_types. revert bits. induction l as [|st l IH]; intros bits; cbn [foldl].
  { split; [by left|]. intros [?|(? & ?%not_elem_of_nil & _)]; done. }
  rewrite IH, intersects_lor, orb_true_iff, intersects_type_bits.
  setoid_rewrite elem_of_cons. split.
  - intros [[?|Hs%same_nc_variant_sym]|?]; naive_solver.
  - intros [?|(st' & [->|?] & Hs)]; [naive_solver| |naive_solver].
    left; right. by apply same_nc_variant_sym.
Qed.

(** ** Excluded subtrees *)

(** Every name under [st] is under an entry of [l]. *)
Definition covers (l : GeneralSubtrees) (st : GeneralSubtree) : Prop :=
  ∀ n, name_matches_subtree n st = Ok true → ∃ e, e ∈ l ∧ name_matches_subtree n e = Ok true.

Lemma covers_elem l st : st ∈ l → covers l st.
Proof. intros Hst n Hn. by exists st. Qed.

Lemma covers_mono l l' st : (∀ e, e ∈ l → e ∈ l') → covers l st → covers l' st.
Proof. intros Hl Hc n Hn. destruct (Hc n Hn) as (e & ? & ?). eauto. Qed.

Lemma excluded_by_either_incl l new e : e ∈ l → e ∈ excluded_by_either l new.
Proof.
  unfold excluded_by_either. revert l. induction new as [|x new IH]; intros l He; cbn; [done|].
  apply IH. destruct (existsb _ l); [done|]. apply elem_of_app. by left.
Qed.

Lemma excluded_by_either_covers l new st : st ∈ new → covers (excluded_by_either l new) st.
Proof.
  unfold excluded_by_either. revert l. induction new as [|x new IH]; intros l Hst;
    [by apply not_elem_of_nil in Hst|].
  apply elem_of_cons in Hst as [->|Hst]; [|by apply IH]. cbn.
  eapply covers_mono; [intros e; apply (excluded_by_either_incl _ new e)|].
  destruct (existsb _ l) eqn:He.
  - apply existsb_elem in He as (e & Hin & Hm). unfold same_subtree_in in Hm.
    rewrite !andb_true_iff, !name_in_true in Hm. destruct Hm as [_ Hm]. intros n Hn. exists e. split; [done|].
    by eapply name_matches_subtree_trans.
  - apply covers_elem, elem_of_app. right. by left.
Qed.

(** ** Permitted subtrees *)

(** A name is permitted by one list: under an entry, when the list has an
    entry of its form. *)
Definition has_form (l : GeneralSubtrees) (n : GeneralName) : Prop :=
  ∃ st, st ∈ l ∧ same_nc_variant n (base st) = true.
Definition under (l : GeneralSubtrees) (n : GeneralName) : Prop :=
  ∃ st, st ∈ l ∧ name_matches_subtree n st = Ok true.
Definition permits (l : GeneralSubtrees) (n : GeneralName) : Prop := has_form l n → under l n.

Lemma elem_of_new_kept cur new x :
  x ∈ new_kept cur new → x ∈ new ∧ (has_form cur (base x) → under cur (base x)).
Proof.
  unfold new_kept. intros [Hk Hx]%list_elem_of_filter. split; [done|].
  intros (c & Hc & Hs). destruct (filter _ cur) as [|y ys] eqn:Hf.
  - destruct (not_elem_of_nil c). rewrite <-Hf. apply list_elem_of_filter.
    split; [by apply same_nc_variant_sym|done].
  - apply any_in_true in Hk as (z & Hz & Hm). rewrite <-Hf in Hz.
    apply list_elem_of_filter in Hz as [_ Hz]. by exists z.
Qed.

Lemma elem_of_current_kept new acc c x :
  x ∈ current_kept new acc c →
  x ∈ acc ∨ (x = c ∧ (has_form new (base c) → under new (base c))).
Proof.
  unfold current_kept. destruct (filter _ new) as [|y ys] eqn:Hf.
  - rewrite elem_of_app, list_elem_of_singleton. intros [?| ->]; [by left|right].
    split; [done|]. intros (z & Hz & Hs). destruct (not_elem_of_nil z). rewrite <-Hf.
    apply list_elem_of_filter. split; [by apply same_nc_variant_sym|done].
  - destruct (existsb (name_in (base c)) (y :: ys)) eqn:He; [|by left].
    apply any_in_true in He as (z & Hz & Hm). rewrite <-Hf in Hz.
    apply list_elem_of_filter in Hz as [_ Hz].
    destruct (existsb _ acc); [by left|].
    rewrite elem_of_app, list_elem_of_singleton. intros [?| ->]; [by left|right].
    split; [done|]. intros _. by exists z.
Qed.

Lemma elem_of_permitted_by_both cur new x :
  x ∈ permitted_by_both cur new →
  (x ∈ new ∧ (has_form cur (base x) → under cur (base x))) ∨
  (x ∈ cur ∧ (has_form new (base x) → under new (base x))).
Proof.
  unfold permitted_by_both.
  assert (∀ l acc, x ∈ foldl (current_kept new) acc l →
    x ∈ acc ∨ (x ∈ l ∧ (has_form new (base x) → under new (base x)))) as Hfold.
  { induction l as [|c l IH]; intros acc; cbn; [by left|].
    intros [Hx|[Hx Hn]]%IH; [|right; split; [by right|done]].
    apply elem_of_current_kept in Hx as [?|[-> Hn]]; [by left|right].
    split; [by left|done]. }
  intros [Hx|Hx]%Hfold; [left|by right]. by apply elem_of_new_kept.
Qed.

Lemma under_trans l n st :
  name_matches_subtree n st = Ok true → under l (base st) → under l n.
Proof.
  intros Hn (c & Hc & Hm). exists c. split; [done|]. by eapply name_matches_subtree_trans.
Qed.

Lemma has_form_transfer l n st :
  name_matches_subtree n st = Ok true → has_form l n → has_form l (base st).
Proof.
  intros Hn (c & Hc & Hs). exists c. split; [done|].
  eapply same_nc_variant_trans; [|exact Hs].
  by apply same_nc_variant_sym, name_matches_same_type.
Qed.

(** A name under the intersection is under both lists, as far as each has an
    entry of its form. *)
Lemma permitted_by_both_sound cur new n :
  under (permitted_by_both cur new) n → permits cur n ∧ permits new n.
Proof.
  intros (st & Hst & Hn). unfold permits.
  destruct (elem_of_permitted_by_both _ _ _ Hst) as [[Hin Hc]|[Hin Hc]]; split; intros Hf.
  - eapply under_trans, Hc; [done|]. by eapply has_form_transfer.
  - by exists st.
  - by exists st.
  - eapply under_trans, Hc; [done|]. by eapply has_form_transfer.
Qed.

(** ** The state *)
Definition allowed (s : WorkingState) (n : GeneralName) : Prop :=
  name_allowed (nc_permitted s) (nc_excluded s) (nc_constrained_types s) n.

(** The permitted set exists once a form is constrained. *)
Definition nc_state_wf (s : WorkingState) : Prop :=
  nc_permitted s = None → nc_constrained_types s = NC_EMPTY.

(** The form of [n] has not been emptied: while it is constrained the
    permitted set has an entry of that form. *)
Definition not_emptied (s : WorkingState) (n : GeneralName) : Prop :=
  intersects (nc_constrained_types s) (name_type_bit n) = true →
  ∀ p, nc_permitted s = Some p → has_form p n.

(** A name constraint on its own allows the name. *)
Definition nc_allows (nc : NameConstraints) (n : GeneralName) : Prop :=
  (∀ p, permitted_subtrees nc = Some p → permits p n) ∧
  (∀ x st, excluded_subtrees nc = Some x → st ∈ x → name_matches_subtree n st = Ok false).

(** The value of [update_nc], field by field. *)
Lemma updated_eq nc s :
  updated nc s =
  let s := match permitted_subtrees nc with
           | None => s
           | Some new =>
               set_nc (Some (match nc_permitted s with
                             | None => new
                             | Some cur => permitted_by_both cur new
                             end)) (nc_excluded s) (constrain_types (nc_constrained_types s) new) s
           end in
  match excluded_subtrees nc with
  | None => s
  | Some x => set_nc (nc_permitted s) (excluded_by_either (nc_excluded s) x)
                (nc_constrained_types s) s
  end.
Proof.
  unfold updated, update_nc.
  destruct (permitted_subtrees nc) as [new|].
  - destruct (nc_permitted s) as [cur|]; rewrite ?intersect_permitted_Ok;
      cbn [mbind result_bind mret result_ret];
      (destruct (excluded_subtrees nc); [by rewrite union_excluded_Ok|done]).
  - cbn [mbind result_bind]. destruct (excluded_subtrees nc); [by rewrite union_excluded_Ok|done].
Qed.

Lemma updated_wf nc s : nc_state_wf s → nc_state_wf (updated nc s).
Proof.
  unfold nc_state_wf. rewrite updated_eq. by destruct (permitted_subtrees nc), (excluded_subtrees nc).
Qed.

Lemma updated_excluded nc s :
  nc_excluded (updated nc s) =
  match excluded_subtrees nc with
  | Some x => excluded_by_either (nc_excluded s) x
  | None => nc_excluded s
  end.
Proof. rewrite updated_eq. by destruct (permitted_subtrees nc), (excluded_subtrees nc). Qed.

Lemma updated_permitted nc s :
  nc_permitted (updated nc s) =
  match permitted_subtrees nc with
  | None => nc_permitted s
  | Some new => Some (match nc_permitted s with
                      | None => new | Some cur => permitted_by_both cur new end)
  end.
Proof. rewrite updated_eq. by destruct (permitted_subtrees nc), (excluded_subtrees nc). Qed.

Lemma updated_types nc s :
  nc_constrained_types (updated nc s) =
  match permitted_subtrees nc with
  | None => nc_constrained_types s
  | Some new => constrain_types (nc_constrained_types s) new
  end.
Proof. rewrite updated_eq. by destruct (permitted_subtrees nc), (excluded_subtrees nc). Qed.

Definition excluded_ok (s : WorkingState) (n : GeneralName) : Prop :=
  ∀ st, st ∈ nc_excluded s → name_matches_subtree n st = Ok false.

Lemma not_covered l st n :
  covers l st → (∀ e, e ∈ l → name_matches_subtree n e = Ok false) →
  name_matches_subtree n st = Ok false.
Proof.
  intros Hc Hl. apply name_in_false, bool_not_true. intros Hn%name_in_true.
  destruct (Hc n Hn) as (e & He & Hm). rewrite Hl in Hm; done.
Qed.

Lemma updated_excluded_ok nc s n :
  excluded_ok (updated nc s) n →
  excluded_ok s n ∧
  (∀ x st, excluded_subtrees nc = Some x → st ∈ x → name_matches_subtree n st = Ok false).
Proof.
  unfold excluded_ok. rewrite updated_excluded. intros Hx.
  destruct (excluded_subtrees nc) as [x|]; [|done]. split.
  - intros st Hst. by apply Hx, excluded_by_either_incl.
  - intros ? st [= <-] Hst. eapply not_covered; [by apply excluded_by_either_covers|exact Hx].
Qed.

(** One update: what the new state allows, the old one and the constraint
    allow. *)
Lemma updated_allowed nc s n :
  nc_state_wf s → not_emptied s n → allowed (updated nc s) n → allowed s n ∧ nc_allows nc n.
Proof.
  intros Hwf Hne [Hx Hp]. destruct (updated_excluded_ok nc s n Hx) as [Hx1 Hx2].
  rewrite updated_permitted, updated_types in Hp.
  unfold allowed, name_allowed, nc_allows.
  destruct (permitted_subtrees nc) as [new|]; [|naive_solver].
  specialize (Hp _ eq_refl). rewrite constrain_types_spec in Hp.
  destruct (nc_permitted s) as [cur|] eqn:Hcur.
  - split; split; [done| |intros p [= <-]|done].
    + intros p [= <-] Ht. destruct (permitted_by_both_sound cur new n) as [Hc _].
      { apply Hp. by left. }
      apply Hc. by apply Hne.
    + intros Hf. destruct (permitted_by_both_sound cur new n) as [_ Hn]; [|by apply Hn].
      apply Hp. by right.
  - split; split; [done|done|intros p [= <-]|done]. intros Hf. apply Hp. by right.
Qed.

(** A sequence of updates. *)
Lemma nc_fold_allowed ncs s n :
  nc_state_wf s → allowed (foldl (λ s nc, updated nc s) s ncs) n →
  (∀ k, k < length ncs → not_emptied (foldl (λ s nc, updated nc s) s (take k ncs)) n) →
  allowed s n ∧ ∀ nc, nc ∈ ncs → nc_allows nc n.
Proof.
  revert s. induction ncs as [|nc ncs IH]; intros s Hwf Ha Hne.
  { split; [done|]. intros nc Hnc. by apply not_elem_of_nil in Hnc. }
  cbn in Ha. destruct (IH (updated nc s)) as [Ha' Hncs]; [by apply updated_wf|done| |].
  { intros k Hk. apply (Hne (S k)). cbn. lia. }
  destruct (updated_allowed nc s n Hwf) as [Hs Hnc]; [|done|].
  { apply (Hne 0). cbn. lia. }
  split; [done|]. intros nc' [->|?]%elem_of_cons; auto.
Qed.

Lemma nc_fold_excluded ncs s n :
  excluded_ok (foldl (λ s nc, updated nc s) s ncs) n →
  excluded_ok s n ∧ ∀ nc x st, nc ∈ ncs → excluded_subtrees nc = Some x → st ∈ x →
    name_matches_subtree n st = Ok false.
Proof.
  revert s. induction ncs as [|nc ncs IH]; intros s Ha.
  { split; [done|]. intros nc ? ? Hnc. by apply not_elem_of_nil in Hnc. }
  cbn in Ha. apply IH in Ha as [Ha Hncs]. apply updated_excluded_ok in Ha as [Hs Hnc].
  split; [done|]. intros nc' x st [->|?]%elem_of_cons; eauto.
Qed.

(** ** The state the walk checks a certificate against *)
Definition nc_fields (s : WorkingState) : option GeneralSubtrees * GeneralSubtrees * NcTypeMask :=
  (nc_permitted s, nc_excluded s, nc_constrained_types s).

Lemma nc_fields_eq s s' :
  nc_fields s = nc_fields s' →
  nc_permitted s = nc_permitted s' ∧ nc_excluded s = nc_excluded s' ∧
  nc_constrained_types s = nc_constrained_types s'.
Proof. unfold nc_fields. by intros [= -> -> ->]. Qed.

Lemma updated_fields nc s s' :
  nc_fields s = nc_fields s' → nc_fields (updated nc s) = nc_fields (updated nc s').
Proof.
  intros (Hp & Hx & Ht)%nc_fields_eq. unfold nc_fields.
  by rewrite !updated_permitted, !updated_excluded, !updated_types, Hp, Hx, Ht.
Qed.

Lemma allowed_fields s s' n : nc_fields s = nc_fields s' → allowed s n → allowed s' n.
Proof. unfold allowed. by intros (-> & -> & ->)%nc_fields_eq. Qed.

Section walk_names.
Context `{PathAsn1} {V : Type} `{SignatureVerifier V}.
Implicit Types (policy : ValidationPolicy) (chain : list Certificate) (anchor : TrustAnchor)
  (verifier : V).

(** The name constraints of the certificates above index [i], the one next to
    the anchor first. *)
Definition ncs_above chain (i : nat) : list NameConstraints :=
  omap (λ c, find_cert_ext c OID_NAME_CONSTRAINTS) (reverse (drop (S i) chain)).

Definition nc_state_at chain anchor policy (i : nat) : WorkingState :=
  foldl (λ s nc, updated nc s) (init_state chain anchor policy) (ncs_above chain i).

Lemma ncs_above_step chain i c :
  chain !! S i = Some c →
  ncs_above chain i =
  ncs_above chain (S i) ++ option_list (find_cert_ext c OID_NAME_CONSTRAINTS).
Proof.
  intros Hc. unfold ncs_above. rewrite (drop_S _ _ _ Hc), reverse_cons, omap_app.
  cbn. by destruct (find_cert_ext c OID_NAME_CONSTRAINTS).
Qed.

Lemma find_cert_ext_is {T} `{DecodeOwned T} cert oid (o : option T) :
  ext_is cert oid o → find_cert_ext cert oid = o.
Proof.
  unfold ext_is, find_cert_ext. destruct (find_ext cert oid) as [e|]; cbn; [|done].
  by intros (t & -> & ->).
Qed.

Lemma nc_step_fields i cert s s' :
  nc_step i cert s = Ok s' →
  s' = match find_cert_ext cert OID_NAME_CONSTRAINTS with
       | Some nc => updated nc s | None => s end.
Proof.
  unfold nc_step, cert_name_constraints. intros Hs.
  apply bind_Ok in Hs as (nc & Hnc & Hs).
  apply bind_Ok in Hnc as (nc' & Hnc'%map_err_Ok%try_find_cert_ext_Ok & Hnc).
  apply bind_Ok in Hnc as ([] & _ & [= <-]). rewrite (find_cert_ext_is _ _ _ Hnc').
  destruct nc' as [nc|]; [|by injection Hs as <-]. rewrite update_nc_Ok in Hs. by injection Hs as <-.
Qed.

Lemma counter_step_fields i cert s s' :
  counter_step i cert s = Ok s' → nc_fields s' = nc_fields s.
Proof.
  unfold counter_step. intros Hs. apply bind_Ok in Hs as (pc & _ & Hs).
  apply bind_Ok in Hs as (iap & _ & [= <-]).
  by destruct (is_self_issued_cert cert), pc as [[[] []]|], iap.
Qed.

Lemma issuer_step_fields policy chain d i cert cp s s' :
  0 < i → issuer_step policy chain d i cert cp s = Ok s' →
  nc_fields s' = nc_fields (match find_cert_ext cert OID_NAME_CONSTRAINTS with
                            | Some nc => updated nc s | None => s end).
Proof.
  intros Hi. unfold issuer_step, mapping_step. rewrite decide_True by done. intros Hs.
  apply bind_Ok in Hs as ([] & _ & Hs). apply bind_Ok in Hs as (s1 & Hm & Hs).
  apply bind_Ok in Hs as (s2 & Hc%counter_step_fields & Hn%nc_step_fields).
  apply bind_Ok in Hm as (? & _ & Hm). apply bind_Ok in Hm as (? & _ & [= <-]).
  subst s'. destruct (find_cert_ext cert OID_NAME_CONSTRAINTS); [|done].
  by apply updated_fields.
Qed.

Lemma init_state_nc_wf chain anchor policy : nc_state_wf (init_state chain anchor policy).
Proof.
  unfold nc_state_wf, init_state. destruct (anchor_name_constraints anchor) as [nc|]; [|done].
  cbn. by intros ->.
Qed.

Lemma nc_state_at_wf chain anchor policy i : nc_state_wf (nc_state_at chain anchor policy i).
Proof.
  unfold nc_state_at. generalize (init_state_nc_wf chain anchor policy).
  generalize (init_state chain anchor policy) as s. induction (ncs_above chain i) as [|nc ncs IH];
    intros s Hs; [done|]. cbn. apply IH. by apply updated_wf.
Qed.

(** The names of the certificate at [i] are allowed by that state; a
    self-issued certificate other than the leaf is exempt. *)
Definition names_ok chain anchor policy (i : nat) (c : Certificate) : Prop :=
  (i = 0 ∨ is_self_issued_cert c = false) →
  ∃ san, ext_is c OID_SUBJECT_ALT_NAME san ∧
    ∀ n, n ∈ constrained_names c san → allowed (nc_state_at chain anchor policy i) n.

Lemma process_cert_names policy verifier chain anchor i cert s s' :
  chain !! i = Some cert →
  nc_fields s = nc_fields (nc_state_at chain anchor policy i) →
  process_cert policy verifier chain i cert s = Ok s' →
  names_ok chain anchor policy i cert ∧
  (∀ j, i = S j → nc_fields s' = nc_fields (nc_state_at chain anchor policy j)).
Proof.
  intros Hc Hf Hp.
  destruct (process_cert_Ok _ _ _ _ _ _ _ Hp) as [_ (cp & san & s1 & s2 & _ & Hpc & Hn & _ & His & ->)].
  apply policy_checks_Ok in Hpc as [_ (t & _ & -> & _)].
  apply name_checks_Ok in Hn as [Hsan Hn]. split.
  - intros Hi. exists san. split; [done|]. specialize (Hn Hi). cbn in Hn.
    apply nc_fields_eq in Hf as (Hp1 & Hp2 & Hp3). rewrite Hp1, Hp2, Hp3 in Hn.
    intros n Hin. eapply check_name_constraints_Ok; [apply nc_state_at_wf|exact Hn|exact Hin].
  - intros j ->. apply issuer_step_fields in His; [|lia].
    change (nc_fields s2 = nc_fields (nc_state_at chain anchor policy j)). rewrite His.
    unfold nc_state_at. rewrite (ncs_above_step chain j cert Hc), foldl_app.
    destruct (find_cert_ext cert OID_NAME_CONSTRAINTS); cbn; [by apply updated_fields|done].
Qed.

Lemma walk_loop_names policy verifier chain anchor k s s' :
  (∀ j, k = S j → nc_fields s = nc_fields (nc_state_at chain anchor policy j)) →
  walk_loop policy verifier chain k s = Ok s' →
  ∀ i c, i < k → chain !! i = Some c → names_ok chain anchor policy i c.
Proof.
  revert s. induction k as [|k IH]; intros s Hf Hw i c Hi Hc; [lia|].
  cbn in Hw. apply bind_Ok in Hw as (cert & Hcert%index_Ok & Hw).
  apply bind_Ok in Hw as (s1 & Hp & Hw).
  destruct (process_cert_names policy verifier chain anchor k cert s s1 Hcert (Hf k eq_refl) Hp)
    as [Hn Hf']. destruct (decide (i = k)) as [->|].
  - rewrite Hc in Hcert. by injection Hcert as <-.
  - eapply (IH s1); [done|done|lia|done].
Qed.

Lemma chain_walk_names policy verifier chain anchor t :
  chain_walk chain anchor policy verifier = Ok t →
  ∀ i c, chain !! i = Some c → names_ok chain anchor policy i c.
Proof.
  intros Hw i c Hc. unfold chain_walk in Hw. apply bind_Ok in Hw as (s & Hw & _).
  eapply walk_loop_names; [|exact Hw|by eapply lookup_lt_Some|done].
  intros j Hj. unfold nc_state_at, ncs_above. by rewrite drop_ge by lia.
Qed.

Lemma elem_of_ncs_above chain i j c nc :
  i < j → chain !! j = Some c → find_cert_ext c OID_NAME_CONSTRAINTS = Some nc →
  nc ∈ ncs_above chain i.
Proof.
  intros Hij Hc Hnc. unfold ncs_above. apply list_elem_of_omap. exists c. split; [|done].
  apply elem_of_reverse, list_elem_of_lookup. exists (j - S i).
  rewrite lookup_drop. by replace (S i + (j - S i)) with j by lia.
Qed.
End walk_names.
