(* ===== verification/ValidatePath.v ===== *)
(** * validate_path (pkix-path/src/lib.rs)

    The entry points, and the guarantees they give: soundness of a validated
    path, choice of the anchor, absence of panics, and what holds for the
    names and the policies of the path.  The last section records, on concrete
    chains, two behaviours that depart from RFC 5280. *)
From S2P Require Import Prelude X509 PathTypes Samples Names Subtrees PolicyTree Verifier CertChecks ChainWalk WalkSound WalkPolicy WalkNames.

Section validate_path.
Context `{PathAsn1} {V : Type} `{SignatureVerifier V}.

Definition policy_tree_node (n : PolicyNode) : PolicyTreeNode := {|
  ptn_depth := depth n; ptn_valid_policy := valid_policy n;
  ptn_expected_policy_set := expected_policy_set n; ptn_qualifiers := qualifiers n |}.

(** The value built when the walk succeeds. *)
Definition validated_path (chain : list Certificate) (anchor_index : nat)
    (final_policy_tree : option (list PolicyNode)) : Result ValidatedPath :=
  leaf ← index chain 0;
  let leaf_tbs := tbs_certificate leaf in
  mret {| anchor_index := anchor_index;
          path_depth := length chain - 1;
          leaf_subject := subject leaf_tbs;
          leaf_issuer := issuer leaf_tbs;
          leaf_serial := serial_number leaf_tbs;
          leaf_spki := subject_public_key_info leaf_tbs;
          valid_policy_tree := fmap (M:=list) policy_tree_node <$> final_policy_tree |}.

(** The two [continue] guards of the loop over the anchors. *)
Definition anchor_eligible (last_cert : Certificate) (anchor : TrustAnchor) : bool :=
  let is_self_issued := names_match (issuer (tbs_certificate last_cert))
                          (subject (tbs_certificate last_cert)) in
  names_match (anchor_subject anchor) (issuer (tbs_certificate last_cert)) &&
  negb (is_self_issued &&
        negb (spki_key_matches (anchor_spki anchor)
                (subject_public_key_info (tbs_certificate last_cert)))).

(** [for (anchor_index, anchor) in anchors.iter().enumerate()] *)
Fixpoint try_anchors (chain : list Certificate) (policy : ValidationPolicy) (verifier : V)
    (last_cert : Certificate) (i : nat) (anchors : list TrustAnchor) (last_err : Error) :
    Result ValidatedPath :=
  match anchors with
  | [] => Err last_err
  | anchor :: rest =>
      if anchor_eligible last_cert anchor then
        match chain_walk chain anchor policy verifier with
        | Ok tree => validated_path chain i tree
        | Err e => try_anchors chain policy verifier last_cert (S i) rest e
        | Panic => Panic
        end
      else try_anchors chain policy verifier last_cert (S i) rest last_err
  end.

Definition validate_path (chain : list Certificate) (anchors : list TrustAnchor)
    (policy : ValidationPolicy) (verifier : V) : Result ValidatedPath :=
  _ ← check_inputs chain anchors;
  _ ← check_oid_consistency chain;
  above ← slice_range 1 (length chain) chain;
  let num_non_si_intermediates := length (filter (λ c, is_self_issued_cert c = false) above) in
  _ ← fail_if (bool_decide (max_path_len policy < N.of_nat num_non_si_intermediates)%N)
        PathTooLong;
  last_cert ← ok_or (last chain) NoTrustedPath;
  try_anchors chain policy verifier last_cert 0 anchors NoTrustedPath.

Definition validate_path_with_profile {P} `{Profile P} (chain : list Certificate)
    (anchors : list TrustAnchor) (profile : P) (now_unix : N) (verifier : V) :
    Result ValidatedPath :=
  let policy := profile_policy profile now_unix in
  let policy := set_current_time_unix now_unix policy in
  validate_path chain anchors policy verifier.

Implicit Types (chain : list Certificate) (policy : ValidationPolicy) (verifier : V).

(** ** Shape of a success *)
Lemma validated_path_Ok chain i t vp :
  validated_path chain i t = Ok vp ↔
  ∃ leaf, chain !! 0 = Some leaf ∧
    vp = {| anchor_index := i; path_depth := length chain - 1;
            leaf_subject := subject (tbs_certificate leaf);
            leaf_issuer := issuer (tbs_certificate leaf);
            leaf_serial := serial_number (tbs_certificate leaf);
            leaf_spki := subject_public_key_info (tbs_certificate leaf);
            valid_policy_tree := fmap (M:=list) policy_tree_node <$> t |}.
Proof.
  unfold validated_path. rewrite bind_Ok. setoid_rewrite index_Ok.
  apply exist_proper; intros leaf. split; [intros [? [= <-]]|intros [? ->]]; done.
Qed.

(** The anchor that is used: the first eligible one whose walk succeeds. *)
Lemma try_anchors_Ok chain policy verifier lc anchors k e vp :
  try_anchors chain policy verifier lc k anchors e = Ok vp ↔
  ∃ i a t, anchors !! i = Some a ∧ anchor_eligible lc a = true ∧
    chain_walk chain a policy verifier = Ok t ∧ validated_path chain (k + i) t = Ok vp ∧
    ∀ j b, j < i → anchors !! j = Some b → anchor_eligible lc b = true →
      ∃ e', chain_walk chain b policy verifier = Err e'.
Proof.
  revert k e. induction anchors as [|a anchors IH]; intros k e; cbn [try_anchors].
  { split; [done|]. by intros (i & a & t & ? & _). }
  destruct (anchor_eligible lc a) eqn:Hel; [destruct (chain_walk chain a policy verifier) as [t|e'|] eqn:Hw|].
  - split.
    + intros Hv. exists 0, a, t. rewrite Nat.add_0_r. split_and!; [done..|]. intros; lia.
    + intros ([|i] & b & t' & Hb & _ & Hw' & Hv & Hj).
      * injection Hb as <-. rewrite Nat.add_0_r in Hv. congruence.
      * destruct (Hj 0 a) as [? ?]; [lia|done|done|congruence].
  - rewrite IH. split.
    + intros (i & b & t & Hb & Hel' & Hw' & Hv & Hj). exists (S i), b, t.
      rewrite Nat.add_succ_r. split_and!; [done..|].
      intros [|j] c Hlt Hc Hec; [injection Hc as <-; eauto|]. eapply (Hj j); [lia|done|done].
    + intros ([|i] & b & t & Hb & Hel' & Hw' & Hv & Hj); [injection Hb as <-; congruence|].
      exists i, b, t. rewrite Nat.add_succ_r in Hv. split_and!; [done..|].
      intros j c Hlt Hc Hec. apply (Hj (S j) c); [lia|done|done].
  - split; [done|]. intros ([|i] & b & t & Hb & Hel' & Hw' & Hv & Hj).
    + injection Hb as <-. congruence.
    + destruct (Hj 0 a) as [? ?]; [lia|done|done|congruence].
  - rewrite IH. split.
    + intros (i & b & t & Hb & Hel' & Hw' & Hv & Hj). exists (S i), b, t.
      rewrite Nat.add_succ_r. split_and!; [done..|].
      intros [|j] c Hlt Hc Hec; [injection Hc as <-; congruence|]. eapply (Hj j); [lia|done|done].
    + intros ([|i] & b & t & Hb & Hel' & Hw' & Hv & Hj); [injection Hb as <-; congruence|].
      exists i, b, t. rewrite Nat.add_succ_r in Hv. split_and!; [done..|].
      intros j c Hlt Hc Hec. apply (Hj (S j) c); [lia|done|done].
Qed.

(** The conditions on the inputs, independent of the anchor. *)
Record inputs_ok chain (anchors : list TrustAnchor) policy : Prop := {
  in_chain : chain ≠ [];
  in_anchors : anchors ≠ [];
  in_distinct : ∀ i j a b, i < j → chain !! i = Some a → chain !! j = Some b →
    ¬ same_identity a b;
  in_oids : ∀ c, c ∈ chain →
    alg_oid (signature_algorithm c) = alg_oid (tbs_signature (tbs_certificate c));
  in_length : (N.of_nat (length (filter (λ c, is_self_issued_cert c = false) (drop 1 chain)))
               ≤ max_path_len policy)%N }.

Lemma validate_path_Ok chain anchors policy verifier vp :
  validate_path chain anchors policy verifier = Ok vp ↔
  inputs_ok chain anchors policy ∧
  ∃ lc, last chain = Some lc ∧
    try_anchors chain policy verifier lc 0 anchors NoTrustedPath = Ok vp.
Proof.
  unfold validate_path. split.
  - intros Hv. apply bind_Ok in Hv as ([] & (Hc & Ha & Hd)%check_inputs_Ok & Hv).
    apply bind_Ok in Hv as ([] & Ho & Hv). rewrite check_oid_consistency_Ok in Ho.
    pose proof (length_pos chain Hc). rewrite slice_range_Ok in Hv by lia. cbn in Hv.
    apply bind_Ok in Hv as ([] & Hl%fail_if_Ok%bool_decide_eq_false & Hv).
    apply bind_Ok in Hv as (lc & Hlc%ok_or_Ok & Hv).
    rewrite take_ge in Hl by (rewrite length_drop; lia).
    split; [split; [done..|lia]|]. by exists lc.
  - intros [[Hc Ha Hd Ho Hl] (lc & Hlc & Hv)]. apply bind_Ok. exists tt.
    split; [by apply check_inputs_Ok|]. apply bind_Ok. exists tt.
    split; [by apply check_oid_consistency_Ok|].
    pose proof (length_pos chain Hc). rewrite slice_range_Ok by lia. cbn [mbind result_bind].
    rewrite take_ge by (rewrite length_drop; lia).
    apply bind_Ok. exists tt. split; [apply fail_if_Ok, bool_decide_eq_false; lia|].
    rewrite Hlc. done.
Qed.

(** The walk behind a success. *)
Lemma validate_path_walk chain anchors policy verifier vp :
  validate_path chain anchors policy verifier = Ok vp →
  ∃ a t, anchors !! anchor_index vp = Some a ∧
    chain_walk chain a policy verifier = Ok t ∧
    valid_policy_tree vp = fmap (M:=list) policy_tree_node <$> t.
Proof.
  rewrite validate_path_Ok. intros (_ & lc & _ & Hv).
  apply try_anchors_Ok in Hv as (i & a & t & Ha & _ & Hw & Hv & _).
  apply validated_path_Ok in Hv as (leaf & _ & ->). by exists a, t.
Qed.

(** The result describes the first certificate and names an anchor. *)
Lemma validate_path_leaf chain anchors policy verifier vp :
  validate_path chain anchors policy verifier = Ok vp →
  ∃ leaf rest a, chain = leaf :: rest ∧ anchors !! anchor_index vp = Some a ∧
    leaf_subject vp = subject (tbs_certificate leaf) ∧
    leaf_issuer vp = issuer (tbs_certificate leaf) ∧
    leaf_serial vp = serial_number (tbs_certificate leaf) ∧
    leaf_spki vp = subject_public_key_info (tbs_certificate leaf).
Proof.
  rewrite validate_path_Ok. intros (_ & lc & _ & Hv).
  apply try_anchors_Ok in Hv as (i & a & t & Ha & _ & _ & Hv & _).
  apply validated_path_Ok in Hv as (leaf & Hl & ->). destruct chain as [|c rest]; [done|].
  injection Hl as ->. by exists leaf, rest, a.
Qed.

Lemma no_panic_try_anchors chain policy verifier lc anchors k e :
  chain ≠ [] → no_panic (try_anchors chain policy verifier lc k anchors e).
Proof.
  intros Hc. revert k e. induction anchors as [|a anchors IH]; intros k e; cbn; [done|].
  destruct (anchor_eligible lc a); [|apply IH].
  pose proof (no_panic_chain_walk chain a policy verifier Hc) as Hw.
  destruct (chain_walk chain a policy verifier); [|apply IH|done].
  unfold validated_path, index. by destruct chain.
Qed.

Lemma no_panic_validate_path chain anchors policy verifier :
  no_panic (validate_path chain anchors policy verifier).
Proof.
  unfold validate_path.
  destruct (check_inputs chain anchors) as [[]|e|] eqn:Hin;
    [|done|by destruct (no_panic_check_inputs chain anchors)].
  apply check_inputs_Ok in Hin as [Hc _]. cbn [mbind result_bind].
  apply no_panic_bind; [unfold check_oid_consistency; auto with pkix|intros _ _].
  pose proof (length_pos chain Hc). rewrite slice_range_Ok by lia. cbn [mbind result_bind].
  apply no_panic_bind; [auto with pkix|intros _ _].
  apply no_panic_bind; [auto with pkix|intros lc _].
  by apply no_panic_try_anchors.
Qed.

(** The error of the loop: the last one seen. *)
Lemma try_anchors_Err chain policy verifier lc anchors k e0 e :
  try_anchors chain policy verifier lc k anchors e0 = Err e →
  (e = e0 ∧ ∀ a, a ∈ anchors → anchor_eligible lc a = false) ∨
  (∃ a, a ∈ anchors ∧ anchor_eligible lc a = true ∧ chain_walk chain a policy verifier = Err e).
Proof.
  revert k e0. induction anchors as [|a anchors IH]; intros k e0; cbn.
  { intros [= <-]. left. split; [done|]. intros a Ha. by apply not_elem_of_nil in Ha. }
  destruct (anchor_eligible lc a) eqn:Hel.
  - destruct (chain_walk chain a policy verifier) as [t|e'|] eqn:Hw; [|..].
    + unfold validated_path, index. by destruct (chain !! 0).
    + intros [[-> Hn]|(b & Hb & Hrest)]%IH; right.
      * exists a. split_and!; [by left|done..].
      * exists b. split; [by right|done].
    + done.
  - intros [[-> Hn]|(b & Hb & Hrest)]%IH; [left|right].
    + split; [done|]. intros b [->|?]%elem_of_cons; auto.
    + exists b. split; [by right|done].
Qed.
End validate_path.

(** ** Properties *)
Section properties.
Context `{PathAsn1} {V : Type} `{SignatureVerifier V}.
Implicit Types (chain : list Certificate) (policy : ValidationPolicy) (verifier : V).

(** C1: a validated path has valid inputs, and every certificate of it, at its
    index, has a signature by the key above it (the next certificate's, at the
    top the key of the anchor that was chosen), an issuer name that matches the
    subject above it (unless that certificate is identified by its SAN), an
    unexpired validity, an allowed algorithm, only known critical extensions;
    the issuers are authorities with the key usage asked for and within their
    path-length constraints, and the leaf has the names, usages, policies and
    attributes asked for. *)
Theorem validate_path_sound chain anchors policy verifier vp
    (Hv : validate_path chain anchors policy verifier = Ok vp) :
  inputs_ok chain anchors policy ∧
  ∃ a, anchors !! anchor_index vp = Some a ∧
    ∀ i c, chain !! i = Some c → cert_ok policy verifier chain a i c.
Proof.
  split; [by apply validate_path_Ok in Hv as [? _]|].
  destruct (validate_path_walk _ _ _ _ _ Hv) as (a & t & Ha & Hw & _).
  exists a. split; [done|]. by eapply chain_walk_sound.
Qed.

(** C2: no name of a certificate of a validated path (self-issued issuers
    aside) lies under a subtree that the anchor or a certificate above it
    excludes; and a name whose form was never emptied by the intersections
    above it lies, for each of those constraints with a permitted subtree of
    its form, under one of them. *)
Theorem validate_path_names_sound chain anchors policy verifier vp
    (Hv : validate_path chain anchors policy verifier = Ok vp) i c
    (Hc : chain !! i = Some c) (Hi : i = 0 ∨ is_self_issued_cert c = false) :
  ∃ a san, anchors !! anchor_index vp = Some a ∧ ext_is c OID_SUBJECT_ALT_NAME san ∧
    ∀ n, n ∈ constrained_names c san →
      (∀ nc x st, nc ∈ option_list (anchor_name_constraints a) ++ ncs_above chain i →
         excluded_subtrees nc = Some x → st ∈ x → name_matches_subtree n st = Ok false) ∧
      ((∀ j, j < length (ncs_above chain i) → not_emptied
          (foldl (λ s nc, updated nc s) (init_state chain a policy)
             (take j (ncs_above chain i))) n) →
       ∀ nc p, nc ∈ option_list (anchor_name_constraints a) ++ ncs_above chain i →
         permitted_subtrees nc = Some p → has_form p n → under p n).
Proof.
  destruct (validate_path_walk _ _ _ _ _ Hv) as (a & t & Ha & Hw & _).
  destruct (chain_walk_names policy verifier chain a t Hw i c Hc Hi) as (san & Hsan & Hn).
  exists a, san. split_and!; [done..|]. intros n Hin. specialize (Hn n Hin).
  destruct (nc_fold_excluded (ncs_above chain i) (init_state chain a policy) n) as [Hx Hxs];
    [exact (proj1 Hn)|]. split.
  - intros nc x st [Hnc|Hnc]%elem_of_app He Hst; [|by eapply Hxs].
    apply elem_of_option_list in Hnc. apply Hx. unfold init_state. rewrite Hnc. cbn.
    by rewrite He.
  - intros Hne. destruct (nc_fold_allowed (ncs_above chain i) (init_state chain a policy) n)
      as [[_ Hp] Hps]; [apply init_state_nc_wf|done|done|].
    intros nc p [Hnc|Hnc]%elem_of_app Hperm Hf.
    + apply elem_of_option_list in Hnc. unfold init_state in Hp. rewrite Hnc in Hp.
      cbn in Hp. rewrite Hperm in Hp. apply (Hp p eq_refl), constrain_types_spec. by right.
    + by apply (Hps nc Hnc).
Qed.

(** C3: with an explicit policy required from the start a validated path
    carries a policy tree; the tree of a validated path has no node deeper
    than the chain, a node for the leaf, no dead branch, and at depth 1 only
    anyPolicy or policies of the user's set when one is given. *)
Theorem validate_path_policy chain anchors policy verifier vp
    (Hv : validate_path chain anchors policy verifier = Ok vp) :
  (initial_explicit_policy policy = true → valid_policy_tree vp ≠ None) ∧
  ∀ tr, valid_policy_tree vp = Some tr → ∃ t, tr = policy_tree_node <$> t ∧
    tree_wf (length chain) t ∧ tree_live (length chain) t ∧
    (initial_policy_set policy ≠ [] → ∀ nd, nd ∈ t → depth nd = 1 →
       valid_policy nd = OID_ANY_POLICY ∨ valid_policy nd ∈ initial_policy_set policy).
Proof.
  assert (chain ≠ []) as Hne by (apply validate_path_Ok in Hv as [[] _]; done).
  destruct (validate_path_walk _ _ _ _ _ Hv) as (a & t & _ & Hw & ->).
  destruct (chain_walk_policy policy verifier chain a t Hne Hw) as [Hex Htr]. split.
  - intros He. destruct t; [done|]. by destruct (Hex He).
  - intros tr. destruct t as [t|]; [|done]. intros [= <-]. exists t.
    split; [done|]. by apply Htr.
Qed.

(** C4: validation succeeds exactly when the inputs are valid and some
    eligible anchor (by name, and by key for a self-issued last certificate)
    has a walk that succeeds; it then returns the first such anchor, the
    leaf's data, the depth and the policy tree of that walk. *)
Theorem validate_path_anchor chain anchors policy verifier vp :
  validate_path chain anchors policy verifier = Ok vp ↔
  inputs_ok chain anchors policy ∧
  ∃ lc leaf i a t, last chain = Some lc ∧ chain !! 0 = Some leaf ∧ anchors !! i = Some a ∧
    anchor_eligible lc a = true ∧ chain_walk chain a policy verifier = Ok t ∧
    (∀ j b, j < i → anchors !! j = Some b → anchor_eligible lc b = true →
       ∃ e, chain_walk chain b policy verifier = Err e) ∧
    vp = {| anchor_index := i; path_depth := length chain - 1;
            leaf_subject := subject (tbs_certificate leaf);
            leaf_issuer := issuer (tbs_certificate leaf);
            leaf_serial := serial_number (tbs_certificate leaf);
            leaf_spki := subject_public_key_info (tbs_certificate leaf);
            valid_policy_tree := fmap (M:=list) policy_tree_node <$> t |}.
Proof.
  rewrite validate_path_Ok. setoid_rewrite try_anchors_Ok. cbn [Nat.add].
  setoid_rewrite validated_path_Ok. split.
  - intros (Hin & lc & Hlc & i & a & t & ? & ? & ? & (leaf & ? & ?) & ?).
    split; [done|]. by exists lc, leaf, i, a, t.
  - intros (Hin & lc & leaf & i & a & t & ? & ? & ? & ? & ? & ? & ?).
    split; [done|]. exists lc. split; [done|]. exists i, a, t. split_and!; try done.
    by exists leaf.
Qed.

(** C5: validation never panics: the indices into the chain and the slices of
    it, of host names, domains, URIs and address constraints are in range, and
    no subtraction underflows, neither of those lengths nor of the depths of
    the policy tree; nor does the iterator behind the comparison of names, of
    whose answer the functions above use the value only. *)
Theorem validate_path_no_panic chain anchors policy verifier :
  validate_path chain anchors policy verifier ≠ Panic ∧ ∀ b, normalized_bytes b ≠ Panic.
Proof.
  split; [apply no_panic_validate_path|]. intros b. by rewrite normalized_bytes_Ok.
Qed.

(** Once the inputs are valid, the error is [NoTrustedPath] when no anchor
    is eligible, and otherwise the error of the walk from an eligible
    anchor. *)
Theorem validate_path_error chain anchors policy verifier e lc
    (Hin : inputs_ok chain anchors policy) (Hlc : last chain = Some lc)
    (Hv : validate_path chain anchors policy verifier = Err e) :
  (e = NoTrustedPath ∧ ∀ a, a ∈ anchors → anchor_eligible lc a = false) ∨
  (∃ a, a ∈ anchors ∧ anchor_eligible lc a = true ∧
        chain_walk chain a policy verifier = Err e).
Proof.
  destruct Hin as [Hc Ha Hd Ho Hl]. unfold validate_path in Hv.
  rewrite (proj2 (check_inputs_Ok chain anchors)) in Hv by done.
  rewrite (proj2 (check_oid_consistency_Ok chain) Ho) in Hv. cbn [mbind result_bind] in Hv.
  pose proof (length_pos chain Hc). rewrite slice_range_Ok in Hv by lia.
  cbn [mbind result_bind] in Hv. rewrite take_ge in Hv by (rewrite length_drop; lia).
  rewrite bool_decide_eq_false_2 in Hv by lia. cbn [mbind result_bind fail_if] in Hv.
  rewrite Hlc in Hv. cbn [ok_or mbind result_bind] in Hv. by eapply try_anchors_Err.
Qed.

(** Whatever clock a profile uses, a path validated with it is valid at
    the time the caller gives. *)
Theorem validate_path_with_profile_time {P} `{Profile P} chain anchors (profile : P) now
    verifier vp
    (Hv : validate_path_with_profile chain anchors profile now verifier = Ok vp) i c
    (Hc : chain !! i = Some c) :
  (to_unix_secs (not_before (tbs_certificate c)) ≤ now ≤
   to_unix_secs (not_after (tbs_certificate c)))%N.
Proof.
  unfold validate_path_with_profile in Hv.
  destruct (validate_path_walk _ _ _ _ _ Hv) as (a & t & _ & Hw & _).
  by destruct (chain_walk_sound _ _ _ _ _ Hw i c Hc).
Qed.
End properties.

(** ** Witnesses *)
Definition wit_chain : list Certificate :=
  [ sample_cert "ca1" "leaf" 2 [sample_ext OID_SUBJECT_ALT_NAME (2%N :: str "a.b.test")];
    sample_ca "root" "ca1" 1 [sample_ext OID_NAME_CONSTRAINTS (0%N :: str "b.test")] ].

Definition wit_result (t : option (list PolicyTreeNode)) : ValidatedPath := {|
  anchor_index := 1; path_depth := 1;
  leaf_subject := sample_name "leaf"; leaf_issuer := sample_name "ca1"; leaf_serial := [2]%N;
  leaf_spki := sample_spki (str "leaf"); valid_policy_tree := t |}.

Definition wit_anchors : list TrustAnchor := [sample_anchor "other"; sample_anchor "root"].

Example wit_chain_validates :
  validate_path wit_chain wit_anchors sample_policies MkSampleVerifier = Ok (wit_result None).
Proof. vm_compute. reflexivity. Qed.

Lemma validate_path_sound_witness :
  ∃ a, wit_anchors !! 1 = Some a ∧
    ∀ i c, wit_chain !! i = Some c → cert_ok sample_policies MkSampleVerifier wit_chain a i c.
Proof.
  exact (proj2 (validate_path_sound wit_chain wit_anchors sample_policies MkSampleVerifier
    (wit_result None) wit_chain_validates)).
Defined.

Lemma validate_path_names_sound_witness :
  under [dns_subtree (str "b.test")] (DnsName (str "a.b.test")).
Proof.
  destruct (validate_path_names_sound wit_chain wit_anchors sample_policies MkSampleVerifier
    (wit_result None) wit_chain_validates 0 _ eq_refl (or_introl eq_refl))
    as (a & san & Ha & Hsan & Hn).
  injection Ha as <-. destruct Hsan as (s & Hs & ->). vm_compute in Hs. injection Hs as <-.
  refine (proj2 (Hn (DnsName (str "a.b.test")) _) _
    {| permitted_subtrees := Some [dns_subtree (str "b.test")]; excluded_subtrees := None |}
    _ _ eq_refl _).
  - right. left.
  - intros [|j] Hj Hx; [by vm_compute in Hx|vm_compute in Hj; lia].
  - left.
  - exists (dns_subtree (str "b.test")). split; [left|reflexivity].
Defined.

(** The chain above, with a policy asserted by the issuer and the leaf. *)
Definition wit_policy_chain : list Certificate :=
  [ sample_cert "ca1" "leaf" 2 [sample_ext OID_CERTIFICATE_POLICIES [7]%N];
    sample_ca "root" "ca1" 1 [sample_ext OID_CERTIFICATE_POLICIES [7]%N] ].

(** Ask for an explicit policy among [set]. *)
Definition require_policies (set : list ObjectIdentifier) : ValidationPolicy := {|
  max_path_len := 10; current_time_unix := 150; enforce_key_usage := true;
  require_crl_sign_on_cas := false; initial_explicit_policy := true;
  initial_any_policy_inhibit := false; initial_policy_mapping_inhibit := false;
  initial_policy_set := set; max_validity_secs := None; allowed_signature_algs := None;
  min_rsa_key_bits := None; require_subject_alt_name := false; require_rfc822_san := false;
  required_leaf_eku := None; required_leaf_policy_oids := None;
  required_leaf_subject_dn_attrs := None |}.

Lemma validate_path_policy_witness :
  ∃ vp, validate_path wit_policy_chain wit_anchors (require_policies [[7%N]]) MkSampleVerifier
        = Ok vp ∧ valid_policy_tree vp ≠ None.
Proof.
  eexists. split; [vm_compute; reflexivity|].
  refine (proj1 (validate_path_policy wit_policy_chain wit_anchors (require_policies [[7%N]])
    MkSampleVerifier _ _) eq_refl).
  vm_compute. reflexivity.
Defined.

Lemma validate_path_error_witness :
  (ValidityPeriod 1 = NoTrustedPath ∧
     ∀ a, a ∈ wit_anchors → anchor_eligible (sample_ca "root" "ca1" 1 []) a = false) ∨
  (∃ a, a ∈ wit_anchors ∧ anchor_eligible (sample_ca "root" "ca1" 1 []) a = true ∧
     chain_walk [sample_cert "ca1" "leaf" 2 []; sample_ca "root" "ca1" 1 []] a
       (validation_policy_new 250) MkSampleVerifier = Err (ValidityPeriod 1)).
Proof.
  apply (validate_path_error
    [sample_cert "ca1" "leaf" 2 []; sample_ca "root" "ca1" 1 []] wit_anchors
    (validation_policy_new 250) MkSampleVerifier); [|reflexivity|vm_compute; reflexivity].
  split; [done|done| | |vm_compute; done].
  - intros [|[|i]] [|[|j]] a b Hij Ha Hb; try lia; try done.
    injection Ha as <-. injection Hb as <-. by intros [_ Hs].
  - intros c [->|[->|Hc%not_elem_of_nil]%elem_of_cons]%elem_of_cons; done.
Defined.

(** A profile whose policy ignores the clock. *)
Inductive StaleProfile := MkStaleProfile.
#[export] Instance StaleProfile_impl : Profile StaleProfile := {|
  profile_id _ := "stale"%string; profile_version _ := "1"%string;
  profile_policy _ _ := validation_policy_new 0; profile_policy_oids _ := [] |}.

Lemma validate_path_with_profile_time_witness : (100 ≤ 150 ≤ 200)%N.
Proof.
  refine (validate_path_with_profile_time wit_chain wit_anchors MkStaleProfile 150
    MkSampleVerifier (wit_result None) _ 0 (sample_cert "ca1" "leaf" 2
      [sample_ext OID_SUBJECT_ALT_NAME (2%N :: str "a.b.test")]) eq_refl).
  vm_compute. reflexivity.
Defined.

(** ** Departures from RFC 5280, on concrete chains *)

(** A user policy that is not enforced: the certificate next to the anchor
    asserts anyPolicy, the next one and the leaf assert policy 7, the user
    accepts only policy 8 and requires an explicit policy.  The anyPolicy node
    is pruned, 7 no longer has an anyPolicy parent, and the path validates with
    7 in its tree. *)
Definition any_policy_chain : list Certificate :=
  [ sample_cert "ca2" "leaf" 3 [sample_ext OID_CERTIFICATE_POLICIES [7]%N];
    sample_ca "ca1" "ca2" 2 [sample_ext OID_CERTIFICATE_POLICIES [7]%N];
    sample_ca "root" "ca1" 1 [sample_ext OID_CERTIFICATE_POLICIES [0]%N] ].

(** With an explicit policy required and only policy 8 accepted by the user,
    the chain above validates with policy 7 at the leaf and without policy 8. *)
Theorem user_policy_set_not_enforced :
  ∃ vp tr, validate_path any_policy_chain wit_anchors (require_policies [[8%N]])
      MkSampleVerifier = Ok vp ∧ valid_policy_tree vp = Some tr ∧
    (∃ nd, nd ∈ tr ∧ ptn_depth nd = 3 ∧ ptn_valid_policy nd = [7%N]) ∧
    ∀ nd, nd ∈ tr → ptn_valid_policy nd ≠ [8%N].
Proof.
  do 2 eexists. split; [vm_compute; reflexivity|]. split; [reflexivity|]. split.
  - eexists. split; [right; right; left|]. split; reflexivity.
  - intros nd. rewrite !elem_of_cons, elem_of_nil. by intros [->|[->|[->|[]]]].
Qed.

(** The same requirement is enforced when no issuer asserts anyPolicy. *)
Theorem user_policy_set_enforced_without_any_policy :
  validate_path wit_policy_chain wit_anchors (require_policies [[8%N]]) MkSampleVerifier
  = Err (PolicyViolation 0).
Proof. vm_compute. reflexivity. Qed.

(** Emptied permitted subtrees reopened: three issuers permit a.test, b.test
    and c.test in turn.  The first two have an empty intersection, the third
    is then adopted as if DNS names had not been constrained. *)
Definition reopened_chain : list Certificate :=
  [ sample_cert "ca3" "leaf" 4 [sample_ext OID_SUBJECT_ALT_NAME (2%N :: str "x.c.test")];
    sample_ca "ca2" "ca3" 3 [sample_ext OID_NAME_CONSTRAINTS (0%N :: str "c.test")];
    sample_ca "ca1" "ca2" 2 [sample_ext OID_NAME_CONSTRAINTS (0%N :: str "b.test")];
    sample_ca "root" "ca1" 1 [sample_ext OID_NAME_CONSTRAINTS (0%N :: str "a.test")] ].

(** The chain above validates although the leaf's name is not under the
    subtree the first issuer permits. *)
Theorem emptied_permitted_subtrees_reopened :
  validate_path reopened_chain wit_anchors sample_policies MkSampleVerifier =
    Ok {| anchor_index := 1; path_depth := 3; leaf_subject := sample_name "leaf";
          leaf_issuer := sample_name "ca3"; leaf_serial := [4]%N;
          leaf_spki := sample_spki (str "leaf"); valid_policy_tree := None |} ∧
  ¬ under [dns_subtree (str "a.test")] (DnsName (str "x.c.test")).
Proof.
  split; [vm_compute; reflexivity|].
  by intros (st & ->%list_elem_of_singleton & Hm).
Qed.

(** Equal constraints that do not intersect: a mailbox domain, a URI host and
    an IP range, as a constraint of two issuers, leave nothing permitted. *)
Theorem equal_constraints_intersect_to_nothing :
  let one b := [{| base := b; st_minimum := 0; st_maximum := None |}] in
  let mail := one (Rfc822Name (str "example.com")) in
  let uri := one (UniformResourceIdentifier (str "example.com")) in
  let ip := one (IpAddress [10; 0; 0; 0; 255; 0; 0; 0]%N) in
  intersect_permitted mail mail = Ok [] ∧ intersect_permitted uri uri = Ok [] ∧
  intersect_permitted ip ip = Ok [].
Proof. repeat split. Qed.

(** Neither of ".example.com" and "example.com" is found within the other. *)
Theorem dot_constraint_intersects_to_nothing :
  let one s := [dns_subtree (str s)] in
  intersect_permitted (one "example.com"%string) (one ".example.com"%string) = Ok [].
Proof. reflexivity. Qed.
