(* ===== verification/PathBuilder.v ===== *)
(** * Path building (pkix-path-builder/src/lib.rs)

    [PathCandidates] is the resumable depth-first search as the source runs
    it: two stacks in step, a cursor per frame, a budget.  The
    two vectors of the source are used as stacks only; the model keeps them top
    first, so the chain that is returned is the reverse of [path]. *)
From S2P Require Import Prelude X509 PathTypes Verifier Samples Names CertChecks ValidatePath.

(** ** The pool and the errors *)
Record CertPool := { certs : list Certificate }.
Definition cert_pool_new : CertPool := {| certs := [] |}.
Definition cert_pool_add (cert : Certificate) (p : CertPool) : CertPool :=
  {| certs := certs p ++ [cert] |}.
Definition cert_pool_len (p : CertPool) : nat := length (certs p).
Definition cert_pool_is_empty (p : CertPool) : bool :=
  match certs p with [] => true | _ => false end.
Definition cert_pool_extend (l : list Certificate) (p : CertPool) : CertPool :=
  {| certs := certs p ++ l |}.
Definition cert_pool_from_iter (l : list Certificate) : CertPool := {| certs := l |}.

Inductive BuildError :=
| NoPathFound
| DepthExceeded
| BudgetExceeded
| NoValidPath (tried : nat) (last_error : string).

Definition OID_AUTHORITY_KEY_IDENTIFIER : ObjectIdentifier := [2; 5; 29; 35]%N.
Definition OID_SUBJECT_KEY_IDENTIFIER : ObjectIdentifier := [2; 5; 29; 14]%N.

(** [sort_by_key] of the standard library: stable. *)
Fixpoint insert_by_key {A} (key : A → N) (x : A) (l : list A) : list A :=
  match l with
  | [] => [x]
  | y :: l' => if decide (key x ≤ key y)%N then x :: l else y :: insert_by_key key x l'
  end.
Definition sort_by_key {A} (key : A → N) (l : list A) : list A :=
  foldr (insert_by_key key) [] l.

Definition DEFAULT_DFS_BUDGET : N := 10000.
Definition DEFAULT_MAX_DEPTH : N := 10.

Record PathBuilderConfig := { max_depth : N; dfs_budget : N }.
Definition path_builder_config_new : PathBuilderConfig :=
  {| max_depth := DEFAULT_MAX_DEPTH; dfs_budget := DEFAULT_DFS_BUDGET |}.

(** [Option<<PathCandidates as Iterator>::Item>] *)
Abbreviation Item := (option (BuildError + list Certificate)).

Section builder.
Context `{PathAsn1} `{KeyIdAsn1}.

(** [pkix_path::cert_is_ca(cert).unwrap_or(false)] *)
Definition builder_cert_is_ca (cert : Certificate) : bool :=
  match cert_is_ca cert with Ok b => b | _ => false end.

Definition cert_aki_key_id (cert : Certificate) : option bytes :=
  aki ← find_cert_ext cert OID_AUTHORITY_KEY_IDENTIFIER;
  key_identifier aki.

Definition cert_ski_key_id (cert : Certificate) : option bytes :=
  ski_bytes <$> find_cert_ext cert OID_SUBJECT_KEY_IDENTIFIER.

(** [(tier, idx)] for the candidates whose subject is the issuer of [cur]. *)
Definition rank_candidates (cur : Certificate) (pool : list Certificate) : list (N * nat) :=
  let cur_issuer := issuer (tbs_certificate cur) in
  let target_aki_kid := cert_aki_key_id cur in
  let ranked := mjoin (imap (λ idx candidate,
    if negb (names_match (subject (tbs_certificate candidate)) cur_issuer) then []
    else
      let tier :=
        match target_aki_kid, cert_ski_key_id candidate with
        | Some aki, Some ski => if decide (aki = ski) then 0%N else 1%N
        | _, _ => 1%N
        end in
      [(tier, idx)]) pool) in
  sort_by_key fst ranked.

Definition spki_already_in_path (candidate : Certificate) (path : list Certificate) : bool :=
  let candidate_spki := subject_public_key_info (tbs_certificate candidate) in
  existsb (λ in_path,
    let s := subject_public_key_info (tbs_certificate in_path) in
    bool_decide (alg_oid (spki_algorithm s) = alg_oid (spki_algorithm candidate_spki)) &&
    bool_decide (subject_public_key s = subject_public_key candidate_spki)) path.

(** ** The iterator *)
Record Frame := {
  ranked : option (list (N * nat));
  cursor : nat;
  anchor_checked : bool;
  anchor_yielded : bool }.

Definition frame_new : Frame :=
  {| ranked := None; cursor := 0; anchor_checked := false; anchor_yielded := false |}.

Record PathCandidates := {
  pc_pool : list Certificate;
  pc_anchors : list TrustAnchor;
  pc_max_depth : N;
  pc_path : list Certificate;
  pc_frames : list Frame;
  pc_budget : N;
  pc_started : bool;
  pc_done : bool }.

(** [PathCandidates::new] *)
Definition path_candidates_new (target : Certificate) (pool : list Certificate)
    (anchors : list TrustAnchor) (config : PathBuilderConfig) : PathCandidates := {|
  pc_pool := pool; pc_anchors := anchors; pc_max_depth := max_depth config;
  pc_path := [target]; pc_frames := [frame_new]; pc_budget := dfs_budget config;
  pc_started := false; pc_done := false |}.

Definition set_stacks (path : list Certificate) (frames : list Frame) (budget : N)
    (s : PathCandidates) : PathCandidates := {|
  pc_pool := pc_pool s; pc_anchors := pc_anchors s; pc_max_depth := pc_max_depth s;
  pc_path := path; pc_frames := frames; pc_budget := budget;
  pc_started := pc_started s; pc_done := pc_done s |}.

Definition set_done (s : PathCandidates) : PathCandidates := {|
  pc_pool := pc_pool s; pc_anchors := pc_anchors s; pc_max_depth := pc_max_depth s;
  pc_path := pc_path s; pc_frames := pc_frames s; pc_budget := pc_budget s;
  pc_started := pc_started s; pc_done := true |}.

Definition set_started (s : PathCandidates) : PathCandidates := {|
  pc_pool := pc_pool s; pc_anchors := pc_anchors s; pc_max_depth := pc_max_depth s;
  pc_path := pc_path s; pc_frames := pc_frames s; pc_budget := pc_budget s;
  pc_started := true; pc_done := pc_done s |}.

(** One turn of the loop of [next]: continue, return an item, or panic (an
    [expect] or an index out of range). *)
Inductive turn :=
| Continue (s : PathCandidates)
| Return (i : Item) (s : PathCandidates)
| Fault.

(** [self.frames.pop(); self.path.pop(); continue;] *)
Definition backtrack (s : PathCandidates) : turn :=
  Continue (set_stacks (tail (pc_path s)) (tail (pc_frames s)) (pc_budget s) s).

(** From the depth test on, for a top frame [f] whose anchor was checked. *)
Definition advance (f : Frame) (fs : list Frame) (s : PathCandidates) : turn :=
  if decide (pc_max_depth s < N.of_nat (S (length fs)))%N then backtrack s
  else match pc_path s with
  | [] => Fault
  | cur :: _ =>
      let r := match ranked f with Some r => r | None => rank_candidates cur (pc_pool s) end in
      let f := {| ranked := Some r; cursor := cursor f;
                  anchor_checked := anchor_checked f; anchor_yielded := anchor_yielded f |} in
      match r !! cursor f with
      | None => backtrack (set_stacks (pc_path s) (f :: fs) (pc_budget s) s)
      | Some (_, idx) =>
          let f := {| ranked := Some r; cursor := S (cursor f);
                      anchor_checked := anchor_checked f;
                      anchor_yielded := anchor_yielded f |} in
          match pc_pool s !! idx with
          | None => Fault
          | Some candidate =>
              if negb (builder_cert_is_ca candidate)
              then Continue (set_stacks (pc_path s) (f :: fs) (pc_budget s) s)
              else if spki_already_in_path candidate (pc_path s)
              then Continue (set_stacks (pc_path s) (f :: fs) (pc_budget s) s)
              else Continue (set_stacks (candidate :: pc_path s) (frame_new :: f :: fs)
                               (pc_budget s) s)
          end
      end
  end.

(** One turn of the loop. *)
Definition next_turn (s : PathCandidates) : turn :=
  match pc_frames s with
  | [] => Return None (set_done s)
  | f :: fs =>
      if anchor_yielded f then backtrack s
      else if negb (anchor_checked f) then
        if decide (pc_budget s = 0)%N then Return (Some (inl BudgetExceeded)) (set_done s)
        else
          let budget := (pc_budget s - 1)%N in
          match pc_path s with
          | [] => Fault
          | cur :: _ =>
              let cur_issuer := issuer (tbs_certificate cur) in
              let matched := existsb (λ a, names_match (anchor_subject a) cur_issuer)
                               (pc_anchors s) in
              let f := {| ranked := ranked f; cursor := cursor f; anchor_checked := true;
                          anchor_yielded := matched |} in
              let s := set_stacks (pc_path s) (f :: fs) budget s in
              if matched then Return (Some (inr (reverse (pc_path s)))) s
              else advance f fs s
          end
      else advance f fs s
  end.

Fixpoint next_loop (fuel : nat) (s : PathCandidates) : option (Item * PathCandidates) :=
  match fuel with
  | 0 => None
  | S fuel =>
      match next_turn s with
      | Continue s => next_loop fuel s
      | Return i s => Some (i, s)
      | Fault => None
      end
  end.

(** A bound on the turns left: [P + 2] for each unit of budget, and for each
    frame on the stack its candidates left and its removal. *)
Definition frame_weight (P : nat) (f : Frame) : nat :=
  if anchor_yielded f then 1
  else if anchor_checked f then S (P - cursor f) else 0.

Definition measure (s : PathCandidates) : nat :=
  N.to_nat (pc_budget s) * (length (pc_pool s) + 2) +
  sum_list (frame_weight (length (pc_pool s)) <$> pc_frames s).

(** [PathCandidates::next]; [None] stands for a panic or too little fuel,
    which [path_candidates_refine] excludes. *)
Definition path_candidates_next (s : PathCandidates) : option (Item * PathCandidates) :=
  if pc_done s then Some (None, s)
  else next_loop (S (measure s)) (set_started s).

(** ** build_path *)
Definition build_path_candidates_with_config (target : Certificate) (pool : CertPool)
    (anchors : list TrustAnchor) (config : PathBuilderConfig) : PathCandidates :=
  path_candidates_new target (certs pool) anchors config.

Definition build_path_candidates (target : Certificate) (pool : CertPool)
    (anchors : list TrustAnchor) : PathCandidates :=
  path_candidates_new target (certs pool) anchors path_builder_config_new.

(** The probe one level deeper, when nothing was found. *)
Definition depth_probe (target : Certificate) (pool : CertPool) (anchors : list TrustAnchor)
    (config : PathBuilderConfig) : option BuildError :=
  let probe_config := {| max_depth := N.min usize_max (max_depth config + 1);
                         dfs_budget := dfs_budget config |} in
  '(item, _) ← path_candidates_next (path_candidates_new target (certs pool) anchors probe_config);
  Some match item with
       | Some (inr _) => DepthExceeded
       | Some (inl e) => e
       | None => NoPathFound
       end.

Definition build_path_with_config (target : Certificate) (pool : CertPool)
    (anchors : list TrustAnchor) (config : PathBuilderConfig) :
    option (BuildError + list Certificate) :=
  '(item, _) ← path_candidates_next (path_candidates_new target (certs pool) anchors config);
  match item with
  | Some (inr chain) => Some (inr chain)
  | Some (inl e) => Some (inl e)
  | None => inl <$> depth_probe target pool anchors config
  end.

Definition build_path (target : Certificate) (pool : CertPool) (anchors : list TrustAnchor) :
    option (BuildError + list Certificate) :=
  build_path_with_config target pool anchors path_builder_config_new.

(** ** build_first_valid_path *)
Section first_valid.
Context {V : Type} `{SignatureVerifier V}.
(** [format!("{e}")] *)
Variable display : Error → string.

Fixpoint first_valid_loop (fuel : nat) (target : Certificate) (pool : CertPool)
    (anchors : list TrustAnchor) (policy : ValidationPolicy) (verifier : V)
    (config : PathBuilderConfig) (iter : PathCandidates) (tried : nat)
    (last_error : option string) : option (BuildError + list Certificate) :=
  match fuel with
  | 0 => None
  | S fuel =>
      '(item, iter) ← path_candidates_next iter;
      match item with
      | Some (inr chain) =>
          match validate_path chain anchors policy verifier with
          | Ok _ => Some (inr chain)
          | Err e => first_valid_loop fuel target pool anchors policy verifier config iter
                       (S tried) (Some (display e))
          | Panic => None
          end
      | Some (inl e) => Some (inl e)
      | None =>
          match last_error with
          | Some last => Some (inl (NoValidPath tried last))
          | None => inl <$> depth_probe target pool anchors config
          end
      end
  end.

(** Each candidate costs a unit of budget, so there are at most [dfs_budget]. *)
Definition build_first_valid_path_with_config (target : Certificate) (pool : CertPool)
    (anchors : list TrustAnchor) (policy : ValidationPolicy) (verifier : V)
    (config : PathBuilderConfig) : option (BuildError + list Certificate) :=
  first_valid_loop (N.to_nat (dfs_budget config) + 2) target pool anchors policy verifier config
    (path_candidates_new target (certs pool) anchors config) 0 None.

Definition build_first_valid_path (target : Certificate) (pool : CertPool)
    (anchors : list TrustAnchor) (policy : ValidationPolicy) (verifier : V) :
    option (BuildError + list Certificate) :=
  build_first_valid_path_with_config target pool anchors policy verifier path_builder_config_new.
End first_valid.
End builder.
