(* ===== verification/PathBuilderSpec.v ===== *)
(** * The search meets its specification (pkix-path-builder/src/lib.rs)

    The iterator refines the recursive search [paths]: each item is the next
    chain of [paths], in order, until the budget is exhausted; [next] and the
    functions built on it always return. *)
From S2P Require Import Prelude X509 PathTypes Verifier Samples Names CertChecks ValidatePath PathBuilder.

(** ** The stable sort and the ranking *)
Lemma insert_by_key_perm {A} (key : A → N) x l : insert_by_key key x l ≡ₚ x :: l.
Proof.
  induction l as [|y l IH]; cbn; [done|]. case_decide; [done|].
  rewrite IH. apply Permutation_swap.
Qed.

Lemma sort_by_key_perm {A} (key : A → N) l : sort_by_key key l ≡ₚ l.
Proof.
  induction l as [|x l IH]; cbn; [done|]. by rewrite insert_by_key_perm, IH.
Qed.

Lemma length_mjoin_le {A} (l : list (list A)) :
  Forall (λ x, length x ≤ 1) l → length (mjoin l) ≤ length l.
Proof.
  induction 1 as [|x l Hx Hl IH]; [done|].
  change (mjoin (x :: l)) with (x ++ mjoin l). rewrite length_app. cbn. lia.
Qed.

Section search.
Context `{PathAsn1} `{KeyIdAsn1}.

Lemma elem_of_rank cur pool e :
  e ∈ rank_candidates cur pool →
  ∃ c, pool !! e.2 = Some c ∧
    names_match (subject (tbs_certificate c)) (issuer (tbs_certificate cur)) = true.
Proof.
  unfold rank_candidates. rewrite (sort_by_key_perm fst). rewrite list_elem_of_join.
  intros (l & He & [i Hi]%list_elem_of_lookup). rewrite list_lookup_imap in Hi.
  destruct (pool !! i) as [c|] eqn:Hc; cbn in Hi; [|done]. injection Hi as <-.
  destruct (names_match _ _) eqn:Hm; cbn in He; [|by apply not_elem_of_nil in He].
  apply list_elem_of_singleton in He. exists c. subst e. cbn. done.
Qed.

Lemma rank_complete cur pool i c :
  pool !! i = Some c →
  names_match (subject (tbs_certificate c)) (issuer (tbs_certificate cur)) = true →
  ∃ t, (t, i) ∈ rank_candidates cur pool.
Proof.
  intros Hc Hm. unfold rank_candidates.
  set (t := match cert_aki_key_id cur, cert_ski_key_id c with
            | Some aki, Some ski => if decide (aki = ski) then 0%N else 1%N
            | _, _ => 1%N end).
  exists t. rewrite (sort_by_key_perm fst). apply list_elem_of_join.
  exists [(t, i)]. split; [by left|]. apply list_elem_of_lookup. exists i.
  rewrite list_lookup_imap, Hc. cbn. by rewrite Hm.
Qed.

Lemma length_rank cur pool : length (rank_candidates cur pool) ≤ length pool.
Proof.
  unfold rank_candidates. rewrite (Permutation_length (sort_by_key_perm fst _)).
  etrans; [apply length_mjoin_le|rewrite length_imap; lia].
  apply Forall_lookup. intros i l Hl. rewrite list_lookup_imap in Hl.
  destruct (pool !! i) as [c|]; cbn in Hl; [|done]. injection Hl as <-.
  destruct (negb _); cbn; lia.
Qed.

(** ** The recursive search

    Built from the helpers of the source; what it finds is told below by
    [candidate_chain], without them. *)
Section recursive.
Variables (pool : list Certificate) (anchors : list TrustAnchor).

Definition at_anchor (cur : Certificate) : bool :=
  existsb (λ a, names_match (anchor_subject a) (issuer (tbs_certificate cur))) anchors.

(** The candidates that may follow the path [p] (top first). *)
Definition eligible (p : list Certificate) (r : list (N * nat)) : list Certificate :=
  omap (λ e : N * nat,
    c ← pool !! e.2;
    if builder_cert_is_ca c && negb (spki_already_in_path c p) then Some c else None) r.

(** The recursive depth-first search: the chains in the order they are found. *)
Fixpoint paths (d : nat) (p : list Certificate) : list (list Certificate) :=
  match p with
  | [] => []
  | cur :: _ =>
      if at_anchor cur then [reverse p]
      else match d with
      | 0 => []
      | S d => mjoin ((λ c, paths d (c :: p)) <$> eligible p (rank_candidates cur pool))
      end
  end.

(** A path, top first, that the search may have built from [target]. *)
Inductive climbs (target : Certificate) : list Certificate → Prop :=
| climbs_target : climbs target [target]
| climbs_issuer c cur p :
    climbs target (cur :: p) → at_anchor cur = false →
    c ∈ pool → names_match (subject (tbs_certificate c)) (issuer (tbs_certificate cur)) = true →
    builder_cert_is_ca c = true → spki_already_in_path c (cur :: p) = false →
    climbs target (c :: cur :: p).
End recursive.

Section fixed.
Variables (target : Certificate) (pool : list Certificate) (anchors : list TrustAnchor)
  (md : N).

(** What a frame still has to yield, given the intermediates allowed above it. *)
Definition rem_frame (d : nat) (f : Frame) (p : list Certificate) : list (list Certificate) :=
  if anchor_yielded f then []
  else if anchor_checked f then
    match d, p with
    | S d, cur :: _ =>
        mjoin ((λ c, paths pool anchors d (c :: p)) <$>
                 eligible pool p (drop (cursor f) (rank_candidates cur pool)))
    | _, _ => []
    end
  else paths pool anchors d p.

Definition room (fs : list Frame) : nat := N.to_nat md - length fs.

Fixpoint rem (fs : list Frame) (p : list Certificate) : list (list Certificate) :=
  match fs, p with
  | f :: fs, _ :: p' => rem_frame (room fs) f p ++ rem fs p'
  | _, _ => []
  end.

(** A frame is in step with its certificate. *)
Definition frame_ok (f : Frame) (cur : Certificate) : Prop :=
  (∀ r, ranked f = Some r → r = rank_candidates cur pool) ∧
  (anchor_checked f = false → cursor f = 0 ∧ anchor_yielded f = false).
Definition parent_ok (f : Frame) : Prop := anchor_checked f = true ∧ anchor_yielded f = false.

Record inv (s : PathCandidates) : Prop := {
  inv_pool : pc_pool s = pool;
  inv_anchors : pc_anchors s = anchors;
  inv_max : pc_max_depth s = md;
  inv_frames : Forall2 frame_ok (pc_frames s) (pc_path s);
  inv_parents : Forall parent_ok (tail (pc_frames s));
  inv_climbs : pc_path s ≠ [] → climbs pool anchors target (pc_path s);
  inv_top : ∀ f cur, head (pc_frames s) = Some f → head (pc_path s) = Some cur →
    (anchor_yielded f = true → at_anchor anchors cur = true) ∧
    (anchor_checked f = true → anchor_yielded f = false → at_anchor anchors cur = false);
  inv_length : length (pc_path s) ≤ S (N.to_nat md) }.

Lemma climbs_tail c p : climbs pool anchors target (c :: p) → p ≠ [] → climbs pool anchors target p.
Proof. intros Hc Hp. inversion Hc; subst; [done|]. done. Qed.

Lemma climbs_parent c cur p :
  climbs pool anchors target (c :: cur :: p) → at_anchor anchors cur = false.
Proof. intros Hc. by inversion Hc. Qed.

(** Removing the top frame. *)
Lemma inv_backtrack s f fs :
  inv s → pc_frames s = f :: fs →
  inv (set_stacks (tail (pc_path s)) (tail (pc_frames s)) (pc_budget s) s).
Proof.
  intros [Hp Ha Hm Hf Hpar Hc Ht Hl] Hfs. rewrite Hfs in *.
  destruct (pc_path s) as [|c p] eqn:Hpath; [by inversion Hf|]. cbn [tail] in *.
  apply Forall2_cons in Hf as [_ Hf]. split; cbn; try done.
  - by destruct fs; [|apply Forall_cons in Hpar as [_ ?]].
  - intros Hne. by eapply climbs_tail, Hne; apply Hc.
  - intros g cur Hg Hcur. destruct fs as [|g' fs]; [done|]. cbn in Hg. injection Hg as ->.
    destruct p as [|cur' p]; [done|]. cbn in Hcur. injection Hcur as ->.
    apply Forall_cons in Hpar as [[Hck Hy] _]. split; [congruence|]. intros _ _.
    eapply climbs_parent. by apply Hc.
  - cbn in Hl. lia.
Qed.

Definition eligible_one (p : list Certificate) (c : Certificate) : bool :=
  builder_cert_is_ca c && negb (spki_already_in_path c p).

Lemma eligible_drop p r k t idx c :
  r !! k = Some (t, idx) → pool !! idx = Some c →
  eligible pool p (drop k r) =
  (if eligible_one p c then [c] else []) ++ eligible pool p (drop (S k) r).
Proof.
  intros Hr Hc. rewrite (drop_S _ _ _ Hr). unfold eligible, eligible_one. cbn.
  rewrite Hc. cbn. by destruct (_ && _).
Qed.

(** The search continues with the same remaining chains and less to do. *)
Definition progress (s s' : PathCandidates) : Prop :=
  inv s' ∧ rem (pc_frames s') (pc_path s') = rem (pc_frames s) (pc_path s) ∧
  measure s' < measure s ∧ pc_budget s' = pc_budget s ∧ pc_done s' = pc_done s.

Lemma measure_stacks p fs b s :
  measure (set_stacks p fs b s) =
  N.to_nat b * (length (pc_pool s) + 2) + sum_list (frame_weight (length (pc_pool s)) <$> fs).
Proof. done. Qed.

(** A frame that has nothing left is removed. *)
Lemma backtrack_spec s f fs :
  inv s → pc_frames s = f :: fs → 0 < frame_weight (length pool) f →
  (∀ cur p', pc_path s = cur :: p' → rem_frame (room fs) f (cur :: p') = []) →
  progress s (set_stacks (tail (pc_path s)) (tail (pc_frames s)) (pc_budget s) s).
Proof.
  intros Hinv Hfs Hw Hrem. split; [by eapply inv_backtrack|].
  rewrite measure_stacks, Hfs. unfold measure. rewrite Hfs, (inv_pool s Hinv).
  pose proof (inv_frames s Hinv) as Hf. rewrite Hfs in Hf.
  destruct (pc_path s) as [|cur p'] eqn:Hp; [by inversion Hf|].
  cbn [pc_frames pc_path set_stacks tail rem]. rewrite (Hrem cur p') by done.
  split_and!; [done| |done|done].
  change (frame_weight (length pool) <$> f :: fs)
    with (frame_weight (length pool) f :: (frame_weight (length pool) <$> fs)).
  cbn [sum_list sum_list_with]. unfold sum_list. cbn. lia.
Qed.

(** Updating the top frame, its anchor being checked without a match. *)
Lemma inv_update s f f' fs cur p :
  inv s → pc_frames s = f :: fs → pc_path s = cur :: p →
  parent_ok f' → at_anchor anchors cur = false → frame_ok f' cur →
  inv (set_stacks (cur :: p) (f' :: fs) (pc_budget s) s).
Proof.
  intros [Hpo Ha Hm Hf Hpar Hc Ht Hl] Hfs Hp [Hck Hy] Hat Hok. rewrite Hfs, Hp in *.
  apply Forall2_cons in Hf as [_ Hf].
  split; cbn; try done; [by apply Forall2_cons|].
  intros g c [= <-] [= <-]. split; congruence.
Qed.

(** Pushing a candidate. *)
Lemma inv_push s f fs cur p c :
  inv s → pc_frames s = f :: fs → pc_path s = cur :: p → parent_ok f →
  at_anchor anchors cur = false → length fs < N.to_nat md →
  c ∈ pool → names_match (subject (tbs_certificate c)) (issuer (tbs_certificate cur)) = true →
  eligible_one (cur :: p) c = true →
  inv (set_stacks (c :: cur :: p) (frame_new :: f :: fs) (pc_budget s) s).
Proof.
  intros [Hpo Ha Hm Hf Hpar Hc Ht Hl] Hfs Hp Hpf Hat Hlt Hin Hn He. rewrite Hfs, Hp in *.
  pose proof (Forall2_length _ _ _ Hf) as Hlen. cbn in Hlen.
  apply andb_true_iff in He as [He1 He2%negb_true_iff].
  split; cbn; try done.
  - by apply Forall2_cons.
  - by apply Forall_cons.
  - intros _. apply climbs_issuer; try done. by apply Hc.
  - intros g k [= <-] _. done.
  - lia.
Qed.

(** A turn after the anchor of the top frame was checked without a match. *)
Lemma advance_spec s f fs cur p :
  inv s → pc_frames s = f :: fs → pc_path s = cur :: p →
  parent_ok f → at_anchor anchors cur = false →
  ∃ s', advance f fs s = Continue s' ∧ progress s s'.
Proof.
  intros Hinv Hfs Hp [Hck Hy] Hat.
  assert (frame_weight (length pool) f = S (length pool - cursor f)) as Hw.
  { unfold frame_weight. by rewrite Hy, Hck. }
  pose proof (inv_frames s Hinv) as Hfr. rewrite Hfs, Hp in Hfr.
  apply Forall2_cons in Hfr as [Hfok Hfr].
  pose proof (Forall2_length _ _ _ Hfr) as Hlen.
  unfold advance. rewrite (inv_max s Hinv). case_decide as Hd.
  { eexists. split; [done|]. eapply backtrack_spec; [done|exact Hfs|lia|].
    intros cur' p' _. unfold rem_frame, room. rewrite Hy, Hck.
    by replace (N.to_nat md - length fs) with 0 by lia. }
  rewrite Hp, (inv_pool s Hinv).
  assert (match ranked f with Some r => r | None => rank_candidates cur pool end =
          rank_candidates cur pool) as -> by (destruct (ranked f) eqn:Hr; [by apply Hfok|done]).
  set (r := rank_candidates cur pool) in *. cbn [cursor anchor_checked anchor_yielded].
  destruct (r !! cursor f) as [[t idx]|] eqn:Hcur.
  2: { eexists. split; [done|]. cbn [pc_path pc_frames pc_budget set_stacks].
       pose proof (backtrack_spec s f fs Hinv Hfs) as Hb. rewrite Hp, Hfs in Hb.
       cbn [tail] in Hb |- *. apply Hb; [lia|].
       intros cur' p' [= <- <-]. unfold rem_frame. rewrite Hy, Hck. fold r.
       rewrite drop_ge by by apply lookup_ge_None. by destruct (room fs). }
  destruct (elem_of_rank cur pool (t, idx)) as (c & Hc & Hn); [by eapply list_elem_of_lookup_2|].
  cbn in Hc. rewrite Hc.
  pose proof (lookup_lt_Some _ _ _ Hcur) as Hlt. pose proof (length_rank cur pool) as Hrl.
  set (f1 := {| ranked := Some r; cursor := S (cursor f); anchor_checked := anchor_checked f;
                anchor_yielded := anchor_yielded f |}).
  assert (inv (set_stacks (cur :: p) (f1 :: fs) (pc_budget s) s)) as Hinv1.
  { eapply inv_update; try done. split; [by intros ? [= <-]|cbn; congruence]. }
  assert (∃ d, room fs = S d ∧ room (f1 :: fs) = d) as (d & Hroom & Hroom1).
  { unfold room. cbn. exists (N.to_nat md - S (length fs)). lia. }
  assert (rem_frame (room fs) f (cur :: p) =
    (if eligible_one (cur :: p) c then paths pool anchors d (c :: cur :: p) else []) ++
    rem_frame (room fs) f1 (cur :: p)) as Hsplit.
  { unfold rem_frame. cbn [anchor_yielded anchor_checked cursor f1]. rewrite Hy, Hck, Hroom.
    fold r. rewrite (eligible_drop (cur :: p) r (cursor f) t idx c Hcur Hc).
    by destruct (eligible_one (cur :: p) c). }
  assert (measure (set_stacks (cur :: p) (f1 :: fs) (pc_budget s) s) < measure s) as Hm1.
  { rewrite measure_stacks. unfold measure. rewrite Hfs, (inv_pool s Hinv). cbn.
    rewrite Hw. unfold frame_weight. cbn. rewrite Hy, Hck. fold r in Hrl. lia. }
  destruct (eligible_one (cur :: p) c) eqn:He.
  - pose proof He as He'. unfold eligible_one in He'. apply andb_true_iff in He' as [-> Hs].
    apply negb_true_iff in Hs as ->. cbn [negb].
    eexists. split; [done|]. split_and!; [|cbn [pc_frames pc_path set_stacks rem]| |done|done].
    + pose proof (inv_push _ f1 fs cur p c Hinv1 eq_refl eq_refl (conj Hck Hy) Hat) as Hpush.
      apply Hpush; [lia|by eapply list_elem_of_lookup_2|done|done].
    + rewrite Hfs, Hp. cbn [rem]. rewrite Hsplit, Hroom1. unfold rem_frame at 1. cbn.
      by rewrite app_assoc.
    + eapply Nat.le_lt_trans; [|exact Hm1]. rewrite !measure_stacks. cbn. lia.
  - assert (progress s (set_stacks (cur :: p) (f1 :: fs) (pc_budget s) s)) as Hpr.
    { split_and!; [done|cbn [pc_frames pc_path set_stacks rem]|done|done|done].
      rewrite Hfs, Hp. cbn [rem]. by rewrite Hsplit. }
    unfold eligible_one in He. destruct (builder_cert_is_ca c); cbn [negb]; [|by eexists].
    cbn [andb] in He. apply negb_false_iff in He as ->. by eexists.
Qed.

(** Before the anchor check a frame has everything still to yield. *)
Lemma rem_unchecked d f cur p :
  anchor_yielded f = false → at_anchor anchors cur = false → cursor f = 0 →
  rem_frame d {| ranked := ranked f; cursor := cursor f; anchor_checked := true;
                 anchor_yielded := false |} (cur :: p) = paths pool anchors d (cur :: p).
Proof.
  intros Hy Hat Hc. unfold rem_frame. cbn [anchor_yielded anchor_checked cursor]. rewrite Hc.
  destruct d; cbn [paths]; by rewrite Hat.
Qed.

Definition sound_chain (chain : list Certificate) : Prop :=
  ∃ p cur, climbs pool anchors target (cur :: p) ∧ at_anchor anchors cur = true ∧
    length (cur :: p) ≤ S (N.to_nat md) ∧ chain = reverse (cur :: p).

Definition turn_ok (s : PathCandidates) (t : turn) : Prop :=
  match t with
  | Continue s' => inv s' ∧ rem (pc_frames s') (pc_path s') = rem (pc_frames s) (pc_path s) ∧
      measure s' < measure s ∧ (pc_budget s' ≤ pc_budget s)%N ∧ pc_done s' = pc_done s
  | Return (Some (inr chain)) s' => inv s' ∧ sound_chain chain ∧
      rem (pc_frames s) (pc_path s) = chain :: rem (pc_frames s') (pc_path s') ∧
      (pc_budget s' < pc_budget s)%N ∧ pc_done s' = pc_done s
  | Return (Some (inl e)) s' => e = BudgetExceeded ∧ pc_done s' = true
  | Return None s' => rem (pc_frames s) (pc_path s) = [] ∧ pc_done s' = true
  | Fault => False
  end.

Lemma progress_turn_ok s s' : progress s s' → turn_ok s (Continue s').
Proof. intros (? & ? & ? & Hb & ?). cbn. rewrite Hb. done. Qed.

Lemma turn_spec s : inv s → turn_ok s (next_turn s).
Proof.
  intros Hinv. pose proof (inv_frames s Hinv) as Hfr. unfold next_turn.
  destruct (pc_frames s) as [|f fs] eqn:Hfs; [cbn; by rewrite Hfs|].
  destruct (pc_path s) as [|cur p] eqn:Hp; [by inversion Hfr|].
  apply Forall2_cons in Hfr as [[Hrk Hun] Hfr].
  destruct (inv_top s Hinv f cur) as [Hty Htn]; [by rewrite Hfs|by rewrite Hp|].
  destruct (anchor_yielded f) eqn:Hy.
  { apply progress_turn_ok. eapply backtrack_spec; [done|exact Hfs| |].
    - unfold frame_weight. rewrite Hy. lia.
    - intros. unfold rem_frame. by rewrite Hy. }
  destruct (anchor_checked f) eqn:Hck; cbn [negb].
  { destruct (advance_spec s f fs cur p Hinv Hfs Hp) as (s' & -> & Hpr); [done|by apply Htn|].
    by apply progress_turn_ok. }
  destruct (Hun eq_refl) as [Hcur _]. case_decide as Hb; [done|].
  rewrite (inv_anchors s Hinv). fold (at_anchor anchors cur).
  assert (∀ b, at_anchor anchors cur = b →
    inv (set_stacks (cur :: p)
      ({| ranked := ranked f; cursor := cursor f; anchor_checked := true; anchor_yielded := b |} :: fs)
      (pc_budget s - 1) s)) as Hset.
  { intros b Hat. destruct Hinv as [Hpo Ha Hm Hf Hpar Hc Ht Hl]. rewrite Hfs, Hp in *.
    split; cbn; try done; [by apply Forall2_cons|]. intros g c [= <-] [= <-]. cbn.
    split; congruence. }
  assert (rem (pc_frames s) (pc_path s) =
          paths pool anchors (room fs) (cur :: p) ++ rem fs p) as Hrem.
  { rewrite Hfs, Hp. cbn [rem]. unfold rem_frame. by rewrite Hy, Hck. }
  destruct (at_anchor anchors cur) eqn:Hat.
  - cbn [pc_path set_stacks turn_ok pc_budget pc_done pc_frames].
    split_and!; [by apply Hset| | |lia|done].
    + exists p, cur. split_and!; [|done| |done].
      * rewrite <-Hp. apply (inv_climbs s Hinv). by rewrite Hp.
      * rewrite <-Hp. apply (inv_length s Hinv).
    + rewrite Hrem. cbn [rem rem_frame anchor_yielded app].
      destruct (room fs); cbn [paths]; by rewrite Hat.
  - set (f1 := {| ranked := ranked f; cursor := cursor f; anchor_checked := true;
                  anchor_yielded := false |}).
    set (s1 := set_stacks (cur :: p) (f1 :: fs) (pc_budget s - 1) s).
    destruct (advance_spec s1 f1 fs cur p (Hset false eq_refl) eq_refl eq_refl) as (s' & -> & Hpr);
      [done|done|].
    destruct Hpr as (? & Hrem' & Hm & Hbud & ?). cbn [turn_ok]. split_and!; [done| | | |done].
    + rewrite Hrem', Hrem. unfold s1, f1. cbn [rem pc_frames pc_path set_stacks].
      by rewrite rem_unchecked.
    + eapply Nat.lt_le_trans; [exact Hm|]. unfold s1. rewrite measure_stacks. unfold measure.
      rewrite Hfs, (inv_pool s Hinv). cbn. unfold frame_weight. cbn. rewrite Hy, Hck. nia.
    + rewrite Hbud. cbn. lia.
Qed.

(** ** [next] *)
Definition next_ok (s : PathCandidates) (o : option (Item * PathCandidates)) : Prop :=
  match o with
  | None => False
  | Some (Some (inr chain), s') => inv s' ∧ sound_chain chain ∧
      rem (pc_frames s) (pc_path s) = chain :: rem (pc_frames s') (pc_path s') ∧
      (pc_budget s' < pc_budget s)%N ∧ pc_done s' = false
  | Some (Some (inl e), s') => e = BudgetExceeded ∧ pc_done s' = true
  | Some (None, s') => rem (pc_frames s) (pc_path s) = [] ∧ pc_done s' = true
  end.

Lemma next_loop_spec fuel s :
  inv s → measure s < fuel → pc_done s = false → next_ok s (next_loop fuel s).
Proof.
  revert s. induction fuel as [|fuel IH]; intros s Hinv Hm Hd; [lia|]. cbn [next_loop].
  pose proof (turn_spec s Hinv) as Ht. destruct (next_turn s) as [s'|[[e|chain]|] s'|];
    cbn [turn_ok] in Ht; [|done|..].
  - destruct Ht as (Hinv' & Hrem & Hm' & Hb & Hd').
    assert (next_ok s' (next_loop fuel s')) as Hn by (apply IH; [done|lia|congruence]).
    destruct (next_loop fuel s') as [[[[e|chain]|] s'']|]; cbn [next_ok] in *; [done| | |done].
    + rewrite <-Hrem. destruct Hn as (? & ? & ? & ? & ?). split_and!; try done; lia.
    + by rewrite <-Hrem.
  - cbn. destruct Ht as (? & ? & ? & ? & ->). done.
  - done.
  - done.
Qed.

Lemma next_spec s : inv s → pc_done s = false → next_ok s (path_candidates_next s).
Proof.
  intros Hinv Hd. unfold path_candidates_next. rewrite Hd.
  assert (inv (set_started s)) as Hinv' by by destruct Hinv.
  apply (next_loop_spec _ (set_started s)); [done| |done].
  change (measure (set_started s)) with (measure s). lia.
Qed.

Lemma inv_new budget :
  inv (path_candidates_new target pool anchors {| max_depth := md; dfs_budget := budget |}).
Proof.
  split; cbn; try done; [| | |lia].
  - apply Forall2_cons. split; [|done]. by split.
  - intros _. constructor.
  - intros f cur [= <-] _. done.
Qed.

(** ** The recursive search finds the climbs *)
Lemma elem_of_eligible cur p c :
  c ∈ eligible pool (cur :: p) (rank_candidates cur pool) ↔
  c ∈ pool ∧ names_match (subject (tbs_certificate c)) (issuer (tbs_certificate cur)) = true ∧
  builder_cert_is_ca c = true ∧ spki_already_in_path c (cur :: p) = false.
Proof.
  unfold eligible. rewrite list_elem_of_omap. split.
  - intros ([t i] & He & Hc). destruct (elem_of_rank cur pool _ He) as (c' & Hc' & Hn).
    rewrite Hc' in Hc. cbn in Hc. destruct (_ && _) eqn:Hb; [|done]. injection Hc as <-.
    apply andb_true_iff in Hb as [? ?%negb_true_iff].
    split_and!; [by eapply list_elem_of_lookup_2|done..].
  - intros ([i Hi]%list_elem_of_lookup & Hn & Hca & Hs).
    destruct (rank_complete cur pool i c Hi Hn) as [t Ht]. exists (t, i). split; [done|].
    cbn [snd]. rewrite Hi. cbn [mbind option_bind]. by rewrite Hca, Hs.
Qed.

Lemma climbs_suffix q p :
  climbs pool anchors target (q ++ p) → p ≠ [] → climbs pool anchors target p.
Proof.
  induction q as [|c q IH]; [done|]. cbn. intros Hc Hp. apply IH; [|done].
  eapply climbs_tail; [exact Hc|]. by destruct q, p.
Qed.

(** What the search finds above the path [p]. *)
Definition found_above (d : nat) (p : list Certificate) (chain : list Certificate) : Prop :=
  ∃ q top, climbs pool anchors target (q ++ p) ∧ head (q ++ p) = Some top ∧
    at_anchor anchors top = true ∧ length q ≤ d ∧ chain = reverse (q ++ p).

Lemma climbs_at_anchor q c p :
  climbs pool anchors target (q ++ c :: p) → q ≠ [] → at_anchor anchors c = false.
Proof.
  intros Hc Hq. destruct (exists_last Hq) as (q' & b & ->). rewrite <-app_assoc in Hc.
  apply climbs_suffix in Hc; [|done]. cbn in Hc. by apply climbs_parent in Hc.
Qed.

Lemma elem_of_paths d cur p chain :
  climbs pool anchors target (cur :: p) →
  chain ∈ paths pool anchors d (cur :: p) ↔ found_above d (cur :: p) chain.
Proof.
  revert cur p. induction d as [|d IH]; intros cur p Hc; cbn [paths];
    (destruct (at_anchor anchors cur) eqn:Hat;
     [rewrite list_elem_of_singleton; split;
      [intros ->; exists [], cur; split_and!; try done; cbn; lia
      |intros (q & top & Hq & Ht & Htop & Hl & ->); destruct q as [|b q]; [done|];
       by rewrite (climbs_at_anchor (b :: q) cur p Hq) in Hat]|]).
  - split; [by intros ?%not_elem_of_nil|]. intros (q & top & Hq & Ht & Htop & Hl & ->).
    destruct q; [cbn in Ht; congruence|cbn in Hl; lia].
  - rewrite list_elem_of_join. split.
    + intros (l & Hl & (c & -> & He)%list_elem_of_fmap).
      apply elem_of_eligible in He as (? & ? & ? & ?).
      apply IH in Hl as (q & top & Hq & Ht & Htop & Hlen & ->); [|by apply climbs_issuer].
      exists (q ++ [c]), top. rewrite <-app_assoc, length_app. cbn.
      split_and!; try done. lia.
    + intros (q & top & Hq & Ht & Htop & Hl & ->).
      destruct (decide (q = [])) as [->|Hne]; [cbn in Ht; congruence|].
      destruct (exists_last Hne) as (q' & c & ->). rewrite <-app_assoc in *. cbn [app] in *.
      rewrite length_app in Hl. cbn in Hl.
      pose proof (climbs_suffix q' (c :: cur :: p) Hq ltac:(done)) as Hcc.
      exists (paths pool anchors d (c :: cur :: p)). split.
      * apply IH; [done|]. exists q', top. split_and!; try done. lia.
      * apply list_elem_of_fmap. exists c. split; [done|]. apply elem_of_eligible.
        by inversion Hcc.
Qed.

(** ** Candidate chains, independently of the search *)

(** The first BasicConstraints extension of the certificate decodes to one
    whose [cA] is true. *)
Definition is_authority (c : Certificate) : Prop :=
  ∃ l ext r bc, cert_extensions c = l ++ ext :: r ∧
    Forall (λ e, extn_id e ≠ OID_BASIC_CONSTRAINTS) l ∧ extn_id ext = OID_BASIC_CONSTRAINTS ∧
    from_der (extn_value ext) = inr bc ∧ ca (bc : BasicConstraints) = true.

(** The subject of [c] is the issuer of [cur], name by name. *)
Definition may_issue (c cur : Certificate) : Prop :=
  Forall2 rdn_equiv (subject (tbs_certificate c)) (issuer (tbs_certificate cur)).

Definition issued_by_anchor (cur : Certificate) : Prop :=
  ∃ a, a ∈ anchors ∧ Forall2 rdn_equiv (anchor_subject a) (issuer (tbs_certificate cur)).

Definition public_key (c : Certificate) : ObjectIdentifier * BitString :=
  let spki := subject_public_key_info (tbs_certificate c) in
  (alg_oid (spki_algorithm spki), subject_public_key spki).

(** A path from the target through the pool that no anchor ends too early. *)
Record chain_stem (chain : list Certificate) : Prop := {
  stem_target : head chain = Some target;
  stem_pool : ∀ c, c ∈ tail chain → c ∈ pool ∧ is_authority c;
  stem_linked : ∀ i cur c, chain !! i = Some cur → chain !! S i = Some c → may_issue c cur;
  stem_keys : NoDup (public_key <$> chain);
  stem_inner : ∀ i cur, chain !! i = Some cur → S i < length chain → ¬ issued_by_anchor cur }.

(** A chain a caller may expect: it starts at the target; the certificates
    above it are authorities of the pool, each with the issuer of the one below
    as its subject; no two certificates have the same key; an anchor has issued
    the last certificate and no other; there are at most [d] issuers. *)
Record candidate_chain (d : nat) (chain : list Certificate) : Prop := {
  cand_stem : chain_stem chain;
  cand_anchor : ∃ top, last chain = Some top ∧ issued_by_anchor top;
  cand_depth : length chain ≤ S d }.

Lemma is_authority_spec c : builder_cert_is_ca c = true ↔ is_authority c.
Proof.
  unfold builder_cert_is_ca, cert_is_ca, find_ext, is_authority. split.
  - destruct (list_find _ _) as [[i ext]|] eqn:Hf; [|done]. cbn [snd fmap option_fmap option_map].
    apply list_find_Some in Hf as (Hi & Hext & Hfirst).
    destruct (from_der (extn_value ext)) as [e|bc] eqn:Hd; cbn; [done|]. intros Hca.
    exists (take i (cert_extensions c)), ext, (drop (S i) (cert_extensions c)), bc.
    split_and!; [by rewrite take_drop_middle| |done..].
    apply Forall_lookup. intros j e [He Hj]%lookup_take_Some. by eapply Hfirst.
  - intros (l & ext & r & bc & -> & Hl & Hext & Hd & Hca).
    rewrite (proj2 (list_find_app_Some _ l (ext :: r) (length l) ext)).
    + cbn. by rewrite Hd.
    + right. split_and!; [lia| |].
      * apply list_find_None. by eapply Forall_impl.
      * rewrite Nat.sub_diag. cbn. by rewrite decide_True.
Qed.

Lemma at_anchor_spec cur : at_anchor anchors cur = true ↔ issued_by_anchor cur.
Proof.
  unfold at_anchor, issued_by_anchor. rewrite existsb_exists.
  split; intros (a & Ha & Hn); exists a; rewrite list_elem_of_In in *.
  - by rewrite <-names_match_Forall2.
  - by rewrite names_match_Forall2.
Qed.

Lemma spki_already_in_path_spec c p :
  spki_already_in_path c p = false ↔ public_key c ∉ public_key <$> p.
Proof.
  rewrite <-not_true_iff_false. apply not_iff_compat. unfold spki_already_in_path.
  rewrite existsb_exists, list_elem_of_fmap. unfold public_key.
  split.
  - intros (x & Hx%list_elem_of_In & Hk). exists x. split; [|done].
    by apply andb_true_iff in Hk as [->%bool_decide_eq_true ->%bool_decide_eq_true].
  - intros (x & Hk & Hx%list_elem_of_In). exists x. split; [done|].
    injection Hk as -> ->. by rewrite !bool_decide_true.
Qed.

(** One more certificate on top. *)
Lemma stem_snoc chain cur c :
  last chain = Some cur →
  chain_stem (chain ++ [c]) ↔
  chain_stem chain ∧ ¬ issued_by_anchor cur ∧ c ∈ pool ∧ may_issue c cur ∧ is_authority c ∧
  public_key c ∉ public_key <$> chain.
Proof.
  intros Hlast. destruct chain as [|t chain]; [done|]. pose proof Hlast as Hcur.
  rewrite last_lookup in Hcur. cbn [length Nat.pred] in Hcur.
  assert (∀ i x, (t :: chain) !! i = Some x → (t :: chain ++ [c]) !! i = Some x) as Hmono.
  { intros i x Hx. by apply (lookup_app_l_Some (t :: chain) [c]). }
  assert ((t :: chain ++ [c]) !! S (length chain) = Some c) as Hc.
  { apply (list_lookup_middle (t :: chain) [] c). done. }
  cbn [app]. split.
  - intros [Ht Hp Hl Hk Hi]. cbn [tail] in *.
    rewrite (app_comm_cons chain), fmap_app, NoDup_app in Hk.
    destruct Hk as (Hk & Hnew & _).
    assert (c ∈ pool ∧ is_authority c) as [? ?] by (apply Hp, elem_of_app; right; by left).
    split_and!; [split|..]; try done.
    + intros x Hx. apply Hp, elem_of_app. by left.
    + intros i x y Hx Hy. eapply Hl; by apply Hmono.
    + intros i x Hx Hlt. eapply Hi; [by apply Hmono|]. cbn in *. rewrite length_app. lia.
    + eapply (Hi (length chain)); [by apply Hmono|]. cbn. rewrite length_app. cbn. lia.
    + by eapply (Hl (length chain)); [apply Hmono|].
    + intros Hin. eapply (Hnew _ Hin). by left.
  - intros ([Ht Hp Hl Hk Hi] & Hna & Hpool & Hmay & Hauth & Hnew). split; cbn [tail] in *.
    + done.
    + intros x Hx. apply elem_of_app in Hx as [Hx|Hx]; [by apply Hp|].
      apply list_elem_of_singleton in Hx. by subst x.
    + intros i x y Hx Hy.
      destruct (decide (i = length chain)) as [->|Hne].
      { rewrite Hc in Hy. apply Hmono in Hcur. congruence. }
      pose proof (lookup_lt_Some _ _ _ Hy) as Hlt. cbn in Hlt. rewrite length_app in Hlt. cbn in Hlt.
      change ((t :: chain) ++ [c]) with (t :: chain ++ [c]) in *.
      rewrite (app_comm_cons chain) in Hx, Hy.
      rewrite lookup_app_l in Hx, Hy by (cbn; lia). by eapply Hl.
    + rewrite (app_comm_cons chain), fmap_app. apply NoDup_app. split_and!; [done| |].
      * intros k Hk' Hin. apply list_elem_of_singleton in Hin. by subst k.
      * apply NoDup_singleton.
    + intros i x Hx Hlt. cbn in Hlt. rewrite length_app in Hlt. cbn in Hlt.
      rewrite (app_comm_cons chain), lookup_app_l in Hx by (cbn; lia).
      destruct (decide (i = length chain)) as [->|Hne]; [congruence|].
      eapply Hi; [done|]. cbn. lia.
Qed.

Lemma climbs_stem cur p :
  climbs pool anchors target (cur :: p) ↔ chain_stem (reverse (cur :: p)).
Proof.
  revert cur. induction p as [|b p IH]; intros cur.
  - cbn. split.
    + intros Hc. inversion Hc; subst. split; [done| | |apply NoDup_singleton|].
      * intros c Hin. by apply not_elem_of_nil in Hin.
      * intros [|i] x y Hx Hy; done.
      * intros [|i] x Hx Hlt; [cbn in Hlt; lia|done].
    + intros [[= ->] _ _ _ _]. constructor.
  - rewrite reverse_cons, (stem_snoc _ b) by (by rewrite reverse_cons, last_snoc).
    rewrite <-IH, <-is_authority_spec, <-at_anchor_spec, not_true_iff_false.
    unfold may_issue. rewrite <-names_match_Forall2.
    rewrite fmap_reverse, elem_of_reverse, <-spki_already_in_path_spec. split.
    + intros Hc. by inversion Hc.
    + intros (? & ? & ? & ? & ? & ?). by apply climbs_issuer.
Qed.

Lemma found_above_candidate d chain : found_above d [target] chain ↔ candidate_chain d chain.
Proof.
  split.
  - intros (q & top & Hc & Htop & Hat & Hl & ->).
    destruct (q ++ [target]) as [|t p] eqn:Hq; [done|]. injection Htop as ->. split.
    + by apply climbs_stem.
    + exists top. by rewrite reverse_cons, last_snoc, <-at_anchor_spec.
    + rewrite length_reverse, <-Hq, length_app. cbn. lia.
  - intros [Hs (top & Htop & Hat) Hl].
    destruct (reverse chain) as [|t p] eqn:Hr.
    { apply (f_equal reverse) in Hr. rewrite reverse_involutive in Hr. by subst chain. }
    apply (f_equal reverse) in Hr. rewrite reverse_involutive in Hr. subst chain.
    rewrite reverse_cons, last_snoc in Htop. injection Htop as ->.
    assert (∃ q, top :: p = q ++ [target]) as [q Hq].
    { pose proof (stem_target _ Hs) as Hh. rewrite head_reverse in Hh.
      apply last_Some in Hh as [q Hq]. by exists q. }
    exists q, top. rewrite <-Hq. split_and!; [by apply climbs_stem|done|by apply at_anchor_spec| |done].
    rewrite length_reverse, Hq, length_app in Hl. cbn in Hl. lia.
Qed.

Lemma elem_of_paths_target d chain :
  chain ∈ paths pool anchors d [target] ↔ candidate_chain d chain.
Proof. rewrite <-found_above_candidate. apply elem_of_paths. constructor. Qed.
End fixed.

(** ** Enumerating the candidates *)

(** Call [next] until it returns [None] or an error. *)
Fixpoint enumerate (fuel : nat) (s : PathCandidates) :
    option (list (list Certificate) * option BuildError) :=
  match fuel with
  | 0 => None
  | S fuel =>
      '(item, s) ← path_candidates_next s;
      match item with
      | None => Some ([], None)
      | Some (inl e) => Some ([], Some e)
      | Some (inr chain) =>
          '(l, e) ← enumerate fuel s;
          Some (chain :: l, e)
      end
  end.

Section enumerate.
Variables (target : Certificate) (pool : list Certificate) (anchors : list TrustAnchor) (md : N).

Lemma enumerate_spec fuel s :
  inv target pool anchors md s → pc_done s = false → N.to_nat (pc_budget s) < fuel →
  ∃ l e, enumerate fuel s = Some (l, e) ∧ length l ≤ N.to_nat (pc_budget s) ∧
    match e with
    | None => l = rem pool anchors md (pc_frames s) (pc_path s)
    | Some e => e = BudgetExceeded ∧ l `prefix_of` rem pool anchors md (pc_frames s) (pc_path s)
    end.
Proof.
  revert s. induction fuel as [|fuel IH]; intros s Hinv Hd Hf; [lia|]. cbn [enumerate].
  pose proof (next_spec _ _ _ _ s Hinv Hd) as Hn.
  destruct (path_candidates_next s) as [[[[e|chain]|] s']|]; [| | |done]; cbn in Hn |- *.
  - destruct Hn as [-> _]. exists [], (Some BudgetExceeded). split_and!; [done|cbn; lia|done|].
    apply prefix_nil.
  - destruct Hn as (Hinv' & _ & Hrem & Hb & Hd').
    destruct (IH s') as (l & e & -> & Hl & He); [done|done|lia|]. cbn.
    exists (chain :: l), e. split_and!; [done|cbn; lia|]. rewrite Hrem.
    destruct e as [e|]; [|by subst l]. destruct He as [-> He]. split; [done|].
    by apply prefix_cons.
  - exists [], None. split_and!; [done|cbn; lia|by destruct Hn as [-> _]].
Qed.

Lemma rem_new budget :
  let s := path_candidates_new target pool anchors {| max_depth := md; dfs_budget := budget |} in
  rem pool anchors md (pc_frames s) (pc_path s) = paths pool anchors (N.to_nat md) [target].
Proof. cbn. unfold rem_frame, room. cbn. by rewrite app_nil_r, Nat.sub_0_r. Qed.
End enumerate.
End search.

(** ** The functions built on the iterator *)
Section functions.
Context `{PathAsn1} `{KeyIdAsn1}.
Implicit Types (pool : CertPool) (anchors : list TrustAnchor) (config : PathBuilderConfig).

Abbreviation chains_of target pool anchors d := (paths (certs pool) anchors d [target]).

Lemma inv_start target pool anchors config :
  inv target (certs pool) anchors (max_depth config)
    (path_candidates_new target (certs pool) anchors config).
Proof. destruct config. apply inv_new. Qed.

Lemma next_start target pool anchors config :
  ∃ item s', path_candidates_next (path_candidates_new target (certs pool) anchors config)
             = Some (item, s') ∧
    match item with
    | Some (inr chain) => head (chains_of target pool anchors (N.to_nat (max_depth config)))
                          = Some chain
    | Some (inl e) => e = BudgetExceeded
    | None => chains_of target pool anchors (N.to_nat (max_depth config)) = []
    end.
Proof.
  pose proof (next_spec target (certs pool) anchors (max_depth config) _
                (inv_start target pool anchors config) eq_refl) as Hn.
  assert (rem (certs pool) anchors (max_depth config) [frame_new] [target] =
          chains_of target pool anchors (N.to_nat (max_depth config))) as Hrem.
  { destruct config. apply (rem_new target _ _ _ 0). }
  destruct (path_candidates_next _) as [[item s']|]; [|done]. exists item, s'.
  split; [done|]. cbn [pc_frames pc_path path_candidates_new next_ok] in Hn.
  destruct item as [[e|chain]|]; [by destruct Hn| |by rewrite <-Hrem; destruct Hn].
  destruct Hn as (_ & _ & Hn & _). by rewrite <-Hrem, Hn.
Qed.

Definition probe_depth config : nat := N.to_nat (N.min usize_max (max_depth config + 1)).

Lemma depth_probe_spec target pool anchors config :
  ∃ e, depth_probe target pool anchors config = Some e ∧
    match e with
    | DepthExceeded => ∃ c, c ∈ chains_of target pool anchors (probe_depth config)
    | NoPathFound => chains_of target pool anchors (probe_depth config) = []
    | BudgetExceeded => True
    | NoValidPath _ _ => False
    end.
Proof.
  unfold depth_probe. set (pc := {| max_depth := _; dfs_budget := _ |}).
  destruct (next_start target pool anchors pc) as (item & s' & -> & Hi). cbn.
  change (N.to_nat (max_depth pc)) with (probe_depth config) in Hi.
  eexists. split; [done|]. destruct item as [[e|chain]|]; [by subst e| |done].
  destruct (chains_of _ _ _ _) as [|c l]; [done|]. exists c. by left.
Qed.

Lemma first_valid_loop_spec {V} `{SignatureVerifier V} display fuel target pool anchors policy
    (verifier : V) config s tried last_error :
  inv target (certs pool) anchors (max_depth config) s → pc_done s = false →
  N.to_nat (pc_budget s) + 1 < fuel →
  (last_error = None ↔ tried = 0) →
  let cands := rem (certs pool) anchors (max_depth config) (pc_frames s) (pc_path s) in
  let fails chain := ∃ e, validate_path chain anchors policy verifier = Err e in
  ∃ r, first_valid_loop display fuel target pool anchors policy verifier config s tried last_error
       = Some r ∧
    match r with
    | inr chain => ∃ l k vp, cands = l ++ chain :: k ∧ Forall fails l ∧
        validate_path chain anchors policy verifier = Ok vp
    | inl (NoValidPath n _) => Forall fails cands ∧ n = tried + length cands ∧ 0 < n
    | inl e => e = BudgetExceeded ∨
        (cands = [] ∧ tried = 0 ∧ depth_probe target pool anchors config = Some e)
    end.
Proof.
  revert s tried last_error. induction fuel as [|fuel IH];
    intros s tried last_error Hinv Hd Hf Ht cands fails; [lia|]. cbn [first_valid_loop].
  pose proof (next_spec _ _ _ _ s Hinv Hd) as Hn. fold cands in Hn.
  destruct (path_candidates_next s) as [[[[e|chain]|] s']|]; [| | |done];
    cbn [next_ok] in Hn; cbn [mbind option_bind].
  - destruct Hn as [-> _]. eexists. split; [done|]. by left.
  - destruct Hn as (Hinv' & _ & Hrem & Hb & Hd').
    change (rem (certs pool) anchors (max_depth config) (pc_frames s) (pc_path s)) with cands in Hrem.
    destruct (validate_path chain anchors policy verifier) as [vp|e|] eqn:Hv.
    + eexists. split; [done|]. by exists [], (rem (certs pool) anchors (max_depth config)
        (pc_frames s') (pc_path s')), vp.
    + destruct (IH s' (S tried) (Some (display e))) as (r & -> & Hr); [done|done|lia|done|].
      eexists. split; [done|]. destruct r as [[| | |n err]|c]; cbn in Hr.
      * destruct Hr as [|(_ & ? & _)]; [by left|lia].
      * destruct Hr as [|(_ & ? & _)]; [by left|lia].
      * by left.
      * destruct Hr as (Hall & -> & Hp). rewrite Hrem. split_and!; [|cbn; lia|lia].
        constructor; [by exists e|done].
      * destruct Hr as (l & k & vp & Hl & Hall & Hvp). exists (chain :: l), k, vp.
        rewrite Hrem, Hl. split_and!; [done| |done]. constructor; [by exists e|done].
    + by destruct (no_panic_validate_path chain anchors policy verifier).
  - destruct Hn as [Hrem _].
    change (rem (certs pool) anchors (max_depth config) (pc_frames s) (pc_path s)) with cands in Hrem.
    destruct last_error as [last|].
    + eexists. split; [done|]. rewrite Hrem. split_and!; [done|cbn; lia|].
      destruct tried; [|lia]. by destruct Ht as [_ Ht]; specialize (Ht eq_refl).
    + destruct (depth_probe_spec target pool anchors config) as (e & He & Hspec).
      rewrite He. eexists. split; [done|]. destruct Ht as [Ht _]. specialize (Ht eq_refl).
      destruct e; [by right..|done].
Qed.

(** What the drivers say together: [NoPathFound] of [build_first_valid_path]
    means that there is no chain, and after [NoValidPath] [build_path] returns
    a chain that fails validation. *)
Lemma build_first_valid_path_cases {V} `{SignatureVerifier V} display target pool anchors policy
    (verifier : V) :
  let cands := paths (certs pool) anchors (N.to_nat DEFAULT_MAX_DEPTH) [target] in
  let fails chain := ∃ e, validate_path chain anchors policy verifier = Err e in
  ∃ r, build_first_valid_path display target pool anchors policy verifier = Some r ∧
    match r with
    | inr chain => chain ∈ cands ∧ ∃ vp, validate_path chain anchors policy verifier = Ok vp
    | inl (NoValidPath n _) => Forall fails cands ∧
        ∃ chain, build_path target pool anchors = Some (inr chain) ∧ chain ∈ cands
    | inl BudgetExceeded => True
    | inl _ => cands = []
    end.
Proof.
  intros cands fails. set (config := path_builder_config_new).
  destruct (first_valid_loop_spec display (N.to_nat (dfs_budget config) + 2) target pool anchors
    policy verifier config (path_candidates_new target (certs pool) anchors config) 0 None)
    as (r & Hr & Hspec); [apply inv_start|done|cbn; lia|done|].
  exists r. split; [exact Hr|]. revert Hspec. unfold config, path_builder_config_new.
  rewrite (rem_new target (certs pool) anchors DEFAULT_MAX_DEPTH DEFAULT_DFS_BUDGET).
  fold cands. destruct r as [[| | |n err]|chain].
  - intros [|(? & _)]; done.
  - intros [|(? & _)]; done.
  - done.
  - intros (Hall & -> & Hn). split; [done|]. unfold build_path, build_path_with_config.
    destruct (next_start target pool anchors path_builder_config_new) as (item & s' & Hs & Hi).
    rewrite Hs. cbn [mbind option_bind]. fold cands in Hi. destruct item as [[e|chain]|].
    + subst e. fold config in Hs. rewrite Nat.add_succ_r in Hr. cbn [first_valid_loop] in Hr.
      rewrite Hs in Hr. cbn in Hr. congruence.
    + exists chain. split; [done|]. change (head cands = Some chain) in Hi.
      destruct cands; [done|]. injection Hi as ->. by left.
    + change (cands = []) in Hi. rewrite Hi in Hn. cbn in Hn. lia.
  - intros (l & k & vp & -> & _ & Hv). split; [|by exists vp].
    apply elem_of_app. right. by left.
Qed.

(** The certificates of a candidate chain: the target, then pool authorities. *)
Lemma paths_members target pool anchors d chain :
  chain ∈ paths (certs pool) anchors d [target] →
  head chain = Some target ∧ ∀ c, c ∈ chain → c = target ∨ c ∈ certs pool.
Proof.
  intros [[Ht Hp _ _ _] _ _]%elem_of_paths_target. split; [done|].
  destruct chain as [|t chain]; [done|]. injection Ht as ->.
  intros c [->|Hc]%elem_of_cons; [by left|]. right. by apply Hp.
Qed.

Lemma enumerate_start target pool anchors config :
  ∃ l e, enumerate (S (N.to_nat (dfs_budget config)))
           (build_path_candidates_with_config target pool anchors config) = Some (l, e) ∧
    length l ≤ N.to_nat (dfs_budget config) ∧
    match e with
    | None => l = paths (certs pool) anchors (N.to_nat (max_depth config)) [target]
    | Some e => e = BudgetExceeded ∧
        l `prefix_of` paths (certs pool) anchors (N.to_nat (max_depth config)) [target]
    end.
Proof.
  destruct (enumerate_spec target (certs pool) anchors (max_depth config)
    (S (N.to_nat (dfs_budget config)))
    (build_path_candidates_with_config target pool anchors config)) as (l & e & Hl & Hlen & He);
    [apply inv_start|done|cbn; lia|].
  exists l, e. split_and!; [done|done|]. revert He. destruct config as [md budget].
  by rewrite (rem_new target (certs pool) anchors md budget).
Qed.

(** ** Properties *)

(** C6: calling the iterator until it stops always terminates, without a
    panic and after at most [dfs_budget] candidates; when it stops with [None]
    it has yielded exactly the chains of the recursive depth-first search, in
    its order; when the budget ends the search, a prefix of them. *)
Theorem path_candidates_refine target pool anchors config :
  ∃ l e, enumerate (S (N.to_nat (dfs_budget config)))
           (build_path_candidates_with_config target pool anchors config) = Some (l, e) ∧
    length l ≤ N.to_nat (dfs_budget config) ∧
    match e with
    | None => l = paths (certs pool) anchors (N.to_nat (max_depth config)) [target]
    | Some e => e = BudgetExceeded ∧
        l `prefix_of` paths (certs pool) anchors (N.to_nat (max_depth config)) [target]
    end.
Proof. apply enumerate_start. Qed.

(** C7: calling the iterator until it stops gives chains that start at the
    target, go up through authorities of the pool (certificates whose first
    BasicConstraints extension decodes with [cA] set) whose subject is the
    issuer below them, without two equal keys, with at most [max_depth]
    issuers, and end at the first certificate issued by an anchor; when it
    stops with [None], every such chain was yielded. *)
Theorem path_candidates_are_candidate_chains target pool anchors config :
  ∃ l e, enumerate (S (N.to_nat (dfs_budget config)))
           (build_path_candidates_with_config target pool anchors config) = Some (l, e) ∧
    (∀ chain, chain ∈ l →
       candidate_chain target (certs pool) anchors (N.to_nat (max_depth config)) chain) ∧
    match e with
    | None => ∀ chain,
        candidate_chain target (certs pool) anchors (N.to_nat (max_depth config)) chain →
        chain ∈ l
    | Some e => e = BudgetExceeded
    end.
Proof.
  destruct (enumerate_start target pool anchors config) as (l & e & Hl & _ & He).
  exists l, e. split; [done|]. destruct e as [e|].
  - destruct He as [-> [k Hk]]. split; [|done]. intros chain Hc.
    apply elem_of_paths_target. rewrite Hk. apply elem_of_app. by left.
  - subst l. by split; intros chain; rewrite elem_of_paths_target.
Qed.

(** C8: [build_path] always returns; a chain it returns is the first the
    search finds within [max_depth]; [NoPathFound] means that there is no
    candidate chain with up to [max_depth + 1] issuers, [DepthExceeded] that
    there is one but none within [max_depth], and no other error than the
    exhaustion of the budget is returned. *)
Theorem build_path_correct target pool anchors config :
  ∃ r, build_path_with_config target pool anchors config = Some r ∧
    match r with
    | inr chain =>
        head (paths (certs pool) anchors (N.to_nat (max_depth config)) [target]) = Some chain ∧
        candidate_chain target (certs pool) anchors (N.to_nat (max_depth config)) chain
    | inl NoPathFound => ∀ c, ¬ candidate_chain target (certs pool) anchors (probe_depth config) c
    | inl DepthExceeded =>
        (∀ c, ¬ candidate_chain target (certs pool) anchors (N.to_nat (max_depth config)) c) ∧
        ∃ c, candidate_chain target (certs pool) anchors (probe_depth config) c
    | inl BudgetExceeded => True
    | inl (NoValidPath _ _) => False
    end.
Proof.
  unfold build_path_with_config.
  destruct (next_start target pool anchors config) as (item & s' & -> & Hi).
  cbn [mbind option_bind]. destruct item as [[e|chain]|].
  - subst e. by eexists.
  - eexists. split; [done|]. split; [done|]. apply elem_of_paths_target.
    destruct (chains_of _ _ _ _) as [|c l]; [done|]. injection Hi as ->. by left.
  - destruct (depth_probe_spec target pool anchors config) as (e & -> & He).
    eexists. split; [done|].
    destruct e; [|destruct He as [c Hc]|done|done].
    + intros c Hc%elem_of_paths_target. rewrite He in Hc. by apply not_elem_of_nil in Hc.
    + split; [|exists c; by apply elem_of_paths_target].
      intros c' Hc'%elem_of_paths_target. rewrite Hi in Hc'. by apply not_elem_of_nil in Hc'.
Qed.

(** [build_first_valid_path] always returns; a chain it returns is a
    candidate chain that validates, and those found before it do not;
    [NoValidPath] means that every candidate chain fails validation, and
    counts them; [NoPathFound] and [DepthExceeded] are returned only when
    there is no candidate chain. *)
Theorem build_first_valid_path_correct {V} `{SignatureVerifier V} display target pool anchors
    policy (verifier : V) config :
  let cands := paths (certs pool) anchors (N.to_nat (max_depth config)) [target] in
  let fails chain := ∃ e, validate_path chain anchors policy verifier = Err e in
  ∃ r, build_first_valid_path_with_config display target pool anchors policy verifier config
       = Some r ∧
    match r with
    | inr chain => ∃ l k vp, cands = l ++ chain :: k ∧ Forall fails l ∧
        validate_path chain anchors policy verifier = Ok vp
    | inl (NoValidPath n _) => Forall fails cands ∧ n = length cands ∧ 0 < n
    | inl BudgetExceeded => True
    | inl _ => cands = []
    end.
Proof.
  intros cands fails.
  destruct (first_valid_loop_spec display (N.to_nat (dfs_budget config) + 2) target pool anchors
    policy verifier config (path_candidates_new target (certs pool) anchors config) 0 None)
    as (r & Hr & Hspec); [apply inv_start|done|cbn; lia|done|].
  exists r. split; [exact Hr|]. revert Hspec. destruct config as [md budget].
  rewrite (rem_new target (certs pool) anchors md budget). fold cands.
  cbn [max_depth] in *. destruct r as [[| | |n err]|chain]; [| |done|done|done];
    (intros [|(? & _)]; done).
Qed.
End functions.

(** ** A pool with a cycle, a dead end and two ways to the anchor *)
Definition wit_pool : CertPool := cert_pool_from_iter [
  sample_ca "x" "ca1" 5 []; sample_ca "ca1" "x" 6 []; sample_ca "root" "ca1" 7 [] ].

Example wit_build_path :
  build_path_with_config (sample_cert "ca1" "leaf" 2 []) wit_pool [sample_anchor "root"]
    {| max_depth := 3; dfs_budget := 20 |}
  = Some (inr [sample_cert "ca1" "leaf" 2 []; sample_ca "root" "ca1" 7 []]).
Proof. vm_compute. reflexivity. Qed.

Example wit_build_path_budget :
  build_path_with_config (sample_cert "ca1" "leaf" 2 []) wit_pool [sample_anchor "root"]
    {| max_depth := 3; dfs_budget := 2 |} = Some (inl BudgetExceeded).
Proof. vm_compute. reflexivity. Qed.

Example wit_build_first_valid_path :
  build_first_valid_path_with_config (λ _, "error"%string) (sample_cert "ca1" "leaf" 2 [])
    wit_pool [sample_anchor "root"] sample_policies MkSampleVerifier
    {| max_depth := 3; dfs_budget := 20 |}
  = Some (inr [sample_cert "ca1" "leaf" 2 []; sample_ca "root" "ca1" 7 []]).
Proof. vm_compute. reflexivity. Qed.
