(* ===== verification/Revocation.v ===== *)
(** * Revocation checking: data, errors and the interface (pkix-revocation/src/lib.rs)

    [RevocationChecker] is what the chain verifier asks of a checker, and
    [NoRevocation] its trivial implementation.  The CRL and OCSP structures are
    those of the crates [x509-cert] and [x509-ocsp], restricted to the fields
    the source reads; their decoders and encoders are parameters. *)
From S2P Require Import Prelude X509 PathTypes.

(** ** CRL structures of [x509-cert] *)
Inductive CrlReason :=
| Unspecified | KeyCompromise | CaCompromise | AffiliationChanged | Superseded
| CessationOfOperation | CertificateHold | RemoveFromCRL | PrivilegeWithdrawn | AaCompromise.
#[global] Instance CrlReason_eq_dec : EqDecision CrlReason.
Proof. solve_decision. Defined.

Record RevokedCert := {
  rc_serial_number : SerialNumber;
  crl_entry_extensions : option (list Extension) }.

Record TbsCertList := {
  crl_issuer : Name;
  this_update : Time;
  next_update : option Time;
  revoked_certificates : option (list RevokedCert);
  crl_extensions : option (list Extension) }.

Record CertificateList := {
  tbs_cert_list : TbsCertList;
  crl_signature_algorithm : AlgorithmIdentifier;
  crl_signature : BitString }.

Inductive DistributionPointName :=
| FullName (names : list GeneralName)
| NameRelativeToCRLIssuer (rdn : RelativeDistinguishedName).

Record DistributionPoint := { dp_distribution_point : option DistributionPointName }.
Record CrlDistributionPoints := { cdp_points : list DistributionPoint }.

Record IssuingDistributionPoint := {
  idp_distribution_point : option DistributionPointName;
  only_contains_user_certs : bool;
  only_contains_ca_certs : bool;
  indirect_crl : bool;
  only_contains_attribute_certs : bool }.

(** [der::asn1::Uint]: the octets of the magnitude, most significant first. *)
Record Uint := { uint_bytes : bytes }.
Record GeneralNames := { general_names : list GeneralName }.

Class CrlAsn1 := {
  decode_certificate_list :: DecodeOwned CertificateList;
  encode_tbs_cert_list :: Encode TbsCertList;
  decode_crl_reason :: DecodeOwned CrlReason;
  decode_uint :: DecodeOwned Uint;
  decode_issuing_dp :: DecodeOwned IssuingDistributionPoint;
  decode_crl_distribution_points :: DecodeOwned CrlDistributionPoints;
  decode_general_names :: DecodeOwned GeneralNames;
  (** [der::Error::from(der::ErrorKind::Overflow)] *)
  overflow_error : der_error;
  (** [der::Error::new(ErrorKind::Value { tag: Tag::Sequence }, Length::ZERO)] *)
  value_sequence_error : der_error }.

(** ** Errors *)
Inductive OutOfScopeReason :=
| CrlOnlyAttributeCerts
| CrlOnlyUserCerts
| CrlOnlyCaCerts
| CrlIdpDistributionPointMismatch.

Inductive RevocationError :=
| Revoked (serial : SerialNumber) (reason_code : option CrlReason)
| CrlExpired
| CrlIssuerMismatch
| CrlSignatureInvalid
| CrlParseError (e : DerError)
| OcspSignatureInvalid
| OcspResponderIdMismatch
| OcspCertIdMismatch
| OcspIssuerCertMismatch
| OcspStatusUnknown
| OcspExpired
| OcspParseError (e : DerError)
| OcspMalformed
| OcspResponderEkuMissing
| OcspResponderEkuMalformed
| OcspResponderCertNotIssuedByCa
| OcspResponderCertExpired
| OcspResponderCertSigInvalid
| IndirectCrlIssuerMissing
| IndirectCrlIssuerUnexpected
| CrlSignMissing
| CrlSignerNotFound
| CrlSignerNotTrusted
| DeltaCrlBaseMismatch
| CrlNumberMismatch
| MalformedCertificate
| OutOfScope (reason : OutOfScopeReason)
| RevocationFetchFailed (description : string).

(** [pkix_revocation::Result<T>] *)
Abbreviation RevResult := (result RevocationError).

(** [crl_reason_serde::to_code] and [from_code] *)
Definition to_code (r : CrlReason) : N :=
  match r with
  | Unspecified => 0
  | KeyCompromise => 1
  | CaCompromise => 2
  | AffiliationChanged => 3
  | Superseded => 4
  | CessationOfOperation => 5
  | CertificateHold => 6
  | RemoveFromCRL => 8
  | PrivilegeWithdrawn => 9
  | AaCompromise => 10
  end.

Definition from_code (c : N) : option CrlReason :=
  match c with
  | 0%N => Some Unspecified
  | 1%N => Some KeyCompromise
  | 2%N => Some CaCompromise
  | 3%N => Some AffiliationChanged
  | 4%N => Some Superseded
  | 5%N => Some CessationOfOperation
  | 6%N => Some CertificateHold
  | 8%N => Some RemoveFromCRL
  | 9%N => Some PrivilegeWithdrawn
  | 10%N => Some AaCompromise
  | _ => None
  end.

(** [serialize_opt] and [deserialize_opt] on the [Option<u32>] of the format. *)
Definition serialize_opt (v : option CrlReason) : option N := to_code <$> v.
Definition deserialize_opt (v : option N) : option CrlReason := v ≫= from_code.

(** ** The interface *)

(** [trait RevocationChecker] *)
Class RevocationChecker (R : Type) := {
  check_revocation : R → Certificate → Certificate → RevResult unit;
  check_revocation_against_anchor : R → Certificate → TrustAnchor → RevResult unit }.
#[global] Hint Mode RevocationChecker ! : typeclass_instances.

(** The default body of [check_revocation_against_anchor]. *)
Definition default_check_revocation_against_anchor (cert : Certificate) (anchor : TrustAnchor) :
    RevResult unit := Ok tt.

Inductive NoRevocation := MkNoRevocation.
#[global] Instance NoRevocation_impl : RevocationChecker NoRevocation := {|
  check_revocation _ _ _ := Ok tt;
  check_revocation_against_anchor _ := default_check_revocation_against_anchor |}.

(** ** Lemmas *)
Lemma from_to_code r : from_code (to_code r) = Some r.
Proof. by destruct r. Qed.

Lemma deserialize_serialize_opt v : deserialize_opt (serialize_opt v) = v.
Proof. destruct v; [apply from_to_code|done]. Qed.

Lemma from_code_Some c r : from_code c = Some r → to_code r = c.
Proof.
  unfold from_code. intros Hc. repeat case_match; simplify_eq; done.
Qed.

(** ** Outcomes *)

(** The answer to a status: [None] not revoked, [Some r] revoked for [r]. *)
Definition answer (serial : SerialNumber) (st : option (option CrlReason)) : RevResult unit :=
  match st with None => Ok tt | Some r => Err (Revoked serial r) end.

(** A step that answers nothing: it succeeds or refuses. *)
Definition no_answer {A} (r : RevResult A) : Prop := ∀ s c, r ≠ Err (Revoked s c).

Lemma bind_answer {A} (r : RevResult A) (k : A → RevResult unit) serial st :
  no_answer r → r ≫= k = answer serial st ↔ ∃ a, r = Ok a ∧ k a = answer serial st.
Proof.
  intros Hr. destruct r as [a|e|]; cbn.
  - naive_solver.
  - split; [|naive_solver]. destruct st; [intros [= ->]; by destruct (Hr serial o)|done].
  - split; [by destruct st|naive_solver].
Qed.

Lemma no_answer_bind {A B} (r : RevResult A) (k : A → RevResult B) :
  no_answer r → (∀ a, no_answer (k a)) → no_answer (r ≫= k).
Proof. intros Hr Hk. destruct r as [a|e|]; [apply Hk| |done]. intros s c [= ->]. by apply (Hr s c). Qed.

Lemma no_answer_fail_if (b : bool) e :
  (∀ s c, e ≠ Revoked s c) → no_answer (fail_if b e).
Proof. intros He. destruct b; [|done]. intros s c [= Hs]. by apply (He s c). Qed.

Lemma no_answer_ok_or {A} (o : option A) e :
  (∀ s c, e ≠ Revoked s c) → no_answer (ok_or o e).
Proof. intros He. destruct o; [done|]. intros s c [= Hs]. by apply (He s c). Qed.

Lemma no_answer_lift_der {A} (f : der_error → RevocationError) (d : der_error + A) :
  (∀ e s c, f e ≠ Revoked s c) → no_answer (lift_der f d).
Proof. intros Hf. destruct d as [e|]; [|done]. intros s c [= Hs]. by apply (Hf e s c). Qed.

Lemma no_answer_fmap {A B} (f : A → B) (r : RevResult A) : no_answer r → no_answer (f <$> r).
Proof. intros Hr. destruct r; [done| |done]. intros s c [= ->]. by apply (Hr s c). Qed.

#[export] Hint Resolve no_answer_fmap : pkix.
#[export] Hint Extern 1 (no_answer (lift_der _ _)) =>
  apply no_answer_lift_der; discriminate : pkix.
#[export] Hint Extern 1 (no_answer (fail_if _ _)) =>
  apply no_answer_fail_if; discriminate : pkix.
#[export] Hint Extern 1 (no_answer (ok_or _ _)) =>
  apply no_answer_ok_or; discriminate : pkix.
#[export] Hint Extern 1 (no_answer (_ ≫= _)) => apply no_answer_bind; [|intros] : pkix.
#[export] Hint Extern 3 (no_answer _) => progress case_match : pkix.
#[export] Hint Extern 0 (no_answer (Ok _)) => done : pkix.
#[export] Hint Extern 0 (no_answer (mret _)) => intros ? ? ?; discriminate : pkix.
#[export] Hint Extern 1 (no_answer (Err _)) => discriminate : pkix.
