(* ===== verification/SignerDiscovery.v ===== *)
(** * Discovery of the signer of a CRL (pkix-revocation/src/signer_discovery.rs)

    The source compares references into the bundle with [core::ptr::eq]; a
    certificate of the bundle is therefore its index here, and [find_parent]
    skips the index it starts from.  [reaches_self_signed] is the bounded walk
    of the source; its bound loses nothing. *)
From S2P Require Import Prelude X509 PathTypes Names Revocation.

Definition OID_AUTHORITY_KEY_IDENTIFIER : ObjectIdentifier := [2; 5; 29; 35]%N.
Definition OID_SUBJECT_KEY_IDENTIFIER : ObjectIdentifier := [2; 5; 29; 14]%N.

(** [.crl_extensions.as_deref().unwrap_or(&[]).iter().find(|e| e.extn_id == oid)] *)
Definition find_crl_ext (crl : CertificateList) (oid : ObjectIdentifier) : option Extension :=
  snd <$> list_find (λ e, extn_id e = oid) (default [] (crl_extensions (tbs_cert_list crl))).

Section discovery.
Context `{KeyIdAsn1}.

Definition crl_authority_key_id (crl : CertificateList) : option bytes :=
  ext ← find_crl_ext crl OID_AUTHORITY_KEY_IDENTIFIER;
  match from_der (extn_value ext) with inl _ => None | inr aki => key_identifier aki end.

Definition cert_authority_key_id (cert : Certificate) : option bytes :=
  ext ← find_ext cert OID_AUTHORITY_KEY_IDENTIFIER;
  match from_der (extn_value ext) with inl _ => None | inr aki => key_identifier aki end.

Definition cert_subject_key_id (cert : Certificate) : option bytes :=
  ext ← find_ext cert OID_SUBJECT_KEY_IDENTIFIER;
  match from_der (extn_value ext) with inl _ => None | inr ski => Some (ski_bytes ski) end.

(** The index in the bundle of the certificate that signed the CRL. *)
Definition discover_crl_signer (bundle : list Certificate) (crl : CertificateList) : option nat :=
  match crl_authority_key_id crl with
  | Some aki_key_id =>
      fst <$> list_find (λ cert, cert_subject_key_id cert = Some aki_key_id) bundle
  | None =>
      fst <$> list_find (λ cert,
        names_match (subject (tbs_certificate cert)) (crl_issuer (tbs_cert_list crl)) = true) bundle
  end.

(** [enumerate] of the bundle, without the certificate at [cert]. *)
Definition others (bundle : list Certificate) (cert : nat) : list (nat * Certificate) :=
  filter (λ p, p.1 ≠ cert) (imap pair bundle).

Definition find_other (test : Certificate → bool) (bundle : list Certificate) (i : nat) :
    option nat :=
  (λ r : nat * (nat * Certificate), r.2.1) <$>
    list_find (λ p : nat * Certificate, test p.2 = true) (others bundle i).

Definition find_parent (bundle : list Certificate) (i : nat) (cert : Certificate) : option nat :=
  let by_key :=
    aki ← cert_authority_key_id cert;
    find_other (λ candidate, bool_decide (cert_subject_key_id candidate = Some aki)) bundle i in
  match by_key with
  | Some p => Some p
  | None =>
      find_other (λ candidate,
        names_match (subject (tbs_certificate candidate)) (issuer (tbs_certificate cert))) bundle i
  end.

(** The loop; [steps_left] is [max_steps - steps]. *)
Fixpoint reaches_loop (bundle : list Certificate) (steps_left : nat) (i : nat) : bool :=
  match bundle !! i with
  | None => false
  | Some current =>
      if names_match (subject (tbs_certificate current)) (issuer (tbs_certificate current))
      then true
      else match steps_left with
      | 0 => false
      | S steps_left =>
          match find_parent bundle i current with
          | Some p => reaches_loop bundle steps_left p
          | None => false
          end
      end
  end.

Definition reaches_self_signed (bundle : list Certificate) (signer : nat) : bool :=
  reaches_loop bundle (length bundle + 1) signer.

(** ** The walk as a relation *)
Section walk.
Variable bundle : list Certificate.

Definition self_signed (i : nat) : Prop :=
  ∃ c, bundle !! i = Some c ∧
    names_match (subject (tbs_certificate c)) (issuer (tbs_certificate c)) = true.

(** [j] is a parent of [i]: by key identifier, or by name. *)
Definition parent_of (i j : nat) : Prop :=
  i ≠ j ∧ ∃ c p, bundle !! i = Some c ∧ bundle !! j = Some p ∧
    ((∃ kid, cert_authority_key_id c = Some kid ∧ cert_subject_key_id p = Some kid) ∨
     names_match (subject (tbs_certificate p)) (issuer (tbs_certificate c)) = true).

(** The parent the walk goes to. *)
Definition up (i : nat) : option nat := c ← bundle !! i; find_parent bundle i c.

Lemma find_other_Some test i j :
  find_other test bundle i = Some j →
  i ≠ j ∧ ∃ p, bundle !! j = Some p ∧ test p = true.
Proof.
  unfold find_other. rewrite fmap_Some.
  intros ([k [j' p]] & (Hk & Ht & _)%list_find_Some & ->). cbn in *.
  apply list_elem_of_lookup_2, list_elem_of_filter in Hk as [Hne Hin].
  apply list_elem_of_lookup in Hin as [m Hm]. rewrite list_lookup_imap in Hm.
  destruct (bundle !! m) as [p'|] eqn:Hb; [|done]. injection Hm as -> ->.
  split; [cbn in Hne; congruence|by exists p].
Qed.

Lemma up_parent i j : up i = Some j → parent_of i j.
Proof.
  unfold up, find_parent. destruct (bundle !! i) as [c|] eqn:Hi; [cbn|done].
  destruct (cert_authority_key_id c) as [kid|] eqn:Hkid; cbn;
    [destruct (find_other _ bundle i) as [j'|] eqn:Hk|].
  - intros [= ->]. apply find_other_Some in Hk as (Hne & p & Hp & Ht%bool_decide_eq_true).
    split; [done|]. exists c, p. split_and!; [done..|left; by exists kid].
  - intros (Hne & p & Hp & Ht)%find_other_Some. split; [done|]. exists c, p. auto.
  - intros (Hne & p & Hp & Ht)%find_other_Some. split; [done|]. exists c, p. auto.
Qed.

(** The certificate after [k] steps. *)
Fixpoint climb (k i : nat) : option nat :=
  match k with 0 => Some i | S k => j ← up i; climb k j end.

Lemma climb_add k m i j : climb k i = Some j → climb (k + m) i = climb m j.
Proof.
  revert i. induction k as [|k IH]; intros i; cbn; [by intros [= ->]|].
  destruct (up i) as [i'|]; cbn; [apply IH|done].
Qed.

Lemma climb_prefix k m i j : climb (k + m) i = Some j → is_Some (climb k i).
Proof.
  revert i. induction k as [|k IH]; intros i; cbn; [by eexists|].
  destruct (up i) as [i'|]; cbn; [apply IH|done].
Qed.

Lemma reaches_loop_spec n i :
  reaches_loop bundle n i = true ↔ ∃ k j, k ≤ n ∧ climb k i = Some j ∧ self_signed j.
Proof.
  revert i. induction n as [|n IH]; intros i; cbn; unfold self_signed.
  - split.
    + destruct (bundle !! i) as [c|] eqn:Hi; [|done]. case_match; [|done]. intros _.
      exists 0, i. split_and!; [lia|done|by exists c].
    + intros ([|k] & j & ? & Hk & c & Hc & Hs); [|lia]. injection Hk as <-. by rewrite Hc, Hs.
  - split.
    + destruct (bundle !! i) as [c|] eqn:Hi; [|done]. destruct (names_match _ _) eqn:Hs.
      * intros _. exists 0, i. split_and!; [lia|done|by exists c].
      * destruct (find_parent bundle i c) as [p|] eqn:Hp; [|done].
        intros (k & j & ? & Hk & Hj)%IH. exists (S k), j. split_and!; [lia| |done].
        cbn. unfold up. rewrite Hi. cbn. by rewrite Hp.
    + intros ([|k] & j & ? & Hk & Hj).
      * injection Hk as <-. destruct Hj as (c & Hc & Hs). by rewrite Hc, Hs.
      * cbn in Hk. unfold up in Hk. destruct (bundle !! i) as [c|]; [cbn in Hk|done].
        case_match; [done|]. destruct (find_parent bundle i c) as [p|]; [|done].
        apply IH. exists k, j. split_and!; [lia|done|done].
Qed.

#[local] Instance self_signed_dec i : Decision (self_signed i).
Proof.
  unfold self_signed. destruct (bundle !! i) as [c|]; [|right; by intros (c & ? & _)].
  destruct (names_match (subject (tbs_certificate c)) (issuer (tbs_certificate c))) eqn:Hn;
    [left; by exists c|right; intros (c' & [= <-] & ?); congruence].
Defined.

Definition ends_at_root (i m : nat) : Prop := from_option self_signed False (climb m i).
#[local] Instance ends_at_root_dec i m : Decision (ends_at_root i m).
Proof. unfold ends_at_root. destruct (climb m i); cbn; apply _. Defined.

(** A shortest walk to a self-signed certificate visits each index once. *)
Lemma shortest_climb_NoDup i k :
  (∀ m, m ≤ k → is_Some (climb m i)) →
  (∀ m j, m < k → climb m i = Some j → ¬ self_signed j) →
  (∃ j, climb k i = Some j ∧ self_signed j) →
  NoDup ((λ m, climb m i) <$> seq 0 (S k)).
Proof.
  intros Hdef Hmin (j & Hk & Hj). apply NoDup_alt. intros a b x Ha Hb.
  rewrite list_lookup_fmap in Ha, Hb.
  apply fmap_Some in Ha as (a' & [-> Hak]%lookup_seq & Ha).
  apply fmap_Some in Hb as (b' & [-> Hbk]%lookup_seq & Hb). cbn [Nat.add] in *.
  assert (∀ a b, a < b → b ≤ k → climb a i = climb b i → False) as Hwlog.
  { intros c d Hcd Hd Heq. destruct (Hdef d Hd) as [y Hy].
    apply (Hmin (c + (k - d)) j); [lia| |done].
    rewrite (climb_add c (k - d) i y) by congruence. rewrite <-(climb_add d (k - d) i y) by done.
    by replace (d + (k - d)) with k by lia. }
  destruct (lt_eq_lt_dec a b) as [[?|?]|?]; [|done|]; exfalso;
    (eapply Hwlog; [done|lia|congruence]).
Qed.

Lemma shortest_climb_bound i k :
  (∀ m j, m < k → climb m i = Some j → ¬ self_signed j) →
  (∃ j, climb k i = Some j ∧ self_signed j) → k < length bundle.
Proof.
  intros Hmin Hk. assert (∀ m, m ≤ k → ∃ x, climb m i = Some x ∧ x < length bundle) as Hdef.
  { destruct Hk as (j & Hk & c & Hc & _). intros m Hm.
    destruct (climb_prefix m (k - m) i j) as [x Hx]; [by replace (m + (k - m)) with k by lia|].
    exists x. split; [done|]. destruct (decide (m = k)) as [->|Hne].
    - apply lookup_lt_Some in Hc. congruence.
    - replace k with (m + S (k - m - 1)) in Hk by lia. rewrite (climb_add _ _ _ _ Hx) in Hk.
      cbn in Hk. unfold up in Hk. destruct (bundle !! x) eqn:Hl; [|done].
      by eapply lookup_lt_Some. }
  assert (NoDup ((λ m, climb m i) <$> seq 0 (S k))) as Hnd.
  { apply shortest_climb_NoDup; [|done|done]. intros m Hm.
    destruct (Hdef m Hm) as (x & -> & _). by eexists. }
  assert ((λ m, climb m i) <$> seq 0 (S k) ⊆+ Some <$> seq 0 (length bundle)) as Hsub.
  { apply NoDup_submseteq; [done|]. intros o (m & -> & Hm%elem_of_seq)%list_elem_of_fmap.
    destruct (Hdef m) as (x & -> & Hx); [lia|]. apply list_elem_of_fmap.
    exists x. split; [done|]. apply elem_of_seq. lia. }
  apply submseteq_length in Hsub. rewrite !length_fmap, !length_seq in Hsub. lia.
Qed.

Lemma climb_shortest i k j :
  climb k i = Some j → self_signed j →
  ∃ k', (∀ m j, m < k' → climb m i = Some j → ¬ self_signed j) ∧
        ∃ j', climb k' i = Some j' ∧ self_signed j'.
Proof.
  revert j. induction k as [k IH] using lt_wf_ind. intros j Hk Hj.
  destruct (decide (Exists (ends_at_root i) (seq 0 k)))
    as [Hex|Hno].
  - apply Exists_exists in Hex as (m & Hm%elem_of_seq & Hs).
    unfold ends_at_root in Hs. destruct (climb m i) as [j'|] eqn:Hc; [|done]. apply (IH m ltac:(lia) j'); done.
  - exists k. split; [|by exists j]. intros m j' Hm Hc Hs. apply Hno, Exists_exists.
    exists m. split; [apply elem_of_seq; lia|]. unfold ends_at_root. by rewrite Hc.
Qed.
End walk.

(** The bounded walk finds every self-signed certificate there is to reach. *)
Lemma reaches_self_signed_spec bundle signer :
  reaches_self_signed bundle signer = true ↔
  ∃ k root, climb bundle k signer = Some root ∧ self_signed bundle root.
Proof.
  unfold reaches_self_signed. rewrite reaches_loop_spec. split.
  - intros (k & j & _ & ?). by exists k, j.
  - intros (k & j & Hk & Hj). destruct (climb_shortest _ _ _ _ Hk Hj) as (k' & Hmin & Hex).
    pose proof (shortest_climb_bound _ _ _ Hmin Hex) as Hb.
    destruct Hex as (j' & ? & ?). exists k', j'. split_and!; [lia|done|done].
Qed.

Lemma list_find_pair {A} (P : A → Prop) `{∀ x, Decision (P x)} (l : list A) p :
  list_find P l = Some p ↔
  l !! p.1 = Some p.2 ∧ P p.2 ∧ ∀ j y, j < p.1 → l !! j = Some y → ¬ P y.
Proof.
  destruct p as [i x]. cbn. rewrite list_find_Some. split; intros (? & ? & Hm); split_and!;
    try done; intros j y; specialize (Hm j y); auto.
Qed.

(** The candidate test of [discover_crl_signer]. *)
Definition signs_for (crl : CertificateList) (c : Certificate) : Prop :=
  match crl_authority_key_id crl with
  | Some kid => cert_subject_key_id c = Some kid
  | None => names_match (subject (tbs_certificate c)) (crl_issuer (tbs_cert_list crl)) = true
  end.

Lemma discover_crl_signer_Some bundle crl i :
  discover_crl_signer bundle crl = Some i ↔
  (∃ c, bundle !! i = Some c ∧ signs_for crl c) ∧
  ∀ j c, j < i → bundle !! j = Some c → ¬ signs_for crl c.
Proof.
  unfold discover_crl_signer, signs_for.
  destruct (crl_authority_key_id crl); rewrite fmap_Some; setoid_rewrite list_find_pair; split.
  all: try by intros ([j c] & (Hc & Hs & Hmin) & ->); split; [by exists c|exact Hmin].
  all: intros [(c & Hc & Hs) Hmin]; exists (i, c); by split_and!.
Qed.
End discovery.
