(* ===== verification/Crl.v ===== *)
(** * The offline CRL checker (pkix-revocation/src/crl.rs)

    [CrlChecker] with its five constructors and its two checks.  The two checks
    of the source repeat the same steps on an issuer certificate and on a trust
    anchor; each step is one definition here and the checks compose them in
    the order of the source. *)
From S2P Require Import Prelude X509 PathTypes Verifier Names CertChecks Revocation SignerDiscovery.

Definition OID_CRL_REASONS : ObjectIdentifier := [2; 5; 29; 21]%N.
Definition OID_CRL_NUMBER : ObjectIdentifier := [2; 5; 29; 20]%N.
Definition OID_DELTA_CRL_INDICATOR : ObjectIdentifier := [2; 5; 29; 27]%N.
Definition OID_ISSUING_DISTRIBUTION_POINT : ObjectIdentifier := [2; 5; 29; 28]%N.
Definition OID_CRL_DISTRIBUTION_POINTS : ObjectIdentifier := [2; 5; 29; 31]%N.
Definition OID_KEY_USAGE_CRL : ObjectIdentifier := [2; 5; 29; 15]%N.
Definition OID_CERTIFICATE_ISSUER : ObjectIdentifier := [2; 5; 29; 29]%N.

(** [Error::CrlParseError(crate::DerError::new(e))] *)
Definition crl_parse_error (e : der_error) : RevocationError := CrlParseError (der_error_new e).

Definition uint_to_u64 (n : Uint) : option N :=
  let b := uint_bytes n in
  if decide (8 < length b) then None else Some (from_be_bytes b).

(** ** The checker *)
Record CrlChecker (V : Type) := {
  crl : CertificateList;
  delta_crl : option CertificateList;
  crl_issuer_cert : option Certificate;
  signer_discovered : bool;
  crl_now_unix : N;
  crl_verifier : V }.
Arguments crl {V}. Arguments delta_crl {V}. Arguments crl_issuer_cert {V}.
Arguments signer_discovered {V}. Arguments crl_now_unix {V}. Arguments crl_verifier {V}.

(** [crl.tbs_cert_list.revoked_certificates.as_deref().unwrap_or(&[])] *)
Definition revoked_entries (c : CertificateList) : list RevokedCert :=
  default [] (revoked_certificates (tbs_cert_list c)).

Definition has_delta_crl_indicator (c : CertificateList) : bool :=
  existsb (λ e, bool_decide (extn_id e = OID_DELTA_CRL_INDICATOR))
    (default [] (crl_extensions (tbs_cert_list c))).

(** [.iter().find(|e| e.extn_id == oid)] on the extensions of an entry. *)
Definition find_entry_ext (entry : RevokedCert) (oid : ObjectIdentifier) : option Extension :=
  exts ← crl_entry_extensions entry;
  snd <$> list_find (λ e, extn_id e = oid) exts.

(** ** General names *)
Definition general_name_matches (a b : GeneralName) : bool :=
  match a, b with
  | DirectoryName a_dn, DirectoryName b_dn => names_match a_dn b_dn
  | _, _ => bool_decide (a = b)
  end.

Definition general_names_intersect (a b : list GeneralName) : bool :=
  existsb (λ ga, existsb (λ gb, general_name_matches ga gb) b) a.

Definition dpn_to_general_names (dpn : DistributionPointName) (base_dn : Name) :
    RevResult (list GeneralName) :=
  match dpn with
  | FullName names => Ok names
  | NameRelativeToCRLIssuer rdn => Ok [DirectoryName (base_dn ++ [rdn])]
  end.

Section crl.
Context `{PathAsn1} `{KeyIdAsn1} `{CrlAsn1} {V : Type} `{SignatureVerifier V}.

(** [crl_number] and [base_crl_number]: [None], or [Some] of a result. *)
Definition crl_ext_u64 (oid : ObjectIdentifier) (c : CertificateList) :
    option (result der_error N) :=
  ext ← find_crl_ext c oid;
  Some (n ← lift_der id (from_der (extn_value ext));
        ok_or (uint_to_u64 n) overflow_error).
Definition crl_number (c : CertificateList) := crl_ext_u64 OID_CRL_NUMBER c.
Definition base_crl_number (c : CertificateList) := crl_ext_u64 OID_DELTA_CRL_INDICATOR c.

Definition check_crl_sign (cert : Certificate) : RevResult unit :=
  match find_ext cert OID_KEY_USAGE_CRL with
  | None => Ok tt
  | Some ku_ext =>
      ku ← lift_der crl_parse_error (from_der (extn_value ku_ext));
      if crl_sign (ku : KeyUsage) then Ok tt else Err CrlSignMissing
  end.

Definition extract_reason_code (entry : RevokedCert) : option CrlReason :=
  ext ← find_entry_ext entry OID_CRL_REASONS;
  match from_der (extn_value ext) with inl _ => None | inr r => Some r end.

Definition parse_issuing_dp (c : CertificateList) : RevResult (option IssuingDistributionPoint) :=
  match find_crl_ext c OID_ISSUING_DISTRIBUTION_POINT with
  | None => Ok None
  | Some e => Some <$> lift_der crl_parse_error (from_der (extn_value e))
  end.

Definition cert_crl_distribution_points (cert : Certificate) :
    RevResult (option CrlDistributionPoints) :=
  match find_ext cert OID_CRL_DISTRIBUTION_POINTS with
  | None => Ok None
  | Some e => Some <$> lift_der crl_parse_error (from_der (extn_value e))
  end.

Definition cert_is_ca_cert (cert : Certificate) : RevResult bool :=
  map_err (λ _, MalformedCertificate) (cert_is_ca cert).

(** ** Constructors *)
Definition crl_checker_new (crl_der : bytes) (now_unix : N) (verifier : V) :
    RevResult (CrlChecker V) :=
  c ← lift_der crl_parse_error (from_der crl_der);
  mret {| crl := c; delta_crl := None; crl_issuer_cert := None; signer_discovered := false;
          crl_now_unix := now_unix; crl_verifier := verifier |}.

Definition new_with_crl_issuer (crl_der : bytes) (crl_issuer_cert : Certificate) (now_unix : N)
    (verifier : V) : RevResult (CrlChecker V) :=
  c ← lift_der crl_parse_error (from_der crl_der);
  mret {| crl := c; delta_crl := None; crl_issuer_cert := Some crl_issuer_cert;
          signer_discovered := false; crl_now_unix := now_unix; crl_verifier := verifier |}.

Definition new_with_signer_discovery (crl_der : bytes) (bundle : list Certificate)
    (cert_to_check : Certificate) (now_unix : N) (verifier : V) : RevResult (CrlChecker V) :=
  c ← lift_der crl_parse_error (from_der crl_der);
  i ← ok_or (discover_crl_signer bundle c) CrlSignerNotFound;
  signer ← index bundle i;
  _ ← check_crl_sign signer;
  _ ← fail_if (negb (reaches_self_signed bundle i)) CrlSignerNotTrusted;
  mret {| crl := c; delta_crl := None; crl_issuer_cert := Some signer;
          signer_discovered := true; crl_now_unix := now_unix; crl_verifier := verifier |}.

Definition with_delta (base_der delta_der : bytes) (now_unix : N) (verifier : V) :
    RevResult (CrlChecker V) :=
  base_crl ← lift_der crl_parse_error (from_der base_der);
  delta_crl ← lift_der crl_parse_error (from_der delta_der);
  _ ← fail_if (has_delta_crl_indicator base_crl) DeltaCrlBaseMismatch;
  _ ← fail_if (negb (has_delta_crl_indicator delta_crl)) DeltaCrlBaseMismatch;
  delta_base ← ok_or (base_crl_number delta_crl) DeltaCrlBaseMismatch;
  delta_base_num ← map_err crl_parse_error delta_base;
  _ ← fail_if (negb (names_match (crl_issuer (tbs_cert_list base_crl))
                       (crl_issuer (tbs_cert_list delta_crl)))) DeltaCrlBaseMismatch;
  _ ← match crl_number base_crl with
      | Some base_num_result =>
          base_num ← map_err crl_parse_error base_num_result;
          fail_if (bool_decide (base_num < delta_base_num)%N) CrlNumberMismatch
      | None => Ok tt
      end;
  mret {| crl := base_crl; delta_crl := Some delta_crl; crl_issuer_cert := None;
          signer_discovered := false; crl_now_unix := now_unix; crl_verifier := verifier |}.

Definition with_delta_and_crl_issuer (base_der delta_der : bytes) (crl_issuer_cert : Certificate)
    (now_unix : N) (verifier : V) : RevResult (CrlChecker V) :=
  checker ← with_delta base_der delta_der now_unix verifier;
  mret {| crl := crl checker; delta_crl := delta_crl checker;
          crl_issuer_cert := Some crl_issuer_cert;
          signer_discovered := signer_discovered checker;
          crl_now_unix := crl_now_unix checker; crl_verifier := crl_verifier checker |}.

(** ** The steps of a check *)

(** The subject, the key, and the certificate whose [cRLSign] bit is tested. *)
Record Signer := {
  signer_subject : Name;
  signer_spki : SubjectPublicKeyInfo;
  signer_for_crlsign_check : option Certificate }.

Definition signer_of_cert (c : Certificate) : Signer := {|
  signer_subject := subject (tbs_certificate c);
  signer_spki := subject_public_key_info (tbs_certificate c);
  signer_for_crlsign_check := Some c |}.

Definition signer_of_anchor (a : TrustAnchor) : Signer := {|
  signer_subject := anchor_subject a; signer_spki := anchor_spki a;
  signer_for_crlsign_check := None |}.

(** Step (2): [own] is the signer of a direct CRL. *)
Definition select_signer (self : CrlChecker V) (parsed_idp : option IssuingDistributionPoint)
    (own : Signer) : RevResult Signer :=
  let crl_declares_indirect := from_option indirect_crl false parsed_idp in
  match crl_issuer_cert self, crl_declares_indirect with
  | Some crl_issuer, true => Ok (signer_of_cert crl_issuer)
  | Some discovered, false =>
      if signer_discovered self then Ok (signer_of_cert discovered)
      else Err IndirectCrlIssuerUnexpected
  | None, true => Err IndirectCrlIssuerMissing
  | None, false => Ok own
  end.

(** The validity window of a CRL. *)
Definition check_crl_window (c : CertificateList) (now_unix : N) : RevResult unit :=
  _ ← fail_if (bool_decide (now_unix < to_unix_secs (this_update (tbs_cert_list c)))%N) CrlExpired;
  next_update ← ok_or (next_update (tbs_cert_list c)) CrlExpired;
  fail_if (bool_decide (to_unix_secs next_update < now_unix)%N) CrlExpired.

(** The signature of a CRL. *)
Definition check_crl_signature (c : CertificateList) (spki : SubjectPublicKeyInfo) (verifier : V) :
    RevResult unit :=
  tbs_bytes ← lift_der crl_parse_error (to_der (tbs_cert_list c));
  if verify_signature verifier (crl_signature_algorithm c) spki tbs_bytes
       (raw_bytes (crl_signature c))
  then Ok tt else Err CrlSignatureInvalid.

Definition check_idp_dp_scope (cert : Certificate) (idp : IssuingDistributionPoint)
    (cert_issuer crl_signer_subject : Name) : RevResult unit :=
  cert_cdps ← cert_crl_distribution_points cert;
  match cert_cdps, idp_distribution_point idp with
  | _, None => Ok tt
  | None, Some _ => Err (OutOfScope CrlIdpDistributionPointMismatch)
  | Some cert_cdps, Some idp_dpn =>
      idp_names ← dpn_to_general_names idp_dpn crl_signer_subject;
      let matched := existsb (λ dp,
        match dp_distribution_point dp with
        | None => false
        | Some cdp_dpn =>
            match dpn_to_general_names cdp_dpn cert_issuer with
            | Ok cdp_names => general_names_intersect cdp_names idp_names
            | _ => false
            end
        end) (cdp_points cert_cdps) in
      if matched : bool then Ok tt else Err (OutOfScope CrlIdpDistributionPointMismatch)
  end.

(** Step (5): the scope of the CRL. *)
Definition check_idp_scope (cert : Certificate) (parsed_idp : option IssuingDistributionPoint)
    (signer_subject : Name) : RevResult unit :=
  match parsed_idp with
  | None => Ok tt
  | Some idp =>
      _ ← fail_if (only_contains_attribute_certs idp) (OutOfScope CrlOnlyAttributeCerts);
      cert_is_ca ← cert_is_ca_cert cert;
      _ ← fail_if (only_contains_user_certs idp && cert_is_ca) (OutOfScope CrlOnlyUserCerts);
      _ ← fail_if (only_contains_ca_certs idp && negb cert_is_ca) (OutOfScope CrlOnlyCaCerts);
      check_idp_dp_scope cert idp (issuer (tbs_certificate cert)) signer_subject
  end.

Definition verify_delta_crl_and_collect (delta : CertificateList) (verifier : V)
    (issuer_spki : SubjectPublicKeyInfo) (expected_issuer_name : Name) (now_unix : N) :
    RevResult (list RevokedCert) :=
  _ ← fail_if (negb (names_match (crl_issuer (tbs_cert_list delta)) expected_issuer_name))
        CrlIssuerMismatch;
  _ ← check_crl_window delta now_unix;
  _ ← check_crl_signature delta issuer_spki verifier;
  mret (revoked_entries delta).

(** Step (6): the entries of the delta. *)
Definition delta_entries (self : CrlChecker V) (signer : Signer) : RevResult (list RevokedCert) :=
  match delta_crl self with
  | None => Ok []
  | Some delta =>
      _ ← fail_if (negb (names_match (crl_issuer (tbs_cert_list delta))
                           (crl_issuer (tbs_cert_list (crl self))))) CrlIssuerMismatch;
      verify_delta_crl_and_collect delta (crl_verifier self) (signer_spki signer)
        (signer_subject signer) (crl_now_unix self)
  end.

Definition parse_certificate_issuer_dn (ext_value_der : bytes) : RevResult Name :=
  names ← lift_der crl_parse_error (from_der ext_value_der);
  match head (omap (λ gn, match gn with DirectoryName name => Some name | _ => None end)
                (general_names names)) with
  | Some name => Ok name
  | None => Err (crl_parse_error value_sequence_error)
  end.

(** The issuer in force from an entry on. *)
Definition update_effective (is_indirect : bool) (effective : Name) (entry : RevokedCert) :
    RevResult Name :=
  if is_indirect then
    match find_entry_ext entry OID_CERTIFICATE_ISSUER with
    | Some ce_ext => parse_certificate_issuer_dn (extn_value ce_ext)
    | None => Ok effective
    end
  else Ok effective.

(** The loop of [find_matching_entry]. *)
Fixpoint matching_loop (cert_issuer : Name) (cert_serial : SerialNumber) (is_indirect : bool)
    (effective : Name) (entries : list RevokedCert) : RevResult (option RevokedCert) :=
  match entries with
  | [] => Ok None
  | entry :: entries =>
      effective ← update_effective is_indirect effective entry;
      if bool_decide (rc_serial_number entry = cert_serial) && names_match effective cert_issuer
      then Ok (Some entry)
      else matching_loop cert_issuer cert_serial is_indirect effective entries
  end.

Definition find_matching_entry (cert_issuer : Name) (cert_serial : SerialNumber)
    (entries : list RevokedCert) (crl_default_issuer : Name) (is_indirect : bool) :
    RevResult (option RevokedCert) :=
  matching_loop cert_issuer cert_serial is_indirect crl_default_issuer entries.

Definition check_revocation_status_indirect (cert_issuer : Name) (cert_serial : SerialNumber)
    (delta_entries : list RevokedCert) (c : CertificateList) (crl_default_issuer : Name)
    (is_indirect : bool) : RevResult unit :=
  in_delta ← find_matching_entry cert_issuer cert_serial delta_entries crl_default_issuer
               is_indirect;
  match in_delta with
  | Some entry =>
      let reason := extract_reason_code entry in
      if decide (reason = Some RemoveFromCRL) then Ok tt else Err (Revoked cert_serial reason)
  | None =>
      in_base ← find_matching_entry cert_issuer cert_serial (revoked_entries c)
                  crl_default_issuer is_indirect;
      match in_base with
      | Some entry => Err (Revoked cert_serial (extract_reason_code entry))
      | None => Ok tt
      end
  end.

(** The steps after the names are checked, the same in the two checks. *)
Definition check_with_signer (self : CrlChecker V) (cert : Certificate)
    (parsed_idp : option IssuingDistributionPoint) (signer : Signer) : RevResult unit :=
  _ ← match signer_for_crlsign_check signer with
      | Some signer_cert => check_crl_sign signer_cert
      | None => Ok tt
      end;
  _ ← check_crl_window (crl self) (crl_now_unix self);
  _ ← check_crl_signature (crl self) (signer_spki signer) (crl_verifier self);
  _ ← check_idp_scope cert parsed_idp (signer_subject signer);
  delta ← delta_entries self signer;
  check_revocation_status_indirect (issuer (tbs_certificate cert))
    (serial_number (tbs_certificate cert)) delta (crl self)
    (crl_issuer (tbs_cert_list (crl self))) (bool_decide (is_Some (crl_issuer_cert self))).

(** ** The two checks *)
Definition crl_check_revocation (self : CrlChecker V) (cert issuer_cert : Certificate) :
    RevResult unit :=
  parsed_idp ← parse_issuing_dp (crl self);
  signer ← select_signer self parsed_idp (signer_of_cert issuer_cert);
  _ ← fail_if (negb (names_match (crl_issuer (tbs_cert_list (crl self))) (signer_subject signer)))
        CrlIssuerMismatch;
  _ ← fail_if (negb (names_match (subject (tbs_certificate issuer_cert))
                       (issuer (tbs_certificate cert)))) CrlIssuerMismatch;
  _ ← fail_if (bool_decide (crl_issuer_cert self = None) &&
               negb (names_match (issuer (tbs_certificate cert))
                       (crl_issuer (tbs_cert_list (crl self))))) CrlIssuerMismatch;
  check_with_signer self cert parsed_idp signer.

Definition crl_check_revocation_against_anchor (self : CrlChecker V) (cert : Certificate)
    (anchor : TrustAnchor) : RevResult unit :=
  parsed_idp ← parse_issuing_dp (crl self);
  signer ← select_signer self parsed_idp (signer_of_anchor anchor);
  _ ← fail_if (negb (names_match (crl_issuer (tbs_cert_list (crl self))) (signer_subject signer)))
        CrlIssuerMismatch;
  _ ← fail_if (negb (names_match (issuer (tbs_certificate cert)) (anchor_subject anchor)))
        CrlIssuerMismatch;
  check_with_signer self cert parsed_idp signer.

#[global] Instance CrlChecker_impl : RevocationChecker (CrlChecker V) := {|
  check_revocation := crl_check_revocation;
  check_revocation_against_anchor := crl_check_revocation_against_anchor |}.
End crl.
