(* ===== verification/CrlSpec.v ===== *)
(** * What the CRL checker promises (pkix-revocation/src/crl.rs)

    [crl_usable] lists the conditions under which a CRL (with its delta) is
    consulted for a certificate, [crl_status] what it then says, both without
    reference to the loops of the checker; the two checks return [Ok] or
    [Revoked] exactly as these say, and every other outcome is a refusal to
    answer. *)
From S2P Require Import Prelude X509 PathTypes Verifier Samples Names CertChecks Revocation SignerDiscovery Crl.

Section spec.
Context `{PathAsn1} `{KeyIdAsn1} `{CrlAsn1} {V : Type} `{SignatureVerifier V}.
Implicit Types (self : CrlChecker V) (c : CertificateList).

(** ** The entries *)

(** The [certificateIssuer] extensions of the entries; a direct CRL has none. *)
Definition issuer_exts (is_indirect : bool) (entries : list RevokedCert) : list Extension :=
  if is_indirect then omap (λ e, find_entry_ext e OID_CERTIFICATE_ISSUER) entries else [].

(** The issuer an entry is about: that of the last such extension up to it. *)
Definition issuer_in_force (is_indirect : bool) (default : Name) (entries : list RevokedCert)
    (i : nat) (n : Name) : Prop :=
  match last (issuer_exts is_indirect (take (S i) entries)) with
  | Some ext => parse_certificate_issuer_dn (extn_value ext) = Ok n
  | None => n = default
  end.

(** They can be read. *)
Definition readable (is_indirect : bool) (entries : list RevokedCert) : Prop :=
  Forall (λ ext, ∃ n, parse_certificate_issuer_dn (extn_value ext) = Ok n)
    (issuer_exts is_indirect entries).

Definition listed_at (cert_issuer : Name) (cert_serial : SerialNumber) (is_indirect : bool)
    (default : Name) (entries : list RevokedCert) (i : nat) (e : RevokedCert) : Prop :=
  entries !! i = Some e ∧ rc_serial_number e = cert_serial ∧
  ∃ n, issuer_in_force is_indirect default entries i n ∧ names_match n cert_issuer = true.

(** The first entry about the certificate. *)
Definition first_listed cert_issuer cert_serial is_indirect default entries e : Prop :=
  ∃ i, listed_at cert_issuer cert_serial is_indirect default entries i e ∧
    (∀ j e', j < i → ¬ listed_at cert_issuer cert_serial is_indirect default entries j e') ∧
    readable is_indirect (take (S i) entries).

Definition not_listed cert_issuer cert_serial is_indirect default entries : Prop :=
  (∀ i e, ¬ listed_at cert_issuer cert_serial is_indirect default entries i e) ∧
  readable is_indirect entries.

Lemma update_effective_spec ind default e d :
  update_effective ind default e = Ok d ↔
  readable ind [e] ∧ issuer_in_force ind default [e] 0 d.
Proof.
  unfold update_effective, readable, issuer_in_force, issuer_exts. destruct ind; cbn.
  - destruct (find_entry_ext e OID_CERTIFICATE_ISSUER) as [ext|]; cbn.
    + rewrite Forall_singleton. naive_solver.
    + split; [intros [= ->]|intros [_ ->]]; done.
  - split; [intros [= ->]|intros [_ ->]]; done.
Qed.

Lemma issuer_exts_cons ind e l :
  issuer_exts ind (e :: l) = issuer_exts ind [e] ++ issuer_exts ind l.
Proof. unfold issuer_exts. destruct ind; [|done]. cbn. by destruct (find_entry_ext _ _). Qed.

Lemma readable_cons ind e l : readable ind (e :: l) ↔ readable ind [e] ∧ readable ind l.
Proof. unfold readable. by rewrite issuer_exts_cons, Forall_app. Qed.

(** Past the first entry its issuer is the default. *)
Lemma issuer_in_force_cons ind default e d l i n :
  issuer_in_force ind default [e] 0 d →
  issuer_in_force ind default (e :: l) (S i) n ↔ issuer_in_force ind d l i n.
Proof.
  unfold issuer_in_force. change (take (S (S i)) (e :: l)) with (e :: take (S i) l).
  rewrite (issuer_exts_cons _ e), last_app. cbn [take].
  destruct (last (issuer_exts ind (take (S i) l))) as [ext|] eqn:Hl; [done|].
  destruct (last (issuer_exts ind [e])) as [ext|]; [|by intros ->].
  intros Hd. rewrite Hd. split; [by intros [= ->]|by intros ->].
Qed.

Lemma issuer_in_force_fun ind default l i n n' :
  issuer_in_force ind default l i n → issuer_in_force ind default l i n' → n = n'.
Proof. unfold issuer_in_force. case_match; congruence. Qed.

(** ** The search *)
Lemma matching_loop_Ok cert_issuer serial ind default l r :
  matching_loop cert_issuer serial ind default l = Ok r ↔
  match r with
  | Some e => first_listed cert_issuer serial ind default l e
  | None => not_listed cert_issuer serial ind default l
  end.
Proof.
  revert default. induction l as [|x l IH]; intros default; cbn [matching_loop].
  - split.
    + intros [= <-]. split; [by intros i e [? _]|]. unfold readable, issuer_exts.
      by destruct ind; constructor.
    + destruct r; [|done]. by intros (i & [? _] & _).
  - rewrite bind_Ok. setoid_rewrite update_effective_spec.
    assert (∀ d i e, issuer_in_force ind default [x] 0 d →
      listed_at cert_issuer serial ind default (x :: l) (S i) e ↔
      listed_at cert_issuer serial ind d l i e) as Hshift.
    { intros d i e Hd. unfold listed_at. cbn. by setoid_rewrite issuer_in_force_cons. }
    assert (∀ d e, issuer_in_force ind default [x] 0 d →
      listed_at cert_issuer serial ind default (x :: l) 0 e ↔
      x = e ∧ (bool_decide (rc_serial_number x = serial) && names_match d cert_issuer) = true)
      as Hzero.
    { intros d e Hd. unfold listed_at. cbn [lookup list_lookup].
      rewrite andb_true_iff, bool_decide_eq_true. split.
      - intros ([= ->] & Hs & n & Hn & Hm). split_and!; [done..|].
        by rewrite (issuer_in_force_fun _ _ _ _ _ _ Hd Hn).
      - intros (-> & Hs & Hm). split_and!; [done..|by exists d]. }
    split.
    + intros (d & [Hr Hd] & Hl). destruct (_ && _) eqn:Hb.
      * injection Hl as <-. exists 0. split; [by apply (Hzero d)|].
        split; [lia|done].
      * apply IH in Hl. destruct r as [e|].
        -- destruct Hl as (i & Hi & Hmin & Hread). exists (S i).
           split; [by apply (Hshift d)|]. split; [|by apply readable_cons].
           intros [|j] e' Hj; [rewrite (Hzero d) by done; intros [_ ?]; congruence|].
           rewrite (Hshift d) by done. apply Hmin. lia.
        -- destruct Hl as [Hno Hread]. split; [|by apply readable_cons].
           intros [|i] e; [rewrite (Hzero d) by done; intros [_ ?]; congruence|].
           by rewrite (Hshift d).
    + intros Hl.
      assert (readable ind [x]) as Hx.
      { destruct r as [e|]; [destruct Hl as (i & _ & _ & Hl)|destruct Hl as [_ Hl]];
          by apply readable_cons in Hl as [? _]. }
      assert (∃ d, issuer_in_force ind default [x] 0 d) as [d Hd].
      { unfold readable in Hx. unfold issuer_in_force. cbn [take].
        destruct (last (issuer_exts ind [x])) as [ext|] eqn:Hlast; [|by eexists].
        rewrite Forall_forall in Hx. apply Hx. by apply last_Some_elem_of. }
      exists d. split; [done|]. destruct (_ && _) eqn:Hb.
      * destruct r as [e|].
        -- destruct Hl as ([|i] & Hi & Hmin & _).
           ++ apply (Hzero d) in Hi as [-> _]; done.
           ++ destruct (Hmin 0 x); [lia|by apply (Hzero d)].
        -- destruct Hl as [Hno _]. destruct (Hno 0 x). by apply (Hzero d).
      * apply IH. destruct r as [e|].
        -- destruct Hl as ([|i] & Hi & Hmin & Hread).
           ++ apply (Hzero d) in Hi as [_ ?]; congruence.
           ++ exists i. split; [by apply (Hshift d)|]. split.
              ** intros j e' Hj. rewrite <-(Hshift d) by done. apply Hmin. lia.
              ** by apply readable_cons in Hread as [_ ?].
        -- destruct Hl as [Hno Hread]. split; [|by apply readable_cons in Hread as [_ ?]].
           intros i e. rewrite <-(Hshift d) by done. apply Hno.
Qed.

(** ** The status of a certificate *)

(** [None] is not revoked, [Some reason] revoked.  The delta decides first. *)
Inductive crl_status (cert_issuer : Name) (serial : SerialNumber) (ind : bool) (default : Name)
    (delta base : list RevokedCert) : option (option CrlReason) → Prop :=
| status_removed e :
    first_listed cert_issuer serial ind default delta e →
    extract_reason_code e = Some RemoveFromCRL →
    crl_status cert_issuer serial ind default delta base None
| status_delta e :
    first_listed cert_issuer serial ind default delta e →
    extract_reason_code e ≠ Some RemoveFromCRL →
    crl_status cert_issuer serial ind default delta base (Some (extract_reason_code e))
| status_base e :
    not_listed cert_issuer serial ind default delta →
    first_listed cert_issuer serial ind default base e →
    crl_status cert_issuer serial ind default delta base (Some (extract_reason_code e))
| status_good :
    not_listed cert_issuer serial ind default delta →
    not_listed cert_issuer serial ind default base →
    crl_status cert_issuer serial ind default delta base None.

Lemma no_answer_update_effective ind d e : no_answer (update_effective ind d e).
Proof. unfold update_effective, parse_certificate_issuer_dn. eauto 6 with pkix. Qed.

Lemma no_answer_matching_loop n s ind d l : no_answer (matching_loop n s ind d l).
Proof.
  revert d. induction l as [|e l IH]; intros d; cbn [matching_loop]; [done|].
  apply no_answer_bind; [apply no_answer_update_effective|]. intros a. by case_match.
Qed.

Lemma check_revocation_status_spec n serial delta c ind st :
  check_revocation_status_indirect n serial delta c (crl_issuer (tbs_cert_list c)) ind
    = answer serial st ↔
  crl_status n serial ind (crl_issuer (tbs_cert_list c)) delta (revoked_entries c) st.
Proof.
  unfold check_revocation_status_indirect, find_matching_entry.
  rewrite bind_answer by apply no_answer_matching_loop. setoid_rewrite matching_loop_Ok.
  split.
  - intros ([e|] & He & Hr).
    + case_decide as Hd; [destruct st; [done|]|destruct st; [|done]].
      * by apply (status_removed _ _ _ _ _ _ e).
      * injection Hr as <-. by apply status_delta.
    + apply bind_answer in Hr as (r & Hr & Hst); [|apply no_answer_matching_loop].
      rewrite matching_loop_Ok in Hr.
      destruct r as [e|], st as [o|]; try done.
      * injection Hst as <-. by apply status_base.
      * by apply status_good.
  - intros [e He Hr|e He Hr|e Hd He|Hd Hb].
    + exists (Some e). split; [done|]. by rewrite decide_True.
    + exists (Some e). split; [done|]. by rewrite decide_False.
    + exists None. split; [done|]. apply bind_answer; [apply no_answer_matching_loop|].
      exists (Some e). by rewrite matching_loop_Ok.
    + exists None. split; [done|]. apply bind_answer; [apply no_answer_matching_loop|].
      exists None. by rewrite matching_loop_Ok.
Qed.

(** ** When a CRL is consulted *)
Definition window_ok c (now : N) : Prop :=
  (to_unix_secs (this_update (tbs_cert_list c)) ≤ now)%N ∧
  ∃ t, next_update (tbs_cert_list c) = Some t ∧ (now ≤ to_unix_secs t)%N.

Definition signed_by c (k : SubjectPublicKeyInfo) (v : V) : Prop :=
  ∃ tbs, to_der (tbs_cert_list c) = inr tbs ∧
    verify_signature v (crl_signature_algorithm c) k tbs (raw_bytes (crl_signature c)) = true.

Definition may_sign_crls (cert : Certificate) : Prop :=
  ∀ ext, find_ext cert OID_KEY_USAGE_CRL = Some ext →
    ∃ ku : KeyUsage, from_der (extn_value ext) = inr ku ∧ crl_sign ku = true.

(** The names a distribution point stands for. *)
Definition dp_names (d : DistributionPointName) (base_dn : Name) : list GeneralName :=
  match d with
  | FullName names => names
  | NameRelativeToCRLIssuer rdn => [DirectoryName (base_dn ++ [rdn])]
  end.

(** A distribution point of the certificate shares a name with that of the CRL. *)
Definition dp_in_scope (cert : Certificate) (d : DistributionPointName) (base_dn : Name) : Prop :=
  ∃ cdp p d' a b, cert_crl_distribution_points cert = Ok (Some cdp) ∧ p ∈ cdp_points cdp ∧
    dp_distribution_point p = Some d' ∧ a ∈ dp_names d' (issuer (tbs_certificate cert)) ∧
    b ∈ dp_names d base_dn ∧ general_name_matches a b = true.

Record in_scope (cert : Certificate) (idp : IssuingDistributionPoint) (base_dn : Name) : Prop := {
  scope_not_attribute : only_contains_attribute_certs idp = false;
  scope_cdp : ∃ o, cert_crl_distribution_points cert = Ok o;
  scope_kind : ∃ is_ca, cert_is_ca cert = Ok is_ca ∧
    (only_contains_user_certs idp = true → is_ca = false) ∧
    (only_contains_ca_certs idp = true → is_ca = true);
  scope_dp : ∀ d, idp_distribution_point idp = Some d → dp_in_scope cert d base_dn }.

(** Who signed the CRL. *)
Definition signer_rule self (idp : option IssuingDistributionPoint) (own signer : Signer) : Prop :=
  match crl_issuer_cert self with
  | None => from_option indirect_crl false idp = false ∧ signer = own
  | Some c => signer = signer_of_cert c ∧
      (from_option indirect_crl false idp = true ∨ signer_discovered self = true)
  end.

(** The delta, when there is one, is as authentic and as fresh as the base. *)
Definition delta_usable self (signer : Signer) (delta : list RevokedCert) : Prop :=
  match delta_crl self with
  | None => delta = []
  | Some d =>
      names_match (crl_issuer (tbs_cert_list d)) (crl_issuer (tbs_cert_list (crl self))) = true ∧
      names_match (crl_issuer (tbs_cert_list d)) (signer_subject signer) = true ∧
      window_ok d (crl_now_unix self) ∧ signed_by d (signer_spki signer) (crl_verifier self) ∧
      delta = revoked_entries d
  end.

(** All the conditions of a check with the signer [own] of a direct CRL. *)
Record crl_usable self (cert : Certificate) (own signer : Signer)
    (idp : option IssuingDistributionPoint) (delta : list RevokedCert) : Prop := {
  usable_idp : parse_issuing_dp (crl self) = Ok idp;
  usable_signer : signer_rule self idp own signer;
  usable_name : names_match (crl_issuer (tbs_cert_list (crl self))) (signer_subject signer) = true;
  usable_crl_sign : ∀ sc, signer_for_crlsign_check signer = Some sc → may_sign_crls sc;
  usable_window : window_ok (crl self) (crl_now_unix self);
  usable_signature : signed_by (crl self) (signer_spki signer) (crl_verifier self);
  usable_scope : ∀ i, idp = Some i → in_scope cert i (signer_subject signer);
  usable_delta : delta_usable self signer delta }.

(** ** Each step decides its condition *)
Lemma check_crl_sign_Ok cert : check_crl_sign cert = Ok tt ↔ may_sign_crls cert.
Proof.
  unfold check_crl_sign, may_sign_crls. destruct (find_ext cert OID_KEY_USAGE_CRL) as [ext|].
  - rewrite bind_Ok. setoid_rewrite lift_der_Ok. split.
    + intros (ku & Hku & Hs) ? [= <-]. exists ku. by destruct (crl_sign ku).
    + intros Hk. destruct (Hk ext eq_refl) as (ku & Hku & Hs). exists ku. by rewrite Hs.
  - split; [by intros|done].
Qed.

Lemma check_crl_window_Ok c now : check_crl_window c now = Ok tt ↔ window_ok c now.
Proof.
  unfold check_crl_window, window_ok. rewrite bind_Ok. setoid_rewrite bind_Ok.
  setoid_rewrite ok_or_Ok. setoid_rewrite fail_if_Ok. split.
  - intros ([] & Hb%bool_decide_eq_false & t & Ht & Hn%bool_decide_eq_false).
    split; [lia|]. exists t. split; [done|lia].
  - intros (Hb & t & Ht & Hn). exists tt. split; [apply bool_decide_eq_false; lia|].
    exists t. split; [done|]. apply bool_decide_eq_false. lia.
Qed.

Lemma check_crl_signature_Ok c k v : check_crl_signature c k v = Ok tt ↔ signed_by c k v.
Proof.
  unfold check_crl_signature, signed_by. rewrite bind_Ok. setoid_rewrite lift_der_Ok.
  apply exist_proper; intros tbs. destruct (verify_signature _ _ _ _ _);
    (split; intros [? ?]; done).
Qed.

Lemma dpn_to_general_names_Ok d base_dn :
  dpn_to_general_names d base_dn = Ok (dp_names d base_dn).
Proof. by destruct d. Qed.

Lemma check_idp_dp_scope_Ok cert idp base_dn :
  check_idp_dp_scope cert idp (issuer (tbs_certificate cert)) base_dn = Ok tt ↔
  (∃ o, cert_crl_distribution_points cert = Ok o) ∧
  ∀ d, idp_distribution_point idp = Some d → dp_in_scope cert d base_dn.
Proof.
  unfold check_idp_dp_scope, dp_in_scope.
  destruct (cert_crl_distribution_points cert) as [o|e|]; cbn [mbind result_bind]; cycle 1.
  1,2: split; [done|by intros [(? & ?) _]].
  destruct (idp_distribution_point idp) as [d|]; cycle 1.
  { split; [intros _; split; [by eexists|done]|]. by destruct o. }
  destruct o as [cdp|]; cycle 1.
  { split; [done|]. intros [_ Hd]. by destruct (Hd d eq_refl) as (? & ? & ? & ? & ? & ? & _). }
  rewrite dpn_to_general_names_Ok. cbn [mbind result_bind].
  set (m := existsb _ (cdp_points cdp)).
  assert (m = true ↔ ∃ p d' a b, p ∈ cdp_points cdp ∧ dp_distribution_point p = Some d' ∧
    a ∈ dp_names d' (issuer (tbs_certificate cert)) ∧ b ∈ dp_names d base_dn ∧
    general_name_matches a b = true) as Hm.
  { unfold m. rewrite existsb_elem. apply exist_proper; intros p.
    destruct (dp_distribution_point p) as [d'|]; cycle 1.
    { split; [by intros [_ ?]|]. by intros (? & ? & ? & _ & ? & _). }
    rewrite dpn_to_general_names_Ok. unfold general_names_intersect.
    rewrite existsb_elem. setoid_rewrite existsb_elem. split.
    - intros (Hp & a & Ha & b & Hb & Hg). by exists d', a, b.
    - intros (d2 & a & b & Hp & [= <-] & Ha & Hb & Hg). split; [done|]. eauto 6. }
  split.
  - intros Hd. split; [by eexists|]. intros ? [= <-].
    destruct m; [|done]. destruct (proj1 Hm eq_refl) as (p & d' & a & b & ?).
    exists cdp, p, d', a, b. by split.
  - intros [_ Hd]. destruct (Hd d eq_refl) as (? & p & d' & a & b & [= <-] & Hr).
    rewrite (proj2 Hm); [done|]. by exists p, d', a, b.
Qed.

Lemma check_idp_scope_Ok cert o base_dn :
  check_idp_scope cert o base_dn = Ok tt ↔ ∀ i, o = Some i → in_scope cert i base_dn.
Proof.
  unfold check_idp_scope. destruct o as [i|]; [|split; [by intros|done]].
  unfold cert_is_ca_cert. split.
  - intros Hs. inv_ok. apply check_idp_dp_scope_Ok in Hs as [Hc Hd].
    intros ? [= <-]. split; [done|done| |done]. exists r0. split; [done|].
    destruct r0, (only_contains_user_certs i), (only_contains_ca_certs i); done.
  - intros Hs. destruct (Hs i eq_refl) as [-> Hc (b & Hb & Hu & Ha) Hd].
    cbn [fail_if mbind result_bind]. rewrite Hb. cbn [map_err mbind result_bind].
    destruct (only_contains_user_certs i), (only_contains_ca_certs i), b; cbn;
      try (by (discriminate Hu + discriminate Ha + (specialize (Hu eq_refl); discriminate)
               + (specialize (Ha eq_refl); discriminate)));
      by apply check_idp_dp_scope_Ok.
Qed.

Lemma select_signer_Ok self idp own signer :
  select_signer self idp own = Ok signer ↔ signer_rule self idp own signer.
Proof.
  unfold select_signer, signer_rule.
  destruct (crl_issuer_cert self), (from_option indirect_crl false idp),
    (signer_discovered self); split; intros Hs; try done; try (by injection Hs as <-; auto);
    destruct Hs as [? ?]; subst; naive_solver.
Qed.

Lemma delta_entries_Ok self signer delta :
  delta_entries self signer = Ok delta ↔ delta_usable self signer delta.
Proof.
  unfold delta_entries, delta_usable, verify_delta_crl_and_collect.
  destruct (delta_crl self) as [d|]; [|split; [by intros [= <-]|by intros ->]]. split.
  - intros Hd. inv_ok. destruct r, r0, r1, r2. rewrite negb_false_iff in *.
    rewrite check_crl_window_Ok, check_crl_signature_Ok in *. by split_and!.
  - intros (Hn & Hs & Hw & Hg & ->). rewrite Hn, Hs. cbn.
    rewrite (proj2 (check_crl_window_Ok _ _)) by done. cbn.
    by rewrite (proj2 (check_crl_signature_Ok _ _ _)).
Qed.

(** ** No step answers by itself *)
Lemma no_answer_check_crl_sign cert : no_answer (check_crl_sign cert).
Proof. unfold check_crl_sign. eauto 6 with pkix. Qed.

Lemma no_answer_window c now : no_answer (check_crl_window c now).
Proof. unfold check_crl_window. eauto 6 with pkix. Qed.

Lemma no_answer_signature c k (v : V) : no_answer (check_crl_signature c k v).
Proof. unfold check_crl_signature. eauto 6 with pkix. Qed.

Lemma no_answer_idp_scope cert o n : no_answer (check_idp_scope cert o n).
Proof.
  unfold check_idp_scope. destruct o as [i|]; [|done].
  apply no_answer_bind; [auto with pkix|intros _].
  apply no_answer_bind; [unfold cert_is_ca_cert; by destruct (cert_is_ca cert)|intros b].
  apply no_answer_bind; [auto with pkix|intros _].
  apply no_answer_bind; [auto with pkix|intros _].
  unfold check_idp_dp_scope, cert_crl_distribution_points.
  apply no_answer_bind; [case_match; eauto with pkix|intros cdps].
  destruct cdps, (idp_distribution_point i) as [d|]; try done.
  rewrite dpn_to_general_names_Ok. cbn [mbind result_bind]. by case_match.
Qed.

Lemma no_answer_delta_entries self signer : no_answer (delta_entries self signer).
Proof.
  unfold delta_entries, verify_delta_crl_and_collect. destruct (delta_crl self); [|done].
  apply no_answer_bind; [auto with pkix|intros _].
  apply no_answer_bind; [auto with pkix|intros _].
  apply no_answer_bind; [apply no_answer_window|intros _].
  by apply no_answer_bind; [apply no_answer_signature|intros _].
Qed.

Lemma no_answer_select_signer self idp own : no_answer (select_signer self idp own).
Proof. unfold select_signer. by repeat case_match. Qed.

Lemma no_answer_parse_issuing_dp c : no_answer (parse_issuing_dp c).
Proof. unfold parse_issuing_dp. case_match; auto with pkix. Qed.

(** ** The checks *)
Lemma check_with_signer_spec self cert idp signer st :
  check_with_signer self cert idp signer = answer (serial_number (tbs_certificate cert)) st ↔
  (∀ sc, signer_for_crlsign_check signer = Some sc → may_sign_crls sc) ∧
  window_ok (crl self) (crl_now_unix self) ∧
  signed_by (crl self) (signer_spki signer) (crl_verifier self) ∧
  (∀ i, idp = Some i → in_scope cert i (signer_subject signer)) ∧
  ∃ delta, delta_usable self signer delta ∧
    crl_status (issuer (tbs_certificate cert)) (serial_number (tbs_certificate cert))
      (bool_decide (is_Some (crl_issuer_cert self))) (crl_issuer (tbs_cert_list (crl self)))
      delta (revoked_entries (crl self)) st.
Proof.
  unfold check_with_signer.
  rewrite bind_answer
    by (destruct (signer_for_crlsign_check signer); [apply no_answer_check_crl_sign|done]).
  setoid_rewrite (bind_answer (check_crl_window _ _)); [|apply no_answer_window].
  setoid_rewrite (bind_answer (check_crl_signature _ _ _)); [|apply no_answer_signature].
  setoid_rewrite (bind_answer (check_idp_scope _ _ _)); [|apply no_answer_idp_scope].
  setoid_rewrite (bind_answer (delta_entries _ _)); [|apply no_answer_delta_entries].
  setoid_rewrite check_revocation_status_spec. setoid_rewrite delta_entries_Ok.
  assert ((∀ sc, signer_for_crlsign_check signer = Some sc → may_sign_crls sc) ↔
    match signer_for_crlsign_check signer with
    | Some sc => check_crl_sign sc | None => Ok tt end = Ok tt) as ->.
  { destruct (signer_for_crlsign_check signer) as [sc|]; [|done].
    rewrite check_crl_sign_Ok. naive_solver. }
  rewrite <-check_crl_window_Ok, <-check_crl_signature_Ok, <-check_idp_scope_Ok.
  split.
  - intros ([] & Hc & [] & Hw & [] & Hs & [] & Hi & Hd). by split_and!.
  - intros (Hc & Hw & Hs & Hi & Hd).
    exists tt. split; [done|]. exists tt. split; [done|]. exists tt. split; [done|].
    exists tt. by split.
Qed.

(** The status that the checker's CRL gives to a certificate. *)
Definition crl_answers self (cert : Certificate) (own : Signer) (st : option (option CrlReason)) :
    Prop :=
  ∃ signer idp delta, crl_usable self cert own signer idp delta ∧
    crl_status (issuer (tbs_certificate cert)) (serial_number (tbs_certificate cert))
      (bool_decide (is_Some (crl_issuer_cert self))) (crl_issuer (tbs_cert_list (crl self)))
      delta (revoked_entries (crl self)) st.

(** C12: the CRL checker answers not revoked, or revoked for a reason, exactly
    when the certificate given as issuer has the name of the issuer of the
    certificate (and, for a direct CRL without a discovered signer, the CRL is
    that issuer's); the CRL is usable (signed by the right signer, who may sign
    CRLs, within its window, and in scope for the certificate; a delta just as
    well); and its entries, those of the delta first, say so under the rules
    for the issuer of an entry.  Otherwise it refuses to answer. *)
Theorem crl_check_revocation_correct self cert issuer_cert st :
  crl_check_revocation self cert issuer_cert
    = answer (serial_number (tbs_certificate cert)) st ↔
  names_match (subject (tbs_certificate issuer_cert)) (issuer (tbs_certificate cert)) = true ∧
  (crl_issuer_cert self = None →
     names_match (issuer (tbs_certificate cert)) (crl_issuer (tbs_cert_list (crl self))) = true) ∧
  crl_answers self cert (signer_of_cert issuer_cert) st.
Proof.
  unfold crl_check_revocation, crl_answers.
  rewrite bind_answer by apply no_answer_parse_issuing_dp.
  setoid_rewrite (bind_answer (select_signer _ _ _)); [|apply no_answer_select_signer].
  setoid_rewrite (bind_answer (fail_if _ _)); [|auto with pkix..].
  setoid_rewrite (bind_answer (fail_if _ _)); [|auto with pkix..].
  setoid_rewrite (bind_answer (fail_if _ _)); [|auto with pkix..].
  setoid_rewrite check_with_signer_spec. setoid_rewrite select_signer_Ok.
  setoid_rewrite fail_if_Ok. setoid_rewrite andb_false_iff. setoid_rewrite negb_false_iff.
  setoid_rewrite bool_decide_eq_false. split.
  - intros (idp & Hidp & signer & Hsg & [] & Hn & [] & Hi & [] & Hd & Hc & Hw & Hs & Hsc &
      delta & Hdl & Hst).
    split; [done|]. split; [intros Hno; by destruct Hd|].
    exists signer, idp, delta. by split.
  - intros (Hi & Hd & signer & idp & delta & [] & Hst). exists idp. split; [done|].
    exists signer. split; [done|]. exists tt. split; [done|]. exists tt. split; [done|].
    exists tt. split.
    { destruct (crl_issuer_cert self); [by left|right; auto]. }
    split_and!; [done..|]. by exists delta.
Qed.

(** The same for a certificate issued by a trust anchor: the anchor has the
    name of the issuer of the certificate, and is itself the signer of a direct
    CRL, without a test of its key usage. *)
Theorem crl_check_against_anchor_correct self cert anchor st :
  crl_check_revocation_against_anchor self cert anchor
    = answer (serial_number (tbs_certificate cert)) st ↔
  names_match (issuer (tbs_certificate cert)) (anchor_subject anchor) = true ∧
  crl_answers self cert (signer_of_anchor anchor) st.
Proof.
  unfold crl_check_revocation_against_anchor, crl_answers.
  rewrite bind_answer by apply no_answer_parse_issuing_dp.
  setoid_rewrite (bind_answer (select_signer _ _ _)); [|apply no_answer_select_signer].
  setoid_rewrite (bind_answer (fail_if _ _)); [|auto with pkix..].
  setoid_rewrite (bind_answer (fail_if _ _)); [|auto with pkix..].
  setoid_rewrite check_with_signer_spec. setoid_rewrite select_signer_Ok.
  setoid_rewrite fail_if_Ok. setoid_rewrite negb_false_iff. split.
  - intros (idp & Hidp & signer & Hsg & [] & Hn & [] & Hi & Hc & Hw & Hs & Hsc & delta & Hdl & Hst).
    split; [done|]. exists signer, idp, delta. by split.
  - intros (Hi & signer & idp & delta & [] & Hst). exists idp. split; [done|].
    exists signer. split; [done|]. exists tt. split; [done|]. exists tt. split; [done|].
    split_and!; [done..|]. by exists delta.
Qed.

(** ** The constructors *)

(** The number in an extension of a CRL, when it fits in 64 bits. *)
Definition ext_number (oid : ObjectIdentifier) c (n : N) : Prop :=
  ∃ ext u, find_crl_ext c oid = Some ext ∧ from_der (extn_value ext) = inr u ∧
    length (uint_bytes u) ≤ 8 ∧ n = from_be_bytes (uint_bytes u).

Lemma crl_ext_u64_Ok oid c n :
  crl_ext_u64 oid c = Some (Ok n) ↔ ext_number oid c n.
Proof.
  unfold crl_ext_u64, ext_number. destruct (find_crl_ext c oid) as [ext|]; cbn.
  - split.
    + intros [= Hn]. inv_ok. apply lift_der_Ok in Hr. exists ext, r. split_and!; try done.
      * unfold uint_to_u64 in Hn. case_decide; [done|lia].
      * unfold uint_to_u64 in Hn. case_decide; by simplify_eq.
    + intros (? & u & [= <-] & Hu & Hl & ->). f_equal. rewrite Hu. cbn.
      unfold uint_to_u64. by rewrite decide_False by lia.
  - split; [done|]. by intros (? & ? & ? & _).
Qed.

Lemma has_delta_crl_indicator_spec c :
  has_delta_crl_indicator c = bool_decide (is_Some (find_crl_ext c OID_DELTA_CRL_INDICATOR)).
Proof.
  apply eq_true_iff_eq. unfold has_delta_crl_indicator, find_crl_ext.
  rewrite bool_decide_eq_true, existsb_elem, fmap_is_Some. setoid_rewrite bool_decide_eq_true.
  split.
  - intros (e & He & Hid). by apply (list_find_elem_of _ _ e).
  - intros [[i e] (Hi & Hid & _)%list_find_Some]. exists e. split; [|done].
    by apply list_elem_of_lookup_2 in Hi.
Qed.

(** A checker with a delta is built exactly when both CRLs decode, the
    base is not itself a delta, the delta says which base it updates, both
    have the same issuer, and the number of the base, if it has one, is at
    least the one the delta is for; the numbers are compared as the 64-bit
    integers of the extensions, and one that does not fit refuses the pair. *)
Theorem with_delta_correct base_der delta_der now (v : V) ck :
  with_delta base_der delta_der now v = Ok ck ↔
  ∃ base delta n, from_der base_der = inr base ∧ from_der delta_der = inr delta ∧
    find_crl_ext base OID_DELTA_CRL_INDICATOR = None ∧
    ext_number OID_DELTA_CRL_INDICATOR delta n ∧
    names_match (crl_issuer (tbs_cert_list base)) (crl_issuer (tbs_cert_list delta)) = true ∧
    (find_crl_ext base OID_CRL_NUMBER = None ∨
     ∃ m, ext_number OID_CRL_NUMBER base m ∧ (n ≤ m)%N) ∧
    ck = {| crl := base; delta_crl := Some delta; crl_issuer_cert := None;
            signer_discovered := false; crl_now_unix := now; crl_verifier := v |}.
Proof.
  unfold with_delta. setoid_rewrite <-crl_ext_u64_Ok.
  assert (∀ c, crl_ext_u64 OID_CRL_NUMBER c = None ↔ find_crl_ext c OID_CRL_NUMBER = None) as Hnone.
  { intros c. unfold crl_ext_u64. by destruct (find_crl_ext c OID_CRL_NUMBER). }
  setoid_rewrite <-Hnone. split.
  - intros Hc. inv_ok. rewrite lift_der_Ok in *. rewrite negb_false_iff in *.
    rewrite has_delta_crl_indicator_spec in *.
    apply bool_decide_eq_false, eq_None_not_Some in Hr1.
    exists r, r0, r4. split_and!; try done.
    + unfold base_crl_number in Hr3. by subst r3.
    + unfold crl_number in Hr6. destruct (crl_ext_u64 OID_CRL_NUMBER r) as [m|]; [right|by left].
      inv_ok. apply bool_decide_eq_false in Hr6. exists r7. split; [by subst|lia].
  - intros (base & delta & n & -> & -> & Hb & Hn & Hm & Hnum & ->). cbn.
    rewrite !has_delta_crl_indicator_spec, Hb. cbn.
    rewrite bool_decide_eq_true_2; cycle 1.
    { unfold crl_ext_u64 in Hn. by destruct (find_crl_ext delta _). }
    cbn. unfold base_crl_number. rewrite Hn. cbn. rewrite Hm. cbn. unfold crl_number.
    destruct Hnum as [->|(m & -> & Hle)]; cbn; [done|].
    by rewrite bool_decide_eq_false_2 by lia.
Qed.

(** A checker with signer discovery is built exactly when the CRL decodes
    and the first certificate of the bundle that has the authority key
    identifier of the CRL (or its issuer's name, when the CRL has none) may
    sign CRLs and is linked, from parent to parent, to a self-signed
    certificate of the bundle, however far: the bound of the walk loses
    nothing, and cycles are refused.  The construction never panics. *)
Theorem new_with_signer_discovery_correct crl_der bundle cert now (v : V) :
  no_panic (new_with_signer_discovery crl_der bundle cert now v) ∧
  ∀ ck, new_with_signer_discovery crl_der bundle cert now v = Ok ck ↔
  ∃ c i signer, from_der crl_der = inr c ∧
    bundle !! i = Some signer ∧ signs_for c signer ∧
    (∀ j b, j < i → bundle !! j = Some b → ¬ signs_for c b) ∧
    may_sign_crls signer ∧
    (∃ k root, climb bundle k i = Some root ∧ self_signed bundle root) ∧
    ck = {| crl := c; delta_crl := None; crl_issuer_cert := Some signer;
            signer_discovered := true; crl_now_unix := now; crl_verifier := v |}.
Proof.
  unfold new_with_signer_discovery. split.
  - apply no_panic_bind; [auto with pkix|intros c _].
    destruct (discover_crl_signer bundle c) as [i|] eqn:Hd; [cbn|done].
    apply discover_crl_signer_Some in Hd as [(s & Hi & _) _]. unfold index. rewrite Hi. cbn.
    apply no_panic_bind; [|intros _ _; by destruct (reaches_self_signed bundle i)].
    unfold check_crl_sign. case_match; [|done]. apply no_panic_bind; [auto with pkix|].
    intros ku _. by case_match.
  - intros ck. setoid_rewrite <-reaches_self_signed_spec. split.
    + intros Hc. inv_ok. apply lift_der_Ok in Hr. destruct r2.
      apply discover_crl_signer_Some in Hr0 as [(s & Hs & Hf) Hmin].
      apply check_crl_sign_Ok in Hr2. apply negb_false_iff in Hr3.
      exists r, r0, r1. replace s with r1 in * by congruence. by split_and!.
    + intros (c & i & s & -> & Hi & Hs & Hmin & Hk & Hr & ->). cbn.
      rewrite (proj2 (discover_crl_signer_Some _ _ _)) by (split; [by exists s|done]). cbn.
      unfold index. rewrite Hi. cbn. rewrite (proj2 (check_crl_sign_Ok _)) by done. cbn.
      by rewrite Hr.
Qed.
End spec.

(** ** Concrete CRLs *)
Definition sample_crl (iss : string) (key : string) (entries : list RevokedCert)
    (exts : list Extension) : CertificateList := {|
  tbs_cert_list := {|
    crl_issuer := sample_name iss; this_update := {| to_unix_secs := 100 |};
    next_update := Some {| to_unix_secs := 200 |};
    revoked_certificates := Some entries; crl_extensions := Some exts |};
  crl_signature_algorithm := sample_alg;
  crl_signature := {| unused_bits := 0; raw_bytes := str key |} |}.

Definition sample_entry (serial : N) (exts : list Extension) : RevokedCert :=
  {| rc_serial_number := [serial]; crl_entry_extensions := Some exts |}.

(** The encoded CRLs: [0; n] is a base of number [n], [1; n] a delta for the
    base [n], with the entries of the rest, whose reasons come in pairs. *)
Definition sample_entries (b : bytes) : list RevokedCert :=
  (λ p, sample_entry p.1 [sample_ext OID_CRL_REASONS [p.2]]) <$> sample_pairs b.

#[export] Instance sample_crl_asn1 : CrlAsn1 := {|
  decode_certificate_list := sample_der (λ b,
    match b with
    | 1%N :: n :: r => sample_crl "ca1" "ca1" (sample_entries r)
                         [sample_ext OID_DELTA_CRL_INDICATOR [n]]
    | _ :: n :: r => sample_crl "ca1" "ca1" (sample_entries r) [sample_ext OID_CRL_NUMBER [n]]
    | _ => sample_crl "ca1" "ca1" [] []
    end);
  encode_tbs_cert_list := λ _, inr [];
  decode_crl_reason := λ b,
    match b ≫= λ n, option_list (from_code n) with r :: _ => inr r | [] => inl "reason"%string end;
  decode_uint := sample_der (λ b, {| uint_bytes := b |});
  decode_issuing_dp := sample_der (λ b, {|
    idp_distribution_point := None;
    only_contains_user_certs := bool_decide (1 ∈ b)%N;
    only_contains_ca_certs := bool_decide (2 ∈ b)%N;
    indirect_crl := bool_decide (3 ∈ b)%N;
    only_contains_attribute_certs := bool_decide (4 ∈ b)%N |});
  decode_crl_distribution_points := sample_der (λ _, {| cdp_points := [] |});
  decode_general_names := sample_der (λ b, {| general_names := [DirectoryName
    [[{| ava_oid := [2; 5; 4; 3]%N; ava_value := {| any_tag := Utf8String; any_value := b |} |}]]] |});
  overflow_error := "integer overflow";
  value_sequence_error := "value error" |}.

Definition sample_direct (c : CertificateList) : CrlChecker SampleVerifier := {|
  crl := c; delta_crl := None; crl_issuer_cert := None; signer_discovered := false;
  crl_now_unix := 150; crl_verifier := MkSampleVerifier |}.

(** Revoked, not revoked, and lifted by the delta. *)
Example wit_crl_revoked :
  crl_check_revocation (sample_direct (sample_crl "ca1" "ca1" (sample_entries [2; 1]%N) []))
    (sample_cert "ca1" "leaf" 2 []) (sample_ca "root" "ca1" 3 [])
  = Err (Revoked [2]%N (Some KeyCompromise)).
Proof. vm_compute. reflexivity. Qed.

Example wit_crl_delta :
  (ck ← with_delta [0; 5; 2; 6]%N [1; 4; 2; 8]%N 150 MkSampleVerifier;
   crl_check_revocation ck (sample_cert "ca1" "leaf" 2 []) (sample_ca "root" "ca1" 3 [])) = Ok tt.
Proof. vm_compute. reflexivity. Qed.

(** An indirect CRL: the second entry is about certificates of [ca1]. *)
Example wit_crl_indirect :
  crl_check_revocation {|
    crl := sample_crl "crls" "crls"
             [sample_entry 2 []; sample_entry 2 [sample_ext OID_CERTIFICATE_ISSUER (str "ca1")]]
             [sample_ext OID_ISSUING_DISTRIBUTION_POINT [3]%N];
    delta_crl := None; crl_issuer_cert := Some (sample_ca "root" "crls" 4 []);
    signer_discovered := false; crl_now_unix := 150; crl_verifier := MkSampleVerifier |}
    (sample_cert "ca1" "leaf" 2 []) (sample_ca "root" "ca1" 3 [])
  = Err (Revoked [2]%N None).
Proof. vm_compute. reflexivity. Qed.

(** ** Answers without coverage *)

(** A checker with a discovered signer, on a direct CRL of [ca1], answers
    not revoked for a certificate that [ca2] issued, which the CRL does not
    cover; the checker built for the same CRL without discovery refuses. *)
Theorem discovered_direct_crl_answers_for_other_issuers :
  let leaf := sample_cert "ca2" "leaf" 2 [] in
  let ca2 := sample_ca "root" "ca2" 4 [] in
  let bundle := [sample_ca "ca1" "ca1" 3 []] in
  match new_with_signer_discovery [0; 5]%N bundle leaf 150 MkSampleVerifier,
        crl_checker_new [0; 5]%N 150 MkSampleVerifier with
  | Ok discovered, Ok direct =>
      parse_issuing_dp (crl discovered) = Ok None ∧
      names_match (issuer (tbs_certificate leaf)) (crl_issuer (tbs_cert_list (crl discovered)))
        = false ∧
      crl_check_revocation discovered leaf ca2 = Ok tt ∧
      crl_check_revocation direct leaf ca2 = Err CrlIssuerMismatch
  | _, _ => False
  end.
Proof. vm_compute. auto. Qed.

(** With a cRLIssuer certificate, a delta that does not declare itself
    indirect, or that covers authority certificates only, lifts a revocation of
    an end entity that the indirect base lists. *)
Theorem delta_scope_not_checked :
  let for_ca1 reason := sample_entry 2 [sample_ext OID_CERTIFICATE_ISSUER (str "ca1");
                                        sample_ext OID_CRL_REASONS [reason]] in
  let check delta := crl_check_revocation {|
    crl := sample_crl "crls" "crls" [for_ca1 1%N]
             [sample_ext OID_ISSUING_DISTRIBUTION_POINT [3]%N];
    delta_crl := delta; crl_issuer_cert := Some (sample_ca "root" "crls" 4 []);
    signer_discovered := false; crl_now_unix := 150; crl_verifier := MkSampleVerifier |}
    (sample_cert "ca1" "leaf" 2 []) (sample_ca "root" "ca1" 3 []) in
  check None = Err (Revoked [2]%N (Some KeyCompromise)) ∧
  check (Some (sample_crl "crls" "crls" [for_ca1 8%N] [])) = Ok tt ∧
  check (Some (sample_crl "crls" "crls" [for_ca1 8%N]
                 [sample_ext OID_ISSUING_DISTRIBUTION_POINT [2; 3]%N])) = Ok tt.
Proof. vm_compute. auto. Qed.

(** A CRL with an unknown critical extension is used to answer not
    revoked. *)
Theorem unknown_critical_crl_extension_ignored :
  crl_check_revocation (sample_direct (sample_crl "ca1" "ca1" [] [sample_ext [1; 2; 3]%N []]))
    (sample_cert "ca1" "leaf" 2 []) (sample_ca "root" "ca1" 3 []) = Ok tt.
Proof. vm_compute. reflexivity. Qed.
