(* ===== verification/Ocsp.v ===== *)
(** * The offline OCSP checker (pkix-revocation/src/ocsp.rs)

    [OcspChecker] on a response that was fetched before.  The response
    structures are those of [x509-ocsp] restricted to the fields the source
    reads; the decoders, the encoders and the digests are parameters.  The two
    checks of the source repeat the same steps with the name and the key of the
    issuer certificate or of the anchor. *)
From S2P Require Import Prelude X509 PathTypes Verifier Samples Names CertChecks Revocation.

Definition OID_PKIX_OCSP_BASIC : ObjectIdentifier := [1; 3; 6; 1; 5; 5; 7; 48; 1; 1]%N.
Definition OID_SHA1 : ObjectIdentifier := [1; 3; 14; 3; 2; 26]%N.
Definition OID_SHA256 : ObjectIdentifier := [2; 16; 840; 1; 101; 3; 4; 2; 1]%N.
Definition OID_SHA384 : ObjectIdentifier := [2; 16; 840; 1; 101; 3; 4; 2; 2]%N.
Definition OID_SHA512 : ObjectIdentifier := [2; 16; 840; 1; 101; 3; 4; 2; 3]%N.
Definition OID_EXTENDED_KEY_USAGE : ObjectIdentifier := [2; 5; 29; 37]%N.
Definition OID_KP_OCSP_SIGNING : ObjectIdentifier := [1; 3; 6; 1; 5; 5; 7; 3; 9]%N.

(** ** Structures of [x509-ocsp] *)
Inductive OcspResponseStatus :=
| Successful | MalformedRequest | InternalError | TryLater | SigRequired | Unauthorized.
#[global] Instance OcspResponseStatus_eq_dec : EqDecision OcspResponseStatus.
Proof. solve_decision. Defined.

Record ResponseBytes := { response_type : ObjectIdentifier; response : bytes }.
Record OcspResponse := {
  response_status : OcspResponseStatus; response_bytes : option ResponseBytes }.

Inductive ResponderId := ByName (n : Name) | ByKey (key_hash : bytes).
Inductive CertStatus := Good | RevokedStatus (revocation_reason : option CrlReason) | Unknown.

Record CertId := {
  hash_algorithm : AlgorithmIdentifier;
  issuer_name_hash : bytes;
  issuer_key_hash : bytes;
  cert_id_serial : SerialNumber }.

Record SingleResponse := {
  cert_id : CertId;
  cert_status : CertStatus;
  single_this_update : Time;
  single_next_update : option Time;
  single_extensions : option (list Extension) }.

Record ResponseData := {
  responder_id : ResponderId; produced_at : Time; responses : list SingleResponse;
  response_extensions : option (list Extension) }.

Record BasicOcspResponse := {
  tbs_response_data : ResponseData;
  ocsp_signature_algorithm : AlgorithmIdentifier;
  ocsp_signature : BitString;
  ocsp_certs : option (list Certificate) }.

Class OcspAsn1 := {
  decode_ocsp_response :: DecodeOwned OcspResponse;
  decode_basic_response :: DecodeOwned BasicOcspResponse;
  encode_response_data :: Encode ResponseData;
  encode_name :: Encode Name }.

(** The crates [sha1] and [sha2]. *)
Class Digests := {
  sha1 : bytes → bytes; sha256 : bytes → bytes; sha384 : bytes → bytes; sha512 : bytes → bytes }.

Definition ocsp_parse_error (e : der_error) : RevocationError := OcspParseError (der_error_new e).

Record OcspChecker (V : Type) := {
  basic : BasicOcspResponse; ocsp_now_unix : N; ocsp_verifier : V }.
Arguments basic {V}. Arguments ocsp_now_unix {V}. Arguments ocsp_verifier {V}.

Section ocsp.
Context `{PathAsn1} `{OcspAsn1} `{Digests} {V : Type} `{SignatureVerifier V}.

Definition parse_basic_response (response_der : bytes) : RevResult BasicOcspResponse :=
  resp ← lift_der ocsp_parse_error (from_der response_der);
  _ ← fail_if (negb (bool_decide (response_status resp = Successful))) OcspMalformed;
  resp_bytes ← ok_or (response_bytes resp) OcspMalformed;
  _ ← fail_if (negb (bool_decide (response_type resp_bytes = OID_PKIX_OCSP_BASIC))) OcspMalformed;
  lift_der ocsp_parse_error (from_der (response resp_bytes)).

Definition ocsp_checker_new (response_der : bytes) (now_unix : N) (verifier : V) :
    RevResult (OcspChecker V) :=
  b ← parse_basic_response response_der;
  mret {| basic := b; ocsp_now_unix := now_unix; ocsp_verifier := verifier |}.

Definition hash_certid_input (oid : ObjectIdentifier) (data : bytes) : RevResult bytes :=
  if decide (oid = OID_SHA1) then Ok (sha1 data)
  else if decide (oid = OID_SHA256) then Ok (sha256 data)
  else if decide (oid = OID_SHA384) then Ok (sha384 data)
  else if decide (oid = OID_SHA512) then Ok (sha512 data)
  else Err OcspMalformed.

Definition responder_id_matches (id : ResponderId) (subject : Name) (spki_raw : bytes) : bool :=
  match id with
  | ByName name => names_match name subject
  | ByKey key_hash => bool_decide (key_hash = sha1 spki_raw)
  end.

Definition cert_has_ocsp_signing_eku (cert : Certificate) : RevResult bool :=
  match find_ext cert OID_EXTENDED_KEY_USAGE with
  | None => Ok false
  | Some extn =>
      eku ← lift_der (λ _, OcspResponderEkuMalformed) (from_der (extn_value extn));
      mret (bool_decide (OID_KP_OCSP_SIGNING ∈ eku_oids eku))
  end.

Definition validate_delegate_responder_cert (delegate : Certificate) (issuer_subject : Name)
    (issuer_spki : SubjectPublicKeyInfo) (verifier : V) (produced_at_unix : N) : RevResult unit :=
  let tbs := tbs_certificate delegate in
  _ ← fail_if (negb (names_match (issuer tbs) issuer_subject)) OcspResponderCertNotIssuedByCa;
  eku ← cert_has_ocsp_signing_eku delegate;
  _ ← fail_if (negb eku) OcspResponderEkuMissing;
  let nb := to_unix_secs (not_before tbs) in
  let na := to_unix_secs (not_after tbs) in
  _ ← fail_if (bool_decide (produced_at_unix < nb)%N || bool_decide (na < produced_at_unix)%N)
        OcspResponderCertExpired;
  tbs_bytes ← lift_der ocsp_parse_error (to_der tbs);
  if verify_signature verifier (signature_algorithm delegate) issuer_spki tbs_bytes
       (raw_bytes (cert_signature delegate))
  then Ok tt else Err OcspResponderCertSigInvalid.

(** The scan of the embedded certificates. *)
Fixpoint find_delegate (rid : ResponderId) (issuer_subject : Name)
    (issuer_spki : SubjectPublicKeyInfo) (verifier : V) (produced_at_unix : N)
    (certs : list Certificate) : RevResult SubjectPublicKeyInfo :=
  match certs with
  | [] => Err OcspResponderIdMismatch
  | delegate :: certs =>
      let spki := subject_public_key_info (tbs_certificate delegate) in
      if negb (responder_id_matches rid (subject (tbs_certificate delegate))
                 (raw_bytes (subject_public_key spki)))
      then find_delegate rid issuer_subject issuer_spki verifier produced_at_unix certs
      else
        _ ← validate_delegate_responder_cert delegate issuer_subject issuer_spki verifier
              produced_at_unix;
        mret spki
  end.

Definition resolve_signing_key_for_response (b : BasicOcspResponse) (issuer_subject : Name)
    (issuer_spki : SubjectPublicKeyInfo) (issuer_spki_raw : bytes) (verifier : V)
    (produced_at_unix : N) : RevResult SubjectPublicKeyInfo :=
  let rid := responder_id (tbs_response_data b) in
  if responder_id_matches rid issuer_subject issuer_spki_raw then Ok issuer_spki
  else find_delegate rid issuer_subject issuer_spki verifier produced_at_unix
         (default [] (ocsp_certs b)).

Definition produced_at_unix_secs (b : BasicOcspResponse) : N :=
  to_unix_secs (produced_at (tbs_response_data b)).

(** The signature of the response. *)
Definition check_response_signature (b : BasicOcspResponse) (signing_spki : SubjectPublicKeyInfo)
    (verifier : V) : RevResult unit :=
  tbs_bytes ← lift_der ocsp_parse_error (to_der (tbs_response_data b));
  if verify_signature verifier (ocsp_signature_algorithm b) signing_spki tbs_bytes
       (raw_bytes (ocsp_signature b))
  then Ok tt else Err OcspSignatureInvalid.

(** Step (7a): the hashes of the CertID. *)
Definition check_cert_id (id : CertId) (issuer_subject : Name) (key_raw : bytes) : RevResult unit :=
  let hash_oid := alg_oid (hash_algorithm id) in
  name_der ← lift_der ocsp_parse_error (to_der issuer_subject);
  expected_name_hash ← hash_certid_input hash_oid name_der;
  expected_key_hash ← hash_certid_input hash_oid key_raw;
  fail_if (negb (bool_decide (issuer_name_hash id = expected_name_hash)) ||
           negb (bool_decide (issuer_key_hash id = expected_key_hash))) OcspCertIdMismatch.

(** Step (8): the validity windows. *)
Definition check_response_window (b : BasicOcspResponse) (single : SingleResponse) (now_unix : N) :
    RevResult unit :=
  _ ← fail_if (bool_decide (now_unix < produced_at_unix_secs b)%N) OcspMalformed;
  _ ← fail_if (bool_decide (now_unix < to_unix_secs (single_this_update single))%N) OcspExpired;
  next_update ← ok_or (single_next_update single) OcspExpired;
  fail_if (bool_decide (to_unix_secs next_update < now_unix)%N) OcspExpired.

(** The body of the two checks. *)
Definition ocsp_check (self : OcspChecker V) (cert : Certificate) (issuer_subject : Name)
    (issuer_spki : SubjectPublicKeyInfo) : RevResult unit :=
  _ ← fail_if (negb (names_match issuer_subject (issuer (tbs_certificate cert))))
        OcspIssuerCertMismatch;
  let b := basic self in
  let issuer_spki_raw := raw_bytes (subject_public_key issuer_spki) in
  signing_spki ← resolve_signing_key_for_response b issuer_subject issuer_spki issuer_spki_raw
                   (ocsp_verifier self) (produced_at_unix_secs b);
  _ ← check_response_signature b signing_spki (ocsp_verifier self);
  let cert_serial := serial_number (tbs_certificate cert) in
  single ← ok_or (snd <$> list_find (λ r, cert_id_serial (cert_id r) = cert_serial)
                    (responses (tbs_response_data b))) OcspStatusUnknown;
  _ ← check_cert_id (cert_id single) issuer_subject issuer_spki_raw;
  _ ← check_response_window b single (ocsp_now_unix self);
  match cert_status single with
  | Good => Ok tt
  | RevokedStatus reason => Err (Revoked cert_serial reason)
  | Unknown => Err OcspStatusUnknown
  end.

Definition ocsp_check_revocation (self : OcspChecker V) (cert issuer_cert : Certificate) :
    RevResult unit :=
  ocsp_check self cert (subject (tbs_certificate issuer_cert))
    (subject_public_key_info (tbs_certificate issuer_cert)).

Definition ocsp_check_revocation_against_anchor (self : OcspChecker V) (cert : Certificate)
    (anchor : TrustAnchor) : RevResult unit :=
  ocsp_check self cert (anchor_subject anchor) (anchor_spki anchor).

#[global] Instance OcspChecker_impl : RevocationChecker (OcspChecker V) := {|
  check_revocation := ocsp_check_revocation;
  check_revocation_against_anchor := ocsp_check_revocation_against_anchor |}.
End ocsp.

(** ** What the checker promises *)
Section spec.
Context `{PathAsn1} `{OcspAsn1} `{Digests} {V : Type} `{SignatureVerifier V}.
Implicit Types (self : OcspChecker V) (b : BasicOcspResponse).

(** A responder designated by the authority (RFC 6960 4.2.2.2). *)
Record delegate_ok (d : Certificate) (issuer_subject : Name) (issuer_spki : SubjectPublicKeyInfo)
    (v : V) (produced : N) : Prop := {
  delegate_issuer : names_match (issuer (tbs_certificate d)) issuer_subject = true;
  delegate_eku : ∃ ext eku, find_ext d OID_EXTENDED_KEY_USAGE = Some ext ∧
    from_der (extn_value ext) = inr eku ∧ OID_KP_OCSP_SIGNING ∈ eku_oids eku;
  delegate_validity : (to_unix_secs (not_before (tbs_certificate d)) ≤ produced ≤
                       to_unix_secs (not_after (tbs_certificate d)))%N;
  delegate_signature : ∃ tbs, to_der (tbs_certificate d) = inr tbs ∧
    verify_signature v (signature_algorithm d) issuer_spki tbs
      (raw_bytes (cert_signature d)) = true }.

(** The responder of the response is the certificate. *)
Definition is_responder (rid : ResponderId) (d : Certificate) : bool :=
  responder_id_matches rid (subject (tbs_certificate d))
    (raw_bytes (subject_public_key (subject_public_key_info (tbs_certificate d)))).

(** The key that signs the response: the authority's, or that of the first
    embedded certificate of the responder, which must be designated. *)
Definition signing_key b (issuer_subject : Name) (issuer_spki : SubjectPublicKeyInfo) (v : V)
    (key : SubjectPublicKeyInfo) : Prop :=
  let rid := responder_id (tbs_response_data b) in
  if responder_id_matches rid issuer_subject (raw_bytes (subject_public_key issuer_spki))
  then key = issuer_spki
  else ∃ i d, default [] (ocsp_certs b) !! i = Some d ∧ is_responder rid d = true ∧
    (∀ j d', j < i → default [] (ocsp_certs b) !! j = Some d' → is_responder rid d' = false) ∧
    delegate_ok d issuer_subject issuer_spki v (produced_at_unix_secs b) ∧
    key = subject_public_key_info (tbs_certificate d).

(** The digests RFC 6960 knows. *)
Definition digest_of (oid : ObjectIdentifier) : option (bytes → bytes) :=
  p ← list_find (λ p, oid = p.1)
        [(OID_SHA1, sha1); (OID_SHA256, sha256); (OID_SHA384, sha384); (OID_SHA512, sha512)];
  Some p.2.2.

Record single_ok self (serial : SerialNumber) (issuer_subject : Name)
    (issuer_spki : SubjectPublicKeyInfo) (s : SingleResponse) : Prop := {
  single_serial : cert_id_serial (cert_id s) = serial;
  single_hashes : ∃ digest der, digest_of (alg_oid (hash_algorithm (cert_id s))) = Some digest ∧
    to_der issuer_subject = inr der ∧ issuer_name_hash (cert_id s) = digest der ∧
    issuer_key_hash (cert_id s) = digest (raw_bytes (subject_public_key issuer_spki));
  single_produced : (produced_at_unix_secs (basic self) ≤ ocsp_now_unix self)%N;
  single_window : (to_unix_secs (single_this_update s) ≤ ocsp_now_unix self)%N ∧
    ∃ t, single_next_update s = Some t ∧ (ocsp_now_unix self ≤ to_unix_secs t)%N }.

(** What a response answers for a certificate of an authority. *)
Definition ocsp_answers self (cert : Certificate) (issuer_subject : Name)
    (issuer_spki : SubjectPublicKeyInfo) (st : option (option CrlReason)) : Prop :=
  let b := basic self in
  let serial := serial_number (tbs_certificate cert) in
  ∃ key tbs i s,
    signing_key b issuer_subject issuer_spki (ocsp_verifier self) key ∧
    to_der (tbs_response_data b) = inr tbs ∧
    verify_signature (ocsp_verifier self) (ocsp_signature_algorithm b) key tbs
      (raw_bytes (ocsp_signature b)) = true ∧
    responses (tbs_response_data b) !! i = Some s ∧
    (∀ j s', j < i → responses (tbs_response_data b) !! j = Some s' →
       cert_id_serial (cert_id s') ≠ serial) ∧
    single_ok self serial issuer_subject issuer_spki s ∧
    cert_status s = match st with None => Good | Some r => RevokedStatus r end.

(** ** The steps *)
Lemma cert_has_ocsp_signing_eku_true d :
  cert_has_ocsp_signing_eku d = Ok true ↔
  ∃ ext eku, find_ext d OID_EXTENDED_KEY_USAGE = Some ext ∧
    from_der (extn_value ext) = inr eku ∧ OID_KP_OCSP_SIGNING ∈ eku_oids eku.
Proof.
  unfold cert_has_ocsp_signing_eku. destruct (find_ext d OID_EXTENDED_KEY_USAGE) as [ext|].
  - rewrite bind_Ok. setoid_rewrite lift_der_Ok. split.
    + intros (eku & He & [= Hb%bool_decide_eq_true]). by exists ext, eku.
    + intros (? & eku & [= <-] & He & Hin). exists eku. split; [done|].
      by rewrite bool_decide_eq_true_2.
  - split; [done|]. by intros (? & ? & ? & _).
Qed.

Lemma validate_delegate_Ok d n k v p :
  validate_delegate_responder_cert d n k v p = Ok tt ↔ delegate_ok d n k v p.
Proof.
  unfold validate_delegate_responder_cert. split.
  - intros Hd. inv_ok. apply negb_false_iff in Hr, Hr1. subst r0.
    apply cert_has_ocsp_signing_eku_true in Hr0. apply lift_der_Ok in Hr3.
    apply orb_false_iff in Hr2 as [Hlo%bool_decide_eq_false Hhi%bool_decide_eq_false].
    destruct (verify_signature _ _ _ _ _) eqn:Hv; [|done].
    split; [done|done|lia|by exists r3].
  - intros [Hn He Hp (tbs & Ht & Hv)]. rewrite Hn. cbn.
    rewrite (proj2 (cert_has_ocsp_signing_eku_true d)) by done. cbn.
    rewrite !bool_decide_eq_false_2 by lia. cbn. rewrite Ht. cbn. by rewrite Hv.
Qed.

Lemma find_delegate_Ok rid n k v p l key :
  find_delegate rid n k v p l = Ok key ↔
  ∃ i d, l !! i = Some d ∧ is_responder rid d = true ∧
    (∀ j d', j < i → l !! j = Some d' → is_responder rid d' = false) ∧
    delegate_ok d n k v p ∧ key = subject_public_key_info (tbs_certificate d).
Proof.
  induction l as [|x l IH]; cbn [find_delegate].
  { split; [done|]. by intros (i & d & ? & _). }
  fold (is_responder rid x). destruct (is_responder rid x) eqn:Hx; cbn [negb].
  - rewrite bind_Ok. split.
    + intros ([] & Hd%validate_delegate_Ok & [= <-]). exists 0, x. split_and!; try done. lia.
    + intros ([|i] & d & Hd & Hr & Hmin & Hok & ->).
      * injection Hd as <-. exists tt. by rewrite validate_delegate_Ok.
      * specialize (Hmin 0 x ltac:(lia) eq_refl). congruence.
  - rewrite IH. split.
    + intros (i & d & Hd & Hr & Hmin & Hok & ->). exists (S i), d. split_and!; try done.
      intros [|j] d' Hj Hd'; [by injection Hd' as <-|]. apply (Hmin j); [lia|done].
    + intros ([|i] & d & Hd & Hr & Hmin & Hok & ->); [injection Hd as <-; congruence|].
      exists i, d. split_and!; try done. intros j d' Hj Hd'. apply (Hmin (S j)); [lia|done].
Qed.

Lemma resolve_signing_key_Ok b n k v key :
  resolve_signing_key_for_response b n k (raw_bytes (subject_public_key k)) v
    (produced_at_unix_secs b) = Ok key ↔ signing_key b n k v key.
Proof.
  unfold resolve_signing_key_for_response, signing_key.
  destruct (responder_id_matches _ _ _); [split; congruence|apply find_delegate_Ok].
Qed.

Lemma hash_certid_input_Ok oid data h :
  hash_certid_input oid data = Ok h ↔ ∃ digest, digest_of oid = Some digest ∧ h = digest data.
Proof.
  unfold hash_certid_input, digest_of. cbn [list_find fst].
  repeat case_decide; cbn; naive_solver.
Qed.

Lemma check_cert_id_Ok id n key :
  check_cert_id id n key = Ok tt ↔
  ∃ digest der, digest_of (alg_oid (hash_algorithm id)) = Some digest ∧ to_der n = inr der ∧
    issuer_name_hash id = digest der ∧ issuer_key_hash id = digest key.
Proof.
  unfold check_cert_id. split.
  - intros Hc. inv_ok. apply lift_der_Ok in Hr.
    apply hash_certid_input_Ok in Hr0 as (dg & Hdg & ->).
    apply hash_certid_input_Ok in Hr1 as (dg' & Hdg' & ->).
    apply orb_false_iff in Hc as [Hn Hk].
    apply negb_false_iff, bool_decide_eq_true in Hn, Hk.
    exists dg, r. replace dg' with dg in * by congruence. by split_and!.
  - intros (dg & der & Hdg & Hd & Hn & Hk). rewrite Hd. cbn.
    rewrite (proj2 (hash_certid_input_Ok _ der (dg der))) by eauto. cbn.
    rewrite (proj2 (hash_certid_input_Ok _ key (dg key))) by eauto. cbn.
    by rewrite !bool_decide_eq_true_2.
Qed.

Lemma check_response_window_Ok b s now :
  check_response_window b s now = Ok tt ↔
  (produced_at_unix_secs b ≤ now)%N ∧ (to_unix_secs (single_this_update s) ≤ now)%N ∧
  ∃ t, single_next_update s = Some t ∧ (now ≤ to_unix_secs t)%N.
Proof.
  unfold check_response_window. split.
  - intros Hw. inv_ok. rewrite bool_decide_eq_false in *.
    split_and!; [lia|lia|]. exists r1. split; [done|lia].
  - intros (Hp & Ht & t & -> & Hn). do 3 (rewrite bool_decide_eq_false_2 by lia; cbn). done.
Qed.

Lemma no_answer_validate_delegate d n k (v : V) p :
  no_answer (validate_delegate_responder_cert d n k v p).
Proof.
  unfold validate_delegate_responder_cert, cert_has_ocsp_signing_eku.
  apply no_answer_bind; [auto with pkix|intros ?].
  apply no_answer_bind; [case_match; [apply no_answer_bind; [|intros]|]; auto with pkix|intros b].
  apply no_answer_bind; [auto with pkix|intros ?].
  apply no_answer_bind; [auto with pkix|intros ?].
  apply no_answer_bind; [auto with pkix|intros t]. by case_match.
Qed.

Lemma no_answer_resolve b n k kr (v : V) p :
  no_answer (resolve_signing_key_for_response b n k kr v p).
Proof.
  unfold resolve_signing_key_for_response. case_match; [done|].
  induction (default [] (ocsp_certs b)) as [|d l IH]; cbn [find_delegate]; [done|].
  case_match; [done|]. apply no_answer_bind; [apply no_answer_validate_delegate|]. by intros ? s c.
Qed.

Lemma no_answer_cert_id id n key : no_answer (check_cert_id id n key).
Proof.
  unfold check_cert_id, hash_certid_input.
  apply no_answer_bind; [auto with pkix|intros d].
  apply no_answer_bind; [by repeat case_decide|intros h].
  apply no_answer_bind; [by repeat case_decide|intros h']. auto with pkix.
Qed.

Lemma no_answer_response_signature b k (v : V) : no_answer (check_response_signature b k v).
Proof. unfold check_response_signature. apply no_answer_bind; [auto with pkix|]. intros; by case_match. Qed.

Lemma no_answer_response_window b s now : no_answer (check_response_window b s now).
Proof. unfold check_response_window. eauto 6 with pkix. Qed.

Lemma check_response_signature_Ok b k (v : V) :
  check_response_signature b k v = Ok tt ↔
  ∃ tbs, to_der (tbs_response_data b) = inr tbs ∧
    verify_signature v (ocsp_signature_algorithm b) k tbs (raw_bytes (ocsp_signature b)) = true.
Proof.
  unfold check_response_signature. rewrite bind_Ok. setoid_rewrite lift_der_Ok.
  apply exist_proper; intros tbs. by destruct (verify_signature _ _ _ _ _); split; intros [? ?].
Qed.

Lemma ocsp_check_spec self cert n k st :
  ocsp_check self cert n k = answer (serial_number (tbs_certificate cert)) st ↔
  names_match n (issuer (tbs_certificate cert)) = true ∧ ocsp_answers self cert n k st.
Proof.
  unfold ocsp_check, ocsp_answers. rewrite bind_answer by auto with pkix.
  setoid_rewrite (bind_answer (resolve_signing_key_for_response _ _ _ _ _ _));
    [|apply no_answer_resolve].
  setoid_rewrite (bind_answer (check_response_signature _ _ _));
    [|apply no_answer_response_signature].
  setoid_rewrite (bind_answer (ok_or _ _)); [|auto with pkix..].
  setoid_rewrite (bind_answer (check_cert_id _ _ _)); [|apply no_answer_cert_id].
  setoid_rewrite (bind_answer (check_response_window _ _ _)); [|apply no_answer_response_window].
  setoid_rewrite fail_if_Ok. setoid_rewrite negb_false_iff. setoid_rewrite resolve_signing_key_Ok.
  setoid_rewrite ok_or_Ok. setoid_rewrite fmap_Some. split.
  - intros ([] & Hn & key & Hk & [] & Hs & s & ([i s'] & (Hi & Hser & Hmin)%list_find_Some & ->)
      & [] & Hid & [] & Hw & Hst). cbn in *.
    apply check_response_signature_Ok in Hs as (tbs & Ht & Hv).
    apply check_cert_id_Ok in Hid. apply check_response_window_Ok in Hw as (Hp & Hth & Hnx).
    split; [done|]. exists key, tbs, i, s'. split_and!; try done.
    + intros j s2 Hj Hs2. by apply (Hmin j s2).
    + destruct (cert_status s'), st; try done. by injection Hst as ->.
  - intros (Hn & key & tbs & i & s & Hk & Ht & Hv & Hi & Hmin & [Hser Hh Hp Hw] & Hst).
    exists tt. split; [done|]. exists key. split; [done|]. exists tt.
    split; [apply check_response_signature_Ok; by exists tbs|]. exists s. split.
    { exists (i, s). split; [|done]. apply list_find_Some. split_and!; try done.
      intros j y Hy Hj. by apply (Hmin j y). }
    exists tt. split; [by apply check_cert_id_Ok|]. exists tt.
    split; [by apply check_response_window_Ok|]. rewrite Hst. by destruct st.
Qed.

(** C13: the OCSP checker answers not revoked, or revoked for a reason, exactly
    when the issuer (certificate or anchor) has the name of the issuer of the
    certificate; the response is signed with the issuer's key, or with that of
    the embedded certificate of the responder, which the issuer designated and
    which was valid when the response was produced; and the first status for
    the serial number is for this issuer by both digests, is within its window
    and says so.  Otherwise it refuses to answer. *)
Theorem ocsp_check_correct self cert st :
  (∀ issuer_cert,
     ocsp_check_revocation self cert issuer_cert
       = answer (serial_number (tbs_certificate cert)) st ↔
     names_match (subject (tbs_certificate issuer_cert)) (issuer (tbs_certificate cert)) = true ∧
     ocsp_answers self cert (subject (tbs_certificate issuer_cert))
       (subject_public_key_info (tbs_certificate issuer_cert)) st) ∧
  (∀ anchor,
     ocsp_check_revocation_against_anchor self cert anchor
       = answer (serial_number (tbs_certificate cert)) st ↔
     names_match (anchor_subject anchor) (issuer (tbs_certificate cert)) = true ∧
     ocsp_answers self cert (anchor_subject anchor) (anchor_spki anchor) st).
Proof. split; intros; apply ocsp_check_spec. Qed.

(** A checker holds a successful basic response. *)
Lemma ocsp_checker_new_Ok der now (v : V) ck :
  ocsp_checker_new der now v = Ok ck ↔
  ∃ resp rb b, from_der der = inr resp ∧ response_status resp = Successful ∧
    response_bytes resp = Some rb ∧ response_type rb = OID_PKIX_OCSP_BASIC ∧
    from_der (response rb) = inr b ∧
    ck = {| basic := b; ocsp_now_unix := now; ocsp_verifier := v |}.
Proof.
  unfold ocsp_checker_new, parse_basic_response. split.
  - intros Hc. inv_ok. apply lift_der_Ok in Hr0, Hr.
    apply negb_false_iff, bool_decide_eq_true in Hr1, Hr3. by exists r0, r2, r.
  - intros (resp & rb & b & -> & Hs & Hb & Ht & Hd & ->). cbn.
    rewrite Hs, bool_decide_eq_true_2 by done. cbn. rewrite Hb. cbn.
    rewrite Ht, bool_decide_eq_true_2 by done. cbn. by rewrite Hd.
Qed.
End spec.

(** ** A response with two authorities *)
#[export] Instance sample_ocsp_asn1 : OcspAsn1 := {|
  decode_ocsp_response := λ _, inl "malformed"%string;
  decode_basic_response := λ _, inl "malformed"%string;
  encode_response_data := λ _, inr [];
  encode_name := λ n, inr (mjoin n ≫= λ a, any_value (ava_value a)) |}.

#[export] Instance sample_digests : Digests := {|
  sha1 := λ b, b; sha256 := λ b, 0%N :: b; sha384 := λ b, 1%N :: b; sha512 := λ b, 2%N :: b |}.

Definition sample_single (ca : string) (serial : N) (st : CertStatus) : SingleResponse := {|
  cert_id := {| hash_algorithm := {| alg_oid := OID_SHA1; alg_parameters := None |};
                issuer_name_hash := str ca; issuer_key_hash := str ca; cert_id_serial := [serial] |};
  cert_status := st; single_this_update := {| to_unix_secs := 120 |};
  single_next_update := Some {| to_unix_secs := 180 |};
  single_extensions := None |}.

(** A response of the delegate [d] that [ca1] designated. *)
Definition sample_ocsp (singles : list SingleResponse) : OcspChecker SampleVerifier := {|
  basic := {|
    tbs_response_data := {| responder_id := ByName (sample_name "d");
      produced_at := {| to_unix_secs := 130 |}; responses := singles;
      response_extensions := None |};
    ocsp_signature_algorithm := sample_alg;
    ocsp_signature := {| unused_bits := 0; raw_bytes := str "d" |};
    ocsp_certs := Some [sample_cert "ca1" "d" 9 [sample_ext OID_EXTENDED_KEY_USAGE [9]%N]] |};
  ocsp_now_unix := 150; ocsp_verifier := MkSampleVerifier |}.

(** The delegate's response is accepted. *)
Example wit_ocsp_delegate :
  ocsp_check_revocation (sample_ocsp [sample_single "ca1" 2 Good])
    (sample_cert "ca1" "leaf" 2 []) (sample_ca "root" "ca1" 3 []) = Ok tt.
Proof. vm_compute. reflexivity. Qed.

(** Only the first status with the serial number is considered: a response
    that also has the status for the right authority is refused when another
    authority's certificate with the same serial number comes first. *)
Theorem ocsp_first_serial_only :
  let check singles := ocsp_check_revocation (sample_ocsp singles)
    (sample_cert "ca1" "leaf" 2 []) (sample_ca "root" "ca1" 3 []) in
  check [sample_single "ca1" 2 Good; sample_single "ca2" 2 Good] = Ok tt ∧
  check [sample_single "ca2" 2 Good; sample_single "ca1" 2 Good] = Err OcspCertIdMismatch.
Proof. vm_compute. auto. Qed.
