(* ===== verification/Identity.v ===== *)
(** * Identities and their binding to a certificate (pkix-identity/src/lib.rs)

    [ServerName] and [MailboxName] with their parsers, and the match of an
    identity against the subject alternative names of a certificate.  A Rust
    [str] is the list of its Unicode scalar values; on the ASCII strings of a
    certificate these are the octets.  The [idna] crate is a parameter. *)
From S2P Require Import Prelude X509 PathTypes Samples.

Definition OID_SMTP_UTF8_MAILBOX : ObjectIdentifier := [1; 3; 6; 1; 5; 5; 7; 8; 9]%N.
Definition DNS_NAME_MAX_LEN : nat := 253.
Definition DNS_LABEL_MAX_LEN : nat := 63.

Inductive IdentityError := MalformedInput | NoMatchingSan | MissingSan | MalformedSan.
Abbreviation IdResult := (result IdentityError).

(** ** Strings of the standard library *)

(** [s.len()]: the octets of the UTF-8 encoding. *)
Definition char_len (c : N) : nat :=
  if decide (c < 128)%N then 1 else if decide (c < 2048)%N then 2
  else if decide (c < 65536)%N then 3 else 4.
Definition str_len (s : list N) : nat := sum_list (char_len <$> s).

Definition is_ascii (s : list N) : bool := forallb (λ c, bool_decide (c < 128)%N) s.

(** [s.strip_suffix(c)] *)
Definition strip_suffix_char (c : N) (s : list N) : option (list N) :=
  reverse <$> strip_prefix_char c (reverse s).

(** [s.split(c)]: never empty. *)
Fixpoint split_char (c : N) (s : list N) : list (list N) :=
  match s with
  | [] => [[]]
  | b :: r =>
      if decide (b = c) then [] :: split_char c r
      else match split_char c r with p :: ps => (b :: p) :: ps | [] => [[b]] end
  end.

(** [s.rsplit_once(c)]: around the last occurrence. *)
Definition rsplit_once (c : N) (s : list N) : option (list N * list N) :=
  match split_once c (reverse s) with
  | Some (x, y) => Some (reverse y, reverse x)
  | None => None
  end.

Definition is_ascii_alphanumeric (b : N) : bool :=
  bool_decide (48 ≤ b ∧ b ≤ 57 ∨ 65 ≤ b ∧ b ≤ 90 ∨ 97 ≤ b ∧ b ≤ 122)%N.

(** [char::is_whitespace]: the Unicode property White_Space. *)
Definition is_whitespace (c : N) : bool :=
  bool_decide (9 ≤ c ∧ c ≤ 13 ∨ c = 32 ∨ c = 133 ∨ c = 160 ∨ c = 5760 ∨
    8192 ≤ c ∧ c ≤ 8202 ∨ c = 8232 ∨ c = 8233 ∨ c = 8239 ∨ c = 8287 ∨ c = 12288)%N.

(** [c.to_digit(radix)] for a radix of at most 16. *)
Definition to_digit (radix c : N) : option N :=
  d ← (if decide (48 ≤ c ∧ c ≤ 57)%N then Some (c - 48)%N
       else if decide (97 ≤ c ∧ c ≤ 102)%N then Some (c - 87)%N
       else if decide (65 ≤ c ∧ c ≤ 70)%N then Some (c - 55)%N
       else None);
  if decide (d < radix)%N then Some d else None.

(** The digits, checked for overflow at each step. *)
Fixpoint parse_digits (radix limit acc : N) (s : list N) : option N :=
  match s with
  | [] => Some acc
  | c :: s =>
      d ← to_digit radix c;
      let acc := (acc * radix + d)%N in
      if decide (acc ≤ limit)%N then parse_digits radix limit acc s else None
  end.

(** [from_str_radix] of an unsigned type: a leading plus sign is accepted. *)
Definition from_str_radix (radix limit : N) (s : list N) : option N :=
  match s with
  | [] => None
  | c :: ds =>
      if decide (c = 43)%N
      then match ds with [] => None | _ => parse_digits radix limit 0 ds end
      else parse_digits radix limit 0 s
  end.

Definition u16_max : N := 65535.

(** The digits of an unsigned integer, as [{}] and [{:x}] write them. *)
Fixpoint fmt_digits (fuel : nat) (radix n : N) (acc : list N) : list N :=
  let d := (n mod radix)%N in
  let c := if decide (d < 10)%N then (48 + d)%N else (87 + d)%N in
  match fuel with
  | 0 => acc
  | S fuel => if decide (n < radix)%N then c :: acc else fmt_digits fuel radix (n / radix) (c :: acc)
  end.
(** Ten decimal digits suffice for a [u32], four hexadecimal ones for a [u16]. *)
Definition fmt_u8 (n : N) : list N := fmt_digits 10 10 n [].
Definition fmt_hex_u16 (n : N) : list N := fmt_digits 10 16 n [].

(** The parts with the separator between them. *)
Fixpoint join_char (c : N) (l : list (list N)) : list N :=
  match l with [] => [] | [p] => p | p :: l => p ++ c :: join_char c l end.

(** ** IP literals *)
Inductive IpRepr := V4 (b : bytes) | V6 (b : bytes).
#[global] Instance IpRepr_eq_dec : EqDecision IpRepr.
Proof. solve_decision. Defined.
Definition ip_as_bytes (i : IpRepr) : bytes := match i with V4 b | V6 b => b end.

(** The loop of [parse_ipv4] over the parts. *)
Fixpoint parse_ipv4_loop (octets : bytes) (parts : list (list N)) : option bytes :=
  match parts with
  | [] => if decide (length octets = 4) then Some octets else None
  | part :: parts =>
      if decide (length octets = 4) then None
      else if decide (part = [] ∨ 1 < str_len part ∧ head part = Some 48%N) then None
      else
        value ← from_str_radix 10 u32_max part;
        if decide (255 < value)%N then None else parse_ipv4_loop (octets ++ [value]) parts
  end.
Definition parse_ipv4 (s : list N) : option bytes := parse_ipv4_loop [] (split_char 46 s).

(** The loop of [parse_ipv6]: the groups and the place of the elided run. *)
Fixpoint parse_ipv6_loop (groups : list N) (zero_run_at : option nat) (parts : list (list N)) :
    option (list N * option nat) :=
  match parts with
  | [] => Some (groups, zero_run_at)
  | part :: rest =>
      if decide (part = []) then
        match zero_run_at with
        | Some _ => if decide (rest = []) then Some (groups, zero_run_at) else None
        | None =>
            let zero_run_at := Some (length groups) in
            if decide (rest = []) then Some (groups, zero_run_at)
            else parse_ipv6_loop groups zero_run_at rest
        end
      else if decide (4 < str_len part) then None
      else
        value ← from_str_radix 16 u16_max part;
        let groups := groups ++ [value] in
        if decide (8 < length groups) then None else parse_ipv6_loop groups zero_run_at rest
  end.

(** [(g >> 8) as u8, (g & 0xff) as u8] *)
Definition group_bytes (g : N) : bytes := [N.shiftr g 8; N.land g 255].

(** The sixteen octets from the groups. *)
Definition ipv6_octets (groups : list N) (zero_run_at : option nat) : option bytes :=
  let total := length groups in
  if decide (8 < total) then None
  else match zero_run_at with
  | None => if decide (total = 8) then Some (groups ≫= group_bytes) else None
  | Some at_ =>
      if decide (8 ≤ total) then None
      else Some ((take at_ groups ++ replicate (8 - total) 0%N ++ drop at_ groups) ≫= group_bytes)
  end.

Definition parse_ipv6 (s : list N) : option bytes :=
  if decide ([58; 58]%N `prefix_of` s) then
    if decide (s = [58; 58]%N) then Some (replicate 16 0%N)
    else '(groups, zero_run_at) ← parse_ipv6_loop [] (Some 0) (drop 2 (split_char 58 s));
         ipv6_octets groups zero_run_at
  else if decide (head s = Some 58%N) then None
  else '(groups, zero_run_at) ← parse_ipv6_loop [] None (split_char 58 s);
       ipv6_octets groups zero_run_at.

Definition parse_ip_literal (s : list N) : option IpRepr :=
  if decide (s = []) then None
  else if contains_char 58 s then V6 <$> parse_ipv6 s
  else V4 <$> parse_ipv4 s.

(** ** DNS names *)
Definition validate_ascii_label (label : list N) : IdResult unit :=
  if decide (label = [] ∨ DNS_LABEL_MAX_LEN < length label) then Err MalformedInput
  else if decide (head label = Some 45%N ∨ last label = Some 45%N) then Err MalformedInput
  else if forallb (λ b, is_ascii_alphanumeric b || bool_decide (b = 45)%N || bool_decide (b = 95)%N)
            label
  then Ok tt else Err MalformedInput.

(** The loop; [label] is [bytes[label_start..i]]. *)
Fixpoint validate_labels (label name : list N) : IdResult unit :=
  match name with
  | [] => validate_ascii_label label
  | b :: name =>
      if decide (b = 46)%N then _ ← validate_ascii_label label; validate_labels [] name
      else validate_labels (label ++ [b]) name
  end.

Definition validate_ascii_dns (name : list N) : IdResult unit :=
  if decide (DNS_NAME_MAX_LEN < str_len name) then Err MalformedInput
  else validate_labels [] name.

(** [idna::domain_to_ascii] and [Utf8StringRef::try_from]. *)
Class IdentityLib := {
  domain_to_ascii : list N → option (list N);
  utf8_string_any : Any → option (list N) }.

Definition is_ascii_uppercase (b : N) : bool := bool_decide (65 ≤ b ∧ b ≤ 90)%N.

Definition matches_dns_san (san_entry target : list N) : bool :=
  let san := default san_entry (strip_suffix_char 46 san_entry) in
  if decide (san = []) then false
  else if decide ([42; 46]%N `prefix_of` san) then
    let rest := drop 2 san in
    if contains_char 42 rest || bool_decide (rest = []) then false
    else if negb (contains_char 46 rest) then false
    else match split_once 46 target with
    | None => false
    | Some (first, rest_of_target) =>
        if decide (first = []) then false else eq_ignore_ascii_case rest_of_target rest
    end
  else if contains_char 42 san then false
  else eq_ignore_ascii_case san target.

Inductive ServerName := Dns (name : list N) | Ip (ip : IpRepr).
#[global] Instance ServerName_eq_dec : EqDecision ServerName.
Proof. solve_decision. Defined.

(** [ServerName::ip_address] *)
Definition ip_address (ip : list N) : IdResult ServerName :=
  let trimmed := default ip (rest ← strip_prefix_char 91 ip; strip_suffix_char 93 rest) in
  if contains_char 37 trimmed then Err MalformedInput
  else Ip <$> ok_or (parse_ip_literal trimmed) MalformedInput.

(** [impl Display for ServerName] *)
Definition server_name_to_string (n : ServerName) : list N :=
  match n with
  | Dns name => name
  | Ip (V4 b) => join_char 46 (fmt_u8 <$> b)
  | Ip (V6 b) =>
      [91]%N ++ join_char 58 ((λ i, fmt_hex_u16 (nth (2 * i) b 0 * 256 + nth (2 * i + 1) b 0)%N)
                               <$> seq 0 8) ++ [93]%N
  end.

(** ** Mailboxes *)
Record MailboxName := {
  local : list N; domain_a_label : list N; is_internationalized : bool }.

Definition validate_ascii_local_part (s : list N) : IdResult unit :=
  if decide (s = []) then Err MalformedInput
  else if decide (head s = Some 46%N ∨ last s = Some 46%N ∨ is_Some (find_str [46; 46]%N s))
  then Err MalformedInput
  else if forallb (λ b, is_ascii_alphanumeric b || bool_decide (b ∈ str "!#$%&'*+-/=?^_`{|}~.")) s
  then Ok tt else Err MalformedInput.

(** [ServerName::as_dns_name] and [as_ip_bytes] *)
Definition as_dns_name (n : ServerName) : option (list N) :=
  match n with Dns name => Some name | Ip _ => None end.
Definition as_ip_bytes (n : ServerName) : option bytes :=
  match n with Dns _ => None | Ip ip => Some (ip_as_bytes ip) end.

(** [std::net::IpAddr], by the octets of [Ipv4Addr] and [Ipv6Addr]. *)
Inductive IpAddr := AddrV4 (octets : bytes) | AddrV6 (octets : bytes).
(** [impl From<Ipv4Addr>], [From<Ipv6Addr>] and [From<IpAddr> for ServerName] *)
Definition from_ipv4_addr (octets : bytes) : ServerName := Ip (V4 octets).
Definition from_ipv6_addr (octets : bytes) : ServerName := Ip (V6 octets).
Definition from_ip_addr (addr : IpAddr) : ServerName :=
  match addr with AddrV4 octets => from_ipv4_addr octets | AddrV6 octets => from_ipv6_addr octets end.

(** [impl Display for MailboxName] *)
Definition mailbox_to_string (m : MailboxName) : list N := local m ++ 64%N :: domain_a_label m.

Section identity.
Context `{PathAsn1} `{IdentityLib}.

Definition normalize_dns_name (name : list N) : IdResult (list N) :=
  if decide (name = []) then Err MalformedInput
  else if contains_char 42 name then Err MalformedInput
  else
    let trimmed := default name (strip_suffix_char 46 name) in
    if decide (trimmed = []) then Err MalformedInput
    else if is_ascii trimmed then
      _ ← validate_ascii_dns trimmed;
      if existsb is_ascii_uppercase trimmed then mret (lower trimmed) else mret trimmed
    else
      ascii ← ok_or (domain_to_ascii trimmed) MalformedInput;
      _ ← validate_ascii_dns ascii;
      mret ascii.

(** [ServerName::dns_name] and [ServerName::parse] *)
Definition dns_name (name : list N) : IdResult ServerName := Dns <$> normalize_dns_name name.
Definition server_name_parse (input : list N) : IdResult ServerName :=
  match ip_address input with Ok n => Ok n | Err _ => dns_name input | Panic => Panic end.

(** [MailboxName::parse] *)
Definition mailbox_parse (mailbox : list N) : IdResult MailboxName :=
  '(local_raw, domain_raw) ← ok_or (rsplit_once 64 mailbox) MalformedInput;
  if decide (local_raw = [] ∨ domain_raw = []) then Err MalformedInput
  else if contains_char 64 local_raw then Err MalformedInput
  else if existsb (λ c, is_whitespace c || bool_decide (c = 0 ∨ c = 60 ∨ c = 62 ∨ c = 44 ∨ c = 34)%N)
            local_raw then Err MalformedInput
  else
    let is_internationalized := negb (is_ascii local_raw) in
    _ ← if negb is_internationalized then validate_ascii_local_part local_raw else Ok tt;
    domain_a_label ← normalize_dns_name domain_raw;
    mret {| local := local_raw; domain_a_label := domain_a_label;
            is_internationalized := is_internationalized |}.

(** [impl FromStr for ServerName] and [for MailboxName]; an owned value is the
    value. *)
Definition server_name_from_str (s : list N) : IdResult ServerName := server_name_parse s.
Definition mailbox_from_str (s : list N) : IdResult MailboxName := mailbox_parse s.

Definition find_san (cert : Certificate) : IdResult SubjectAltName :=
  exts ← ok_or (extensions (tbs_certificate cert)) MissingSan;
  ext ← ok_or (snd <$> list_find (λ e, extn_id e = OID_SUBJECT_ALT_NAME) exts) MissingSan;
  lift_der (λ _, MalformedSan) (from_der (extn_value ext)).

(** One entry against the identity of a server. *)
Definition san_entry_matches_server (name : ServerName) (entry : GeneralName) : bool :=
  match name, entry with
  | Dns target, DnsName san_dns => matches_dns_san san_dns target
  | Ip target, IpAddress san_ip => bool_decide (san_ip = ip_as_bytes target)
  | _, _ => false
  end.

Definition verify_dns_name (cert : Certificate) (name : ServerName) : IdResult unit :=
  san ← find_san cert;
  if existsb (san_entry_matches_server name) (san_names san) then Ok tt else Err NoMatchingSan.

Definition matches_rfc822_mailbox (san_value : list N) (target : MailboxName) : bool :=
  match rsplit_once 64 san_value with
  | None => false
  | Some (san_local, san_domain) =>
      if decide (san_local ≠ local target) then false
      else eq_ignore_ascii_case san_domain (domain_a_label target)
  end.

Definition matches_smtp_utf8_mailbox (san_value : list N) (target : MailboxName) : bool :=
  match rsplit_once 64 san_value with
  | None => false
  | Some (san_local, san_domain) =>
      if decide (san_local ≠ local target) then false
      else match domain_to_ascii san_domain with
      | None => false
      | Some san_domain_a => eq_ignore_ascii_case san_domain_a (domain_a_label target)
      end
  end.

Definition san_entry_matches_mailbox (entry : GeneralName) (target : MailboxName) : bool :=
  match entry with
  | Rfc822Name rfc822 =>
      if negb (is_internationalized target) then matches_rfc822_mailbox rfc822 target else false
  | OtherName type_id value =>
      if decide (type_id = OID_SMTP_UTF8_MAILBOX) then
        match utf8_string_any value with
        | Some utf8 => matches_smtp_utf8_mailbox utf8 target
        | None => false
        end
      else false
  | _ => false
  end.

Definition verify_mailbox (cert : Certificate) (mailbox : MailboxName) : IdResult unit :=
  san ← find_san cert;
  if existsb (λ entry, san_entry_matches_mailbox entry mailbox) (san_names san)
  then Ok tt else Err NoMatchingSan.
End identity.
