(* ===== verification/IdentitySpec.v ===== *)
(** * What an identity match means (pkix-identity/src/lib.rs)

    [dns_san_covers] and [mailbox_covers] are the matching rules of RFC 6125
    and RFC 8398 as the source states them; the verification functions succeed
    exactly when an entry of the certificate covers the identity, and each of
    their errors has one cause. *)
From S2P Require Import Prelude X509 PathTypes Samples Identity.

(** ** Strings *)
Lemma strip_suffix_char_Some c s r : strip_suffix_char c s = Some r ↔ s = r ++ [c].
Proof.
  unfold strip_suffix_char. rewrite fmap_Some. setoid_rewrite strip_prefix_char_Some. split.
  - intros (x & Hx & ->). apply (f_equal reverse) in Hx. rewrite reverse_involutive in Hx.
    by rewrite Hx, reverse_cons.
  - intros ->. exists (reverse r). by rewrite reverse_snoc, reverse_involutive.
Qed.

Lemma rsplit_once_Some c s x y : rsplit_once c s = Some (x, y) ↔ s = x ++ c :: y ∧ c ∉ y.
Proof.
  unfold rsplit_once. destruct (split_once c (reverse s)) as [[a b]|] eqn:Hs.
  - apply split_once_Some in Hs as [Hs Ha]. apply (f_equal reverse) in Hs.
    rewrite reverse_involutive, reverse_app, reverse_cons, <-app_assoc in Hs. cbn in Hs.
    assert (c ∉ reverse a) as Hra by (by rewrite elem_of_reverse). split.
    + intros [= <- <-]. by split.
    + intros [Hs' Hy]. f_equal.
      assert (split_once c (reverse s) = Some (a, b)) as H1.
      { apply split_once_Some. split; [|done]. rewrite Hs, reverse_app, reverse_cons,
          !reverse_involutive, <-app_assoc. done. }
      assert (split_once c (reverse s) = Some (reverse y, reverse x)) as H2.
      { apply split_once_Some. split; [|by rewrite elem_of_reverse].
        rewrite Hs', reverse_app, reverse_cons, <-app_assoc. done. }
      rewrite H1 in H2. injection H2 as -> ->. by rewrite !reverse_involutive.
  - apply split_once_None in Hs. rewrite elem_of_reverse in Hs. split; [done|].
    intros [-> _]. destruct Hs. set_solver.
Qed.

(** The parts of a string; splitting a joined list of parts gives it back. *)
Lemma split_char_cons_app c p s :
  c ∉ p → ∃ q qs, split_char c s = q :: qs ∧ split_char c (p ++ s) = (p ++ q) :: qs.
Proof.
  intros Hp. assert (∃ q qs, split_char c s = q :: qs) as (q & qs & Hq).
  { destruct s as [|b s]; cbn; [eauto|]. case_decide; [eauto|].
    destruct (split_char c s); eauto. }
  exists q, qs. split; [done|]. induction p as [|b p IH]; [done|]. cbn.
  apply not_elem_of_cons in Hp as [Hb Hp]. rewrite decide_False by done. by rewrite IH.
Qed.

Lemma split_char_sep c p s : c ∉ p → split_char c (p ++ c :: s) = p :: split_char c s.
Proof.
  intros Hp. destruct (split_char_cons_app c p (c :: s) Hp) as (q & qs & Hq & ->).
  cbn in Hq. rewrite decide_True in Hq by done. injection Hq as <- <-. by rewrite app_nil_r.
Qed.

Lemma split_join c l : l ≠ [] → Forall (λ p, c ∉ p) l → split_char c (join_char c l) = l.
Proof.
  intros Hne Hl. induction Hl as [|p l Hp Hl IH]; [done|]. destruct l as [|q l].
  - cbn. rewrite <-(app_nil_r p) at 1.
    destruct (split_char_cons_app c p [] Hp) as (q & qs & Hq & ->).
    cbn in Hq. injection Hq as <- <-. by rewrite app_nil_r.
  - change (join_char c (p :: q :: l)) with (p ++ c :: join_char c (q :: l)).
    rewrite split_char_sep by done. by rewrite IH.
Qed.

Lemma elem_of_join c x l : x ∈ join_char c l → x = c ∨ ∃ p, p ∈ l ∧ x ∈ p.
Proof.
  induction l as [|p l IH]; cbn; [by intros ?%not_elem_of_nil|].
  destruct l as [|q l]; [intros Hx; right; exists p; set_solver|].
  rewrite elem_of_app, elem_of_cons. intros [Hx|[->|Hx]]; [right; exists p; set_solver|by left|].
  destruct (IH Hx) as [?|(r & Hr & ?)]; [by left|right; exists r; set_solver].
Qed.

(** ** DNS names *)

(** Without one trailing dot. *)
Definition strip_dot (s : list N) : list N := default s (strip_suffix_char 46 s).

(** RFC 6125 6.4.3: the same name, or one label for the leftmost wildcard of
    a name with at least two more labels. *)
Definition dns_san_covers (san target : list N) : Prop :=
  let s := strip_dot san in
  (s ≠ [] ∧ (42%N ∉ s) ∧ lower s = lower target) ∨
  ∃ rest label tail, s = [42; 46]%N ++ rest ∧ (42%N ∉ rest) ∧ (46%N ∈ rest) ∧
    target = label ++ 46%N :: tail ∧ (46%N ∉ label) ∧ label ≠ [] ∧ lower tail = lower rest.

Lemma contains_char_true c s : contains_char c s = true ↔ c ∈ s.
Proof. apply bool_decide_eq_true. Qed.
Lemma contains_char_false c s : contains_char c s = false ↔ c ∉ s.
Proof. apply bool_decide_eq_false. Qed.

Lemma matches_dns_san_spec san target :
  matches_dns_san san target = true ↔ dns_san_covers san target.
Proof.
  unfold matches_dns_san, dns_san_covers. fold (strip_dot san).
  set (s := strip_dot san). clearbody s.
  case_decide as Hs; [subst s|].
  { split; [done|]. intros [[? _]|(rest & ? & ? & ? & _)]; done. }
  case_decide as Hp.
  - destruct Hp as [rest ->]. cbn [app drop]. rewrite drop_0. split.
    + destruct (contains_char 42 rest || bool_decide (rest = [])) eqn:H1; [done|].
      apply orb_false_iff in H1 as [H1%contains_char_false _].
      destruct (contains_char 46 rest) eqn:H2; [|done]. apply contains_char_true in H2. cbn [negb].
      destruct (split_once 46 target) as [[label tail]|] eqn:Ht; [|done].
      apply split_once_Some in Ht as [-> Hl]. case_decide as Hne; [done|].
      intros Heq%eq_ignore_ascii_case_spec. right. by exists rest, label, tail.
    + intros [(_ & Hno & _)|(rest' & label & tail & Hr & H1 & H2 & -> & Hl & Hne & Heq)].
      { destruct Hno. by left. }
      injection Hr as <-. rewrite (proj2 (contains_char_false _ _)) by done.
      rewrite bool_decide_eq_false_2 by (intros ->; by apply not_elem_of_nil in H2). cbn [orb].
      rewrite (proj2 (contains_char_true _ _)) by done. cbn [negb].
      rewrite (proj2 (split_once_Some _ _ label tail)) by (by split).
      rewrite decide_False by done. by apply eq_ignore_ascii_case_spec.
  - destruct (contains_char 42 s) eqn:H1.
    + apply contains_char_true in H1. split; [done|].
      intros [(_ & ? & _)|(rest & ? & ? & -> & _)]; [done|]. destruct Hp. by eexists.
    + apply contains_char_false in H1. rewrite eq_ignore_ascii_case_spec. split; [by left|].
      intros [(_ & _ & ?)|(rest & ? & ? & -> & _)]; [done|]. destruct Hp. by eexists.
Qed.

(** A label of a host name: letters, digits, hyphens and underscores. *)
Definition label_ok (l : list N) : Prop :=
  l ≠ [] ∧ length l ≤ DNS_LABEL_MAX_LEN ∧ head l ≠ Some 45%N ∧ last l ≠ Some 45%N ∧
  ∀ b, b ∈ l → is_ascii_alphanumeric b = true ∨ b = 45%N ∨ b = 95%N.

Definition dns_ok (name : list N) : Prop :=
  str_len name ≤ DNS_NAME_MAX_LEN ∧ Forall label_ok (split_char 46 name).

Lemma validate_ascii_label_Ok l : validate_ascii_label l = Ok tt ↔ label_ok l.
Proof.
  unfold validate_ascii_label, label_ok. case_decide as H1.
  { split; [done|]. intros (? & ? & _). destruct H1; [done|lia]. }
  case_decide as H2; [split; [done|]; intros (_ & _ & ? & ? & _); by destruct H2|].
  destruct (forallb _ l) eqn:Hf.
  - split; [intros _|done].
    split_and!; [naive_solver|lia|naive_solver|naive_solver|]. intros b Hb.
    rewrite forallb_elem in Hf. specialize (Hf b Hb).
    apply orb_true_iff in Hf as [[Hf|Hf%bool_decide_eq_true]%orb_true_iff|Hf%bool_decide_eq_true];
      auto.
  - split; [done|]. intros (_ & _ & _ & _ & Hb). apply not_true_iff_false in Hf. destruct Hf.
    apply forallb_elem. intros b Hin. destruct (Hb b Hin) as [->|[->| ->]]; [done| |];
      by rewrite orb_true_r.
Qed.

Lemma validate_labels_Ok label name :
  46%N ∉ label →
  validate_labels label name = Ok tt ↔ Forall label_ok (split_char 46 (label ++ name)).
Proof.
  revert label. induction name as [|b name IH]; intros label Hl; cbn [validate_labels].
  - destruct (split_char_cons_app 46 label [] Hl) as (q & qs & Hq & ->).
    cbn in Hq. injection Hq as <- <-. rewrite app_nil_r, Forall_singleton.
    apply validate_ascii_label_Ok.
  - case_decide as Hb.
    + subst b. rewrite split_char_sep by done. rewrite bind_Ok, Forall_cons.
      rewrite <-validate_ascii_label_Ok, <-(IH []) by apply not_elem_of_nil. split.
      * intros ([] & ? & ?). done.
      * intros [? ?]. by exists tt.
    + rewrite IH by (rewrite elem_of_app, list_elem_of_singleton; naive_solver).
      by rewrite <-app_assoc.
Qed.

Lemma validate_ascii_dns_Ok name : validate_ascii_dns name = Ok tt ↔ dns_ok name.
Proof.
  unfold validate_ascii_dns, dns_ok. case_decide as Hl.
  - split; [done|]. intros [? _]. lia.
  - rewrite validate_labels_Ok by apply not_elem_of_nil. split; [split; [lia|done]|by intros [_ ?]].
Qed.

Lemma lower_eq_nil s : lower s = [] ↔ s = [].
Proof. split; [apply fmap_nil_inv|by intros ->]. Qed.

Lemma lower_uppercase s : existsb is_ascii_uppercase s = false → lower s = s.
Proof.
  rewrite existsb_elem_false. intros Hs. unfold lower. rewrite <-(list_fmap_id s) at 2.
  apply list_fmap_ext. intros i x Hx%list_elem_of_lookup_2. cbn. specialize (Hs x Hx).
  unfold is_ascii_uppercase in Hs. apply bool_decide_eq_false in Hs.
  unfold to_ascii_lowercase. by rewrite decide_False.
Qed.

(** The characters of a valid name. *)
Lemma elem_of_split c s x : x ∈ s → x = c ∨ ∃ p, p ∈ split_char c s ∧ x ∈ p.
Proof.
  induction s as [|b s IH]; [by intros ?%not_elem_of_nil|]. cbn.
  intros [->|Hx]%elem_of_cons; case_decide as Hb.
  - by left.
  - right. destruct (split_char c s) as [|p ps]; [exists [b]|exists (b :: p)];
      split; by left.
  - destruct (IH Hx) as [?|(p & Hp & ?)]; [by left|right]. exists p. split; [by right|done].
  - destruct (IH Hx) as [?|(p & Hp & Hxp)]; [by left|right].
    destruct (split_char c s) as [|q qs]; [by apply not_elem_of_nil in Hp|].
    apply elem_of_cons in Hp as [->|Hp]; [exists (b :: q)|exists p]; (split; [|by try right]).
    + by left.
    + by right.
Qed.

Lemma dns_ok_char name x :
  dns_ok name → x ∈ name → x = 46%N ∨ is_ascii_alphanumeric x = true ∨ x = 45%N ∨ x = 95%N.
Proof.
  intros [_ Hl] Hx. rewrite Forall_forall in Hl.
  destruct (elem_of_split 46 name x Hx) as [?|(p & Hp & ?)]; [by left|right].
  by apply (Hl p Hp).
Qed.

Lemma dns_ok_ascii name : dns_ok name → is_ascii name = true.
Proof.
  intros Hok. apply forallb_elem. intros x Hx. apply bool_decide_eq_true.
  destruct (dns_ok_char name x Hok Hx) as [->|[Ha|[->| ->]]]; try lia.
  unfold is_ascii_alphanumeric in Ha. apply bool_decide_eq_true in Ha. lia.
Qed.

Lemma dns_ok_no_wildcard name : dns_ok name → 42%N ∉ name.
Proof.
  intros Hok Hx. destruct (dns_ok_char name _ Hok Hx) as [?|[Ha|[?|?]]]; try done.
Qed.

Lemma split_char_snoc c r : split_char c (r ++ [c]) = split_char c r ++ [[]].
Proof.
  induction r as [|b r IH]; cbn; [by rewrite decide_True|].
  case_decide; [by rewrite IH|]. rewrite IH.
  destruct (split_char_cons_app c [] r) as (q & qs & -> & _); [apply not_elem_of_nil|done].
Qed.

(** The last label is not empty: there is no trailing dot to strip. *)
Lemma dns_ok_strip_dot name : dns_ok name → strip_dot name = name.
Proof.
  intros [_ Hl]. unfold strip_dot. destruct (strip_suffix_char 46 name) as [r|] eqn:Hr; [|done].
  apply strip_suffix_char_Some in Hr as ->. rewrite split_char_snoc in Hl.
  by apply Forall_app in Hl as [_ [[? _] _]%Forall_cons].
Qed.

Lemma dns_ok_not_nil name : dns_ok name → name ≠ [].
Proof. intros [_ Hl] ->. cbn in Hl. by apply Forall_singleton in Hl as [? _]. Qed.

(** Lower case keeps a name valid. *)
Lemma lower_char_len b : char_len (to_ascii_lowercase b) = char_len b.
Proof. unfold to_ascii_lowercase. case_decide; [|done]. unfold char_len. repeat case_decide; lia. Qed.

Lemma to_ascii_lowercase_alphanumeric b :
  is_ascii_alphanumeric b = true → is_ascii_alphanumeric (to_ascii_lowercase b) = true.
Proof.
  unfold is_ascii_alphanumeric, to_ascii_lowercase. rewrite !bool_decide_eq_true.
  case_decide; lia.
Qed.

Lemma to_ascii_lowercase_fixed b x :
  (x < 65 ∨ 90 < x ∧ x < 97 ∨ 122 < x)%N → to_ascii_lowercase b = x ↔ b = x.
Proof. intros Hx. unfold to_ascii_lowercase. case_decide; split; lia. Qed.

Lemma label_ok_lower l : label_ok l → label_ok (lower l).
Proof.
  intros (Hne & Hlen & Hh & Hla & Hc). unfold lower. split_and!.
  - intros Hn%fmap_nil_inv. done.
  - by rewrite length_fmap.
  - destruct l as [|b l]; [done|]. cbn. intros [= Hb].
    rewrite to_ascii_lowercase_fixed in Hb by lia. apply Hh. cbn. congruence.
  - rewrite fmap_last. intros (b & Hb & He)%fmap_Some.
    symmetry in He. rewrite to_ascii_lowercase_fixed in He by lia. congruence.
  - intros x (b & -> & Hb)%list_elem_of_fmap. destruct (Hc b Hb) as [Ha|[->| ->]].
    + left. by apply to_ascii_lowercase_alphanumeric.
    + by right; left.
    + by right; right.
Qed.

Lemma split_char_lower s : split_char 46 (lower s) = lower <$> split_char 46 s.
Proof.
  induction s as [|b s IH]; [done|]. unfold lower at 1. cbn [fmap list_fmap split_char].
  change (to_ascii_lowercase <$> s) with (lower s). rewrite IH.
  destruct (decide (b = 46%N)) as [->|Hb]; [done|].
  rewrite decide_False by (rewrite to_ascii_lowercase_fixed; [done|lia]).
  by destruct (split_char 46 s).
Qed.

Lemma dns_ok_lower name : dns_ok name → dns_ok (lower name).
Proof.
  intros [Hl Hf]. split.
  - unfold str_len, lower. rewrite <-list_fmap_compose.
    replace ((char_len ∘ to_ascii_lowercase) <$> name) with (char_len <$> name); [done|].
    apply list_fmap_ext. intros i x _. cbn. by rewrite lower_char_len.
  - rewrite split_char_lower. apply Forall_fmap. eapply Forall_impl; [exact Hf|].
    intros. by apply label_ok_lower.
Qed.

Section normalize.
Context `{PathAsn1} `{IdentityLib}.

(** A normalised host name is a valid one (labels of letters, digits,
    hyphens and underscores, of at most 63 characters, not bounded by hyphens,
    at most 253 in all), without a wildcard or a trailing dot; for an ASCII
    input it is the input in lower case without its trailing dot.  Normalising
    a lower-case valid name changes nothing, so normalising is idempotent. *)
Theorem normalize_dns_name_correct name d :
  normalize_dns_name name = Ok d →
  dns_ok d ∧ (42%N ∉ d) ∧ strip_dot d = d ∧
  (is_ascii name = true → d = lower (strip_dot name)) ∧
  (lower d = d → normalize_dns_name d = Ok d).
Proof.
  intros Hn. assert (dns_ok d ∧ (is_ascii name = true → d = lower (strip_dot name))) as [Hok Hl].
  { revert Hn. unfold normalize_dns_name. fold (strip_dot name).
    case_decide; [done|]. destruct (contains_char 42 name); [done|].
    case_decide; [done|]. destruct (is_ascii (strip_dot name)) eqn:Ha.
    - intros Hn. inv_ok. destruct r. apply validate_ascii_dns_Ok in Hr.
      destruct (existsb _ _) eqn:Hup; inv_ok; subst d.
      + split; [by apply dns_ok_lower|done].
      + by rewrite (lower_uppercase _ Hup).
    - intros Hn. inv_ok. destruct r0. apply validate_ascii_dns_Ok in Hr0. subst r.
      split; [done|]. intros Hasc. exfalso. apply not_true_iff_false in Ha. destruct Ha.
      apply forallb_elem. intros x Hx. apply (proj1 (forallb_elem _ _) Hasc).
      unfold strip_dot in Hx. destruct (strip_suffix_char 46 name) as [r|] eqn:Hs; [|done].
      apply strip_suffix_char_Some in Hs as ->. cbn in Hx. set_solver. }
  pose proof (dns_ok_no_wildcard d Hok) as Hw. pose proof (dns_ok_strip_dot d Hok) as Hsd.
  split_and!; [done..|]. intros Hlow. unfold normalize_dns_name. fold (strip_dot d).
  rewrite Hsd, !(decide_False (P:=d = [])) by (by apply dns_ok_not_nil).
  rewrite (proj2 (contains_char_false _ _)) by done. rewrite (dns_ok_ascii d Hok).
  rewrite (proj2 (validate_ascii_dns_Ok d)) by done. cbn. rewrite Hlow. by case_match.
Qed.

(** A mailbox that is parsed is written so that it is read back, when its domain
    is in lower case, as that of every ASCII input is; what is written and read
    has the same parts. *)
Theorem mailbox_display_parse_roundtrip mailbox m :
  mailbox_parse mailbox = Ok m →
  (∃ domain, mailbox = local m ++ 64%N :: domain ∧
    (is_ascii domain = true → lower (domain_a_label m) = domain_a_label m)) ∧
  (lower (domain_a_label m) = domain_a_label m → mailbox_from_str (mailbox_to_string m) = Ok m).
Proof.
  unfold mailbox_parse. intros ([local_raw domain_raw] & Hs%ok_or_Ok & Hm)%bind_Ok.
  apply rsplit_once_Some in Hs as [-> Hd]. case_decide as Hne; [done|].
  destruct (contains_char 64 local_raw) eqn:Hat; [done|]. destruct (existsb _ local_raw) eqn:Hws; [done|].
  apply bind_Ok in Hm as ([] & Hlocal & (d & Hdom & [= <-])%bind_Ok). cbn.
  apply normalize_dns_name_correct in Hdom as (Hok & Hstar & _ & Hlow & Hagain). split.
  - exists domain_raw. split; [done|]. intros Ha. rewrite (Hlow Ha). apply lower_idem.
  - intros Hd'. unfold mailbox_from_str, mailbox_parse, mailbox_to_string. cbn.
    assert (Hdat : 64%N ∉ d) by (intros Hin; destruct (dns_ok_char d 64%N Hok Hin) as [|[|[|]]]; done).
    rewrite (proj2 (rsplit_once_Some _ _ local_raw d)) by done. cbn [ok_or mbind result_bind].
    rewrite decide_False by (pose proof (dns_ok_not_nil d Hok); naive_solver).
    rewrite Hat, Hws, Hlocal. cbn [mbind result_bind]. by rewrite (Hagain Hd').
Qed.

(** ** Matching a certificate *)

(** The outcome of looking for an entry with a property among the names. *)
Definition san_outcome (cert : Certificate) (covers : GeneralName → Prop) (r : IdResult unit) :
    Prop :=
  match find_ext cert OID_SUBJECT_ALT_NAME with
  | None => r = Err MissingSan
  | Some ext =>
      match from_der (extn_value ext) with
      | inl _ => r = Err MalformedSan
      | inr san =>
          ((∃ e, e ∈ san_names san ∧ covers e) ∧ r = Ok tt) ∨
          ((∀ e, e ∈ san_names san → ¬ covers e) ∧ r = Err NoMatchingSan)
      end
  end.

Definition server_covers (name : ServerName) (e : GeneralName) : Prop :=
  match name with
  | Dns target => ∃ san, e = DnsName san ∧ dns_san_covers san target
  | Ip ip => e = IpAddress (ip_as_bytes ip)
  end.

(** RFC 5280 for ASCII mailboxes, RFC 8398 for the others: the same local
    part, and the same domain but for the case. *)
Definition mailbox_covers (m : MailboxName) (e : GeneralName) : Prop :=
  (∃ l d, e = Rfc822Name (l ++ 64%N :: d) ∧ is_internationalized m = false ∧ (64%N ∉ d) ∧
     l = local m ∧ lower d = lower (domain_a_label m)) ∨
  (∃ v l d a, e = OtherName OID_SMTP_UTF8_MAILBOX v ∧ utf8_string_any v = Some (l ++ 64%N :: d) ∧
     (64%N ∉ d) ∧ l = local m ∧ domain_to_ascii d = Some a ∧ lower a = lower (domain_a_label m)).

Lemma san_entry_matches_server_spec name e :
  san_entry_matches_server name e = true ↔ server_covers name e.
Proof.
  destruct name as [target|ip], e; cbn; try (split; [done|intros (? & ? & _); done]);
    try (split; [done|intros ?; done]).
  - rewrite matches_dns_san_spec. split; [eauto|]. by intros (? & [= <-] & ?).
  - rewrite bool_decide_eq_true. split; [by intros ->|by intros [= ->]].
Qed.

Lemma matches_rfc822_mailbox_spec s m :
  matches_rfc822_mailbox s m = true ↔
  ∃ d, s = local m ++ 64%N :: d ∧ (64%N ∉ d) ∧ lower d = lower (domain_a_label m).
Proof.
  unfold matches_rfc822_mailbox. destruct (rsplit_once 64 s) as [[l d]|] eqn:Hs.
  - apply rsplit_once_Some in Hs as Hs'. destruct Hs' as [-> Hd]. case_decide as Hl.
    + split; [done|]. intros (d' & Heq & Hd' & _).
      rewrite (proj2 (rsplit_once_Some _ _ (local m) d')) in Hs by done. congruence.
    + subst l. rewrite eq_ignore_ascii_case_spec. split; [by exists d|].
      intros (d' & Heq & _ & ?). by simplify_list_eq.
  - split; [done|]. intros (d & Heq & Hd & _).
    rewrite (proj2 (rsplit_once_Some _ _ (local m) d)) in Hs by done. done.
Qed.

Lemma matches_smtp_utf8_mailbox_spec s m :
  matches_smtp_utf8_mailbox s m = true ↔
  ∃ d a, s = local m ++ 64%N :: d ∧ (64%N ∉ d) ∧ domain_to_ascii d = Some a ∧
    lower a = lower (domain_a_label m).
Proof.
  unfold matches_smtp_utf8_mailbox. destruct (rsplit_once 64 s) as [[l d]|] eqn:Hs.
  - apply rsplit_once_Some in Hs as Hs'. destruct Hs' as [-> Hd]. case_decide as Hl.
    + split; [done|]. intros (d' & a & Heq & Hd' & _).
      rewrite (proj2 (rsplit_once_Some _ _ (local m) d')) in Hs by done. congruence.
    + subst l. destruct (domain_to_ascii d) as [a|] eqn:Ha.
      * rewrite eq_ignore_ascii_case_spec. split; [by exists d, a|].
        intros (d' & a' & Heq & _ & Ha' & ?). simplify_list_eq. congruence.
      * split; [done|]. intros (d' & a' & Heq & _ & Ha' & ?). by simplify_list_eq.
  - split; [done|]. intros (d & a & Heq & Hd & _).
    rewrite (proj2 (rsplit_once_Some _ _ (local m) d)) in Hs by done. done.
Qed.

Lemma san_entry_matches_mailbox_spec m e :
  san_entry_matches_mailbox e m = true ↔ mailbox_covers m e.
Proof.
  unfold mailbox_covers. destruct e; cbn;
    try (split; [done|intros [(? & ? & ? & _)|(? & ? & ? & ? & ? & _)]; done]).
  - case_decide as Hid; [subst type_id|].
    + destruct (utf8_string_any value) as [s|] eqn:Hv.
      * rewrite matches_smtp_utf8_mailbox_spec. split.
        -- intros (d & a & -> & ? & ? & ?). right. by exists value, (local m), d, a.
        -- intros [(? & ? & ? & _)|(v & l & d & a & [= <-] & Hv' & ? & -> & ? & ?)]; [done|].
           exists d, a. split_and!; [congruence|done..].
      * split; [done|]. intros [(? & ? & ? & _)|(v & l & d & a & [= <-] & Hv' & _)]; [done|congruence].
    + split; [done|]. intros [(? & ? & ? & _)|(v & l & d & a & [= ? ?] & _)]; done.
  - destruct (is_internationalized m) eqn:Hi; cbn [negb].
    + split; [done|]. intros [(? & ? & _ & ? & _)|(? & ? & ? & ? & ? & _)]; done.
    + rewrite matches_rfc822_mailbox_spec. split.
      * intros (d & -> & ? & ?). left. by exists (local m), d.
      * intros [(l & d & [= ->] & _ & ? & -> & ?)|(? & ? & ? & ? & ? & _)]; [by exists d|done].
Qed.

Lemma verify_san_spec cert (f : GeneralName → bool) covers :
  (∀ e, f e = true ↔ covers e) →
  san_outcome cert covers (san ← find_san cert;
    if existsb f (san_names san) then Ok tt else Err NoMatchingSan).
Proof.
  intros Hf. unfold san_outcome, find_san. rewrite find_ext_bind.
  destruct (extensions _) as [exts|]; cbn; [|done].
  destruct (list_find _ exts) as [[i ext]|]; cbn; [|done].
  destruct (from_der (extn_value ext)) as [e|san]; cbn; [done|].
  destruct (existsb f (san_names san)) eqn:Hx.
  - left. split; [|done]. apply existsb_elem in Hx. by setoid_rewrite <-Hf.
  - right. split; [|done]. rewrite existsb_elem_false in Hx. intros e He.
    rewrite <-Hf, Hx by done. done.
Qed.

(** C20: a certificate is bound to a host name, an address or a mailbox exactly
    when one of its alternative names covers it by the rules of RFC 6125 (one
    leftmost label for a wildcard), RFC 5280 and RFC 8398; a missing extension,
    a malformed one and the absence of such a name each have their error. *)
Theorem verify_identity_correct cert :
  (∀ name, san_outcome cert (server_covers name) (verify_dns_name cert name)) ∧
  (∀ mailbox, san_outcome cert (mailbox_covers mailbox) (verify_mailbox cert mailbox)).
Proof.
  split; intros; apply verify_san_spec; [apply san_entry_matches_server_spec|].
  intros e. apply san_entry_matches_mailbox_spec.
Qed.
End normalize.

(** ** Addresses: printing and parsing *)
Section digits.
Variable radix : N.
Hypothesis Hradix : (2 ≤ radix ≤ 16)%N.

Definition digit_char (d : N) : N := if decide (d < 10)%N then (48 + d)%N else (87 + d)%N.

Lemma to_digit_char d : (d < radix)%N → to_digit radix (digit_char d) = Some d.
Proof.
  intros Hd. unfold to_digit, digit_char. repeat case_decide; try lia; cbn;
    rewrite decide_True by lia; f_equal; lia.
Qed.

Lemma parse_fmt_digits fuel limit n acc :
  (n < radix ^ N.of_nat fuel)%N → (n ≤ limit)%N →
  parse_digits radix limit 0 (fmt_digits fuel radix n acc) = parse_digits radix limit n acc.
Proof.
  revert n acc. induction fuel as [|fuel IH]; intros n acc Hn Hl.
  { cbn in *. by replace n with 0%N by lia. }
  cbn [fmt_digits]. fold (digit_char (n mod radix)). case_decide as Hlt.
  - cbn [parse_digits]. rewrite N.mod_small, to_digit_char by done. cbn.
    rewrite decide_True by lia. by rewrite N.add_0_l.
  - assert (n / radix < radix ^ N.of_nat fuel)%N as Hdiv.
    { apply N.Div0.div_lt_upper_bound. by rewrite Nat2N.inj_succ, N.pow_succ_r' in Hn. }
    rewrite IH; [|done|]; cycle 1.
    { transitivity n; [apply N.Div0.div_le_upper_bound; nia|done]. }
    cbn [parse_digits]. rewrite to_digit_char by (apply N.mod_lt; lia). cbn.
    assert (n / radix * radix + n mod radix = n)%N as ->
      by (rewrite (N.div_mod n radix) at 3 by lia; lia).
    by rewrite decide_True.
Qed.

Lemma fmt_digits_length fuel k n acc :
  (n < radix ^ N.of_nat k)%N → 1 ≤ k → length (fmt_digits fuel radix n acc) ≤ k + length acc.
Proof.
  revert k n acc. induction fuel as [|fuel IH]; intros k n acc Hn Hk; cbn [fmt_digits]; [lia|].
  case_decide as Hlt; [cbn; lia|]. destruct k as [|[|k]]; [lia|cbn in Hn; lia|].
  etransitivity; [apply (IH (S k)); [|lia]|cbn; lia].
  apply N.Div0.div_lt_upper_bound. by rewrite Nat2N.inj_succ, N.pow_succ_r' in Hn.
Qed.

Lemma fmt_digits_char fuel n acc x :
  x ∈ fmt_digits fuel radix n acc → x ∈ acc ∨ ∃ d, (d < radix)%N ∧ x = digit_char d.
Proof.
  revert n acc. induction fuel as [|fuel IH]; intros n acc; cbn [fmt_digits]; [by left|].
  assert (n mod radix < radix)%N by (apply N.mod_lt; lia).
  case_decide as Hlt.
  - intros [->|?]%elem_of_cons; [right; eauto|by left].
  - intros [[->|?]%elem_of_cons|?]%IH; [right; eauto|by left|by right].
Qed.

(** The first character: zero only for the number zero. *)
Lemma fmt_digits_head fuel n acc :
  (n < radix ^ N.of_nat fuel)%N → fuel ≠ 0 →
  ∃ d l, fmt_digits fuel radix n acc = digit_char d :: l ∧ (d < radix)%N ∧
    (d = 0%N → n = 0%N ∧ l = acc).
Proof.
  revert n acc. induction fuel as [|fuel IH]; intros n acc Hn Hf; [done|]. cbn [fmt_digits].
  case_decide as Hlt.
  - exists n, acc. rewrite N.mod_small by done. split_and!; [done..|]. by intros ->.
  - assert (n / radix < radix ^ N.of_nat fuel)%N as Hdiv.
    { apply N.Div0.div_lt_upper_bound. by rewrite Nat2N.inj_succ, N.pow_succ_r' in Hn. }
    assert (0 < n / radix)%N as Hpos by (apply N.div_str_pos; lia).
    destruct (IH (n / radix)%N (digit_char (n mod radix) :: acc)) as (d & l & Heq & Hd & Hz);
      [done|intros ->; cbn in Hdiv; lia|].
    exists d, l. split_and!; [done..|]. intros H0. destruct (Hz H0). lia.
Qed.
End digits.

(** The values of the array types [[u8; 4]] and [[u8; 16]]. *)
Definition ip_wf (ip : IpRepr) : Prop :=
  match ip with
  | V4 b => length b = 4 ∧ Forall (λ x, x < 256)%N b
  | V6 b => length b = 16 ∧ Forall (λ x, x < 256)%N b
  end.

Lemma digit_char_range d : (d < 16)%N → (48 ≤ digit_char d ≤ 57 ∨ 97 ≤ digit_char d ≤ 102)%N.
Proof. unfold digit_char. case_decide; lia. Qed.

(** A number that [fmt_digits] writes, as the parsers see it. *)
Lemma fmt_number_fuel fuel radix limit n :
  (2 ≤ radix ≤ 16)%N → fuel ≠ 0 → (n < radix ^ N.of_nat fuel)%N → (n ≤ limit)%N →
  let s := fmt_digits fuel radix n [] in
  from_str_radix radix limit s = Some n ∧ s ≠ [] ∧ (1 < str_len s → head s ≠ Some 48%N) ∧
  (∀ x, x ∈ s → (48 ≤ x ≤ 57 ∨ 97 ≤ x ≤ 102)%N) ∧ parse_digits radix limit 0 s = Some n.
Proof.
  intros Hr Hf Hn Hl s.
  assert (∀ x, x ∈ s → (48 ≤ x ≤ 57 ∨ 97 ≤ x ≤ 102)%N) as Hc.
  { intros x [Hx|(d & Hd & ->)]%(fmt_digits_char radix Hr); [by apply not_elem_of_nil in Hx|].
    apply digit_char_range. lia. }
  assert (parse_digits radix limit 0 s = Some n) as Hp by by apply (parse_fmt_digits radix Hr fuel).
  destruct (fmt_digits_head radix Hr fuel n []) as (d & l & Hs & Hd & Hz); [done|done|].
  fold s in Hs. split_and!; [|by rewrite Hs| |done|done].
  - transitivity (parse_digits radix limit 0 s); [|done].
    rewrite Hs. unfold from_str_radix. rewrite decide_False; [done|].
    assert (digit_char d ∈ s) as Hin by (rewrite Hs; left). specialize (Hc _ Hin). lia.
  - rewrite Hs. intros Hlen [= Hh]. unfold digit_char in Hh. case_decide; [|lia].
    assert (d = 0%N) as Hd0 by lia. destruct (Hz Hd0) as [_ ->].
    rewrite Hd0 in Hlen. vm_compute in Hlen. lia.
Qed.

Lemma fmt_number radix limit n :
  (2 ≤ radix ≤ 16)%N → (n < radix ^ 10)%N → (n ≤ limit)%N →
  let s := fmt_digits 10 radix n [] in
  from_str_radix radix limit s = Some n ∧ s ≠ [] ∧ (1 < str_len s → head s ≠ Some 48%N) ∧
  ∀ x, x ∈ s → (48 ≤ x ≤ 57 ∨ 97 ≤ x ≤ 102)%N.
Proof.
  intros Hr Hn Hl. destruct (fmt_number_fuel 10 radix limit n) as (? & ? & ? & ? & _); [done..|].
  by split_and!.
Qed.

Lemma fmt_hex_u16_len n : (n < 65536)%N → str_len (fmt_hex_u16 n) ≤ 4.
Proof.
  intros Hn. unfold str_len.
  assert (∀ s, (∀ x, x ∈ s → (x < 128)%N) → sum_list (char_len <$> s) = length s) as Hascii.
  { intros s. induction s as [|x s IH]; intros Hs; [done|]. cbn. rewrite IH.
    - unfold char_len. rewrite decide_True; [done|apply Hs; left].
    - intros y Hy. apply Hs. by right. }
  rewrite Hascii.
  - pose proof (fmt_digits_length 16 ltac:(lia) 10 4 n []). cbn in *. lia.
  - intros x Hx. apply (fmt_number 16 65535 n) in Hx; lia.
Qed.

Lemma join_char_cons c p l : l ≠ [] → join_char c (p :: l) = p ++ c :: join_char c l.
Proof. by destruct l. Qed.

Lemma parse_ipv4_loop_octets octets l :
  Forall (λ x, x < 256)%N l → length octets + length l = 4 →
  parse_ipv4_loop octets (fmt_u8 <$> l) = Some (octets ++ l).
Proof.
  intros Hl. revert octets. induction Hl as [|x l Hx Hl IH]; intros octets Hlen; cbn [fmap list_fmap].
  - cbn in *. rewrite decide_True by lia. by rewrite app_nil_r.
  - cbn [parse_ipv4_loop]. cbn in Hlen. rewrite decide_False by lia.
    destruct (fmt_number 10 u32_max x) as (Hp & Hne & Hz & _); [lia|lia|unfold u32_max; lia|].
    fold (fmt_u8 x) in *. rewrite decide_False by naive_solver. rewrite Hp. cbn.
    rewrite decide_False by lia. rewrite IH by (rewrite length_app; cbn; lia).
    by rewrite <-app_assoc.
Qed.

Lemma parse_ipv6_loop_groups groups l :
  Forall (λ x, x < 65536)%N l → length groups + length l = 8 →
  parse_ipv6_loop groups None (fmt_hex_u16 <$> l) = Some (groups ++ l, None).
Proof.
  intros Hl. revert groups. induction Hl as [|x l Hx Hl IH]; intros groups Hlen; cbn [fmap list_fmap].
  - by rewrite app_nil_r.
  - cbn [parse_ipv6_loop]. cbn in Hlen.
    destruct (fmt_number 16 u16_max x) as (Hp & Hne & _ & _); [lia|lia|unfold u16_max; lia|].
    pose proof (fmt_hex_u16_len x Hx). fold (fmt_hex_u16 x) in *.
    rewrite decide_False by done. rewrite decide_False by lia. rewrite Hp. cbn.
    rewrite decide_False by (rewrite length_app; cbn; lia).
    rewrite IH by (rewrite length_app; cbn; lia). by rewrite <-app_assoc.
Qed.

Lemma group_bytes_pair hi lo :
  (hi < 256)%N → (lo < 256)%N → group_bytes (hi * 256 + lo) = [hi; lo].
Proof.
  intros Hh Hl. unfold group_bytes. rewrite N.shiftr_div_pow2.
  change 255%N with (N.ones 8). rewrite N.land_ones. change (2 ^ 8)%N with 256%N.
  f_equal; [|f_equal].
  - rewrite N.div_add_l by lia. rewrite N.div_small by done. lia.
  - rewrite N.add_comm, N.Div0.mod_add. by apply N.mod_small.
Qed.

(** The characters of the written address. *)
Lemma join_fmt_chars c (f : N → list N) l x :
  (∀ n y, n ∈ l → y ∈ f n → (48 ≤ y ≤ 57 ∨ 97 ≤ y ≤ 102)%N) →
  x ∈ join_char c (f <$> l) → x = c ∨ (48 ≤ x ≤ 57 ∨ 97 ≤ x ≤ 102)%N.
Proof.
  intros Hf [?|(p & (n & -> & Hn)%list_elem_of_fmap & Hx)]%elem_of_join; [by left|right; eauto].
Qed.

Lemma ipv4_roundtrip b :
  length b = 4 → Forall (λ x, x < 256)%N b →
  ip_address (server_name_to_string (Ip (V4 b))) = Ok (Ip (V4 b)).
Proof.
  intros Hlen Hb. cbn [server_name_to_string]. set (s := join_char 46 (fmt_u8 <$> b)).
  assert (∀ n y, n ∈ b → y ∈ fmt_u8 n → (48 ≤ y ≤ 57 ∨ 97 ≤ y ≤ 102)%N) as Hf.
  { intros n y Hn Hy. rewrite Forall_forall in Hb. specialize (Hb n Hn).
    by apply (fmt_number 10 255 n) in Hy; [|lia..]. }
  assert (∀ x, x ∈ s → x = 46%N ∨ (48 ≤ x ≤ 57 ∨ 97 ≤ x ≤ 102)%N) as Hs
    by (intros x; by apply join_fmt_chars).
  unfold ip_address. destruct (strip_prefix_char 91 s) as [r|] eqn:Hp.
  { apply strip_prefix_char_Some in Hp. specialize (Hs 91%N). rewrite Hp in Hs.
    destruct Hs; [left|lia|lia]. }
  cbn [mbind option_bind default]. rewrite (proj2 (contains_char_false 37 s)); cycle 1.
  { intros Hx. specialize (Hs _ Hx). lia. }
  assert (split_char 46 s = fmt_u8 <$> b) as Hsplit.
  { apply split_join; [by destruct b|]. apply Forall_fmap, Forall_forall. intros n Hn. cbn.
    intros Hy. specialize (Hf n _ Hn Hy). lia. }
  unfold parse_ip_literal. rewrite decide_False; cycle 1.
  { intros Hs0. rewrite Hs0 in Hsplit. cbn in Hsplit. by destruct b as [|? [|? ?]]. }
  rewrite (proj2 (contains_char_false 58 s)); cycle 1.
  { intros Hx. specialize (Hs _ Hx). lia. }
  unfold parse_ipv4. rewrite Hsplit, parse_ipv4_loop_octets by done. done.
Qed.

Lemma ipv6_roundtrip b :
  length b = 16 → Forall (λ x, x < 256)%N b →
  ip_address (server_name_to_string (Ip (V6 b))) = Ok (Ip (V6 b)).
Proof.
  intros Hlen Hb. cbn [server_name_to_string].
  set (groups := (λ i, nth (2 * i) b 0 * 256 + nth (2 * i + 1) b 0)%N <$> seq 0 8).
  replace ((λ i, fmt_hex_u16 (nth (2 * i) b 0 * 256 + nth (2 * i + 1) b 0)%N) <$> seq 0 8)
    with (fmt_hex_u16 <$> groups) by (unfold groups; by rewrite <-list_fmap_compose).
  assert (Forall (λ x, x < 65536)%N groups ∧ groups ≫= group_bytes = b) as [Hg Hbytes].
  { clear -Hlen Hb. do 16 (destruct b as [|? b]; [done|]). destruct b; [|done].
    repeat (apply Forall_cons in Hb as [? Hb]). unfold groups. cbn [seq fmap list_fmap nth Nat.mul Nat.add].
    split; [repeat (constructor; [lia|]); constructor|].
    cbn [mbind list_bind]. rewrite !group_bytes_pair by done. done. }
  assert (length groups = 8) as Hlg by done. clearbody groups.
  set (s := join_char 58 (fmt_hex_u16 <$> groups)).
  assert (∀ n y, n ∈ groups → y ∈ fmt_hex_u16 n → (48 ≤ y ≤ 57 ∨ 97 ≤ y ≤ 102)%N) as Hf.
  { intros n y Hn Hy. rewrite Forall_forall in Hg. specialize (Hg n Hn).
    by apply (fmt_number 16 65535 n) in Hy; [|lia..]. }
  assert (∀ x, x ∈ s → x = 58%N ∨ (48 ≤ x ≤ 57 ∨ 97 ≤ x ≤ 102)%N) as Hs
    by (intros x; by apply join_fmt_chars).
  assert (split_char 58 s = fmt_hex_u16 <$> groups) as Hsplit.
  { apply split_join; [by destruct groups|]. apply Forall_fmap, Forall_forall. intros n Hn. cbn.
    intros Hy. specialize (Hf n _ Hn Hy). lia. }
  assert (∃ x r, s = x :: r ∧ x ≠ 58%N ∧ 58%N ∈ s) as (x & r & Hsx & Hx & Hcolon).
  { destruct groups as [|g1 [|g2 groups]]; [done|done|]. unfold s. cbn [fmap list_fmap].
    rewrite join_char_cons by done.
    destruct (fmt_number 16 65535 g1) as (_ & Hne & _ & Hc);
      [lia|apply Forall_cons in Hg as [? _]; lia|apply Forall_cons in Hg as [? _]; lia|].
    fold (fmt_hex_u16 g1) in *. destruct (fmt_hex_u16 g1) as [|x r]; [done|].
    exists x. eexists. split; [done|]. split; [|set_solver].
    specialize (Hc x ltac:(left)). lia. }
  unfold ip_address. cbn [app strip_prefix_char]. rewrite decide_True by done.
  cbn [mbind option_bind]. rewrite (proj2 (strip_suffix_char_Some 93 _ s)) by done.
  change (default (91%N :: s ++ [93%N]) (Some s)) with s.
  rewrite (proj2 (contains_char_false 37 s)); cycle 1.
  { intros Hin. specialize (Hs _ Hin). lia. }
  unfold parse_ip_literal. rewrite decide_False by (by rewrite Hsx).
  rewrite (proj2 (contains_char_true 58 s)) by done. unfold parse_ipv6.
  rewrite decide_False; cycle 1.
  { intros [t Ht]. rewrite Hsx in Ht. by injection Ht as -> _. }
  rewrite decide_False by (rewrite Hsx; cbn; congruence).
  rewrite Hsplit, parse_ipv6_loop_groups by done. cbn [mbind option_bind app].
  unfold ipv6_octets. rewrite Hlg. cbn. by rewrite Hbytes.
Qed.

(** An address that is displayed (dotted decimal, or bracketed groups of
    hexadecimal digits) and parsed again is the same address, for both
    families and all octets, also when a host name would be accepted. *)
Theorem ip_display_parse_roundtrip `{IdentityLib} ip (Hwf : ip_wf ip) :
  ip_address (server_name_to_string (Ip ip)) = Ok (Ip ip) ∧
  server_name_parse (server_name_to_string (Ip ip)) = Ok (Ip ip).
Proof.
  assert (ip_address (server_name_to_string (Ip ip)) = Ok (Ip ip)) as Hip.
  { destruct ip, Hwf; [by apply ipv4_roundtrip|by apply ipv6_roundtrip]. }
  split; [done|]. unfold server_name_parse. by rewrite Hip.
Qed.

(** ** Concrete identities *)
#[export] Instance sample_identity_lib : IdentityLib := {|
  domain_to_ascii := λ s, if is_ascii s then Some (lower s) else None;
  utf8_string_any := λ a, if decide (any_tag a = Utf8String) then Some (any_value a) else None |}.

Lemma normalize_dns_name_correct_witness :
  let d := str "mail.example.com" in
  dns_ok d ∧ (42%N ∉ d) ∧ strip_dot d = d ∧
  (is_ascii (str "Mail.Example.COM.") = true → d = lower (strip_dot (str "Mail.Example.COM."))) ∧
  (lower d = d → normalize_dns_name d = Ok d).
Proof. apply (normalize_dns_name_correct (str "Mail.Example.COM.")). vm_compute. reflexivity. Defined.

Lemma ip_display_parse_roundtrip_witness :
  ip_address (server_name_to_string (Ip (V4 [192; 0; 2; 10]%N))) = Ok (Ip (V4 [192; 0; 2; 10]%N)) ∧
  server_name_parse (server_name_to_string (Ip (V4 [192; 0; 2; 10]%N)))
    = Ok (Ip (V4 [192; 0; 2; 10]%N)).
Proof.
  apply ip_display_parse_roundtrip. split; [reflexivity|]. repeat constructor.
Defined.

Example wit_wildcard :
  verify_dns_name (sample_cert "ca" "leaf" 2 [sample_ext OID_SUBJECT_ALT_NAME (2%N :: str "*.example.com")])
    (Dns (str "www.example.com")) = Ok tt ∧
  verify_dns_name (sample_cert "ca" "leaf" 2 [sample_ext OID_SUBJECT_ALT_NAME (2%N :: str "*.example.com")])
    (Dns (str "a.www.example.com")) = Err NoMatchingSan.
Proof. vm_compute. auto. Qed.

Example wit_mailbox :
  (m ← mailbox_parse (str "joe@Example.COM");
   verify_mailbox (sample_cert "ca" "leaf" 2 [sample_ext OID_SUBJECT_ALT_NAME (1%N :: str "joe@example.com")]) m)
  = Ok tt.
Proof. vm_compute. reflexivity. Qed.

(** Strings that are not IP literals parse as addresses: a single trailing
    colon counts as an elided run of zeros, also after one, and a number may
    have a plus sign. *)
Theorem malformed_ip_literals_accepted :
  ip_address (str "1:") = Ok (Ip (V6 ([0; 1] ++ replicate 14 0)%N)) ∧
  ip_address (str "1:2:3:4:5:6:7:") = ip_address (str "1:2:3:4:5:6:7::") ∧
  ip_address (str "::1:") = ip_address (str "::1") ∧
  ip_address (str "+1.2.3.4") = Ok (Ip (V4 [1; 2; 3; 4]%N)) ∧
  ip_address (str "+1::") = ip_address (str "1::").
Proof. vm_compute. auto. Qed.

(** With a dot at its end a literal is a DNS name; without it the same text is an
    address. *)
Example dotted_literal :
  server_name_from_str (str "192.0.2.10.") = Ok (Dns (str "192.0.2.10")) ∧
  server_name_from_str (server_name_to_string (Dns (str "192.0.2.10"))) = Ok (Ip (V4 [192; 0; 2; 10]%N)).
Proof. vm_compute. split; reflexivity. Qed.
Lemma mailbox_display_parse_roundtrip_witness :
  mailbox_parse (str "Jane@Example.COM.") =
    Ok {| local := str "Jane"; domain_a_label := str "example.com"; is_internationalized := false |} ∧
  mailbox_from_str (str "Jane@example.com") =
    Ok {| local := str "Jane"; domain_a_label := str "example.com"; is_internationalized := false |}.
Proof.
  split; [vm_compute; reflexivity|].
  apply (mailbox_display_parse_roundtrip (str "Jane@Example.COM.")
    {| local := str "Jane"; domain_a_label := str "example.com"; is_internationalized := false |});
    vm_compute; reflexivity.
Defined.
