(* ===== verification/Aia.v ===== *)
(** * Fetching of issuer certificates (pkix-aia/src/lib.rs)

    The interface [AiaFetcher] of the chain verifier, its error type with the
    labels of the serialised [io::ErrorKind], and [NoAiaFetcher].  A fetcher is
    a function of the URIs it is asked for; no URI is asked for twice in one
    verification ([Chain.build_with_aia]), so a fetcher with a cache or a
    network behind it is such a function for each verification. *)
From S2P Require Import Prelude X509.

(** [std::io::ErrorKind]: the variants of the table of labels, any other by
    the name its [Debug] implementation writes. *)
Module ErrorKind.
Inductive ErrorKind :=
| NotFound | PermissionDenied | ConnectionRefused | ConnectionReset | ConnectionAborted
| NotConnected | AddrInUse | AddrNotAvailable | BrokenPipe | AlreadyExists | WouldBlock
| InvalidInput | InvalidData | TimedOut | WriteZero | Interrupted | Unsupported
| UnexpectedEof | OutOfMemory | Other
| Unlisted (name : string).
#[global] Instance ErrorKind_eq_dec : EqDecision ErrorKind.
Proof. solve_decision. Defined.

(** [format!("{kind:?}")] *)
Definition kind_debug (k : ErrorKind) : string :=
  match k with
  | NotFound => "NotFound" | PermissionDenied => "PermissionDenied"
  | ConnectionRefused => "ConnectionRefused" | ConnectionReset => "ConnectionReset"
  | ConnectionAborted => "ConnectionAborted" | NotConnected => "NotConnected"
  | AddrInUse => "AddrInUse" | AddrNotAvailable => "AddrNotAvailable"
  | BrokenPipe => "BrokenPipe" | AlreadyExists => "AlreadyExists"
  | WouldBlock => "WouldBlock" | InvalidInput => "InvalidInput"
  | InvalidData => "InvalidData" | TimedOut => "TimedOut" | WriteZero => "WriteZero"
  | Interrupted => "Interrupted" | Unsupported => "Unsupported"
  | UnexpectedEof => "UnexpectedEof" | OutOfMemory => "OutOfMemory" | Other => "Other"
  | Unlisted name => name
  end.

(** [io_error_kind_serde::kind_for] *)
Definition kind_for (label : string) : ErrorKind :=
  if decide (label = "NotFound") then NotFound
  else if decide (label = "PermissionDenied") then PermissionDenied
  else if decide (label = "ConnectionRefused") then ConnectionRefused
  else if decide (label = "ConnectionReset") then ConnectionReset
  else if decide (label = "ConnectionAborted") then ConnectionAborted
  else if decide (label = "NotConnected") then NotConnected
  else if decide (label = "AddrInUse") then AddrInUse
  else if decide (label = "AddrNotAvailable") then AddrNotAvailable
  else if decide (label = "BrokenPipe") then BrokenPipe
  else if decide (label = "AlreadyExists") then AlreadyExists
  else if decide (label = "WouldBlock") then WouldBlock
  else if decide (label = "InvalidInput") then InvalidInput
  else if decide (label = "InvalidData") then InvalidData
  else if decide (label = "TimedOut") then TimedOut
  else if decide (label = "WriteZero") then WriteZero
  else if decide (label = "Interrupted") then Interrupted
  else if decide (label = "Unsupported") then Unsupported
  else if decide (label = "UnexpectedEof") then UnexpectedEof
  else if decide (label = "OutOfMemory") then OutOfMemory
  else Other.

(** [io_error_kind_serde::serialize] and [deserialize] on the string. *)
Definition kind_serialize (k : ErrorKind) : string := kind_debug k.
Definition kind_deserialize (s : string) : ErrorKind := kind_for s.

Lemma kind_roundtrip k :
  (∀ name, k ≠ Unlisted name) → kind_deserialize (kind_serialize k) = k.
Proof. destruct k; intros Hk; [done..|by destruct (Hk name)]. Qed.
End ErrorKind.

(** ** The interface *)
Inductive AiaError :=
| FetchingDisabled
| HttpStatus (code : N)
| ResponseTooLarge (limit actual : N)
| MalformedCertificate (msg : string)
| Timeout
| UriUnsupported (uri : bytes)
| IoFailure (kind : ErrorKind.ErrorKind) (message : string).
#[global] Instance AiaError_eq_dec : EqDecision AiaError.
Proof. solve_decision. Defined.

Abbreviation Uri := bytes.

(** [trait AiaFetcher] *)
Class AiaFetcher (A : Type) := {
  fetch : A → Uri → AiaError + bytes;
  batch_fetch : A → list Uri → list (AiaError + bytes) }.
#[global] Hint Mode AiaFetcher ! : typeclass_instances.

(** The default body of [batch_fetch]. *)
Definition default_batch_fetch {A} (fetch : A → Uri → AiaError + bytes) (a : A)
    (uris : list Uri) : list (AiaError + bytes) := fetch a <$> uris.

Inductive NoAiaFetcher := MkNoAiaFetcher.
Definition no_aia_fetch (_ : NoAiaFetcher) (_ : Uri) : AiaError + bytes := inl FetchingDisabled.
#[global] Instance NoAiaFetcher_impl : AiaFetcher NoAiaFetcher := {|
  fetch := no_aia_fetch;
  batch_fetch := default_batch_fetch no_aia_fetch |}.
