(* ===== verification/Chain.v ===== *)
(** * Chain verification (pkix-chain/src/lib.rs and aia_extract.rs)

    [verify_one] validates the supplied chain, or the one that the path builder
    finds among the supplied and the fetched certificates, and then checks the
    revocation of each of its certificates.  The entry points for a use add the
    match of an identity or the checks of a profile.  [build_with_aia] is a
    state machine: [aia_turn] is a turn of its loop, and its state carries the
    batches of URIs that were fetched. *)
From stdpp Require Import gmap.
From S2P Require Import Prelude X509 PathTypes Verifier Names CertChecks ValidatePath PathBuilder Revocation Identity Aia.

Definition AIA_MAX_DEPTH : nat := 5.
Definition OID_AUTHORITY_INFO_ACCESS : ObjectIdentifier := [1; 3; 6; 1; 5; 5; 7; 1; 1]%N.
Definition OID_AD_CA_ISSUERS : ObjectIdentifier := [1; 3; 6; 1; 5; 5; 7; 48; 2]%N.
Definition OID_OCSP_NO_CHECK : ObjectIdentifier := [1; 3; 6; 1; 5; 5; 7; 48; 1; 5]%N.
Definition ID_KP_TIME_STAMPING : ObjectIdentifier := [1; 3; 6; 1; 5; 5; 7; 3; 8]%N.

(** ** Errors *)
Inductive ChainError :=
| Path (e : PathTypes.Error)
| Revocation (e : RevocationError)
| Identity (e : IdentityError)
| ProfileViolation (reason : string)
| OcspDelegation (reason : string)
| Aia (e : AiaError)
| PathBuild (e : BuildError)
| AiaDepthExceeded.

(** [pkix_chain::Result<T>] *)
Abbreviation ChainResult := (result ChainError).

(** ** The AuthorityInfoAccess extension of [x509-cert] *)
Record AccessDescription := { access_method : ObjectIdentifier; access_location : GeneralName }.
Record AuthorityInfoAccessSyntax := { aia_descriptions : list AccessDescription }.

Class ChainAsn1 := {
  decode_certificate :: DecodeOwned Certificate;
  decode_authority_info_access :: DecodeOwned AuthorityInfoAccessSyntax }.

(** [lower_prefix] of [is_http_scheme] *)
Definition lower_prefix (uri p : bytes) : bool :=
  bool_decide (length p < length uri) && bool_decide (lower (take (length p) uri) = p).
Definition is_http_scheme (uri : Uri) : bool :=
  lower_prefix uri (str "http://") || lower_prefix uri (str "https://").

Definition find_extension_value (cert : Certificate) (oid : ObjectIdentifier) : option bytes :=
  extn_value <$> find_ext cert oid.

Definition ca_issuers_uri (ad : AccessDescription) : option Uri :=
  if decide (access_method ad ≠ OID_AD_CA_ISSUERS) then None
  else match access_location ad with
  | UniformResourceIdentifier uri => if is_http_scheme uri then Some uri else None
  | _ => None
  end.

Definition ca_issuers_http_uris `{ChainAsn1} (cert : Certificate) : list Uri :=
  match (v ← find_extension_value cert OID_AUTHORITY_INFO_ACCESS;
         match from_der v with inr aia => Some aia | inl _ => None end) with
  | Some aia => omap ca_issuers_uri (aia_descriptions aia)
  | None => []
  end.

(** ** Reassembly of a chain *)
Definition is_aia_recoverable (e : PathTypes.Error) : bool :=
  match e with ChainBroken _ | NoTrustedPath | SignatureInvalid _ => true | _ => false end.

Definition issuer_resolvable (cert : Certificate) (pool : CertPool) (anchors : list TrustAnchor) :
    bool :=
  let target := issuer (tbs_certificate cert) in
  existsb (λ c, names_match (subject (tbs_certificate c)) target) (certs pool) ||
  existsb (λ a, names_match (anchor_subject a) target) anchors.

(** [struct Verifier] *)
Record ChainVerifier (V R A : Type) := {
  cv_anchors : list TrustAnchor;
  sig_verifier : V;
  rev_checker : R;
  cv_policy : ValidationPolicy;
  cv_aia : A }.
Arguments Build_ChainVerifier {V R A}.
Arguments cv_anchors {V R A}.
Arguments sig_verifier {V R A}.
Arguments rev_checker {V R A}.
Arguments cv_policy {V R A}.
Arguments cv_aia {V R A}.

(** The variables of the loop of [build_with_aia], and the batches fetched. *)
Record AiaState := {
  as_pool : CertPool;
  tried_uris : gset Uri;
  last_aia_error : option AiaError;
  as_batches : list (list Uri) }.

Definition aia_start (supplied_chain : list Certificate) : AiaState := {|
  as_pool := cert_pool_from_iter supplied_chain; tried_uris := ∅;
  last_aia_error := None; as_batches := [] |}.

(** [if tried_uris.insert(uri.clone()) { new_uris.push(uri) }] *)
Definition try_uri (acc : gset Uri * list Uri) (uri : Uri) : gset Uri * list Uri :=
  if decide (uri ∈ acc.1) then acc else ({[uri]} ∪ acc.1, acc.2 ++ [uri]).

Section chain.
Context `{PathAsn1} `{KeyIdAsn1} `{ChainAsn1}.
(** [format!("{e}")] *)
Variable display : PathTypes.Error → string.

(** The URIs of the certificates of the pool without an issuer. *)
Definition orphan_uris (pool : CertPool) (anchors : list TrustAnchor) (tried : gset Uri) :
    gset Uri * list Uri :=
  foldl (λ acc cert, if issuer_resolvable cert pool anchors then acc
                     else foldl try_uri acc (ca_issuers_http_uris cert)) (tried, []) (certs pool).

(** One response of a batch; the flag is [added_any]. *)
Definition add_response (acc : CertPool * option AiaError * bool) (r : AiaError + bytes) :
    CertPool * option AiaError * bool :=
  let '(pool, last, added_any) := acc in
  match r with
  | inr der =>
      match from_der der with
      | inr cert => (cert_pool_add cert pool, last, true)
      | inl e => (pool, Some (Aia.MalformedCertificate e), added_any)
      end
  | inl e => (pool, Some e, added_any)
  end.

Section verifier.
Context {V R A : Type} `{SignatureVerifier V} `{RevocationChecker R} `{AiaFetcher A}.
Implicit Types (self : ChainVerifier V R A).

Definition run_revocation_checks self (chain : list Certificate) (validated : ValidatedPath) :
    ChainResult unit :=
  try_for_each (λ i cert,
    if decide (i + 1 < length chain) then
      issuer ← index chain (i + 1);
      map_err Revocation (check_revocation (rev_checker self) cert issuer)
    else
      anchor ← index (cv_anchors self) (anchor_index validated);
      map_err Revocation (check_revocation_against_anchor (rev_checker self) cert anchor)) chain.

(** [build_path(leaf, &pool, self.anchors)?] *)
Definition topology_only self (leaf : Certificate) (pool : CertPool) :
    ChainResult (list Certificate) :=
  r ← expect (build_path leaf pool (cv_anchors self));
  match r with inr chain => Ok chain | inl e => Err (PathBuild e) end.

(** [build_first_valid_path(leaf, &pool, ..)] *)
Definition first_valid self (leaf : Certificate) (pool : CertPool) :
    ChainResult (BuildError + list Certificate) :=
  expect (build_first_valid_path display leaf pool (cv_anchors self) (cv_policy self)
            (sig_verifier self)).

(** One turn of the loop: [None] when it goes on. *)
Definition aia_turn self (leaf : Certificate) (s : AiaState) :
    AiaState * option (ChainResult (list Certificate)) :=
  match first_valid self leaf (as_pool s) with
  | Panic => (s, Some Panic)
  | Err e => (s, Some (Err e))
  | Ok (inr built) => (s, Some (Ok built))
  | Ok (inl (NoValidPath _ _)) => (s, Some (topology_only self leaf (as_pool s)))
  | Ok (inl DepthExceeded) => (s, Some (Err (PathBuild DepthExceeded)))
  | Ok (inl BudgetExceeded) => (s, Some (Err (PathBuild BudgetExceeded)))
  | Ok (inl NoPathFound) =>
      let '(tried, new_uris) := orphan_uris (as_pool s) (cv_anchors self) (tried_uris s) in
      match new_uris with
      | [] => (s, Some (Err match last_aia_error s with
                            | Some e => Aia e
                            | None => PathBuild NoPathFound
                            end))
      | _ :: _ =>
          let results := batch_fetch (cv_aia self) new_uris in
          let '(pool, last, added_any) :=
            foldl add_response (as_pool s, last_aia_error s, false) (zip new_uris results).*2 in
          let s := {| as_pool := pool; tried_uris := tried; last_aia_error := last;
                      as_batches := as_batches s ++ [new_uris] |} in
          if negb added_any then (s, Some (Err (Aia (default FetchingDisabled last))))
          else (s, None)
      end
  end.

(** After the last turn. *)
Definition aia_last_shot self (leaf : Certificate) (pool : CertPool) :
    ChainResult (list Certificate) :=
  r ← first_valid self leaf pool;
  match r with
  | inr built => Ok built
  | inl (NoValidPath _ _) => topology_only self leaf pool
  | inl _ => Err AiaDepthExceeded
  end.

Fixpoint aia_loop self (iterations : nat) (leaf : Certificate) (s : AiaState) :
    AiaState * ChainResult (list Certificate) :=
  match iterations with
  | 0 => (s, aia_last_shot self leaf (as_pool s))
  | S iterations =>
      match aia_turn self leaf s with
      | (s, None) => aia_loop self iterations leaf s
      | (s, Some r) => (s, r)
      end
  end.

Definition build_with_aia self (supplied_chain : list Certificate) :
    AiaState * ChainResult (list Certificate) :=
  match supplied_chain with
  | [] => (aia_start [], Err (PathBuild NoPathFound))
  | leaf :: _ => aia_loop self AIA_MAX_DEPTH leaf (aia_start supplied_chain)
  end.

Definition verify_one self (chain : list Certificate) : ChainResult ValidatedPath :=
  match validate_path chain (cv_anchors self) (cv_policy self) (sig_verifier self) with
  | Ok validated => _ ← run_revocation_checks self chain validated; mret validated
  | Err e =>
      if is_aia_recoverable e then
        built ← snd (build_with_aia self chain);
        validated ← map_err Path
          (validate_path built (cv_anchors self) (cv_policy self) (sig_verifier self));
        _ ← run_revocation_checks self built validated;
        mret validated
      else Err (Path e)
  | Panic => Panic
  end.

Definition verify_batch self (chains : list (list Certificate)) :
    list (ChainResult ValidatedPath) := verify_one self <$> chains.
End verifier.

(** ** The entry points *)
Definition verifier_new {V R A} (anchors : list TrustAnchor) (v : V) (r : R)
    (policy : ValidationPolicy) (a : A) : ChainVerifier V R A :=
  {| cv_anchors := anchors; sig_verifier := v; rev_checker := r; cv_policy := policy;
     cv_aia := a |}.
Definition verifier_new_no_aia {V R} (anchors : list TrustAnchor) (v : V) (r : R)
    (policy : ValidationPolicy) : ChainVerifier V R NoAiaFetcher :=
  verifier_new anchors v r policy MkNoAiaFetcher.

Definition verify_chain {V R A} `{SignatureVerifier V} `{RevocationChecker R} `{AiaFetcher A}
    (chain : list Certificate) (anchors : list TrustAnchor) (policy : ValidationPolicy)
    (verifier : V) (revocation : R) (aia : A) : ChainResult ValidatedPath :=
  verify_one (verifier_new anchors verifier revocation policy aia) chain.

Section default_verifier.
Context `{RustCrypto}.
(** [DefaultVerifier], a unit struct whose schemes are the cargo features. *)
Variable default_verifier : DefaultVerifier.

Definition verify_chain_default {R} `{RevocationChecker R} (chain : list Certificate)
    (anchors : list TrustAnchor) (policy : ValidationPolicy) (revocation : R) :
    ChainResult ValidatedPath :=
  verify_chain chain anchors policy default_verifier revocation MkNoAiaFetcher.

Definition verify_responder_is_delegated_by (responder issuer_cert : Certificate) :
    ChainResult unit :=
  if negb (names_match (issuer (tbs_certificate responder)) (subject (tbs_certificate issuer_cert)))
  then Err (OcspDelegation "OCSP responder cert issuer DN does not match the supplied issuer's subject DN (RFC 6960 §4.2.2.2 delegation requirement)")
  else
    tbs_der ← lift_der (λ _, OcspDelegation "OCSP responder cert TBSCertificate re-encoding failed (cannot verify delegation signature)")
      (to_der (tbs_certificate responder));
    if verify_signature default_verifier (signature_algorithm responder)
         (subject_public_key_info (tbs_certificate issuer_cert)) tbs_der
         (raw_bytes (cert_signature responder))
    then Ok tt
    else Err (OcspDelegation "OCSP responder cert signature does not verify under the supplied issuer's public key (RFC 6960 §4.2.2.2: responder must be issued directly by the named CA — DN match without cryptographic binding is insufficient)").

Definition has_ocsp_no_check (cert : Certificate) : bool :=
  match extensions (tbs_certificate cert) with
  | Some exts => existsb (λ e, bool_decide (extn_id e = OID_OCSP_NO_CHECK)) exts
  | None => false
  end.

(** [LeafIdent], its [of] and its [matches] *)
Record LeafIdent := { li_issuer : Name; li_serial : SerialNumber }.
Definition leaf_ident_of (cert : Certificate) : LeafIdent :=
  {| li_issuer := issuer (tbs_certificate cert);
     li_serial := serial_number (tbs_certificate cert) |}.
Definition leaf_ident_matches (l : LeafIdent) (cert : Certificate) : bool :=
  bool_decide (li_serial l = serial_number (tbs_certificate cert)) &&
  bool_decide (li_issuer l = issuer (tbs_certificate cert)).

Record NoCheckShim (R : Type) := { shim_inner : R; leaf_id : option LeafIdent }.
Arguments Build_NoCheckShim {R}.
Arguments shim_inner {R}.
Arguments leaf_id {R}.

Definition shim_bypasses {R} (s : NoCheckShim R) (cert : Certificate) : bool :=
  match leaf_id s with Some leaf => leaf_ident_matches leaf cert | None => false end.

#[global] Instance NoCheckShim_impl {R} `{RevocationChecker R} :
    RevocationChecker (NoCheckShim R) := {|
  check_revocation s cert issuer_cert :=
    if shim_bypasses s cert then Ok tt else check_revocation (shim_inner s) cert issuer_cert;
  check_revocation_against_anchor s cert anchor :=
    if shim_bypasses s cert then Ok tt
    else check_revocation_against_anchor (shim_inner s) cert anchor |}.

Definition sole_eku : string :=
  "TSA ExtendedKeyUsage must contain only id-kp-timeStamping (RFC 3161 §2.3)".
Definition enforce_timestamping_eku_critical_and_sole (leaf : Certificate) : ChainResult unit :=
  exts ← ok_or (extensions (tbs_certificate leaf))
    (ProfileViolation "TSA certificate has no ExtendedKeyUsage extension");
  ext ← ok_or (snd <$> list_find (λ e, extn_id e = PathTypes.OID_EXTENDED_KEY_USAGE) exts)
    (ProfileViolation "TSA certificate has no ExtendedKeyUsage extension");
  if negb (critical ext)
  then Err (ProfileViolation "TSA ExtendedKeyUsage extension must be marked critical (RFC 3161 §2.3)")
  else
    eku ← lift_der (λ _, ProfileViolation "TSA ExtendedKeyUsage extension is malformed")
      (from_der (T:=ExtendedKeyUsage) (extn_value ext));
    match eku_oids eku with
    | [oid] => if decide (oid = ID_KP_TIME_STAMPING) then Ok tt else Err (ProfileViolation sole_eku)
    | _ => Err (ProfileViolation sole_eku)
    end.

Definition enforce_timestamping_ku_shape (leaf : Certificate) : ChainResult unit :=
  match extensions (tbs_certificate leaf) with
  | None => Ok tt
  | Some exts =>
      match snd <$> list_find (λ e, extn_id e = OID_KEY_USAGE) exts with
      | None => Ok tt
      | Some ext =>
          ku ← lift_der (λ _, ProfileViolation "TSA KeyUsage extension is malformed")
            (from_der (T:=KeyUsage) (extn_value ext));
          if key_encipherment ku || data_encipherment ku || key_agreement ku ||
             key_cert_sign ku || crl_sign ku || encipher_only ku || decipher_only ku
          then Err (ProfileViolation "TSA KeyUsage must contain only digitalSignature and/or nonRepudiation (RFC 3161 §2.1 #10; matches OpenSSL `-purpose timestampsign`)")
          else Ok tt
      end
  end.

(** ** The use cases *)
Section use_cases.
Context `{IdentityLib} {V P R A : Type} `{SignatureVerifier V} `{Profile P}
  `{RevocationChecker R} `{AiaFetcher A}.
Variables (chain : list Certificate) (anchors : list TrustAnchor).
Variables (profile : P) (now_unix : N) (verifier : V) (revocation : R) (aia : A).

(** [verify_chain] under [profile.policy(now_unix)] *)
Let run : ChainResult ValidatedPath :=
  verify_chain chain anchors (profile_policy profile now_unix) verifier revocation aia.

Definition verify_tls_server (name : ServerName) : ChainResult ValidatedPath :=
  validated ← run;
  leaf ← index chain 0;
  _ ← map_err Identity (verify_dns_name leaf name);
  mret validated.

Definition verify_tls_client_dns (identity : option ServerName) : ChainResult ValidatedPath :=
  validated ← run;
  _ ← match identity with
      | Some name => leaf ← index chain 0; map_err Identity (verify_dns_name leaf name)
      | None => Ok tt
      end;
  mret validated.

Definition verify_tls_client_mailbox (identity : option MailboxName) :
    ChainResult ValidatedPath :=
  validated ← run;
  _ ← match identity with
      | Some mailbox => leaf ← index chain 0; map_err Identity (verify_mailbox leaf mailbox)
      | None => Ok tt
      end;
  mret validated.

Definition verify_smime_signer (mailbox : MailboxName) : ChainResult ValidatedPath :=
  validated ← run;
  leaf ← index chain 0;
  _ ← map_err Identity (verify_mailbox leaf mailbox);
  mret validated.

Definition verify_smime_recipient (mailbox : MailboxName) : ChainResult ValidatedPath :=
  validated ← run;
  leaf ← index chain 0;
  _ ← map_err Identity (verify_mailbox leaf mailbox);
  mret validated.

Definition verify_code_signer : ChainResult ValidatedPath := run.

Definition verify_time_stamper : ChainResult ValidatedPath :=
  validated ← run;
  leaf ← index chain 0;
  _ ← enforce_timestamping_eku_critical_and_sole leaf;
  _ ← enforce_timestamping_ku_shape leaf;
  mret validated.

Definition verify_ocsp_responder (issuer_cert : Certificate) : ChainResult ValidatedPath :=
  match chain with
  | [] => Err (OcspDelegation "OCSP responder chain must contain at least the responder cert")
  | responder :: _ =>
      let bypass_revocation_on_leaf := has_ocsp_no_check responder in
      let shim := {| shim_inner := revocation;
                     leaf_id := if bypass_revocation_on_leaf
                                then Some (leaf_ident_of responder) else None |} in
      validated ← verify_chain chain anchors (profile_policy profile now_unix) verifier shim aia;
      _ ← verify_responder_is_delegated_by responder issuer_cert;
      mret validated
  end.
End use_cases.
End default_verifier.
End chain.
