(* ===== verification/ChainSpec.v ===== *)
(** * Chain verification: specification and proofs

    [aia_step] is the step relation of the loop that fetches issuers, and
    [aia_inv] its invariant; [decisive] is the chain whose validation and
    revocation decide.  The entry points are characterised against the specifications
    of path validation, revocation and identity. *)
From stdpp Require Import gmap relations.
From S2P Require Import Prelude X509 PathTypes Verifier Samples Names CertChecks ValidatePath PathBuilder PathBuilderSpec Revocation Identity IdentitySpec Aia Chain.

(** A checker that never panics. *)
Class RevocationTotal (R : Type) `{RevocationChecker R} := {
  check_total (r : R) cert issuer_cert : no_panic (check_revocation r cert issuer_cert);
  check_anchor_total (r : R) cert anchor : no_panic (check_revocation_against_anchor r cert anchor) }.

#[global] Instance NoRevocation_total : RevocationTotal NoRevocation.
Proof. by split. Qed.
#[global] Instance NoCheckShim_total {R} `{RevocationTotal R} : RevocationTotal (NoCheckShim R).
Proof.
  split; intros; cbn; (case_match; [done|]); [apply check_total|apply check_anchor_total].
Qed.

(** ** The URIs of the certificates *)
Lemma exists_elem_cons {A} (P : A → Prop) x l :
  (∃ y, y ∈ x :: l ∧ P y) ↔ P x ∨ ∃ y, y ∈ l ∧ P y.
Proof.
  split.
  - intros (y & [->|Hy]%elem_of_cons & HP); [by left|right; by exists y].
  - intros [HP|(y & Hy & HP)]; [exists x; split; [by left|done]|].
    exists y. split; [by right|done].
Qed.

Lemma foldl_try_uri acc l :
  let '(tried, new) := acc in
  ∃ k, foldl try_uri acc l = (tried ∪ list_to_set k, new ++ k) ∧ NoDup k ∧
    ∀ u, u ∈ k ↔ u ∈ l ∧ u ∉ tried.
Proof.
  destruct acc as [tried new]. revert tried new. induction l as [|u l IH]; intros tried new.
  { exists []. cbn. rewrite union_empty_r_L, app_nil_r. split_and!; [done|constructor|].
    set_solver. }
  cbn [foldl]. unfold try_uri at 2. cbn [fst snd]. case_decide as Hu.
  - destruct (IH tried new) as (k & Hk & Hnd & Hin). exists k. split_and!; [done..|].
    intros x. rewrite Hin, elem_of_cons. naive_solver.
  - destruct (IH ({[u]} ∪ tried) (new ++ [u])) as (k & -> & Hnd & Hin). exists (u :: k). split_and!.
    + rewrite <-app_assoc. f_equal. cbn. set_solver.
    + constructor; [|done]. rewrite Hin. set_solver.
    + intros x. rewrite elem_of_cons, Hin, elem_of_cons, elem_of_union, elem_of_singleton.
      destruct (decide (x = u)) as [->|]; [|naive_solver]. split; [by auto|by left].
Qed.

Section spec.
Context `{PathAsn1} `{KeyIdAsn1} `{ChainAsn1}.

Lemma ca_issuers_http_uris_http cert u : u ∈ ca_issuers_http_uris cert → is_http_scheme u = true.
Proof.
  unfold ca_issuers_http_uris. case_match; [|by intros ?%not_elem_of_nil].
  rewrite list_elem_of_omap. intros (ad & _ & Had). unfold ca_issuers_uri in Had.
  case_decide; [done|]. destruct (access_location ad); try done.
  case_match; [|done]. by injection Had as <-.
Qed.

(** New URIs: those of the orphans of the pool that were not tried, once each. *)
Lemma orphan_uris_spec pool anchors tried :
  ∃ k, orphan_uris pool anchors tried = (tried ∪ list_to_set k, k) ∧ NoDup k ∧
    ∀ u, u ∈ k ↔ (u ∉ tried) ∧ ∃ c, c ∈ certs pool ∧
      issuer_resolvable c pool anchors = false ∧ u ∈ ca_issuers_http_uris c.
Proof.
  unfold orphan_uris. cut (∀ l t0 new, ∃ k,
    foldl (λ acc cert, if issuer_resolvable cert pool anchors then acc
                       else foldl try_uri acc (ca_issuers_http_uris cert)) (t0, new) l =
      (t0 ∪ list_to_set k, new ++ k) ∧ NoDup k ∧
    ∀ u, u ∈ k ↔ (u ∉ t0) ∧ ∃ c, c ∈ l ∧
      issuer_resolvable c pool anchors = false ∧ u ∈ ca_issuers_http_uris c).
  { intros Hl. by destruct (Hl (certs pool) tried []) as (k & -> & ? & ?); exists k. }
  intros l. induction l as [|c l IH]; intros t0 new; cbn [foldl].
  { exists []. rewrite list_to_set_nil, union_empty_r_L, app_nil_r. split_and!; [done|constructor|].
    intros u. split; [by intros ?%not_elem_of_nil|]. by intros (_ & c & ?%not_elem_of_nil & _). }
  destruct (issuer_resolvable c pool anchors) eqn:Hc.
  - destruct (IH t0 new) as (k & -> & Hnd & Hin). exists k. split_and!; [done..|].
    intros u. rewrite Hin, exists_elem_cons, Hc. naive_solver.
  - destruct (foldl_try_uri (t0, new) (ca_issuers_http_uris c)) as (k1 & -> & Hnd1 & Hin1).
    destruct (IH (t0 ∪ list_to_set k1) (new ++ k1)) as (k & -> & Hnd & Hin).
    exists (k1 ++ k). rewrite list_to_set_app_L, union_assoc_L, app_assoc. split_and!; [done|..].
    + apply NoDup_app. split_and!; [done| |done]. intros u Hu Hk%Hin.
      destruct Hk as [Hk _]. apply Hk, elem_of_union_r, elem_of_list_to_set, Hu.
    + intros u. rewrite elem_of_app, Hin, Hin1, not_elem_of_union, elem_of_list_to_set, Hin1.
      rewrite exists_elem_cons, Hc. destruct (decide (u ∈ ca_issuers_http_uris c)); tauto.
Qed.

(** ** The state machine of the fetching loop *)

(** The certificate of a response. *)
Definition decoded (r : AiaError + bytes) : option Certificate :=
  match r with
  | inr der => match from_der der with inr cert => Some cert | inl _ => None end
  | inl _ => None
  end.

Lemma foldl_add_response pool last added l :
  ∃ last' added', foldl add_response (pool, last, added) l =
    ({| certs := certs pool ++ omap decoded l |}, last', added') ∧
    (added' = true ↔ added = true ∨ omap decoded l ≠ []) ∧
    (last' ≠ None → last ≠ None ∨ l ≠ []).
Proof.
  revert pool last added. induction l as [|r l IH]; intros pool last added.
  { exists last, added. cbn. rewrite app_nil_r. destruct pool. naive_solver. }
  cbn [foldl omap list_omap]. unfold decoded at 1 4.
  destruct r as [e|der]; cbn [add_response].
  - destruct (IH pool (Some e) added) as (l' & a' & -> & Ha & Hl). exists l', a'.
    split_and!; [done..|]. by right.
  - destruct (from_der der) as [e|cert]; cbn [add_response].
    + destruct (IH pool (Some (Aia.MalformedCertificate e)) added) as (l' & a' & -> & Ha & Hl).
      exists l', a'. split_and!; [done..|]. by right.
    + destruct (IH (cert_pool_add cert pool) last true) as (l' & a' & -> & Ha & Hl).
      exists l', a'. cbn. rewrite <-app_assoc. split_and!; [done| |by right].
      split; [by right|]. intros _. apply Ha. by left.
Qed.

Section machine.
Context {V R A : Type} `{SignatureVerifier V} `{RevocationChecker R} `{AiaFetcher A}.
Variable display : PathTypes.Error → string.
Variable self : ChainVerifier V R A.

Abbreviation validates chain :=
  (validate_path chain (cv_anchors self) (cv_policy self) (sig_verifier self)).

(** The chains the path builder finds in a pool. *)
Definition candidates (leaf : Certificate) (pool : CertPool) : list (list Certificate) :=
  paths (certs pool) (cv_anchors self) (N.to_nat DEFAULT_MAX_DEPTH) [leaf].

(** The chain that is settled on: a valid candidate, or a candidate when none
    is valid. *)
Definition settled (leaf : Certificate) (pool : CertPool) (built : list Certificate) : Prop :=
  built ∈ candidates leaf pool ∧
  ((∃ vp, validates built = Ok vp) ∨
   ∀ c, c ∈ candidates leaf pool → ∃ e, validates c = Err e).

(** A batch of new URIs was fetched and its certificates were added. *)
Definition batch_step (s s' : AiaState) : Prop :=
  ∃ k, k ≠ [] ∧ orphan_uris (as_pool s) (cv_anchors self) (tried_uris s) = (tried_uris s', k) ∧
    as_batches s' = as_batches s ++ [k] ∧
    certs (as_pool s') = certs (as_pool s) ++
      omap decoded (zip k (batch_fetch (cv_aia self) k)).*2.

(** How a turn ends: it goes on after a batch, or stops. *)
Definition turn_spec (leaf : Certificate) (s s' : AiaState)
    (o : option (ChainResult (list Certificate))) : Prop :=
  match o with
  | None => batch_step s s' ∧ candidates leaf (as_pool s) = []
  | Some (Ok built) => s' = s ∧ settled leaf (as_pool s) built
  | Some (Err (PathBuild NoPathFound)) | Some (Err (PathBuild DepthExceeded)) =>
      s' = s ∧ candidates leaf (as_pool s) = []
  | Some (Err (PathBuild BudgetExceeded)) => s' = s
  | Some (Err (Aia _)) => candidates leaf (as_pool s) = [] ∧
      ((s' = s ∧ last_aia_error s ≠ None) ∨ batch_step s s')
  | Some _ => False
  end.

Lemma first_valid_cases leaf pool :
  ∃ r, first_valid display self leaf pool = Ok r ∧
    match r with
    | inr chain => chain ∈ candidates leaf pool ∧ ∃ vp, validates chain = Ok vp
    | inl (NoValidPath n _) =>
        ∃ chain, topology_only self leaf pool = Ok chain ∧ settled leaf pool chain
    | inl BudgetExceeded => True
    | inl _ => candidates leaf pool = []
    end.
Proof.
  unfold first_valid, topology_only.
  destruct (build_first_valid_path_cases display leaf pool (cv_anchors self) (cv_policy self)
    (sig_verifier self)) as (r & -> & Hr). exists r. split; [done|].
  destruct r as [[| | |n err]|chain]; try done.
  destruct Hr as (Hall & chain & -> & Hc). exists chain. split; [done|]. split; [done|].
  right. by rewrite Forall_forall in Hall.
Qed.

Lemma aia_turn_spec leaf s :
  let '(s', o) := aia_turn display self leaf s in turn_spec leaf s s' o.
Proof.
  unfold aia_turn. destruct (first_valid_cases leaf (as_pool s)) as (r & -> & Hr).
  destruct r as [[| | |n err]|chain].
  - destruct (orphan_uris (as_pool s) (cv_anchors self) (tried_uris s)) as [tried [|u us]] eqn:Ho.
    { destruct (last_aia_error s) eqn:Hl; cbn; [|done]. split; [done|]. left. by rewrite Hl. }
    destruct (foldl_add_response (as_pool s) (last_aia_error s) false
      (zip (u :: us) (batch_fetch (cv_aia self) (u :: us))).*2) as (last' & added' & -> & Ha & Hl).
    destruct added'; cbn [negb turn_spec].
    + split; [|done]. by exists (u :: us).
    + split; [done|]. right. by exists (u :: us).
  - done.
  - done.
  - destruct Hr as (chain & -> & Hc). done.
  - destruct Hr as [Hc Hv]. split; [done|]. split; [done|by left].
Qed.

(** A certificate that was supplied, or decoded from a response to a batch. *)
Definition known (supplied : list Certificate) (batches : list (list Uri)) (c : Certificate) :
    Prop :=
  c ∈ supplied ∨
  ∃ b r, b ∈ batches ∧ r ∈ batch_fetch (cv_aia self) b ∧ decoded r = Some c.

Lemma known_app supplied batches b c :
  known supplied batches c → known supplied (batches ++ b) c.
Proof.
  intros [?|(b' & r & ? & ? & ?)]; [by left|right]. exists b', r.
  rewrite elem_of_app. split_and!; [by left|done..].
Qed.

(** The invariant of the loop: the pool is made of known certificates, and the
    batches are the non-empty sets of new URIs of its certificates. *)
Record aia_inv (supplied : list Certificate) (s : AiaState) : Prop := {
  inv_pool : ∀ c, c ∈ certs (as_pool s) → known supplied (as_batches s) c;
  inv_nonempty : [] ∉ as_batches s;
  inv_tried : ∀ u, u ∈ tried_uris s ↔ u ∈ mjoin (as_batches s);
  inv_once : NoDup (mjoin (as_batches s));
  inv_uris : ∀ u, u ∈ mjoin (as_batches s) → is_http_scheme u = true ∧
    ∃ c, known supplied (as_batches s) c ∧ u ∈ ca_issuers_http_uris c;
  inv_error : last_aia_error s ≠ None → as_batches s ≠ [] }.

Lemma aia_inv_start supplied : aia_inv supplied (aia_start supplied).
Proof.
  split; cbn; try done.
  - intros c Hc. by left.
  - apply not_elem_of_nil.
  - intros u. by rewrite elem_of_empty, elem_of_nil.
  - constructor.
  - by intros u ?%not_elem_of_nil.
Qed.

Lemma elem_of_zip_snd {B C} (k : list B) (l : list C) x : x ∈ (zip k l).*2 → x ∈ l.
Proof. intros ([y z] & -> & Hz)%list_elem_of_fmap. by apply elem_of_zip_r in Hz. Qed.

Lemma batch_step_inv supplied s s' :
  aia_inv supplied s → batch_step s s' →
  aia_inv supplied s' ∧ length (as_batches s') = S (length (as_batches s)).
Proof.
  intros [Hp Hne Ht Ho Hu He] (k & Hk & Hor & Hb & Hc).
  destruct (orphan_uris_spec (as_pool s) (cv_anchors self) (tried_uris s)) as (k' & Hor' & Hnd & Hin).
  rewrite Hor in Hor'. injection Hor' as Htr <-.
  assert (mjoin (as_batches s') = mjoin (as_batches s) ++ k) as Hj.
  { rewrite Hb, join_app. cbn. by rewrite app_nil_r. }
  split; [|rewrite Hb, length_app; cbn; lia]. split; rewrite ?Hj.
  - rewrite Hc. intros c [Hc'|Hc']%elem_of_app; [rewrite Hb; by apply known_app, Hp|].
    apply list_elem_of_omap in Hc' as (r & Hr%elem_of_zip_snd & Hd). right. exists k, r.
    rewrite Hb, elem_of_app. split_and!; [right; by left|done..].
  - rewrite Hb, elem_of_app, list_elem_of_singleton. naive_solver.
  - intros u. by rewrite Htr, elem_of_union, elem_of_list_to_set, Ht, elem_of_app.
  - apply NoDup_app. split_and!; [done| |done]. intros u Hx%Ht Hy%Hin. by destruct Hy.
  - intros u [Hx|Hx]%elem_of_app; rewrite Hb.
    + destruct (Hu u Hx) as (? & c & Hkn & ?). split; [done|]. exists c.
      split; [by apply known_app|done].
    + apply Hin in Hx as (_ & c & Hcp & _ & Hx). split; [by eapply ca_issuers_http_uris_http|].
      exists c. split; [by apply known_app, Hp|done].
  - intros _. rewrite Hb. by destruct (as_batches s).
Qed.

(** ** The loop *)
Definition aia_step (leaf : Certificate) (s s' : AiaState) : Prop :=
  aia_turn display self leaf s = (s', None).

Lemma aia_step_spec leaf s s' :
  aia_step leaf s s' → batch_step s s' ∧ candidates leaf (as_pool s) = [].
Proof. intros Hs. pose proof (aia_turn_spec leaf s) as Ht. by rewrite Hs in Ht. Qed.

Lemma aia_steps_inv leaf supplied n s s' :
  nsteps (aia_step leaf) n s s' → aia_inv supplied s →
  aia_inv supplied s' ∧ length (as_batches s') = n + length (as_batches s).
Proof.
  induction 1 as [s|n s s1 s' [Hb _]%aia_step_spec Hn IH]; [done|].
  intros Hinv. apply (batch_step_inv supplied) in Hb as [Hinv1 Hl]; [|done].
  destruct (IH Hinv1) as [? Hl']. split; [done|]. lia.
Qed.

(** The loop runs some turns that go on and one that stops it, or all of them
    and the last attempt. *)
Lemma aia_loop_steps leaf n s :
  let '(s', r) := aia_loop display self n leaf s in
  ∃ k s1, nsteps (aia_step leaf) k s s1 ∧
    ((k < n ∧ aia_turn display self leaf s1 = (s', Some r)) ∨
     (k = n ∧ s' = s1 ∧ r = aia_last_shot display self leaf (as_pool s1))).
Proof.
  revert s. induction n as [|n IH]; intros s; cbn [aia_loop].
  { exists 0, s. split; [constructor|]. by right. }
  destruct (aia_turn display self leaf s) as [s1 [r|]] eqn:Ht.
  { exists 0, s. split; [constructor|]. left. split; [lia|done]. }
  specialize (IH s1). destruct (aia_loop _ _ _ _ _) as [s' r].
  destruct IH as (k & s2 & Hk & Hend). exists (S k), s2. split; [by econstructor|].
  destruct Hend as [[? ?]|[-> ?]]; [left; split; [lia|done]|by right].
Qed.

(** What each outcome of the reassembly says. *)
Definition build_outcome (leaf : Certificate) (s : AiaState)
    (r : ChainResult (list Certificate)) : Prop :=
  match r with
  | Ok built => settled leaf (as_pool s) built
  | Err (PathBuild NoPathFound) | Err (PathBuild DepthExceeded) =>
      candidates leaf (as_pool s) = []
  | Err (PathBuild BudgetExceeded) => True
  | Err (Aia _) => as_batches s ≠ []
  | Err AiaDepthExceeded => length (as_batches s) = AIA_MAX_DEPTH
  | _ => False
  end.

Lemma aia_last_shot_outcome leaf s :
  length (as_batches s) = AIA_MAX_DEPTH →
  build_outcome leaf s (aia_last_shot display self leaf (as_pool s)).
Proof.
  intros Hl. unfold aia_last_shot.
  destruct (first_valid_cases leaf (as_pool s)) as (r & -> & Hr). cbn [mbind result_bind].
  destruct r as [[| | |n err]|chain]; [done..| |].
  - by destruct Hr as (chain & -> & Hc).
  - destruct Hr as [Hc Hv]. split; [done|by left].
Qed.

(** The outcome of the last turn, for the state it stops in. *)
Lemma turn_outcome leaf supplied s s' r :
  aia_inv supplied s → aia_turn display self leaf s = (s', Some r) →
  build_outcome leaf s' r ∧ (s' = s ∨ batch_step s s' ∧ candidates leaf (as_pool s) = []).
Proof.
  intros Hinv Ht. pose proof (aia_turn_spec leaf s) as Hs. rewrite Ht in Hs.
  destruct r as [built|e|]; [..|done].
  - destruct Hs as [-> Hs]. split; [done|by left].
  - destruct e as [| | | | |e|[| | |]|]; try done.
    + destruct Hs as [Hc [[-> He]|Hb]]; [split; [by apply (inv_error supplied)|by left]|].
      split; [|by right]. cbn. apply (batch_step_inv supplied) in Hb as [_ Hl]; [|done].
      by destruct (as_batches s').
    + destruct Hs as [-> Hs]. split; [done|by left].
    + destruct Hs as [-> Hs]. split; [done|by left].
    + split; [done|by left].
Qed.

Lemma build_with_aia_run supplied leaf rest :
  supplied = leaf :: rest →
  let '(s, r) := build_with_aia display self supplied in
  aia_inv supplied s ∧ length (as_batches s) ≤ AIA_MAX_DEPTH ∧ build_outcome leaf s r ∧
  (as_batches s ≠ [] → candidates leaf (cert_pool_from_iter supplied) = []).
Proof.
  intros ->. unfold build_with_aia.
  pose proof (aia_loop_steps leaf AIA_MAX_DEPTH (aia_start (leaf :: rest))) as Hl.
  destruct (aia_loop _ _ _ _ _) as [s r]. destruct Hl as (k & s1 & Hk & Hend).
  pose proof (aia_steps_inv leaf (leaf :: rest) k _ s1 Hk (aia_inv_start _)) as [Hinv Hlen].
  cbn [as_batches aia_start length] in Hlen. rewrite Nat.add_0_r in Hlen.
  assert (as_batches s1 ≠ [] → candidates leaf (cert_pool_from_iter (leaf :: rest)) = []) as Hno.
  { intros Hne. inversion Hk as [? E1 E2|n x y z Hst Hn]; subst.
    - done.
    - by apply aia_step_spec in Hst as [_ ?]. }
  destruct Hend as [[Hlt Ht]|(-> & -> & ->)].
  - destruct (turn_outcome leaf (leaf :: rest) s1 s r Hinv Ht) as [Ho [->|[Hb Hc]]].
    { split_and!; [done|lia|done..]. }
    apply (batch_step_inv (leaf :: rest)) in Hb as [Hinv' Hl']; [|done].
    split_and!; [done|lia|done|]. intros _.
    destruct (decide (as_batches s1 = [])) as [Hz|Hz]; [|by apply Hno].
    rewrite Hz in Hlen. cbn in Hlen. subst k. inversion Hk. by subst s1.
  - split_and!; [done|lia|by apply aia_last_shot_outcome|done].
Qed.

(** ** Revocation of a chain *)

(** The check of the certificate at an index, by the one above or the anchor. *)
Definition check_at (chain : list Certificate) (vp : ValidatedPath) (i : nat)
    (c : Certificate) : RevResult unit :=
  match chain !! S i with
  | Some above => check_revocation (rev_checker self) c above
  | None => a ← index (cv_anchors self) (anchor_index vp);
            check_revocation_against_anchor (rev_checker self) c a
  end.

Definition revocation_ok (chain : list Certificate) (vp : ValidatedPath) : Prop :=
  ∀ i c, chain !! i = Some c → check_at chain vp i c = Ok tt.

Section revocation.
Variables (chain : list Certificate) (vp : ValidatedPath).
Hypothesis Hvp : validates chain = Ok vp.

Lemma run_revocation_step i c :
  chain !! i = Some c →
  (if decide (i + 1 < length chain) then
     above ← index chain (i + 1);
     map_err Revocation (check_revocation (rev_checker self) c above)
   else
     anchor ← index (cv_anchors self) (anchor_index vp);
     map_err Revocation (check_revocation_against_anchor (rev_checker self) c anchor))
  = map_err Revocation (check_at chain vp i c).
Proof.
  intros Hi. apply validate_path_leaf in Hvp as (leaf & rest & a & _ & Ha & _).
  unfold check_at, index. rewrite Ha, Nat.add_1_r. case_decide as Hd.
  - apply lookup_lt_is_Some in Hd as [above ->]. done.
  - by rewrite lookup_ge_None_2 by lia.
Qed.

Lemma run_revocation_checks_Ok :
  run_revocation_checks self chain vp = Ok tt ↔ revocation_ok chain vp.
Proof.
  unfold run_revocation_checks, revocation_ok. rewrite try_for_each_Ok. split.
  - intros Hc i c Hi. specialize (Hc i c Hi). rewrite run_revocation_step in Hc by done.
    by apply map_err_Ok in Hc.
  - intros Hc i c Hi. rewrite run_revocation_step by done. by rewrite (Hc i c Hi).
Qed.

Lemma run_revocation_checks_Err e :
  run_revocation_checks self chain vp = Err e →
  ∃ i c re, chain !! i = Some c ∧ e = Revocation re ∧ check_at chain vp i c = Err re.
Proof.
  unfold run_revocation_checks. rewrite try_for_each_Err. intros (i & c & Hi & He & _).
  rewrite run_revocation_step in He by done. apply map_err_Err in He as (re & He & Hre).
  by exists i, c, re.
Qed.

Lemma run_revocation_checks_total `{!RevocationTotal R} :
  no_panic (run_revocation_checks self chain vp).
Proof.
  apply validate_path_leaf in Hvp as (leaf & rest & a & _ & Ha & _).
  unfold run_revocation_checks. apply no_panic_try_for_each. intros i c.
  case_decide as Hd.
  - rewrite Nat.add_1_r in Hd |- *. apply lookup_lt_is_Some in Hd as [above Hab].
    unfold index. rewrite Hab. apply no_panic_map_err, check_total.
  - unfold index. rewrite Ha. apply no_panic_map_err, check_anchor_total.
Qed.
End revocation.

(** ** verify_one *)

(** The chain whose validation and revocation are decisive: the supplied one,
    or, after an error that another chain may repair, the reassembled one. *)
Definition decisive (chain built : list Certificate) : Prop :=
  built = chain ∨
  (∃ e, validates chain = Err e ∧ is_aia_recoverable e = true) ∧
  (build_with_aia display self chain).2 = Ok built.

(** It starts with the supplied leaf and is made of known certificates. *)
Lemma decisive_members chain built vp :
  decisive chain built → validates built = Ok vp →
  head built = head chain ∧
  ∀ c, c ∈ built → known chain (as_batches (build_with_aia display self chain).1) c.
Proof.
  intros [->|[_ Hb]] Hv; [split; [done|intros; by left]|].
  destruct chain as [|leaf rest]; [done|].
  pose proof (build_with_aia_run (leaf :: rest) leaf rest eq_refl) as Hr.
  destruct (build_with_aia display self (leaf :: rest)) as [s r]. cbn [fst snd] in *. subst r.
  destruct Hr as (Hinv & _ & [Hs _] & _). apply paths_members in Hs as [Hh Hin].
  split; [done|]. intros c [->|Hc]%Hin; [left; by left|by apply (inv_pool (leaf :: rest))].
Qed.

Lemma verify_one_decisive chain vp :
  verify_one display self chain = Ok vp ↔
  ∃ built, decisive chain built ∧ validates built = Ok vp ∧ revocation_ok built vp.
Proof.
  unfold verify_one. destruct (validates chain) as [v|e|] eqn:Hv.
  - split.
    + intros Hr. apply bind_Ok in Hr as ([] & Hr & [= ->]). exists chain.
      split; [by left|]. split; [done|]. by apply (run_revocation_checks_Ok _ _ Hv).
    + intros (built & [->|[[e [He _]] _]] & Hb & Hr); [|congruence].
      rewrite Hv in Hb. injection Hb as ->. by rewrite (proj2 (run_revocation_checks_Ok _ _ Hv)).
  - destruct (is_aia_recoverable e) eqn:Hrec.
    + split.
      * intros Hr. apply bind_Ok in Hr as (built & Hb & Hr).
        apply bind_Ok in Hr as (v & Hvb%map_err_Ok & Hr).
        apply bind_Ok in Hr as ([] & Hr & [= ->]).
        exists built. split; [right; by split; [exists e|]|]. split; [done|].
        by apply (run_revocation_checks_Ok _ _ Hvb).
      * intros (built & [->|[_ Hb]] & Hvb & Hr); [congruence|].
        rewrite Hb. cbn [mbind result_bind]. rewrite Hvb. cbn.
        by rewrite (proj2 (run_revocation_checks_Ok _ _ Hvb)).
    + split; [done|]. intros (built & [->|[[e' [He Hrec']] _]] & Hvb & _); congruence.
  - by destruct (no_panic_validate_path chain (cv_anchors self) (cv_policy self) (sig_verifier self)).
Qed.

Lemma verify_one_leaf chain vp :
  verify_one display self chain = Ok vp →
  ∃ leaf rest, chain = leaf :: rest ∧
    leaf_subject vp = subject (tbs_certificate leaf) ∧
    leaf_issuer vp = issuer (tbs_certificate leaf) ∧
    leaf_serial vp = serial_number (tbs_certificate leaf) ∧
    leaf_spki vp = subject_public_key_info (tbs_certificate leaf).
Proof.
  intros (built & Hd & Hv & _)%verify_one_decisive.
  destruct (decisive_members chain built vp Hd Hv) as [Hh _].
  apply validate_path_leaf in Hv as (leaf & rest & a & -> & _ & Hl).
  destruct chain as [|c rest']; [done|]. injection Hh as ->. by exists c, rest'.
Qed.

Lemma verify_one_total `{!RevocationTotal R} chain : no_panic (verify_one display self chain).
Proof.
  unfold verify_one.
  pose proof (no_panic_validate_path chain (cv_anchors self) (cv_policy self) (sig_verifier self)).
  destruct (validates chain) as [v|e|] eqn:Hv; [|destruct (is_aia_recoverable e); [|done]|done].
  - apply no_panic_bind; [by apply run_revocation_checks_total|done].
  - destruct chain as [|leaf rest]; [done|].
    pose proof (build_with_aia_run (leaf :: rest) leaf rest eq_refl) as Hr.
    destruct (build_with_aia display self (leaf :: rest)) as [s r]. destruct Hr as (_ & _ & Hr & _).
    cbn [snd]. destruct r as [built| |]; [|done..]. cbn [mbind result_bind].
    destruct (validates built) as [vb| |] eqn:Hb; cbn [map_err mbind result_bind]; [|done|].
    + apply no_panic_bind; [by apply run_revocation_checks_total|done].
    + by destruct (no_panic_validate_path built (cv_anchors self) (cv_policy self) (sig_verifier self)).
Qed.

(** What each error of a verification says. *)
Definition verify_error (chain : list Certificate) (e : ChainError) : Prop :=
  let batches := as_batches (build_with_aia display self chain).1 in
  let repairable := ∃ e0, validates chain = Err e0 ∧ is_aia_recoverable e0 = true in
  match e with
  | Path pe =>
      (validates chain = Err pe ∧ is_aia_recoverable pe = false) ∨
      (repairable ∧ ∃ leaf pool built, head chain = Some leaf ∧
         (∀ c, c ∈ certs pool → known chain batches c) ∧
         built ∈ candidates leaf pool ∧ validates built = Err pe ∧
         ∀ c, c ∈ candidates leaf pool → ∃ pe', validates c = Err pe')
  | Revocation re =>
      ∃ built vp i c, decisive chain built ∧ validates built = Ok vp ∧ built !! i = Some c ∧
        check_at built vp i c = Err re
  | Aia _ => repairable ∧ batches ≠ []
  | AiaDepthExceeded => repairable ∧ length batches = AIA_MAX_DEPTH
  | PathBuild (NoValidPath _ _) => False
  | PathBuild _ => repairable
  | Identity _ | ProfileViolation _ | OcspDelegation _ => False
  end.

Lemma verify_one_Err chain e :
  verify_one display self chain = Err e → verify_error chain e.
Proof.
  unfold verify_one. destruct (validates chain) as [v|e0|] eqn:Hv; [| |done].
  { intros Hr. apply bind_Err in Hr as [Hr|(? & _ & ?)]; [|done].
    apply (run_revocation_checks_Err _ _ Hv) in Hr as (i & c & re & Hi & -> & Hc).
    exists chain, v, i, c. split_and!; [by left|done..]. }
  destruct (is_aia_recoverable e0) eqn:Hrec; [|intros [= <-]; by left].
  assert (∃ e0, validates chain = Err e0 ∧ is_aia_recoverable e0 = true) as Hrep by by exists e0.
  destruct chain as [|leaf rest]; [intros [= <-]; exact Hrep|].
  pose proof (build_with_aia_run (leaf :: rest) leaf rest eq_refl) as Hr. unfold verify_error.
  assert (∀ b, (build_with_aia display self (leaf :: rest)).2 = Ok b →
    decisive (leaf :: rest) b) as Hdec by (intros b Hb; by right).
  destruct (build_with_aia display self (leaf :: rest)) as [s r]. cbn [fst snd] in *.
  destruct Hr as (Hinv & _ & Ho & _). destruct r as [built|e1|]; [|intros [= ->]|done].
  - cbn [mbind result_bind]. destruct (validates built) as [vb|pe|] eqn:Hb; cbn; [| |done].
    + intros Hr. apply bind_Err in Hr as [Hr|(? & _ & ?)]; [|done].
      apply (run_revocation_checks_Err _ _ Hb) in Hr as (i & c & re & Hi & -> & Hc).
      exists built, vb, i, c. split_and!; [by apply Hdec|done..].
    + intros [= <-]. right. split; [done|]. destruct Ho as [Hc [[vp Hvp]|Hall]]; [congruence|].
      exists leaf, (as_pool s), built. split_and!; [done| |done..].
      by apply (inv_pool (leaf :: rest)).
  - destruct e as [| | | | |e|[| | |]|]; done.
Qed.

(** ** Properties *)

(** C9: a chain is accepted exactly when the decisive chain, the supplied one
    or the one reassembled after an error that another chain may repair,
    validates and the revocation check of each of its certificates by the one
    above it (of the last one by the anchor) answers that it is not revoked.
    The decisive chain starts with the supplied leaf, whose data the result
    holds, and consists of supplied certificates and of certificates decoded
    from responses to the fetched batches. *)
Theorem verify_one_correct chain vp :
  verify_one display self chain = Ok vp ↔
  ∃ built leaf, decisive chain built ∧ validates built = Ok vp ∧ revocation_ok built vp ∧
    head chain = Some leaf ∧ head built = Some leaf ∧
    leaf_subject vp = subject (tbs_certificate leaf) ∧
    leaf_issuer vp = issuer (tbs_certificate leaf) ∧
    leaf_serial vp = serial_number (tbs_certificate leaf) ∧
    ∀ c, c ∈ built → known chain (as_batches (build_with_aia display self chain).1) c.
Proof.
  split.
  - intros Hv. pose proof (verify_one_leaf chain vp Hv) as (leaf & rest & -> & Hs & Hi & Hn & _).
    apply verify_one_decisive in Hv as (built & Hd & Hv & Hr).
    destruct (decisive_members _ built vp Hd Hv) as [Hh Hk]. by exists built, leaf.
  - intros (built & leaf & Hd & Hv & Hr & _). apply verify_one_decisive. by exists built.
Qed.

(** C10: the reassembly fetches at most five batches, each a non-empty set of
    http URIs named by known certificates, no URI twice, and none at all when
    the supplied certificates already contain a candidate chain.  The chain it
    returns is a candidate of the final pool that validates, or one of a pool
    without a valid candidate; each error says what failed, the depth error
    only after five batches. *)
Theorem build_with_aia_correct leaf rest :
  let '(s, r) := build_with_aia display self (leaf :: rest) in
  aia_inv (leaf :: rest) s ∧ length (as_batches s) ≤ AIA_MAX_DEPTH ∧
  (candidates leaf (cert_pool_from_iter (leaf :: rest)) ≠ [] → as_batches s = []) ∧
  build_outcome leaf s r.
Proof.
  pose proof (build_with_aia_run (leaf :: rest) leaf rest eq_refl) as Hr.
  destruct (build_with_aia display self (leaf :: rest)) as [s r].
  destruct Hr as (Hinv & Hl & Ho & Hb). split_and!; [done|done| |done].
  intros Hc. destruct (as_batches s); [done|]. by destruct Hc; apply Hb.
Qed.

(** C11: a verification never panics when the checker does not, and each error
    says what failed: a path error is that of the supplied chain when it cannot
    be repaired, or else that of a candidate of a pool in which no candidate
    validates; a revocation error is the answer for a certificate of the
    decisive chain; a fetch error comes after a batch; the errors of the path
    builder for validated candidates and those of identities never occur. *)
Theorem verify_one_error `{!RevocationTotal R} chain :
  match verify_one display self chain with
  | Ok _ => True
  | Err e => verify_error chain e
  | Panic => False
  end.
Proof.
  pose proof (verify_one_total chain) as Ht. pose proof (verify_one_Err chain) as He.
  destruct (verify_one display self chain); [done|by apply He|done].
Qed.
End machine.

(** ** The entry points for a use *)

(** An alternative name of the certificate has the property. *)
Definition named (cert : Certificate) (covers : GeneralName → Prop) : Prop :=
  ∃ ext san e, find_ext cert OID_SUBJECT_ALT_NAME = Some ext ∧
    from_der (extn_value ext) = inr san ∧ e ∈ san_names san ∧ covers e.

Lemma san_outcome_Ok cert covers r : san_outcome cert covers r → r = Ok tt ↔ named cert covers.
Proof.
  unfold san_outcome, named. destruct (find_ext cert _) as [ext|].
  - destruct (from_der (extn_value ext)) as [d|san] eqn:Hd.
    + intros ->. split; [done|]. intros (x & y & e & [= <-] & ? & _). congruence.
    + intros [[(e & He & Hc) ->]|[Hn ->]].
      * split; [|done]. intros _. by exists ext, san, e.
      * split; [done|]. intros (x & y & e & [= <-] & Hy & He & Hc).
        rewrite Hd in Hy. injection Hy as <-. by destruct (Hn e He).
  - intros ->. split; [done|]. by intros (x & y & e & ? & _).
Qed.

Lemma verify_dns_name_Ok `{IdentityLib} cert name :
  verify_dns_name cert name = Ok tt ↔ named cert (server_covers name).
Proof. apply san_outcome_Ok, verify_san_spec, san_entry_matches_server_spec. Qed.

Lemma verify_mailbox_Ok `{IdentityLib} cert mailbox :
  verify_mailbox cert mailbox = Ok tt ↔ named cert (mailbox_covers mailbox).
Proof. apply san_outcome_Ok, verify_san_spec. intros e. apply san_entry_matches_mailbox_spec. Qed.

(** The certificate may sign time stamps only. *)
Definition sole_timestamping (cert : Certificate) : Prop :=
  ∃ ext eku, find_ext cert PathTypes.OID_EXTENDED_KEY_USAGE = Some ext ∧ critical ext = true ∧
    from_der (extn_value ext) = inr eku ∧ eku_oids eku = [ID_KP_TIME_STAMPING].

(** Its key is for signatures only. *)
Definition signing_only (ku : KeyUsage) : Prop :=
  key_encipherment ku = false ∧ data_encipherment ku = false ∧ key_agreement ku = false ∧
  key_cert_sign ku = false ∧ crl_sign ku = false ∧ encipher_only ku = false ∧
  decipher_only ku = false.

Definition signing_only_cert (cert : Certificate) : Prop :=
  ∀ ext, find_ext cert OID_KEY_USAGE = Some ext →
    ∃ ku, from_der (extn_value ext) = inr ku ∧ signing_only ku.

Lemma enforce_eku_Ok leaf :
  enforce_timestamping_eku_critical_and_sole leaf = Ok tt ↔ sole_timestamping leaf.
Proof.
  unfold enforce_timestamping_eku_critical_and_sole, sole_timestamping. rewrite find_ext_bind.
  destruct (extensions _) as [exts|]; cbn [ok_or mbind result_bind option_bind];
    [|split; [done|by intros (? & ? & ? & _)]].
  destruct (snd <$> _) as [ext|]; cbn [ok_or mbind result_bind];
    [|split; [done|by intros (? & ? & ? & _)]].
  destruct (critical ext) eqn:Hc; cbn [negb];
    [|split; [done|intros (? & ? & [= <-] & ? & _); congruence]].
  destruct (from_der (extn_value ext)) as [d|eku] eqn:Hd; cbn [lift_der mbind result_bind];
    [split; [done|intros (? & ? & [= <-] & _ & ? & _); congruence]|].
  split.
  - intros He. exists ext, eku. split_and!; [done..|].
    destruct (eku_oids eku) as [|o [|]]; [done| |done]. case_decide; [by subst o|done].
  - intros (x & y & [= <-] & _ & Hy & He). rewrite Hd in Hy. injection Hy as <-.
    rewrite He. done.
Qed.

Lemma enforce_ku_Ok leaf : enforce_timestamping_ku_shape leaf = Ok tt ↔ signing_only_cert leaf.
Proof.
  unfold enforce_timestamping_ku_shape, signing_only_cert, signing_only. rewrite find_ext_bind.
  destruct (extensions _) as [exts|]; cbn [mbind option_bind]; [|done].
  destruct (snd <$> _) as [ext|]; [|done].
  destruct (from_der (extn_value ext)) as [d|ku] eqn:Hd; cbn [lift_der mbind result_bind].
  - split; [done|]. intros Hx. destruct (Hx ext eq_refl) as (ku & ? & _). congruence.
  - split.
    + intros He x [= <-]. exists ku. split; [done|]. case_match eqn:Hb; [done|].
      by rewrite !orb_false_iff in Hb; intuition.
    + intros Hx. destruct (Hx ext eq_refl) as (k & Hk & Hall). rewrite Hd in Hk.
      injection Hk as <-. destruct Hall as (-> & -> & -> & -> & -> & -> & ->). done.
Qed.

Section use_cases.
Context `{RustCrypto} `{IdentityLib} {V P R A : Type} `{SignatureVerifier V} `{Profile P}
  `{RevocationChecker R} `{AiaFetcher A}.
Variables (display : PathTypes.Error → string) (chain : list Certificate).
Variables (anchors : list TrustAnchor) (profile : P) (now : N) (verifier : V) (revocation : R).
Variables (aia : A).

(** The verification under the policy of the profile. *)
Abbreviation self := (verifier_new anchors verifier revocation (profile_policy profile now) aia).
Abbreviation run := (verify_chain display chain anchors (profile_policy profile now) verifier
  revocation aia).

Lemma then_leaf_Ok (k : Certificate → ChainResult unit) vp :
  (v ← run; leaf ← index chain 0; _ ← k leaf; mret v) = Ok vp ↔
  run = Ok vp ∧ ∃ leaf, head chain = Some leaf ∧ k leaf = Ok tt.
Proof.
  rewrite bind_Ok. split.
  - intros (v & Hv & Hk). apply bind_Ok in Hk as (leaf & Hl%index_Ok & Hk).
    apply bind_Ok in Hk as ([] & Hk & [= ->]). split; [done|]. exists leaf.
    by destruct chain.
  - intros (Hv & leaf & Hl & Hk). exists vp. split; [done|].
    destruct chain; [done|]. injection Hl as ->. cbn. by rewrite Hk.
Qed.

Lemma then_optional_Ok {B} (o : option B) (k : B → Certificate → ChainResult unit) vp :
  (v ← run;
   _ ← match o with Some x => leaf ← index chain 0; k x leaf | None => Ok tt end; mret v) = Ok vp ↔
  run = Ok vp ∧ ∀ x, o = Some x → ∃ leaf, head chain = Some leaf ∧ k x leaf = Ok tt.
Proof.
  rewrite bind_Ok. destruct o as [x|]; split.
  - intros (v & Hv & Hk). apply bind_Ok in Hk as ([] & Hk & [= ->]).
    apply bind_Ok in Hk as (leaf & Hl%index_Ok & Hk). split; [done|].
    intros y [= <-]. exists leaf. by destruct chain.
  - intros (Hv & Hx). destruct (Hx x eq_refl) as (leaf & Hl & Hk). exists vp.
    split; [done|]. destruct chain; [done|]. injection Hl as ->. cbn. by rewrite Hk.
  - intros (v & Hv & Hk). apply bind_Ok in Hk as (? & _ & [= ->]). by split.
  - intros (Hv & _). exists vp. by split.
Qed.

(** *** Responders *)

(** In a valid chain the shim exempts the leaf only, and only if it is told to. *)
Lemma shim_check_at built vp responder i c :
  validate_path built anchors (profile_policy profile now) verifier = Ok vp →
  head built = Some responder → built !! i = Some c →
  let shim := {| shim_inner := revocation;
                 leaf_id := if has_ocsp_no_check responder
                            then Some (leaf_ident_of responder) else None |} in
  check_at (verifier_new anchors verifier shim (profile_policy profile now) aia) built vp i c =
  if has_ocsp_no_check responder && bool_decide (i = 0) then Ok tt else check_at self built vp i c.
Proof.
  intros Hv Hh Hi shim.
  assert (shim_bypasses shim c = has_ocsp_no_check responder && bool_decide (i = 0)) as Hb.
  { unfold shim_bypasses, shim, leaf_id. destruct (has_ocsp_no_check responder); [|done].
    cbn [andb]. unfold leaf_ident_matches, leaf_ident_of. cbn [li_issuer li_serial].
    destruct built as [|b built]; [done|]. injection Hh as ->.
    apply validate_path_Ok in Hv as [[_ _ Hd _ _] _]. destruct i as [|i].
    - injection Hi as ->. by rewrite !bool_decide_eq_true_2.
    - rewrite (bool_decide_eq_false_2 (S i = 0)) by lia.
      apply andb_false_iff. destruct (decide (serial_number (tbs_certificate responder) =
        serial_number (tbs_certificate c))) as [Hs|Hs]; [right|left]; apply bool_decide_eq_false;
        [|done]. intros Hiss. apply (Hd 0 (S i) responder c); [lia|done|done|].
      split; [|done]. rewrite Hiss. apply (reflexivity (R:=name_equiv)). }
  apply validate_path_leaf in Hv as (leaf & rest & a & _ & Ha & _).
  unfold check_at, index. cbn [cv_anchors rev_checker verifier_new] in *. rewrite Ha.
  destruct (built !! S i); cbn [mbind result_bind check_revocation
    check_revocation_against_anchor NoCheckShim_impl]; by rewrite Hb.
Qed.

(** The certificate is issued by the key and name of the authority. *)
Definition delegated_by (default_verifier : DefaultVerifier) (responder issuer_cert : Certificate) :
    Prop :=
  names_match (issuer (tbs_certificate responder)) (subject (tbs_certificate issuer_cert)) = true ∧
  ∃ tbs, to_der (tbs_certificate responder) = inr tbs ∧
    verify_signature default_verifier (signature_algorithm responder)
      (subject_public_key_info (tbs_certificate issuer_cert)) tbs
      (raw_bytes (cert_signature responder)) = true.

Lemma verify_responder_is_delegated_by_Ok dv responder issuer_cert :
  verify_responder_is_delegated_by dv responder issuer_cert = Ok tt ↔
  delegated_by dv responder issuer_cert.
Proof.
  unfold verify_responder_is_delegated_by, delegated_by. case_match eqn:Hn.
  - split; [done|]. intros [Hm _]. by rewrite Hm in Hn.
  - apply negb_false_iff in Hn. rewrite bind_Ok. setoid_rewrite lift_der_Ok. split.
    + intros (tbs & Ht & Hs). split; [done|]. exists tbs. split; [done|]. by case_match.
    + intros [_ (tbs & Ht & Hs)]. exists tbs. split; [done|]. by rewrite Hs.
Qed.

(** The entry points for servers, clients and mail accept exactly when the
    chain is accepted under the policy of the profile and an alternative name
    of the supplied leaf covers the identity asked for; an error of the chain
    is returned whatever the names of the leaf are. *)
Theorem identity_use_cases_correct vp :
  (∀ name, verify_tls_server display chain anchors profile now verifier revocation aia name = Ok vp ↔
     run = Ok vp ∧ ∃ leaf, head chain = Some leaf ∧ named leaf (server_covers name)) ∧
  (∀ o, verify_tls_client_dns display chain anchors profile now verifier revocation aia o = Ok vp ↔
     run = Ok vp ∧ ∀ name, o = Some name →
       ∃ leaf, head chain = Some leaf ∧ named leaf (server_covers name)) ∧
  (∀ o, verify_tls_client_mailbox display chain anchors profile now verifier revocation aia o = Ok vp ↔
     run = Ok vp ∧ ∀ mailbox, o = Some mailbox →
       ∃ leaf, head chain = Some leaf ∧ named leaf (mailbox_covers mailbox)) ∧
  (∀ mailbox,
     verify_smime_signer display chain anchors profile now verifier revocation aia mailbox = Ok vp ↔
     run = Ok vp ∧ ∃ leaf, head chain = Some leaf ∧ named leaf (mailbox_covers mailbox)) ∧
  (∀ e, run = Err e → ∀ name mailbox,
     verify_tls_server display chain anchors profile now verifier revocation aia name = Err e ∧
     verify_smime_signer display chain anchors profile now verifier revocation aia mailbox = Err e).
Proof.
  unfold verify_tls_server, verify_tls_client_dns, verify_tls_client_mailbox, verify_smime_signer.
  setoid_rewrite then_leaf_Ok.
  setoid_rewrite (then_optional_Ok (B:=ServerName) _
    (λ name leaf, map_err Identity (verify_dns_name leaf name))).
  setoid_rewrite (then_optional_Ok (B:=MailboxName) _
    (λ mailbox leaf, map_err Identity (verify_mailbox leaf mailbox))).
  setoid_rewrite map_err_Ok. setoid_rewrite verify_dns_name_Ok. setoid_rewrite verify_mailbox_Ok.
  split_and!; [done..|]. intros e -> name mailbox. done.
Qed.

(** A time stamper is accepted exactly when its chain is, its extended key
    usage is critical and time stamping only, and its key usage, if present,
    has no bit but those for signatures. *)
Theorem verify_time_stamper_correct vp :
  verify_time_stamper display chain anchors profile now verifier revocation aia = Ok vp ↔
  run = Ok vp ∧ ∃ leaf, head chain = Some leaf ∧ sole_timestamping leaf ∧ signing_only_cert leaf.
Proof.
  assert (verify_time_stamper display chain anchors profile now verifier revocation aia =
    (v ← run; leaf ← index chain 0;
     _ ← (_ ← enforce_timestamping_eku_critical_and_sole leaf; enforce_timestamping_ku_shape leaf);
     mret v)) as ->.
  { unfold verify_time_stamper. destruct run as [v| |]; [|done..]. cbn.
    destruct (index chain 0) as [leaf| |]; [|done..]. cbn.
    by destruct (enforce_timestamping_eku_critical_and_sole leaf). }
  rewrite then_leaf_Ok. setoid_rewrite bind_Ok. setoid_rewrite enforce_ku_Ok.
  apply and_iff_compat_l, exist_proper. intros leaf. apply and_iff_compat_l.
  rewrite <-enforce_eku_Ok. split; [by intros ([] & ? & ?)|intros [? ?]; by exists tt].
Qed.

(** A responder is accepted exactly when its chain validates, the authority
    named by the caller issued it with its name and its key, and every
    certificate of the chain passes the revocation check, except the responder
    itself, and only the responder, if it has the no-check extension. *)
Theorem verify_ocsp_responder_correct dv issuer_cert vp :
  verify_ocsp_responder display dv chain anchors profile now verifier revocation aia issuer_cert
    = Ok vp ↔
  ∃ responder built, head chain = Some responder ∧ decisive display self chain built ∧
    validate_path built anchors (profile_policy profile now) verifier = Ok vp ∧
    (∀ i c, built !! i = Some c →
       (i = 0 ∧ has_ocsp_no_check responder = true) ∨ check_at self built vp i c = Ok tt) ∧
    delegated_by dv responder issuer_cert.
Proof.
  unfold verify_ocsp_responder.
  destruct chain as [|responder rest] eqn:Hc; [split; [done|by intros (? & ? & ? & _)]|].
  cbv zeta. set (shim := {| shim_inner := _ |}).
  assert (∀ built, decisive display self chain built →
    validate_path built anchors (profile_policy profile now) verifier = Ok vp →
    revocation_ok (verifier_new anchors verifier shim (profile_policy profile now) aia) built vp ↔
    ∀ i c, built !! i = Some c →
       (i = 0 ∧ has_ocsp_no_check responder = true) ∨ check_at self built vp i c = Ok tt) as Hrev.
  { intros built Hd Hv. unfold revocation_ok.
    destruct (decisive_members display self chain built vp Hd Hv) as [Hh _].
    rewrite Hc in Hh. cbn in Hh.
    assert (∀ i c, built !! i = Some c →
      (check_at (verifier_new anchors verifier shim (profile_policy profile now) aia) built vp i c
         = Ok tt ↔
       (i = 0 ∧ has_ocsp_no_check responder = true) ∨ check_at self built vp i c = Ok tt)) as Hx.
    { intros i c Hi. unfold shim. rewrite (shim_check_at built vp responder) by done.
      destruct (has_ocsp_no_check responder); cbn [andb]; [case_bool_decide|]; naive_solver. }
    split; intros Hall i c Hi; apply Hx; auto. }
  rewrite <-Hc. rewrite bind_Ok. unfold verify_chain. split.
  - intros (v & Hv & Hk). apply bind_Ok in Hk as ([] & Hk & [= ->]).
    apply verify_one_decisive in Hv as (built & Hd & Hv & Hr). exists responder, built.
    split_and!; [by rewrite Hc|done|done|by apply Hrev|].
    by apply verify_responder_is_delegated_by_Ok.
  - intros (r & built & Hr & Hd & Hv & Hall & Hdel). rewrite Hc in Hr. injection Hr as <-.
    exists vp. split; [apply verify_one_decisive; exists built; split_and!; [done|done|]|].
    + by apply Hrev.
    + by rewrite (proj2 (verify_responder_is_delegated_by_Ok dv responder issuer_cert)).
Qed.
End use_cases.
End spec.

(** ** Samples: a fetcher that serves one authority *)
Module Sample.
Definition ca1 : Certificate := sample_ca "root" "ca1" 7 [].
(** An authority of the same name with another key. *)
Definition other_ca1 : Certificate := {|
  tbs_certificate := {|
    serial_number := [8]%N; tbs_signature := sample_alg; issuer := sample_name "root";
    not_before := {| to_unix_secs := 100 |}; not_after := {| to_unix_secs := 200 |};
    subject := sample_name "ca1"; subject_public_key_info := sample_spki (str "other");
    extensions := Some sample_ca_exts |};
  signature_algorithm := sample_alg;
  cert_signature := {| unused_bits := 0; raw_bytes := str "root" |} |}.

Definition uri : Uri := str "http://ca.example/ca1.der".
Definition leaf : Certificate := sample_cert "ca1" "leaf" 2
  [ {| extn_id := OID_AUTHORITY_INFO_ACCESS; critical := false; extn_value := uri |} ].

#[global] Instance chain_asn1 : ChainAsn1 := {|
  decode_certificate := λ b, if decide (b = [7]%N) then inr ca1 else inl "malformed"%string;
  decode_authority_info_access := sample_der (λ b, {| aia_descriptions :=
    [ {| access_method := OID_AD_CA_ISSUERS;
         access_location := UniformResourceIdentifier b |} ] |}) |}.

Inductive SampleFetcher := MkSampleFetcher.
Definition sample_fetch (_ : SampleFetcher) (u : Uri) : AiaError + bytes :=
  if decide (u = uri) then inr [7]%N else inl Timeout.
#[global] Instance SampleFetcher_impl : AiaFetcher SampleFetcher := {|
  fetch := sample_fetch; batch_fetch := default_batch_fetch sample_fetch |}.

Definition display (_ : PathTypes.Error) : string := "error".
Definition self : ChainVerifier SampleVerifier NoRevocation SampleFetcher :=
  verifier_new [sample_anchor "root"] MkSampleVerifier MkNoRevocation sample_policies
    MkSampleFetcher.
End Sample.

Example missing_issuer_fetched :
  (build_with_aia Sample.display Sample.self [Sample.leaf]).2 = Ok [Sample.leaf; Sample.ca1] ∧
  as_batches (build_with_aia Sample.display Sample.self [Sample.leaf]).1 = [[Sample.uri]].
Proof. split; vm_compute; reflexivity. Qed.

Example missing_issuer_no_fetcher :
  verify_one Sample.display (verifier_new_no_aia [sample_anchor "root"] MkSampleVerifier
    MkNoRevocation sample_policies) [Sample.leaf] = Err (Aia FetchingDisabled).
Proof. vm_compute. reflexivity. Qed.

(** An intermediate certificate of the right name with a wrong key is not
    displaced by one that could be fetched: the supplied certificates contain a
    candidate chain, so nothing is fetched and the invalid signature is the
    result, although the leaf alone is accepted. *)
Theorem wrong_intermediate_not_displaced :
  verify_one Sample.display Sample.self [Sample.leaf; Sample.other_ca1]
    = Err (Path (SignatureInvalid 0)) ∧
  as_batches (build_with_aia Sample.display Sample.self [Sample.leaf; Sample.other_ca1]).1 = [] ∧
  (∃ vp, verify_one Sample.display Sample.self [Sample.leaf] = Ok vp).
Proof. split_and!; [..|eexists]; vm_compute; reflexivity. Qed.

Lemma verify_one_error_witness :
  RevocationTotal NoRevocation ∧
  match verify_one Sample.display Sample.self [Sample.leaf; Sample.other_ca1] with
  | Ok _ => True
  | Err e => verify_error Sample.display Sample.self [Sample.leaf; Sample.other_ca1] e
  | Panic => False
  end.
Proof.
  split; [apply NoRevocation_total|].
  apply (verify_one_error Sample.display Sample.self [Sample.leaf; Sample.other_ca1]).
Defined.
