(* ===== verification/Merkle.v ===== *)
(** * Merkle inclusion proofs (pkix-ct/src/verify.rs)

    [verify_inclusion_inner] is the iterative algorithm of RFC 9162 2.1.3.2 as
    the source runs it.  The specification is the recursive one of RFC 6962
    2.1: the tree hash [mth] of a list of leaf hashes and the audit path
    [audit_path_of] of a leaf.  [climb] is the same walk level by level, and
    relates the two. *)
From S2P Require Import Prelude X509 PathTypes Verifier Samples.

(** The errors of the crate (pkix-ct/src/lib.rs). *)
Inductive CtError :=
| NoScts
| InvalidSignature
| ParseError
| UnsupportedVersion (v : N)
| TruncatedOrTrailing
| UnknownLog
| UnsupportedSignatureAlgorithm (hash_alg sig_alg : N)
| LogKeyMalformed
| SctTimestampOutsideLogWindow
| CertDerTooLong
| LeafMissingSctList
| MerkleProofInvalid
| MerkleProofMalformed.

(** [pkix_ct::Result<T>] *)
Abbreviation CtResult := (result CtError).

Record MerkleAuditPath := { leaf_index : N; tree_size : N; audit_path : list Hash32 }.

Section merkle.
Context `{Sha256}.

Definition inner_hash (left right : Hash32) : Hash32 :=
  sha256 ([1]%N ++ hash_bytes left ++ hash_bytes right).
Definition merkle_leaf_hash (leaf_bytes : bytes) : Hash32 := sha256 ([0]%N ++ leaf_bytes).

(** [while (fn_ & 1) == 0 && fn_ != 0 { fn_ >>= 1; sn >>= 1; }], by recursion
    on the bits of [fn_]: see [shift_loop_while]. *)
Fixpoint shift_bits (fn_ : positive) (sn : N) : N * N :=
  match fn_ with
  | xO fn_ => shift_bits fn_ (N.shiftr sn 1)
  | _ => (Npos fn_, sn)
  end.
Definition shift_loop (fn_ sn : N) : N * N :=
  match fn_ with 0%N => (0%N, sn) | Npos p => shift_bits p sn end.

(** The loop over the audit path: the last [sn] and [r]. *)
Fixpoint inclusion_loop (fn_ sn : N) (r : Hash32) (path : list Hash32) : CtResult (N * Hash32) :=
  match path with
  | [] => Ok (sn, r)
  | p :: path =>
      if decide (sn = 0)%N then Err MerkleProofMalformed
      else
        let '(fn_, sn, r) :=
          if decide (N.land fn_ 1 = 1 ∨ fn_ = sn)%N
          then let '(fn_, sn) := shift_loop fn_ sn in (fn_, sn, inner_hash p r)
          else (fn_, sn, inner_hash r p) in
        inclusion_loop (N.shiftr fn_ 1) (N.shiftr sn 1) r path
  end.

(** [u64::leading_zeros] *)
Definition leading_zeros (n : N) : N := (64 - N.size n)%N.

Definition verify_inclusion_inner (leaf_hash : Hash32) (proof : MerkleAuditPath)
    (expected_root : Hash32) : CtResult unit :=
  if decide (tree_size proof = 0)%N then Err MerkleProofMalformed
  else if decide (tree_size proof ≤ leaf_index proof)%N then Err MerkleProofInvalid
  else
    let max_path_len := if decide (tree_size proof ≤ 1)%N then 0%N
                        else (64 - leading_zeros (tree_size proof - 1))%N in
    if decide (max_path_len < N.of_nat (length (audit_path proof)))%N then Err MerkleProofMalformed
    else
      '(sn, r) ← inclusion_loop (leaf_index proof) (tree_size proof - 1) leaf_hash (audit_path proof);
      if decide (sn ≠ 0)%N then Err MerkleProofMalformed
      else if decide (r ≠ expected_root) then Err MerkleProofInvalid
      else Ok tt.

(** ** Specification: RFC 6962 2.1 on the list of leaf hashes *)

(** The largest power of two smaller than [n], for [n] at least 2. *)
Definition split_point (n : nat) : nat := 2 ^ Nat.log2 (n - 1).

Fixpoint mth_rec (fuel : nat) (D : list Hash32) : Hash32 :=
  match fuel with
  | 0 => sha256 []
  | S fuel =>
      match D with
      | [] => sha256 []
      | [h] => h
      | _ => let k := split_point (length D) in
             inner_hash (mth_rec fuel (take k D)) (mth_rec fuel (drop k D))
      end
  end.
(** The Merkle tree hash. *)
Definition mth (D : list Hash32) : Hash32 := mth_rec (length D) D.

Fixpoint path_rec (fuel m : nat) (D : list Hash32) : list Hash32 :=
  match fuel with
  | 0 => []
  | S fuel =>
      if decide (length D ≤ 1) then []
      else let k := split_point (length D) in
           if decide (m < k) then path_rec fuel m (take k D) ++ [mth (drop k D)]
           else path_rec fuel (m - k) (drop k D) ++ [mth (take k D)]
  end.
(** The audit path of leaf [m]. *)
Definition audit_path_of (m : nat) (D : list Hash32) : list Hash32 := path_rec (length D) m D.

(** ** Split points *)
Lemma split_point_bounds n : 2 ≤ n → 1 ≤ split_point n ∧ split_point n < n ∧ n ≤ 2 * split_point n.
Proof.
  intros Hn. unfold split_point. pose proof (Nat.log2_spec (n - 1) ltac:(lia)) as [H1 H2].
  cbn [Nat.pow] in H2. lia.
Qed.

Lemma split_point_half n : 3 ≤ n →
  split_point n = 2 * split_point (S n / 2).
Proof.
  intros Hn. unfold split_point.
  replace (S n / 2 - 1) with ((n - 1) / 2).
  - rewrite <-Nat.div2_div. assert (n - 1 = 2 * Nat.div2 (n - 1) + Nat.b2n (Nat.odd (n - 1))) as He
      by apply Nat.div2_odd.
    assert (0 < Nat.div2 (n - 1)) by (destruct (Nat.odd (n - 1)); cbn in He; lia).
    rewrite He at 1. destruct (Nat.odd (n - 1)); cbn [Nat.b2n].
    + rewrite Nat.log2_succ_double by done. cbn [Nat.pow]. lia.
    + rewrite Nat.add_0_r, Nat.log2_double by done. cbn [Nat.pow]. lia.
  - replace (S n) with (n - 1 + 1 * 2) by lia. rewrite Nat.div_add by lia. lia.
Qed.

Lemma mth_rec_enough fuel D : length D ≤ fuel → mth_rec fuel D = mth D.
Proof.
  unfold mth. revert D. induction (lt_wf fuel) as [fuel _ IH]. intros D Hf.
  destruct D as [|a [|b D]]; [by destruct fuel|destruct fuel; [cbn in Hf; lia|done]|].
  destruct fuel as [|fuel]; [cbn in Hf; lia|].
  remember (a :: b :: D) as E eqn:HE. assert (2 ≤ length E) as Hl by (subst E; cbn; lia).
  pose proof (split_point_bounds (length E) Hl) as (Hk1 & Hk2 & _).
  assert (∀ f, mth_rec (S f) E = inner_hash (mth_rec f (take (split_point (length E)) E))
    (mth_rec f (drop (split_point (length E)) E))) as Hu by (by subst E).
  destruct (length E) as [|n] eqn:Hn; [lia|]. rewrite !Hu, <-Hn in *.
  assert (∀ X, length X ≤ n → mth_rec fuel X = mth_rec n X) as Hx.
  { intros X HX. rewrite (IH fuel ltac:(lia) X ltac:(lia)).
    symmetry. apply IH; lia. }
  rewrite !Hx; [done|rewrite length_drop; lia|rewrite length_take; lia].
Qed.

Lemma mth_unfold D : 2 ≤ length D →
  mth D = inner_hash (mth (take (split_point (length D)) D)) (mth (drop (split_point (length D)) D)).
Proof.
  intros Hl. pose proof (split_point_bounds (length D) Hl) as (Hk1 & Hk2 & _).
  unfold mth at 1. destruct D as [|a [|b D]]; [cbn in Hl; lia..|].
  remember (a :: b :: D) as E eqn:HE. destruct (length E) as [|n] eqn:Hn; [by subst E|].
  assert (mth_rec (S n) E = inner_hash (mth_rec n (take (split_point (length E)) E))
    (mth_rec n (drop (split_point (length E)) E))) as -> by (by subst E).
  rewrite Hn, !mth_rec_enough; [done|rewrite length_drop; lia|rewrite length_take; lia].
Qed.

Lemma path_rec_enough fuel m D : length D ≤ fuel → path_rec fuel m D = audit_path_of m D.
Proof.
  unfold audit_path_of. revert m D. induction (lt_wf fuel) as [fuel _ IH]. intros m D Hf.
  destruct fuel as [|fuel]; [by destruct D; [|cbn in Hf; lia]|].
  destruct (length D) as [|n] eqn:Hn; cbn [path_rec]; rewrite Hn; [done|].
  case_decide as Hl; [done|].
  pose proof (split_point_bounds (S n) ltac:(lia)) as (Hk1 & Hk2 & _).
  assert (∀ m X, length X ≤ n → path_rec fuel m X = path_rec n m X) as Hx.
  { intros m' X HX. rewrite (IH fuel) by lia. symmetry. apply IH; lia. }
  rewrite !Hx; [done|rewrite length_drop; lia|rewrite length_take; lia].
Qed.

Lemma audit_path_small m D : length D ≤ 1 → audit_path_of m D = [].
Proof.
  intros Hl. unfold audit_path_of. destruct (length D) eqn:Hn; [done|]. cbn [path_rec].
  by rewrite decide_True by lia.
Qed.

Lemma audit_path_unfold m D : 2 ≤ length D →
  audit_path_of m D =
  let k := split_point (length D) in
  if decide (m < k) then audit_path_of m (take k D) ++ [mth (drop k D)]
  else audit_path_of (m - k) (drop k D) ++ [mth (take k D)].
Proof.
  intros Hl. pose proof (split_point_bounds (length D) Hl) as (Hk1 & Hk2 & _).
  unfold audit_path_of at 1. destruct (length D) as [|n] eqn:Hn; [lia|]. cbn [path_rec].
  rewrite Hn, decide_False by lia. cbv zeta.
  rewrite !path_rec_enough; [done|rewrite length_drop; lia|rewrite length_take; lia].
Qed.

(** ** One level of the tree: neighbours are hashed, a last one is kept *)
Fixpoint pair_level (D : list Hash32) : list Hash32 :=
  match D with
  | a :: b :: D => inner_hash a b :: pair_level D
  | _ => D
  end.

(** Induction two elements at a time. *)
Lemma pair_level_ind (P : list Hash32 → Prop) :
  P [] → (∀ a, P [a]) → (∀ a b D, P D → P (a :: b :: D)) → ∀ D, P D.
Proof.
  intros H0 H1 H2 D. cut (P D ∧ ∀ a, P (a :: D)); [by intros []|].
  induction D as [|a D [IH1 IH2]]; split; auto.
Qed.

Lemma length_pair_level D : length (pair_level D) = S (length D) / 2.
Proof.
  induction D as [|a|a b D IH] using pair_level_ind; [done..|]. cbn [pair_level length]. rewrite IH.
  replace (S (S (S (length D)))) with (S (length D) + 1 * 2) by lia.
  rewrite Nat.div_add by lia. lia.
Qed.

Lemma pair_level_app D E :
  Nat.Even (length D) → pair_level (D ++ E) = pair_level D ++ pair_level E.
Proof.
  induction D as [|a|a b D IH] using pair_level_ind; [done| |].
  - intros [k Hk]. cbn in Hk. lia.
  - intros [k Hk]. cbn [length] in Hk. cbn [app pair_level]. rewrite IH; [done|].
    exists (k - 1). lia.
Qed.

(** What a level has at half of an index. *)
Definition sibling (m : nat) (D : list Hash32) : option Hash32 :=
  D !! (if Nat.odd m then m - 1 else S m).

Lemma lookup_pair_level D m h : D !! m = Some h →
  pair_level D !! (m / 2) =
  Some match sibling m D with
       | Some s => if Nat.odd m then inner_hash s h else inner_hash h s
       | None => h
       end.
Proof.
  unfold sibling. revert m. induction D as [|a|a b D IH] using pair_level_ind; intros m Hm.
  - done.
  - destruct m; [by injection Hm as ->|done].
  - destruct m as [|[|m]]; cbn in Hm; [by injection Hm as ->..|].
    replace (S (S m) / 2) with (S (m / 2))
      by (replace (S (S m)) with (m + 1 * 2) by lia; rewrite Nat.div_add by lia; lia).
    cbn [pair_level lookup list_lookup]. change (Nat.odd (S (S m))) with (Nat.odd m).
    destruct (Nat.odd m) eqn:Ho.
    + specialize (IH m Hm). rewrite Ho in IH. destruct m as [|m]; [done|].
      cbn [Nat.sub] in *. rewrite Nat.sub_0_r in IH. exact IH.
    + specialize (IH m Hm). rewrite Ho in IH. exact IH.
Qed.

(** Splitting commutes with going up one level. *)
Lemma pair_level_split D : 3 ≤ length D →
  let k := split_point (length D) in
  let k' := split_point (length (pair_level D)) in
  k = 2 * k' ∧ take k' (pair_level D) = pair_level (take k D) ∧
  drop k' (pair_level D) = pair_level (drop k D).
Proof.
  intros Hl k k'. pose proof (split_point_bounds (length D) ltac:(lia)) as (Hk1 & Hk2 & _).
  assert (k = 2 * k') as Hk.
  { unfold k, k'. rewrite length_pair_level. by apply split_point_half. }
  assert (pair_level D = pair_level (take k D) ++ pair_level (drop k D)) as Hp.
  { rewrite <-pair_level_app, take_drop; [done|]. exists k'.
    rewrite length_take. fold k in Hk2. lia. }
  assert (length (pair_level (take k D)) = k') as Hlen.
  { rewrite length_pair_level, length_take. fold k in Hk2.
    replace (S (k `min` length D)) with (1 + k' * 2) by lia. rewrite Nat.div_add by lia. done. }
  split; [done|]. rewrite Hp. split; [by rewrite take_app_length'|by rewrite drop_app_length'].
Qed.

Lemma mth_pair_level D : 2 ≤ length D → mth (pair_level D) = mth D.
Proof.
  remember (length D) as n eqn:Hn. revert D Hn. induction (lt_wf n) as [n _ IH]. intros D -> Hl.
  destruct (decide (length D = 2)) as [H2|H2].
  { destruct D as [|a [|b [|]]]; try done. }
  destruct (pair_level_split D ltac:(lia)) as (Hk & Ht & Hd).
  pose proof (split_point_bounds (length D) Hl) as (Hk1 & Hk2 & Hk3).
  rewrite (mth_unfold D), (mth_unfold (pair_level D)); [|rewrite length_pair_level|done].
  - rewrite Ht, Hd. f_equal.
    + apply (IH (split_point (length D))); [done|rewrite length_take; lia|].
      destruct (split_point (length D)) as [|[|]]; lia.
    + destruct (decide (2 ≤ length (drop (split_point (length D)) D))) as [Hge|Hlt].
      * apply (IH (length (drop (split_point (length D)) D))); [|done|done].
        rewrite length_drop. lia.
      * by destruct (drop (split_point (length D)) D) as [|a [|]]; [..|cbn in Hlt; lia].
  - apply (Nat.div_le_lower_bound); lia.
Qed.

Lemma sibling_take m k D : m < 2 * k → 2 * k ≤ length D →
  sibling m (take (2 * k) D) = sibling m D.
Proof.
  intros Hm Hk. unfold sibling. destruct (Nat.odd m) eqn:Ho.
  - by rewrite lookup_take_lt by lia.
  - rewrite lookup_take_lt; [done|]. rewrite <-Nat.negb_even in Ho.
    apply negb_false_iff, Nat.even_spec in Ho as [j ->]. lia.
Qed.

Lemma sibling_drop m k D : 2 * k ≤ m → sibling (m - 2 * k) (drop (2 * k) D) = sibling m D.
Proof.
  intros Hm. assert (Nat.odd m = Nat.odd (m - 2 * k)) as Ho.
  { rewrite <-(Nat.odd_add_mul_2 (m - 2 * k) k). f_equal. lia. }
  unfold sibling. rewrite lookup_drop, Ho. destruct (Nat.odd (m - 2 * k)) eqn:Hodd; [|f_equal; lia].
  destruct (m - 2 * k) eqn:He; [done|]. f_equal. lia.
Qed.

Lemma pair_level_small D : length D ≤ 1 → pair_level D = D.
Proof. destruct D as [|a [|b D]]; [done..|cbn; lia]. Qed.

Lemma mth_level D : mth (pair_level D) = mth D.
Proof.
  destruct (decide (2 ≤ length D)); [by apply mth_pair_level|]. by rewrite pair_level_small by lia.
Qed.

Lemma audit_path_pair_level m D : 2 ≤ length D → m < length D →
  audit_path_of m D = option_list (sibling m D) ++ audit_path_of (m / 2) (pair_level D).
Proof.
  remember (length D) as n eqn:Hn. revert m D Hn. induction (lt_wf n) as [n _ IH].
  intros m D -> Hl Hm. destruct (decide (length D = 2)) as [H2|H2].
  { destruct D as [|a [|b [|]]]; try done. by destruct m as [|[|]]; [..|cbn in Hm; lia]. }
  destruct (pair_level_split D ltac:(lia)) as (Hk & Ht & Hd).
  pose proof (split_point_bounds (length D) Hl) as (Hk1 & Hk2 & Hk3).
  rewrite (audit_path_unfold m D Hl), (audit_path_unfold (m / 2) (pair_level D))
    by (rewrite length_pair_level; apply Nat.div_le_lower_bound; lia).
  cbv zeta. rewrite Ht, Hd, !mth_level.
  set (k := split_point (length D)) in *. set (k' := split_point (length (pair_level D))) in *.
  pose proof (Nat.div_mod_eq m 2). pose proof (Nat.mod_upper_bound m 2 ltac:(lia)).
  case_decide as Hmk.
  - rewrite decide_True by lia.
    rewrite (IH k) by (rewrite ?length_take; lia). rewrite Hk, sibling_take by lia.
    by rewrite app_assoc.
  - rewrite decide_False by lia.
    replace (m / 2 - k') with ((m - k) / 2)
      by (replace m with (m - k + k' * 2) at 2 by lia; rewrite Nat.div_add by lia; lia).
    rewrite app_assoc. f_equal. rewrite <-(sibling_drop m k') by lia. rewrite <-Hk.
    destruct (decide (2 ≤ length (drop k D))) as [Hge|Hlt].
    + apply (IH (length (drop k D))); rewrite ?length_drop in *; lia.
    + assert (length (drop k D) = 1) as Hone by (rewrite length_drop in *; lia).
      rewrite pair_level_small, !audit_path_small by lia.
      assert (m - k = 0) as -> by (rewrite length_drop in *; lia). unfold sibling. cbn [Nat.odd].
      by rewrite lookup_ge_None_2 by (cbn; lia).
Qed.

(** ** The walk level by level *)
Fixpoint climb (levels : nat) (m last : nat) (r : Hash32) (path : list Hash32) : option Hash32 :=
  match levels with
  | 0 => match path with [] => Some r | _ => None end
  | S levels =>
      if decide (last = 0) then match path with [] => Some r | _ => None end
      else if Nat.odd m then
        match path with p :: path => climb levels (m / 2) (last / 2) (inner_hash p r) path | [] => None end
      else if decide (m < last) then
        match path with p :: path => climb levels (m / 2) (last / 2) (inner_hash r p) path | [] => None end
      else climb levels (m / 2) (last / 2) r path
  end.

(** ** Where a collision is found *)

(** [inner_hash a b] is computed for the tree hash of [D]. *)
Inductive hashed_in_tree : list Hash32 → Hash32 → Hash32 → Prop :=
| hashed_root D : 2 ≤ length D → let k := split_point (length D) in
    hashed_in_tree D (mth (take k D)) (mth (drop k D))
| hashed_left D a b : 2 ≤ length D →
    hashed_in_tree (take (split_point (length D)) D) a b → hashed_in_tree D a b
| hashed_right D a b : 2 ≤ length D →
    hashed_in_tree (drop (split_point (length D)) D) a b → hashed_in_tree D a b.

(** [inner_hash a b] is computed by who walks up with [path] from node [m],
    whose hash is [r], of a level whose nodes are numbered up to [last]. *)
Inductive hashed_in_walk : nat → nat → Hash32 → list Hash32 → Hash32 → Hash32 → Prop :=
| walk_right m last r p path : last ≠ 0 → Nat.odd m = true →
    hashed_in_walk m last r (p :: path) p r
| walk_left m last r p path : Nat.odd m = false → m < last →
    hashed_in_walk m last r (p :: path) r p
| walk_up_right m last r p path a b : last ≠ 0 → Nat.odd m = true →
    hashed_in_walk (m / 2) (last / 2) (inner_hash p r) path a b →
    hashed_in_walk m last r (p :: path) a b
| walk_up_left m last r p path a b : Nat.odd m = false → m < last →
    hashed_in_walk (m / 2) (last / 2) (inner_hash r p) path a b →
    hashed_in_walk m last r (p :: path) a b
| walk_up_alone m last r path a b : last ≠ 0 → Nat.odd m = false → last ≤ m →
    hashed_in_walk (m / 2) (last / 2) r path a b →
    hashed_in_walk m last r path a b.

(** Two different pairs with the same hash, one hashed in the tree of [D], the
    other on the walk from leaf [m] of it with [r] and [path]. *)
Definition collision_on_walk (D : list Hash32) (m : nat) (r : Hash32) (path : list Hash32) : Prop :=
  ∃ a b c d, (a, b) ≠ (c, d) ∧ inner_hash a b = inner_hash c d ∧
    hashed_in_tree D a b ∧ hashed_in_walk m (length D - 1) r path c d.

(** The pairs of one level up are pairs of the tree. *)
Lemma hashed_pair_level D a b : hashed_in_tree (pair_level D) a b → hashed_in_tree D a b.
Proof.
  remember (length D) as n eqn:Hn. revert D a b Hn.
  induction (lt_wf n) as [n _ IH]. intros D a b -> Hh.
  destruct (decide (length D ≤ 2)) as [H2|H2].
  { destruct D as [|x [|y [|]]]; [done|done| |cbn in H2; lia].
    inversion Hh as [? Hl|? ? ? Hl|? ? ? Hl]; cbn in Hl; lia. }
  destruct (pair_level_split D ltac:(lia)) as (_ & Ht & Hd).
  pose proof (split_point_bounds (length D) ltac:(lia)) as (Hk1 & Hk2 & _).
  inversion Hh as [? _|? ? ? _ Hx|? ? ? _ Hx]; subst.
  - subst k. rewrite Ht, Hd, !mth_level. apply hashed_root. lia.
  - rewrite Ht in Hx. apply hashed_left; [lia|].
    eapply IH; [|done|exact Hx]. rewrite length_take. lia.
  - rewrite Hd in Hx. apply hashed_right; [lia|].
    eapply IH; [|done|exact Hx]. rewrite length_drop. lia.
Qed.

(** A leaf and its sibling are hashed together. *)
Lemma hashed_sibling D m h s : D !! m = Some h → sibling m D = Some s →
  if Nat.odd m then hashed_in_tree D s h else hashed_in_tree D h s.
Proof.
  remember (length D) as n eqn:Hn. revert D m Hn.
  induction (lt_wf n) as [n _ IH]. intros D m -> Hh Hs.
  pose proof (lookup_lt_Some _ _ _ Hh) as Hm.
  destruct (decide (length D ≤ 2)) as [H2|H2].
  { destruct D as [|x [|y [|]]]; [done| | |cbn in H2; lia].
    - destruct m; [done|cbn in Hm; lia].
    - assert (hashed_in_tree [x; y] x y) as Hr by (apply (hashed_root [x; y]); cbn; lia).
      destruct m as [|[|m]]; [..|cbn in Hm; lia]; cbn in Hh, Hs; by injection Hh as <-; injection Hs as <-. }
  destruct (pair_level_split D ltac:(lia)) as (Hk & _ & _).
  pose proof (split_point_bounds (length D) ltac:(lia)) as (Hk1 & Hk2 & Hk3).
  set (k := split_point (length D)) in *.
  set (k' := split_point (length (pair_level D))) in *.
  destruct (decide (m < k)) as [Hmk|Hmk].
  - specialize (IH k Hk2 (take k D) m). rewrite length_take, lookup_take_lt in IH by lia.
    rewrite Hk, sibling_take, <-Hk in IH by lia. specialize (IH ltac:(lia) Hh Hs).
    destruct (Nat.odd m); (apply hashed_left; [lia|exact IH]).
  - assert (Nat.odd (m - k) = Nat.odd m) as Ho.
    { rewrite <-(Nat.odd_add_mul_2 (m - k) k'). f_equal. lia. }
    specialize (IH (length (drop k D)) ltac:(rewrite length_drop; lia) (drop k D) (m - k)).
    rewrite lookup_drop, Ho in IH. replace (k + (m - k)) with m in IH by lia.
    assert (sibling (m - k) (drop k D) = sibling m D) as Hsib.
    { rewrite Hk. apply sibling_drop. lia. }
    rewrite Hsib in IH. specialize (IH eq_refl Hh Hs).
    destruct (Nat.odd m); (apply hashed_right; [lia|exact IH]).
Qed.

Lemma climb_audit_path levels D m h :
  D !! m = Some h → length D - 1 < 2 ^ levels →
  climb levels m (length D - 1) h (audit_path_of m D) = Some (mth D).
Proof.
  revert D m h. induction levels as [|levels IH]; intros D m h Hm Hl;
    pose proof (lookup_lt_Some _ _ _ Hm) as Hlt; cbn [Nat.pow] in Hl.
  - rewrite audit_path_small by lia. destruct D as [|a [|]]; [done| |cbn in Hl; lia].
    destruct m; [by injection Hm as ->|done].
  - cbn [climb]. case_decide as Hz.
    + rewrite audit_path_small by lia. destruct D as [|a [|]]; [done| |cbn in Hz; lia].
      destruct m; [by injection Hm as ->|done].
    + rewrite audit_path_pair_level by lia. pose proof (lookup_pair_level D m h Hm) as Hp.
      assert ((length D - 1) / 2 = length (pair_level D) - 1) as Hlen.
      { rewrite length_pair_level. replace (S (length D)) with (length D - 1 + 1 * 2) by lia.
        rewrite Nat.div_add by lia. lia. }
      assert ((length D - 1) / 2 < 2 ^ levels) as Hlt2 by (apply Nat.Div0.div_lt_upper_bound; lia).
      rewrite Hlen in *. rewrite <-mth_level.
      destruct (Nat.odd m) eqn:Ho.
      * assert (is_Some (sibling m D)) as [s Hs].
        { unfold sibling. rewrite Ho. apply lookup_lt_is_Some. lia. }
        rewrite Hs in *. cbn [option_list app]. by apply IH.
      * case_decide as Hml.
        -- assert (is_Some (sibling m D)) as [s Hs].
           { unfold sibling. rewrite Ho. apply lookup_lt_is_Some. lia. }
           rewrite Hs in *. cbn [option_list app]. by apply IH.
        -- assert (sibling m D = None) as Hs.
           { unfold sibling. rewrite Ho. apply lookup_ge_None_2. lia. }
           rewrite Hs in *. cbn [option_list app]. by apply IH.
Qed.

(** A collision found one level up is one of the walk. *)
Lemma collision_up D m r path r' path' :
  collision_on_walk (pair_level D) (m / 2) r' path' →
  length (pair_level D) - 1 = (length D - 1) / 2 →
  (∀ c d, hashed_in_walk (m / 2) ((length D - 1) / 2) r' path' c d →
          hashed_in_walk m (length D - 1) r path c d) →
  collision_on_walk D m r path.
Proof.
  intros (a & b & c & d & Hne & Heq & Ht & Hw) Hl Hup. rewrite Hl in Hw.
  exists a, b, c, d. split_and!; [done|done|by apply hashed_pair_level|by apply Hup].
Qed.

(** Whoever reaches the root from leaf [m] has the leaf and its path, or a
    collision on the way. *)
Lemma climb_sound levels D m r path :
  m < length D → length D - 1 < 2 ^ levels →
  climb levels m (length D - 1) r path = Some (mth D) →
  (D !! m = Some r ∧ path = audit_path_of m D) ∨ collision_on_walk D m r path.
Proof.
  revert D m r path. induction levels as [|levels IH]; intros D m r path Hm Hl Hc;
    cbn [Nat.pow] in Hl; cbn [climb] in Hc.
  - rewrite audit_path_small by lia. destruct D as [|a [|]]; [cbn in Hm; lia| |cbn in Hl; lia].
    destruct path; [|done]. injection Hc as ->. left. by destruct m; [|cbn in Hm; lia].
  - case_decide as Hz.
    + rewrite audit_path_small by lia. destruct D as [|a [|]]; [cbn in Hm; lia| |cbn in Hz; lia].
      destruct path; [|done]. injection Hc as ->. left. by destruct m; [|cbn in Hm; lia].
    + rewrite audit_path_pair_level by lia.
      destruct (lookup_lt_is_Some_2 D m Hm) as [h Hh].
      pose proof (lookup_pair_level D m h Hh) as Hp. pose proof (hashed_sibling D m h) as Hsib.
      assert (length (pair_level D) - 1 = (length D - 1) / 2) as Hlen.
      { rewrite length_pair_level. replace (S (length D)) with (length D - 1 + 1 * 2) by lia.
        rewrite Nat.div_add by lia. lia. }
      assert ((length D - 1) / 2 < 2 ^ levels) as Hlt2 by (apply Nat.Div0.div_lt_upper_bound; lia).
      assert (m / 2 < length (pair_level D)) as Hm2 by (by eapply lookup_lt_Some).
      rewrite <-Hlen in Hc, Hlt2. rewrite <-mth_level in Hc.
      destruct (Nat.odd m) eqn:Ho; [|case_decide as Hml].
      * destruct path as [|p path]; [done|].
        apply IH in Hc as [[Hr ->]|Hcol]; [| |done..].
        2:{ right. eapply collision_up; [exact Hcol|done|]. intros. by apply walk_up_right. }
        assert (is_Some (sibling m D)) as [s Hs].
        { unfold sibling. rewrite Ho. apply lookup_lt_is_Some. lia. }
        rewrite Hs in Hp. rewrite Hp in Hr. injection Hr as Hr.
        destruct (decide ((s, h) = (p, r))) as [[= <- <-]|Hne]; [left; by rewrite Hs|].
        right. exists s, h, p, r. split_and!; [done|done|by apply Hsib|by apply walk_right].
      * destruct path as [|p path]; [done|].
        apply IH in Hc as [[Hr ->]|Hcol]; [| |done..].
        2:{ right. eapply collision_up; [exact Hcol|done|]. intros. by apply walk_up_left. }
        assert (is_Some (sibling m D)) as [s Hs].
        { unfold sibling. rewrite Ho. apply lookup_lt_is_Some. lia. }
        rewrite Hs in Hp. rewrite Hp in Hr. injection Hr as Hr.
        destruct (decide ((h, s) = (r, p))) as [[= <- <-]|Hne]; [left; by rewrite Hs|].
        right. exists h, s, r, p. split_and!; [done|done|by apply Hsib|by apply walk_left].
      * apply IH in Hc as [[Hr ->]|Hcol]; [| |done..].
        2:{ right. eapply collision_up; [exact Hcol|done|]. intros. apply walk_up_alone; [done..|lia|done]. }
        assert (sibling m D = None) as Hs.
        { unfold sibling. rewrite Ho. apply lookup_ge_None_2. lia. }
        rewrite Hs in *. left. rewrite Hp in Hr. by injection Hr as ->.
Qed.

(** ** The loop of the source is the walk *)
Lemma odd_mod n : Nat.odd n = bool_decide (n mod 2 = 1).
Proof.
  pose proof (Nat.div_mod_eq n 2). pose proof (Nat.mod_upper_bound n 2 ltac:(lia)).
  case_bool_decide as Hm.
  - apply Nat.odd_spec. exists (n / 2). lia.
  - rewrite <-Nat.negb_even. apply negb_false_iff, Nat.even_spec. exists (n / 2). lia.
Qed.

Lemma land_one_odd n : (N.land n 1 = 1)%N ↔ Nat.odd (N.to_nat n) = true.
Proof.
  rewrite odd_mod, bool_decide_eq_true. change 1%N with (N.ones 1) at 1. rewrite N.land_ones.
  change (2 ^ 1)%N with 2%N. pose proof (N2Nat.inj_mod n 2) as Hm. change (N.to_nat 2) with 2 in Hm.
  lia.
Qed.

Lemma land_one_even n : (N.land n 1 = 0)%N ↔ Nat.odd (N.to_nat n) = false.
Proof.
  rewrite odd_mod, bool_decide_eq_false. change 1%N with (N.ones 1). rewrite N.land_ones.
  change (2 ^ 1)%N with 2%N. pose proof (N2Nat.inj_mod n 2) as Hm. change (N.to_nat 2) with 2 in Hm.
  pose proof (Nat.mod_upper_bound (N.to_nat n) 2 ltac:(lia)). lia.
Qed.

Lemma shiftr_one n : N.to_nat (N.shiftr n 1) = N.to_nat n / 2.
Proof. rewrite N.shiftr_div_pow2. apply (N2Nat.inj_div n 2). Qed.

Lemma shift_loop_while fn_ sn :
  shift_loop fn_ sn =
  if decide (N.land fn_ 1 = 0 ∧ fn_ ≠ 0)%N
  then shift_loop (N.shiftr fn_ 1) (N.shiftr sn 1) else (fn_, sn).
Proof.
  destruct fn_ as [|[p|p|]]; [done..| |done]. cbn [shift_loop shift_bits].
  rewrite decide_True; [done|]. split; [|done]. by destruct p.
Qed.

Lemma inclusion_loop_climb levels fn_ sn r path :
  (fn_ ≤ sn)%N → N.to_nat sn < 2 ^ levels →
  climb levels (N.to_nat fn_) (N.to_nat sn) r path =
  match inclusion_loop fn_ sn r path with Ok (0%N, r) => Some r | _ => None end.
Proof.
  revert fn_ sn r path. induction levels as [|levels IH]; intros fn_ sn r path Hle Hlt;
    cbn [Nat.pow] in Hlt.
  { assert (sn = 0)%N as -> by lia. by destruct path. }
  cbn [climb]. case_decide as Hz.
  { assert (sn = 0)%N as -> by lia. by destruct path. }
  assert (N.shiftr fn_ 1 ≤ N.shiftr sn 1)%N as Hle2.
  { cut (N.to_nat (N.shiftr fn_ 1) ≤ N.to_nat (N.shiftr sn 1)); [lia|].
    rewrite !shiftr_one. apply Nat.Div0.div_le_mono. lia. }
  assert (N.to_nat (N.shiftr sn 1) < 2 ^ levels) as Hlt2.
  { rewrite shiftr_one. apply Nat.Div0.div_lt_upper_bound. lia. }
  assert (∀ q, match sn with 0%N => Some q | _ => None end = (None : option Hash32)) as Hnone
    by (by destruct sn).
  rewrite <-!shiftr_one. destruct (Nat.odd (N.to_nat fn_)) eqn:Ho; [|case_decide as Hml].
  - destruct path as [|p path]; cbn [inclusion_loop]; [done|].
    rewrite decide_False by lia. rewrite decide_True by (left; by apply land_one_odd).
    rewrite shift_loop_while, decide_False.
    + by apply IH.
    + intros [He _]. apply land_one_even in He. congruence.
  - destruct path as [|p path]; cbn [inclusion_loop]; [done|].
    rewrite decide_False by lia. rewrite decide_False.
    + by apply IH.
    + intros [He| ->]; [|lia]. apply land_one_odd in He. congruence.
  - assert (fn_ = sn) as -> by lia. rewrite (IH _ _ _ _ Hle2 Hlt2).
    assert (N.shiftr sn 1 ≠ 0)%N as Hnz.
    { intros Hs. apply (f_equal N.to_nat) in Hs. rewrite shiftr_one in Hs.
      pose proof (Nat.div_mod_eq (N.to_nat sn) 2). rewrite odd_mod, bool_decide_eq_false in Ho.
      pose proof (Nat.mod_upper_bound (N.to_nat sn) 2 ltac:(lia)). change (N.to_nat 0) with 0 in Hs. lia. }
    destruct path as [|p path]; cbn [inclusion_loop].
    + rewrite Hnone. by destruct (N.shiftr sn 1).
    + rewrite (decide_False (P:=(sn = 0)%N)) by lia. rewrite (decide_False (P:=(N.shiftr sn 1 = 0)%N)) by done.
      rewrite (decide_True (P:=(N.land sn 1 = 1 ∨ sn = sn)%N)) by (by right).
      rewrite (decide_True (P:=(N.land (N.shiftr sn 1) 1 = 1 ∨ N.shiftr sn 1 = N.shiftr sn 1)%N))
        by (by right).
      rewrite (shift_loop_while sn sn), decide_True; [done|]. split; [by apply land_one_even|lia].
Qed.

Lemma length_audit_path levels D m :
  m < length D → length D - 1 < 2 ^ levels → length (audit_path_of m D) ≤ levels.
Proof.
  revert D m. induction levels as [|levels IH]; intros D m Hm Hl; cbn [Nat.pow] in Hl.
  { by rewrite audit_path_small by lia. }
  destruct (decide (2 ≤ length D)); [|rewrite audit_path_small by lia; cbn; lia].
  rewrite audit_path_pair_level, length_app by done.
  assert (m / 2 < length (pair_level D)) as Hm2.
  { destruct (lookup_lt_is_Some_2 D m Hm) as [h Hh]. eapply lookup_lt_Some.
    by apply lookup_pair_level. }
  specialize (IH (pair_level D) (m / 2) Hm2). rewrite length_pair_level in IH.
  replace (S (length D)) with (length D - 1 + 1 * 2) in IH by lia.
  rewrite Nat.div_add in IH by lia.
  assert ((length D - 1) / 2 < 2 ^ levels) by (apply Nat.Div0.div_lt_upper_bound; lia).
  specialize (IH ltac:(lia)). destruct (sibling m D); unfold option_list; cbn [option_rect length]; lia.
Qed.

(** What the checks before and after the loop leave of a proof. *)
Lemma verify_inclusion_Ok h m n path root levels :
  (m < n)%N → (n < 2 ^ 64)%N → levels = N.to_nat (N.size (n - 1)) →
  verify_inclusion_inner h {| leaf_index := m; tree_size := n; audit_path := path |} root = Ok tt ↔
  length path ≤ levels ∧
  climb levels (N.to_nat m) (N.to_nat n - 1) h path = Some root.
Proof.
  intros Hm Hn ->. pose proof (N.size_gt (n - 1)) as Hs.
  assert (N.to_nat n - 1 = N.to_nat (n - 1)) as -> by lia.
  rewrite inclusion_loop_climb; [|lia|].
  2:{ replace 2 with (N.to_nat 2) by done.
      rewrite <-N2Nat.inj_pow. lia. }
  unfold verify_inclusion_inner. cbn [tree_size leaf_index audit_path].
  rewrite decide_False, decide_False by lia.
  assert ((if decide (n ≤ 1) then 0 else 64 - leading_zeros (n - 1)) = N.size (n - 1))%N as ->.
  { case_decide; [by replace (n - 1)%N with 0%N by lia|]. unfold leading_zeros.
    assert (N.size (n - 1) ≤ 64)%N; [|lia].
    rewrite N.size_log2 by lia. apply N.le_succ_l, N.log2_lt_pow2; lia. }
  case_decide as Hl; [split; [done|]; lia|].
  destruct (inclusion_loop _ _ _ _) as [[sn r]|e|]; cbn [mbind result_bind].
  - destruct sn; [|split; [done|by intros [_ ?]]].
    rewrite decide_False by auto. case_decide as Hr.
    + split; [done|]. intros [_ [= ->]]. done.
    + subst r. split; [intros _; split; [lia|done]|done].
  - split; [done|by intros [_ ?]].
  - split; [done|by intros [_ ?]].
Qed.

(** C14: for every tree of fewer than [2^64] leaves and every leaf of it, the
    audit path of RFC 6962 is accepted against the tree hash; and whoever has
    any other leaf hash or path accepted for that index has found a collision:
    two different pairs with the same inner hash, one hashed in the tree, the
    other on the walk from that leaf hash along that path. *)
Theorem verify_inclusion_correct D m h
    (Hn : (N.of_nat (length D) < 2 ^ 64)%N) (Hh : D !! m = Some h) :
  let proof path := {| leaf_index := N.of_nat m; tree_size := N.of_nat (length D);
                       audit_path := path |} in
  verify_inclusion_inner h (proof (audit_path_of m D)) (mth D) = Ok tt ∧
  (∀ h' path, verify_inclusion_inner h' (proof path) (mth D) = Ok tt →
     (h' = h ∧ path = audit_path_of m D) ∨ collision_on_walk D m h' path).
Proof.
  intros proof. pose proof (lookup_lt_Some _ _ _ Hh) as Hm.
  set (levels := N.to_nat (N.size (N.of_nat (length D) - 1))).
  assert (length D - 1 < 2 ^ levels) as Hl.
  { pose proof (N.size_gt (N.of_nat (length D) - 1)) as Hs. unfold levels.
    replace 2 with (N.to_nat 2) by done. rewrite <-N2Nat.inj_pow. lia. }
  unfold proof. split.
  - apply (verify_inclusion_Ok _ _ _ _ _ levels); [lia|done|done|]. rewrite !Nat2N.id.
    split; [by apply length_audit_path|by apply climb_audit_path].
  - intros h' path Hv. apply (verify_inclusion_Ok _ _ _ _ _ levels) in Hv as [_ Hc]; [|lia|done|done].
    rewrite !Nat2N.id in Hc. apply climb_sound in Hc as [[Hr ->]|]; [|by right|done..].
    left. rewrite Hh in Hr. by injection Hr.
Qed.
End merkle.

(** ** A toy digest: the sum of the octets, with their positions *)
Module MerkleSample.
#[export] Instance digest : Sha256 := λ b, pad32 [foldl (λ a x, (a * 7 + x) mod 251)%N 1%N b].
Definition leaves : list Hash32 := (λ n, merkle_leaf_hash [n]) <$> [10; 20; 30; 40; 50]%N.
End MerkleSample.
Import MerkleSample.

Lemma verify_inclusion_correct_witness :
  verify_inclusion_inner (merkle_leaf_hash [50]%N)
    {| leaf_index := 4; tree_size := 5; audit_path := audit_path_of 4 leaves |} (mth leaves) = Ok tt.
Proof.
  apply (verify_inclusion_correct leaves 4 (merkle_leaf_hash [50]%N)); [by vm_compute|].
  reflexivity.
Defined.

Example inclusion_rejects :
  (verify_inclusion_inner (merkle_leaf_hash [40]%N)
     {| leaf_index := 4; tree_size := 5; audit_path := audit_path_of 4 leaves |} (mth leaves),
   verify_inclusion_inner (merkle_leaf_hash [50]%N)
     {| leaf_index := 4; tree_size := 4; audit_path := audit_path_of 4 leaves |} (mth leaves),
   verify_inclusion_inner (merkle_leaf_hash [50]%N)
     {| leaf_index := 4; tree_size := 6; audit_path := audit_path_of 4 leaves |} (mth leaves))
  = (Err MerkleProofInvalid, Err MerkleProofInvalid, Err MerkleProofMalformed).
Proof. vm_compute. reflexivity. Qed.
