(* ===== verification/Sct.v ===== *)
(** * Signed certificate timestamps (pkix-ct/src/sct.rs and delivery.rs)

    The parser of RFC 6962 3.2 and 3.3 over [Cursor], a reader that consumes a
    prefix of the octets, and the two other ways a list is delivered.  The
    specification is the encoder: the parser accepts exactly the encodings of
    non-empty lists. *)
From S2P Require Import Prelude X509 Ocsp Merkle.

(** [u16::to_be_bytes] and [u64::to_be_bytes], for [k] octets. *)
Fixpoint to_be_bytes (k : nat) (v : N) : bytes :=
  match k with
  | 0 => []
  | S k => ((v / 256 ^ N.of_nat k) mod 256)%N :: to_be_bytes k v
  end.

(** A function of [&mut Cursor]: its result and the octets left. *)
Definition Reader (A : Type) : Type := bytes → CtResult (A * bytes).
#[global] Instance Reader_ret : MRet Reader := λ A a data, Ok (a, data).
#[global] Instance Reader_bind : MBind Reader := λ A B k r data,
  '(a, rest) ← r data; k a rest.
Definition reader_lift {A} (r : CtResult A) : Reader A := λ data, a ← r; mret (a, data).

Definition read_bytes (n : nat) : Reader bytes := λ data,
  if decide (length data < n) then Err TruncatedOrTrailing else Ok (take n data, drop n data).

Definition read_u8 : Reader N := b ← read_bytes 1; reader_lift (index b 0).
Definition read_u16_be : Reader N := b ← read_bytes 2; mret (from_be_bytes b).
Definition read_u64_be : Reader N := b ← read_bytes 8; mret (from_be_bytes b).
Definition read_u16_prefixed : Reader bytes := len ← read_u16_be; read_bytes (N.to_nat len).

Record SignedCertificateTimestamp := {
  sct_version : N;
  log_id : bytes;
  timestamp_ms : N;
  sct_extensions : bytes;
  hash_alg : N;
  sig_alg : N;
  sct_signature : bytes }.
#[global] Instance SignedCertificateTimestamp_eq_dec : EqDecision SignedCertificateTimestamp.
Proof. solve_decision. Defined.

(** [SignedCertificateTimestamp::read] *)
Definition read_sct : Reader SignedCertificateTimestamp :=
  version ← read_u8;
  _ ← reader_lift (fail_if (negb (bool_decide (version = 0)%N)) (UnsupportedVersion version));
  log_id ← read_bytes 32;
  timestamp_ms ← read_u64_be;
  extensions ← read_u16_prefixed;
  hash_alg ← read_u8;
  sig_alg ← read_u8;
  signature ← read_u16_prefixed;
  mret {| sct_version := version; log_id := log_id; timestamp_ms := timestamp_ms;
          sct_extensions := extensions; hash_alg := hash_alg; sig_alg := sig_alg;
          sct_signature := signature |}.

(** [SignedCertificateTimestamp::from_bytes]: the whole input. *)
Definition sct_from_bytes (input : bytes) : CtResult SignedCertificateTimestamp :=
  '(sct, cur) ← read_sct input;
  if decide (cur ≠ []) then Err TruncatedOrTrailing else Ok sct.

(** [while !inner.is_empty()]: each turn reads at least two octets. *)
Fixpoint sct_list_loop (fuel : nat) (inner : bytes) (scts : list SignedCertificateTimestamp) :
    CtResult (list SignedCertificateTimestamp) :=
  match inner, fuel with
  | [], _ => Ok scts
  | _, 0 => Panic
  | _, S fuel =>
      '(sct_bytes, inner) ← read_u16_prefixed inner;
      '(sct, sct_cur) ← read_sct sct_bytes;
      if decide (sct_cur ≠ []) then Err TruncatedOrTrailing
      else sct_list_loop fuel inner (scts ++ [sct])
  end.

(** [SctList::from_serialized_list] *)
Definition from_serialized_list (b : bytes) : CtResult (list SignedCertificateTimestamp) :=
  '(body, outer) ← read_u16_prefixed b;
  if decide (outer ≠ []) then Err TruncatedOrTrailing
  else if decide (body = []) then Err ParseError
  else sct_list_loop (length body) body [].

Definition sct_list_from_tls_extension (payload : bytes) :
    CtResult (list SignedCertificateTimestamp) := from_serialized_list payload.

(** ** Delivery in a certificate or an OCSP response *)
Definition SCT_OCSP_OID : ObjectIdentifier := [1; 3; 6; 1; 4; 1; 11129; 2; 4; 5]%N.

(** [der::asn1::OctetString] *)
Record OctetString := { octets : bytes }.

Section delivery.
Context `{DecodeOwned OctetString} `{OcspAsn1}.

(** [SctList::from_extension_value] *)
Definition from_extension_value (ext_value : bytes) : CtResult (list SignedCertificateTimestamp) :=
  inner ← lift_der (λ _, ParseError) (from_der (T:=OctetString) ext_value);
  from_serialized_list (octets inner).

(** [for ext in exts { if ext.extn_id == SCT_OCSP_OID { return .. } }] *)
Definition sct_extension (exts : option (list Extension)) : option Extension :=
  exts ← exts; snd <$> list_find (λ e, extn_id e = SCT_OCSP_OID) exts.

Definition sct_list_from_ocsp_response (ocsp_response_der : bytes) :
    CtResult (option (list SignedCertificateTimestamp)) :=
  response ← lift_der (λ _, ParseError) (from_der (T:=OcspResponse) ocsp_response_der);
  if decide (response_status response ≠ Successful) then Ok None
  else
    response_bytes ← ok_or (response_bytes response) ParseError;
    basic ← lift_der (λ _, ParseError)
              (from_der (T:=BasicOcspResponse) (Ocsp.response response_bytes));
    let tbs := tbs_response_data basic in
    match head (omap (λ single, sct_extension (single_extensions single)) (responses tbs)) with
    | Some ext => Some <$> from_extension_value (extn_value ext)
    | None =>
        match sct_extension (response_extensions tbs) with
        | Some ext => Some <$> from_extension_value (extn_value ext)
        | None => Ok None
        end
    end.
End delivery.

(** ** The encoding *)
Definition is_bytes (b : bytes) : Prop := Forall (λ x, x < 256)%N b.

(** [opaque<0..2^16-1>] *)
Definition prefixed (b : bytes) : bytes := to_be_bytes 2 (N.of_nat (length b)) ++ b.

Definition encode_sct (s : SignedCertificateTimestamp) : bytes :=
  [sct_version s] ++ log_id s ++ to_be_bytes 8 (timestamp_ms s) ++ prefixed (sct_extensions s) ++
  [hash_alg s; sig_alg s] ++ prefixed (sct_signature s).

(** The values a timestamp of version 1 can have. *)
Record sct_ok (s : SignedCertificateTimestamp) : Prop := {
  ok_version : sct_version s = 0%N;
  ok_log_id : is_bytes (log_id s) ∧ length (log_id s) = 32;
  ok_timestamp : (timestamp_ms s < 2 ^ 64)%N;
  ok_extensions : is_bytes (sct_extensions s) ∧ (N.of_nat (length (sct_extensions s)) < 2 ^ 16)%N;
  ok_algs : (hash_alg s < 256)%N ∧ (sig_alg s < 256)%N;
  ok_signature : is_bytes (sct_signature s) ∧ (N.of_nat (length (sct_signature s)) < 2 ^ 16)%N }.

Definition list_body (l : list SignedCertificateTimestamp) : bytes :=
  l ≫= λ s, prefixed (encode_sct s).
Definition encode_list (l : list SignedCertificateTimestamp) : bytes := prefixed (list_body l).

(** *** Octets of numbers *)
Lemma is_bytes_app a b : is_bytes (a ++ b) ↔ is_bytes a ∧ is_bytes b.
Proof. apply Forall_app. Qed.

Lemma is_bytes_take_drop n b : is_bytes b → is_bytes (take n b) ∧ is_bytes (drop n b).
Proof. intros Hb. split; [by apply Forall_take|by apply Forall_drop]. Qed.

Lemma length_to_be_bytes k v : length (to_be_bytes k v) = k.
Proof. induction k as [|k IH]; cbn; congruence. Qed.

Lemma is_bytes_to_be_bytes k v : is_bytes (to_be_bytes k v).
Proof. induction k as [|k IH]; constructor; [|done]. by apply N.mod_lt. Qed.

Lemma to_be_bytes_snoc k v : to_be_bytes (S k) v = to_be_bytes k (v / 256) ++ [(v mod 256)%N].
Proof.
  revert v. induction k as [|k IH]; intros v; [cbn; by rewrite N.div_1_r|].
  remember (S k) as k1. cbn [to_be_bytes]. rewrite IH. subst k1. cbn [to_be_bytes app].
  rewrite Nat2N.inj_succ, N.pow_succ_r', N.Div0.div_div. done.
Qed.

Lemma from_to_be_bytes k v : (v < 256 ^ N.of_nat k)%N → from_be_bytes (to_be_bytes k v) = v.
Proof.
  revert v. induction k as [|k IH]; intros v Hv; [cbn in *; lia|].
  rewrite to_be_bytes_snoc, from_be_bytes_snoc, IH.
  - pose proof (N.div_mod' v 256). lia.
  - rewrite Nat2N.inj_succ, N.pow_succ_r' in Hv. by apply N.Div0.div_lt_upper_bound.
Qed.

Lemma to_from_be_bytes b : is_bytes b → to_be_bytes (length b) (from_be_bytes b) = b.
Proof.
  induction b as [|x b IH] using rev_ind; [done|]. intros [Hb Hx]%is_bytes_app.
  rewrite length_app, Nat.add_1_r, to_be_bytes_snoc, from_be_bytes_snoc. inversion Hx; subst.
  rewrite (N.add_comm _ x), N.div_add, N.div_small, N.Div0.mod_add, N.mod_small by done.
  by rewrite N.add_0_l, IH.
Qed.

(** *** Readers *)

(** The reader accepts exactly the encodings of the values, and leaves the
    octets after them. *)
Definition reads {A} (r : Reader A) (ok : A → Prop) (enc : A → bytes) : Prop :=
  ∀ data x rest, is_bytes data → r data = Ok (x, rest) ↔ ok x ∧ data = enc x ++ rest.

Lemma reader_bind_Ok {A B} (r : Reader A) (k : A → Reader B) data y rest :
  (r ≫= k) data = Ok (y, rest) ↔ ∃ x d, r data = Ok (x, d) ∧ k x d = Ok (y, rest).
Proof.
  unfold mbind, Reader_bind. rewrite bind_Ok. split.
  - intros ([x d] & Hr & Hk). by exists x, d.
  - intros (x & d & Hr & Hk). by exists (x, d).
Qed.

Lemma reads_bytes n : reads (read_bytes n) (λ x, is_bytes x ∧ length x = n) id.
Proof.
  intros data x rest Hb. unfold read_bytes. case_decide as Hl; split.
  - done.
  - intros [[_ Hn] ->]. rewrite length_app in Hl. cbn in Hl. lia.
  - intros [= <- <-]. split; [|cbn; by rewrite take_drop].
    split; [by apply is_bytes_take_drop|rewrite length_take; lia].
  - intros [[_ Hn] ->]. cbn. by rewrite take_app_length', drop_app_length'.
Qed.

(** Reading a value through its octets. *)
Lemma reads_map {A B} (r : Reader A) ok enc (f : A → B) (ok' : B → Prop) (g : B → A) :
  reads r ok enc → (∀ a, ok a → ok' (f a) ∧ g (f a) = a) → (∀ b, ok' b → ok (g b) ∧ f (g b) = b) →
  reads (a ← r; mret (f a)) ok' (λ b, enc (g b)).
Proof.
  intros Hr Hf Hg data y rest Hb. rewrite reader_bind_Ok. split.
  - intros (x & d & Hx & [= <- <-]). apply Hr in Hx as [Ho ->]; [|done].
    destruct (Hf x Ho) as [Ho' Hgf]. by rewrite Hgf.
  - intros [Ho ->]. destruct (Hg y Ho) as [Ho' Hfg]. exists (g y), rest. split; [by apply Hr|].
    unfold mret, Reader_ret. by rewrite Hfg.
Qed.

Lemma reads_be k :
  reads (b ← read_bytes k; mret (from_be_bytes b)) (λ v, (v < 256 ^ N.of_nat k)%N) (to_be_bytes k).
Proof.
  apply (reads_map (read_bytes k) (λ x, is_bytes x ∧ length x = k) id from_be_bytes);
    [apply reads_bytes| |].
  - intros b [Hb <-]. split; [by apply be_bytes_lt|by apply to_from_be_bytes].
  - intros v Hv. split; [split; [apply is_bytes_to_be_bytes|apply length_to_be_bytes]|].
    by apply from_to_be_bytes.
Qed.

Lemma reads_u8 : reads read_u8 (λ x, (x < 256)%N) (λ x, [x]).
Proof.
  intros data y rest Hb. unfold read_u8. rewrite reader_bind_Ok. split.
  - intros (x & d & Hx & Hy). apply reads_bytes in Hx as [[Hx Hl] ->]; [|done].
    destruct x as [|a [|]]; [done| |done]. injection Hy as <- <-. split; [|done]. by inversion Hx.
  - intros [Hy ->]. exists [y], rest. split; [|done]. apply reads_bytes; [done|].
    split; [|done]. split; [|done]. by repeat constructor.
Qed.

Lemma reads_prefixed :
  reads read_u16_prefixed (λ x, is_bytes x ∧ (N.of_nat (length x) < 2 ^ 16)%N) prefixed.
Proof.
  intros data y rest Hb. unfold read_u16_prefixed. rewrite reader_bind_Ok. split.
  - intros (len & d & Hlen & Hy). apply reads_be in Hlen as [Hl ->]; [|done].
    apply is_bytes_app in Hb as [_ Hd]. apply reads_bytes in Hy as [[Hy Hn] ->]; [|done].
    split; [split; [done|]; cbn in Hl; lia|]. unfold prefixed. rewrite Hn, N2Nat.id.
    by rewrite <-app_assoc.
  - intros [[Hy Hl] ->]. exists (N.of_nat (length y)), (y ++ rest). unfold prefixed in *. split.
    + apply reads_be; [done|]. split; [exact Hl|]. by rewrite <-app_assoc.
    + rewrite <-app_assoc in Hb. apply is_bytes_app in Hb as [_ Hb].
      apply reads_bytes; [done|]. rewrite Nat2N.id. done.
Qed.

(** Running a reader on the encoding of a value. *)
Ltac read_step v lem :=
  apply reader_bind_Ok; exists v; eexists; split;
  [apply lem; [assumption|split; [|reflexivity]]
  |match goal with Hb : is_bytes (_ ++ _) |- _ => apply is_bytes_app in Hb as [_ Hb] end].

Lemma reads_sct : reads read_sct sct_ok encode_sct.
Proof.
  intros data s rest Hb. unfold read_sct. split.
  - intros Hr.
    apply reader_bind_Ok in Hr as (v & d1 & Hv & Hr). apply reader_bind_Ok in Hr as ([] & d2 & Hz & Hr).
    apply reader_bind_Ok in Hr as (li & d3 & Hli & Hr). apply reader_bind_Ok in Hr as (ts & d4 & Hts & Hr).
    apply reader_bind_Ok in Hr as (ex & d5 & Hex & Hr). apply reader_bind_Ok in Hr as (ha & d6 & Hha & Hr).
    apply reader_bind_Ok in Hr as (sa & d7 & Hsa & Hr). apply reader_bind_Ok in Hr as (sg & d8 & Hsg & Hr).
    injection Hr as <- <-.
    apply reads_u8 in Hv as [_ ->]; [|done]. apply is_bytes_app in Hb as [_ Hb].
    unfold reader_lift in Hz. apply bind_Ok in Hz as ([] & Hz%fail_if_Ok & [= <-]).
    apply negb_false_iff, bool_decide_eq_true in Hz as ->.
    apply reads_bytes in Hli as [Hlo ->]; [|done]. apply is_bytes_app in Hb as [_ Hb].
    apply reads_be in Hts as [Hto ->]; [|done]. apply is_bytes_app in Hb as [_ Hb].
    apply reads_prefixed in Hex as [Heo ->]; [|done]. apply is_bytes_app in Hb as [_ Hb].
    apply reads_u8 in Hha as [Hho ->]; [|done]. apply is_bytes_app in Hb as [_ Hb].
    apply reads_u8 in Hsa as [Hso ->]; [|done]. apply is_bytes_app in Hb as [_ Hb].
    apply reads_prefixed in Hsg as [Hgo ->]; [|done].
    split; [by split|]. unfold encode_sct. cbn [sct_version log_id timestamp_ms sct_extensions
      hash_alg sig_alg sct_signature id]. by rewrite <-!app_assoc.
  - intros [[Hv Hli Hts Hex [Hha Hsa] Hsg] ->]. unfold encode_sct in *.
    rewrite <-!app_assoc in *. destruct s as [v li ts ex ha sa sg]. cbn in Hv. subst v.
    cbn [sct_version log_id timestamp_ms sct_extensions hash_alg sig_alg sct_signature] in *.
    read_step 0%N reads_u8. { done. }
    apply reader_bind_Ok. exists tt. eexists. split; [done|].
    read_step li reads_bytes. { done. }
    read_step ts (reads_be 8). { done. }
    read_step ex reads_prefixed. { done. }
    change ([ha; sa] ++ prefixed sg ++ rest) with ([ha] ++ [sa] ++ prefixed sg ++ rest) in *.
    read_step ha reads_u8. { done. }
    read_step sa reads_u8. { done. }
    read_step sg reads_prefixed. { done. }
    done.
Qed.

(** *** Lists *)
Lemma no_panic_reader_bind {A B} (r : Reader A) (k : A → Reader B) data :
  no_panic (r data) → (∀ x d, no_panic (k x d)) → no_panic ((r ≫= k) data).
Proof. intros Hr Hk. unfold mbind, Reader_bind. apply no_panic_bind; [done|]. intros [x d] _. apply Hk. Qed.

Lemma no_panic_read_bytes n data : no_panic (read_bytes n data).
Proof. unfold read_bytes. by case_decide. Qed.

Lemma no_panic_read_u8 data : no_panic (read_u8 data).
Proof.
  unfold read_u8, mbind, Reader_bind. apply no_panic_bind; [apply no_panic_read_bytes|].
  intros [x d] Hx. unfold read_bytes in Hx. case_decide as Hl; [done|]. injection Hx as <- <-.
  by destruct data; [cbn in Hl; lia|].
Qed.

Lemma no_panic_read_prefixed data : no_panic (read_u16_prefixed data).
Proof.
  apply no_panic_reader_bind; [|intros; apply no_panic_read_bytes].
  apply no_panic_reader_bind; [apply no_panic_read_bytes|done].
Qed.

Lemma no_panic_read_sct data : no_panic (read_sct data).
Proof.
  unfold read_sct.
  repeat (apply no_panic_reader_bind;
    [first [apply no_panic_read_u8|apply no_panic_read_bytes|apply no_panic_read_prefixed
           |apply no_panic_reader_bind; [apply no_panic_read_bytes|done]
           |unfold reader_lift; by case_bool_decide]
    |intros ? ?]).
  done.
Qed.

(** A serialised entry of a list. *)
Definition entry_ok (s : SignedCertificateTimestamp) : Prop :=
  sct_ok s ∧ (N.of_nat (length (encode_sct s)) < 2 ^ 16)%N.

Lemma sct_entry_Ok inner s rest :
  is_bytes inner →
  (∃ b, read_u16_prefixed inner = Ok (b, rest) ∧ read_sct b = Ok (s, [])) ↔
  entry_ok s ∧ inner = prefixed (encode_sct s) ++ rest.
Proof.
  intros Hb. unfold entry_ok. split.
  - intros (b & Hr & Hs). apply reads_prefixed in Hr as [[Hbb Hl] ->]; [|done].
    apply reads_sct in Hs as [Ho ->]; [|done]. by rewrite app_nil_r in *.
  - intros [[Ho Hl] ->]. unfold prefixed in Hb. rewrite <-app_assoc in Hb.
    apply is_bytes_app in Hb as [Hp Hb]. assert (is_bytes (encode_sct s)) as He
      by (by apply is_bytes_app in Hb as [? _]).
    exists (encode_sct s). split; [|apply reads_sct; [done|by rewrite app_nil_r]].
    apply reads_prefixed; [|done]. unfold prefixed. rewrite <-app_assoc. by apply is_bytes_app.
Qed.

Lemma length_prefixed b : length (prefixed b) = 2 + length b.
Proof. unfold prefixed. by rewrite length_app, length_to_be_bytes. Qed.

Lemma sct_list_loop_Ok fuel inner acc l :
  is_bytes inner → length inner ≤ fuel →
  sct_list_loop fuel inner acc = Ok l ↔
  ∃ l', l = acc ++ l' ∧ Forall entry_ok l' ∧ inner = list_body l'.
Proof.
  revert inner acc. induction fuel as [|fuel IH]; intros inner acc Hb Hf.
  { destruct inner; [|cbn in Hf; lia]. cbn. split.
    - intros [= <-]. exists []. by rewrite app_nil_r.
    - intros ([|s l'] & -> & _ & Hbody); [by rewrite app_nil_r|done]. }
  destruct inner as [|x inner']; [cbn; split|].
  { intros [= <-]. exists []. by rewrite app_nil_r. }
  { intros ([|s l'] & -> & _ & Hbody); [by rewrite app_nil_r|done]. }
  remember (x :: inner') as inner eqn:Hin.
  assert (sct_list_loop (S fuel) inner acc =
    '(sct_bytes, inner) ← read_u16_prefixed inner; '(sct, sct_cur) ← read_sct sct_bytes;
    if decide (sct_cur ≠ []) then Err TruncatedOrTrailing
    else sct_list_loop fuel inner (acc ++ [sct])) as -> by (by subst inner).
  split.
  - intros Hr. apply bind_Ok in Hr as ([b rest] & Hp & Hr).
    apply bind_Ok in Hr as ([s cur] & Hs & Hr). case_decide as Hc; [done|].
    assert (cur = []) as -> by (by destruct cur).
    destruct (proj1 (sct_entry_Ok inner s rest Hb)) as [Hs_ok Heq]; [by exists b|].
    rewrite Heq in Hb, Hf. apply is_bytes_app in Hb as [_ Hb].
    rewrite length_app, length_prefixed in Hf.
    apply IH in Hr as (l' & -> & Hall & ->); [|done|lia].
    exists (s :: l'). split; [by rewrite <-app_assoc|]. split; [by constructor|]. by rewrite Heq.
  - intros ([|s l'] & -> & Hall & Hbody); [by subst inner|]. inversion Hall as [|? ? Ho Hall']; subst.
    rewrite Hbody in *. change (list_body (s :: l')) with (prefixed (encode_sct s) ++ list_body l') in *.
    destruct (proj2 (sct_entry_Ok _ s (list_body l') Hb)) as (b & Hp & Hs); [by split|].
    rewrite Hp. cbn [mbind result_bind]. rewrite Hs. cbn [mbind result_bind].
    rewrite decide_False by auto. apply is_bytes_app in Hb as [_ Hb].
    rewrite length_app, length_prefixed in Hf.
    apply IH; [done|lia|]. exists l'. by rewrite <-app_assoc.
Qed.

Lemma no_panic_sct_list_loop fuel inner acc :
  is_bytes inner → length inner ≤ fuel → no_panic (sct_list_loop fuel inner acc).
Proof.
  revert inner acc. induction fuel as [|fuel IH]; intros inner acc Hb Hf.
  { by destruct inner; [|cbn in Hf; lia]. }
  destruct inner as [|x inner']; [done|]. cbn [sct_list_loop].
  apply no_panic_bind; [apply no_panic_read_prefixed|]. intros [b rest] Hp.
  apply no_panic_bind; [apply no_panic_read_sct|]. intros [s cur] _. case_decide; [done|].
  apply reads_prefixed in Hp as [_ Heq]; [|done]. rewrite Heq in Hb, Hf.
  apply is_bytes_app in Hb as [_ Hb]. rewrite length_app, length_prefixed in Hf.
  apply IH; [done|lia].
Qed.

(** C16: a serialised list is parsed exactly when it is the encoding of a
    non-empty list of timestamps of version 1, which it then returns; parsing
    consumes the whole input, never runs out of fuel and never panics. *)
Theorem from_serialized_list_correct b (Hb : is_bytes b) :
  (∀ l, from_serialized_list b = Ok l ↔
     l ≠ [] ∧ Forall entry_ok l ∧ (N.of_nat (length (list_body l)) < 2 ^ 16)%N ∧ b = encode_list l) ∧
  no_panic (from_serialized_list b).
Proof.
  unfold from_serialized_list. split.
  - intros l. rewrite bind_Ok. split.
    + intros ([body outer] & Hp & Hr). case_decide as Ho; [done|].
      assert (outer = []) as -> by (by destruct outer). case_decide as Hne; [done|].
      apply reads_prefixed in Hp as [[Hbody Hl] ->]; [|done].
      apply sct_list_loop_Ok in Hr as (l' & -> & Hall & ->); [|done..].
      split_and!; [by destruct l'|done|done|]. by rewrite app_nil_r.
    + intros (Hne & Hall & Hl & ->). unfold encode_list in *.
      assert (is_bytes (list_body l)) as Hbody by (by apply is_bytes_app in Hb as [_ ?]).
      exists (list_body l, []). split; [apply reads_prefixed; [done|by rewrite app_nil_r]|].
      rewrite decide_False by auto. rewrite decide_False.
      * apply sct_list_loop_Ok; [done|done|]. by exists l.
      * destruct l as [|s l]; [done|].
        change (list_body (s :: l)) with (prefixed (encode_sct s) ++ list_body l).
        intros Hz. apply (f_equal length) in Hz. rewrite length_app, length_prefixed in Hz. done.
  - apply no_panic_bind; [apply no_panic_read_prefixed|]. intros [body outer] Hp.
    do 2 (case_decide; [done|]). apply reads_prefixed in Hp as [[Hbody _] _]; [|done].
    by apply no_panic_sct_list_loop.
Qed.

(** Two timestamps of different logs. *)
Definition sample_sct (log ts : N) : SignedCertificateTimestamp := {|
  sct_version := 0; log_id := replicate 32 log; timestamp_ms := ts; sct_extensions := [];
  hash_alg := 4; sig_alg := 3; sct_signature := [1; 2; 3]%N |}.

Lemma from_serialized_list_correct_witness :
  is_bytes (encode_list [sample_sct 7 1700000000000; sample_sct 9 5]) ∧
  from_serialized_list (encode_list [sample_sct 7 1700000000000; sample_sct 9 5])
    = Ok [sample_sct 7 1700000000000; sample_sct 9 5].
Proof.
  assert (is_bytes (encode_list [sample_sct 7 1700000000000; sample_sct 9 5])) as Hb.
  { unfold is_bytes. apply (bool_decide_unpack _). vm_compute. exact I. }
  split; [exact Hb|]. apply (from_serialized_list_correct _ Hb). split; [done|].
  split; [|split; [vm_compute; reflexivity|reflexivity]].
  repeat constructor; vm_compute; reflexivity.
Defined.
