(* ===== verification/CtLogList.v ===== *)
(** * The list of trusted logs (pkix-ct/src/log_list.rs)

    [CtLogList] is a map from the identifier of a log, the digest of its key.
    The import of the JSON list is modelled from the decoded JSON on; [serde]
    and [base64] are parameters.  The timestamps of the list are parsed by the
    source itself: [days_from_civil] is related to the calendar by the day after
    a day. *)
From stdpp Require Import gmap.
From S2P Require Import Prelude X509 Merkle Identity.

Record CtLog := {
  ct_log_id : bytes;
  key_der : bytes;
  description : bytes;
  url : bytes;
  usable_from_ms : option N;
  retired_at_ms : option N }.

(** [BTreeMap<[u8; 32], CtLog>] *)
Record CtLogList := { ct_logs : gmap bytes CtLog }.
Definition log_list_new : CtLogList := {| ct_logs := ∅ |}.
Definition log_list_get (log_id : bytes) (l : CtLogList) : option CtLog := ct_logs l !! log_id.
Definition log_list_len (l : CtLogList) : nat := size (ct_logs l).

(** ** Dates *)

(** [i32] and [u32] arithmetic on the four-digit years of the input, which
    stays in range: [Z] with truncated division. *)
Definition days_from_civil (year month day : Z) : CtResult Z :=
  if negb (bool_decide (1 ≤ month ≤ 12)%Z) || negb (bool_decide (1 ≤ day ≤ 31)%Z)
  then Err ParseError
  else
    let y := if decide (month ≤ 2)%Z then (year - 1)%Z else year in
    let era := Z.quot (if decide (0 ≤ y)%Z then y else y - 399)%Z 400 in
    let yoe := (y - era * 400)%Z in
    let m := month in
    let doy := (Z.quot (153 * (if decide (2 < m) then m - 3 else m + 9) + 2) 5 + day - 1)%Z in
    let doe := (yoe * 365 + Z.quot yoe 4 - Z.quot yoe 100 + doy)%Z in
    Ok (era * 146097 + doe - 719468)%Z.

(** [parse_digits]: every octet a digit, checked [u32] arithmetic. *)
Fixpoint parse_digits_loop (out : N) (b : bytes) : CtResult N :=
  match b with
  | [] => Ok out
  | x :: b =>
      if negb (bool_decide (48 ≤ x ≤ 57)%N) then Err ParseError
      else
        out ← ok_or (let v := (out * 10)%N in
                     if decide (v ≤ u32_max)%N then
                       let w := (v + (x - 48))%N in if decide (w ≤ u32_max)%N then Some w else None
                     else None) ParseError;
        parse_digits_loop out b
  end.
Definition parse_digits (b : bytes) : CtResult N := parse_digits_loop 0 b.

(** [&bytes[a..b]] *)
Definition sub_bytes (a b : nat) (s : bytes) : CtResult bytes := slice_range a b s.

(** [padded] with the first three octets of the fraction. *)
Definition pad_fraction (frac : bytes) : bytes := take 3 (frac ++ [48; 48; 48]%N).

Definition parse_rfc3339_to_unix_ms (s : bytes) : CtResult N :=
  if bool_decide (length s < 20) || negb (bool_decide (s !! 10 = Some 84%N))
     || negb (bool_decide (last s = Some 90%N))
  then Err ParseError
  else
    year ← (b ← sub_bytes 0 4 s; parse_digits b);
    month ← (b ← sub_bytes 5 7 s; parse_digits b);
    day ← (b ← sub_bytes 8 10 s; parse_digits b);
    hour ← (b ← sub_bytes 11 13 s; parse_digits b);
    min ← (b ← sub_bytes 14 16 s; parse_digits b);
    sec ← (b ← sub_bytes 17 19 s; parse_digits b);
    b19 ← index s 19;
    frac_ms ← (if decide (b19 = 46)%N then
                 frac_str ← sub_bytes 20 (length s - 1) s;
                 if decide (frac_str = [] ∨ 6 < length frac_str) then Err ParseError
                 else parse_digits (pad_fraction frac_str)
               else if decide (b19 ≠ 90)%N then Err ParseError
               else Ok 0%N);
    days ← days_from_civil (Z.of_N year) (Z.of_N month) (Z.of_N day);
    let secs := (days * 86400 + Z.of_N hour * 3600 + Z.of_N min * 60 + Z.of_N sec)%Z in
    if decide (secs < 0)%Z then Err ParseError
    else Ok (Z.to_N secs * 1000 + frac_ms)%N.

(** ** The JSON list *)
Record LogStateJson := {
  pending : option bytes;
  qualified : option bytes;
  usable : option bytes;
  readonly : option bytes;
  retired : option bytes;
  rejected : option bytes }.
Record LogJson := {
  lj_description : bytes;
  lj_log_id : bytes;
  lj_key : bytes;
  lj_url : bytes;
  lj_state : option LogStateJson }.

Definition is_excluded (s : LogStateJson) : bool :=
  bool_decide (is_Some (rejected s)) || bool_decide (is_Some (pending s)).

(** [serde_json::from_str] for the list, as the logs of each operator, and the
    [decode] of [base64]. *)
Class JsonLib := {
  parse_log_list : bytes → option (list (list LogJson));
  base64_decode : bytes → option bytes }.

Section log_list.
Context `{Sha256} `{JsonLib}.

(** [CtLogList::insert] *)
Definition log_list_insert (log : CtLog) (l : CtLogList) : CtResult CtLogList :=
  if decide (sha256_digest (key_der log) ≠ ct_log_id log) then Err ParseError
  else Ok {| ct_logs := <[ct_log_id log := log]> (ct_logs l) |}.

(** [.map(parse).transpose()?] *)
Definition parse_state (t : option bytes) : CtResult (option N) :=
  match t with Some s => Some <$> parse_rfc3339_to_unix_ms s | None => Ok None end.

(** The body of the loop for a log that is not excluded. *)
Definition import_log (log : LogJson) : CtResult CtLog :=
  log_id ← ok_or (base64_decode (lj_log_id log)) ParseError;
  _ ← fail_if (negb (bool_decide (length log_id = 32))) ParseError;
  key_der ← ok_or (base64_decode (lj_key log)) ParseError;
  usable_from_ms ← parse_state (lj_state log ≫= usable);
  retired_at_ms ← parse_state (s ← lj_state log; match retired s with Some t => Some t | None => readonly s end);
  mret {| ct_log_id := log_id; key_der := key_der; description := lj_description log;
          url := lj_url log; usable_from_ms := usable_from_ms; retired_at_ms := retired_at_ms |}.

Definition log_excluded (log : LogJson) : bool :=
  match lj_state log with Some s => is_excluded s | None => false end.

Definition from_google_log_list_json (json : bytes) : CtResult CtLogList :=
  parsed ← ok_or (parse_log_list json) ParseError;
  try_fold (λ out log,
    if log_excluded log then Ok out else log ← import_log log; log_list_insert log out)
    log_list_new (mjoin parsed).
End log_list.

(** ** The calendar *)
Definition is_leap (year : Z) : bool :=
  bool_decide (year mod 4 = 0 ∧ year mod 100 ≠ 0 ∨ year mod 400 = 0)%Z.

Definition days_in_month (year month : Z) : Z :=
  if decide (month = 2)%Z then if is_leap year then 29 else 28
  else if decide (month = 4 ∨ month = 6 ∨ month = 9 ∨ month = 11)%Z then 30 else 31.

Definition valid_date (year month day : Z) : Prop :=
  (0 ≤ year ∧ 1 ≤ month ≤ 12 ∧ 1 ≤ day ≤ days_in_month year month)%Z.

(** The day after a day of the Gregorian calendar. *)
Definition next_day (year month day : Z) : Z * Z * Z :=
  if decide (day < days_in_month year month)%Z then (year, month, day + 1)%Z
  else if decide (month < 12)%Z then (year, month + 1, 1)%Z else (year + 1, 1, 1)%Z.

(** The days before the first of March of a year, and those of its months. *)
Definition march_days (y : Z) : Z := (365 * y + y / 4 - y / 100 + y / 400)%Z.
Definition day_of_year (month day : Z) : Z :=
  ((153 * (if decide (2 < month) then month - 3 else month + 9) + 2) / 5 + day - 1)%Z.

Lemma days_from_civil_formula year month day :
  (0 ≤ year)%Z → (1 ≤ month ≤ 12)%Z → (1 ≤ day ≤ 31)%Z →
  days_from_civil year month day =
  Ok (march_days (if decide (month ≤ 2) then year - 1 else year) + day_of_year month day - 719468)%Z.
Proof.
  intros Hy Hm Hd. unfold days_from_civil, march_days, day_of_year.
  rewrite !bool_decide_eq_true_2 by done. cbn [negb orb]. cbv zeta. f_equal.
  set (y := if decide (month ≤ 2)%Z then (year - 1)%Z else year).
  assert (-1 ≤ y)%Z by (unfold y; case_decide; lia).
  assert (Z.quot (if decide (0 ≤ y) then y else y - 399) 400 = y / 400)%Z as ->.
  { case_decide; [by apply Z.quot_div_nonneg; lia|]. by assert (y = -1)%Z as -> by lia. }
  set (m9 := if decide (2 < month)%Z then (month - 3)%Z else (month + 9)%Z).
  assert (0 ≤ m9)%Z by (unfold m9; case_decide; lia).
  assert (0 ≤ y - y / 400 * 400)%Z by (pose proof (Z.mod_eq y 400 ltac:(lia));
    pose proof (Z.mod_pos_bound y 400 ltac:(lia)); lia).
  rewrite !Z.quot_div_nonneg by lia. Z.to_euclidean_division_equations. lia.
Qed.

Lemma march_days_next year :
  (march_days year = march_days (year - 1) + 365 + Z.b2z (is_leap year))%Z.
Proof.
  unfold march_days, is_leap. case_bool_decide as Hl; cbn [Z.b2z];
    Z.to_euclidean_division_equations; lia.
Qed.

(** The day number is 0 on the first of January 1970 and grows by one from
    each day of the Gregorian calendar to the next, which determines it. *)
Theorem days_from_civil_correct year month day (Hdate : valid_date year month day) :
  days_from_civil 1970 1 1 = Ok 0%Z ∧
  ∃ n, days_from_civil year month day = Ok n ∧
    let '(year', month', day') := next_day year month day in
    valid_date year' month' day' ∧ days_from_civil year' month' day' = Ok (n + 1)%Z.
Proof.
  split; [done|]. destruct Hdate as (Hy & Hm & Hd).
  assert (1 ≤ days_in_month year month ≤ 31)%Z as Hdim
    by (unfold days_in_month; destruct (is_leap year); repeat case_decide; lia).
  rewrite days_from_civil_formula by lia. eexists. split; [done|]. unfold next_day.
  case_decide as Hlast; [|case_decide as Hdec].
  - split; [split_and!; lia|]. rewrite days_from_civil_formula by lia. f_equal.
    unfold day_of_year. lia.
  - assert (day = days_in_month year month) as -> by lia.
    assert (1 ≤ days_in_month year (month + 1))%Z
      by (unfold days_in_month; destruct (is_leap year); repeat case_decide; lia).
    split; [split_and!; lia|]. rewrite days_from_civil_formula by lia. f_equal.
    pose proof (march_days_next year) as Hmarch. unfold days_in_month, day_of_year in *.
    destruct (is_leap year); cbn [Z.b2z] in *;
      repeat case_decide; Z.to_euclidean_division_equations; lia.
  - assert (month = 12)%Z as -> by lia. change (days_in_month year 12) with 31%Z in *.
    assert (day = 31)%Z as -> by lia.
    split; [split_and!; [lia..|by destruct (is_leap (year + 1))]|].
    rewrite days_from_civil_formula by lia. f_equal.
    rewrite (decide_False (P:=(12 ≤ 2)%Z)), (decide_True (P:=(1 ≤ 2)%Z)) by lia.
    replace (year + 1 - 1)%Z with year by lia.
    change (day_of_year 1 1) with 306%Z. change (day_of_year 12 31) with 305%Z. lia.
Qed.

Lemma days_from_civil_correct_witness :
  valid_date 2000 2 29 ∧ next_day 2000 2 29 = (2000, 3, 1)%Z ∧
  days_from_civil 2000 2 29 = Ok 11016%Z ∧ days_from_civil 2000 3 1 = Ok 11017%Z.
Proof.
  assert (valid_date 2000 2 29) as Hv by (vm_compute; repeat split; discriminate).
  split; [done|]. split; [done|].
  destruct (days_from_civil_correct 2000 2 29 Hv) as (_ & n & Hn & _ & Hn').
  assert (n = 11016)%Z as -> by (vm_compute in Hn; congruence). by split.
Defined.

(** ** The imported list *)
Section log_list_spec.
Context `{Sha256} `{JsonLib}.

(** Each log is filed under the digest of its key. *)
Definition log_list_ok (l : CtLogList) : Prop :=
  map_Forall (λ id log, ct_log_id log = id ∧ sha256_digest (key_der log) = id) (ct_logs l).

Lemma log_list_insert_ok log l l' :
  log_list_ok l → log_list_insert log l = Ok l' → log_list_ok l'.
Proof.
  unfold log_list_insert. intros Hl Hi. case_decide as Hd; [done|]. injection Hi as <-.
  apply map_Forall_insert_2; cbn; [|done]. split; [done|]. by destruct (decide (sha256_digest (key_der log) = ct_log_id log)).
Qed.

(** The entry a log came from. *)
Definition imported_from (e : LogJson) (log : CtLog) : Prop :=
  log_excluded e = false ∧ import_log e = Ok log.

Lemma import_log_usable e log lo :
  import_log e = Ok log → usable_from_ms log = Some lo →
  ∃ s t, lj_state e = Some s ∧ usable s = Some t ∧ parse_rfc3339_to_unix_ms t = Ok lo.
Proof.
  unfold import_log. intros Hi Hu. inv_ok. subst log. cbn in Hu. subst.
  destruct (lj_state e) as [s|]; [|by cbn in *; simplify_eq]. cbn in *.
  destruct (usable s) as [t|] eqn:Ht; cbn in *; [|by simplify_eq].
  exists s, t. split_and!; [done..|].
  match goal with Hp : Some <$> _ = Ok _ |- _ => apply fmap_Ok in Hp as (? & Hp & [= ->]) end. done.
Qed.
End log_list_spec.
