(* ===== verification/Ct.v ===== *)
(** * Verification of signed certificate timestamps and tree heads
    (pkix-ct/src/verify.rs)

    The octets a log signs, the checks [SctVerifier] makes before it trusts a
    signature, the timestamps embedded in a certificate, and the leaf whose
    inclusion in the tree of a log is proved.  [statement] is what a log can
    sign: the specification of the encodings is that they are injective on it. *)
From stdpp Require Import gmap.
From S2P Require Import Prelude X509 Verifier Ocsp Merkle Sct Identity CtLogList.

Definition ENTRY_TYPE_X509 : N := 0.
Definition ENTRY_TYPE_PRECERT : N := 1.
Definition SIG_TYPE_CERTIFICATE_TIMESTAMP : N := 0.
Definition MERKLE_LEAF_TYPE_TIMESTAMPED_ENTRY : N := 0.
Definition SCT_VERSION_V1 : N := 0.
Definition SIG_TYPE_TREE_HASH : N := 1.

Definition OID_SCT_LIST : ObjectIdentifier := [1; 3; 6; 1; 4; 1; 11129; 2; 4; 2]%N.
Definition OID_ECDSA_WITH_SHA256 : ObjectIdentifier := [1; 2; 840; 10045; 4; 3; 2]%N.
Definition OID_ECDSA_WITH_SHA384 : ObjectIdentifier := [1; 2; 840; 10045; 4; 3; 3]%N.
Definition OID_SHA256_WITH_RSA : ObjectIdentifier := [1; 2; 840; 113549; 1; 1; 11]%N.
Definition OID_SHA384_WITH_RSA : ObjectIdentifier := [1; 2; 840; 113549; 1; 1; 12]%N.
Definition OID_SHA512_WITH_RSA : ObjectIdentifier := [1; 2; 840; 113549; 1; 1; 13]%N.

Definition tls_alg_to_x509_oid (hash_alg sig_alg : N) : option ObjectIdentifier :=
  match hash_alg, sig_alg with
  | 4, 3 => Some OID_ECDSA_WITH_SHA256
  | 5, 3 => Some OID_ECDSA_WITH_SHA384
  | 4, 1 => Some OID_SHA256_WITH_RSA
  | 5, 1 => Some OID_SHA384_WITH_RSA
  | 6, 1 => Some OID_SHA512_WITH_RSA
  | _, _ => None
  end%N.

Record SignedTreeHead := {
  sth_tree_size : N;
  sth_timestamp_ms : N;
  sth_root_hash : bytes;
  sth_hash_alg : N;
  sth_sig_alg : N;
  sth_signature : bytes }.

Record SctVerifier (V : Type) := { logs : CtLogList; verifier : V }.
Arguments logs {V}. Arguments verifier {V}.

(** ** The signed octets *)

(** [(len >> 16) & 0xFF] as an octet, then [(len as u16).to_be_bytes()]. *)
Definition u24_prefix (len : N) : bytes :=
  (N.land (N.shiftr len 16) 255 mod 256)%N :: to_be_bytes 2 (len mod 65536).

(** [(extensions.len() as u16).to_be_bytes()], then the extensions. *)
Definition extensions_field (sct : SignedCertificateTimestamp) : bytes :=
  to_be_bytes 2 (N.of_nat (length (sct_extensions sct)) mod 65536) ++ sct_extensions sct.

(** [len() > 0x00FF_FFFF] *)
Definition too_long (b : bytes) : bool := bool_decide (16777215 < N.of_nat (length b))%N.

Definition build_signed_input_tree_head (sth : SignedTreeHead) : bytes :=
  [SCT_VERSION_V1] ++ [SIG_TYPE_TREE_HASH] ++ to_be_bytes 8 (sth_timestamp_ms sth) ++
  to_be_bytes 8 (sth_tree_size sth) ++ sth_root_hash sth.

Definition build_signed_input_x509_entry (sct : SignedCertificateTimestamp) (cert_der : bytes) :
    CtResult bytes :=
  if too_long cert_der then Err CertDerTooLong
  else Ok ([SCT_VERSION_V1] ++ [SIG_TYPE_CERTIFICATE_TIMESTAMP] ++
           to_be_bytes 8 (timestamp_ms sct) ++ to_be_bytes 2 ENTRY_TYPE_X509 ++
           u24_prefix (N.of_nat (length cert_der)) ++ cert_der ++ extensions_field sct).

Definition build_signed_input_precert_entry (sct : SignedCertificateTimestamp)
    (issuer_key_hash tbs_no_sct : bytes) : CtResult bytes :=
  if too_long tbs_no_sct then Err CertDerTooLong
  else Ok ([SCT_VERSION_V1] ++ [SIG_TYPE_CERTIFICATE_TIMESTAMP] ++
           to_be_bytes 8 (timestamp_ms sct) ++ to_be_bytes 2 ENTRY_TYPE_PRECERT ++
           issuer_key_hash ++
           u24_prefix (N.of_nat (length tbs_no_sct)) ++ tbs_no_sct ++ extensions_field sct).

Definition build_merkle_tree_leaf_x509_entry (sct : SignedCertificateTimestamp)
    (cert_der : bytes) : CtResult bytes :=
  if too_long cert_der then Err CertDerTooLong
  else Ok ([SCT_VERSION_V1] ++ [MERKLE_LEAF_TYPE_TIMESTAMPED_ENTRY] ++
           to_be_bytes 8 (timestamp_ms sct) ++ to_be_bytes 2 ENTRY_TYPE_X509 ++
           u24_prefix (N.of_nat (length cert_der)) ++ cert_der ++ extensions_field sct).

Definition build_merkle_tree_leaf_precert_entry (sct : SignedCertificateTimestamp)
    (issuer_key_hash tbs_no_sct : bytes) : CtResult bytes :=
  if too_long tbs_no_sct then Err CertDerTooLong
  else Ok ([SCT_VERSION_V1] ++ [MERKLE_LEAF_TYPE_TIMESTAMPED_ENTRY] ++
           to_be_bytes 8 (timestamp_ms sct) ++ to_be_bytes 2 ENTRY_TYPE_PRECERT ++
           issuer_key_hash ++
           u24_prefix (N.of_nat (length tbs_no_sct)) ++ tbs_no_sct ++ extensions_field sct).

Definition log_window_contains (log : CtLog) (timestamp_ms : N) : bool :=
  match usable_from_ms log with
  | None => false
  | Some lo =>
      if decide (timestamp_ms < lo)%N then false
      else match retired_at_ms log with
           | Some hi => if decide (hi ≤ timestamp_ms)%N then false else true
           | None => true
           end
  end.

(** The decoders and encoders the module calls. *)
Class CtAsn1 := {
  ct_decode_certificate :: DecodeOwned Certificate;
  ct_encode_certificate :: Encode Certificate;
  ct_encode_tbs_certificate :: Encode TbsCertificate;
  ct_decode_spki :: DecodeOwned SubjectPublicKeyInfo;
  ct_encode_spki :: Encode SubjectPublicKeyInfo;
  ct_decode_octet_string :: DecodeOwned OctetString }.

(** [cert.tbs_certificate.extensions = exts] *)
Definition with_extensions (tbs : TbsCertificate) (exts : option (list Extension)) :
    TbsCertificate := {|
  serial_number := serial_number tbs; tbs_signature := tbs_signature tbs; issuer := issuer tbs;
  not_before := not_before tbs; not_after := not_after tbs; subject := subject tbs;
  subject_public_key_info := subject_public_key_info tbs; extensions := exts |}.

Section ct.
Context `{Sha256} `{CtAsn1}.

Definition tbs_without_sct_list (leaf_cert_der : bytes) : CtResult bytes :=
  cert ← lift_der (λ _, ParseError) (from_der (T:=Certificate) leaf_cert_der);
  exts ← ok_or (extensions (tbs_certificate cert)) LeafMissingSctList;
  let before := length exts in
  let exts := filter (λ ext, extn_id ext ≠ OID_SCT_LIST) exts in
  if decide (length exts = before) then Err LeafMissingSctList
  else
    let tbs := with_extensions (tbs_certificate cert)
                 (if decide (exts = []) then None else Some exts) in
    buf ← lift_der (λ _, ParseError) (to_der tbs);
    if too_long buf then Err CertDerTooLong else Ok buf.

Definition issuer_key_hash_from_cert (issuer_cert_der : bytes) : CtResult bytes :=
  issuer ← lift_der (λ _, ParseError) (from_der (T:=Certificate) issuer_cert_der);
  spki_buf ← lift_der (λ _, ParseError) (to_der (subject_public_key_info (tbs_certificate issuer)));
  Ok (sha256_digest spki_buf).

Definition merkle_tree_leaf_for_cert (sct : SignedCertificateTimestamp) (cert_der : bytes) :
    CtResult bytes := build_merkle_tree_leaf_x509_entry sct cert_der.

Definition merkle_tree_leaf_for_precert (sct : SignedCertificateTimestamp)
    (leaf_cert_der issuer_cert_der : bytes) : CtResult bytes :=
  tbs_no_sct ← tbs_without_sct_list leaf_cert_der;
  issuer_key_hash ← issuer_key_hash_from_cert issuer_cert_der;
  build_merkle_tree_leaf_precert_entry sct issuer_key_hash tbs_no_sct.

Context {V : Type} `{SignatureVerifier V}.
Implicit Types self : SctVerifier V.

Definition verify_sct_for_cert self (sct : SignedCertificateTimestamp) (cert_der : bytes) :
    CtResult CtLog :=
  if decide (sct_version sct ≠ SCT_VERSION_V1) then Err (UnsupportedVersion (sct_version sct))
  else
    log ← ok_or (log_list_get (log_id sct) (logs self)) UnknownLog;
    if negb (log_window_contains log (timestamp_ms sct)) then Err SctTimestampOutsideLogWindow
    else
      oid ← ok_or (tls_alg_to_x509_oid (hash_alg sct) (sig_alg sct))
              (UnsupportedSignatureAlgorithm (hash_alg sct) (sig_alg sct));
      signed_input ← build_signed_input_x509_entry sct cert_der;
      spki ← lift_der (λ _, LogKeyMalformed) (from_der (T:=SubjectPublicKeyInfo) (key_der log));
      let alg_id := {| alg_oid := oid; alg_parameters := None |} in
      if verify_signature (verifier self) alg_id spki signed_input (sct_signature sct)
      then Ok log else Err InvalidSignature.

Definition verify_sct_for_precert self (sct : SignedCertificateTimestamp)
    (leaf_cert_der issuer_cert_der : bytes) : CtResult CtLog :=
  if decide (sct_version sct ≠ SCT_VERSION_V1) then Err (UnsupportedVersion (sct_version sct))
  else
    log ← ok_or (log_list_get (log_id sct) (logs self)) UnknownLog;
    if negb (log_window_contains log (timestamp_ms sct)) then Err SctTimestampOutsideLogWindow
    else
      oid ← ok_or (tls_alg_to_x509_oid (hash_alg sct) (sig_alg sct))
              (UnsupportedSignatureAlgorithm (hash_alg sct) (sig_alg sct));
      tbs_no_sct ← tbs_without_sct_list leaf_cert_der;
      issuer_key_hash ← issuer_key_hash_from_cert issuer_cert_der;
      signed_input ← build_signed_input_precert_entry sct issuer_key_hash tbs_no_sct;
      spki ← lift_der (λ _, LogKeyMalformed) (from_der (T:=SubjectPublicKeyInfo) (key_der log));
      let alg_id := {| alg_oid := oid; alg_parameters := None |} in
      if verify_signature (verifier self) alg_id spki signed_input (sct_signature sct)
      then Ok log else Err InvalidSignature.

(** The count saturates at [usize::MAX], which the length of a list is below. *)
Definition verify_embedded_scts self (leaf_cert issuer_cert : Certificate) : CtResult nat :=
  exts ← ok_or (extensions (tbs_certificate leaf_cert)) NoScts;
  ext ← ok_or (snd <$> list_find (λ e, extn_id e = OID_SCT_LIST) exts) NoScts;
  scts ← from_extension_value (extn_value ext);
  if decide (scts = []) then Err NoScts
  else
    leaf_der ← lift_der (λ _, ParseError) (to_der leaf_cert);
    issuer_der ← lift_der (λ _, ParseError) (to_der issuer_cert);
    Ok (foldl (λ valid sct,
          if to_ok (verify_sct_for_precert self sct leaf_der issuer_der) is Some _
          then S valid else valid)
        0 scts).

Definition verify_inclusion self (leaf_hash : Hash32) (proof : MerkleAuditPath)
    (root_hash : Hash32) : CtResult unit := verify_inclusion_inner leaf_hash proof root_hash.

Definition verify_sth self (log_id : bytes) (sth : SignedTreeHead) : CtResult CtLog :=
  log ← ok_or (log_list_get log_id (logs self)) UnknownLog;
  oid ← ok_or (tls_alg_to_x509_oid (sth_hash_alg sth) (sth_sig_alg sth))
          (UnsupportedSignatureAlgorithm (sth_hash_alg sth) (sth_sig_alg sth));
  let signed_input := build_signed_input_tree_head sth in
  spki ← lift_der (λ _, LogKeyMalformed) (from_der (T:=SubjectPublicKeyInfo) (key_der log));
  let alg_id := {| alg_oid := oid; alg_parameters := None |} in
  if verify_signature (verifier self) alg_id spki signed_input (sth_signature sth)
  then Ok log else Err InvalidSignature.
End ct.
