(* ===== verification/CtSpec.v ===== *)
(** * What the verification of timestamps guarantees (pkix-ct)

    The octets a log signs determine what it signed; the checks of the three
    entry points, exactly; the number of valid timestamps of a certificate; and
    what is known of a log that was imported. *)
From stdpp Require Import gmap.
From S2P Require Import Prelude X509 Verifier Samples Ocsp Merkle Sct Identity CtLogList Ct.

(** ** The signed octets *)

(** What a log signs (RFC 6962 3.2, 3.5). *)
Inductive statement :=
| CertStatement (ts : N) (cert exts : bytes)
| PrecertStatement (ts : N) (issuer_key_hash tbs exts : bytes)
| TreeHeadStatement (ts size : N) (root : bytes).

(** [opaque<1..2^24-1>] *)
Definition opaque24 (b : bytes) : bytes := to_be_bytes 3 (N.of_nat (length b)) ++ b.

Definition rfc_encode (s : statement) : bytes :=
  match s with
  | CertStatement ts cert exts =>
      [0; 0]%N ++ to_be_bytes 8 ts ++ [0; 0]%N ++ opaque24 cert ++ prefixed exts
  | PrecertStatement ts ikh tbs exts =>
      [0; 0]%N ++ to_be_bytes 8 ts ++ [0; 1]%N ++ ikh ++ opaque24 tbs ++ prefixed exts
  | TreeHeadStatement ts size root => [0; 1]%N ++ to_be_bytes 8 ts ++ to_be_bytes 8 size ++ root
  end.

(** The sizes the fields of the source have by their types. *)
Definition statement_ok (s : statement) : Prop :=
  match s with
  | CertStatement ts cert exts =>
      (ts < 2 ^ 64 ∧ N.of_nat (length cert) < 2 ^ 24 ∧ N.of_nat (length exts) < 2 ^ 16)%N
  | PrecertStatement ts ikh tbs exts =>
      (ts < 2 ^ 64 ∧ N.of_nat (length tbs) < 2 ^ 24 ∧ N.of_nat (length exts) < 2 ^ 16)%N ∧
      length ikh = 32
  | TreeHeadStatement ts size root => (ts < 2 ^ 64 ∧ size < 2 ^ 64)%N
  end.

Lemma to_be_bytes_inj k v w x y :
  (v < 256 ^ N.of_nat k)%N → (w < 256 ^ N.of_nat k)%N →
  to_be_bytes k v ++ x = to_be_bytes k w ++ y → v = w ∧ x = y.
Proof.
  intros Hv Hw Heq. apply app_inj_1 in Heq as [Heq ->]; [|by rewrite !length_to_be_bytes].
  split; [|done]. by rewrite <-(from_to_be_bytes k v), <-(from_to_be_bytes k w), Heq.
Qed.

(** A field behind its length. *)
Lemma length_prefixed_inj k (b c x y : bytes) :
  (N.of_nat (length b) < 256 ^ N.of_nat k)%N → (N.of_nat (length c) < 256 ^ N.of_nat k)%N →
  (to_be_bytes k (N.of_nat (length b)) ++ b) ++ x = (to_be_bytes k (N.of_nat (length c)) ++ c) ++ y →
  b = c ∧ x = y.
Proof.
  intros Hb Hc Heq. rewrite <-!app_assoc in Heq.
  apply to_be_bytes_inj in Heq as [Hl Heq]; [|done..]. apply Nat2N.inj in Hl.
  by apply app_inj_1 in Heq.
Qed.

Lemma opaque_fields_inj (b c x y : bytes) :
  (N.of_nat (length b) < 2 ^ 24)%N → (N.of_nat (length c) < 2 ^ 24)%N →
  (N.of_nat (length x) < 2 ^ 16)%N → (N.of_nat (length y) < 2 ^ 16)%N →
  opaque24 b ++ prefixed x = opaque24 c ++ prefixed y → b = c ∧ x = y.
Proof.
  intros Hb Hc Hx Hy Heq. apply (length_prefixed_inj 3) in Heq as [-> Heq]; [|done..].
  split; [done|]. apply (length_prefixed_inj 2 x y [] []); [done..|]. unfold prefixed in Heq.
  by rewrite Heq.
Qed.

Lemma rfc_encode_inj s t :
  statement_ok s → statement_ok t → rfc_encode s = rfc_encode t → s = t.
Proof.
  destruct s as [ts cert exts|ts ikh tbs exts|ts size root],
    t as [ts' cert' exts'|ts' ikh' tbs' exts'|ts' size' root'];
    cbn [statement_ok rfc_encode]; intros Hs Ht Heq; repeat destruct_and?;
    (apply app_inj_1 in Heq as [Hh Heq]; [|done]); try discriminate Hh; clear Hh;
    apply to_be_bytes_inj in Heq as [<- Heq]; try done.
  - apply app_inj_1 in Heq as [_ Heq]; [|done]. by apply opaque_fields_inj in Heq as [<- <-].
  - apply app_inj_1 in Heq as [_ Heq]; [|done]. apply app_inj_1 in Heq as [<- Heq]; [|congruence].
    by apply opaque_fields_inj in Heq as [<- <-].
  - by apply to_be_bytes_inj in Heq as [<- <-].
Qed.

Lemma u24_prefix_be len : (len < 2 ^ 24)%N → u24_prefix len = to_be_bytes 3 len.
Proof.
  intros Hl. unfold u24_prefix. cbn [to_be_bytes]. rewrite N.shiftr_div_pow2.
  change 255%N with (N.ones 8). rewrite N.land_ones.
  change (256 ^ N.of_nat 2)%N with 65536%N. change (256 ^ N.of_nat 1)%N with 256%N.
  change (256 ^ N.of_nat 0)%N with 1%N. change (2 ^ 16)%N with 65536%N. change (2 ^ 8)%N with 256%N.
  rewrite !N.div_1_r, N.Div0.mod_mod. f_equal. f_equal; [|f_equal].
  - zify. Z.to_euclidean_division_equations. lia.
  - zify. Z.to_euclidean_division_equations. lia.
Qed.

Lemma too_long_false b : too_long b = false ↔ (N.of_nat (length b) < 2 ^ 24)%N.
Proof. unfold too_long. rewrite bool_decide_eq_false. change (2 ^ 24)%N with 16777216%N. lia. Qed.

Lemma extensions_field_prefixed sct :
  (N.of_nat (length (sct_extensions sct)) < 2 ^ 16)%N →
  extensions_field sct = prefixed (sct_extensions sct).
Proof. intros Hl. unfold extensions_field, prefixed. by rewrite N.mod_small. Qed.

(** The octets the source builds for a statement, and its timestamp. *)
Inductive source_input : statement → bytes → Prop :=
| input_cert sct cert b :
    build_signed_input_x509_entry sct cert = Ok b →
    source_input (CertStatement (timestamp_ms sct) cert (sct_extensions sct)) b
| input_precert sct ikh tbs b :
    build_signed_input_precert_entry sct ikh tbs = Ok b →
    source_input (PrecertStatement (timestamp_ms sct) ikh tbs (sct_extensions sct)) b
| input_tree_head sth :
    source_input (TreeHeadStatement (sth_timestamp_ms sth) (sth_tree_size sth) (sth_root_hash sth))
      (build_signed_input_tree_head sth).

Lemma x509_entry_Ok sct cert b :
  (N.of_nat (length (sct_extensions sct)) < 2 ^ 16)%N →
  build_signed_input_x509_entry sct cert = Ok b ↔
  (N.of_nat (length cert) < 2 ^ 24)%N ∧
  b = rfc_encode (CertStatement (timestamp_ms sct) cert (sct_extensions sct)).
Proof.
  intros He. unfold build_signed_input_x509_entry. rewrite <-too_long_false.
  destruct (too_long cert) eqn:Hl; [naive_solver|]. apply too_long_false in Hl.
  rewrite u24_prefix_be, extensions_field_prefixed by done. cbn [rfc_encode]. unfold opaque24.
  rewrite <-!app_assoc. cbn [app]. naive_solver.
Qed.

Lemma precert_entry_Ok sct ikh tbs b :
  (N.of_nat (length (sct_extensions sct)) < 2 ^ 16)%N →
  build_signed_input_precert_entry sct ikh tbs = Ok b ↔
  (N.of_nat (length tbs) < 2 ^ 24)%N ∧
  b = rfc_encode (PrecertStatement (timestamp_ms sct) ikh tbs (sct_extensions sct)).
Proof.
  intros He. unfold build_signed_input_precert_entry. rewrite <-too_long_false.
  destruct (too_long tbs) eqn:Hl; [naive_solver|]. apply too_long_false in Hl.
  rewrite u24_prefix_be, extensions_field_prefixed by done. cbn [rfc_encode]. unfold opaque24.
  rewrite <-!app_assoc. cbn [app]. naive_solver.
Qed.

(** The fields fit the types of the source: what is left of [statement_ok]
    when the length of the certificate is not yet known. *)
Definition fields_ok (s : statement) : Prop :=
  match s with
  | CertStatement ts _ exts => (ts < 2 ^ 64 ∧ N.of_nat (length exts) < 2 ^ 16)%N
  | PrecertStatement ts ikh _ exts =>
      (ts < 2 ^ 64 ∧ N.of_nat (length exts) < 2 ^ 16)%N ∧ length ikh = 32
  | TreeHeadStatement ts size _ => (ts < 2 ^ 64 ∧ size < 2 ^ 64)%N
  end.

Lemma source_input_rfc s b :
  fields_ok s → source_input s b → statement_ok s ∧ b = rfc_encode s.
Proof.
  intros Hs Hb. destruct Hb as [sct cert b Hb|sct ikh tbs b Hb|sth]; cbn in Hs; destruct_and?.
  - by apply x509_entry_Ok in Hb as [Hl ->].
  - by apply precert_entry_Ok in Hb as [Hl ->].
  - done.
Qed.

(** The octets signed for a certificate, for a precertificate and for a
    tree head are those of RFC 6962, and equal octets come from the same kind
    of statement with the same fields, so that a signature of a log over one
    statement is never one over another. *)
Theorem signed_input_unambiguous s1 s2 b1 b2
    (Hs1 : fields_ok s1) (Hs2 : fields_ok s2)
    (Hb1 : source_input s1 b1) (Hb2 : source_input s2 b2) :
  b1 = rfc_encode s1 ∧ b2 = rfc_encode s2 ∧ (b1 = b2 ↔ s1 = s2).
Proof.
  destruct (source_input_rfc s1 b1 Hs1 Hb1) as [Ho1 ->].
  destruct (source_input_rfc s2 b2 Hs2 Hb2) as [Ho2 ->].
  split_and!; [done..|]. split; [by apply rfc_encode_inj|congruence].
Qed.

Lemma signed_input_unambiguous_witness :
  let sct := sample_sct 7 5 in
  fields_ok (CertStatement 5 [1; 2]%N []) ∧
  (∃ b, build_signed_input_x509_entry sct [1; 2]%N = Ok b ∧
        b = [0;0; 0;0;0;0;0;0;0;5; 0;0; 0;0;2; 1;2; 0;0]%N ∧
        (b = b ↔ CertStatement 5 [1; 2]%N [] = CertStatement 5 [1; 2]%N [])).
Proof.
  cbv zeta. split; [done|]. eexists. split; [vm_compute; reflexivity|]. split; [reflexivity|].
  apply (signed_input_unambiguous (CertStatement 5 [1; 2]%N []) (CertStatement 5 [1; 2]%N []));
    [done|done|by apply (input_cert (sample_sct 7 5))..].
Defined.

(** ** The entry points *)
Section entry_points.
Context `{Sha256} `{CtAsn1} {V : Type} `{SignatureVerifier V}.
Implicit Types self : SctVerifier V.

(** The log with an identifier is trusted at a time. *)
Definition trusted_log self (id : bytes) (log : CtLog) : Prop :=
  ct_logs (logs self) !! id = Some log.
Definition in_window (log : CtLog) (ts : N) : Prop :=
  (∃ lo, usable_from_ms log = Some lo ∧ (lo ≤ ts)%N) ∧
  (∀ hi, retired_at_ms log = Some hi → (ts < hi)%N).

(** The key of the log signed a statement, by an algorithm of TLS. *)
Definition signed_by self (log : CtLog) (hash_alg sig_alg : N) (input sig : bytes) : Prop :=
  ∃ oid spki, tls_alg_to_x509_oid hash_alg sig_alg = Some oid ∧
    from_der (T:=SubjectPublicKeyInfo) (key_der log) = inr spki ∧
    verify_signature (verifier self) {| alg_oid := oid; alg_parameters := None |} spki
      input sig = true.

(** The certificate without the list of timestamps it must have. *)
Definition is_sct_list (e : Extension) : Prop := extn_id e = OID_SCT_LIST.
Definition stripped (leaf_der tbs : bytes) : Prop :=
  ∃ cert exts, from_der (T:=Certificate) leaf_der = inr cert ∧
    extensions (tbs_certificate cert) = Some exts ∧ Exists is_sct_list exts ∧
    to_der (with_extensions (tbs_certificate cert)
      (if decide (Forall is_sct_list exts) then None
       else Some (filter (λ e, ¬ is_sct_list e) exts))) = inr tbs.
Definition key_hash_of (issuer_der ikh : bytes) : Prop :=
  ∃ cert spki_der, from_der (T:=Certificate) issuer_der = inr cert ∧
    to_der (subject_public_key_info (tbs_certificate cert)) = inr spki_der ∧ ikh = sha256_digest spki_der.

Lemma log_window_contains_spec log ts : log_window_contains log ts = true ↔ in_window log ts.
Proof.
  unfold log_window_contains, in_window.
  destruct (usable_from_ms log) as [lo|]; [|naive_solver].
  case_decide as Hlo; [split; [done|]; intros [(? & [= <-] & ?) _]; lia|].
  destruct (retired_at_ms log) as [hi|].
  - case_decide as Hhi; split; try done.
    + intros [_ Hw]. specialize (Hw hi eq_refl). lia.
    + intros _. split; [exists lo; split; [done|lia]|]. intros ? [= <-]. lia.
  - split; [|done]. intros _. split; [exists lo; split; [done|lia]|done].
Qed.

Lemma tbs_without_sct_list_Ok leaf tbs :
  tbs_without_sct_list leaf = Ok tbs ↔ stripped leaf tbs ∧ (N.of_nat (length tbs) < 2 ^ 24)%N.
Proof.
  unfold tbs_without_sct_list, stripped. rewrite bind_Ok. setoid_rewrite lift_der_Ok.
  setoid_rewrite bind_Ok. setoid_rewrite ok_or_Ok.
  assert (∀ exts : list Extension,
    length (filter (λ e, extn_id e ≠ OID_SCT_LIST) exts) = length exts ↔ ¬ Exists is_sct_list exts) as Hf.
  { intros exts. rewrite length_filter_full. apply Forall_Exists_neg. }
  assert (∀ exts : list Extension,
    filter (λ e, extn_id e ≠ OID_SCT_LIST) exts = [] ↔ Forall is_sct_list exts) as Hnil.
  { intros exts. rewrite filter_nil_Forall. apply Forall_iff. intros e. unfold is_sct_list.
    destruct (decide (extn_id e = OID_SCT_LIST)); tauto. }
  assert (∀ exts : list Extension,
    (if decide (filter (λ e, extn_id e ≠ OID_SCT_LIST) exts = []) then None
     else Some (filter (λ e, extn_id e ≠ OID_SCT_LIST) exts)) =
    (if decide (Forall is_sct_list exts) then None
     else Some (filter (λ e, ¬ is_sct_list e) exts))) as Hif.
  { intros exts. by rewrite (decide_ext _ _ _ _ (Hnil exts)). }
  split.
  - intros (cert & Hc & exts & He & Hr). case_decide as Hl; [done|]. rewrite Hif in Hr. inv_ok.
    apply lift_der_Ok in Hr0. destruct (too_long r) eqn:Ht; [done|]. injection Hr as <-.
    split; [|by apply too_long_false]. exists cert, exts. split_and!; [done..| |done].
    destruct (decide (Exists is_sct_list exts)); [done|]. by rewrite <-Hf in n.
  - intros [(cert & exts & Hc & He & Hx & Ht) Hl]. exists cert. split; [done|]. exists exts.
    split; [done|]. rewrite decide_False by (rewrite Hf; tauto). rewrite Hif, Ht.
    cbn [lift_der mbind result_bind]. apply too_long_false in Hl. by rewrite Hl.
Qed.

Lemma issuer_key_hash_Ok issuer ikh :
  issuer_key_hash_from_cert issuer = Ok ikh ↔ key_hash_of issuer ikh.
Proof.
  unfold issuer_key_hash_from_cert, key_hash_of. rewrite bind_Ok. setoid_rewrite lift_der_Ok.
  setoid_rewrite bind_Ok. setoid_rewrite lift_der_Ok. naive_solver.
Qed.

(** The checks of a timestamp over given octets. *)
Definition sct_accepted self (sct : SignedCertificateTimestamp) (input : bytes) (log : CtLog) : Prop :=
  sct_version sct = 0%N ∧ trusted_log self (log_id sct) log ∧ in_window log (timestamp_ms sct) ∧
  signed_by self log (hash_alg sct) (sig_alg sct) input (sct_signature sct).

Lemma trusted_log_Ok self id log :
  ok_or (log_list_get id (logs self)) UnknownLog = Ok log ↔ trusted_log self id log.
Proof. apply ok_or_Ok. Qed.

Lemma verify_sct_for_cert_Ok self sct cert log :
  verify_sct_for_cert self sct cert = Ok log ↔
  ∃ b, build_signed_input_x509_entry sct cert = Ok b ∧ sct_accepted self sct b log.
Proof.
  unfold verify_sct_for_cert. unfold sct_accepted, signed_by. split.
  - intros Hr. case_decide as Hv; [done|]. inv_ok.
    destruct (log_window_contains _ _) eqn:Hw; [|done].
    apply log_window_contains_spec in Hw. cbn [negb] in Hr. inv_ok.
    rename r0 into oid, r1 into b, r2 into spki. apply lift_der_Ok in Hr3.
    destruct (verify_signature _ _ _ _ _) eqn:Hs; [|done]. injection Hr as <-.
    exists b. split; [done|]. split_and!; [done..|]. by exists oid, spki.
  - intros (b & Hb & Hv & Hlog & Hw & oid & spki & Ho & Hk & Hs).
    rewrite decide_False by (by intros []). apply trusted_log_Ok in Hlog as ->.
    apply log_window_contains_spec in Hw. cbn [mbind result_bind]. rewrite Hw, Ho. cbn.
    by rewrite Hb, Hk; cbn; rewrite Hs.
Qed.

Lemma verify_sct_for_precert_Ok self sct leaf issuer log :
  verify_sct_for_precert self sct leaf issuer = Ok log ↔
  ∃ tbs ikh b, tbs_without_sct_list leaf = Ok tbs ∧ issuer_key_hash_from_cert issuer = Ok ikh ∧
    build_signed_input_precert_entry sct ikh tbs = Ok b ∧ sct_accepted self sct b log.
Proof.
  unfold verify_sct_for_precert. unfold sct_accepted, signed_by. split.
  - intros Hr. case_decide as Hv; [done|]. inv_ok.
    destruct (log_window_contains _ _) eqn:Hw; [|done].
    apply log_window_contains_spec in Hw. cbn [negb] in Hr. inv_ok.
    rename r0 into oid, r1 into tbs, r2 into ikh, r3 into b, r4 into spki. apply lift_der_Ok in Hr5.
    destruct (verify_signature _ _ _ _ _) eqn:Hs; [|done]. injection Hr as <-.
    exists tbs, ikh, b. do 3 (split; [done|]). split_and!; [done..|]. by exists oid, spki.
  - intros (tbs & ikh & b & Ht & Hi & Hb & Hv & Hlog & Hw & oid & spki & Ho & Hk & Hs).
    rewrite decide_False by (by intros []). apply trusted_log_Ok in Hlog as ->.
    apply log_window_contains_spec in Hw. cbn [mbind result_bind]. rewrite Hw, Ho. cbn.
    by rewrite Ht; cbn; rewrite Hi; cbn; rewrite Hb, Hk; cbn; rewrite Hs.
Qed.

Lemma verify_sth_Ok self id sth log :
  verify_sth self id sth = Ok log ↔
  trusted_log self id log ∧
  signed_by self log (sth_hash_alg sth) (sth_sig_alg sth) (build_signed_input_tree_head sth)
    (sth_signature sth).
Proof.
  unfold verify_sth, signed_by. split.
  - intros Hr. inv_ok. apply lift_der_Ok in Hr2.
    destruct (verify_signature _ _ _ _ _) eqn:Hs; [|done]. injection Hr as <-.
    split; [done|]. by eexists _, _.
  - intros (Hlog & oid & spki & Ho & Hk & Hs). apply trusted_log_Ok in Hlog as ->. cbn [mbind result_bind].
    by rewrite Ho; cbn [ok_or mbind result_bind]; rewrite Hk; cbn [lift_der mbind result_bind]; rewrite Hs.
Qed.

(** C15: a timestamp is accepted exactly when it is of version 1, its log is
    trusted and the time within the window of the log, and the key of the log
    signed the RFC 6962 statement over the certificate, or over the certificate
    without its list of timestamps and the hash of the issuer's key; a tree
    head exactly when the key of the log signed it. *)
Theorem verify_sct_correct self sct log
    (He : (N.of_nat (length (sct_extensions sct)) < 2 ^ 16)%N) :
  (∀ cert, verify_sct_for_cert self sct cert = Ok log ↔
     (N.of_nat (length cert) < 2 ^ 24)%N ∧
     sct_accepted self sct
       (rfc_encode (CertStatement (timestamp_ms sct) cert (sct_extensions sct))) log) ∧
  (∀ leaf issuer, verify_sct_for_precert self sct leaf issuer = Ok log ↔
     ∃ tbs ikh, stripped leaf tbs ∧ (N.of_nat (length tbs) < 2 ^ 24)%N ∧ key_hash_of issuer ikh ∧
       sct_accepted self sct
         (rfc_encode (PrecertStatement (timestamp_ms sct) ikh tbs (sct_extensions sct))) log) ∧
  (∀ id sth, verify_sth self id sth = Ok log ↔
     trusted_log self id log ∧
     signed_by self log (sth_hash_alg sth) (sth_sig_alg sth)
       (rfc_encode (TreeHeadStatement (sth_timestamp_ms sth) (sth_tree_size sth) (sth_root_hash sth)))
       (sth_signature sth)).
Proof.
  split_and!.
  - intros cert. rewrite verify_sct_for_cert_Ok. setoid_rewrite x509_entry_Ok; [|done].
    naive_solver.
  - intros leaf issuer. rewrite verify_sct_for_precert_Ok.
    setoid_rewrite tbs_without_sct_list_Ok. setoid_rewrite issuer_key_hash_Ok.
    setoid_rewrite precert_entry_Ok; [|done]. naive_solver.
  - intros id sth. apply verify_sth_Ok.
Qed.

(** The count of the valid embedded timestamps is an error only when the
    certificate has no list, the first one does not parse, it is empty or a
    certificate cannot be encoded; otherwise it is the number of timestamps of
    the list that are accepted, one that is not never being an error. *)
Theorem verify_embedded_scts_correct self leaf issuer n :
  verify_embedded_scts self leaf issuer = Ok n ↔
  ∃ exts i ext scts leaf_der issuer_der,
    extensions (tbs_certificate leaf) = Some exts ∧ exts !! i = Some ext ∧ is_sct_list ext ∧
    (∀ j e, j < i → exts !! j = Some e → ¬ is_sct_list e) ∧
    from_extension_value (extn_value ext) = Ok scts ∧ scts ≠ [] ∧
    to_der leaf = inr leaf_der ∧ to_der issuer = inr issuer_der ∧
    n = length (filter (λ sct, is_Some (to_ok (verify_sct_for_precert self sct leaf_der issuer_der))) scts).
Proof.
  assert (∀ leaf_der issuer_der scts,
    foldl (λ valid sct, if to_ok (verify_sct_for_precert self sct leaf_der issuer_der) is Some _
      then S valid else valid) 0 scts =
    length (filter (λ sct, is_Some (to_ok (verify_sct_for_precert self sct leaf_der issuer_der))) scts))
    as Hcount.
  { intros ld id scts. apply (foldl_count _ _ 0 scts). intros m x. case_decide as Hx.
    - by destruct Hx as [? ->].
    - destruct (to_ok _) eqn:Ht; [|done]. exfalso. apply Hx. by eexists. }
  unfold verify_embedded_scts. split.
  - intros Hr. inv_ok. case_decide as Hne; [done|]. inv_ok. apply lift_der_Ok in Hr3, Hr4.
    apply fmap_Some in Hr1 as ([i ext] & Hf & ->). apply list_find_Some in Hf as (Hi & He & Hj).
    rewrite Hcount in Hr. subst n. exists r, i, ext, r1, r2, r3. split_and!; try done.
    intros j e Hlt Hl. by eapply Hj.
  - intros (exts & i & ext & scts & ld & id & He & Hi & Hx & Hj & Hs & Hne & Hl & Hd & ->).
    rewrite He. cbn [ok_or mbind result_bind].
    assert (list_find (λ e, extn_id e = OID_SCT_LIST) exts = Some (i, ext)) as ->.
    { apply list_find_Some. split_and!; [done..|]. intros j e Hje Hlt. by eapply Hj. }
    cbn [fmap option_fmap option_map snd ok_or mbind result_bind]. rewrite Hs.
    cbn [mbind result_bind]. rewrite decide_False by done. rewrite Hl. cbn [lift_der mbind result_bind].
    rewrite Hd. cbn [lift_der mbind result_bind]. by rewrite Hcount.
Qed.
End entry_points.

(** ** The imported list of logs *)
Section imported.
Context `{Sha256} `{JsonLib}.

(** Adding the logs of some entries to a list. *)
Lemma import_fold entries l l' :
  try_fold (λ out log,
    if log_excluded log then Ok out else log ← import_log log; log_list_insert log out) l entries
    = Ok l' →
  (∀ id log, ct_logs l' !! id = Some log →
     ct_logs l !! id = Some log ∨
     (∃ e, e ∈ entries ∧ imported_from e log) ∧ ct_log_id log = id ∧ sha256_digest (key_der log) = id) ∧
  (∀ id, is_Some (ct_logs l !! id) → is_Some (ct_logs l' !! id)) ∧
  (∀ e, e ∈ entries → log_excluded e = false →
     ∃ log, import_log e = Ok log ∧ is_Some (ct_logs l' !! ct_log_id log)).
Proof.
  revert l. induction entries as [|e entries IH]; intros l Hf; cbn [try_fold] in Hf.
  { injection Hf as <-. split_and!; [by left|done|]. by intros e ?%elem_of_nil. }
  apply bind_Ok in Hf as (l1 & H1 & Hf). apply IH in Hf as (Hsrc & Hmono & Hall).
  destruct (log_excluded e) eqn:Hx.
  { injection H1 as ->. split_and!; [|done|].
    - intros id log Hl. destruct (Hsrc id log Hl) as [?|((e' & He & ?) & ?)]; [by left|right].
      split; [|done]. exists e'. split; [by right|done].
    - intros e' [->|He]%elem_of_cons Hx'; [congruence|by apply Hall]. }
  apply bind_Ok in H1 as (log1 & Hi & H1). unfold log_list_insert in H1.
  case_decide as Hd; [done|]. injection H1 as <-. cbn [ct_logs] in *. split_and!.
  - intros id log Hl. destruct (Hsrc id log Hl) as [Hin|((e' & He & ?) & ?)].
    + destruct (decide (ct_log_id log1 = id)) as [<-|Hne].
      * rewrite lookup_insert_eq in Hin. injection Hin as <-. right. split; [|done].
        exists e. split; [by left|done].
      * rewrite lookup_insert_ne in Hin by done. by left.
    + right. split; [|done]. exists e'. split; [by right|done].
  - intros id Hid. apply Hmono. destruct (decide (ct_log_id log1 = id)) as [<-|Hne];
      [by rewrite lookup_insert_eq|by rewrite lookup_insert_ne].
  - intros e' [->|He]%elem_of_cons Hx'; [|by apply Hall]. exists log1. split; [done|].
    apply Hmono. by rewrite lookup_insert_eq.
Qed.

(** An imported list files each log under the digest of its key; it holds
    exactly the identifiers of the entries that are neither pending nor
    rejected; and a log of it is trusted at a time only when its entry has the
    state [usable], from before that time. *)
Theorem imported_log_list_correct json parsed l
    (Hp : parse_log_list json = Some parsed) (Hl : from_google_log_list_json json = Ok l) :
  log_list_ok l ∧
  (∀ id, is_Some (ct_logs l !! id) ↔
     ∃ e log, e ∈ mjoin parsed ∧ imported_from e log ∧ ct_log_id log = id) ∧
  (∀ id log ts, ct_logs l !! id = Some log → log_window_contains log ts = true →
     ∃ e s t lo, e ∈ mjoin parsed ∧ lj_state e = Some s ∧ usable s = Some t ∧
       parse_rfc3339_to_unix_ms t = Ok lo ∧ (lo ≤ ts)%N).
Proof.
  unfold from_google_log_list_json in Hl. rewrite Hp in Hl. cbn [ok_or mbind result_bind] in Hl.
  apply import_fold in Hl as (Hsrc & _ & Hall). split_and!.
  - intros id log Hlog. by destruct (Hsrc id log Hlog) as [Hn|[_ ?]].
  - intros id. split.
    + intros [log Hlog]. destruct (Hsrc id log Hlog) as [Hn|((e & He & Hi) & Hid & _)]; [done|].
      by exists e, log.
    + intros (e & log & He & [Hx Hi] & <-). destruct (Hall e He Hx) as (log' & Hi' & Hs).
      by assert (log' = log) as <- by congruence.
  - intros id log ts Hlog [(lo & Hu & Hlo) _]%log_window_contains_spec.
    destruct (Hsrc id log Hlog) as [Hn|((e & He & [_ Hi]) & _)]; [done|].
    destruct (import_log_usable e log lo Hi Hu) as (s & t & ? & ? & ?).
    by exists e, s, t, lo.
Qed.
End imported.

(** ** A sample log *)
Module CtSample.
#[local] Instance sample_sha : Sha256 := pad32.
#[local] Instance sample_ct_asn1 : CtAsn1 := {|
  ct_decode_certificate := λ b, inr (sample_cert "i" "s" 1
    (if decide (b = [1]%N) then [sample_ext OID_SCT_LIST []] else []));
  ct_encode_certificate := λ c, inr (serial_number (tbs_certificate c));
  ct_encode_tbs_certificate := λ t, inr (serial_number t);
  ct_decode_spki := λ b, inr (sample_spki b);
  ct_encode_spki := λ s, inr (raw_bytes (subject_public_key s));
  ct_decode_octet_string := λ b, inr {| octets := b |} |}.

(** A list with a log that is usable and one that is read only. *)
Definition state (usable readonly : option bytes) : LogStateJson := {|
  pending := None; qualified := None; usable := usable; readonly := readonly;
  retired := None; rejected := None |}.
Definition entry (key : bytes) (s : LogStateJson) : LogJson := {|
  lj_description := str "log"; lj_log_id := sha256_digest key; lj_key := key; lj_url := [];
  lj_state := Some s |}.
#[local] Instance sample_json : JsonLib := {|
  parse_log_list := λ _, Some [[entry [1; 2; 3]%N (state (Some (str "2020-01-01T00:00:00Z")) None);
                                entry [9]%N (state None (Some (str "2024-01-01T00:00:00Z")))]];
  base64_decode := Some |}.

Definition list_of : CtLogList := default log_list_new (to_ok (from_google_log_list_json [])).
Definition log_of (k : bytes) : option CtLog := log_list_get (sha256_digest k) list_of.
Definition checker : SctVerifier SampleVerifier := {| logs := list_of; verifier := MkSampleVerifier |}.

(** A timestamp of the log with a key, signed by it. *)
Definition sct_of (k : bytes) (ts : N) : SignedCertificateTimestamp := {|
  sct_version := 0; log_id := sha256_digest k; timestamp_ms := ts; sct_extensions := [];
  hash_alg := 4; sig_alg := 3; sct_signature := k |}.

Example accepted : ∃ log, log_of [1; 2; 3]%N = Some log ∧
  verify_sct_for_cert checker (sct_of [1; 2; 3]%N 1600000000000) [7]%N = Ok log.
Proof. eexists. split; vm_compute; reflexivity. Qed.

(** A timestamp the read-only log signed while it was trusted is rejected. *)
Example readonly_rejected :
  verify_sct_for_cert checker (sct_of [9]%N 1600000000000) [7]%N = Err SctTimestampOutsideLogWindow.
Proof. vm_compute. reflexivity. Qed.

Lemma verify_sct_correct_witness :
  ∃ log, log_of [1; 2; 3]%N = Some log ∧
  sct_accepted checker (sct_of [1; 2; 3]%N 1600000000000)
    (rfc_encode (CertStatement 1600000000000 [7]%N [])) log.
Proof.
  eexists. split; [vm_compute; reflexivity|].
  refine (proj2 (proj1 (proj1 (verify_sct_correct checker (sct_of [1; 2; 3]%N 1600000000000) _ _)
    [7]%N) _)); vm_compute; reflexivity.
Defined.

Lemma imported_log_list_correct_witness :
  log_list_ok list_of ∧ is_Some (log_of [9]%N) ∧ is_Some (log_of [1; 2; 3]%N).
Proof.
  split; [|split; by_computation].
  refine (proj1 (imported_log_list_correct [] _ list_of _ _)); vm_compute; reflexivity.
Defined.
End CtSample.
