(* ===== verification/RevFetch.v ===== *)
(** * Online revocation checking (pkix-revocation-http/src: lib.rs, extract.rs,
    ocsp_request.rs, crl.rs, ocsp.rs)

    The URLs a certificate advertises, the request for an OCSP response, and the
    two checkers that fetch their source from the first URL that yields one.  A
    check returns the requests it sent beside its result.  The rendering of the
    errors of pkix-revocation/src/lib.rs is here, since a failed check reports it. *)
From stdpp Require Import pretty.
From S2P Require Import Prelude X509 PathTypes Verifier CertChecks Revocation SignerDiscovery Crl Ocsp Chain.

(** ** Rendering of the errors of a check *)
Definition out_of_scope_display (r : OutOfScopeReason) : string :=
  match r with
  | CrlOnlyAttributeCerts =>
      "CRL onlyContainsAttributeCerts=TRUE; subject is a public-key certificate"
  | CrlOnlyUserCerts => "CRL onlyContainsUserCerts=TRUE; subject is a CA certificate"
  | CrlOnlyCaCerts => "CRL onlyContainsCACerts=TRUE; subject is an end-entity certificate"
  | CrlIdpDistributionPointMismatch =>
      "CRL IssuingDistributionPoint distributionPoint does not match the certificate's CRLDistributionPoints"
  end.

Definition crl_reason_name (r : CrlReason) : string :=
  match r with
  | Unspecified => "unspecified"
  | KeyCompromise => "keyCompromise"
  | CaCompromise => "cACompromise"
  | AffiliationChanged => "affiliationChanged"
  | Superseded => "superseded"
  | CessationOfOperation => "cessationOfOperation"
  | CertificateHold => "certificateHold"
  | RemoveFromCRL => "removeFromCRL"
  | PrivilegeWithdrawn => "privilegeWithdrawn"
  | AaCompromise => "aACompromise"
  end.

(** The [Display] of the type [SerialNumber] of [x509-cert]. *)
Class SerialDisplay := serial_display : SerialNumber → string.

(** [impl Display for Error] *)
Definition rev_error_display `{SerialDisplay} (e : RevocationError) : string :=
  match e with
  | Revoked serial (Some code) =>
      "certificate " +:+ serial_display serial +:+ " is revoked (reason " +:+ crl_reason_name code +:+ ")"
  | Revoked serial None => "certificate " +:+ serial_display serial +:+ " is revoked"
  | CrlExpired => "CRL validity window check failed"
  | CrlIssuerMismatch => "CRL issuer does not match certificate issuer"
  | CrlSignatureInvalid => "CRL signature is invalid"
  | CrlParseError e => "CRL parse error: " +:+ message e
  | OcspSignatureInvalid => "OCSP response signature is invalid"
  | OcspResponderIdMismatch => "OCSP ResponderId does not match the expected issuer identity"
  | OcspCertIdMismatch => "OCSP CertID issuer hashes do not match the expected issuer"
  | OcspIssuerCertMismatch =>
      "issuer certificate subject DN does not match the certificate's issuer DN"
  | OcspStatusUnknown => "OCSP responder returned unknown status"
  | OcspExpired => "OCSP response is stale or has no nextUpdate"
  | OcspParseError e => "OCSP response parse error: " +:+ message e
  | OcspMalformed => "OCSP response is structurally invalid (malformed per RFC 6960)"
  | OcspResponderEkuMissing =>
      "delegated OCSP responder cert lacks id-kp-OCSPSigning Extended Key Usage"
  | OcspResponderEkuMalformed =>
      "delegated OCSP responder cert ExtendedKeyUsage extension is malformed"
  | OcspResponderCertNotIssuedByCa =>
      "delegated OCSP responder cert was not issued by the certificate's CA"
  | OcspResponderCertExpired =>
      "delegated OCSP responder cert validity does not include the response's producedAt"
  | OcspResponderCertSigInvalid => "CA signature on delegated OCSP responder cert is invalid"
  | IndirectCrlIssuerMissing =>
      "CRL declares indirectCRL=TRUE but no cRLIssuer certificate was provided"
  | IndirectCrlIssuerUnexpected =>
      "cRLIssuer certificate was provided but the CRL is not indirect"
  | CrlSignMissing => "CRL issuer KeyUsage does not include cRLSign (RFC 5280 §6.3.3(f))"
  | CrlSignerNotFound =>
      "no certificate in the supplied bundle signed the CRL (path-level discovery)"
  | CrlSignerNotTrusted =>
      "discovered CRL signer does not chain back to a self-signed anchor in the supplied bundle"
  | DeltaCrlBaseMismatch => "delta CRL BaseCRLNumber does not match the base CRL's CRLNumber"
  | CrlNumberMismatch => "CRL number is lower than expected"
  | MalformedCertificate =>
      "certificate BasicConstraints extension is present but cannot be decoded"
  | OutOfScope reason => "revocation source out of scope: " +:+ out_of_scope_display reason
  | RevocationFetchFailed description => "revocation data fetch failed: " +:+ description
  end.

(** ** The URLs of a certificate *)
Definition OID_AD_OCSP : ObjectIdentifier := [1; 3; 6; 1; 5; 5; 7; 48; 1]%N.

(** [ExtractError::Der] is the only error of the extraction. *)
Inductive ExtractError := ExtractDer (e : der_error).
Definition extract_error_display (e : ExtractError) : string :=
  match e with ExtractDer e => "extension DER decode error: " +:+ e end.

Abbreviation Url := bytes.
Record AiaUrls := { aia_ocsp : list Url; aia_ca_issuers : list Url }.
Definition aia_urls_default : AiaUrls := {| aia_ocsp := []; aia_ca_issuers := [] |}.
Definition aia_urls_is_empty (a : AiaUrls) : bool :=
  bool_decide (aia_ocsp a = []) && bool_decide (aia_ca_issuers a = []).

(** [starts_with_ci], on the zip of the two strings. *)
Definition starts_with_ci (s prefix : bytes) : bool :=
  bool_decide (length prefix ≤ length s) &&
  forallb (λ p, bool_decide (to_ascii_lowercase p.1 = to_ascii_lowercase p.2)) (zip s prefix).
Definition is_http_uri (s : Url) : bool :=
  starts_with_ci s (str "http://") || starts_with_ci s (str "https://").

Definition push_if_http_uri (out : list Url) (gn : GeneralName) : list Url :=
  match gn with
  | UniformResourceIdentifier uri => if is_http_uri uri then out ++ [uri] else out
  | _ => out
  end.

Section extract.
Context `{CrlAsn1} `{ChainAsn1}.

Definition extract_cdp_http_urls (cert : Certificate) : result ExtractError (list Url) :=
  match find_extension_value cert OID_CRL_DISTRIBUTION_POINTS with
  | None => Ok []
  | Some extn_value =>
      cdps ← lift_der ExtractDer (from_der (T:=CrlDistributionPoints) extn_value);
      Ok (foldl (λ urls dp,
            match dp_distribution_point dp with
            | None => urls
            | Some (FullName general_names) => foldl push_if_http_uri urls general_names
            | Some (NameRelativeToCRLIssuer _) => urls
            end) [] (cdp_points cdps))
  end.

Definition push_access (out : AiaUrls) (ad : AccessDescription) : AiaUrls :=
  if decide (access_method ad = OID_AD_OCSP)
  then {| aia_ocsp := push_if_http_uri (aia_ocsp out) (access_location ad);
          aia_ca_issuers := aia_ca_issuers out |}
  else if decide (access_method ad = OID_AD_CA_ISSUERS)
  then {| aia_ocsp := aia_ocsp out;
          aia_ca_issuers := push_if_http_uri (aia_ca_issuers out) (access_location ad) |}
  else out.

Definition extract_aia_http_urls (cert : Certificate) : result ExtractError AiaUrls :=
  match find_extension_value cert OID_AUTHORITY_INFO_ACCESS with
  | None => Ok aia_urls_default
  | Some extn_value =>
      aia ← lift_der ExtractDer (from_der (T:=AuthorityInfoAccessSyntax) extn_value);
      Ok (foldl push_access aia_urls_default (aia_descriptions aia))
  end.
End extract.

(** ** Requests *)
Inductive OcspHashAlg := Sha1Alg | Sha256Alg.
Record OcspRequestBytes := { req_body : bytes; req_content_type : string }.

(** The errors of the builder of [x509-ocsp], and [BuildError]. *)
Inductive BuilderError := BuilderAsn1 (e : der_error) | BuilderPublicKey | BuilderSignature.
Inductive OcspBuildError := BuildAsn1 (e : der_error).
Definition build_error_display (e : OcspBuildError) : string :=
  match e with BuildAsn1 e => "OCSP request encoding error: " +:+ e end.

(** [Request::from_cert], the encoding of the request that the builder makes of
    it, the decoding of a request to the identifiers of its certificates, and
    the error [ErrorKind::Failed]. *)
Class OcspRequestLib := {
  OcspRequestItem : Set;
  request_from_cert : OcspHashAlg → Certificate → Certificate → BuilderError + OcspRequestItem;
  encode_request : OcspRequestItem → der_error + bytes;
  decode_request : bytes → der_error + list CertId;
  failed_error : der_error }.

Definition OCSP_REQUEST_CT : string := "application/ocsp-request".

Section requests.
Context `{OcspRequestLib}.

Definition map_builder_err (e : BuilderError) : OcspBuildError :=
  match e with
  | BuilderAsn1 d => BuildAsn1 d
  | BuilderPublicKey | BuilderSignature => BuildAsn1 failed_error
  end.

Definition build_ocsp_request (cert issuer : Certificate) (hash_alg : OcspHashAlg) :
    result OcspBuildError OcspRequestBytes :=
  request ← map_err map_builder_err
    (match request_from_cert hash_alg issuer cert with inl e => Err e | inr r => Ok r end);
  body ← lift_der BuildAsn1 (encode_request request);
  Ok {| req_body := body; req_content_type := OCSP_REQUEST_CT |}.
End requests.

Inductive FetchMethod := Get | Post (body : bytes) (content_type : string).
#[global] Instance FetchMethod_eq_dec : EqDecision FetchMethod.
Proof. solve_decision. Defined.
Record FetchRequest := { fr_url : Url; fr_method : FetchMethod }.
#[global] Instance FetchRequest_eq_dec : EqDecision FetchRequest.
Proof. solve_decision. Defined.
Definition fetch_get (url : Url) : FetchRequest := {| fr_url := url; fr_method := Get |}.
Definition fetch_post (url : Url) (body : bytes) (content_type : string) : FetchRequest :=
  {| fr_url := url; fr_method := Post body content_type |}.

Record FetchResponse := { resp_bytes : bytes; resp_content_type : option string }.
Inductive FetchError := Transport (e : string) | HttpStatus (code : N) | TooLarge.
Definition fetch_error_display (e : FetchError) : string :=
  match e with
  | Transport e => "transport error: " +:+ e
  | HttpStatus code => "HTTP " +:+ pretty code
  | TooLarge => "response too large"
  end.

(** [trait RevocationFetcher]: what the transport answers to a request. *)
Class RevocationFetcher (F : Type) := fetch : F → FetchRequest → FetchError + FetchResponse.
#[global] Hint Mode RevocationFetcher ! : typeclass_instances.

(** ** The checkers *)

(** The bytes of a URL as a string. *)
Definition display_url (u : Url) : string :=
  String.string_of_list_ascii (Ascii.ascii_of_N <$> u).
(** [failures.join("; ")] *)
Definition join_failures (l : list string) : string := String.concat "; " l.

Definition all_urls_failed (urls : list Url) (failures : list string) : RevocationError :=
  RevocationFetchFailed ("all " +:+ pretty (length urls) +:+ " URL(s) failed: " +:+ join_failures failures).

Record HttpCrlFetcher (F V : Type) := { hc_fetcher : F; hc_verifier : V; hc_now_unix : N }.
Arguments hc_fetcher {F V}. Arguments hc_verifier {F V}. Arguments hc_now_unix {F V}.
Record HttpOcspFetcher (F V : Type) :=
  { ho_fetcher : F; ho_verifier : V; ho_now_unix : N; ho_hash_alg : OcspHashAlg }.
Arguments ho_fetcher {F V}. Arguments ho_verifier {F V}. Arguments ho_now_unix {F V}.
Arguments ho_hash_alg {F V}.
Definition http_ocsp_fetcher_new {F V} (f : F) (v : V) (now : N) : HttpOcspFetcher F V :=
  {| ho_fetcher := f; ho_verifier := v; ho_now_unix := now; ho_hash_alg := Sha256Alg |}.
Definition with_hash_alg {F V} (self : HttpOcspFetcher F V) (alg : OcspHashAlg) :
    HttpOcspFetcher F V :=
  {| ho_fetcher := ho_fetcher self; ho_verifier := ho_verifier self;
     ho_now_unix := ho_now_unix self; ho_hash_alg := alg |}.

Section checkers.
Context `{PathAsn1} `{KeyIdAsn1} `{CrlAsn1} `{OcspAsn1} `{Digests} `{ChainAsn1}.
Context `{OcspRequestLib} `{SerialDisplay}.
Context {F V : Type} `{RevocationFetcher F} `{SignatureVerifier V}.

(** [for url in &urls]: the requests sent, and the result. *)
Fixpoint http_crl_loop (self : HttpCrlFetcher F V) (cert issuer : Certificate) (all urls : list Url)
    (failures : list string) (sent : list FetchRequest) : list FetchRequest * RevResult unit :=
  match urls with
  | [] => (sent, Err (all_urls_failed all failures))
  | url :: urls =>
      let req := fetch_get url in
      let sent := sent ++ [req] in
      match fetch (hc_fetcher self) req with
      | inr resp =>
          match crl_checker_new (resp_bytes resp) (hc_now_unix self) (hc_verifier self) with
          | Ok checker => (sent, check_revocation checker cert issuer)
          | Err e => http_crl_loop self cert issuer all urls
              (failures ++ [display_url url +:+ ": CRL parse: " +:+ rev_error_display e]) sent
          | Panic => (sent, Panic)
          end
      | inl e => http_crl_loop self cert issuer all urls
          (failures ++ [display_url url +:+ ": " +:+ fetch_error_display e]) sent
      end
  end.

Definition http_crl_check (self : HttpCrlFetcher F V) (cert issuer : Certificate) :
    list FetchRequest * RevResult unit :=
  match extract_cdp_http_urls cert with
  | Err e => ([], Err (RevocationFetchFailed
      ("cRLDistributionPoints extension parse failed: " +:+ extract_error_display e)))
  | Panic => ([], Panic)
  | Ok urls =>
      if decide (urls = []) then ([], Ok tt)
      else http_crl_loop self cert issuer urls urls [] []
  end.

Fixpoint http_ocsp_loop (self : HttpOcspFetcher F V) (cert issuer : Certificate) (body : bytes)
    (all urls : list Url) (failures : list string) (sent : list FetchRequest) :
    list FetchRequest * RevResult unit :=
  match urls with
  | [] => (sent, Err (all_urls_failed all failures))
  | url :: urls =>
      let req := fetch_post url body OCSP_REQUEST_CT in
      let sent := sent ++ [req] in
      match fetch (ho_fetcher self) req with
      | inr resp =>
          match ocsp_checker_new (resp_bytes resp) (ho_now_unix self) (ho_verifier self) with
          | Ok checker => (sent, check_revocation checker cert issuer)
          | Err e => http_ocsp_loop self cert issuer body all urls
              (failures ++ [display_url url +:+ ": OCSP parse: " +:+ rev_error_display e]) sent
          | Panic => (sent, Panic)
          end
      | inl e => http_ocsp_loop self cert issuer body all urls
          (failures ++ [display_url url +:+ ": " +:+ fetch_error_display e]) sent
      end
  end.

Definition http_ocsp_check (self : HttpOcspFetcher F V) (cert issuer : Certificate) :
    list FetchRequest * RevResult unit :=
  match build_ocsp_request cert issuer (ho_hash_alg self) with
  | Err e => ([], Err (RevocationFetchFailed ("OCSP request build failed: " +:+ build_error_display e)))
  | Panic => ([], Panic)
  | Ok req_bytes =>
      match extract_aia_http_urls cert with
      | Err e => ([], Err (RevocationFetchFailed
          ("authorityInfoAccess extension parse failed: " +:+ extract_error_display e)))
      | Panic => ([], Panic)
      | Ok aia =>
          if decide (aia_ocsp aia = []) then ([], Ok tt)
          else http_ocsp_loop self cert issuer (req_body req_bytes) (aia_ocsp aia) (aia_ocsp aia) [] []
      end
  end.

(** [impl RevocationChecker], with the default for trust anchors. *)
#[global] Instance HttpCrlFetcher_impl : RevocationChecker (HttpCrlFetcher F V) := {|
  check_revocation self cert issuer := (http_crl_check self cert issuer).2;
  check_revocation_against_anchor _ := default_check_revocation_against_anchor |}.
#[global] Instance HttpOcspFetcher_impl : RevocationChecker (HttpOcspFetcher F V) := {|
  check_revocation self cert issuer := (http_ocsp_check self cert issuer).2;
  check_revocation_against_anchor _ := default_check_revocation_against_anchor |}.
End checkers.
