(* ===== verification/RevCache.v ===== *)
(** * The cache of revocation data (pkix-revocation-http/src/cache.rs)

    The cache is shared and is changed through its references: every definition
    passes its state.  [RevocationCache] is the interface, [InMemoryCache] the
    implementation of the source over two maps, and [DynCache] a cache behind the
    trait object, whose guarded insertion is a lookup and a later insertion.  A
    time of the system clock is its number of seconds. *)
From stdpp Require Import gmap pretty.
From S2P Require Import Prelude X509 PathTypes Verifier Revocation SignerDiscovery Crl Ocsp Chain RevFetch.

(** ** Keys and values *)
Record CrlCacheKey := { issuer_dn_der : bytes; distribution_point_uri : option Url }.
#[global] Instance CrlCacheKey_eq_dec : EqDecision CrlCacheKey.
Proof. solve_decision. Defined.
#[global] Instance CrlCacheKey_countable : Countable CrlCacheKey.
Proof.
  refine (inj_countable' (λ k, (issuer_dn_der k, distribution_point_uri k))
            (λ p, {| issuer_dn_der := p.1; distribution_point_uri := p.2 |}) _).
  by intros [].
Defined.

Record OcspCacheKey := { ck_cert_serial : bytes; ck_issuer_key_hash : bytes; responder_url : Url }.
#[global] Instance OcspCacheKey_eq_dec : EqDecision OcspCacheKey.
Proof. solve_decision. Defined.
#[global] Instance OcspCacheKey_countable : Countable OcspCacheKey.
Proof.
  refine (inj_countable' (λ k, (ck_cert_serial k, ck_issuer_key_hash k, responder_url k))
            (λ p, {| ck_cert_serial := p.1.1; ck_issuer_key_hash := p.1.2; responder_url := p.2 |}) _).
  by intros [].
Defined.

Record CachedCrl := {
  cc_crl_number : option bytes;
  cc_this_update : N;
  cc_next_update : option N;
  cc_bytes : bytes }.
Record CachedOcspResponse := {
  co_produced_at : N;
  co_this_update : N;
  co_next_update : option N;
  co_bytes : bytes }.

(** ** The interface *)

(** [trait RevocationCache]: the operations on the state of a cache. *)
Class RevocationCache (C : Type) := {
  get_crl : C → CrlCacheKey → option CachedCrl;
  put_crl : C → CrlCacheKey → CachedCrl → C;
  invalidate_crl : C → CrlCacheKey → C;
  get_ocsp : C → OcspCacheKey → option CachedOcspResponse;
  put_ocsp : C → OcspCacheKey → CachedOcspResponse → C;
  invalidate_ocsp : C → OcspCacheKey → C }.
#[global] Hint Mode RevocationCache ! : typeclass_instances.

(** [a > b] on vectors of octets *)
Fixpoint bytes_gt (a b : bytes) : bool :=
  match a, b with
  | [], _ => false
  | _, [] => true
  | x :: a, y :: b => if decide (x = y) then bytes_gt a b else bool_decide (y < x)%N
  end.

Definition crl_number_gt (incoming stored : bytes) : bool :=
  let len := length incoming `max` length stored in
  let a := replicate (len - length incoming) 0%N ++ incoming in
  let b := replicate (len - length stored) 0%N ++ stored in
  bytes_gt a b.

Definition is_rollback (prior : option CachedCrl) (incoming : option bytes) : bool :=
  match prior, incoming with
  | Some p, Some inc =>
      match cc_crl_number p with
      | Some prior_num => crl_number_gt prior_num inc
      | None => false
      end
  | _, _ => false
  end.

(** [trait CrlAtomicPut] *)
Class CrlAtomicPut (C : Type) := put_crl_guarded : C → CrlCacheKey → CachedCrl → C * bool.
#[global] Hint Mode CrlAtomicPut ! : typeclass_instances.

(** ** The cache in memory *)

(** The two maps behind their locks, and whether a lock is poisoned. *)
Record InMemoryCache := {
  crl_map : gmap CrlCacheKey CachedCrl;
  crl_poisoned : bool;
  ocsp_map : gmap OcspCacheKey CachedOcspResponse;
  ocsp_poisoned : bool }.
Definition in_memory_cache_new : InMemoryCache :=
  {| crl_map := ∅; crl_poisoned := false; ocsp_map := ∅; ocsp_poisoned := false |}.

(** A write under the lock of one map. *)
Definition write_crl (f : gmap CrlCacheKey CachedCrl → gmap CrlCacheKey CachedCrl)
    (c : InMemoryCache) : InMemoryCache :=
  if crl_poisoned c then c
  else {| crl_map := f (crl_map c); crl_poisoned := false;
          ocsp_map := ocsp_map c; ocsp_poisoned := ocsp_poisoned c |}.
Definition write_ocsp (f : gmap OcspCacheKey CachedOcspResponse → gmap OcspCacheKey CachedOcspResponse)
    (c : InMemoryCache) : InMemoryCache :=
  if ocsp_poisoned c then c
  else {| crl_map := crl_map c; crl_poisoned := crl_poisoned c;
          ocsp_map := f (ocsp_map c); ocsp_poisoned := false |}.

#[global] Instance InMemoryCache_impl : RevocationCache InMemoryCache := {|
  get_crl c key := if crl_poisoned c then None else crl_map c !! key;
  put_crl c key entry := write_crl <[key := entry]> c;
  invalidate_crl c key := write_crl (delete key) c;
  get_ocsp c key := if ocsp_poisoned c then None else ocsp_map c !! key;
  put_ocsp c key entry := write_ocsp <[key := entry]> c;
  invalidate_ocsp c key := write_ocsp (delete key) c |}.

Definition put_crl_if_not_rollback (c : InMemoryCache) (key : CrlCacheKey) (new_entry : CachedCrl) :
    InMemoryCache * bool :=
  if crl_poisoned c then (c, false)
  else
    match crl_map c !! key with
    | Some existing =>
        if is_rollback (Some existing) (cc_crl_number new_entry) then (c, false)
        else (write_crl <[key := new_entry]> c, true)
    | None => (write_crl <[key := new_entry]> c, true)
    end.
#[global] Instance InMemoryCache_atomic : CrlAtomicPut InMemoryCache := put_crl_if_not_rollback.

(** [Arc<dyn RevocationCache>]: any cache, through the methods of the trait. *)
Record DynCache (C : Type) := { dyn_cache : C }.
Arguments dyn_cache {C}. Arguments Build_DynCache {C}.
#[global] Instance DynCache_impl {C} `{RevocationCache C} : RevocationCache (DynCache C) := {|
  get_crl c := get_crl (dyn_cache c);
  put_crl c key entry := Build_DynCache (put_crl (dyn_cache c) key entry);
  invalidate_crl c key := Build_DynCache (invalidate_crl (dyn_cache c) key);
  get_ocsp c := get_ocsp (dyn_cache c);
  put_ocsp c key entry := Build_DynCache (put_ocsp (dyn_cache c) key entry);
  invalidate_ocsp c key := Build_DynCache (invalidate_ocsp (dyn_cache c) key) |}.
#[global] Instance DynCache_atomic {C} `{RevocationCache C} : CrlAtomicPut (DynCache C) :=
  λ c key new_entry,
    if is_rollback (get_crl c key) (cc_crl_number new_entry) then (c, false)
    else (put_crl c key new_entry, true).

Definition is_live (next_update : option N) (now : N) : bool :=
  match next_update with None => true | Some nu => bool_decide (now < nu)%N end.

(** ** Metadata *)
Section metadata.
Context `{CrlAsn1} `{OcspAsn1} `{OcspRequestLib}.

Record CrlMetadata := {
  cm_crl_number : option bytes; cm_this_update : N; cm_next_update : option N }.
Definition parse_crl_metadata (der_bytes : bytes) : der_error + CrlMetadata :=
  match from_der (T:=CertificateList) der_bytes with
  | inl e => inl e
  | inr crl =>
      let tbs := tbs_cert_list crl in
      inr {|
        cm_crl_number :=
          ext ← snd <$> list_find (λ e, extn_id e = OID_CRL_NUMBER) (default [] (crl_extensions tbs));
          match from_der (T:=Uint) (extn_value ext) with
          | inr u => Some (uint_bytes u) | inl _ => None
          end;
        cm_this_update := to_unix_secs (this_update tbs);
        cm_next_update := to_unix_secs <$> next_update tbs |}
  end.

Record OcspMetadata := {
  om_produced_at : N; om_this_update : N; om_next_update : option N }.
Definition parse_ocsp_metadata (der_bytes : bytes) : der_error + OcspMetadata :=
  match from_der (T:=OcspResponse) der_bytes with
  | inl e => inl e
  | inr outer =>
      if decide (response_status outer ≠ Successful) then inl failed_error
      else match response_bytes outer with
      | None => inl failed_error
      | Some resp_bytes =>
          match from_der (T:=BasicOcspResponse) (Ocsp.response resp_bytes) with
          | inl e => inl e
          | inr basic =>
              match head (responses (tbs_response_data basic)) with
              | None => inl failed_error
              | Some single => inr {|
                  om_produced_at := to_unix_secs (produced_at (tbs_response_data basic));
                  om_this_update := to_unix_secs (single_this_update single);
                  om_next_update := to_unix_secs <$> single_next_update single |}
              end
          end
      end
  end.

(** The identifier of the first certificate of a request. *)
Definition extract_cert_id_identity (req : bytes) : der_error + (bytes * bytes) :=
  match decode_request req with
  | inl e => inl e
  | inr request_list =>
      match head request_list with
      | None => inl failed_error
      | Some cert_id => inr (cert_id_serial cert_id, issuer_key_hash cert_id)
      end
  end.
End metadata.

(** ** The cached checkers *)

(** The state of a check: the cache and the requests sent. *)
Record World (C : Type) := { w_cache : C; w_sent : list FetchRequest }.
Arguments w_cache {C}. Arguments w_sent {C}.
Definition on_cache {C} (f : C → C) (w : World C) : World C :=
  {| w_cache := f (w_cache w); w_sent := w_sent w |}.
Definition send {C} (r : FetchRequest) (w : World C) : World C :=
  {| w_cache := w_cache w; w_sent := w_sent w ++ [r] |}.

Section cached.
Context `{PathAsn1} `{KeyIdAsn1} `{CrlAsn1} `{OcspAsn1} `{Digests} `{ChainAsn1}.
Context `{OcspRequestLib} `{SerialDisplay}.
Context {F V C : Type} `{RevocationFetcher F} `{SignatureVerifier V}.
Context `{RevocationCache C} `{CrlAtomicPut C}.
Implicit Types w : World C.

(** [CachedHttpCrlFetcher::maybe_populate_cache] *)
Definition populate_crl (resp : FetchResponse) (key : option CrlCacheKey) (w : World C) : World C :=
  match key with
  | None => w
  | Some key =>
      match parse_crl_metadata (resp_bytes resp) with
      | inl _ => w
      | inr meta =>
          on_cache (λ c, (put_crl_guarded c key {|
            cc_crl_number := cm_crl_number meta; cc_this_update := cm_this_update meta;
            cc_next_update := cm_next_update meta; cc_bytes := resp_bytes resp |}).1) w
      end
  end.

(** [CachedHttpOcspFetcher::maybe_populate_cache] *)
Definition populate_ocsp (resp : FetchResponse) (key : OcspCacheKey) (w : World C) : World C :=
  match parse_ocsp_metadata (resp_bytes resp) with
  | inl _ => w
  | inr meta =>
      on_cache (λ c, put_ocsp c key {|
        co_produced_at := om_produced_at meta; co_this_update := om_this_update meta;
        co_next_update := om_next_update meta; co_bytes := resp_bytes resp |}) w
  end.

(** Steps 3 and 4: the request over the network, and what follows a failure. *)
Definition crl_from_network (self : HttpCrlFetcher F V) (cert issuer : Certificate)
    (url : Url) (key : option CrlCacheKey) (failures : list string) (w : World C) :
    World C * (list string + RevResult unit) :=
  let req := fetch_get url in
  let w := send req w in
  match fetch (hc_fetcher self) req with
  | inr resp =>
      match crl_checker_new (resp_bytes resp) (hc_now_unix self) (hc_verifier self) with
      | Ok checker => (populate_crl resp key w, inr (check_revocation checker cert issuer))
      | Err e => (w, inl (failures ++ [display_url url +:+ ": CRL parse: " +:+ rev_error_display e]))
      | Panic => (w, inr Panic)
      end
  | inl e => (w, inl (failures ++ [display_url url +:+ ": " +:+ fetch_error_display e]))
  end.

(** One turn of the loop over the URLs: the failures so far, or the verdict. *)
Definition cached_crl_turn (self : HttpCrlFetcher F V) (cert issuer : Certificate)
    (issuer_dn : option bytes) (url : Url) (failures : list string) (w : World C) :
    World C * (list string + RevResult unit) :=
  let key := (λ der, {| issuer_dn_der := der; distribution_point_uri := Some url |}) <$> issuer_dn in
  let cached := k ← key; e ← get_crl (w_cache w) k;
                if is_live (cc_next_update e) (hc_now_unix self) then Some e else None in
  match cached with
  | Some cached =>
      match crl_checker_new (cc_bytes cached) (hc_now_unix self) (hc_verifier self) with
      | Ok checker => (w, inr (check_revocation checker cert issuer))
      | Err e =>
          let w := match key with
                   | Some k => on_cache (λ c, invalidate_crl c k) w
                   | None => w
                   end in
          crl_from_network self cert issuer url key
            (failures ++ [display_url url +:+ ": cached CRL parse: " +:+ rev_error_display e]) w
      | Panic => (w, inr Panic)
      end
  | None => crl_from_network self cert issuer url key failures w
  end.

Fixpoint cached_crl_loop (self : HttpCrlFetcher F V) (cert issuer : Certificate)
    (issuer_dn : option bytes) (all urls : list Url) (failures : list string) (w : World C) :
    World C * RevResult unit :=
  match urls with
  | [] => (w, Err (all_urls_failed all failures))
  | url :: urls =>
      match cached_crl_turn self cert issuer issuer_dn url failures w with
      | (w, inl failures) => cached_crl_loop self cert issuer issuer_dn all urls failures w
      | (w, inr verdict) => (w, verdict)
      end
  end.

(** [CachedHttpCrlFetcher::check_revocation], from a state of the cache. *)
Definition cached_crl_check (self : HttpCrlFetcher F V) (cert issuer : Certificate) (c : C) :
    World C * RevResult unit :=
  let w := {| w_cache := c; w_sent := [] |} in
  match extract_cdp_http_urls cert with
  | Err e => (w, Err (RevocationFetchFailed
      ("cRLDistributionPoints extension parse failed: " +:+ extract_error_display e)))
  | Panic => (w, Panic)
  | Ok urls =>
      if decide (urls = []) then (w, Ok tt)
      else
        let issuer_dn := match to_der (subject (tbs_certificate issuer)) with
                         | inr der => Some der | inl _ => None end in
        cached_crl_loop self cert issuer issuer_dn urls urls [] w
  end.

Definition ocsp_from_network (self : HttpOcspFetcher F V) (cert issuer : Certificate) (body : bytes)
    (url : Url) (key : OcspCacheKey) (failures : list string) (w : World C) :
    World C * (list string + RevResult unit) :=
  let req := fetch_post url body OCSP_REQUEST_CT in
  let w := send req w in
  match fetch (ho_fetcher self) req with
  | inr resp =>
      match ocsp_checker_new (resp_bytes resp) (ho_now_unix self) (ho_verifier self) with
      | Ok checker => (populate_ocsp resp key w, inr (check_revocation checker cert issuer))
      | Err e => (w, inl (failures ++ [display_url url +:+ ": OCSP parse: " +:+ rev_error_display e]))
      | Panic => (w, inr Panic)
      end
  | inl e => (w, inl (failures ++ [display_url url +:+ ": " +:+ fetch_error_display e]))
  end.

Definition cached_ocsp_turn (self : HttpOcspFetcher F V) (cert issuer : Certificate) (body : bytes)
    (cert_ident : bytes * bytes) (url : Url) (failures : list string) (w : World C) :
    World C * (list string + RevResult unit) :=
  let key := {| ck_cert_serial := cert_ident.1; ck_issuer_key_hash := cert_ident.2;
                responder_url := url |} in
  let cached := e ← get_ocsp (w_cache w) key;
                if is_live (co_next_update e) (ho_now_unix self) then Some e else None in
  match cached with
  | Some cached =>
      match ocsp_checker_new (co_bytes cached) (ho_now_unix self) (ho_verifier self) with
      | Ok checker => (w, inr (check_revocation checker cert issuer))
      | Err e =>
          ocsp_from_network self cert issuer body url key
            (failures ++ [display_url url +:+ ": cached OCSP parse: " +:+ rev_error_display e])
            (on_cache (λ c, invalidate_ocsp c key) w)
      | Panic => (w, inr Panic)
      end
  | None => ocsp_from_network self cert issuer body url key failures w
  end.

Fixpoint cached_ocsp_loop (self : HttpOcspFetcher F V) (cert issuer : Certificate) (body : bytes)
    (cert_ident : bytes * bytes) (all urls : list Url) (failures : list string) (w : World C) :
    World C * RevResult unit :=
  match urls with
  | [] => (w, Err (all_urls_failed all failures))
  | url :: urls =>
      match cached_ocsp_turn self cert issuer body cert_ident url failures w with
      | (w, inl failures) => cached_ocsp_loop self cert issuer body cert_ident all urls failures w
      | (w, inr verdict) => (w, verdict)
      end
  end.

Definition cached_ocsp_check (self : HttpOcspFetcher F V) (cert issuer : Certificate) (c : C) :
    World C * RevResult unit :=
  let w := {| w_cache := c; w_sent := [] |} in
  match build_ocsp_request cert issuer (ho_hash_alg self) with
  | Err e => (w, Err (RevocationFetchFailed ("OCSP request build failed: " +:+ build_error_display e)))
  | Panic => (w, Panic)
  | Ok req_bytes =>
      match extract_aia_http_urls cert with
      | Err e => (w, Err (RevocationFetchFailed
          ("authorityInfoAccess extension parse failed: " +:+ extract_error_display e)))
      | Panic => (w, Panic)
      | Ok aia =>
          if decide (aia_ocsp aia = []) then (w, Ok tt)
          else match extract_cert_id_identity (req_body req_bytes) with
          | inl e => (w, Err (RevocationFetchFailed ("OCSP request CertID extract failed: " +:+ e)))
          | inr cert_ident =>
              cached_ocsp_loop self cert issuer (req_body req_bytes) cert_ident
                (aia_ocsp aia) (aia_ocsp aia) [] w
          end
      end
  end.
End cached.
