(* ===== verification/RevHttpSpec.v ===== *)
(** * What online revocation checking guarantees (pkix-revocation-http)

    Which URLs are asked, whose answer decides, what enters the cache and what a
    cached verdict rests on, and the order of the numbers of the stored CRLs
    under concurrent insertions. *)
From stdpp Require Import gmap pretty.
From S2P Require Import Prelude X509 PathTypes Verifier Samples Revocation SignerDiscovery Crl Ocsp Chain RevFetch RevCache.

(** ** The URLs *)

(** [http://] or [https://] in any case of the letters. *)
Definition http_url (s : Url) : Prop :=
  lower (take 7 s) = str "http://" ∨ lower (take 8 s) = str "https://".

Lemma starts_with_ci_spec s p :
  starts_with_ci s p = true ↔ lower (take (length p) s) = lower p.
Proof.
  unfold starts_with_ci. rewrite andb_true_iff, bool_decide_eq_true. revert s.
  induction p as [|x p IH]; intros [|y s]; cbn; try (intuition (done || lia)).
  rewrite andb_true_iff, bool_decide_eq_true. specialize (IH s).
  rewrite <-Nat.succ_le_mono. split.
  - intros (Hl & Hx & Hp). f_equal; [done|]. apply IH. done.
  - intros [= Hx Hp]. apply IH in Hp as [Hl Hp]. done.
Qed.

Lemma is_http_uri_spec s : is_http_uri s = true ↔ http_url s.
Proof. unfold is_http_uri, http_url. rewrite orb_true_iff, !starts_with_ci_spec. done. Qed.
#[global] Instance http_url_dec s : Decision (http_url s).
Proof. unfold http_url. apply _. Defined.

(** The URLs of general names. *)
Definition uri_of (gn : GeneralName) : option Url :=
  match gn with UniformResourceIdentifier u => Some u | _ => None end.
Definition http_uris (l : list GeneralName) : list Url := filter http_url (omap uri_of l).

Lemma http_uris_app l k : http_uris (l ++ k) = http_uris l ++ http_uris k.
Proof. unfold http_uris. by rewrite omap_app, filter_app. Qed.

Lemma push_if_http_uri_spec out gn : push_if_http_uri out gn = out ++ http_uris [gn].
Proof.
  destruct gn; try (symmetry; apply app_nil_r). unfold push_if_http_uri, http_uris.
  change (omap uri_of [UniformResourceIdentifier s]) with [s]. rewrite filter_cons, filter_nil.
  pose proof (is_http_uri_spec s). destruct (is_http_uri s); case_decide; rewrite ?app_nil_r;
    [done|exfalso; tauto|exfalso; intuition discriminate|done].
Qed.

Lemma push_all_spec l out : foldl push_if_http_uri out l = out ++ http_uris l.
Proof.
  revert out. induction l as [|gn l IH]; intros out; cbn [foldl]; [by rewrite app_nil_r|].
  rewrite IH, push_if_http_uri_spec. change (gn :: l) with ([gn] ++ l).
  by rewrite http_uris_app, <-app_assoc.
Qed.

(** The general names of the full names of distribution points. *)
Definition full_names (dps : list DistributionPoint) : list GeneralName :=
  dps ≫= λ dp, match dp_distribution_point dp with Some (FullName l) => l | _ => [] end.

(** The locations with an access method. *)
Definition locations (m : ObjectIdentifier) (l : list AccessDescription) : list GeneralName :=
  access_location <$> filter (λ ad, access_method ad = m) l.

Section urls.
Context `{CrlAsn1} `{ChainAsn1}.

Lemma extract_cdp_Ok cert urls :
  extract_cdp_http_urls cert = Ok urls ↔
  match find_extension_value cert OID_CRL_DISTRIBUTION_POINTS with
  | None => urls = []
  | Some v => ∃ cdps, from_der v = inr cdps ∧ urls = http_uris (full_names (cdp_points cdps))
  end.
Proof.
  unfold extract_cdp_http_urls. destruct (find_extension_value _ _) as [v|]; [|naive_solver].
  rewrite bind_Ok. setoid_rewrite lift_der_Ok.
  assert (∀ dps out, foldl (λ urls dp,
      match dp_distribution_point dp with
      | None => urls
      | Some (FullName general_names) => foldl push_if_http_uri urls general_names
      | Some (NameRelativeToCRLIssuer _) => urls
      end) out dps = out ++ http_uris (full_names dps)) as Hf.
  { induction dps as [|dp dps IH]; intros out; cbn [foldl]; [by rewrite app_nil_r|].
    rewrite IH. unfold full_names. cbn [mbind list_bind]. rewrite http_uris_app, app_assoc. f_equal.
    destruct (dp_distribution_point dp) as [[l|]|]; rewrite ?push_all_spec; cbn;
      by rewrite ?app_nil_r. }
  setoid_rewrite Hf. naive_solver.
Qed.

Lemma extract_aia_Ok cert aia :
  extract_aia_http_urls cert = Ok aia ↔
  match find_extension_value cert OID_AUTHORITY_INFO_ACCESS with
  | None => aia = aia_urls_default
  | Some v => ∃ s, from_der v = inr s ∧
      aia_ocsp aia = http_uris (locations OID_AD_OCSP (aia_descriptions s)) ∧
      aia_ca_issuers aia = http_uris (locations OID_AD_CA_ISSUERS (aia_descriptions s))
  end.
Proof.
  unfold extract_aia_http_urls. destruct (find_extension_value _ _) as [v|]; [|naive_solver].
  rewrite bind_Ok. setoid_rewrite lift_der_Ok.
  assert (∀ l out, foldl push_access out l =
    {| aia_ocsp := aia_ocsp out ++ http_uris (locations OID_AD_OCSP l);
       aia_ca_issuers := aia_ca_issuers out ++ http_uris (locations OID_AD_CA_ISSUERS l) |}) as Hf.
  { induction l as [|ad l IH]; intros [o c]; cbn [foldl]; [cbn; by rewrite !app_nil_r|].
    rewrite IH. unfold push_access, locations. rewrite !filter_cons.
    assert (OID_AD_OCSP ≠ OID_AD_CA_ISSUERS) as Hne by done.
    repeat case_decide; try congruence; cbn [aia_ocsp aia_ca_issuers fmap list_fmap];
      rewrite ?push_if_http_uri_spec, <-?app_assoc, <-?http_uris_app; done. }
  setoid_rewrite Hf. cbn. destruct aia. naive_solver.
Qed.
End urls.

(** ** The first URL that answers *)
Section first.
Context {K : Type} (source : Url → option K).

(** The URLs before the first one with a source, and that one. *)
Inductive first_source : list Url → list Url → option (Url * K) → Prop :=
| first_none urls : Forall (λ u, source u = None) urls → first_source urls urls None
| first_some pre url post k :
    Forall (λ u, source u = None) pre → source url = Some k →
    first_source (pre ++ url :: post) pre (Some (url, k)).

Lemma first_source_cons_None url urls pre o :
  source url = None → first_source urls pre o → first_source (url :: urls) (url :: pre) o.
Proof.
  intros Hu Hf. destruct Hf as [urls Hall|pre url' post k Hall Hk].
  - constructor. by constructor.
  - change (url :: pre ++ url' :: post) with ((url :: pre) ++ url' :: post). constructor; [by constructor|done].
Qed.

Lemma first_source_cons_Some url urls k :
  source url = Some k → first_source (url :: urls) [] (Some (url, k)).
Proof. intros Hk. by apply (first_some [] url urls k). Qed.
End first.

(** The requests of a check and its result, after some requests: all the URLs
    failed, or one decided. *)
Definition outcome {K} (source : Url → option K) (request : Url → FetchRequest)
    (verdict : K → RevResult unit) (sent : list FetchRequest) (urls : list Url)
    (o : list FetchRequest * RevResult unit) : Prop :=
  ∃ pre d, first_source source urls pre d ∧
    match d with
    | None => o.1 = sent ++ (request <$> pre) ∧ ∃ descr, o.2 = Err (RevocationFetchFailed descr)
    | Some (url, k) => o.1 = sent ++ (request <$> (pre ++ [url])) ∧ o.2 = verdict k
    end.

Section outcome.
Context {K : Type} (source : Url → option K) (request : Url → FetchRequest).
Context (verdict : K → RevResult unit).

Lemma outcome_nil sent descr :
  outcome source request verdict sent [] (sent, Err (RevocationFetchFailed descr)).
Proof.
  exists [], None. split; [by constructor|]. split; [by rewrite app_nil_r|by exists descr].
Qed.

Lemma outcome_skip sent url urls o :
  source url = None → outcome source request verdict (sent ++ [request url]) urls o →
  outcome source request verdict sent (url :: urls) o.
Proof.
  intros Hu (pre & d & Hf & Ho). exists (url :: pre), d.
  split; [by apply first_source_cons_None|].
  destruct d as [[u k]|]; cbn; rewrite <-app_assoc in Ho; done.
Qed.

Lemma outcome_hit sent url urls k r :
  source url = Some k → r = verdict k →
  outcome source request verdict sent (url :: urls) (sent ++ [request url], r).
Proof.
  intros Hu ->. exists [], (Some (url, k)). split; [by apply first_source_cons_Some|done].
Qed.
End outcome.

Section online.
Context `{PathAsn1} `{KeyIdAsn1} `{CrlAsn1} `{OcspAsn1} `{Digests} `{ChainAsn1}.
Context `{OcspRequestLib} `{SerialDisplay}.
Context {F V : Type} `{RevocationFetcher F} `{SignatureVerifier V}.

(** The checker that the response to a request makes. *)
Definition crl_source (self : HttpCrlFetcher F V) (url : Url) : option (CrlChecker V) :=
  match fetch (hc_fetcher self) (fetch_get url) with
  | inl _ => None
  | inr resp => to_ok (crl_checker_new (resp_bytes resp) (hc_now_unix self) (hc_verifier self))
  end.
Definition ocsp_source (self : HttpOcspFetcher F V) (body : bytes) (url : Url) :
    option (OcspChecker V) :=
  match fetch (ho_fetcher self) (fetch_post url body OCSP_REQUEST_CT) with
  | inl _ => None
  | inr resp => to_ok (ocsp_checker_new (resp_bytes resp) (ho_now_unix self) (ho_verifier self))
  end.

Lemma crl_checker_new_no_panic der now (v : V) : no_panic (crl_checker_new der now v).
Proof. unfold crl_checker_new. solve_no_panic. Qed.
Lemma ocsp_checker_new_no_panic der now (v : V) : no_panic (ocsp_checker_new der now v).
Proof. unfold ocsp_checker_new, parse_basic_response. solve_no_panic. Qed.

(** A failure to parse is not a panic. *)
Lemma crl_source_new self url resp :
  fetch (hc_fetcher self) (fetch_get url) = inr resp →
  match crl_checker_new (resp_bytes resp) (hc_now_unix self) (hc_verifier self) with
  | Ok ck => crl_source self url = Some ck
  | Err _ => crl_source self url = None
  | Panic => False
  end.
Proof.
  intros Hf. unfold crl_source. rewrite Hf.
  pose proof (crl_checker_new_no_panic (resp_bytes resp) (hc_now_unix self) (hc_verifier self)) as Hn.
  by destruct (crl_checker_new _ _ _).
Qed.
Lemma ocsp_source_new self body url resp :
  fetch (ho_fetcher self) (fetch_post url body OCSP_REQUEST_CT) = inr resp →
  match ocsp_checker_new (resp_bytes resp) (ho_now_unix self) (ho_verifier self) with
  | Ok ck => ocsp_source self body url = Some ck
  | Err _ => ocsp_source self body url = None
  | Panic => False
  end.
Proof.
  intros Hf. unfold ocsp_source. rewrite Hf.
  pose proof (ocsp_checker_new_no_panic (resp_bytes resp) (ho_now_unix self) (ho_verifier self)) as Hn.
  by destruct (ocsp_checker_new _ _ _).
Qed.

Lemma http_crl_loop_outcome self cert issuer all urls failures sent :
  outcome (crl_source self) fetch_get (λ ck, check_revocation ck cert issuer) sent urls
    (http_crl_loop self cert issuer all urls failures sent).
Proof.
  revert failures sent. induction urls as [|url urls IH]; intros failures sent; cbn [http_crl_loop].
  { apply outcome_nil. }
  destruct (fetch (hc_fetcher self) (fetch_get url)) as [e|resp] eqn:Hf.
  { apply outcome_skip; [by unfold crl_source; rewrite Hf|apply IH]. }
  apply crl_source_new in Hf. destruct (crl_checker_new _ _ _); [|by apply outcome_skip|done].
  by eapply outcome_hit.
Qed.

Lemma http_ocsp_loop_outcome self cert issuer body all urls failures sent :
  outcome (ocsp_source self body) (λ u, fetch_post u body OCSP_REQUEST_CT)
    (λ ck, check_revocation ck cert issuer) sent urls
    (http_ocsp_loop self cert issuer body all urls failures sent).
Proof.
  revert failures sent. induction urls as [|url urls IH]; intros failures sent; cbn [http_ocsp_loop].
  { apply outcome_nil. }
  destruct (fetch (ho_fetcher self) (fetch_post url body OCSP_REQUEST_CT)) as [e|resp] eqn:Hf.
  { apply outcome_skip; [by unfold ocsp_source; rewrite Hf|apply IH]. }
  apply ocsp_source_new in Hf. destruct (ocsp_checker_new _ _ _); [|by apply outcome_skip|done].
  by eapply outcome_hit.
Qed.

(** The end of both checks: no URL, or the outcome of the URLs. *)
Definition online_outcome {K} (source : Url → option K) (request : Url → FetchRequest)
    (verdict : K → RevResult unit) (urls : list Url) (o : list FetchRequest * RevResult unit) : Prop :=
  match urls with
  | [] => o = ([], Ok tt)
  | _ => outcome source request verdict [] urls o
  end.

(** C17: a certificate that advertises no http URL is not checked; otherwise the
    URLs are asked in order until one yields a CRL or OCSP response that parses,
    whose checker gives the verdict, and no further one is asked; when none
    does, or an extension or the request is malformed, the check fails. *)
Theorem online_check_correct (cs : HttpCrlFetcher F V) (os : HttpOcspFetcher F V) cert issuer :
  (match extract_cdp_http_urls cert with
   | Ok urls => online_outcome (crl_source cs) fetch_get (λ ck, check_revocation ck cert issuer) urls
                  (http_crl_check cs cert issuer)
   | _ => (http_crl_check cs cert issuer).1 = [] ∧
          ∃ d, (http_crl_check cs cert issuer).2 = Err (RevocationFetchFailed d)
   end) ∧
  (match build_ocsp_request cert issuer (ho_hash_alg os), extract_aia_http_urls cert with
   | Ok req, Ok aia =>
       online_outcome (ocsp_source os (req_body req)) (λ u, fetch_post u (req_body req) OCSP_REQUEST_CT)
         (λ ck, check_revocation ck cert issuer) (aia_ocsp aia) (http_ocsp_check os cert issuer)
   | _, _ => (http_ocsp_check os cert issuer).1 = [] ∧
             ∃ d, (http_ocsp_check os cert issuer).2 = Err (RevocationFetchFailed d)
   end).
Proof.
  assert (no_panic (extract_cdp_http_urls cert)) as Hc.
  { unfold extract_cdp_http_urls. solve_no_panic. }
  assert (no_panic (extract_aia_http_urls cert)) as Ha.
  { unfold extract_aia_http_urls. solve_no_panic. }
  assert (no_panic (build_ocsp_request cert issuer (ho_hash_alg os))) as Hb.
  { unfold build_ocsp_request. solve_no_panic. }
  unfold http_crl_check, http_ocsp_check. split.
  - destruct (extract_cdp_http_urls cert) as [urls|e|]; [|by eauto|done].
    case_decide as Hu; [by subst|]. destruct urls; [done|]. apply http_crl_loop_outcome.
  - destruct (build_ocsp_request _ _ _) as [req|e|]; [|by eauto|done].
    destruct (extract_aia_http_urls cert) as [aia|e|]; [|by eauto|done].
    case_decide as Hu; [by rewrite Hu|]. destruct (aia_ocsp aia) eqn:He; [done|].
    rewrite <-He at 2. apply http_ocsp_loop_outcome.
Qed.
End online.

(** ** The order of CRL numbers *)
Lemma bytes_gt_spec a b :
  Forall (λ x, x < 256)%N a → Forall (λ x, x < 256)%N b → length a = length b →
  bytes_gt a b = true ↔ (from_be_bytes b < from_be_bytes a)%N.
Proof.
  revert b. induction a as [|x a IH]; intros [|y b] Ha Hb Hl; try done.
  apply Forall_cons in Ha as [Hx Ha], Hb as [Hy Hb]. injection Hl as Hl. cbn [bytes_gt].
  change (from_be_bytes (x :: a)) with (foldl (λ a x, a * 256 + x)%N x a).
  change (from_be_bytes (y :: b)) with (foldl (λ a x, a * 256 + x)%N y b).
  rewrite !be_bytes_acc, Hl. pose proof (be_bytes_lt a Ha) as Hla. pose proof (be_bytes_lt b Hb) as Hlb.
  rewrite Hl in Hla. case_decide as Hxy.
  - subst y. rewrite IH by done. lia.
  - rewrite bool_decide_eq_true. split; intros Hlt; [|destruct (decide (y < x))%N; [done|]]; nia.
Qed.

Lemma be_bytes_zeros n b : from_be_bytes (replicate n 0%N ++ b) = from_be_bytes b.
Proof. induction n as [|n IH]; [done|]. exact IH. Qed.

Lemma crl_number_gt_spec a b :
  Forall (λ x, x < 256)%N a → Forall (λ x, x < 256)%N b →
  crl_number_gt a b = true ↔ (from_be_bytes b < from_be_bytes a)%N.
Proof.
  intros Ha Hb. unfold crl_number_gt. rewrite bytes_gt_spec.
  - by rewrite !be_bytes_zeros.
  - apply Forall_app. split; [by apply Forall_replicate|done].
  - apply Forall_app. split; [by apply Forall_replicate|done].
  - rewrite !length_app, !length_replicate. lia.
Qed.

(** ** Concurrent insertions *)

(** The operations of the threads that share a cache, in the order in which
    they take the lock. *)
Inductive cache_op :=
| PutGuarded (key : CrlCacheKey) (entry : CachedCrl)
| Invalidate (key : CrlCacheKey).
Definition run_op (c : InMemoryCache) (o : cache_op) : InMemoryCache :=
  match o with
  | PutGuarded key entry => (put_crl_guarded c key entry).1
  | Invalidate key => invalidate_crl c key
  end.

Definition octets_ok (b : bytes) : Prop := Forall (λ x, x < 256)%N b.
(** The number of the entry stored under a key. *)
Definition number_at (c : InMemoryCache) (k : CrlCacheKey) : option N :=
  e ← crl_map c !! k; from_be_bytes <$> cc_crl_number e.
Definition numbered (e : CachedCrl) : Prop := ∃ n, cc_crl_number e = Some n ∧ octets_ok n.

(** The numbers of the entries that are inserted under a key. *)
Definition number_put (k : CrlCacheKey) (o : cache_op) : option N :=
  match o with
  | PutGuarded k' e => if decide (k' = k) then from_be_bytes <$> cc_crl_number e else None
  | Invalidate _ => None
  end.
Definition keeps_key (k : CrlCacheKey) (o : cache_op) : Prop :=
  match o with
  | PutGuarded k' e => k' = k → numbered e
  | Invalidate k' => k' ≠ k
  end.

Lemma put_guarded_ne c k k' e :
  k' ≠ k → crl_map (put_crl_guarded c k' e).1 !! k = crl_map c !! k.
Proof.
  intros Hne. unfold put_crl_guarded, InMemoryCache_atomic, put_crl_if_not_rollback, write_crl.
  repeat case_match; cbn; rewrite ?lookup_insert_ne by done; done.
Qed.

Lemma run_op_poisoned c o : crl_poisoned c = false → crl_poisoned (run_op c o) = false.
Proof.
  intros Hp. destruct o; cbn; unfold put_crl_guarded, InMemoryCache_atomic, put_crl_if_not_rollback,
    write_crl; rewrite Hp; repeat case_match; done.
Qed.

(** One operation: the stored number is the larger one. *)
Lemma run_op_number c k o :
  crl_poisoned c = false → keeps_key k o →
  (∀ e n, crl_map c !! k = Some e → cc_crl_number e = Some n → octets_ok n) →
  number_at (run_op c o) k =
    match number_put k o with
    | Some n => Some (N.max n (default 0%N (number_at c k)))
    | None => number_at c k
    end ∧
  (∀ e n, crl_map (run_op c o) !! k = Some e → cc_crl_number e = Some n → octets_ok n).
Proof.
  intros Hp Hk Hc. destruct o as [k' e|k']; cbn [run_op number_put keeps_key] in *.
  - case_decide as Hkk; [|by unfold number_at; rewrite put_guarded_ne].
    subst k'. destruct (Hk eq_refl) as (n & Hn & Hb). rewrite Hn. cbn [fmap option_fmap option_map].
    unfold put_crl_guarded, InMemoryCache_atomic, put_crl_if_not_rollback, write_crl, number_at.
    rewrite Hp. destruct (crl_map c !! k) as [old|] eqn:Ho; cbn [is_rollback].
    + rewrite Hn. destruct (cc_crl_number old) as [m|] eqn:Hm; cbn.
      * specialize (Hc old m eq_refl Hm). pose proof (crl_number_gt_spec m n Hc Hb) as Hgt.
        destruct (crl_number_gt m n); cbn; rewrite ?lookup_insert_eq, ?Ho; cbn; rewrite ?Hm, ?Hn; cbn.
        -- assert (from_be_bytes n < from_be_bytes m)%N by (by apply Hgt).
           split; [f_equal; lia|]. intros ? ? [= <-]. rewrite Hm. by intros [= <-].
        -- assert (¬ (from_be_bytes n < from_be_bytes m)%N) by (intros Hx; apply Hgt in Hx; done).
           split; [f_equal; lia|]. intros ? ? [= <-]. rewrite Hn. by intros [= <-].
      * rewrite lookup_insert_eq. cbn. rewrite Hn, Hm. cbn.
        split; [f_equal; lia|]. intros ? ? [= <-]. rewrite Hn. by intros [= <-].
    + cbn. rewrite lookup_insert_eq. cbn. rewrite Hn. cbn.
      split; [f_equal; lia|]. intros ? ? [= <-]. rewrite Hn. by intros [= <-].
  - cbn. unfold number_at, write_crl. rewrite Hp. cbn. by rewrite lookup_delete_ne.
Qed.

Lemma run_ops_number c k ops :
  crl_poisoned c = false → Forall (keeps_key k) ops →
  (∀ e n, crl_map c !! k = Some e → cc_crl_number e = Some n → octets_ok n) →
  number_at (foldl run_op c ops) k =
    match omap (number_put k) ops with
    | [] => number_at c k
    | ns => Some (foldr N.max (default 0%N (number_at c k)) ns)
    end.
Proof.
  intros Hp Hops. revert c Hp. induction Hops as [|o ops Ho Hops IH]; intros c Hp Hc; [done|].
  destruct (run_op_number c k o Hp Ho Hc) as [Hn Hc'].
  cbn [foldl]. rewrite IH; [|by apply run_op_poisoned|done]. rewrite Hn.
  cbn [omap list_omap]. destruct (number_put k o) as [m|]; [|done]. cbn [default from_option id].
  destruct (omap (number_put k) ops) as [|x ns]; [done|]. cbn [default from_option id foldr]. f_equal.
  assert (∀ y z l, foldr N.max (N.max y z) l = N.max y (foldr N.max z l)) as Hmax.
  { intros y z l. induction l as [|w l IHl]; cbn; [done|]. rewrite IHl. lia. }
  rewrite Hmax. lia.
Qed.

(** C19: when threads insert numbered CRLs in the cache in memory, in whatever
    order they take the lock, the number stored under a key is in the end the
    largest one, so it never decreases and does not depend on the order. *)
Theorem guarded_puts_keep_largest c k ops ops'
    (Hp : crl_poisoned c = false) (Hops : Forall (keeps_key k) ops)
    (Hc : ∀ e n, crl_map c !! k = Some e → cc_crl_number e = Some n → octets_ok n)
    (Hperm : ops ≡ₚ ops') :
  number_at (foldl run_op c ops) k = number_at (foldl run_op c ops') k ∧
  (∀ n, number_at c k = Some n →
     ∃ n', number_at (foldl run_op c ops) k = Some n' ∧ (n ≤ n')%N) ∧
  (∀ n, n ∈ omap (number_put k) ops →
     ∃ n', number_at (foldl run_op c ops) k = Some n' ∧ (n ≤ n')%N).
Proof.
  assert (Forall (keeps_key k) ops') as Hops' by (by rewrite <-Hperm).
  rewrite !run_ops_number by done.
  assert (omap (number_put k) ops ≡ₚ omap (number_put k) ops') as Hns by (by rewrite Hperm).
  assert (∀ z l n, n ∈ l ∨ n = z → (n ≤ foldr N.max z l)%N) as Hle.
  { intros z l n. induction l as [|x l IH]; cbn; [intros [Hx%elem_of_nil| ->]; [done|lia]|].
    rewrite elem_of_cons. intros [[->|Hn]|Hz]; [lia| |]; [specialize (IH (or_introl Hn))|specialize (IH (or_intror Hz))]; lia. }
  assert (∀ z l l', l ≡ₚ l' → foldr N.max z l = foldr N.max z l') as Hfp.
  { intros z l l' Hl. induction Hl; cbn; [done| | |]; lia. }
  split_and!.
  - destruct (omap (number_put k) ops) as [|x l] eqn:Ho.
    { apply Permutation_nil_l in Hns. by rewrite <-Hns. }
    destruct (omap (number_put k) ops') as [|x' l'] eqn:Ho';
      [by symmetry in Hns; apply Permutation_nil_cons in Hns|].
    f_equal. by apply Hfp.
  - intros n Hn. rewrite Hn. destruct (omap (number_put k) ops); [by exists n|].
    eexists. split; [done|]. apply Hle. by right.
  - intros n Hn. destruct (omap (number_put k) ops) eqn:Ho; [by apply elem_of_nil in Hn|].
    eexists. split; [done|]. apply Hle. by left.
Qed.

(** ** What the cache holds and what a cached verdict rests on *)

(** What the theorems ask of a cache: an insertion makes nothing up, and may
    evict; invalidation removes the entry of its key. *)
Class CacheLaws (C : Type) `{RevocationCache C, CrlAtomicPut C} := {
  get_put_guarded (c : C) k e k' e' :
    get_crl (put_crl_guarded c k e).1 k' = Some e' → (k' = k ∧ e' = e) ∨ get_crl c k' = Some e';
  get_invalidate_crl (c : C) k k' :
    get_crl (invalidate_crl c k) k' = if decide (k' = k) then None else get_crl c k';
  get_put_ocsp (c : C) k e k' e' :
    get_ocsp (put_ocsp c k e) k' = Some e' → (k' = k ∧ e' = e) ∨ get_ocsp c k' = Some e';
  get_invalidate_ocsp (c : C) k k' :
    get_ocsp (invalidate_ocsp c k) k' = if decide (k' = k) then None else get_ocsp c k' }.

Lemma lookup_insert_cases {K A} `{Countable K} (m : gmap K A) k a k' a' :
  <[k := a]> m !! k' = Some a' → (k' = k ∧ a' = a) ∨ m !! k' = Some a'.
Proof.
  destruct (decide (k' = k)) as [->|Hne].
  - rewrite lookup_insert_eq. intros [= <-]. by left.
  - rewrite lookup_insert_ne by congruence. by right.
Qed.

Lemma lookup_delete_cases {K A} `{Countable K} (m : gmap K A) k k' :
  delete k m !! k' = if decide (k' = k) then None else m !! k'.
Proof.
  case_decide as Hk; [subst; apply lookup_delete_eq|by rewrite lookup_delete_ne].
Qed.

#[global] Instance InMemoryCache_laws : CacheLaws InMemoryCache.
Proof.
  split; intros c k; cbn; unfold put_crl_guarded, InMemoryCache_atomic, put_crl_if_not_rollback,
    write_crl, write_ocsp; intros *.
  - destruct (crl_poisoned c) eqn:Hp; cbn; rewrite ?Hp; [by right|].
    repeat case_match; cbn; try (apply lookup_insert_cases); rewrite ?Hp; by right.
  - destruct (crl_poisoned c) eqn:Hp; cbn; rewrite ?Hp; [by case_decide|].
    apply lookup_delete_cases.
  - destruct (ocsp_poisoned c) eqn:Hp; cbn; rewrite ?Hp; [done|]. apply lookup_insert_cases.
  - destruct (ocsp_poisoned c) eqn:Hp; cbn; rewrite ?Hp; [by case_decide|].
    apply lookup_delete_cases.
Qed.

Section cached_spec.
Context `{PathAsn1} `{KeyIdAsn1} `{CrlAsn1} `{OcspAsn1} `{Digests} `{ChainAsn1}.
Context `{OcspRequestLib} `{SerialDisplay}.
Context {F V C : Type} `{RevocationFetcher F} `{SignatureVerifier V}.
Context `{RevocationCache C} `{!CrlAtomicPut C} `{!CacheLaws C}.
Implicit Types (w : World C) (c : C).

Definition crl_key (der : bytes) (url : Url) : CrlCacheKey :=
  {| issuer_dn_der := der; distribution_point_uri := Some url |}.
















End cached_spec.

(** ** Sample runs *)
Module OnlineSample.
(** A CRL is [kind; number; nextUpdate; serials], forged when [kind] is 9. *)
Definition crl_of (b : bytes) : CertificateList :=
  match b with
  | kind :: n :: next :: serials => {|
      tbs_cert_list := {|
        crl_issuer := sample_name "ca1"; this_update := {| to_unix_secs := 100 |};
        next_update := Some {| to_unix_secs := next |};
        revoked_certificates :=
          Some ((λ s, {| rc_serial_number := [s]; crl_entry_extensions := None |}) <$> serials);
        crl_extensions := Some [sample_ext OID_CRL_NUMBER [n]] |};
      crl_signature_algorithm := sample_alg;
      crl_signature := {| unused_bits := 0;
                          raw_bytes := if decide (kind = 9)%N then [] else str "ca1" |} |}
  | _ => {|
      tbs_cert_list := {|
        crl_issuer := []; this_update := {| to_unix_secs := 0 |}; next_update := None;
        revoked_certificates := None; crl_extensions := None |};
      crl_signature_algorithm := sample_alg;
      crl_signature := {| unused_bits := 0; raw_bytes := [] |} |}
  end.
#[export] Instance crl_asn1 : CrlAsn1 := {|
  decode_certificate_list := sample_der crl_of;
  encode_tbs_cert_list := λ _, inr [];
  decode_crl_reason := λ _, inr Unspecified;
  decode_uint := sample_der (λ b, {| uint_bytes := b |});
  decode_issuing_dp := λ _, inl "malformed"%string;
  decode_crl_distribution_points := sample_der (λ b, {| cdp_points :=
    [{| dp_distribution_point := Some (FullName [UniformResourceIdentifier b]) |}] |});
  decode_general_names := λ _, inl "malformed"%string;
  overflow_error := "integer overflow";
  value_sequence_error := "value error" |}.
#[export] Instance ocsp_asn1 : OcspAsn1 := {|
  decode_ocsp_response := λ _, inl "malformed"%string;
  decode_basic_response := λ _, inl "malformed"%string;
  encode_response_data := λ _, inr [];
  encode_name := λ n, inr (mjoin n ≫= λ a, any_value (ava_value a)) |}.
#[export] Instance serial_string : SerialDisplay := λ _, "serial"%string.

(** A server that answers the same bytes to every request. *)
Record Server := { answers : bytes }.
#[export] Instance Server_fetch : RevocationFetcher Server :=
  λ s _, inr {| resp_bytes := answers s; resp_content_type := None |}.
Definition crl_fetcher (b : bytes) (now : N) : HttpCrlFetcher Server SampleVerifier :=
  {| hc_fetcher := {| answers := b |}; hc_verifier := MkSampleVerifier; hc_now_unix := now |}.

Definition ca1 : Certificate := sample_ca "root" "ca1" 7 [].
Definition leaf : Certificate := sample_cert "ca1" "leaf" 2
  [{| extn_id := OID_CRL_DISTRIBUTION_POINTS; critical := false; extn_value := str "http://crl" |}].

(** The check of [leaf] at a time, with a server that answers [b]. *)
Definition run (b : bytes) (now : N) (c : InMemoryCache) : World InMemoryCache * RevResult unit :=
  cached_crl_check (crl_fetcher b now) leaf ca1 c.
Definition cache_after (b : bytes) (now : N) (c : InMemoryCache) : InMemoryCache :=
  w_cache (run b now c).1.
End OnlineSample.
Import OnlineSample.

(** A live entry answers without a request. *)
Example cached_verdict :
  let c := cache_after [0; 5; 200; 2]%N 150 in_memory_cache_new in
  (run [0; 5; 200]%N 160 c).2 = Err (Revoked [2%N] None) ∧ w_sent (run [0; 5; 200]%N 160 c).1 = [].
Proof. vm_compute. by split. Qed.

(** The CRL of number 9 that revokes the certificate is in the cache and has
    expired; the server answers with number 3, which does not: the cache keeps
    number 9, but the check answers from number 3. *)
Theorem rolled_back_crl_decides :
  let c := cache_after [0; 9; 200; 2]%N 150 in_memory_cache_new in
  let '(w, r) := run [0; 3; 300]%N 250 c in
  r = Ok tt ∧ number_at (w_cache w) (crl_key (str "ca1") (str "http://crl")) = Some 9%N.
Proof. vm_compute. by split. Qed.

(** One forged CRL with a late [nextUpdate] is stored before its signature is
    checked, and decides every later check, whatever the server answers. *)
Theorem forged_crl_stays_in_cache :
  let c := cache_after [9; 1; 199]%N 150 in_memory_cache_new in
  ∀ honest, run honest 151 c =
    ({| w_cache := c; w_sent := [] |}, Err CrlSignatureInvalid).
Proof. intros c honest. vm_compute. reflexivity. Qed.

(** Behind the trait object a lookup and an insertion are two steps: two threads
    that both looked before either inserted leave the smaller number. *)
Example dyn_cache_can_roll_back :
  let k := crl_key [] [] in
  let e n := {| cc_crl_number := Some [n]; cc_this_update := 0; cc_next_update := None; cc_bytes := [] |} in
  let c := Build_DynCache in_memory_cache_new in
  is_rollback (get_crl c k) (cc_crl_number (e 7%N)) = false ∧
  is_rollback (get_crl c k) (cc_crl_number (e 5%N)) = false ∧
  number_at (dyn_cache (put_crl (put_crl c k (e 7%N)) k (e 5%N))) k = Some 5%N.
Proof. by vm_compute. Qed.

Lemma guarded_puts_keep_largest_witness :
  let k := crl_key [] [] in
  let e n := {| cc_crl_number := Some [n]; cc_this_update := 0; cc_next_update := None; cc_bytes := [] |} in
  number_at (foldl run_op in_memory_cache_new [PutGuarded k (e 7%N); PutGuarded k (e 5%N)]) k =
  number_at (foldl run_op in_memory_cache_new [PutGuarded k (e 5%N); PutGuarded k (e 7%N)]) k.
Proof.
  intros k e. refine (proj1 (guarded_puts_keep_largest in_memory_cache_new k _ _ eq_refl _ _ _)).
  - repeat constructor; intros _; eexists; (split; [reflexivity|by repeat constructor]).
  - intros ? ? He. vm_compute in He. discriminate He.
  - apply Permutation_swap.
Defined.

