(* ===== verification/LintTypes.v ===== *)
(** * The vocabulary of the lint engine (pkix-lint/src/lib.rs)

    Severities, scopes, subject kinds, parameters, results and findings; the
    hexadecimal form of a digest in a serialised finding; and the truncation of
    strings that a certificate supplies.  A Rust [str] is here the list of the
    octets of its UTF-8 encoding. *)
From S2P Require Import Prelude X509 Identity.

(** ** Strings *)

(** A number in decimal, as [{}] writes a [usize] or a [u64]: 20 digits at most. *)
Definition fmt_u64 (n : N) : bytes := fmt_digits 20 10 n [].

(** [str::is_char_boundary]: the start, the end, or an octet that does not
    continue a character ([(b as i8) >= -0x40]). *)
Definition is_char_boundary (s : bytes) (i : nat) : bool :=
  match s !! i with
  | Some b => bool_decide (i = 0) || negb (bool_decide (N.land b 192 = 128)%N)
  | None => bool_decide (i = length s)
  end.

Definition DETAIL_MAX_BYTES : nat := 256.

(** [while !s.is_char_boundary(cut) { cut -= 1; }]; index 0 is a boundary. *)
Fixpoint last_boundary (s : bytes) (cut : nat) : nat :=
  match cut with
  | 0 => 0
  | S c => if is_char_boundary s cut then cut else last_boundary s c
  end.

Definition truncate_for_detail (s : bytes) : bytes :=
  if decide (length s ≤ DETAIL_MAX_BYTES) then s
  else take (last_boundary s DETAIL_MAX_BYTES) s ++ str "... (truncated, "
         ++ fmt_u64 (N.of_nat (length s)) ++ str " bytes total)".

(** ** Severities, scopes and positions *)
Inductive Severity := SevInfo | SevNotice | SevWarn | SevError | SevFatal.
#[global] Instance Severity_eq_dec : EqDecision Severity.
Proof. solve_decision. Defined.

Definition rank (s : Severity) : N :=
  match s with
  | SevInfo => 10 | SevNotice => 20 | SevWarn => 30 | SevError => 40 | SevFatal => 50
  end.

Definition severity_display (s : Severity) : bytes :=
  str match s with
      | SevInfo => "info" | SevNotice => "notice" | SevWarn => "warn"
      | SevError => "error" | SevFatal => "fatal"
      end.

Inductive Scope := ScopeCertificate | ScopePath.
#[global] Instance Scope_eq_dec : EqDecision Scope.
Proof. solve_decision. Defined.

Inductive SubjectKind := KindLeaf | KindIntermediateCa | KindAnchorIssued | KindAny.
#[global] Instance SubjectKind_eq_dec : EqDecision SubjectKind.
Proof. solve_decision. Defined.

(** [self.matches(filter)] *)
Definition kind_matches (self filter : SubjectKind) : bool :=
  match filter with
  | KindAny => true
  | KindIntermediateCa =>
      bool_decide (self = KindIntermediateCa) || bool_decide (self = KindAnchorIssued)
  | other => bool_decide (self = other)
  end.

(** ** Parameters *)
Record LintParameter := { param_id : bytes; label : bytes; default_value : bytes }.
#[global] Instance LintParameter_eq_dec : EqDecision LintParameter.
Proof. solve_decision. Defined.

Inductive ParameterError :=
| UnknownParameter (id : bytes)
| InvalidValue (id reason : bytes).
#[global] Instance ParameterError_eq_dec : EqDecision ParameterError.
Proof. solve_decision. Defined.

Definition parameter_error_display (e : ParameterError) : bytes :=
  match e with
  | UnknownParameter id => str "unknown lint parameter '" ++ id ++ str "'"
  | InvalidValue id reason =>
      str "invalid value for lint parameter '" ++ id ++ str "': " ++ reason
  end.

(** ** Results *)
Inductive LintResult :=
| LintPass
| LintNotApplicable
| LintWarn (detail : bytes)
| LintError (detail : bytes)
| LintFatal (detail : bytes).
#[global] Instance LintResult_eq_dec : EqDecision LintResult.
Proof. solve_decision. Defined.

Definition is_pass (r : LintResult) : bool :=
  match r with LintPass => true | _ => false end.
Definition is_finding (r : LintResult) : bool :=
  match r with LintWarn _ | LintError _ | LintFatal _ => true | _ => false end.
Definition is_fatal (r : LintResult) : bool :=
  match r with LintFatal _ => true | _ => false end.
Definition result_detail (r : LintResult) : option bytes :=
  match r with LintWarn d | LintError d | LintFatal d => Some d | _ => None end.

Definition lint_result_display (r : LintResult) : bytes :=
  match r with
  | LintPass => str "Pass"
  | LintNotApplicable => str "NotApplicable"
  | LintWarn msg => str "Warn: " ++ msg
  | LintError msg => str "Error: " ++ msg
  | LintFatal msg => str "Fatal: " ++ msg
  end.

(** ** Findings *)
Record Finding := {
  lint_id : bytes;
  citation : bytes;
  rule_bundle_version : bytes;
  finding_result : LintResult;
  cert_index : option nat;
  evaluated_at_unix : N;
  cert_sha256 : option bytes }.
#[global] Instance Finding_eq_dec : EqDecision Finding.
Proof. solve_decision. Defined.

Definition finding_is_finding (f : Finding) : bool := is_finding (finding_result f).

Definition finding_new (lint_id citation rule_bundle_version : bytes) (r : LintResult)
    (evaluated_at_unix : N) : Finding := {|
  lint_id := lint_id; citation := citation; rule_bundle_version := rule_bundle_version;
  finding_result := r; cert_index := None; evaluated_at_unix := evaluated_at_unix;
  cert_sha256 := None |}.

Definition with_cert_index (i : nat) (f : Finding) : Finding := {|
  lint_id := lint_id f; citation := citation f; rule_bundle_version := rule_bundle_version f;
  finding_result := finding_result f; cert_index := Some i;
  evaluated_at_unix := evaluated_at_unix f; cert_sha256 := cert_sha256 f |}.

Definition with_cert_sha256 (h : bytes) (f : Finding) : Finding := {|
  lint_id := lint_id f; citation := citation f; rule_bundle_version := rule_bundle_version f;
  finding_result := finding_result f; cert_index := cert_index f;
  evaluated_at_unix := evaluated_at_unix f; cert_sha256 := Some h |}.

Definition result_label (r : LintResult) : bytes :=
  str match r with
      | LintWarn _ => "warn" | LintError _ => "error" | LintFatal _ => "fatal"
      | LintPass => "pass" | LintNotApplicable => "n/a"
      end.

Definition finding_display (f : Finding) : bytes :=
  let head := lint_id f ++ str " [" ++ result_label (finding_result f) ++ str "]" in
  match result_detail (finding_result f) with
  | Some msg => head ++ str ": " ++ msg
  | None => head
  end.

(** The SHA-256 digest of the re-encoded certificate. *)
Definition cert_sha256_of `{Sha256} `{Encode Certificate} (cert : Certificate) : option bytes :=
  match to_der cert with inr der => Some (sha256_digest der) | inl _ => None end.

(** ** The digest of a serialised finding (module [cert_sha256_hex]) *)

(** [char::from_digit(n, 16)] *)
Definition from_digit_16 (n : N) : option N :=
  if decide (n < 10)%N then Some (48 + n)%N
  else if decide (n < 16)%N then Some (87 + n)%N else None.

Definition nibble (b : N) : option N :=
  if decide (48 ≤ b ∧ b ≤ 57)%N then Some (b - 48)%N
  else if decide (97 ≤ b ∧ b ≤ 102)%N then Some (b - 97 + 10)%N
  else if decide (65 ≤ b ∧ b ≤ 70)%N then Some (b - 65 + 10)%N
  else None.

Inductive HexError := InvalidLength (n : nat) | NonHexChar.
#[global] Instance HexError_eq_dec : EqDecision HexError.
Proof. solve_decision. Defined.

(** [None] is the JSON [null]; the [expect]s are on digits below 16. *)
Fixpoint serialize_octets (b : bytes) : result HexError bytes :=
  match b with
  | [] => Ok []
  | x :: b =>
      hi ← expect (from_digit_16 (N.shiftr x 4));
      lo ← expect (from_digit_16 (N.land x 15));
      rest ← serialize_octets b;
      Ok (hi :: lo :: rest)
  end.
Definition cert_sha256_serialize (v : option bytes) : result HexError (option bytes) :=
  match v with Some b => Some <$> serialize_octets b | None => Ok None end.

(** [for (i, byte) in out.iter_mut().enumerate()], with [n] octets left. *)
Fixpoint deserialize_octets (n i : nat) (hex : bytes) : result HexError bytes :=
  match n with
  | 0 => Ok []
  | S n =>
      h ← index hex (i * 2);
      hi ← ok_or (nibble h) NonHexChar;
      l ← index hex (i * 2 + 1);
      lo ← ok_or (nibble l) NonHexChar;
      rest ← deserialize_octets n (S i) hex;
      Ok (N.lor (N.shiftl hi 4) lo :: rest)
  end.
Definition cert_sha256_deserialize (v : option bytes) : result HexError (option bytes) :=
  match v with
  | None => Ok None
  | Some hex =>
      _ ← fail_if (negb (bool_decide (length hex = 64))) (InvalidLength (length hex));
      Some <$> deserialize_octets 32 0 hex
  end.
