(* ===== verification/Json.v ===== *)
(** * JSON values of the crate [serde_json]

    [Value] with the accessors the OSCAL modules use ([as_array], [as_object],
    [as_str], [Map::get], [Map::insert]).  An object is an association list: the
    source reads it through [get] only, which finds the first entry of a key.
    Nothing of this file is code of the repository. *)
From S2P Require Import Prelude.

(** A number is only carried along: its rendering. *)
Inductive Value :=
| Null
| Bool (b : bool)
| Number (repr : bytes)
| String (s : bytes)
| Array (l : list Value)
| Object (m : list (bytes * Value)).
Abbreviation Map := (list (bytes * Value)).

Definition as_array (v : Value) : option (list Value) :=
  match v with Array l => Some l | _ => None end.
Definition as_object (v : Value) : option Map :=
  match v with Object m => Some m | _ => None end.
Definition as_str (v : Value) : option bytes :=
  match v with String s => Some s | _ => None end.

(** [Map::get] *)
Fixpoint get (key : bytes) (m : Map) : option Value :=
  match m with
  | [] => None
  | (k, v) :: m => if decide (k = key) then Some v else get key m
  end.
Definition contains_key (key : bytes) (m : Map) : bool :=
  match get key m with Some _ => true | None => false end.

(** [m.insert(key, v)] of a key that is not in the map yet. *)
Definition insert_new (key : bytes) (v : Value) (m : Map) : Map := m ++ [(key, v)].

(** [Value::get] with a string index. *)
Definition value_get (key : bytes) (v : Value) : option Value :=
  match as_object v with Some m => get key m | None => None end.

Lemma get_app key m1 m2 :
  get key (m1 ++ m2) = match get key m1 with Some v => Some v | None => get key m2 end.
Proof. induction m1 as [|[k v] m1 IH]; cbn; [done|]. by case_decide. Qed.
