(* ===== verification/Deviation.v ===== *)
(** * Deviations and their store (pkix-lint/src/deviation.rs)

    An approved deviation waives the findings of one lint on the certificates
    its scope matches, while it is active.  The store rejects a deviation that
    is incomplete, malformed or a duplicate, and selects among those that apply
    the one of the highest priority.  The text of a name and the Unicode lower
    case are library code, hence parameters. *)
From S2P Require Import Prelude X509 Names Identity Json LintTypes.

(** [Name::to_string] and [str::to_lowercase]. *)
Class NameText := {
  name_display : Name → bytes;
  to_lowercase : bytes → bytes }.

(** [s.contains(pat)] *)
Definition contains_str (pat s : bytes) : bool :=
  match find_str pat s with Some _ => true | None => false end.

Inductive DeviationAddError :=
| DuplicateId (id : bytes)
| EmptyField (field : bytes)
| MalformedScope (kind reason : bytes).
#[global] Instance DeviationAddError_eq_dec : EqDecision DeviationAddError.
Proof. solve_decision. Defined.

Definition deviation_add_error_display (e : DeviationAddError) : bytes :=
  match e with
  | DuplicateId id => str "deviation id '" ++ id ++ str "' already exists in the store"
  | EmptyField field => str "deviation field '" ++ field ++ str "' must not be empty"
  | MalformedScope kind reason =>
      str "deviation scope kind '" ++ kind ++ str "' is malformed: " ++ reason
  end.

(** ** Scopes *)
Definition SCOPE_KIND_ANY : bytes := str "pkix-lint.scope.any".
Definition SCOPE_KIND_ISSUER_DN_CONTAINS : bytes := str "pkix-lint.scope.issuer-dn-contains".
Definition SCOPE_KIND_ISSUER_DN_EXACT : bytes := str "pkix-lint.scope.issuer-dn-exact".
Definition SCOPE_KIND_SERIAL_RANGE : bytes := str "pkix-lint.scope.serial-range".
Definition PROP_ISSUER_DN_SUBSTRING : bytes := str "pkix-lint.issuer-dn-substring".
Definition PROP_ISSUER_DN_DER : bytes := str "pkix-lint.issuer-dn-der".
Definition PROP_SERIAL_START : bytes := str "pkix-lint.serial-start".
Definition PROP_SERIAL_END : bytes := str "pkix-lint.serial-end".

Inductive ScopePropValue := Text (s : bytes) | Bytes (b : bytes).
#[global] Instance ScopePropValue_eq_dec : EqDecision ScopePropValue.
Proof. solve_decision. Defined.

Record DeviationScope := { kind : bytes; props : list (bytes * ScopePropValue) }.
#[global] Instance DeviationScope_eq_dec : EqDecision DeviationScope.
Proof. solve_decision. Defined.

Definition scope_any : DeviationScope := {| kind := SCOPE_KIND_ANY; props := [] |}.
Definition issuer_dn_contains (substring : bytes) : DeviationScope := {|
  kind := SCOPE_KIND_ISSUER_DN_CONTAINS;
  props := [(PROP_ISSUER_DN_SUBSTRING, Text substring)] |}.
Definition issuer_dn_exact (issuer_der : bytes) : DeviationScope := {|
  kind := SCOPE_KIND_ISSUER_DN_EXACT; props := [(PROP_ISSUER_DN_DER, Bytes issuer_der)] |}.
Definition serial_range (issuer_der start end_ : bytes) : DeviationScope := {|
  kind := SCOPE_KIND_SERIAL_RANGE;
  props := [(PROP_ISSUER_DN_DER, Bytes issuer_der); (PROP_SERIAL_START, Bytes start);
            (PROP_SERIAL_END, Bytes end_)] |}.

Fixpoint find_prop (name : bytes) (l : list (bytes * ScopePropValue)) : option ScopePropValue :=
  match l with
  | [] => None
  | (k, v) :: l => if decide (k = name) then Some v else find_prop name l
  end.
Definition get_prop (name : bytes) (s : DeviationScope) : option ScopePropValue :=
  find_prop name (props s).
Definition get_text (name : bytes) (s : DeviationScope) : option bytes :=
  match get_prop name s with Some (Text t) => Some t | _ => None end.
Definition get_bytes (name : bytes) (s : DeviationScope) : option bytes :=
  match get_prop name s with Some (Bytes b) => Some b | _ => None end.

(** ** Serial numbers as positive integers *)

(** [<[u8] as Ord>::cmp] *)
Fixpoint slice_cmp (a b : bytes) : comparison :=
  match a, b with
  | [], [] => Eq
  | [], _ :: _ => Lt
  | _ :: _, [] => Gt
  | x :: a, y :: b => match N.compare x y with Eq => slice_cmp a b | c => c end
  end.

Fixpoint strip_leading_zeros (b : bytes) : bytes :=
  match b with
  | x :: r => if decide (x = 0%N) then strip_leading_zeros r else b
  | [] => []
  end.

Definition serial_cmp (a b : bytes) : comparison :=
  let a := strip_leading_zeros a in
  let b := strip_leading_zeros b in
  match Nat.compare (length a) (length b) with Eq => slice_cmp a b | c => c end.

Definition is_ge (c : comparison) : bool := match c with Lt => false | _ => true end.
Definition is_le (c : comparison) : bool := match c with Gt => false | _ => true end.

(** ** The scope of a certificate *)
Section scope_matches.
Context `{NameText} `{DecodeOwned Name}.

Definition scope_matches (self : DeviationScope) (cert : Certificate) : bool :=
  let tbs := tbs_certificate cert in
  if decide (kind self = SCOPE_KIND_ANY) then true
  else if decide (kind self = SCOPE_KIND_ISSUER_DN_CONTAINS) then
    match get_text PROP_ISSUER_DN_SUBSTRING self with
    | None => false
    | Some substring => contains_str substring (to_lowercase (name_display (issuer tbs)))
    end
  else if decide (kind self = SCOPE_KIND_ISSUER_DN_EXACT) then
    match get_bytes PROP_ISSUER_DN_DER self with
    | None => false
    | Some der =>
        match from_der der with inl _ => false | inr name => names_match name (issuer tbs) end
    end
  else if decide (kind self = SCOPE_KIND_SERIAL_RANGE) then
    match get_bytes PROP_ISSUER_DN_DER self, get_bytes PROP_SERIAL_START self,
          get_bytes PROP_SERIAL_END self with
    | Some der, Some start, Some end_ =>
        match from_der der with
        | inl _ => false
        | inr issuer_name =>
            if negb (names_match issuer_name (issuer tbs)) then false
            else is_ge (serial_cmp (serial_number tbs) start)
                 && is_le (serial_cmp (serial_number tbs) end_)
        end
    | _, _, _ => false
    end
  else false.
End scope_matches.

(** ** Validation of a scope *)
Definition missing_prop (s : DeviationScope) (prop : bytes) : DeviationAddError :=
  MalformedScope (kind s) (str "missing required prop '" ++ prop ++ str "'").
Definition wrong_type (s : DeviationScope) (prop expected : bytes) : DeviationAddError :=
  MalformedScope (kind s)
    (str "prop '" ++ prop ++ str "' has wrong type (expected " ++ expected ++ str ")").

Definition require_bytes (s : DeviationScope) (prop : bytes) : result DeviationAddError unit :=
  match get_prop prop s with
  | None => Err (missing_prop s prop)
  | Some (Bytes _) => Ok tt
  | Some _ => Err (wrong_type s prop (str "Bytes"))
  end.

Definition validate_scope (s : DeviationScope) : result DeviationAddError unit :=
  if decide (kind s = SCOPE_KIND_ANY) then Ok tt
  else if decide (kind s = SCOPE_KIND_ISSUER_DN_CONTAINS) then
    match get_prop PROP_ISSUER_DN_SUBSTRING s with
    | None => Err (missing_prop s PROP_ISSUER_DN_SUBSTRING)
    | Some (Text _) => Ok tt
    | Some _ => Err (wrong_type s PROP_ISSUER_DN_SUBSTRING (str "Text"))
    end
  else if decide (kind s = SCOPE_KIND_ISSUER_DN_EXACT) then require_bytes s PROP_ISSUER_DN_DER
  else if decide (kind s = SCOPE_KIND_SERIAL_RANGE) then
    try_for_each (λ _, require_bytes s) [PROP_ISSUER_DN_DER; PROP_SERIAL_START; PROP_SERIAL_END]
  else Ok tt.

(** ** Serialisation of a scope (its JSON form) *)

(** [format!("{b:02x}")] *)
Definition fmt_02x (b : N) : bytes :=
  let d := fmt_hex_u16 b in replicate (2 - length d) 48%N ++ d.
Definition hex_encode (b : bytes) : bytes := b ≫= fmt_02x.

Definition scope_prop_value_serialize (v : ScopePropValue) : Value :=
  match v with
  | Text s => Object [(str "Text", String s)]
  | Bytes b => Object [(str "Bytes", Object [(str "hex", String (hex_encode b))])]
  end.
Definition deviation_scope_serialize (s : DeviationScope) : Value :=
  Object [(str "kind", String (kind s));
          (str "props", Array ((λ p, Array [String p.1; scope_prop_value_serialize p.2]) <$> props s))].

(** ** Deviations *)
Inductive DeviationAction := DowngradeSeverityTo (s : Severity) | Suppress.
#[global] Instance DeviationAction_eq_dec : EqDecision DeviationAction.
Proof. solve_decision. Defined.

(** A priority is an [i32]. *)
Record Deviation := {
  dev_id : bytes;
  target_lint : bytes;
  dev_scope : DeviationScope;
  effective_start : option N;
  effective_end : option N;
  dev_action : DeviationAction;
  justification : bytes;
  authorized_by : bytes;
  evidence_uri : option bytes;
  priority : Z }.
#[global] Instance Deviation_eq_dec : EqDecision Deviation.
Proof. solve_decision. Defined.

Definition str_is_empty (s : bytes) : bool := match s with [] => true | _ => false end.

Definition deviation_new (id target_lint : bytes) (scope : DeviationScope) (action : DeviationAction)
    (justification authorized_by : bytes) : result DeviationAddError Deviation :=
  _ ← fail_if (str_is_empty id) (EmptyField (str "id"));
  _ ← fail_if (str_is_empty target_lint) (EmptyField (str "target_lint"));
  _ ← fail_if (str_is_empty justification) (EmptyField (str "justification"));
  _ ← fail_if (str_is_empty authorized_by) (EmptyField (str "authorized_by"));
  Ok {| dev_id := id; target_lint := target_lint; dev_scope := scope; effective_start := None;
        effective_end := None; dev_action := action; justification := justification;
        authorized_by := authorized_by; evidence_uri := None; priority := 0 |}.

(** The builders: [with_effective_start], [with_effective_end],
    [with_evidence_uri] and [with_priority]. *)
Definition with_effective_start (unix_seconds : N) (d : Deviation) : Deviation := {|
  dev_id := dev_id d; target_lint := target_lint d; dev_scope := dev_scope d;
  effective_start := Some unix_seconds; effective_end := effective_end d;
  dev_action := dev_action d; justification := justification d;
  authorized_by := authorized_by d; evidence_uri := evidence_uri d; priority := priority d |}.
Definition with_effective_end (unix_seconds : N) (d : Deviation) : Deviation := {|
  dev_id := dev_id d; target_lint := target_lint d; dev_scope := dev_scope d;
  effective_start := effective_start d; effective_end := Some unix_seconds;
  dev_action := dev_action d; justification := justification d;
  authorized_by := authorized_by d; evidence_uri := evidence_uri d; priority := priority d |}.
Definition with_evidence_uri (uri : bytes) (d : Deviation) : Deviation := {|
  dev_id := dev_id d; target_lint := target_lint d; dev_scope := dev_scope d;
  effective_start := effective_start d; effective_end := effective_end d;
  dev_action := dev_action d; justification := justification d;
  authorized_by := authorized_by d; evidence_uri := Some uri; priority := priority d |}.
Definition with_priority (p : Z) (d : Deviation) : Deviation := {|
  dev_id := dev_id d; target_lint := target_lint d; dev_scope := dev_scope d;
  effective_start := effective_start d; effective_end := effective_end d;
  dev_action := dev_action d; justification := justification d;
  authorized_by := authorized_by d; evidence_uri := evidence_uri d; priority := p |}.
(** [deviation.scope = s] *)
Definition set_dev_scope (s : DeviationScope) (d : Deviation) : Deviation := {|
  dev_id := dev_id d; target_lint := target_lint d; dev_scope := s;
  effective_start := effective_start d; effective_end := effective_end d;
  dev_action := dev_action d; justification := justification d;
  authorized_by := authorized_by d; evidence_uri := evidence_uri d; priority := priority d |}.

Definition is_active_at (d : Deviation) (now_unix : N) : bool :=
  let after_start := match effective_start d with Some s => bool_decide (s ≤ now_unix)%N | None => true end in
  let before_end := match effective_end d with Some e => bool_decide (now_unix < e)%N | None => true end in
  after_start && before_end.

(** ** The store *)
Abbreviation DeviationStore := (list Deviation).

Section store.
Context `{NameText} `{DecodeOwned Name}.

Definition deviation_applies_to (d : Deviation) (cert : Certificate) (now_unix : N) : bool :=
  if negb (is_active_at d now_unix) then false else scope_matches (dev_scope d) cert.

(** The values of the substring are lower-cased when a deviation enters. *)
Definition normalize_prop (p : bytes * ScopePropValue) : bytes * ScopePropValue :=
  if decide (p.1 = PROP_ISSUER_DN_SUBSTRING)
  then match p.2 with Text s => (p.1, Text (to_lowercase s)) | Bytes _ => p end
  else p.
Definition normalize_scope (s : DeviationScope) : DeviationScope :=
  if decide (kind s = SCOPE_KIND_ISSUER_DN_CONTAINS)
  then {| kind := kind s; props := normalize_prop <$> props s |} else s.

Definition store_add (store : DeviationStore) (d : Deviation) :
    result DeviationAddError DeviationStore :=
  _ ← fail_if (str_is_empty (justification d)) (EmptyField (str "justification"));
  _ ← fail_if (str_is_empty (authorized_by d)) (EmptyField (str "authorized_by"));
  _ ← fail_if (existsb (λ e, bool_decide (dev_id e = dev_id d)) store) (DuplicateId (dev_id d));
  _ ← validate_scope (dev_scope d);
  Ok (store ++ [set_dev_scope (normalize_scope (dev_scope d)) d]).

Definition active_at (store : DeviationStore) (now_unix : N) : list Deviation :=
  filter (λ d, is_active_at d now_unix = true) store.
Definition active_for_lint (store : DeviationStore) (lint : bytes) (now_unix : N) :
    list Deviation :=
  filter (λ d, target_lint d = lint ∧ is_active_at d now_unix = true) store.
Definition expired_at (store : DeviationStore) (now_unix : N) : list Deviation :=
  filter (λ d,
    match effective_end d with Some e => bool_decide (e ≤ now_unix)%N | None => false end = true) store.

(** [match best]: a deviation replaces one of a lower priority. *)
Definition better (best : option Deviation) (d : Deviation) : option Deviation :=
  match best with
  | None => Some d
  | Some prev => if decide (priority prev < priority d)%Z then Some d else Some prev
  end.

Definition find_deviation (store : DeviationStore) (lint : bytes) (cert : Certificate)
    (now_unix : N) : option Deviation :=
  foldl (λ best d,
    if bool_decide (target_lint d = lint) && deviation_applies_to d cert now_unix
    then better best d else best) None store.

Definition find_deviation_for_chain (store : DeviationStore) (lint : bytes)
    (chain : list Certificate) (now_unix : N) : option Deviation :=
  foldl (λ best d,
    if bool_decide (target_lint d = lint)
       && existsb (λ cert, deviation_applies_to d cert now_unix) chain
    then better best d else best) None store.
End store.

(** ** A finding that a deviation waives *)
Record DeviatedFinding := {
  df_lint_id : bytes;
  df_citation : bytes;
  original_result : LintResult;
  deviation_id : bytes;
  action : DeviationAction;
  df_justification : bytes;
  df_evidence_uri : option bytes;
  df_cert_index : option nat;
  df_evaluated_at_unix : N }.
#[global] Instance DeviatedFinding_eq_dec : EqDecision DeviatedFinding.
Proof. solve_decision. Defined.

Definition effective_severity (df : DeviatedFinding) : option Severity :=
  match action df with DowngradeSeverityTo s => Some s | Suppress => None end.

Definition make_deviated (finding : Finding) (dev : Deviation) : DeviatedFinding := {|
  df_lint_id := lint_id finding;
  df_citation := citation finding;
  original_result := finding_result finding;
  deviation_id := dev_id dev;
  action := dev_action dev;
  df_justification := justification dev;
  df_evidence_uri := evidence_uri dev;
  df_cert_index := cert_index finding;
  df_evaluated_at_unix := evaluated_at_unix finding |}.
