(* ===== verification/OscalParse.v ===== *)
(** * OSCAL documents in (pkix-lint/src/oscal: parse.rs, mod.rs)

    The errors of the OSCAL modules; the parser of a policy of deviations from an
    array of Risks, which fills a [DeviationStore]; and the identifiers of the
    Controls of a Catalog.  The decoder of a [Name] is a parameter. *)
From S2P Require Import Prelude X509 Names Identity Json LintTypes Deviation.

Definition OSCAL_VERSION : bytes := str "1.1.2".
Definition SUPPORTED_OSCAL_VERSIONS : list bytes := [OSCAL_VERSION].

(** ** Errors *)
Inductive ParseError :=
| NotArray
| RiskNotObject (index : nat)
| InvalidStatus (index : nat) (found : bytes)
| MissingDescription (index : nat)
| SubjectsNotArray (index : nat)
| MissingSubject (index : nat)
| SubjectNotObject (index : nat)
| SubjectMissingType (index : nat)
| UnknownSubjectType (index : nat) (found : bytes)
| MissingProp (index : nat) (name : bytes)
| MissingSubjectProp (index : nat) (name : bytes)
| EmptyProp (index : nat) (name : bytes)
| UnknownAction (index : nat) (found : bytes)
| MalformedHex (index : nat) (prop : bytes)
| MalformedDer (index : nat) (prop : bytes)
| InvalidU64 (index : nat) (prop : bytes) (found : bytes)
| InvalidI32 (index : nat) (prop : bytes) (found : bytes)
| AddFailed (index : nat) (source : DeviationAddError)
| MissingOscalVersion
| UnsupportedOscalVersion (found : bytes)
| CatalogNotObject
| CatalogMissingWrapper
| ControlsNotArray
| ControlNotObject (index : nat)
| ControlMissingId (index : nat)
| ControlIdNotString (index : nat)
| ControlIdEmpty (index : nat)
| UnknownLintId (id : bytes)
| ProfileNotObject
| ProfileMissingWrapper
| ProfileImportsNotArray
| ProfileImportNotObject (index : nat)
| ProfileImportMissingHref (index : nat)
| ProfileImportHrefNotString (index : nat)
| ProfileImportHrefEmpty (index : nat)
| ProfileImportUnresolved (index : nat) (href : bytes)
| ProfileImportSourceUnknown (index : nat) (href : bytes)
| ProfileImportCycle (href : bytes)
| ProfileIncludeControlsNotArray (index : nat)
| ProfileExcludeControlsNotArray (index : nat)
| ProfileWithIdsEntryNotObject (index : nat) (entry_index : nat)
| ProfileWithIdsNotArray (index : nat) (entry_index : nat)
| ProfileWithIdNotString (index : nat) (entry_index : nat)
| ProfileSetParametersNotArray
| ProfileSetParameterNotObject (entry_index : nat)
| ProfileSetParameterMissingId (entry_index : nat)
| ProfileSetParameterIdEmpty (entry_index : nat)
| ProfileSetParameterValuesNotArray (entry_index : nat)
| ProfileSetParameterValuesEmpty (entry_index : nat)
| ProfileSetParameterValueNotString (entry_index : nat)
| UnknownParameterOverride (param_id : bytes)
| InvalidParameterOverride (param_id : bytes) (source : ParameterError).
#[global] Instance ParseError_eq_dec : EqDecision ParseError.
Proof. solve_decision. Defined.

Abbreviation ParseResult := (result ParseError).

Definition fmt_usize (n : nat) : bytes := fmt_u64 (N.of_nat n).
(** [{:?}] of [SUPPORTED_OSCAL_VERSIONS]. *)
Definition debug_versions : bytes :=
  str "[" ++ join_char 44 ((λ v, [34%N] ++ v ++ [34%N]) <$> SUPPORTED_OSCAL_VERSIONS) ++ str "]".

Definition parse_error_display (e : ParseError) : bytes :=
  match e with
  | NotArray =>
      str "top-level OSCAL value is not a JSON array"
  | RiskNotObject i =>
      str "Risk at index " ++ fmt_usize i ++ str " is not a JSON object"
  | InvalidStatus i found =>
      str "Risk at index " ++ fmt_usize i ++ str " has status '" ++ found ++
      str "', expected 'deviation-approved'"
  | MissingDescription i =>
      str "Risk at index " ++ fmt_usize i ++ str " has no description (justification)"
  | SubjectsNotArray i =>
      str "Risk at index " ++ fmt_usize i ++ str " has no subjects array"
  | MissingSubject i =>
      str "Risk at index " ++ fmt_usize i ++ str " has an empty subjects array"
  | SubjectNotObject i =>
      str "Risk at index " ++ fmt_usize i ++ str " has a subject entry that is not a JSON object"
  | SubjectMissingType i =>
      str "Risk at index " ++ fmt_usize i ++ str " has a subject with no 'type' discriminator"
  | UnknownSubjectType i found =>
      str "Risk at index " ++ fmt_usize i ++ str " has unknown subject type '" ++ found ++ str "'"
  | MissingProp i name =>
      str "Risk at index " ++ fmt_usize i ++ str " is missing required prop '" ++ name ++ str "'"
  | MissingSubjectProp i name =>
      str "Risk at index " ++ fmt_usize i ++ str " subject is missing required prop '" ++ name ++
      str "'"
  | EmptyProp i name =>
      str "Risk at index " ++ fmt_usize i ++ str " has empty value for required prop '" ++ name ++
      str "'"
  | UnknownAction i found =>
      str "Risk at index " ++ fmt_usize i ++ str " has unrecognized action value '" ++ found ++
      str "'"
  | MalformedHex i prop =>
      str "Risk at index " ++ fmt_usize i ++ str " prop '" ++ prop ++ str "' is not valid hex"
  | MalformedDer i prop =>
      str "Risk at index " ++ fmt_usize i ++ str " prop '" ++ prop ++
      str "' is empty or not a valid DER-encoded Name"
  | InvalidU64 i prop found =>
      str "Risk at index " ++ fmt_usize i ++ str " prop '" ++ prop ++
      str "' is not a decimal u64: '" ++ found ++ str "'"
  | InvalidI32 i prop found =>
      str "Risk at index " ++ fmt_usize i ++ str " prop '" ++ prop ++
      str "' is not a decimal i32: '" ++ found ++ str "'"
  | AddFailed i source =>
      str "Risk at index " ++ fmt_usize i ++ str " could not be added to the store: " ++
      deviation_add_error_display source
  | MissingOscalVersion =>
      str "OSCAL document is missing metadata.oscal-version"
  | UnsupportedOscalVersion found =>
      str "unsupported OSCAL version '" ++ found ++ str "'; pkix-lint accepts " ++ debug_versions
  | CatalogNotObject =>
      str "top-level OSCAL Catalog value is not a JSON object"
  | CatalogMissingWrapper =>
      str "OSCAL Catalog value is missing the 'catalog' wrapper"
  | ControlsNotArray =>
      str "catalog.controls is missing or not a JSON array"
  | ControlNotObject i =>
      str "Control at index " ++ fmt_usize i ++ str " is not a JSON object"
  | ControlMissingId i =>
      str "Control at index " ++ fmt_usize i ++ str " is missing required 'id' field"
  | ControlIdNotString i =>
      str "Control at index " ++ fmt_usize i ++ str " 'id' is not a JSON string"
  | ControlIdEmpty i =>
      str "Control at index " ++ fmt_usize i ++ str " 'id' is an empty string"
  | UnknownLintId id =>
      str "Catalog Control id '" ++ id ++ str "' has no matching registered Lint"
  | ProfileNotObject =>
      str "top-level OSCAL Profile value is not a JSON object"
  | ProfileMissingWrapper =>
      str "OSCAL Profile value is missing the 'profile' wrapper"
  | ProfileImportsNotArray =>
      str "profile.imports is missing or not a JSON array"
  | ProfileImportNotObject i =>
      str "profile.imports[" ++ fmt_usize i ++ str "] is not a JSON object"
  | ProfileImportMissingHref i =>
      str "profile.imports[" ++ fmt_usize i ++ str "] is missing required 'href' field"
  | ProfileImportHrefNotString i =>
      str "profile.imports[" ++ fmt_usize i ++ str "] 'href' is not a JSON string"
  | ProfileImportHrefEmpty i =>
      str "profile.imports[" ++ fmt_usize i ++ str "] 'href' is an empty string"
  | ProfileImportUnresolved i href =>
      str "profile.imports[" ++ fmt_usize i ++ str "] href '" ++ href ++
      str "' has no entry in sources"
  | ProfileImportSourceUnknown i href =>
      str "profile.imports[" ++ fmt_usize i ++ str "] href '" ++ href ++
      str "' source is neither a Catalog nor a Profile"
  | ProfileImportCycle href =>
      str "profile import cycle detected at href '" ++ href ++ str "'"
  | ProfileIncludeControlsNotArray i =>
      str "profile.imports[" ++ fmt_usize i ++ str "].include-controls is not a JSON array"
  | ProfileExcludeControlsNotArray i =>
      str "profile.imports[" ++ fmt_usize i ++ str "].exclude-controls is not a JSON array"
  | ProfileWithIdsEntryNotObject i entry_index =>
      str "profile.imports[" ++ fmt_usize i ++ str "] include/exclude-controls[" ++
      fmt_usize entry_index ++ str "] is not a JSON object"
  | ProfileWithIdsNotArray i entry_index =>
      str "profile.imports[" ++ fmt_usize i ++ str "] include/exclude-controls[" ++
      fmt_usize entry_index ++ str "].with-ids is not a JSON array"
  | ProfileWithIdNotString i entry_index =>
      str "profile.imports[" ++ fmt_usize i ++ str "] include/exclude-controls[" ++
      fmt_usize entry_index ++ str "].with-ids contains a non-string id"
  | ProfileSetParametersNotArray =>
      str "profile.modify.set-parameters is not a JSON array"
  | ProfileSetParameterNotObject entry_index =>
      str "profile.modify.set-parameters[" ++ fmt_usize entry_index ++ str "] is not a JSON object"
  | ProfileSetParameterMissingId entry_index =>
      str "profile.modify.set-parameters[" ++ fmt_usize entry_index ++
      str "] is missing required 'param-id'"
  | ProfileSetParameterIdEmpty entry_index =>
      str "profile.modify.set-parameters[" ++ fmt_usize entry_index ++
      str "] 'param-id' is an empty string"
  | ProfileSetParameterValuesNotArray entry_index =>
      str "profile.modify.set-parameters[" ++ fmt_usize entry_index ++
      str "] 'values' is missing or not a JSON array"
  | ProfileSetParameterValuesEmpty entry_index =>
      str "profile.modify.set-parameters[" ++ fmt_usize entry_index ++ str "] 'values' is empty"
  | ProfileSetParameterValueNotString entry_index =>
      str "profile.modify.set-parameters[" ++ fmt_usize entry_index ++
      str "] 'values[0]' is not a JSON string"
  | UnknownParameterOverride param_id =>
      str "no registered Lint owns composite parameter id '" ++ param_id ++ str "'"
  | InvalidParameterOverride param_id source =>
      str "Lint rejected parameter override for '" ++ param_id ++ str "': " ++
      parameter_error_display source
  end.

(** ** Helpers *)

(** [hex_decode]: two digits for each octet. *)
Fixpoint hex_pairs (s : bytes) : option bytes :=
  match s with
  | a :: b :: s => hi ← nibble a; lo ← nibble b; out ← hex_pairs s; Some (N.lor (N.shiftl hi 4) lo :: out)
  | _ => Some []
  end.
Definition hex_decode (s : bytes) : option bytes :=
  if decide (length s `mod` 2 ≠ 0) then None else hex_pairs s.

(** [i32::MAX], and [str::parse::<i32>]. *)
Definition i32_max : N := 2147483647.
Definition parse_i32 (s : bytes) : option Z :=
  match s with
  | [] => None
  | c :: ds =>
      if decide (c = 45%N) then
        match ds with
        | [] => None
        | _ => n ← parse_digits 10 (i32_max + 1) 0 ds; Some (- Z.of_N n)%Z
        end
      else n ← from_str_radix 10 i32_max s; Some (Z.of_N n)
  end.

Definition has_name (name : bytes) (obj : Map) : bool :=
  bool_decide (get (str "name") obj ≫= as_str = Some name).

(** The value of the first prop of this name, if it is a string. *)
Definition find_prop_value (props : option (list Value)) (name : bytes) : option bytes :=
  arr ← props;
  '(_, obj) ← list_find (λ obj, has_name name obj = true) (omap as_object arr);
  get (str "value") obj ≫= as_str.

Definition required_nonempty_prop (idx : nat) (value : option bytes) (name : bytes) :
    ParseResult bytes :=
  s ← ok_or value (MissingProp idx name);
  _ ← fail_if (str_is_empty s) (EmptyProp idx name);
  Ok s.

(** [s.strip_prefix(p)] *)
Definition strip_prefix_str (p s : bytes) : option bytes :=
  if decide (p `prefix_of` s) then Some (drop (length p) s) else None.

Definition severity_of_label (l : bytes) : option Severity :=
  if decide (l = str "info") then Some SevInfo
  else if decide (l = str "notice") then Some SevNotice
  else if decide (l = str "warn") then Some SevWarn
  else if decide (l = str "error") then Some SevError
  else if decide (l = str "fatal") then Some SevFatal
  else None.

Definition parse_action (idx : nat) (s : bytes) : ParseResult DeviationAction :=
  if decide (s = str "suppress") then Ok Suppress
  else match strip_prefix_str (str "downgrade:") s with
       | Some rest => DowngradeSeverityTo <$> ok_or (severity_of_label rest) (UnknownAction idx s)
       | None => Err (UnknownAction idx s)
       end.

Definition parse_optional_u64 (idx : nat) (value : option bytes) (prop : bytes) :
    ParseResult (option N) :=
  match value with
  | None => Ok None
  | Some v => Some <$> ok_or (from_str_radix 10 u64_max v) (InvalidU64 idx prop v)
  end.
Definition parse_optional_i32 (idx : nat) (value : option bytes) (prop : bytes) :
    ParseResult (option Z) :=
  match value with
  | None => Ok None
  | Some v => Some <$> ok_or (parse_i32 v) (InvalidI32 idx prop v)
  end.

(** The first link with [rel] "reference" and a string as its [href]. *)
Definition reference_href (link : Value) : option bytes :=
  obj ← as_object link;
  if decide (get (str "rel") obj ≫= as_str = Some (str "reference"))
  then get (str "href") obj ≫= as_str else None.
Definition parse_evidence_uri (links : option Value) : option bytes :=
  arr ← links ≫= as_array; head (omap reference_href arr).

(** [obj.get("props").and_then(Value::as_array)] *)
Definition props_slice (obj : Map) : option (list Value) := get (str "props") obj ≫= as_array.

(** ** The parser of a policy *)
Section parse.
Context `{NameText} `{DecodeOwned Name}.

Definition decode_name (idx : nat) (der prop : bytes) : ParseResult Name :=
  _ ← fail_if (str_is_empty der) (MalformedDer idx prop);
  lift_der (λ _, MalformedDer idx prop) (from_der der).

Definition required_hex (idx : nat) (props : option (list Value)) (name : bytes) :
    ParseResult bytes :=
  h ← ok_or (find_prop_value props name) (MissingSubjectProp idx name);
  ok_or (hex_decode h) (MalformedHex idx name).

Definition parse_subject (idx : nat) (subj : Value) : ParseResult DeviationScope :=
  obj ← ok_or (as_object subj) (SubjectNotObject idx);
  ty ← ok_or (get (str "type") obj ≫= as_str) (SubjectMissingType idx);
  let props := props_slice obj in
  if decide (ty = SCOPE_KIND_ANY) then Ok scope_any
  else if decide (ty = SCOPE_KIND_ISSUER_DN_CONTAINS) then
    issuer_dn_contains <$>
      ok_or (find_prop_value props PROP_ISSUER_DN_SUBSTRING)
        (MissingSubjectProp idx PROP_ISSUER_DN_SUBSTRING)
  else if decide (ty = SCOPE_KIND_ISSUER_DN_EXACT) then
    der ← required_hex idx props PROP_ISSUER_DN_DER;
    _ ← decode_name idx der PROP_ISSUER_DN_DER;
    Ok (issuer_dn_exact der)
  else if decide (ty = SCOPE_KIND_SERIAL_RANGE) then
    der ← required_hex idx props PROP_ISSUER_DN_DER;
    _ ← decode_name idx der PROP_ISSUER_DN_DER;
    start ← required_hex idx props PROP_SERIAL_START;
    end_ ← required_hex idx props PROP_SERIAL_END;
    Ok (serial_range der start end_)
  else Err (UnknownSubjectType idx ty).

Definition parse_risk (idx : nat) (risk : Value) : ParseResult Deviation :=
  obj ← ok_or (as_object risk) (RiskNotObject idx);
  let status := default [] (get (str "status") obj ≫= as_str) in
  _ ← fail_if (negb (bool_decide (status = str "deviation-approved"))) (InvalidStatus idx status);
  justification ← ok_or (get (str "description") obj ≫= as_str) (MissingDescription idx);
  let get_prop := find_prop_value (props_slice obj) in
  let required := λ name, required_nonempty_prop idx (get_prop name) name in
  id ← required (str "pkix-lint.deviation-id");
  target_lint ← required (str "pkix-lint.target-lint");
  action_str ← required (str "pkix-lint.action");
  action ← parse_action idx action_str;
  authorized_by ← required (str "pkix-lint.authorized-by");
  start ← parse_optional_u64 idx (get_prop (str "pkix-lint.effective-start"))
    (str "pkix-lint.effective-start");
  end_ ← parse_optional_u64 idx (get_prop (str "pkix-lint.effective-end"))
    (str "pkix-lint.effective-end");
  prio ← parse_optional_i32 idx (get_prop (str "pkix-lint.deviation-priority"))
    (str "pkix-lint.deviation-priority");
  subjects ← ok_or (get (str "subjects") obj ≫= as_array) (SubjectsNotArray idx);
  first_subject ← ok_or (head subjects) (MissingSubject idx);
  scope ← parse_subject idx first_subject;
  Ok {| dev_id := id; target_lint := target_lint; dev_scope := scope; effective_start := start;
        effective_end := end_; dev_action := action; justification := justification;
        authorized_by := authorized_by;
        evidence_uri := parse_evidence_uri (get (str "links") obj);
        priority := default 0%Z prio |}.

(** The loop over the Risks, from index [idx]. *)
Fixpoint risks_loop (idx : nat) (store : DeviationStore) (risks : list Value) :
    ParseResult DeviationStore :=
  match risks with
  | [] => Ok store
  | risk :: risks =>
      deviation ← parse_risk idx risk;
      store ← map_err (AddFailed idx) (store_add store deviation);
      risks_loop (S idx) store risks
  end.

Definition deviation_store_from_risks (value : Value) : ParseResult DeviationStore :=
  arr ← ok_or (as_array value) NotArray;
  risks_loop 0 [] arr.
End parse.

(** ** Catalogs *)
Definition check_oscal_version (container : Map) : ParseResult unit :=
  version ← ok_or ((get (str "metadata") container ≫= value_get (str "oscal-version")) ≫= as_str)
    MissingOscalVersion;
  fail_if (negb (bool_decide (version ∈ SUPPORTED_OSCAL_VERSIONS)))
    (UnsupportedOscalVersion version).

Definition control_id (index : nat) (control : Value) : ParseResult bytes :=
  control_obj ← ok_or (as_object control) (ControlNotObject index);
  id_value ← ok_or (get (str "id") control_obj) (ControlMissingId index);
  id_str ← ok_or (as_str id_value) (ControlIdNotString index);
  _ ← fail_if (str_is_empty id_str) (ControlIdEmpty index);
  Ok id_str.

Fixpoint control_ids_loop (index : nat) (controls : list Value) : ParseResult (list bytes) :=
  match controls with
  | [] => Ok []
  | c :: controls =>
      id ← control_id index c;
      ids ← control_ids_loop (S index) controls;
      Ok (id :: ids)
  end.

Definition lint_ids_from_catalog (value : Value) : ParseResult (list bytes) :=
  obj ← ok_or (as_object value) CatalogNotObject;
  catalog ← ok_or (get (str "catalog") obj ≫= as_object) CatalogMissingWrapper;
  _ ← check_oscal_version catalog;
  controls ← ok_or (get (str "controls") catalog ≫= as_array) ControlsNotArray;
  control_ids_loop 0 controls.
