(* ===== verification/OscalProfile.v ===== *)
(** * Composition of OSCAL Profiles (pkix-lint/src/oscal/profile.rs)

    A Profile imports Catalogs and other Profiles by href, selects Controls of
    each, and sets parameters.  [resolve_profile] flattens it.  The recursion of
    the source follows the imports; it has fuel here, one unit for every href of
    [sources] and one more, and never uses it up ([OscalProfileSpec]). *)
From S2P Require Import Prelude X509 Identity Json LintTypes Deviation OscalParse.
From stdpp Require Import gmap.

Record ParameterOverride := { over_param_id : bytes; over_value : bytes }.
#[global] Instance ParameterOverride_eq_dec : EqDecision ParameterOverride.
Proof. solve_decision. Defined.

Record ResolvedProfile := {
  control_ids : list bytes;
  parameter_overrides : list ParameterOverride }.
#[global] Instance ResolvedProfile_eq_dec : EqDecision ResolvedProfile.
Proof. solve_decision. Defined.

(** The [HashMap] of the documents by href, and the [HashSet] of the Profiles
    that are being resolved. *)
Abbreviation Sources := (gmap bytes Value).
Abbreviation Stack := (gset bytes).

(** ** The filters of an import *)

(** [for id_val in ids { set.insert(id_val.as_str()?) }] *)
Definition insert_with_id (import_index entry_index : nat) (acc : gset bytes) (id_val : Value) :
    ParseResult (gset bytes) :=
  id ← ok_or (as_str id_val) (ProfileWithIdNotString import_index entry_index);
  Ok ({[id]} ∪ acc).

(** One entry of [include-controls] or [exclude-controls]. *)
Definition with_ids_entry (import_index entry_index : nat) (entry : Value) (acc : gset bytes) :
    ParseResult (gset bytes) :=
  entry_obj ← ok_or (as_object entry) (ProfileWithIdsEntryNotObject import_index entry_index);
  match get (str "with-ids") entry_obj with
  | None => Ok acc
  | Some with_ids =>
      ids ← ok_or (as_array with_ids) (ProfileWithIdsNotArray import_index entry_index);
      try_fold (insert_with_id import_index entry_index) acc ids
  end.

Fixpoint with_ids_loop (import_index entry_index : nat) (entries : list Value)
    (acc : gset bytes) : ParseResult (gset bytes) :=
  match entries with
  | [] => Ok acc
  | e :: entries =>
      acc ← with_ids_entry import_index entry_index e acc;
      with_ids_loop import_index (S entry_index) entries acc
  end.

Definition included_ids (import_index : nat) (import_obj : Map) (available_ids : list bytes) :
    ParseResult (list bytes) :=
  if contains_key (str "include-all") import_obj then Ok available_ids
  else match get (str "include-controls") import_obj with
       | Some directives =>
           entries ← ok_or (as_array directives) (ProfileIncludeControlsNotArray import_index);
           wanted ← with_ids_loop import_index 0 entries ∅;
           Ok (filter (λ id, id ∈ wanted) available_ids)
       | None => Ok []
       end.

Definition excluded_ids (import_index : nat) (import_obj : Map) : ParseResult (gset bytes) :=
  match get (str "exclude-controls") import_obj with
  | Some directives =>
      entries ← ok_or (as_array directives) (ProfileExcludeControlsNotArray import_index);
      with_ids_loop import_index 0 entries ∅
  | None => Ok ∅
  end.

(** [for id in included]: what is not excluded and was not seen before. *)
Fixpoint push_ids (excluded : gset bytes) (ids : list bytes) (acc : list bytes * gset bytes) :
    list bytes * gset bytes :=
  match ids with
  | [] => acc
  | id :: ids =>
      if decide (id ∈ excluded) then push_ids excluded ids acc
      else if decide (id ∈ acc.2) then push_ids excluded ids acc
      else push_ids excluded ids (acc.1 ++ [id], {[id]} ∪ acc.2)
  end.

(** ** [modify.set-parameters] *)
Definition set_parameter_entry (entry_index : nat) (entry : Value) :
    ParseResult ParameterOverride :=
  entry_obj ← ok_or (as_object entry) (ProfileSetParameterNotObject entry_index);
  param_id ← ok_or (get (str "param-id") entry_obj ≫= as_str)
    (ProfileSetParameterMissingId entry_index);
  _ ← fail_if (str_is_empty param_id) (ProfileSetParameterIdEmpty entry_index);
  values ← ok_or (get (str "values") entry_obj ≫= as_array)
    (ProfileSetParameterValuesNotArray entry_index);
  first ← ok_or (head values) (ProfileSetParameterValuesEmpty entry_index);
  value ← ok_or (as_str first) (ProfileSetParameterValueNotString entry_index);
  Ok {| over_param_id := param_id; over_value := value |}.

Fixpoint set_parameters_loop (entry_index : nat) (entries : list Value) :
    ParseResult (list ParameterOverride) :=
  match entries with
  | [] => Ok []
  | e :: entries =>
      o ← set_parameter_entry entry_index e;
      os ← set_parameters_loop (S entry_index) entries;
      Ok (o :: os)
  end.

Definition own_overrides (prof : Map) : ParseResult (list ParameterOverride) :=
  match get (str "modify") prof ≫= as_object with
  | None => Ok []
  | Some modify =>
      match get (str "set-parameters") modify with
      | None => Ok []
      | Some set_params =>
          entries ← ok_or (as_array set_params) ProfileSetParametersNotArray;
          set_parameters_loop 0 entries
      end
  end.

(** ** Resolution *)
Section resolve.
Context (sources : Sources).

(** What a call of [resolve_profile_inner] does; the stack is passed along. *)
Abbreviation Resolve := (Value → Stack → ParseResult (ResolvedProfile * Stack)).

Definition import_href (import_index : nat) (import_obj : Map) : ParseResult bytes :=
  href_value ← ok_or (get (str "href") import_obj) (ProfileImportMissingHref import_index);
  href ← ok_or (as_str href_value) (ProfileImportHrefNotString import_index);
  _ ← fail_if (str_is_empty href) (ProfileImportHrefEmpty import_index);
  Ok href.

(** The Controls and overrides that a source offers. *)
Definition import_source (rec : Resolve) (import_index : nat) (href : bytes) (stack : Stack) :
    ParseResult (list bytes * list ParameterOverride * Stack) :=
  source ← ok_or (sources !! href) (ProfileImportUnresolved import_index href);
  source_obj ← ok_or (as_object source) (ProfileImportSourceUnknown import_index href);
  if contains_key (str "profile") source_obj then
    _ ← fail_if (bool_decide (href ∈ stack)) (ProfileImportCycle href);
    '(nested, stack) ← rec source ({[href]} ∪ stack);
    Ok (control_ids nested, parameter_overrides nested, stack ∖ {[href]})
  else if contains_key (str "catalog") source_obj then
    ids ← lint_ids_from_catalog source;
    Ok (ids, [], stack)
  else Err (ProfileImportSourceUnknown import_index href).

(** [control_ids], [seen_ids], [parameter_overrides] and the stack. *)
Record ImportState := {
  is_control_ids : list bytes;
  is_seen_ids : gset bytes;
  is_overrides : list ParameterOverride;
  is_stack : Stack }.

Definition import_turn (rec : Resolve) (import_index : nat) (import : Value) (s : ImportState) :
    ParseResult ImportState :=
  import_obj ← ok_or (as_object import) (ProfileImportNotObject import_index);
  href ← import_href import_index import_obj;
  '(available_ids, nested_overrides, stack) ← import_source rec import_index href (is_stack s);
  included ← included_ids import_index import_obj available_ids;
  excluded ← excluded_ids import_index import_obj;
  let '(ids, seen) := push_ids excluded included (is_control_ids s, is_seen_ids s) in
  Ok {| is_control_ids := ids; is_seen_ids := seen;
        is_overrides := is_overrides s ++ nested_overrides; is_stack := stack |}.

Fixpoint imports_loop (rec : Resolve) (import_index : nat) (imports : list Value)
    (s : ImportState) : ParseResult ImportState :=
  match imports with
  | [] => Ok s
  | i :: imports =>
      s ← import_turn rec import_index i s;
      imports_loop rec (S import_index) imports s
  end.

Definition resolve_body (rec : Resolve) (profile : Value) (stack : Stack) :
    ParseResult (ResolvedProfile * Stack) :=
  obj ← ok_or (as_object profile) ProfileNotObject;
  prof ← ok_or (get (str "profile") obj ≫= as_object) ProfileMissingWrapper;
  _ ← check_oscal_version prof;
  imports ← ok_or (get (str "imports") prof ≫= as_array) ProfileImportsNotArray;
  s ← imports_loop rec 0 imports
    {| is_control_ids := []; is_seen_ids := ∅; is_overrides := []; is_stack := stack |};
  own ← own_overrides prof;
  Ok ({| control_ids := is_control_ids s; parameter_overrides := is_overrides s ++ own |},
      is_stack s).

Fixpoint resolve_profile_inner (fuel : nat) (profile : Value) (stack : Stack) :
    ParseResult (ResolvedProfile * Stack) :=
  match fuel with
  | 0 => Panic
  | S fuel => resolve_body (resolve_profile_inner fuel) profile stack
  end.

Definition resolve_profile (profile : Value) : ParseResult ResolvedProfile :=
  fst <$> resolve_profile_inner (S (size sources)) profile ∅.
End resolve.
