(* ===== verification/LintRunner.v ===== *)
(** * The lint engine (pkix-lint/src/lib.rs)

    [Lint] is the trait as a type class over the lints of a bundle; [LintRunner]
    runs a bundle over a certificate, a chain or a validated path, selects lints
    by identifier and sets their parameters. *)
From S2P Require Import Prelude X509 PathTypes Identity LintTypes Deviation OscalParse OscalProfile.
From stdpp Require Import gmap sorting.

(** ** The trait

    [L] is [Box<dyn Lint>]; a method of [&mut self] returns the new lint.  The
    provided methods of the trait are the definitions below. *)
Class Lint (L : Type) := {
  id : L → bytes;
  lint_citation : L → bytes;
  severity : L → Severity;
  scope : L → Scope;
  applies_to : L → SubjectKind;
  title : L → bytes;
  description : L → option bytes;
  spec_section_id : L → option bytes;
  spec_url : L → option bytes;
  parameters : L → list LintParameter;
  set_parameter : L → bytes → bytes → L * result ParameterError unit;
  check_cert : L → Certificate → SubjectKind → N → LintResult;
  check_path : L → list Certificate → ValidatedPath → N → LintResult }.
#[global] Hint Mode Lint ! : typeclass_instances.

Definition default_title (id : bytes) : bytes := id.
Definition default_description : option bytes := None.
Definition default_parameters : list LintParameter := [].
Definition default_set_parameter {L} (l : L) (id value : bytes) : L * result ParameterError unit :=
  (l, Err (UnknownParameter id)).
Definition default_check_cert (_ : Certificate) (_ : SubjectKind) (_ : N) : LintResult :=
  LintNotApplicable.
Definition default_check_path (_ : list Certificate) (_ : ValidatedPath) (_ : N) : LintResult :=
  LintNotApplicable.

(** ** The runner *)
Record LintRunner (L : Type) := { lints : list L; bundle_version : bytes }.
Arguments lints {L} _.
Arguments bundle_version {L} _.

(** [for (lint_index, clone) in clones { self.lints[lint_index] = clone; }] *)
Fixpoint commit {L E} (clones : list (nat * L)) (ls : list L) : result E (list L) :=
  match clones with
  | [] => Ok ls
  | (i, c) :: clones =>
      _ ← index ls i;
      commit clones (<[i := c]> ls)
  end.

(** [<str as Ord>::le] *)
Definition str_le (a b : bytes) : Prop := slice_cmp a b ≠ Gt.
#[global] Instance str_le_dec : RelDecision str_le.
Proof. intros a b. unfold str_le. solve_decision. Defined.

(** [max_by_key] keeps the last of several maxima. *)
Fixpoint max_by_len {A} (best : option (A * nat)) (l : list (A * nat)) : option (A * nat) :=
  match l with
  | [] => best
  | x :: l =>
      match best with
      | None => max_by_len (Some x) l
      | Some b => max_by_len (if decide (b.2 ≤ x.2) then Some x else Some b) l
      end
  end.

Section runner.
Context {L : Type} `{Lint L}.

(** [ids.sort_unstable(); ids.dedup()]: [dedup] removes adjacent copies, and
    copies of a string are not told apart. *)
Definition sort_unstable (ids : list bytes) : list bytes := merge_sort str_le ids.
Fixpoint dedup (ids : list bytes) : list bytes :=
  match ids with
  | a :: (b :: _) as rest => if decide (a = b) then dedup rest else a :: dedup rest
  | _ => ids
  end.

(** The identifier that the message of the panic names. *)
Fixpoint first_duplicate (seen : gset bytes) (ls : list L) : option bytes :=
  match ls with
  | [] => None
  | l :: ls => if decide (id l ∈ seen) then Some (id l) else first_duplicate ({[id l]} ∪ seen) ls
  end.

(** It panics on a duplicate; after the loop the source has [unreachable!]. *)
Definition check_unique_ids {E} (ls : list L) : result E unit :=
  let ids := id <$> ls in
  if decide (length (dedup (sort_unstable ids)) ≠ length ids)
  then match first_duplicate ∅ ls with Some _ => Panic | None => Panic end
  else Ok tt.

Definition lint_runner_new {E} (ls : list L) : result E (LintRunner L) :=
  _ ← check_unique_ids ls; Ok {| lints := ls; bundle_version := [] |}.
Definition with_bundle_version {E} (ls : list L) (version : bytes) : result E (LintRunner L) :=
  _ ← check_unique_ids ls; Ok {| lints := ls; bundle_version := version |}.

(** *** Selection by identifier *)

(** [by_id]: each lint can be taken once. *)
Definition index_by_id (ls : list L) : gmap bytes (option L) :=
  foldl (λ m l, <[id l := Some l]> m) ∅ ls.

Fixpoint take_ids (by_id : gmap bytes (option L)) (ids : list bytes) : ParseResult (list L) :=
  match ids with
  | [] => Ok []
  | i :: ids =>
      slot ← ok_or (by_id !! i) (UnknownLintId i);
      rest ← take_ids (<[i := None]> by_id) ids;
      Ok (match slot with Some l => l :: rest | None => rest end)
  end.

Definition filter_to_ids (self : LintRunner L) (ids : list bytes) : ParseResult (LintRunner L) :=
  filtered ← take_ids (index_by_id (lints self)) ids;
  Ok {| lints := filtered; bundle_version := bundle_version self |}.

(** *** Parameter overrides *)

(** The parameter that [over.param_id] names for this lint: what follows its
    identifier and a dot. *)
Definition owned_param (l : L) (over : ParameterOverride) : option bytes :=
  strip_prefix_str (id l) (over_param_id over) ≫= strip_prefix_char 46.

Definition resolve_override (ls : list L) (over : ParameterOverride) :
    ParseResult (nat * bytes) :=
  let owners := omap (λ p, x ← owned_param p.2 over; Some ((p.1, x), length (id p.2)))
    (zip (seq 0 (length ls)) ls) in
  ok_or (fst <$> max_by_len None owners) (UnknownParameterOverride (over_param_id over)).

(** Phase 1: every override is resolved before any lint is touched. *)
Fixpoint resolve_overrides (ls : list L) (overrides : list ParameterOverride) :
    ParseResult (list (nat * bytes * ParameterOverride)) :=
  match overrides with
  | [] => Ok []
  | o :: overrides =>
      r ← resolve_override ls o;
      rs ← resolve_overrides ls overrides;
      Ok ((r, o) :: rs)
  end.

(** Phase 2: [set_parameter] on a clone of each lint an override targets; the
    [BTreeMap] of the clones is a [gmap]. *)
Definition apply_to_clone (ls : list L) (clones : gmap nat L)
    (r : nat * bytes * ParameterOverride) : ParseResult (gmap nat L) :=
  let '(lint_index, param_id, over) := r in
  clone ← match clones !! lint_index with Some c => Ok c | None => index ls lint_index end;
  let '(clone, res) := set_parameter clone param_id (over_value over) in
  _ ← map_err (InvalidParameterOverride (over_param_id over)) res;
  Ok (<[lint_index := clone]> clones).

(** The runner after the call, and its result. *)
Definition apply_parameter_overrides (self : LintRunner L) (overrides : list ParameterOverride) :
    LintRunner L * ParseResult unit :=
  let committed :=
    resolved ← resolve_overrides (lints self) overrides;
    clones ← try_fold (apply_to_clone (lints self)) ∅ resolved;
    commit (map_to_list clones) (lints self) in
  match committed with
  | Ok ls => ({| lints := ls; bundle_version := bundle_version self |}, Ok tt)
  | Err e => (self, Err e)
  | Panic => (self, Panic)
  end.

(** *** Evaluation *)
Section evaluation.
Context `{Sha256} `{Encode Certificate}.

(** The loop over the lints, until one is fatal. *)
Fixpoint run_cert_loop (self : LintRunner L) (cert : Certificate) (kind : SubjectKind)
    (index : nat) (now_unix : N) (sha : option bytes) (ls : list L) : list Finding :=
  match ls with
  | [] => []
  | lint :: ls =>
      if decide (scope lint ≠ ScopeCertificate)
      then run_cert_loop self cert kind index now_unix sha ls
      else
        let r := if kind_matches kind (applies_to lint)
                 then check_cert lint cert kind now_unix else LintNotApplicable in
        let f := {| lint_id := id lint; citation := lint_citation lint;
                    rule_bundle_version := bundle_version self; finding_result := r;
                    cert_index := Some index; evaluated_at_unix := now_unix;
                    cert_sha256 := sha |} in
        if is_fatal r then [f] else f :: run_cert_loop self cert kind index now_unix sha ls
  end.

Definition run_cert (self : LintRunner L) (cert : Certificate) (kind : SubjectKind)
    (cert_index : nat) (now_unix : N) : list Finding :=
  run_cert_loop self cert kind cert_index now_unix (cert_sha256_of cert) (lints self).

Definition run_cert_at_issuance (self : LintRunner L) (cert : Certificate) (kind : SubjectKind)
    (cert_index : nat) : list Finding :=
  run_cert self cert kind cert_index (to_unix_secs (not_before (tbs_certificate cert))).

(** [for (i, cert) in chain.iter().enumerate()], from index [i]. *)
Fixpoint run_chain_loop {E} (self : LintRunner L) (kinds : list SubjectKind) (now_unix : N)
    (i : nat) (chain : list Certificate) : result E (list Finding) :=
  match chain with
  | [] => Ok []
  | cert :: chain =>
      kind ← index kinds i;
      rest ← run_chain_loop self kinds now_unix (S i) chain;
      Ok (run_cert self cert kind i now_unix ++ rest)
  end.

(** The [assert_eq!] on the lengths panics. *)
Definition run_chain {E} (self : LintRunner L) (chain : list Certificate)
    (kinds : list SubjectKind) (now_unix : N) : result E (list Finding) :=
  if decide (length kinds ≠ length chain) then Panic
  else run_chain_loop self kinds now_unix 0 chain.

Fixpoint run_path_loop (self : LintRunner L) (chain : list Certificate) (path : ValidatedPath)
    (now_unix : N) (ls : list L) : list Finding :=
  match ls with
  | [] => []
  | lint :: ls =>
      if decide (scope lint ≠ ScopePath) then run_path_loop self chain path now_unix ls
      else
        let r := check_path lint chain path now_unix in
        let f := {| lint_id := id lint; citation := lint_citation lint;
                    rule_bundle_version := bundle_version self; finding_result := r;
                    cert_index := None; evaluated_at_unix := now_unix; cert_sha256 := None |} in
        if is_fatal r then [f] else f :: run_path_loop self chain path now_unix ls
  end.

Definition run_path (self : LintRunner L) (chain : list Certificate) (path : ValidatedPath)
    (now_unix : N) : list Finding :=
  run_path_loop self chain path now_unix (lints self).

(** ** Profiles with lints *)
Class LintProfile (P : Type) := {
  profile_lints : P → list L;
  lint_runner : P → LintRunner L }.

Definition check_shape {P} `{LintProfile P} (cert : Certificate) (kind : SubjectKind)
    (now_unix : N) (profile : P) : result (list Finding) unit :=
  let findings := run_cert (lint_runner profile) cert kind 0 now_unix in
  let failed := existsb (λ f, match finding_result f with
                              | LintError _ | LintFatal _ => true | _ => false end) findings in
  fail_if failed findings.
End evaluation.
End runner.
