(* ===== verification/DeviationRunner.v ===== *)
(** * Running lints under a policy of deviations (pkix-lint/src: deviation.rs, report.rs)

    [DeviationRunner] runs a [LintRunner] and splits its findings into those
    that stand and those that a deviation waives; [EvaluationReport] collects
    them. *)
From S2P Require Import Prelude X509 PathTypes LintTypes Deviation LintRunner.

Record DeviationRunResult := { findings : list Finding; deviated : list DeviatedFinding }.
#[global] Instance DeviationRunResult_eq_dec : EqDecision DeviationRunResult.
Proof. solve_decision. Defined.

Definition run_result_default : DeviationRunResult := {| findings := []; deviated := [] |}.
(** [result.findings.push(f)], [result.deviated.push(d)] and the two [extend]s. *)
Definition push_finding (f : Finding) (r : DeviationRunResult) : DeviationRunResult :=
  {| findings := findings r ++ [f]; deviated := deviated r |}.
Definition push_deviated (d : DeviatedFinding) (r : DeviationRunResult) : DeviationRunResult :=
  {| findings := findings r; deviated := deviated r ++ [d] |}.
Definition extend_result (r partial : DeviationRunResult) : DeviationRunResult :=
  {| findings := findings r ++ findings partial; deviated := deviated r ++ deviated partial |}.

Record DeviationRunner (L : Type) := { runner : LintRunner L; store : DeviationStore }.
Arguments runner {L} _.
Arguments store {L} _.

Definition deviation_runner_new {L} (r : LintRunner L) (s : DeviationStore) : DeviationRunner L :=
  {| runner := r; store := s |}.

(** The loop of [apply_deviations] and of [apply_deviations_for_chain]: they
    differ in the search of the store. *)
Fixpoint deviate_loop (find : bytes → option Deviation) (raw : list Finding)
    (r : DeviationRunResult) : DeviationRunResult :=
  match raw with
  | [] => r
  | f :: raw =>
      if negb (is_finding (finding_result f)) then deviate_loop find raw (push_finding f r)
      else match find (lint_id f) with
           | None => deviate_loop find raw (push_finding f r)
           | Some dev => deviate_loop find raw (push_deviated (make_deviated f dev) r)
           end
  end.

Section deviation_runner.
Context `{NameText} `{DecodeOwned Name} {L : Type} `{Lint L}.

Definition apply_deviations (self : DeviationRunner L) (raw : list Finding)
    (cert : Certificate) (now_unix : N) : DeviationRunResult :=
  deviate_loop (λ lint, find_deviation (store self) lint cert now_unix) raw run_result_default.

Definition apply_deviations_for_chain (self : DeviationRunner L) (raw : list Finding)
    (chain : list Certificate) (now_unix : N) : DeviationRunResult :=
  deviate_loop (λ lint, find_deviation_for_chain (store self) lint chain now_unix) raw
    run_result_default.

Context `{Sha256} `{Encode Certificate}.

Definition deviation_run_cert (self : DeviationRunner L) (cert : Certificate)
    (kind : SubjectKind) (cert_index : nat) (now_unix : N) : DeviationRunResult :=
  apply_deviations self (run_cert (runner self) cert kind cert_index now_unix) cert now_unix.

Definition deviation_run_cert_at_issuance (self : DeviationRunner L) (cert : Certificate)
    (kind : SubjectKind) (cert_index : nat) : DeviationRunResult :=
  deviation_run_cert self cert kind cert_index (to_unix_secs (not_before (tbs_certificate cert))).

Fixpoint deviation_chain_loop {E} (self : DeviationRunner L) (kinds : list SubjectKind)
    (now_unix : N) (i : nat) (chain : list Certificate) (r : DeviationRunResult) :
    result E DeviationRunResult :=
  match chain with
  | [] => Ok r
  | cert :: chain =>
      kind ← index kinds i;
      let partial :=
        apply_deviations self (run_cert (runner self) cert kind i now_unix) cert now_unix in
      deviation_chain_loop self kinds now_unix (S i) chain (extend_result r partial)
  end.

Definition deviation_run_chain {E} (self : DeviationRunner L) (chain : list Certificate)
    (kinds : list SubjectKind) (now_unix : N) : result E DeviationRunResult :=
  if decide (length kinds ≠ length chain) then Panic
  else deviation_chain_loop self kinds now_unix 0 chain run_result_default.

Definition deviation_run_path (self : DeviationRunner L) (chain : list Certificate)
    (path : ValidatedPath) (now_unix : N) : DeviationRunResult :=
  apply_deviations_for_chain self (run_path (runner self) chain path now_unix) chain now_unix.
End deviation_runner.

(** ** Reports (report.rs) *)
Record EvaluationReport := {
  profile_id : bytes;
  profile_version : bytes;
  er_rule_bundle_version : bytes;
  chain_length : nat;
  er_evaluated_at_unix : N;
  er_findings : list Finding;
  deviated_findings : list DeviatedFinding }.

Definition evaluation_report_new (profile_id profile_version rule_bundle_version : bytes)
    (chain_length : nat) (evaluated_at_unix : N) : EvaluationReport := {|
  profile_id := profile_id; profile_version := profile_version;
  er_rule_bundle_version := rule_bundle_version; chain_length := chain_length;
  er_evaluated_at_unix := evaluated_at_unix; er_findings := []; deviated_findings := [] |}.

Definition severity_of (r : LintResult) : option Severity :=
  match r with
  | LintWarn _ => Some SevWarn
  | LintError _ => Some SevError
  | LintFatal _ => Some SevFatal
  | _ => None
  end.

Definition has_findings (r : EvaluationReport) : bool :=
  existsb finding_is_finding (er_findings r).

Definition findings_at_or_above (r : EvaluationReport) (min_severity : Severity) : list Finding :=
  filter (λ f, match severity_of (finding_result f) with
               | Some s => bool_decide (rank min_severity ≤ rank s)%N
               | None => false
               end = true) (er_findings r).
