(* ===== verification/LintRules.v ===== *)
(** * The lints of the crate (pkix-lint/src: rfc5280.rs, rfc6125.rs, rfc8398.rs, rfc8551.rs)

    The shipped lints as one type, an instance of [Lint]: a constructor for each
    struct, with its state.  The messages are those of the source, in UTF-8.
    [idna], [Utf8StringRef] and the text of an object identifier are parameters,
    and so are the decoders of the extensions. *)
From S2P Require Import Prelude X509 PathTypes Identity LintTypes Deviation OscalParse LintRunner.

Class LintLib := {
  (** [idna::domain_to_ascii] *)
  domain_to_ascii_utf8 : bytes → option bytes;
  (** [Utf8StringRef::try_from] *)
  utf8_string_ref : Any → option bytes;
  (** [ObjectIdentifier::to_string] *)
  oid_to_string : ObjectIdentifier → bytes }.

Definition ID_KP_SERVER_AUTH : ObjectIdentifier := [1; 3; 6; 1; 5; 5; 7; 3; 1]%N.
Definition ID_KP_EMAIL_PROTECTION : ObjectIdentifier := [1; 3; 6; 1; 5; 5; 7; 3; 4]%N.
Definition ID_ON_SMTP_UTF8_MAILBOX : ObjectIdentifier := [1; 3; 6; 1; 5; 5; 7; 8; 9]%N.

(** [extensions.iter().find(|e| e.extn_id == oid)] *)
Definition lint_find_ext (oid : ObjectIdentifier) (extensions : list Extension) : option Extension :=
  snd <$> list_find (λ e, extn_id e = oid) extensions.

(** ** rfc5280.cert.serial_number.max_octets *)
Definition MAX_OCTETS_START : N := 1.
Definition MAX_OCTETS_END : N := 21.

Definition validate_max_octets (value : N) : result bytes unit :=
  if decide (MAX_OCTETS_START ≤ value ∧ value ≤ MAX_OCTETS_END)%N then Ok tt
  else Err (str "max-octets must be in the range " ++ fmt_u64 MAX_OCTETS_START ++ str "..=" ++
      fmt_u64 MAX_OCTETS_END ++ str " (got " ++ fmt_u64 value ++
      str "); RFC 5280 §4.1.2.2 mandates serials of 1..=20 octets (encoded-content reading) " ++
      str "or 1..=21 octets (unsigned-value reading). " ++
      str "Wire a custom Lint impl for wider/narrower bounds.").

Definition max_serial_parameters : list LintParameter := [
  {| param_id := str "max-octets";
     label := str "Maximum allowed serial number length in octets";
     default_value := str "20" |}].

(** [max_octets] of the lint after the call; the panic of [with_max_octets]. *)
Definition with_max_octets (max_octets : N) : result Empty_set N :=
  match validate_max_octets max_octets with Ok _ => Ok max_octets | _ => Panic end.
Definition MAX_SERIAL_DEFAULT : N := 20.

Definition max_serial_set_parameter (max_octets : N) (id value : bytes) :
    N * result ParameterError unit :=
  if decide (id = str "max-octets") then
    let parsed :=
      n ← ok_or (from_str_radix 10 u64_max value)
        (InvalidValue id (str "expected non-negative integer, got '" ++ value ++ str "'"));
      _ ← map_err (InvalidValue id) (validate_max_octets n);
      Ok n in
    match parsed with
    | Ok n => (n, Ok tt)
    | Err e => (max_octets, Err e)
    | Panic => (max_octets, Panic)
    end
  else (max_octets, Err (UnknownParameter id)).

Definition max_serial_check (max_octets : N) (cert : Certificate) : LintResult :=
  let len := N.of_nat (length (serial_number (tbs_certificate cert))) in
  if decide (max_octets < len)%N
  then LintError (str "certificate serialNumber is " ++ fmt_u64 len ++
         str " octets, exceeds cap of " ++ fmt_u64 max_octets ++ str " octets")
  else LintPass.

Definition malformed_der (what : bytes) (e : der_error) : LintResult :=
  LintError (what ++ str " extension value is malformed DER: " ++ truncate_for_detail (str e)).

Section rules.
Context `{LintLib} `{DecodeOwned BasicConstraints} `{DecodeOwned ExtendedKeyUsage}
  `{DecodeOwned SubjectAltName}.
Implicit Types (cert : Certificate).

(** ** rfc5280.cert.bc.ca_false_for_leaf *)
Definition bc_ca_leaf_check cert : LintResult :=
  match extensions (tbs_certificate cert) with
  | None => LintPass
  | Some exts =>
      match lint_find_ext OID_BASIC_CONSTRAINTS exts with
      | None => LintPass
      | Some bc_ext =>
          match from_der (T:=BasicConstraints) (extn_value bc_ext) with
          | inr bc =>
              if ca bc
              then LintError (str "end-entity certificate asserts BasicConstraints.cA=TRUE; " ++
                              str "only CA certificates may assert cA")
              else LintPass
          | inl e => malformed_der (str "BasicConstraints") e
          end
      end
  end.

(** ** rfc5280.cert.eku.server_auth_required, rfc8551.cert.eku.email_protection_required

    The two differ in the purpose and in one message. *)
Definition eku_check (purpose : ObjectIdentifier) (absent : bytes) cert : LintResult :=
  match extensions (tbs_certificate cert) with
  | None => LintError (str "leaf certificate has no extensions; ExtendedKeyUsage absent")
  | Some exts =>
      match lint_find_ext OID_EXTENDED_KEY_USAGE exts with
      | None => LintError (str "ExtendedKeyUsage extension absent from leaf certificate")
      | Some eku_ext =>
          match from_der (T:=ExtendedKeyUsage) (extn_value eku_ext) with
          | inr eku => if decide (purpose ∈ eku_oids eku) then LintPass else LintError absent
          | inl e => malformed_der (str "ExtendedKeyUsage") e
          end
      end
  end.
Definition eku_server_auth_check cert : LintResult :=
  eku_check ID_KP_SERVER_AUTH
    (str "ExtendedKeyUsage does not include id-kp-serverAuth (1.3.6.1.5.5.7.3.1)") cert.
Definition eku_email_protection_check cert : LintResult :=
  eku_check ID_KP_EMAIL_PROTECTION
    (str "ExtendedKeyUsage does not include id-kp-emailProtection (1.3.6.1.5.5.7.3.4)") cert.

(** ** rfc5280.cert.san.required_when_subject_empty *)
Definition san_required_check cert : LintResult :=
  if negb (name_is_empty (subject (tbs_certificate cert))) then LintPass
  else match extensions (tbs_certificate cert) with
       | None =>
           LintError (str "empty-subject certificate has no extensions; " ++
                      str "RFC 5280 §4.2.1.6 requires a critical subjectAltName")
       | Some exts =>
           match lint_find_ext OID_SUBJECT_ALT_NAME exts with
           | None =>
               LintError (str "empty-subject certificate omits subjectAltName; " ++
                          str "RFC 5280 §4.2.1.6 requires it to be present and critical")
           | Some san_ext =>
               if negb (critical san_ext)
               then LintError (str "empty-subject certificate carries subjectAltName but it is " ++
                      str "not marked critical; RFC 5280 §4.2.1.6 requires the extension to be " ++
                      str "critical when the Subject is empty")
               else LintPass
           end
       end.

(** ** rfc5280.cert.signature_algorithm_match *)
Definition signature_match_check cert : LintResult :=
  let outer := signature_algorithm cert in
  let inner := tbs_signature (tbs_certificate cert) in
  if decide (outer = inner) then LintPass
  else LintError (str "outer signatureAlgorithm (" ++ oid_to_string (alg_oid outer) ++
         str ") does not match tbsCertificate.signature (" ++ oid_to_string (alg_oid inner) ++
         str "); RFC 5280 §4.1.1.2 requires both to be identical").

(** ** The names of a leaf: the common part of the lints on its SAN *)
Definition san_check (absent none_found : bytes) (wanted : GeneralName → bool) cert : LintResult :=
  match extensions (tbs_certificate cert) with
  | None => LintError (str "leaf certificate has no extensions; SubjectAltName absent")
  | Some exts =>
      match lint_find_ext OID_SUBJECT_ALT_NAME exts with
      | None => LintError absent
      | Some san_ext =>
          match from_der (T:=SubjectAltName) (extn_value san_ext) with
          | inl e => malformed_der (str "SubjectAltName") e
          | inr san =>
              match san_names san with
              | [] => LintError (str "SubjectAltName extension is present but contains no names")
              | names => if existsb wanted names then LintPass else LintError none_found
              end
          end
      end
  end.

(** ** rfc6125.cert.san.tls_server_dns_or_ip_required *)
Definition is_dns_or_ip (gn : GeneralName) : bool :=
  match gn with DnsName _ | IpAddress _ => true | _ => false end.
Definition tls_server_san_check cert : LintResult :=
  san_check
    (str "SubjectAltName extension absent from leaf certificate; RFC 6125 §6.4.1 " ++
     str "requires a dNSName or iPAddress entry")
    (str "SubjectAltName does not contain a dNSName or iPAddress entry; " ++
     str "RFC 6125 §6.4.1 requires at least one for TLS server identity")
    is_dns_or_ip cert.

(** ** rfc8398.cert.san.smime_mailbox_required *)
Definition is_mailbox (gn : GeneralName) : bool :=
  match gn with
  | Rfc822Name _ => true
  | OtherName type_id _ => bool_decide (type_id = ID_ON_SMTP_UTF8_MAILBOX)
  | _ => false
  end.
Definition smime_san_check cert : LintResult :=
  san_check
    (str "SubjectAltName extension absent from leaf certificate; RFC 8398 §3 " ++
     str "requires an rfc822Name or id-on-SmtpUTF8Mailbox otherName entry")
    (str "SubjectAltName does not contain an rfc822Name or id-on-SmtpUTF8Mailbox " ++
     str "otherName; RFC 8398 §3 requires at least one for S/MIME identity")
    is_mailbox cert.

(** ** rfc8398.cert.san.smime_mailbox_equivalent *)

(** Around the last "@". *)
Definition split_mailbox (addr : bytes) : option (bytes * bytes) := rsplit_once 64 addr.

Definition validate_mailbox_for_equivalence (addr : bytes) : result bytes unit :=
  '(local, domain) ← ok_or (split_mailbox addr) (str "no '@' delimiter");
  _ ← fail_if (str_is_empty local) (str "empty local-part");
  _ ← fail_if (str_is_empty domain) (str "empty domain");
  _ ← ok_or (domain_to_ascii_utf8 domain) (str "domain failed IDN A-label conversion");
  Ok tt.

Definition mailbox_equivalent (rfc822 smtputf8 : bytes) : result bytes bool :=
  '(r_local, r_domain) ← ok_or (split_mailbox rfc822) (str "rfc822Name has no '@' delimiter");
  '(u_local, u_domain) ←
    ok_or (split_mailbox smtputf8) (str "SmtpUTF8Mailbox has no '@' delimiter");
  _ ← fail_if (str_is_empty r_local || str_is_empty u_local
               || str_is_empty r_domain || str_is_empty u_domain)
        (str "mailbox address has empty local-part or domain");
  if decide (r_local ≠ u_local) then Ok false
  else u_ascii ← ok_or (domain_to_ascii_utf8 u_domain) (str "U-label → A-label conversion failed");
       Ok (eq_ignore_ascii_case u_ascii r_domain).

(** The addresses of both kinds; [None] for a value that is no UTF8String. *)
Fixpoint collect_mailboxes (names : list GeneralName) : option (list bytes * list bytes) :=
  match names with
  | [] => Some ([], [])
  | gn :: names =>
      match gn with
      | Rfc822Name addr =>
          '(r, u) ← collect_mailboxes names; Some (addr :: r, u)
      | OtherName type_id value =>
          if decide (type_id = ID_ON_SMTP_UTF8_MAILBOX)
          then s ← utf8_string_ref value; '(r, u) ← collect_mailboxes names; Some (r, s :: u)
          else collect_mailboxes names
      | _ => collect_mailboxes names
      end
  end.

(** The first address that is malformed, with the reason. *)
Fixpoint first_malformed (addrs : list bytes) : option (bytes * bytes) :=
  match addrs with
  | [] => None
  | a :: addrs =>
      match validate_mailbox_for_equivalence a with
      | Err reason => Some (a, reason)
      | _ => first_malformed addrs
      end
  end.

(** [others.iter().any(|o| f(o).expect(..))]: it stops at the first match. *)
Fixpoint any_expect {E A} (f : A → result E bool) (l : list A) : result Empty_set bool :=
  match l with
  | [] => Ok false
  | x :: l => b ← expect (to_ok (f x)); if (b : bool) then Ok true else any_expect f l
  end.

(** The first address without an equivalent one on the other side. *)
Fixpoint first_unmatched (equivalent : bytes → bytes → result bytes bool)
    (addrs others : list bytes) : result Empty_set (option bytes) :=
  match addrs with
  | [] => Ok None
  | a :: addrs =>
      found ← any_expect (equivalent a) others;
      if (found : bool) then first_unmatched equivalent addrs others else Ok (Some a)
  end.

Definition malformed_mailbox (kind a reason : bytes) : LintResult :=
  LintError (kind ++ str " SAN entry '" ++ truncate_for_detail a ++
    str "' is malformed for equivalence checking (" ++ reason ++
    str "); RFC 8398 §3 presupposes well-formed RFC 5322 mailbox addresses").
Definition unmatched_mailbox (kind other a : bytes) : LintResult :=
  LintError (kind ++ str " SAN entry '" ++ truncate_for_detail a ++ str "' has no matching " ++
    other ++ str "; RFC 8398 §3 requires byte-identical local-part and " ++
    str "A-label/U-label-equivalent domain").

Definition mailboxes_check (rfc822_addrs smtputf8_addrs : list bytes) : result Empty_set LintResult :=
  match rfc822_addrs, smtputf8_addrs with
  | [], _ | _, [] => Ok LintPass
  | _, _ =>
      match first_malformed rfc822_addrs, first_malformed smtputf8_addrs with
      | Some (r, reason), _ => Ok (malformed_mailbox (str "rfc822Name") r reason)
      | None, Some (u, reason) => Ok (malformed_mailbox (str "SmtpUTF8Mailbox") u reason)
      | None, None =>
          r ← first_unmatched mailbox_equivalent rfc822_addrs smtputf8_addrs;
          match r with
          | Some r => Ok (unmatched_mailbox (str "rfc822Name") (str "SmtpUTF8Mailbox") r)
          | None =>
              u ← first_unmatched (λ u r, mailbox_equivalent r u) smtputf8_addrs rfc822_addrs;
              match u with
              | Some u => Ok (unmatched_mailbox (str "SmtpUTF8Mailbox") (str "rfc822Name") u)
              | None => Ok LintPass
              end
          end
      end
  end.

Definition smime_equivalence_check cert : result Empty_set LintResult :=
  match extensions (tbs_certificate cert) with
  | None => Ok LintPass
  | Some exts =>
      match lint_find_ext OID_SUBJECT_ALT_NAME exts with
      | None => Ok LintPass
      | Some san_ext =>
          match from_der (T:=SubjectAltName) (extn_value san_ext) with
          | inl e => Ok (malformed_der (str "SubjectAltName") e)
          | inr san =>
              match collect_mailboxes (san_names san) with
              | None => Ok (LintError (str "SubjectAltName id-on-SmtpUTF8Mailbox otherName " ++
                                       str "value is not a valid UTF8String"))
              | Some (r, u) => mailboxes_check r u
              end
          end
      end
  end.
End rules.

(** ** The bundle *)
Inductive ShippedLint :=
| Rfc5280MaxSerialLengthLint (max_octets : N)
| Rfc5280BasicConstraintsCaLeafLint
| Rfc5280EkuServerAuthLint
| Rfc5280SanRequiredWhenSubjectEmptyLint
| Rfc5280SignatureAlgorithmMatchLint
| Rfc6125TlsServerSanLint
| Rfc8398SmimeSanLint
| Rfc8398SmimeMailboxEquivalenceLint
| Rfc8551EkuEmailProtectionLint.
#[global] Instance ShippedLint_eq_dec : EqDecision ShippedLint.
Proof. solve_decision. Defined.

(** What a lint declares of itself ([id] to [spec_url]). *)
Record LintMeta := {
  m_id : bytes; m_citation : bytes; m_severity : Severity; m_scope : Scope;
  m_applies_to : SubjectKind; m_title : bytes; m_spec_section_id : bytes; m_spec_url : bytes }.

Definition rfc5280_max_serial_length_meta : LintMeta := {|
  m_id := str "rfc5280.cert.serial_number.max_octets"; m_citation := str "RFC 5280 §4.1.2.2";
  m_severity := SevError; m_scope := ScopeCertificate; m_applies_to := KindAny;
  m_title := str "Certificate serialNumber must not exceed 20 octets";
  m_spec_section_id := str "rfc5280-4.1.2.2";
  m_spec_url := str "https://www.rfc-editor.org/rfc/rfc5280#section-4.1.2.2" |}.
Definition rfc5280_basic_constraints_ca_leaf_meta : LintMeta := {|
  m_id := str "rfc5280.cert.bc.ca_false_for_leaf"; m_citation := str "RFC 5280 §4.2.1.9";
  m_severity := SevError; m_scope := ScopeCertificate; m_applies_to := KindLeaf;
  m_title := str "End-entity certificate must not assert BasicConstraints.cA=TRUE";
  m_spec_section_id := str "rfc5280-4.2.1.9";
  m_spec_url := str "https://www.rfc-editor.org/rfc/rfc5280#section-4.2.1.9" |}.
Definition rfc5280_eku_server_auth_meta : LintMeta := {|
  m_id := str "rfc5280.cert.eku.server_auth_required"; m_citation := str "RFC 5280 §4.2.1.12";
  m_severity := SevError; m_scope := ScopeCertificate; m_applies_to := KindLeaf;
  m_title := str "TLS server certificate must include id-kp-serverAuth EKU";
  m_spec_section_id := str "rfc5280-4.2.1.12";
  m_spec_url := str "https://www.rfc-editor.org/rfc/rfc5280#section-4.2.1.12" |}.
Definition rfc5280_san_required_when_subject_empty_meta : LintMeta := {|
  m_id := str "rfc5280.cert.san.required_when_subject_empty"; m_citation := str "RFC 5280 §4.2.1.6";
  m_severity := SevError; m_scope := ScopeCertificate; m_applies_to := KindAny;
  m_title := str "Empty-subject certificate must include a critical subjectAltName";
  m_spec_section_id := str "rfc5280-4.2.1.6";
  m_spec_url := str "https://www.rfc-editor.org/rfc/rfc5280#section-4.2.1.6" |}.
Definition rfc5280_signature_algorithm_match_meta : LintMeta := {|
  m_id := str "rfc5280.cert.signature_algorithm_match"; m_citation := str "RFC 5280 §4.1.1.2";
  m_severity := SevError; m_scope := ScopeCertificate; m_applies_to := KindAny;
  m_title := str "Outer signatureAlgorithm must equal tbsCertificate.signature";
  m_spec_section_id := str "rfc5280-4.1.1.2";
  m_spec_url := str "https://www.rfc-editor.org/rfc/rfc5280#section-4.1.1.2" |}.
Definition rfc6125_tls_server_san_meta : LintMeta := {|
  m_id := str "rfc6125.cert.san.tls_server_dns_or_ip_required"; m_citation := str "RFC 6125 §6.4.1";
  m_severity := SevError; m_scope := ScopeCertificate; m_applies_to := KindLeaf;
  m_title := str "TLS server certificate must include SAN dNSName or iPAddress";
  m_spec_section_id := str "rfc6125-6.4.1";
  m_spec_url := str "https://www.rfc-editor.org/rfc/rfc6125#section-6.4.1" |}.
Definition rfc8398_smime_san_meta : LintMeta := {|
  m_id := str "rfc8398.cert.san.smime_mailbox_required"; m_citation := str "RFC 8398 §3 (+ RFC 5280 §4.2.1.6)";
  m_severity := SevError; m_scope := ScopeCertificate; m_applies_to := KindLeaf;
  m_title := str "S/MIME certificate must include SAN rfc822Name or SmtpUTF8Mailbox";
  m_spec_section_id := str "rfc8398-3";
  m_spec_url := str "https://www.rfc-editor.org/rfc/rfc8398#section-3" |}.
Definition rfc8398_smime_mailbox_equivalence_meta : LintMeta := {|
  m_id := str "rfc8398.cert.san.smime_mailbox_equivalent"; m_citation := str "RFC 8398 §3";
  m_severity := SevError; m_scope := ScopeCertificate; m_applies_to := KindLeaf;
  m_title := str "rfc822Name and SmtpUTF8Mailbox SAN entries must agree on the same address";
  m_spec_section_id := str "rfc8398-3";
  m_spec_url := str "https://www.rfc-editor.org/rfc/rfc8398#section-3" |}.
Definition rfc8551_eku_email_protection_meta : LintMeta := {|
  m_id := str "rfc8551.cert.eku.email_protection_required"; m_citation := str "RFC 8551 §3.3 (+ RFC 5280 §4.2.1.12)";
  m_severity := SevError; m_scope := ScopeCertificate; m_applies_to := KindLeaf;
  m_title := str "S/MIME certificate must include id-kp-emailProtection EKU";
  m_spec_section_id := str "rfc8551-3.3";
  m_spec_url := str "https://www.rfc-editor.org/rfc/rfc8551#section-3.3" |}.

Definition shipped_meta (l : ShippedLint) : LintMeta :=
  match l with
  | Rfc5280MaxSerialLengthLint _ => rfc5280_max_serial_length_meta
  | Rfc5280BasicConstraintsCaLeafLint => rfc5280_basic_constraints_ca_leaf_meta
  | Rfc5280EkuServerAuthLint => rfc5280_eku_server_auth_meta
  | Rfc5280SanRequiredWhenSubjectEmptyLint => rfc5280_san_required_when_subject_empty_meta
  | Rfc5280SignatureAlgorithmMatchLint => rfc5280_signature_algorithm_match_meta
  | Rfc6125TlsServerSanLint => rfc6125_tls_server_san_meta
  | Rfc8398SmimeSanLint => rfc8398_smime_san_meta
  | Rfc8398SmimeMailboxEquivalenceLint => rfc8398_smime_mailbox_equivalence_meta
  | Rfc8551EkuEmailProtectionLint => rfc8551_eku_email_protection_meta
  end.

(** No lint overrides [description] or [check_path], and the first alone has a
    parameter.  The check of the mailboxes does not panic
    ([smime_equivalence_total]): its last branch is not taken. *)
#[global] Instance ShippedLint_impl `{LintLib} `{DecodeOwned BasicConstraints}
    `{DecodeOwned ExtendedKeyUsage} `{DecodeOwned SubjectAltName} : Lint ShippedLint := {|
  id l := m_id (shipped_meta l);
  lint_citation l := m_citation (shipped_meta l);
  severity l := m_severity (shipped_meta l);
  scope l := m_scope (shipped_meta l);
  applies_to l := m_applies_to (shipped_meta l);
  title l := m_title (shipped_meta l);
  description _ := default_description;
  spec_section_id l := Some (m_spec_section_id (shipped_meta l));
  spec_url l := Some (m_spec_url (shipped_meta l));
  parameters l := match l with
                  | Rfc5280MaxSerialLengthLint _ => max_serial_parameters
                  | _ => default_parameters
                  end;
  set_parameter l id value :=
    match l with
    | Rfc5280MaxSerialLengthLint m =>
        let '(m, r) := max_serial_set_parameter m id value in (Rfc5280MaxSerialLengthLint m, r)
    | _ => default_set_parameter l id value
    end;
  check_cert l cert _ _ :=
    match l with
    | Rfc5280MaxSerialLengthLint m => max_serial_check m cert
    | Rfc5280BasicConstraintsCaLeafLint => bc_ca_leaf_check cert
    | Rfc5280EkuServerAuthLint => eku_server_auth_check cert
    | Rfc5280SanRequiredWhenSubjectEmptyLint => san_required_check cert
    | Rfc5280SignatureAlgorithmMatchLint => signature_match_check cert
    | Rfc6125TlsServerSanLint => tls_server_san_check cert
    | Rfc8398SmimeSanLint => smime_san_check cert
    | Rfc8398SmimeMailboxEquivalenceLint =>
        match smime_equivalence_check cert with Ok r => r | _ => LintNotApplicable end
    | Rfc8551EkuEmailProtectionLint => eku_email_protection_check cert
    end;
  check_path _ := default_check_path |}.
