(* ===== verification/OscalEmit.v ===== *)
(** * OSCAL documents out (pkix-lint/src/oscal: emit.rs, catalog.rs)

    Assessment Results from a report, the Risks of a policy of deviations, and
    the Catalog of a bundle of lints, as JSON values.  Identifiers are derived
    from digests of the content ([uuid_v8]). *)
From S2P Require Import Prelude X509 PathTypes Names Identity Json LintTypes Deviation OscalParse OscalProfile LintRunner DeviationRunner.

Definition REPORT_TITLE : bytes := str "pkix-lint Assessment Results".
Definition NS_REPORT : bytes := str "pkix-lint.oscal.report".
Definition NS_RESULT : bytes := str "pkix-lint.oscal.result".
Definition NS_OBSERVATION : bytes := str "pkix-lint.oscal.observation".
Definition NS_FINDING : bytes := str "pkix-lint.oscal.finding".
Definition NS_RISK : bytes := str "pkix-lint.oscal.risk".
Definition NS_RISK_POLICY : bytes := str "pkix-lint.oscal.risk.policy".
Definition NS_CATALOG : bytes := str "pkix-lint.oscal.catalog".
Definition NS_CONTROL : bytes := str "pkix-lint.oscal.catalog.control".
Definition NS_PARAM : bytes := str "pkix-lint.oscal.catalog.param".
Definition CATALOG_LAST_MODIFIED : bytes := str "1970-01-01T00:00:00Z".
(** [env!("CARGO_PKG_VERSION")] *)
Definition CARGO_PKG_VERSION : bytes := str "0.9.1".

(** [json!({ .. })] *)
Definition obj (m : list (string * Value)) : Value := Object ((λ p, (str p.1, p.2)) <$> m).
(** [result["key"] = v] of a key that is not there yet. *)
Definition set_key (key : string) (v : Value) (o : Value) : Value :=
  match o with Object m => Object (insert_new (str key) v m) | _ => o end.

(** ** Helpers *)
Definition prop (name value : bytes) : Value :=
  obj [("name", String name); ("value", String value);
       ("ns", String (str "https://pkix.rs/oscal/pkix-lint"))].

Definition hex_digit (nibble : N) : N :=
  if decide (nibble ≤ 9)%N then (48 + nibble)%N else (97 + nibble - 10)%N.
Definition hex (b : bytes) : bytes := b ≫= (λ x, [hex_digit (N.shiftr x 4); hex_digit (N.land x 15)]).

Definition severity_label (s : Severity) : bytes :=
  str match s with
      | SevInfo => "info" | SevNotice => "notice" | SevWarn => "warn"
      | SevError => "error" | SevFatal => "fatal"
      end.
Definition scope_label (s : Scope) : bytes :=
  str match s with ScopeCertificate => "certificate" | ScopePath => "path" end.
Definition subject_kind_label (k : SubjectKind) : bytes :=
  str match k with
      | KindLeaf => "leaf" | KindIntermediateCa => "intermediate-ca"
      | KindAnchorIssued => "anchor-issued" | KindAny => "any"
      end.
Definition lint_result_severity_label (r : LintResult) : bytes :=
  str match r with
      | LintPass => "pass" | LintNotApplicable => "not-applicable"
      | LintWarn _ => "warn" | LintError _ => "error" | LintFatal _ => "fatal"
      end.
Definition deviation_action_label (a : DeviationAction) : bytes :=
  str match a with Suppress => "suppress" | DowngradeSeverityTo _ => "downgrade" end.
Definition deviation_action_prop_value (a : DeviationAction) : bytes :=
  match a with
  | Suppress => str "suppress"
  | DowngradeSeverityTo s => str "downgrade:" ++ severity_label s
  end.

(** [usize::to_le_bytes] and [u64::to_le_bytes]. *)
Fixpoint le_bytes (n : nat) (x : N) : bytes :=
  match n with 0 => [] | S n => (x mod 256)%N :: le_bytes n (x / 256)%N end.
Definition to_le_bytes (x : N) : bytes := le_bytes 8 x.
Definition usize_le_bytes (n : nat) : bytes := to_le_bytes (N.of_nat n).

(** [i32::to_string] *)
Definition fmt_i32 (z : Z) : bytes :=
  if decide (z < 0)%Z then 45%N :: fmt_u64 (Z.to_N (- z)) else fmt_u64 (Z.to_N z).

(** [{n:0w}] *)
Definition fmt_pad (w : nat) (n : Z) : bytes :=
  let d := fmt_u64 (Z.to_N n) in replicate (w - length d) 48%N ++ d.

(** [i64] arithmetic, with truncated division. *)
Definition i64_max : N := 9223372036854775807.
Definition unix_to_rfc3339 (unix : N) : bytes :=
  let unix_i64 := Z.of_N (N.min unix i64_max) in
  let days_since_epoch := (unix_i64 / 86400)%Z in
  let secs_of_day := (unix_i64 mod 86400)%Z in
  let hour := Z.quot secs_of_day 3600 in
  let minute := Z.quot (Z.rem secs_of_day 3600) 60 in
  let second := Z.rem secs_of_day 60 in
  let z := (days_since_epoch + 719468)%Z in
  let era := Z.quot (if decide (0 ≤ z)%Z then z else z - 146096)%Z 146097 in
  let doe := (z - era * 146097)%Z in
  let yoe := Z.quot (doe - Z.quot doe 1460 + Z.quot doe 36524 - Z.quot doe 146096) 365 in
  let y := (yoe + era * 400)%Z in
  let doy := (doe - (365 * yoe + Z.quot yoe 4 - Z.quot yoe 100))%Z in
  let mp := Z.quot (5 * doy + 2) 153 in
  let d := (doy - Z.quot (153 * mp + 2) 5 + 1)%Z in
  let m := if decide (mp < 10)%Z then (mp + 3)%Z else (mp - 9)%Z in
  let year := if decide (m ≤ 2)%Z then (y + 1)%Z else y in
  fmt_pad 4 year ++ str "-" ++ fmt_pad 2 m ++ str "-" ++ fmt_pad 2 d ++ str "T" ++
  fmt_pad 2 hour ++ str ":" ++ fmt_pad 2 minute ++ str ":" ++ fmt_pad 2 second ++ str "Z".

Section emit.
Context `{Sha256}.

(** The sixteen octets of the identifier, and their text. *)
Definition uuid_bytes (namespace seed : bytes) : bytes :=
  let digest := sha256_digest (namespace ++ [0%N] ++ seed) in
  let bytes := take 16 digest in
  let bytes := alter (λ b, N.lor (N.land b 15) 128) 6 bytes in
  alter (λ b, N.lor (N.land b 63) 128) 8 bytes.
Definition uuid_text (b : bytes) : bytes :=
  let h := λ i j, hex_encode (take (j - i) (drop i b)) in
  h 0 4 ++ str "-" ++ h 4 6 ++ str "-" ++ h 6 8 ++ str "-" ++ h 8 10 ++ str "-" ++ h 10 16.
Definition uuid_v8 (namespace seed : bytes) : bytes := uuid_text (uuid_bytes namespace seed).

(** ** Assessment Results *)
Record EvidenceKey := { ek_cert_sha256 : option bytes; ek_cert_index : option nat }.
#[global] Instance EvidenceKey_eq_dec : EqDecision EvidenceKey.
Proof. solve_decision. Defined.

Definition from_finding (f : Finding) : EvidenceKey :=
  {| ek_cert_sha256 := cert_sha256 f; ek_cert_index := cert_index f |}.

Definition evidence_seed (k : EvidenceKey) (report_seed : bytes) : bytes :=
  report_seed ++
  match ek_cert_sha256 k with Some h => 1%N :: h | None => [0%N] end ++
  match ek_cert_index k with Some i => 1%N :: usize_le_bytes i | None => [0%N] end.

(** [EvidenceIndex::build]: the keys in the order of their first finding. *)
Definition evidence_index_build (fs : list Finding) : list EvidenceKey :=
  foldl (λ keys f, let k := from_finding f in if decide (k ∈ keys) then keys else keys ++ [k])
    [] fs.

Definition observation_uuid (report_seed : bytes) (f : Finding) : bytes :=
  uuid_v8 NS_OBSERVATION (evidence_seed (from_finding f) report_seed).

Definition report_seed (r : EvaluationReport) : bytes :=
  profile_id r ++ [0%N] ++ profile_version r ++ [0%N] ++ er_rule_bundle_version r ++ [0%N] ++
  usize_le_bytes (chain_length r) ++ to_le_bytes (er_evaluated_at_unix r).

Definition finding_seed (seed : bytes) (i : nat) (f : Finding) : bytes :=
  seed ++ usize_le_bytes i ++ lint_id f ++ [0%N] ++
  take 1 (lint_result_severity_label (finding_result f)) ++
  default [] (result_detail (finding_result f)) ++
  match cert_index f with Some idx => usize_le_bytes idx | None => [] end ++
  default [] (cert_sha256 f).

Definition risk_seed (seed : bytes) (i : nat) (df : DeviatedFinding) : bytes :=
  seed ++ usize_le_bytes i ++ df_lint_id df ++ [0%N] ++ deviation_id df ++ [0%N] ++
  deviation_action_label (action df).

Definition subject_seed (seed : bytes) (cert_index : nat) : bytes :=
  seed ++ usize_le_bytes cert_index.

Definition observation_description (key : EvidenceKey) : bytes :=
  match ek_cert_index key, ek_cert_sha256 key with
  | Some idx, Some _ => str "Certificate at chain index " ++ fmt_usize idx ++
                        str " (identified by SHA-256 digest)"
  | Some idx, None => str "Certificate at chain index " ++ fmt_usize idx
  | None, Some _ => str "Certificate identified by SHA-256 digest"
  | None, None => str "Path-scope evidence: the validated certificate chain as a whole"
  end.

Definition observation_for_evidence (seed collected : bytes) (key : EvidenceKey) : Value :=
  let uuid := uuid_v8 NS_OBSERVATION (evidence_seed key seed) in
  let props :=
    match ek_cert_sha256 key with
    | Some h => [prop (str "pkix-lint.cert-sha256") (hex h)] | None => [] end ++
    match ek_cert_index key with
    | Some i => [prop (str "pkix-lint.cert-index") (fmt_usize i)] | None => [] end in
  let obs := obj [
    ("uuid", String uuid); ("methods", Array [String (str "EXAMINE")]);
    ("collected", String collected); ("description", String (observation_description key));
    ("props", Array props)] in
  match ek_cert_index key with
  | Some idx =>
      let subject_uuid := uuid_v8 (str "pkix-lint.oscal.subject.cert") (subject_seed seed idx) in
      set_key "subjects" (Array [obj [
        ("type", String (str "component")); ("subject-uuid", String subject_uuid);
        ("title", String (str "Certificate at chain index " ++ fmt_usize idx))]]) obs
  | None => obs
  end.

Definition finding_for (seed : bytes) (i : nat) (f : Finding) (observation_uuid : bytes) : Value :=
  let finding_uuid := uuid_v8 NS_FINDING (finding_seed seed i f) in
  let state := str (if finding_is_finding f then "not-satisfied" else "satisfied") in
  let description := str "Evaluation of lint `" ++ lint_id f ++ str "` (" ++ citation f ++ str ")" ++
    match result_detail (finding_result f) with Some d => str ": " ++ d | None => [] end in
  let props := [
    prop (str "pkix-lint.lint-id") (lint_id f);
    prop (str "pkix-lint.citation") (citation f);
    prop (str "pkix-lint.severity") (lint_result_severity_label (finding_result f))] in
  obj [
    ("uuid", String finding_uuid); ("title", String (lint_id f));
    ("description", String description);
    ("target", obj [
      ("type", String (str "objective-id")); ("target-id", String (lint_id f));
      ("status", obj [("state", String state)])]);
    ("props", Array props);
    ("related-observations", Array [obj [("observation-uuid", String observation_uuid)]])].

Definition risk_for (seed : bytes) (i : nat) (df : DeviatedFinding) : Value :=
  let uuid := uuid_v8 NS_RISK (risk_seed seed i df) in
  let props := [
    prop (str "pkix-lint.lint-id") (df_lint_id df);
    prop (str "pkix-lint.citation") (df_citation df);
    prop (str "pkix-lint.deviation-id") (deviation_id df);
    prop (str "pkix-lint.deviation-action") (deviation_action_label (action df))] in
  let risk := obj [
    ("uuid", String uuid);
    ("title", String (str "Deviation " ++ deviation_id df ++ str " applied to " ++ df_lint_id df));
    ("description", String (df_justification df));
    ("statement", String (default (str "Original lint result") (result_detail (original_result df))));
    ("status", String (str "deviation-approved")); ("props", Array props)] in
  match df_evidence_uri df with
  | Some uri => set_key "links" (Array [obj [("href", String uri); ("rel", String (str "reference"));
                  ("text", String (str "Deviation evidence"))]]) risk
  | None => risk
  end.

(** A field that is left out when its array is empty. *)
Definition set_non_empty (key : string) (l : list Value) (o : Value) : Value :=
  match l with [] => o | _ => set_key key (Array l) o end.
Definition prop_non_empty (name value : bytes) : list Value :=
  if str_is_empty value then [] else [prop name value].

(** [AssessmentResultsOptions] has one field, the href of the plan. *)
Definition IMPORT_AP_PLACEHOLDER : bytes := str "#assessment-plan-placeholder".

Definition assessment_results_with_options (report : EvaluationReport) (import_ap_href : bytes) :
    Value :=
  let seed := report_seed report in
  let last_modified := unix_to_rfc3339 (er_evaluated_at_unix report) in
  let props :=
    prop_non_empty (str "pkix-lint.profile-id") (profile_id report) ++
    prop_non_empty (str "pkix-lint.profile-version") (profile_version report) ++
    prop_non_empty (str "pkix-lint.rule-bundle-version") (er_rule_bundle_version report) ++
    [prop (str "pkix-lint.chain-length") (fmt_usize (chain_length report))] in
  let observations := observation_for_evidence seed last_modified <$>
    evidence_index_build (er_findings report) in
  let findings :=
    imap (λ i f, finding_for seed i f (observation_uuid seed f)) (er_findings report) in
  let risks := imap (λ i df, risk_for seed i df) (deviated_findings report) in
  let result := obj [
    ("uuid", String (uuid_v8 NS_RESULT seed)); ("title", String REPORT_TITLE);
    ("description",
      String (str "Findings emitted by pkix-lint for the evaluated certificate chain."));
    ("start", String last_modified); ("end", String last_modified);
    ("reviewed-controls", obj [("control-selections", Array [obj [("include-all", obj [])]])])] in
  let result := set_non_empty "risks" risks
    (set_non_empty "findings" findings (set_non_empty "observations" observations result)) in
  obj [("assessment-results", obj [
    ("uuid", String (uuid_v8 NS_REPORT seed));
    ("metadata", obj [
      ("title", String REPORT_TITLE); ("last-modified", String last_modified);
      ("version", String CARGO_PKG_VERSION); ("oscal-version", String OSCAL_VERSION);
      ("props", Array props)]);
    ("import-ap", obj [("href", String import_ap_href)]);
    ("results", Array [result])])].

Definition assessment_results (report : EvaluationReport) : Value :=
  assessment_results_with_options report IMPORT_AP_PLACEHOLDER.

(** ** The policy of deviations as Risks *)
Context `{NameText} `{DecodeOwned Name}.

Definition scope_text (s : DeviationScope) (name : bytes) : bytes :=
  match get_prop name s with Some (Text t) => t | _ => [] end.
Definition scope_bytes (s : DeviationScope) (name : bytes) : bytes :=
  match get_prop name s with Some (Bytes b) => b | _ => [] end.

Definition decode_name_display (der : bytes) : bytes :=
  match from_der der with inr n => name_display n | inl _ => str "<malformed DN>" end.

(** One Subject. *)
Definition subject_of (ty : bytes) (uuid title : bytes) : list (string * Value) :=
  [("type", String ty); ("subject-uuid", String uuid); ("title", String title)].

Definition value_octets (v : ScopePropValue) : bytes := match v with Text s => s | Bytes b => b end.
Definition value_text (v : ScopePropValue) : bytes := match v with Text s => s | Bytes b => hex b end.

Definition encode_scope (s : DeviationScope) : list Value :=
  if decide (kind s = SCOPE_KIND_ANY) then
    [obj (subject_of SCOPE_KIND_ANY (uuid_v8 (str "pkix-lint.oscal.subject.scope-any") [])
            (str "All certificates"))]
  else if decide (kind s = SCOPE_KIND_ISSUER_DN_CONTAINS) then
    let substring := scope_text s PROP_ISSUER_DN_SUBSTRING in
    [obj (subject_of SCOPE_KIND_ISSUER_DN_CONTAINS
            (uuid_v8 (str "pkix-lint.oscal.subject.issuer-dn-contains") substring)
            (str "Issuer DN contains '" ++ substring ++ str "'") ++
          [("props", Array [prop PROP_ISSUER_DN_SUBSTRING substring])])]
  else if decide (kind s = SCOPE_KIND_ISSUER_DN_EXACT) then
    let der := scope_bytes s PROP_ISSUER_DN_DER in
    let name_str := decode_name_display der in
    [obj (subject_of SCOPE_KIND_ISSUER_DN_EXACT
            (uuid_v8 (str "pkix-lint.oscal.subject.issuer-dn-exact") der)
            (str "Issuer DN equals " ++ name_str) ++
          [("props", Array [prop (str "pkix-lint.issuer-dn") name_str;
                            prop PROP_ISSUER_DN_DER (hex der)])])]
  else if decide (kind s = SCOPE_KIND_SERIAL_RANGE) then
    let der := scope_bytes s PROP_ISSUER_DN_DER in
    let start := scope_bytes s PROP_SERIAL_START in
    let end_ := scope_bytes s PROP_SERIAL_END in
    let name_str := decode_name_display der in
    let seed := der ++ [0%N] ++ start ++ [0%N] ++ end_ in
    [obj (subject_of SCOPE_KIND_SERIAL_RANGE
            (uuid_v8 (str "pkix-lint.oscal.subject.serial-range") seed)
            (str "Serial range [0x" ++ hex start ++ str ", 0x" ++ hex end_ ++
             str "] from issuer " ++ name_str) ++
          [("props", Array [prop (str "pkix-lint.issuer-dn") name_str;
                            prop PROP_ISSUER_DN_DER (hex der);
                            prop PROP_SERIAL_START (hex start);
                            prop PROP_SERIAL_END (hex end_)])])]
  else
    let seed := kind s ++ (props s ≫= (λ p, [0%N] ++ p.1 ++ [0%N] ++ value_octets p.2)) in
    [obj (subject_of (kind s) (uuid_v8 (str "pkix-lint.oscal.subject.custom") seed)
            (str "Custom scope '" ++ kind s ++ str "'") ++
          [("props", Array ((λ p, prop p.1 (value_text p.2)) <$> props s))])].

Definition risk_for_deviation (d : Deviation) : Value :=
  let uuid := uuid_v8 NS_RISK_POLICY (dev_id d) in
  let props := [
    prop (str "pkix-lint.deviation-id") (dev_id d);
    prop (str "pkix-lint.target-lint") (target_lint d);
    prop (str "pkix-lint.action") (deviation_action_prop_value (dev_action d));
    prop (str "pkix-lint.authorized-by") (authorized_by d)] ++
    match effective_start d with
    | Some s => [prop (str "pkix-lint.effective-start") (fmt_u64 s)] | None => [] end ++
    match effective_end d with
    | Some e => [prop (str "pkix-lint.effective-end") (fmt_u64 e)] | None => [] end ++
    (if decide (priority d ≠ 0)%Z
     then [prop (str "pkix-lint.deviation-priority") (fmt_i32 (priority d))] else []) in
  let risk := obj [
    ("uuid", String uuid);
    ("title", String (str "Deviation " ++ dev_id d ++ str " for lint " ++ target_lint d));
    ("description", String (justification d)); ("statement", String (justification d));
    ("status", String (str "deviation-approved")); ("props", Array props);
    ("subjects", Array (encode_scope (dev_scope d)))] in
  match evidence_uri d with
  | Some uri => set_key "links" (Array [obj [("href", String uri); ("rel", String (str "reference"));
                  ("text", String (str "Deviation authorization document"))]]) risk
  | None => risk
  end.

Definition risks_from_store (store : DeviationStore) : list Value := risk_for_deviation <$> store.

(** ** The Catalog of a bundle (catalog.rs) *)
Definition catalog_seed (catalog_id catalog_version : bytes) : bytes :=
  catalog_id ++ [0%N] ++ catalog_version.
Definition control_seed (catalog_id catalog_version lint_id : bytes) : bytes :=
  catalog_id ++ [0%N] ++ catalog_version ++ [0%N] ++ lint_id.

Definition param_value (catalog_id catalog_version lint_id : bytes) (p : LintParameter) : Value :=
  let seed := catalog_id ++ [0%N] ++ catalog_version ++ [0%N] ++ lint_id ++ [0%N] ++ param_id p in
  let props := [prop (str "pkix-lint.param-uuid") (uuid_v8 NS_PARAM seed);
                prop (str "pkix-lint.param-default") (default_value p)] in
  obj [("id", String (lint_id ++ str "." ++ param_id p)); ("label", String (label p));
       ("values", Array [String (default_value p)]); ("props", Array props)].

Context {L : Type} `{Lint L}.

(** The last of the fields present is [parts]. *)
Definition control_for_lint (catalog_id catalog_version : bytes) (lint : L) : Value :=
  let control_uuid := uuid_v8 NS_CONTROL (control_seed catalog_id catalog_version (id lint)) in
  let props := [
    prop (str "pkix-lint.citation") (lint_citation lint);
    prop (str "pkix-lint.severity") (severity_label (severity lint));
    prop (str "pkix-lint.scope") (scope_label (scope lint));
    prop (str "pkix-lint.applies-to") (subject_kind_label (applies_to lint))] ++
    match spec_section_id lint with
    | Some section_id => [prop (str "pkix-lint.section-id") section_id] | None => [] end ++
    [prop (str "pkix-lint.lint-id") (id lint); prop (str "pkix-lint.control-uuid") control_uuid] in
  let links :=
    match spec_url lint with
    | Some url => [obj [("href", String url); ("rel", String (str "reference"))]] | None => [] end in
  let parts :=
    match description lint with
    | Some d => [obj [("id", String (id lint ++ str "_smt")); ("name", String (str "statement"));
                      ("prose", String d)]]
    | None => [] end in
  let params := param_value catalog_id catalog_version (id lint) <$> parameters lint in
  let control := obj [("id", String (id lint)); ("class", String (str "pkix-lint"));
                      ("title", String (title lint))] in
  set_non_empty "parts" parts
    (set_non_empty "links" links
       (set_key "props" (Array props) (set_non_empty "params" params control))).

Definition catalog_from_lints (lints : list L) (catalog_id catalog_version : bytes) : Value :=
  let controls := control_for_lint catalog_id catalog_version <$> lints in
  let metadata_props :=
    prop_non_empty (str "pkix-lint.catalog-id") catalog_id ++
    prop_non_empty (str "pkix-lint.catalog-version") catalog_version in
  let metadata := obj [
    ("title", String (str "pkix-lint Lint Catalog"));
    ("last-modified", String CATALOG_LAST_MODIFIED); ("version", String catalog_version);
    ("oscal-version", String OSCAL_VERSION); ("props", Array metadata_props)] in
  obj [("catalog", obj [
    ("uuid", String (uuid_v8 NS_CATALOG (catalog_seed catalog_id catalog_version)));
    ("metadata", metadata); ("controls", Array controls)])].
End emit.
