(* ===== verification/LintSpec.v ===== *)
(** * What the lint engine promises

    The order of strings; the bundle of a runner has distinct identifiers; a run
    reports every lint in scope, in order, up to the first fatal one; parameters
    are set as if one by one, or not at all; details are bounded. *)
From S2P Require Import Prelude X509 PathTypes Identity IdentitySpec LintTypes Deviation OscalParse OscalProfile LintRunner.
From stdpp Require Import gmap sorting.

(** ** The order of octet strings *)
Lemma slice_cmp_refl a : slice_cmp a a = Eq.
Proof. induction a as [|x a IH]; cbn; [done|]. by rewrite N.compare_refl. Qed.

Lemma slice_cmp_eq a b : slice_cmp a b = Eq ↔ a = b.
Proof.
  split; [|intros ->; apply slice_cmp_refl].
  revert b. induction a as [|x a IH]; intros [|y b]; cbn; try done.
  destruct (N.compare_spec x y) as [->| |]; try done. by intros ->%IH.
Qed.

Lemma slice_cmp_antisym a b : slice_cmp b a = CompOpp (slice_cmp a b).
Proof.
  revert b. induction a as [|x a IH]; intros [|y b]; cbn; try done.
  rewrite N.compare_antisym, IH. by destruct (x ?= y)%N.
Qed.

Lemma slice_cmp_lt_trans a b c : slice_cmp a b = Lt → slice_cmp b c = Lt → slice_cmp a c = Lt.
Proof.
  revert b c. induction a as [|x a IH]; intros [|y b] [|z c]; cbn; try done.
  intros Hab Hbc. destruct (N.compare_spec x y) as [->|Hxy|]; [| |done].
  - destruct (y ?= z)%N; [by eapply IH|done..].
  - destruct (N.compare_spec y z) as [->|Hyz|]; [| |done].
    + by rewrite (proj2 (N.compare_lt_iff _ _) Hxy).
    + by rewrite (proj2 (N.compare_lt_iff x z)) by lia.
Qed.

Lemma str_le_iff a b : str_le a b ↔ a = b ∨ slice_cmp a b = Lt.
Proof.
  unfold str_le. rewrite <-slice_cmp_eq. destruct (slice_cmp a b); naive_solver.
Qed.

#[global] Instance str_le_trans : Transitive str_le.
Proof.
  intros a b c [->|Hab]%str_le_iff [->|Hbc]%str_le_iff; apply str_le_iff; eauto.
  right. by eapply slice_cmp_lt_trans.
Qed.
#[global] Instance str_le_total : Total str_le.
Proof.
  intros a b. unfold str_le. rewrite (slice_cmp_antisym a b).
  destruct (slice_cmp a b); cbn; naive_solver.
Qed.
#[global] Instance str_le_antisym : AntiSymm (=) str_le.
Proof.
  intros a b [->|Hab]%str_le_iff [?|Hba]%str_le_iff; try done.
  rewrite slice_cmp_antisym, Hab in Hba. done.
Qed.

(** ** Adjacent copies of a sorted list *)
Lemma dedup_cons2 a b l :
  dedup (a :: b :: l) = if decide (a = b) then dedup (b :: l) else a :: dedup (b :: l).
Proof. done. Qed.

Lemma dedup_length l : length (dedup l) ≤ length l.
Proof.
  induction l as [|a [|b l] IH]; [done|done|].
  rewrite dedup_cons2. case_decide; cbn [length] in *; lia.
Qed.

Lemma dedup_full_cons a l : length (dedup (a :: l)) = length (a :: l) →
  length (dedup l) = length l ∧ head l ≠ Some a.
Proof.
  destruct l as [|b l]; [done|]. rewrite dedup_cons2. case_decide as Hab.
  - pose proof (dedup_length (b :: l)). cbn [length] in *. lia.
  - cbn [length head]. intros. split; [cbn [length]; lia|congruence].
Qed.

Lemma sorted_dedup_NoDup l :
  StronglySorted str_le l → length (dedup l) = length l ↔ NoDup l.
Proof.
  induction 1 as [|a l Hl IH Hall]; [by split; [constructor|]|]. split.
  - intros [Hlen Hhd]%dedup_full_cons. apply IH in Hlen. constructor; [|done].
    intros Hin. destruct l as [|b l]; [by apply not_elem_of_nil in Hin|].
    apply Hhd. cbn. f_equal. apply (anti_symm str_le); [|by apply (Forall_inv Hall)].
    apply elem_of_cons in Hin as [->|Hin]; [by apply str_le_iff; left|].
    apply StronglySorted_inv in Hl as [_ Hb]. by eapply Forall_forall in Hb.
  - intros [Ha Hnd]%NoDup_cons. apply IH in Hnd. destruct l as [|b l]; [done|].
    rewrite dedup_cons2, decide_False; [cbn [length] in *; lia|]. intros ->. destruct Ha. by left.
Qed.

(** ** Bundles *)
Section runner_spec.
Context {L : Type} `{Lint L}.
Implicit Types (ls : list L) (self : LintRunner L).

(** The invariant of a runner: its identifiers are distinct. *)
Definition unique_ids (self : LintRunner L) : Prop := NoDup (id <$> lints self).

Lemma check_unique_ids_spec {E} ls :
  check_unique_ids (E:=E) ls = (if decide (NoDup (id <$> ls)) then Ok tt else Panic).
Proof.
  unfold check_unique_ids, sort_unstable.
  assert (Hs : length (dedup (merge_sort str_le (id <$> ls))) = length (id <$> ls) ↔
    NoDup (id <$> ls)).
  { pose proof (merge_sort_Permutation str_le (id <$> ls)) as Hp.
    rewrite <-(Permutation_length Hp).
    rewrite sorted_dedup_NoDup by apply (StronglySorted_merge_sort str_le).
    by rewrite Hp. }
  destruct (decide (NoDup (id <$> ls))) as [Hn|Hn], (decide _) as [Hd|Hd]; try tauto.
  by destruct (first_duplicate ∅ ls).
Qed.

(** The identifier of the message exists: the [unreachable!] is not reached. *)
Lemma first_duplicate_None seen ls :
  first_duplicate seen ls = None → NoDup (id <$> ls) ∧ ∀ i, i ∈ id <$> ls → i ∉ seen.
Proof.
  revert seen. induction ls as [|l ls IH]; intros seen; cbn [first_duplicate].
  { intros _. split; [constructor|]. by intros i ?%elem_of_nil. }
  case_decide as Hl; [done|]. intros [Hnd Hs]%IH. rewrite fmap_cons. split.
  - constructor; [|done]. intros Hin. apply (Hs _ Hin). set_solver.
  - intros i [->|Hi]%elem_of_cons; [done|]. specialize (Hs _ Hi). set_solver.
Qed.

Lemma first_duplicate_is_Some ls : ¬ NoDup (id <$> ls) → is_Some (first_duplicate ∅ ls).
Proof.
  intros Hnd. destruct (first_duplicate ∅ ls) eqn:Hd; [done|].
  by apply first_duplicate_None in Hd as [? _].
Qed.

(** ** Runs *)

(** What a lint says of a certificate, and a finding of a certificate. *)
Definition verdict (l : L) (cert : Certificate) (kind : SubjectKind) (now : N) : LintResult :=
  if kind_matches kind (applies_to l) then check_cert l cert kind now else LintNotApplicable.

Context `{Sha256} `{Encode Certificate}.

Definition cert_finding (self : LintRunner L) (cert : Certificate) (kind : SubjectKind)
    (i : nat) (now : N) (l : L) : Finding := {|
  lint_id := id l; citation := lint_citation l; rule_bundle_version := bundle_version self;
  finding_result := verdict l cert kind now; cert_index := Some i; evaluated_at_unix := now;
  cert_sha256 := cert_sha256_of cert |}.

Definition path_finding (self : LintRunner L) (chain : list Certificate) (path : ValidatedPath)
    (now : N) (l : L) : Finding := {|
  lint_id := id l; citation := lint_citation l; rule_bundle_version := bundle_version self;
  finding_result := check_path l chain path now; cert_index := None; evaluated_at_unix := now;
  cert_sha256 := None |}.

(** The results that [check_shape] rejects. *)
Definition fails (r : LintResult) : Prop :=
  match r with LintError _ | LintFatal _ => True | _ => False end.

(** The findings up to the first fatal one, which is kept. *)
Definition through_fatal (all out : list Finding) : Prop :=
  ∃ rest, all = out ++ rest ∧
    (rest = [] ∨ ∃ f, last out = Some f ∧ is_fatal (finding_result f) = true) ∧
    ∀ i f, out !! i = Some f → S i < length out → is_fatal (finding_result f) = false.

Lemma through_fatal_nil : through_fatal [] [].
Proof. exists []. split_and!; [done|by left|done]. Qed.
Lemma through_fatal_stop f rest :
  is_fatal (finding_result f) = true → through_fatal (f :: rest) [f].
Proof.
  intros Hf. exists rest. split_and!; [done|right; by exists f|]. cbn. intros. lia.
Qed.
Lemma through_fatal_cons f all out :
  is_fatal (finding_result f) = false → through_fatal all out → through_fatal (f :: all) (f :: out).
Proof.
  intros Hf (rest & -> & Hr & Hn). exists rest. split_and!; [done| |].
  - destruct Hr as [->|(g & Hg & Hgf)]; [by left|right]. exists g. split; [|done].
    by destruct out.
  - intros [|i] g; cbn; [by intros [= <-]|]. intros. eapply Hn; [done|lia].
Qed.

Lemma run_cert_loop_spec self cert kind i now ls :
  through_fatal
    (cert_finding self cert kind i now <$> filter (λ l, scope l = ScopeCertificate) ls)
    (run_cert_loop self cert kind i now (cert_sha256_of cert) ls).
Proof.
  induction ls as [|l ls IH]; cbn [run_cert_loop]; [apply through_fatal_nil|].
  case_decide as Hs; [by rewrite filter_cons_False|].
  rewrite filter_cons_True, fmap_cons by done.
  change (if kind_matches kind (applies_to l) then check_cert l cert kind now
          else LintNotApplicable) with (verdict l cert kind now).
  destruct (is_fatal (verdict l cert kind now)) eqn:Hf;
    [by apply through_fatal_stop|by apply through_fatal_cons].
Qed.

Lemma run_path_loop_spec self chain path now ls :
  through_fatal
    (path_finding self chain path now <$> filter (λ l, scope l = ScopePath) ls)
    (run_path_loop self chain path now ls).
Proof.
  induction ls as [|l ls IH]; cbn [run_path_loop]; [apply through_fatal_nil|].
  case_decide as Hs; [by rewrite filter_cons_False|].
  rewrite filter_cons_True, fmap_cons by done.
  destruct (is_fatal (check_path l chain path now)) eqn:Hf;
    [by apply through_fatal_stop|by apply through_fatal_cons].
Qed.

Lemma run_chain_loop_spec {E} self kinds now i chain :
  length kinds = i + length chain →
  run_chain_loop (E:=E) self kinds now i chain =
  Ok (mjoin (imap (λ j ck, run_cert self ck.1 ck.2 (i + j) now) (zip chain (drop i kinds)))).
Proof.
  revert i. induction chain as [|c chain IH]; intros i Hlen; cbn [run_chain_loop length] in *; [done|].
  destruct (lookup_lt_is_Some_2 kinds i) as [k Hk]; [lia|].
  unfold index. rewrite Hk. cbn [mbind result_bind]. rewrite IH by lia. cbn [mbind result_bind].
  rewrite (drop_S kinds k i) by done. cbn. rewrite Nat.add_0_r. do 3 f_equal.
  apply imap_ext. intros j [] _. cbn. f_equal. lia.
Qed.

(** C25: a run over a certificate reports, in the order of the bundle, every
    lint of certificate scope with its verdict (not applicable where the
    position of the certificate is not the lint's) up to the first fatal
    verdict; the run over a path does the same with the lints of path scope.  A
    run over a chain is the runs over its certificates, a fatal verdict stopping
    that of its own certificate only, and panics exactly when the number of
    kinds is not that of the certificates.  [check_shape] rejects exactly
    on an error or a fatal verdict, with all the findings. *)
Theorem lint_run_correct {P E} `{!LintProfile (L:=L) P} (self : LintRunner L) cert kind i now chain kinds path
    (profile : P) :
  through_fatal
    (cert_finding self cert kind i now <$> filter (λ l, scope l = ScopeCertificate) (lints self))
    (run_cert self cert kind i now) ∧
  through_fatal
    (path_finding self chain path now <$> filter (λ l, scope l = ScopePath) (lints self))
    (run_path self chain path now) ∧
  run_chain (E:=E) self chain kinds now =
    (if decide (length kinds = length chain)
     then Ok (mjoin (imap (λ j ck, run_cert self ck.1 ck.2 j now) (zip chain kinds)))
     else Panic) ∧
  (let fs := run_cert (lint_runner profile) cert kind 0 now in
   check_shape cert kind now profile = Ok tt ∧ Forall (λ f, ¬ fails (finding_result f)) fs ∨
   check_shape cert kind now profile = Err fs ∧ Exists (λ f, fails (finding_result f)) fs).
Proof.
  split_and!; [apply run_cert_loop_spec|apply run_path_loop_spec| |].
  - unfold run_chain. repeat case_decide; try done. by rewrite run_chain_loop_spec, drop_0.
  - unfold check_shape, fail_if. cbv zeta. set (fs := run_cert _ _ _ _ _).
    destruct (existsb _ fs) eqn:Hb; [right|left]; (split; [done|]).
    + apply existsb_elem in Hb as (f & Hf & Hr). apply Exists_exists. exists f. split; [done|].
      destruct (finding_result f); naive_solver.
    + apply Forall_forall. intros f Hf. apply existsb_elem_false with (x := f) in Hb; [|done].
      destruct (finding_result f); naive_solver.
Qed.
End runner_spec.

(** ** Selection of lints *)
Section selection.
Context {L : Type} `{Lint L}.
Implicit Types (ls : list L) (self : LintRunner L) (m : gmap bytes (option L)).

Lemma index_by_id_spec ls i s :
  NoDup (id <$> ls) →
  index_by_id ls !! i = Some s ↔ ∃ l, l ∈ ls ∧ id l = i ∧ s = Some l.
Proof.
  unfold index_by_id. induction ls as [|l ls IH] using rev_ind; intros Hnd.
  { cbn. rewrite lookup_empty. split; [done|]. by intros (l & ?%elem_of_nil & _). }
  rewrite fmap_app in Hnd. apply NoDup_app in Hnd as (Hnd & Hl & _).
  rewrite foldl_app. cbn. destruct (decide (id l = i)) as [<-|Hne].
  - rewrite lookup_insert_eq. split.
    + intros [= <-]. exists l. split_and!; [set_solver|done..].
    + intros (l' & [Hin|Hin%list_elem_of_singleton]%elem_of_app & Hid & ->); [|congruence].
      destruct (Hl (id l')); [by apply list_elem_of_fmap_2|rewrite Hid; set_solver].
  - rewrite lookup_insert_ne, IH by done. set_solver.
Qed.

Definition slots_ok m : Prop := ∀ i l, m !! i = Some (Some l) → id l = i.

Lemma slots_ok_insert m i : slots_ok m → slots_ok (<[i := None]> m).
Proof. intros Hm j l. rewrite lookup_insert_Some. naive_solver. Qed.

Lemma take_ids_Ok m ids out :
  slots_ok m → take_ids m ids = Ok out →
  (∀ l, l ∈ out ↔ ∃ i, i ∈ ids ∧ m !! i = Some (Some l)) ∧ NoDup (id <$> out) ∧
  (NoDup ids → (∀ i, i ∈ ids → m !! i ≠ Some None) → id <$> out = ids).
Proof.
  revert m out. induction ids as [|i ids IH]; intros m out Hm; cbn [take_ids].
  { intros [= <-]. split_and!; [|constructor|done]. intros l. split; [by intros ?%elem_of_nil|].
    by intros (i & ?%elem_of_nil & _). }
  intros Hout. inv_ok. rename r into slot, r0 into rest.
  destruct (IH _ _ (slots_ok_insert m i Hm) Hr0) as (Hmem & Hnd & Hall). clear IH.
  assert (Hrest : ∀ l, l ∈ rest ↔ ∃ j, j ∈ ids ∧ j ≠ i ∧ m !! j = Some (Some l)).
  { intros l. rewrite Hmem. setoid_rewrite lookup_insert_Some. naive_solver. }
  destruct slot as [l0|]; subst out.
  - pose proof (Hm _ _ Hr) as Hid. split_and!.
    + intros l. rewrite elem_of_cons, Hrest. setoid_rewrite elem_of_cons. split.
      * intros [->|(j & ? & ? & ?)]; eauto.
      * intros (j & [->|Hj] & Hl); [left; congruence|].
        destruct (decide (j = i)) as [->|]; [left; congruence|right; eauto].
    + rewrite fmap_cons. constructor; [|done]. rewrite list_elem_of_fmap.
      intros (l & Hl & (j & _ & Hne & Hj)%Hrest). apply Hm in Hj. congruence.
    + intros [Hni Hnd']%NoDup_cons Hs. rewrite fmap_cons, Hid. f_equal. apply Hall; [done|].
      intros j Hj. rewrite lookup_insert_ne by congruence. apply Hs. by right.
  - split_and!; [|done|].
    + intros l. rewrite Hrest. setoid_rewrite elem_of_cons. split; [naive_solver|].
      intros (j & [->|Hj] & Hl); [congruence|]. exists j. split_and!; [done|congruence|done].
    + intros _ Hs. destruct (Hs i); [by left|done].
Qed.

Lemma take_ids_Err m ids e :
  take_ids m ids = Err e ↔
  ∃ j i, ids !! j = Some i ∧ e = UnknownLintId i ∧ m !! i = None ∧
    ∀ k i', k < j → ids !! k = Some i' → is_Some (m !! i').
Proof.
  revert m. induction ids as [|i ids IH]; intros m; cbn [take_ids].
  { split; [done|]. by intros (j & i & ? & _). }
  destruct (m !! i) as [slot|] eqn:Hi; cbn [ok_or mbind result_bind].
  - assert (Hm : ∀ i', <[i := None]> m !! i' = None ↔ m !! i' = None).
    { intros i'. rewrite lookup_insert_None. split; [naive_solver|]. intros Hn. split; congruence. }
    assert (Hs : ∀ i', is_Some (<[i := None]> m !! i') ↔ is_Some (m !! i')).
    { intros i'. rewrite <-!not_eq_None_Some. by rewrite Hm. }
    transitivity (take_ids (<[i := None]> m) ids = Err e);
      [by destruct (take_ids _ _); naive_solver|].
    rewrite IH. setoid_rewrite Hm. setoid_rewrite Hs. split.
    + intros (j & i' & ? & ? & ? & Hk). exists (S j), i'. split_and!; [done..|].
      intros [|k] x ?; cbn; [intros [= <-]; eauto|]. apply Hk. lia.
    + intros ([|j] & i' & Hj & -> & Hn & Hk); cbn in Hj; [congruence|]. exists j, i'.
      split_and!; [done..|]. intros k x ? Hx. apply (Hk (S k) x); [lia|done].
  - split.
    + intros [= <-]. exists 0, i. split_and!; [done..|]. intros. lia.
    + intros ([|j] & i' & Hj & -> & _ & Hk); cbn in Hj; [by injection Hj as ->|].
      destruct (Hk 0 i); [lia|done|congruence].
Qed.

Lemma take_ids_no_panic m ids : take_ids m ids ≠ Panic.
Proof.
  revert m. induction ids as [|i ids IH]; intros m; cbn [take_ids]; [done|].
  destruct (m !! i); cbn [ok_or mbind result_bind]; [|done].
  specialize (IH (<[i := None]> m)). by destruct (take_ids _ _).
Qed.

(** Selecting lints by identifier fails exactly with the first identifier
    that no lint has.  Otherwise the new runner holds exactly the lints named,
    still with distinct identifiers and in the order of the list when that
    names none twice, and stamps the same bundle version. *)
Theorem filter_to_ids_correct self ids (Hunique : unique_ids self) :
  match filter_to_ids self ids with
  | Ok r =>
      unique_ids r ∧ bundle_version r = bundle_version self ∧
      (∀ l, l ∈ lints r ↔ l ∈ lints self ∧ id l ∈ ids) ∧
      (NoDup ids → id <$> lints r = ids)
  | Err e =>
      ∃ j i, ids !! j = Some i ∧ e = UnknownLintId i ∧ ¬ (i ∈ (id <$> lints self)) ∧
        ∀ k i', k < j → ids !! k = Some i' → i' ∈ (id <$> lints self)
  | Panic => False
  end.
Proof.
  unfold filter_to_ids. pose proof (index_by_id_spec (lints self)) as Hm.
  set (m := index_by_id (lints self)) in *.
  assert (Hn : ∀ i, is_Some (m !! i) ↔ i ∈ id <$> lints self).
  { intros i. rewrite list_elem_of_fmap. split.
    - intros [s (l & ? & ? & ?)%Hm]; [naive_solver|done].
    - intros (l & -> & Hl). exists (Some l). apply Hm; [done|]. eauto. }
  destruct (take_ids m ids) as [out|e|] eqn:Ht; cbn [mbind result_bind].
  - apply take_ids_Ok in Ht as (Hmem & Hnd & Hids).
    + split_and!; [done..| |].
      * intros l. cbn. rewrite Hmem. split.
        -- intros (i & Hi & (l' & ? & ? & [= ->])%Hm); [|done]. naive_solver.
        -- intros [Hl Hi]. exists (id l). split; [done|]. apply Hm; [done|]. eauto.
      * intros Hd. apply Hids; [done|]. intros i _ (l & _ & _ & ?)%Hm; done.
    + intros i l (l' & _ & ? & [= ->])%Hm; done.
  - apply take_ids_Err in Ht as (j & i & Hj & -> & Hi & Hk). exists j, i. split_and!; [done..| |].
    + rewrite <-Hn, Hi. by intros [? ?].
    + intros k i' Hlt Hi'. apply Hn. by eapply Hk.
  - by apply take_ids_no_panic in Ht.
Qed.
End selection.

(** ** Parameter overrides *)

(** The identifier of a lint is stable: setting a parameter keeps it. *)
Class LintLaws (L : Type) `{Lint L} := {
  set_parameter_id (l : L) p v : id (set_parameter l p v).1 = id l }.

Lemma max_by_len_spec {A} best (l : list (A * nat)) :
  match max_by_len best l with
  | Some b => (best = Some b ∨ b ∈ l) ∧ (∀ x, x ∈ l → x.2 ≤ b.2) ∧ (∀ x, best = Some x → x.2 ≤ b.2)
  | None => best = None ∧ l = []
  end.
Proof.
  revert best. induction l as [|x l IH]; intros best; cbn [max_by_len].
  { destruct best; [|done]. split_and!; [by left|by intros ? ?%elem_of_nil|by intros ? [= ->]]. }
  destruct best as [b|].
  - case_decide as Hb.
    + specialize (IH (Some x)). destruct (max_by_len _ _) as [m|]; [|naive_solver].
      destruct IH as ([[= ->]|Hm] & Hl & Hx); (split_and!; [set_solver| |]).
      * intros y [->|Hy]%elem_of_cons; auto.
      * intros y [= ->]. lia.
      * intros y [->|Hy]%elem_of_cons; auto.
      * intros y [= ->]. specialize (Hx x eq_refl). lia.
    + specialize (IH (Some b)). destruct (max_by_len _ _) as [m|]; [|naive_solver].
      destruct IH as (Hm & Hl & Hx). split_and!; [set_solver| |done].
      intros y [->|Hy]%elem_of_cons; [|auto]. specialize (Hx b eq_refl). lia.
  - specialize (IH (Some x)). destruct (max_by_len _ _) as [m|]; [|naive_solver].
    destruct IH as (Hm & Hl & Hx). split_and!; [right; set_solver| |done].
    intros y [->|Hy]%elem_of_cons; auto.
Qed.

Lemma strip_prefix_str_Some p s r : strip_prefix_str p s = Some r ↔ s = p ++ r.
Proof.
  unfold strip_prefix_str. case_decide as Hp.
  - destruct Hp as [k ->]. rewrite drop_app_length. split; [by intros [= ->]|].
    by intros ->%app_inv_head.
  - split; [done|]. intros ->. destruct Hp. by exists r.
Qed.

Section overrides.
Context {L : Type} `{LintLaws L}.
Implicit Types (ls : list L) (o : ParameterOverride).

(** [over] names the parameter [p] of the lint [l]. *)
Definition owns (l : L) o (p : bytes) : Prop := over_param_id o = id l ++ [46%N] ++ p.

Lemma owned_param_Some l o p : owned_param l o = Some p ↔ owns l o p.
Proof.
  unfold owned_param, owns. rewrite bind_Some. setoid_rewrite strip_prefix_str_Some.
  setoid_rewrite strip_prefix_char_Some. naive_solver.
Qed.

Lemma owns_inj l l' o p p' : length (id l) = length (id l') → owns l o p → owns l' o p' →
  id l = id l' ∧ p = p'.
Proof.
  unfold owns. intros Hlen -> Heq. apply app_inj_1 in Heq as [-> Heq]; [|done].
  split; [done|]. by injection Heq.
Qed.

(** The candidates that [resolve_override] compares. *)
Lemma owners_elem ls o i p n :
  ((i, p), n) ∈ omap (λ q, x ← owned_param q.2 o; Some ((q.1, x), length (id q.2)))
    (zip (seq 0 (length ls)) ls) ↔
  ∃ l, ls !! i = Some l ∧ owns l o p ∧ n = length (id l).
Proof.
  rewrite list_elem_of_omap. split.
  - intros ([k l] & [j Hj]%list_elem_of_lookup & Hx). cbn in Hx.
    apply lookup_zip_Some in Hj as [[-> _]%lookup_seq Hl].
    apply bind_Some in Hx as (x & Hx & [= <- <- <-]). exists l. by rewrite <-owned_param_Some.
  - intros (l & Hl & Ho & ->). exists (i, l). split.
    + apply list_elem_of_lookup. exists i. apply lookup_zip_Some. split; [|done].
      apply lookup_seq. split; [done|]. by eapply lookup_lt_Some.
    + cbn. apply owned_param_Some in Ho. by rewrite Ho.
Qed.

Lemma resolve_override_spec ls o :
  match resolve_override ls o with
  | Ok (i, p) =>
      ∃ l, ls !! i = Some l ∧ owns l o p ∧
        ∀ j l' p', ls !! j = Some l' → owns l' o p' → length (id l') ≤ length (id l)
  | Err e => e = UnknownParameterOverride (over_param_id o) ∧
      ∀ j l p, ls !! j = Some l → ¬ owns l o p
  | Panic => False
  end.
Proof.
  unfold resolve_override. cbv zeta.
  set (owners := omap _ _). pose proof (max_by_len_spec None owners) as Hm.
  destruct (max_by_len None owners) as [[[i p] n]|]; cbn.
  - destruct Hm as ([?|Hin] & Hmax & _); [done|].
    apply owners_elem in Hin as (l & Hl & Ho & ->). exists l. split_and!; [done..|].
    intros j l' p' Hl' Ho'. apply (Hmax ((j, p'), length (id l'))), owners_elem. eauto.
  - destruct Hm as [_ Hnil]. split; [done|]. intros j l p Hl Ho.
    apply (not_elem_of_nil ((j, p), length (id l))). rewrite <-Hnil. apply owners_elem. eauto.
Qed.

Lemma resolve_override_ids ls ls' o :
  id <$> ls = id <$> ls' → resolve_override ls o = resolve_override ls' o.
Proof.
  intros Hids. unfold resolve_override. do 3 f_equal.
  assert (Hlen : length ls = length ls')
    by (rewrite <-(length_fmap id ls), Hids; apply length_fmap).
  rewrite <-Hlen. generalize (seq 0 (length ls)) as k. clear Hlen. revert ls' Hids.
  induction ls as [|l ls IH]; intros [|l' ls'] Hids k; try done.
  rewrite !fmap_cons in Hids. injection Hids as Hid Hids.
  assert (Ho : owned_param l o = owned_param l' o) by (unfold owned_param; by rewrite Hid).
  destruct k as [|i k]; [done|]. cbn. rewrite Ho, Hid.
  destruct (owned_param l' o); cbn; [f_equal|]; apply (IH ls' Hids k).
Qed.

(** ** The reference: one override after the other, in place *)
Definition set_in_place ls (i : nat) (p : bytes) o : ParseResult (list L) :=
  l ← index ls i;
  let '(l, res) := set_parameter l p (over_value o) in
  _ ← map_err (InvalidParameterOverride (over_param_id o)) res;
  Ok (<[i := l]> ls).

Fixpoint one_by_one ls (overrides : list ParameterOverride) : ParseResult (list L) :=
  match overrides with
  | [] => Ok ls
  | o :: overrides =>
      '(i, p) ← resolve_override ls o;
      ls ← set_in_place ls i p o;
      one_by_one ls overrides
  end.

(** The lints with the clones in their places. *)
Definition merged (clones : gmap nat L) ls : list L :=
  imap (λ i l, default l (clones !! i)) ls.

Lemma merged_lookup clones ls i :
  merged clones ls !! i = (l ← ls !! i; Some (default l (clones !! i))).
Proof. unfold merged. rewrite list_lookup_imap. by destruct (ls !! i). Qed.

Lemma merged_insert clones ls i c :
  merged (<[i := c]> clones) ls = <[i := c]> (merged clones ls).
Proof.
  apply list_eq. intros j. rewrite list_lookup_insert, !merged_lookup.
  unfold merged. rewrite length_imap.
  case_decide as Hd.
  - destruct Hd as [-> Hlt]. apply lookup_lt_is_Some_2 in Hlt as [l ->]. cbn.
    by rewrite lookup_insert_eq.
  - destruct (ls !! j) eqn:Hj; [|done]. cbn. rewrite lookup_insert_ne; [done|].
    intros ->. apply lookup_lt_Some in Hj. tauto.
Qed.

(** Clones of lints of the bundle. *)
Definition clones_ok (clones : gmap nat L) ls : Prop :=
  ∀ i c, clones !! i = Some c → ∃ l, ls !! i = Some l ∧ id c = id l.

Lemma merged_empty ls : merged ∅ ls = ls.
Proof.
  apply list_eq. intros i. rewrite merged_lookup, lookup_empty. by destruct (ls !! i).
Qed.

Lemma merged_ids clones ls : clones_ok clones ls → id <$> merged clones ls = id <$> ls.
Proof.
  intros Hok. apply list_eq. intros i. rewrite !list_lookup_fmap, merged_lookup.
  destruct (ls !! i) as [l|] eqn:Hl; [|done]. cbn. f_equal.
  destruct (clones !! i) as [c|] eqn:Hc; [|done]. cbn.
  destruct (Hok i c Hc) as (l' & ? & ->). congruence.
Qed.

Lemma apply_to_clone_step ls clones i p o :
  clones_ok clones ls →
  (λ c, merged c ls) <$> apply_to_clone ls clones (i, p, o) =
  set_in_place (merged clones ls) i p o ∧
  ∀ clones', apply_to_clone ls clones (i, p, o) = Ok clones' → clones_ok clones' ls.
Proof.
  intros Hok. unfold apply_to_clone, set_in_place, index. rewrite merged_lookup.
  destruct (ls !! i) as [l|] eqn:Hl; cbn [mbind option_bind].
  2:{ destruct (clones !! i) as [c|] eqn:Hc; [|done].
      destruct (Hok i c Hc) as (l & ? & _). congruence. }
  assert (Hc : ∃ c, default l (clones !! i) = c ∧ id c = id l ∧
    match clones !! i with Some c => Ok c | None => Ok (E:=ParseError) l end = Ok c).
  { destruct (clones !! i) as [c|] eqn:Hc; cbn; [|by exists l].
    destruct (Hok i c Hc) as (l' & ? & ?). exists c. split_and!; [done|congruence|done]. }
  destruct Hc as (c & -> & Hid & ->). cbn [mbind result_bind].
  pose proof (set_parameter_id c p (over_value o)) as Hset.
  destruct (set_parameter c p (over_value o)) as [c' [[]| |]]; cbn in *; [|done..].
  rewrite merged_insert. split; [done|]. intros ? [= <-] j d.
  rewrite lookup_insert_Some. intros [[<- <-]|[_ Hd]]; [|by apply Hok].
  exists l. split; [done|congruence].
Qed.

Lemma apply_fold ls clones overrides resolved :
  clones_ok clones ls → resolve_overrides ls overrides = Ok resolved →
  (λ c, merged c ls) <$> try_fold (apply_to_clone ls) clones resolved =
  one_by_one (merged clones ls) overrides ∧
  ∀ clones', try_fold (apply_to_clone ls) clones resolved = Ok clones' → clones_ok clones' ls.
Proof.
  revert clones resolved. induction overrides as [|o overrides IH]; intros clones resolved Hok;
    cbn [resolve_overrides one_by_one].
  { intros [= <-]. split; [done|]. by intros ? [= <-]. }
  intros Hr. inv_ok. subst resolved. destruct r as [i p]. cbn [try_fold].
  rewrite (resolve_override_ids _ ls) by by apply merged_ids. rewrite Hr0. cbn [mbind result_bind].
  destruct (apply_to_clone_step ls clones i p o Hok) as [<- Hok'].
  destruct (apply_to_clone ls clones (i, p, o)) as [clones'| |]; [|done..].
  cbn [mbind result_bind fmap result_fmap]. apply IH; [by apply Hok'|done].
Qed.

Lemma commit_spec {E} (l : list (nat * L)) ls :
  NoDup l.*1 → (∀ i c, (i, c) ∈ l → i < length ls) →
  commit (E:=E) l ls = Ok (merged (list_to_map l) ls).
Proof.
  revert ls. induction l as [|[i c] l IH]; intros ls; cbn [commit list_to_map].
  { intros _ _. by rewrite merged_empty. }
  rewrite fmap_cons. intros [Hi Hnd]%NoDup_cons Hlt.
  unfold index. destruct (lookup_lt_is_Some_2 ls i) as [x ->]; [apply (Hlt i c); by left|].
  cbn [mbind result_bind]. rewrite IH; [|done|].
  - f_equal. cbn. rewrite merged_insert. apply list_eq. intros j.
    rewrite merged_lookup, !list_lookup_insert, merged_lookup.
    unfold merged. rewrite length_imap. case_decide as Hj; [|done]. destruct Hj as [<- _]. cbn.
    by rewrite not_elem_of_list_to_map_1.
  - intros j d Hin. rewrite length_insert. apply (Hlt j d). by right.
Qed.

Lemma resolve_overrides_spec ls overrides :
  match resolve_overrides ls overrides with
  | Ok _ => True
  | Err e =>
      ∃ k o, overrides !! k = Some o ∧ e = UnknownParameterOverride (over_param_id o) ∧
        (∀ l p, l ∈ ls → ¬ owns l o p) ∧
        ∀ k' o', k' < k → overrides !! k' = Some o' → ∃ l p, l ∈ ls ∧ owns l o' p
  | Panic => False
  end.
Proof.
  induction overrides as [|o overrides IH]; cbn [resolve_overrides]; [done|].
  pose proof (resolve_override_spec ls o) as Ho.
  destruct (resolve_override ls o) as [[i p]|e|]; cbn [mbind result_bind]; [| |done].
  - destruct Ho as (l & Hl & Hown & _).
    destruct (resolve_overrides ls overrides) as [|e|]; cbn [mbind result_bind]; [done| |done].
    destruct IH as (k & o' & Hk & -> & Hn & Hall). exists (S k), o'. split_and!; [done..|].
    intros [|k'] o'' Hlt; cbn; [|intros; apply (Hall k'); [lia|done]].
    intros [= <-]. exists l, p. split; [by eapply list_elem_of_lookup_2|done].
  - destruct Ho as [-> Hn]. exists 0, o. split_and!; [done..| |intros; lia].
    intros l p [j Hj]%list_elem_of_lookup. by eapply Hn.
Qed.

Lemma resolve_override_unique ls o i p :
  NoDup (id <$> ls) →
  resolve_override ls o = Ok (i, p) ↔
  ∃ l, ls !! i = Some l ∧ owns l o p ∧
    ∀ l' p', l' ∈ ls → owns l' o p' → length (id l') ≤ length (id l).
Proof.
  intros Hnd. pose proof (resolve_override_spec ls o) as Ho. split.
  - intros Hr. rewrite Hr in Ho. destruct Ho as (l & Hl & Hown & Hmax). exists l.
    split_and!; [done..|]. intros l' p' [j Hj]%list_elem_of_lookup. by eapply Hmax.
  - intros (l & Hl & Hown & Hmax).
    destruct (resolve_override ls o) as [[j q]|e|]; [| |done].
    + destruct Ho as (l' & Hl' & Hown' & Hmax').
      assert (length (id l) = length (id l')) as Hlen.
      { apply Nat.le_antisymm; [by eapply Hmax'|].
        eapply Hmax; [by eapply list_elem_of_lookup_2|done]. }
      destruct (owns_inj _ _ _ _ _ Hlen Hown Hown') as [Hid ->].
      assert (j = i) as ->; [|done].
      apply (NoDup_lookup (id <$> ls) j i (id l)); [done|..]; rewrite list_lookup_fmap.
      * by rewrite Hl', Hid.
      * by rewrite Hl.
    + destruct Ho as [_ Hn]. by destruct (Hn i l p).
Qed.

(** When every override names a parameter of some lint, applying them is
    setting the parameters in place, one after the other in the order given,
    except that a value that a lint refuses leaves the runner as it was.  An
    override belongs to the lint with the longest identifier that it extends by
    a dot; if one belongs to no lint, the first such is the error and nothing
    is touched.  The identifiers of the bundle stay as they are. *)
Theorem apply_parameter_overrides_correct (self : LintRunner L) overrides :
  match resolve_overrides (lints self) overrides with
  | Ok _ =>
      apply_parameter_overrides self overrides =
      match one_by_one (lints self) overrides with
      | Ok ls => ({| lints := ls; bundle_version := bundle_version self |}, Ok tt)
      | Err e => (self, Err e)
      | Panic => (self, Panic)
      end
  | Err e =>
      apply_parameter_overrides self overrides = (self, Err e) ∧
      ∃ k o, overrides !! k = Some o ∧ e = UnknownParameterOverride (over_param_id o) ∧
        (∀ l p, l ∈ lints self → ¬ owns l o p) ∧
        ∀ k' o', k' < k → overrides !! k' = Some o' → ∃ l p, l ∈ lints self ∧ owns l o' p
  | Panic => False
  end ∧
  id <$> lints (apply_parameter_overrides self overrides).1 = id <$> lints self ∧
  (unique_ids self → ∀ o i p,
     resolve_override (lints self) o = Ok (i, p) ↔
     ∃ l, lints self !! i = Some l ∧ owns l o p ∧
       ∀ l' p', l' ∈ lints self → owns l' o p' → length (id l') ≤ length (id l)).
Proof.
  assert (Hrun : ∀ rs, resolve_overrides (lints self) overrides = Ok rs →
    ∀ clones, try_fold (apply_to_clone (lints self)) ∅ rs = Ok clones →
    clones_ok clones (lints self) ∧
    commit (E:=ParseError) (map_to_list clones) (lints self) = Ok (merged clones (lints self)) ∧
    one_by_one (lints self) overrides = Ok (merged clones (lints self))).
  { intros rs Hrs clones Hc.
    destruct (apply_fold (lints self) ∅ overrides rs) as [Heq Hok]; [|done|].
    { by intros i c ?%lookup_empty_Some. }
    rewrite merged_empty in Heq. specialize (Hok _ Hc). split_and!; [done| |].
    - rewrite commit_spec; [by rewrite list_to_map_to_list|apply NoDup_fst_map_to_list|].
      intros i c Hin%elem_of_map_to_list. destruct (Hok i c Hin) as (l & Hl & _).
      by eapply lookup_lt_Some.
    - by rewrite <-Heq, Hc. }
  split_and!.
  - pose proof (resolve_overrides_spec (lints self) overrides) as Hs.
    destruct (resolve_overrides (lints self) overrides) as [rs|e|] eqn:Hrs; [clear Hs| |done].
    + unfold apply_parameter_overrides. rewrite Hrs. cbn [mbind result_bind].
      destruct (apply_fold (lints self) ∅ overrides rs) as [Heq _]; [|done|].
      { by intros i c ?%lookup_empty_Some. }
      rewrite merged_empty in Heq.
      destruct (try_fold (apply_to_clone (lints self)) ∅ rs) as [clones| |] eqn:Hc;
        cbn [mbind result_bind]; [|by rewrite <-Heq..].
      destruct (Hrun rs eq_refl clones Hc) as (_ & -> & ->). done.
    + split; [|done]. unfold apply_parameter_overrides. by rewrite Hrs.
  - unfold apply_parameter_overrides.
    destruct (resolve_overrides (lints self) overrides) as [rs| |] eqn:Hrs; [|done..].
    cbn [mbind result_bind].
    destruct (try_fold (apply_to_clone (lints self)) ∅ rs) as [clones| |] eqn:Hc; [|done..].
    cbn [mbind result_bind]. destruct (Hrun rs eq_refl clones Hc) as (Hok & -> & _).
    by apply merged_ids.
  - intros Hu o i p. by apply resolve_override_unique.
Qed.
End overrides.
