(* ===== verification/HexSpec.v ===== *)
(** * Hexadecimal forms (pkix-lint)

    The crate has three encoders of octets (for the digest of a finding, for a
    scope, and in OSCAL documents) and two decoders.  The encoders agree, and
    the decoders invert them. *)
From S2P Require Import Prelude X509 Identity LintTypes Deviation OscalParse OscalEmit.

(** Octets, and a statement on one octet checked for all of them. *)
Definition octets (b : bytes) : Prop := Forall (λ x, x < 256)%N b.
Lemma forall_octets (P : N → bool) :
  forallb P (N.of_nat <$> seq 0 256) = true → ∀ x, (x < 256)%N → P x = true.
Proof.
  intros HP x Hx. rewrite forallb_elem in HP. apply HP. rewrite list_elem_of_fmap.
  exists (N.to_nat x). rewrite N2Nat.id, elem_of_seq. lia.
Qed.

(** The two digits of an octet. *)
Definition octet_hex (x : N) : bytes := [hex_digit (N.shiftr x 4); hex_digit (N.land x 15)].

Lemma octet_hex_encode x : (x < 256)%N → fmt_02x x = octet_hex x.
Proof.
  intros Hx. eapply bool_decide_eq_true_1. revert x Hx. by apply forall_octets.
Qed.
Lemma octet_hex_serialize x : (x < 256)%N →
  from_digit_16 (N.shiftr x 4) = Some (hex_digit (N.shiftr x 4)) ∧
  from_digit_16 (N.land x 15) = Some (hex_digit (N.land x 15)).
Proof.
  intros Hx. eapply bool_decide_eq_true_1. revert x Hx. by apply forall_octets.
Qed.
Lemma octet_hex_decode x : (x < 256)%N →
  ∃ hi lo, nibble (hex_digit (N.shiftr x 4)) = Some hi ∧ nibble (hex_digit (N.land x 15)) = Some lo ∧
    N.lor (N.shiftl hi 4) lo = x.
Proof.
  intros Hx. exists (N.shiftr x 4), (N.land x 15). eapply bool_decide_eq_true_1. revert x Hx.
  by apply forall_octets.
Qed.

Lemma hex_cons x b : hex (x :: b) = octet_hex x ++ hex b.
Proof. done. Qed.
Lemma length_hex b : length (hex b) = 2 * length b.
Proof. induction b as [|x b IH]; [done|]. rewrite hex_cons, length_app, IH. cbn. lia. Qed.

Lemma hex_encode_hex b : octets b → hex_encode b = hex b.
Proof.
  induction 1 as [|x b Hx Hb IH]; [done|].
  rewrite hex_cons, <-IH, <-octet_hex_encode by done. done.
Qed.

Lemma serialize_octets_hex b : octets b → serialize_octets b = Ok (hex b).
Proof.
  induction 1 as [|x b Hx Hb IH]; [done|]. cbn [serialize_octets].
  destruct (octet_hex_serialize x Hx) as [-> ->]. cbn [expect mbind result_bind].
  by rewrite IH.
Qed.

Lemma hex_pairs_hex b : octets b → hex_pairs (hex b) = Some b.
Proof.
  induction 1 as [|x b Hx Hb IH]; [done|]. rewrite hex_cons. cbn [octet_hex app hex_pairs].
  destruct (octet_hex_decode x Hx) as (hi & lo & -> & -> & Hl). cbn [mbind option_bind].
  rewrite IH. cbn. by rewrite Hl.
Qed.

Lemma hex_decode_hex b : octets b → hex_decode (hex b) = Some b.
Proof.
  intros Hb. unfold hex_decode. rewrite decide_False; [by apply hex_pairs_hex|].
  rewrite length_hex, Nat.mul_comm, Nat.Div0.mod_mul. lia.
Qed.

Lemma deserialize_octets_hex p b :
  octets b → deserialize_octets (length b) (length p) (hex (p ++ b)) = Ok b.
Proof.
  intros Hb. revert p. induction Hb as [|x b Hx Hb IH]; intros p; [done|].
  cbn [length deserialize_octets].
  assert (Hat : ∀ k, k < 2 → hex (p ++ x :: b) !! (length p * 2 + k) = octet_hex x !! k).
  { intros k Hk. unfold hex at 1. rewrite bind_app. fold (hex p) (hex (x :: b)).
    rewrite hex_cons, lookup_app_r by (rewrite length_hex; lia).
    rewrite length_hex, lookup_app_l by (cbn; lia). f_equal. lia. }
  pose proof (Hat 0 ltac:(lia)) as H0. pose proof (Hat 1 ltac:(lia)) as H1.
  rewrite Nat.add_0_r in H0. unfold index. rewrite H0, H1.
  destruct (octet_hex_decode x Hx) as (hi & lo & Hhi & Hlo & Hl).
  cbn [octet_hex lookup list_lookup mbind result_bind].
  rewrite Hhi. cbn [ok_or mbind result_bind]. rewrite Hlo. cbn [ok_or mbind result_bind].
  specialize (IH (p ++ [x])). rewrite length_app, <-app_assoc in IH. cbn [length app] in IH.
  replace (length p + 1) with (S (length p)) in IH by lia. rewrite IH. cbn. by rewrite Hl.
Qed.

(** A digest that is read has 32 octets, and no input makes the reader panic. *)
Lemma deserialize_octets_total n i h :
  i * 2 + n * 2 ≤ length h →
  match deserialize_octets n i h with
  | Ok b => length b = n | Err e => e = NonHexChar | Panic => False
  end.
Proof.
  revert i. induction n as [|n IH]; intros i Hlen; cbn [deserialize_octets]; [done|].
  unfold index. destruct (lookup_lt_is_Some_2 h (i * 2)) as [c ->]; [lia|].
  destruct (lookup_lt_is_Some_2 h (i * 2 + 1)) as [d ->]; [lia|]. cbn [mbind result_bind].
  destruct (nibble c); cbn [ok_or mbind result_bind]; [|done].
  destruct (nibble d); cbn [ok_or mbind result_bind]; [|done].
  specialize (IH (S i) ltac:(lia)).
  destruct (deserialize_octets n (S i) h); cbn [mbind result_bind length]; [lia|done..].
Qed.

(** The three encoders write the same digits; the parser of OSCAL reads any
    octets back, the reader of a finding its digest of 32 octets and the absent
    digest.  The latter never panics: other input is refused by its length or
    for a character that is no digit, and what it reads has 32 octets. *)
Theorem hex_codecs_correct b (Hb : octets b) :
  hex_encode b = hex b ∧ serialize_octets b = Ok (hex b) ∧ length (hex b) = 2 * length b ∧
  hex_decode (hex b) = Some b ∧
  (length b = 32 →
     (cert_sha256_serialize (Some b) ≫= cert_sha256_deserialize) = Ok (Some b)) ∧
  (cert_sha256_serialize None ≫= cert_sha256_deserialize) = Ok None ∧
  ∀ h, match cert_sha256_deserialize (Some h) with
       | Ok v => length h = 64 ∧ ∃ d, v = Some d ∧ length d = 32
       | Err e => e = InvalidLength (length h) ∧ length h ≠ 64 ∨ e = NonHexChar ∧ length h = 64
       | Panic => False
       end.
Proof.
  split_and!; [by apply hex_encode_hex|by apply serialize_octets_hex|apply length_hex
    |by apply hex_decode_hex| |done|].
  - intros Hlen. cbn [cert_sha256_serialize]. rewrite serialize_octets_hex by done.
    cbn [fmap result_fmap mbind result_bind cert_sha256_deserialize].
    rewrite bool_decide_true by (rewrite length_hex; lia). cbn [negb fail_if mbind result_bind].
    pose proof (deserialize_octets_hex [] b Hb) as Hd. rewrite Hlen in Hd. cbn [length app] in Hd.
    by rewrite Hd.
  - intros h. cbn [cert_sha256_deserialize]. case_bool_decide as Hlen; cbn [negb fail_if mbind result_bind].
    + pose proof (deserialize_octets_total 32 0 h ltac:(lia)) as Ht.
      destruct (deserialize_octets 32 0 h); cbn; [|by right|done]. eauto.
    + by left.
Qed.

Lemma hex_codecs_correct_witness :
  octets [0; 255; 171]%N ∧ hex [0; 255; 171]%N = str "00ffab" ∧
  hex_decode (hex [0; 255; 171]%N) = Some [0; 255; 171]%N.
Proof.
  assert (Ho : octets [0; 255; 171]%N) by (repeat constructor).
  split_and!; [exact Ho|done|]. by destruct (hex_codecs_correct [0; 255; 171]%N Ho) as (_ & _ & _ & ? & _).
Defined.
