(* ===== verification/LintRulesSpec.v ===== *)
(** * What the shipped lints check

    Details never grow with the certificate; each lint passes exactly on the certificates
    that satisfy its rule; the check of the mailboxes does not panic. *)
From S2P Require Import Prelude X509 PathTypes Samples Identity IdentitySpec LintTypes Deviation OscalParse OscalProfile LintRunner LintSpec LintRules.
From stdpp Require Import gmap.

(** ** Details *)
Lemma last_boundary_spec s cut :
  last_boundary s cut ≤ cut ∧ is_char_boundary s (last_boundary s cut) = true ∧
  ∀ j, last_boundary s cut < j ≤ cut → is_char_boundary s j = false.
Proof.
  induction cut as [|c IH]; cbn [last_boundary].
  { split_and!; [done| |lia]. unfold is_char_boundary. by destruct s. }
  destruct (is_char_boundary s (S c)) eqn:Hb.
  { split_and!; [done..|lia]. }
  destruct IH as (? & ? & Hj). split_and!; [lia|done|]. intros j Hlt.
  destruct (decide (j = S c)) as [->|]; [done|]. apply Hj. lia.
Qed.

Lemma fmt_digits_length_fuel fuel radix n acc :
  length (fmt_digits fuel radix n acc) ≤ fuel + length acc.
Proof.
  revert n acc. induction fuel as [|fuel IH]; intros n acc; cbn [fmt_digits]; [lia|].
  case_decide; cbn [length]; [lia|]. etransitivity; [apply IH|cbn [length]; lia].
Qed.

(** A detail has at most 305 octets whatever the certificate holds: a
    string of at most 256 octets is kept, a longer one is cut at the last
    character boundary there is up to octet 256 and its length is noted. *)
Theorem truncate_for_detail_bounds s :
  length (truncate_for_detail s) ≤ 305 ∧
  (length s ≤ DETAIL_MAX_BYTES → truncate_for_detail s = s) ∧
  (DETAIL_MAX_BYTES < length s → ∃ cut,
     cut ≤ DETAIL_MAX_BYTES ∧ is_char_boundary s cut = true ∧
     (∀ j, cut < j ≤ DETAIL_MAX_BYTES → is_char_boundary s j = false) ∧
     truncate_for_detail s =
       take cut s ++ str "... (truncated, " ++ fmt_u64 (N.of_nat (length s)) ++ str " bytes total)").
Proof.
  unfold truncate_for_detail. destruct (last_boundary_spec s DETAIL_MAX_BYTES) as (Hle & Hb & Hj).
  set (c := last_boundary s DETAIL_MAX_BYTES) in *.
  split_and!; [|by intros; rewrite decide_True|].
  - case_decide as Hs; [unfold DETAIL_MAX_BYTES in *; lia|].
    rewrite !length_app, length_take.
    pose proof (fmt_digits_length_fuel 20 10 (N.of_nat (length s)) []). unfold fmt_u64.
    change (length (str "... (truncated, ")) with 16.
    change (length (str " bytes total)")) with 13.
    cbn [length] in *. unfold DETAIL_MAX_BYTES in *. lia.
  - intros Hs. exists c. rewrite decide_False by lia. done.
Qed.

(** ** The parameter of the serial number lint *)

(** The cap lies between 1 and 21 octets. *)
Definition cap_ok (l : ShippedLint) : Prop :=
  match l with Rfc5280MaxSerialLengthLint m => (1 ≤ m ≤ 21)%N | _ => True end.

Lemma validate_max_octets_Ok n u : validate_max_octets n = Ok u ↔ (1 ≤ n ≤ 21)%N.
Proof.
  unfold validate_max_octets, MAX_OCTETS_START, MAX_OCTETS_END. destruct u.
  case_decide; split; intros; try done; lia.
Qed.

Section rules_spec.
Context `{LintLib} `{DecodeOwned BasicConstraints} `{DecodeOwned ExtendedKeyUsage}
  `{DecodeOwned SubjectAltName}.
Implicit Types (cert : Certificate).

#[global] Instance ShippedLint_laws : LintLaws ShippedLint.
Proof. split. intros [m| | | | | | | |] p v; try done. cbn. by destruct (max_serial_set_parameter m p v). Qed.

(** The cap on serial numbers stays between 1 and 21 octets: the
    constructor panics outside that range and the default is within it;
    [set_parameter] moves it only to a decimal number in the range, under the
    one parameter there is, and otherwise leaves the lint as it was with an
    error.  No other lint has a parameter. *)
Theorem max_octets_invariant l p v (Hcap : cap_ok l) :
  let '(l', r) := set_parameter l p v in
  cap_ok l' ∧
  match r with
  | Ok _ => ∃ m n, l = Rfc5280MaxSerialLengthLint m ∧ l' = Rfc5280MaxSerialLengthLint n ∧
      p = str "max-octets" ∧ from_str_radix 10 u64_max v = Some n ∧ (1 ≤ n ≤ 21)%N
  | Err _ => l' = l
  | Panic => False
  end ∧
  cap_ok (Rfc5280MaxSerialLengthLint MAX_SERIAL_DEFAULT) ∧
  ∀ n, with_max_octets n = (if decide (1 ≤ n ≤ 21)%N then Ok n else Panic).
Proof.
  assert (Hwith : ∀ n, with_max_octets n = (if decide (1 ≤ n ≤ 21)%N then Ok n else Panic)).
  { intros n. unfold with_max_octets. pose proof (validate_max_octets_Ok n tt) as Hn.
    destruct (validate_max_octets n) as [[]| |]; case_decide; try done; naive_solver. }
  destruct l as [m| | | | | | | |]; try by (cbn; split_and!).
  cbn [set_parameter ShippedLint_impl]. unfold max_serial_set_parameter.
  case_decide as Hp; [|by split_and!].
  destruct (from_str_radix 10 u64_max v) as [n|] eqn:Hv; cbn [ok_or mbind result_bind]; [|by split_and!].
  pose proof (validate_max_octets_Ok n tt) as Hn.
  destruct (validate_max_octets n) as [[]|e|] eqn:Hm; cbn [map_err mbind result_bind].
  - assert (1 ≤ n ≤ 21)%N by by apply Hn. split_and!; [done| |done..]. by exists m, n.
  - by split_and!.
  - unfold validate_max_octets in Hm. by case_decide.
Qed.

(** ** Mailboxes *)

(** A mailbox, around its last "@", and two that are the same: byte-identical
    local parts, and the domain of the second in ASCII is the domain of the
    first, in any case of its letters. *)
Definition mailbox_parts (a l d : bytes) : Prop := a = l ++ 64%N :: d ∧ 64%N ∉ d.
Definition mailbox_ok (a : bytes) : Prop :=
  ∃ l d, mailbox_parts a l d ∧ l ≠ [] ∧ d ≠ [] ∧ is_Some (domain_to_ascii_utf8 d).
Definition same_mailbox (r u : bytes) : Prop :=
  ∃ l rd ud x, mailbox_parts r l rd ∧ mailbox_parts u l ud ∧
    domain_to_ascii_utf8 ud = Some x ∧ lower x = lower rd.

Lemma str_is_empty_spec s : str_is_empty s = true ↔ s = [].
Proof. by destruct s. Qed.

Lemma validate_mailbox_spec a :
  match validate_mailbox_for_equivalence a with
  | Ok _ => mailbox_ok a | Err _ => ¬ mailbox_ok a | Panic => False
  end.
Proof.
  unfold validate_mailbox_for_equivalence, split_mailbox.
  assert (Hno : ∀ l d, rsplit_once 64 a = Some (l, d) →
    (l = [] ∨ d = [] ∨ domain_to_ascii_utf8 d = None) → ¬ mailbox_ok a).
  { intros l d Hs Hbad (l' & d' & Hp & Hl & Hd & [x Hx]).
    apply rsplit_once_Some in Hp. rewrite Hs in Hp. injection Hp as -> ->.
    rewrite Hx in Hbad. naive_solver. }
  destruct (rsplit_once 64 a) as [[l d]|] eqn:Hs; cbn [ok_or mbind result_bind].
  2:{ intros (l & d & Hp%rsplit_once_Some & _). congruence. }
  specialize (Hno l d eq_refl).
  destruct l as [|c l]; cbn [str_is_empty fail_if mbind result_bind]; [apply Hno; tauto|].
  destruct d as [|c' d]; cbn [str_is_empty fail_if mbind result_bind]; [apply Hno; tauto|].
  destruct (domain_to_ascii_utf8 (c' :: d)) as [x|] eqn:Hx; cbn; [|apply Hno; tauto].
  apply rsplit_once_Some in Hs as [-> Hd]. exists (c :: l), (c' :: d).
  split_and!; [done|done|done|by exists x].
Qed.

Lemma mailbox_equivalent_spec r u :
  mailbox_ok r → mailbox_ok u →
  ∃ b, mailbox_equivalent r u = Ok b ∧ (b = true ↔ same_mailbox r u).
Proof.
  intros (l & d & Hr & Hl & Hd & _) (l' & d' & Hu & Hl' & Hd' & [x Hx]).
  unfold mailbox_equivalent, split_mailbox.
  assert (Hsame : same_mailbox r u ↔ l = l' ∧ lower x = lower d).
  { split.
    - intros (m & rd & ud & y & Hp1%rsplit_once_Some & Hp2%rsplit_once_Some & Hy & Hlow).
      apply rsplit_once_Some in Hr, Hu. simplify_eq. naive_solver.
    - intros [-> Hlow]. by exists l', d, d', x. }
  apply rsplit_once_Some in Hr as ->, Hu as ->. cbn [ok_or mbind result_bind].
  assert (str_is_empty l || str_is_empty l' || str_is_empty d || str_is_empty d' = false) as ->
    by (by destruct l, l', d, d').
  cbn [fail_if mbind result_bind]. case_decide as Heq.
  - exists false. split; [done|]. rewrite Hsame. split; [done|tauto].
  - rewrite Hx. cbn [ok_or mbind result_bind]. eexists. split; [done|].
    rewrite Hsame, eq_ignore_ascii_case_spec. tauto.
Qed.

Lemma first_malformed_spec addrs :
  match first_malformed addrs with
  | Some (a, _) => a ∈ addrs ∧ ¬ mailbox_ok a
  | None => ∀ a, a ∈ addrs → mailbox_ok a
  end.
Proof.
  induction addrs as [|a addrs IH]; cbn [first_malformed]; [by intros a ?%elem_of_nil|].
  pose proof (validate_mailbox_spec a) as Ha.
  destruct (validate_mailbox_for_equivalence a) as [|e|]; [| |done].
  - destruct (first_malformed addrs) as [[b e]|]; [split; [by right; apply IH|apply IH]|].
    intros b [->|Hb]%elem_of_cons; [done|by apply IH].
  - split; [by left|done].
Qed.

Lemma any_expect_spec {E A} (f : A → result E bool) (P : A → Prop) l :
  (∀ x, x ∈ l → ∃ b, f x = Ok b ∧ (b = true ↔ P x)) →
  ∃ b, any_expect f l = Ok b ∧ (b = true ↔ ∃ x, x ∈ l ∧ P x).
Proof.
  induction l as [|x l IH]; intros Hf; cbn [any_expect].
  { exists false. split; [done|]. split; [done|]. by intros (x & ?%elem_of_nil & _). }
  destruct (Hf x) as (b & -> & Hb); [by left|]. cbn [to_ok expect mbind result_bind].
  destruct b; [exists true; split; [done|]; split; [|done]; intros _; exists x; split; [by left|tauto]|].
  destruct IH as (b & -> & Hb'); [intros y Hy; apply Hf; by right|].
  exists b. split; [done|]. rewrite Hb'. setoid_rewrite elem_of_cons. split; [naive_solver|].
  intros (y & [->|Hy] & HP); [by apply Hb in HP|eauto].
Qed.

Lemma first_unmatched_spec (eq : bytes → bytes → result bytes bool) (P : bytes → bytes → Prop)
    addrs others :
  (∀ a o, a ∈ addrs → o ∈ others → ∃ b, eq a o = Ok b ∧ (b = true ↔ P a o)) →
  ∃ r, first_unmatched eq addrs others = Ok r ∧
    (r = None ↔ ∀ a, a ∈ addrs → ∃ o, o ∈ others ∧ P a o).
Proof.
  induction addrs as [|a addrs IH]; intros Hf; cbn [first_unmatched].
  { exists None. split; [done|]. split; [|done]. by intros _ a ?%elem_of_nil. }
  destruct (any_expect_spec (eq a) (P a) others) as (b & -> & Hb); [intros; apply Hf; [by left|done]|].
  cbn [mbind result_bind]. destruct b.
  - destruct IH as (r & -> & Hr); [intros; apply Hf; [by right|done]|]. exists r. split; [done|].
    rewrite Hr. setoid_rewrite elem_of_cons. split; [intros Hall a' [->|Ha']; [by apply Hb|eauto]|eauto].
  - exists (Some a). split; [done|]. split; [done|]. intros Hall.
    assert (false = true) as [=]. apply Hb, Hall. by left.
Qed.

(** What the lint asks of the mailboxes of the two kinds. *)
Definition mailboxes_agree (r u : list bytes) : Prop :=
  r = [] ∨ u = [] ∨
  (∀ a, a ∈ r ++ u → mailbox_ok a) ∧
  (∀ a, a ∈ r → ∃ b, b ∈ u ∧ same_mailbox a b) ∧ (∀ b, b ∈ u → ∃ a, a ∈ r ∧ same_mailbox a b).

Lemma mailboxes_check_spec r u :
  ∃ v, mailboxes_check r u = Ok v ∧ (v = LintPass ↔ mailboxes_agree r u) ∧
    (v = LintPass ∨ ∃ d, v = LintError d).
Proof.
  destruct r as [|r0 r']; [by exists LintPass; split_and!; [|split; [left|]|left]|].
  destruct u as [|u0 u']; [by exists LintPass; split_and!; [|split; [right; left|]|left]|].
  set (r := r0 :: r'). set (u := u0 :: u'). unfold mailboxes_check. fold r u.
  assert (Hag : mailboxes_agree r u ↔ (∀ a, a ∈ r → mailbox_ok a) ∧ (∀ a, a ∈ u → mailbox_ok a) ∧
    (∀ a, a ∈ r → ∃ b, b ∈ u ∧ same_mailbox a b) ∧ (∀ b, b ∈ u → ∃ a, a ∈ r ∧ same_mailbox a b)).
  { unfold mailboxes_agree. setoid_rewrite elem_of_app. split; [|naive_solver].
    intros [?|[?|?]]; [done|done|naive_solver]. }
  assert (Herr : ∀ d, ¬ mailboxes_agree r u → ∃ v, Ok (E:=Empty_set) (LintError d) = Ok v ∧
    (v = LintPass ↔ mailboxes_agree r u) ∧ (v = LintPass ∨ ∃ d, v = LintError d)).
  { intros d Hn. eexists. split_and!; [done|naive_solver|eauto]. }
  pose proof (first_malformed_spec r) as Hr. pose proof (first_malformed_spec u) as Hu.
  destruct (first_malformed r) as [[a e]|].
  { apply Herr. rewrite Hag. naive_solver. }
  destruct (first_malformed u) as [[a e]|].
  { apply Herr. rewrite Hag. naive_solver. }
  destruct (first_unmatched_spec mailbox_equivalent same_mailbox r u) as (m & -> & Hm).
  { intros. apply mailbox_equivalent_spec; auto. }
  cbn [mbind result_bind]. destruct m as [a|].
  { apply Herr. rewrite Hag. intros (_ & _ & Hc & _). apply Hm in Hc. done. }
  destruct (first_unmatched_spec (λ u r, mailbox_equivalent r u) (λ u r, same_mailbox r u) u r)
    as (m & -> & Hm').
  { intros. apply mailbox_equivalent_spec; auto. }
  cbn [mbind result_bind]. destruct m as [a|].
  { apply Herr. rewrite Hag. intros (_ & _ & _ & Hc). apply Hm' in Hc. done. }
  exists LintPass. split_and!; [done| |by left]. rewrite Hag. split; [|done]. intros _.
  split_and!; [done|done|by apply Hm|by apply Hm'].
Qed.

(** The addresses of a certificate, by kind. *)
Definition rfc822_of (gn : GeneralName) : option bytes :=
  match gn with Rfc822Name a => Some a | _ => None end.
Definition smtp_value (gn : GeneralName) : option Any :=
  match gn with
  | OtherName t v => if decide (t = ID_ON_SMTP_UTF8_MAILBOX) then Some v else None
  | _ => None
  end.
Definition smtp_of (gn : GeneralName) : option bytes := smtp_value gn ≫= utf8_string_ref.

Lemma collect_mailboxes_spec names :
  match collect_mailboxes names with
  | Some (r, u) => r = omap rfc822_of names ∧ u = omap smtp_of names ∧
      ∀ gn v, gn ∈ names → smtp_value gn = Some v → is_Some (utf8_string_ref v)
  | None => ∃ gn v, gn ∈ names ∧ smtp_value gn = Some v ∧ utf8_string_ref v = None
  end.
Proof.
  induction names as [|gn names IH]; cbn [collect_mailboxes].
  { split_and!; [done..|]. by intros gn v ?%elem_of_nil. }
  assert (Hskip : rfc822_of gn = None → smtp_value gn = None →
    match collect_mailboxes names with
    | Some (r, u) => r = omap rfc822_of (gn :: names) ∧ u = omap smtp_of (gn :: names) ∧
        ∀ gn' v, gn' ∈ gn :: names → smtp_value gn' = Some v → is_Some (utf8_string_ref v)
    | None => ∃ gn' v, gn' ∈ gn :: names ∧ smtp_value gn' = Some v ∧ utf8_string_ref v = None
    end).
  { intros Hr Hv. destruct (collect_mailboxes names) as [[r u]|].
    - destruct IH as (-> & -> & Hall). cbn [omap list_omap]. unfold smtp_of at 2.
      rewrite Hr, Hv. split_and!; [done..|].
      intros gn' v [->|Hin]%elem_of_cons; [congruence|by apply Hall].
    - destruct IH as (gn' & v & Hin & ?). exists gn', v. split; [by right|done]. }
  destruct gn as [t v|a| | | | | |]; try (by apply Hskip).
  - case_decide as Ht; [|apply Hskip; [done|cbn; by rewrite decide_False]]. clear Hskip.
    destruct (utf8_string_ref v) as [x|] eqn:Hx; cbn [mbind option_bind].
    2:{ exists (OtherName t v), v. split_and!; [by left|cbn; by rewrite decide_True|done]. }
    destruct (collect_mailboxes names) as [[r u]|]; cbn.
    + destruct IH as (-> & -> & Hall). unfold smtp_of at 2. cbn. rewrite decide_True by done.
      cbn. rewrite Hx. split_and!; [done..|].
      intros gn' v' [->|Hin]%elem_of_cons; [|by apply Hall]. cbn. rewrite decide_True by done.
      intros [= <-]. by exists x.
    + destruct IH as (gn' & v' & Hin & ?). exists gn', v'. split; [by right|done].
  - clear Hskip. destruct (collect_mailboxes names) as [[r u]|]; cbn.
    + destruct IH as (-> & -> & Hall). split_and!; [done..|].
      intros gn' v' [->|Hin]%elem_of_cons; [done|by apply Hall].
    + destruct IH as (gn' & v' & Hin & ?). exists gn', v'. split; [by right|done].
Qed.

(** ** The rules *)
Definition san_rule (wanted : GeneralName → Prop) cert : Prop :=
  ∃ e san gn, find_ext cert OID_SUBJECT_ALT_NAME = Some e ∧ from_der (extn_value e) = inr san ∧
    gn ∈ san_names san ∧ wanted gn.
Definition eku_rule (purpose : ObjectIdentifier) cert : Prop :=
  ∃ e eku, find_ext cert OID_EXTENDED_KEY_USAGE = Some e ∧ from_der (extn_value e) = inr eku ∧
    purpose ∈ eku_oids eku.

(** What a certificate must satisfy. *)
Definition rule (l : ShippedLint) cert : Prop :=
  match l with
  | Rfc5280MaxSerialLengthLint m =>
      (N.of_nat (length (serial_number (tbs_certificate cert))) ≤ m)%N
  | Rfc5280BasicConstraintsCaLeafLint =>
      ∀ e, find_ext cert OID_BASIC_CONSTRAINTS = Some e →
        ∃ bc, from_der (extn_value e) = inr bc ∧ ca bc = false
  | Rfc5280EkuServerAuthLint => eku_rule ID_KP_SERVER_AUTH cert
  | Rfc5280SanRequiredWhenSubjectEmptyLint =>
      subject (tbs_certificate cert) = [] →
      ∃ e, find_ext cert OID_SUBJECT_ALT_NAME = Some e ∧ critical e = true
  | Rfc5280SignatureAlgorithmMatchLint =>
      signature_algorithm cert = tbs_signature (tbs_certificate cert)
  | Rfc6125TlsServerSanLint =>
      san_rule (λ gn, match gn with DnsName _ | IpAddress _ => True | _ => False end) cert
  | Rfc8398SmimeSanLint =>
      san_rule (λ gn, match gn with
                      | Rfc822Name _ => True
                      | OtherName t _ => t = ID_ON_SMTP_UTF8_MAILBOX
                      | _ => False
                      end) cert
  | Rfc8398SmimeMailboxEquivalenceLint =>
      ∀ e, find_ext cert OID_SUBJECT_ALT_NAME = Some e → ∃ san,
        from_der (extn_value e) = inr san ∧
        (∀ gn v, gn ∈ san_names san → smtp_value gn = Some v → is_Some (utf8_string_ref v)) ∧
        mailboxes_agree (omap rfc822_of (san_names san)) (omap smtp_of (san_names san))
  | Rfc8551EkuEmailProtectionLint => eku_rule ID_KP_EMAIL_PROTECTION cert
  end.

(** A verdict that passes or is an error. *)
Definition pass_or_error (r : LintResult) : Prop := r = LintPass ∨ ∃ d, r = LintError d.

Lemma lint_find_ext_spec cert oid :
  match extensions (tbs_certificate cert) with
  | None => find_ext cert oid = None
  | Some exts => lint_find_ext oid exts = find_ext cert oid
  end.
Proof. unfold find_ext, cert_extensions, lint_find_ext. by destruct (extensions _). Qed.

Lemma eku_check_spec purpose absent cert :
  (eku_check purpose absent cert = LintPass ↔ eku_rule purpose cert) ∧
  pass_or_error (eku_check purpose absent cert).
Proof.
  unfold eku_check, eku_rule, pass_or_error, malformed_der.
  pose proof (lint_find_ext_spec cert OID_EXTENDED_KEY_USAGE) as Hf.
  destruct (extensions _) as [exts|]; rewrite Hf; [|by split; [split; [|naive_solver]|eauto]].
  destruct (find_ext cert OID_EXTENDED_KEY_USAGE) as [e|]; [|by split; [split; [|naive_solver]|eauto]].
  destruct (from_der (extn_value e)) as [d|eku] eqn:He.
  { split; [|eauto]. split; [done|]. intros (e' & k & [= <-] & Hk & _). congruence. }
  case_decide as Hp; (split; [|eauto]); split; try done.
  - intros _. by exists e, eku.
  - intros (e' & k & [= <-] & Hk & ?). rewrite He in Hk. by injection Hk as <-.
Qed.

Lemma san_check_spec absent none_found wanted (P : GeneralName → Prop) cert :
  (∀ gn, wanted gn = true ↔ P gn) →
  (san_check absent none_found wanted cert = LintPass ↔ san_rule P cert) ∧
  pass_or_error (san_check absent none_found wanted cert).
Proof.
  intros HP. unfold san_check, san_rule, pass_or_error, malformed_der.
  pose proof (lint_find_ext_spec cert OID_SUBJECT_ALT_NAME) as Hf.
  destruct (extensions _) as [exts|]; rewrite Hf; [|by split; [split; [|naive_solver]|eauto]].
  destruct (find_ext cert OID_SUBJECT_ALT_NAME) as [e|]; [|by split; [split; [|naive_solver]|eauto]].
  destruct (from_der (extn_value e)) as [d|san] eqn:He.
  { split; [|eauto]. split; [done|]. intros (e' & k & gn & [= <-] & Hk & _). congruence. }
  assert (Hex : existsb wanted (san_names san) = true ↔ ∃ gn, gn ∈ san_names san ∧ P gn).
  { rewrite existsb_elem. by setoid_rewrite HP. }
  destruct (san_names san) as [|n names] eqn:Hn.
  - split; [|eauto]. split; [done|]. intros (e' & s & gn & [= <-] & Hs & Hin & _).
    rewrite He in Hs. injection Hs as <-. rewrite Hn in Hin. by apply elem_of_nil in Hin.
  - rewrite <-Hn in *. destruct (existsb wanted (san_names san)); (split; [|eauto]); split; try done.
    + intros _. destruct (proj1 Hex eq_refl) as (gn & ? & ?). by exists e, san, gn.
    + intros (e' & s & gn & [= <-] & Hs & Hin & Hw). rewrite He in Hs. injection Hs as <-.
      assert (false = true) as [=]. apply Hex. eauto.
Qed.

Lemma smime_equivalence_spec cert :
  ∃ v, smime_equivalence_check cert = Ok v ∧
    (v = LintPass ↔ rule Rfc8398SmimeMailboxEquivalenceLint cert) ∧ pass_or_error v.
Proof.
  unfold smime_equivalence_check, rule, pass_or_error, malformed_der.
  pose proof (lint_find_ext_spec cert OID_SUBJECT_ALT_NAME) as Hf.
  destruct (extensions _) as [exts|]; rewrite Hf;
    [|exists LintPass; split_and!; [done|split; [by intros _ ? ?|done]|by left]].
  destruct (find_ext cert OID_SUBJECT_ALT_NAME) as [e|];
    [|exists LintPass; split_and!; [done|split; [by intros _ ? ?|done]|by left]].
  destruct (from_der (extn_value e)) as [d|san] eqn:He.
  { eexists. split_and!; [done| |eauto]. split; [done|].
    intros Hr. destruct (Hr e eq_refl) as (s & Hs & _). congruence. }
  assert (Hrule : (∀ e', Some e = Some e' → ∃ s, from_der (extn_value e') = inr s ∧
      (∀ gn v, gn ∈ san_names s → smtp_value gn = Some v → is_Some (utf8_string_ref v)) ∧
      mailboxes_agree (omap rfc822_of (san_names s)) (omap smtp_of (san_names s))) ↔
    (∀ gn v, gn ∈ san_names san → smtp_value gn = Some v → is_Some (utf8_string_ref v)) ∧
    mailboxes_agree (omap rfc822_of (san_names san)) (omap smtp_of (san_names san))).
  { split.
    - intros Hr. destruct (Hr e eq_refl) as (s & Hs & ?). rewrite He in Hs. by injection Hs as <-.
    - intros Hr e' [= <-]. by exists san. }
  setoid_rewrite Hrule. pose proof (collect_mailboxes_spec (san_names san)) as Hc.
  destruct (collect_mailboxes (san_names san)) as [[r u]|].
  - destruct Hc as (-> & -> & Hall). destruct (mailboxes_check_spec
      (omap rfc822_of (san_names san)) (omap smtp_of (san_names san))) as (v & -> & Hv & ?).
    exists v. split_and!; [done|naive_solver|done].
  - destruct Hc as (gn & v & Hin & Hv & Hn). eexists. split_and!; [done| |eauto].
    split; [done|]. intros [Hall _]. destruct (Hall gn v Hin Hv). congruence.
Qed.

Lemma bc_ca_leaf_spec cert :
  (bc_ca_leaf_check cert = LintPass ↔ rule Rfc5280BasicConstraintsCaLeafLint cert) ∧
  pass_or_error (bc_ca_leaf_check cert).
Proof.
  unfold bc_ca_leaf_check, rule, pass_or_error, malformed_der.
  pose proof (lint_find_ext_spec cert OID_BASIC_CONSTRAINTS) as Hf.
  destruct (extensions _) as [exts|]; rewrite Hf; [|by split; [|left]].
  destruct (find_ext cert OID_BASIC_CONSTRAINTS) as [e|]; [|by split; [|left]].
  destruct (from_der (extn_value e)) as [d|bc] eqn:He.
  { split; [|eauto]. split; [done|]. intros Hr. destruct (Hr e eq_refl) as (? & ? & _). congruence. }
  destruct (ca bc) eqn:Hca; (split; [|eauto]); split; try done.
  - intros Hr. destruct (Hr e eq_refl) as (bc' & ? & ?). congruence.
  - intros _ e' [= <-]. by exists bc.
Qed.

Lemma san_required_spec cert :
  (san_required_check cert = LintPass ↔ rule Rfc5280SanRequiredWhenSubjectEmptyLint cert) ∧
  pass_or_error (san_required_check cert).
Proof.
  unfold san_required_check, rule, pass_or_error.
  destruct (subject (tbs_certificate cert)); cbn [name_is_empty negb]; [|by split; [|left]].
  pose proof (lint_find_ext_spec cert OID_SUBJECT_ALT_NAME) as Hf.
  destruct (extensions _) as [exts|]; rewrite Hf;
    [|split; [split; [done|]|eauto]; intros Hr; by destruct (Hr eq_refl) as (? & ? & _)].
  destruct (find_ext cert OID_SUBJECT_ALT_NAME) as [e|];
    [|split; [split; [done|]|eauto]; intros Hr; by destruct (Hr eq_refl) as (? & ? & _)].
  destruct (critical e) eqn:Hc; cbn [negb]; (split; [|eauto]); split; try done.
  - intros _ _. by exists e.
  - intros Hr. destruct (Hr eq_refl) as (e' & [= <-] & ?). congruence.
Qed.

Lemma shipped_lint_spec l cert kind now :
  (check_cert l cert kind now = LintPass ↔ rule l cert) ∧ pass_or_error (check_cert l cert kind now).
Proof.
  destruct (smime_equivalence_spec cert) as (v & Hv & Hpass & Herr).
  destruct l as [m| | | | | | | |]; cbn [check_cert ShippedLint_impl].
  - unfold max_serial_check, pass_or_error, rule. case_decide; (split; [|eauto]); split; try done; lia.
  - apply bc_ca_leaf_spec.
  - apply eku_check_spec.
  - apply san_required_spec.
  - unfold signature_match_check, pass_or_error, rule. case_decide; (split; [|eauto]); done.
  - apply san_check_spec. intros []; done.
  - apply san_check_spec. intros []; cbn; try done. apply bool_decide_eq_true.
  - by rewrite Hv.
  - apply eku_check_spec.
Qed.

(** C26: every shipped lint passes exactly the certificates that satisfy its
    rule and reports an error on all others, whatever the position and the
    time; the check of the mailboxes, whose code holds two [expect]s, never
    panics. *)
Theorem shipped_lints_correct l cert kind now :
  (check_cert l cert kind now = LintPass ↔ rule l cert) ∧
  pass_or_error (check_cert l cert kind now) ∧
  no_panic (smime_equivalence_check cert).
Proof.
  destruct (smime_equivalence_spec cert) as (v & Hv & _).
  apply and_assoc. split; [apply shipped_lint_spec|by rewrite Hv].
Qed.
End rules_spec.
