(* ===== verification/DeviationSpec.v ===== *)
(** * What the deviations promise

    Serial numbers compare as the integers they encode; the store keeps its
    entries complete, well formed and distinct; the deviation found is the first
    of the highest priority that applies; a run under deviations loses no
    finding and waives only what a deviation covers. *)
From S2P Require Import Prelude X509 PathTypes Names Samples LintTypes Deviation OscalParse LintRunner LintSpec DeviationRunner OscalEmit HexSpec.

(** ** Serial numbers *)
Lemma strip_leading_zeros_spec b :
  octets b → let s := strip_leading_zeros b in
  octets s ∧ from_be_bytes s = from_be_bytes b ∧ head s ≠ Some 0%N.
Proof.
  induction 1 as [|x b Hx Hb IH]; [by split_and!; [constructor|..]|]. cbn [strip_leading_zeros]. case_decide as H0.
  - subst x. exact IH.
  - split_and!; [by constructor|done|]. cbn. congruence.
Qed.

Lemma be_bytes_cons x b :
  from_be_bytes (x :: b) = (x * 256 ^ N.of_nat (length b) + from_be_bytes b)%N.
Proof. exact (be_bytes_acc x b). Qed.

(** Without leading zeros, a longer number is larger. *)
Lemma be_bytes_ge b : head b ≠ Some 0%N → b ≠ [] →
  (256 ^ N.of_nat (pred (length b)) ≤ from_be_bytes b)%N.
Proof.
  destruct b as [|x b]; [done|]. cbn [head length pred]. intros Hx _. rewrite be_bytes_cons.
  assert (x ≠ 0)%N by congruence. nia.
Qed.

Lemma be_bytes_length_lt a b :
  octets a → head b ≠ Some 0%N → length a < length b → (from_be_bytes a < from_be_bytes b)%N.
Proof.
  intros Ha Hb Hlen. eapply N.lt_le_trans; [by apply be_bytes_lt|].
  etransitivity; [|apply be_bytes_ge; [done|by destruct b; cbn in *; [lia|]]].
  apply N.pow_le_mono_r; lia.
Qed.

Lemma slice_cmp_number a b :
  octets a → octets b → length a = length b →
  slice_cmp a b = (from_be_bytes a ?= from_be_bytes b)%N.
Proof.
  revert b. induction a as [|x a IH]; intros [|y b] Ha Hb Hl; try done.
  apply Forall_cons in Ha as [Hx Ha], Hb as [Hy Hb]. injection Hl as Hl. cbn [slice_cmp].
  rewrite !be_bytes_cons, Hl.
  pose proof (be_bytes_lt a Ha) as Hla. pose proof (be_bytes_lt b Hb) as Hlb. rewrite Hl in Hla.
  destruct (N.compare_spec x y) as [->|Hxy|Hxy]; symmetry.
  - rewrite IH by done. destruct (N.compare_spec (from_be_bytes a) (from_be_bytes b));
      [apply N.compare_eq_iff|apply N.compare_lt_iff|apply N.compare_gt_iff]; lia.
  - apply N.compare_lt_iff. nia.
  - apply N.compare_gt_iff. nia.
Qed.

Lemma scope_matches_serial `{NameText} `{DecodeOwned Name} der start end_ cert :
  scope_matches (serial_range der start end_) cert =
  match from_der der with
  | inl _ => false
  | inr name =>
      if negb (names_match name (issuer (tbs_certificate cert))) then false
      else is_ge (serial_cmp (serial_number (tbs_certificate cert)) start)
           && is_le (serial_cmp (serial_number (tbs_certificate cert)) end_)
  end.
Proof. reflexivity. Qed.

(** The comparison of serial numbers is that of the integers they encode,
    whatever the padding with leading zeros; so a scope of a range of serial
    numbers matches exactly the certificates of the issuer (by name comparison)
    whose number lies in the range, bounds included. *)
Theorem serial_cmp_correct `{NameText} `{DecodeOwned Name} a b cert issuer_der start end_
    (Ha : octets a) (Hb : octets b) (Hserial : octets (serial_number (tbs_certificate cert)))
    (Hstart : octets start) (Hend : octets end_) :
  serial_cmp a b = (from_be_bytes a ?= from_be_bytes b)%N ∧
  (scope_matches (serial_range issuer_der start end_) cert = true ↔
   ∃ name, from_der issuer_der = inr name ∧
     names_match name (issuer (tbs_certificate cert)) = true ∧
     (from_be_bytes start ≤ from_be_bytes (serial_number (tbs_certificate cert))
      ≤ from_be_bytes end_)%N).
Proof.
  assert (Hcmp : ∀ a b, octets a → octets b →
    serial_cmp a b = (from_be_bytes a ?= from_be_bytes b)%N).
  { clear. intros a b Ha Hb. unfold serial_cmp.
    destruct (strip_leading_zeros_spec a Ha) as (Ha' & <- & Hza).
    destruct (strip_leading_zeros_spec b Hb) as (Hb' & <- & Hzb).
    set (a' := strip_leading_zeros a) in *. set (b' := strip_leading_zeros b) in *.
    destruct (Nat.compare_spec (length a') (length b')) as [Hl|Hl|Hl].
    - by apply slice_cmp_number.
    - symmetry. apply N.compare_lt_iff. by apply be_bytes_length_lt.
    - symmetry. apply N.compare_gt_iff. by apply be_bytes_length_lt. }
  split; [by apply Hcmp|]. rewrite scope_matches_serial, !Hcmp by done. destruct (from_der issuer_der) as [e|name].
  { split; [done|]. by intros (? & ? & _). }
  assert (Hex : ∀ P, (∃ n, inr (A:=der_error) name = inr n ∧ P n) ↔ P name) by naive_solver.
  rewrite Hex. destruct (names_match name _); cbn [negb]; [|split; [done|by intros [? _]]].
  rewrite andb_true_iff.
  destruct (N.compare_spec (from_be_bytes (serial_number (tbs_certificate cert)))
              (from_be_bytes start)),
    (N.compare_spec (from_be_bytes (serial_number (tbs_certificate cert))) (from_be_bytes end_));
    cbn [is_ge is_le]; (split; [intros [? ?]; try done; split; first [done|lia]|intros [_ ?]; try lia; done]).
Qed.

(** ** The store *)
Section store_spec.
Context `{NameText} `{DecodeOwned Name}.
Implicit Types (st : DeviationStore) (d : Deviation).

(** A scope that is well formed: the props its kind needs, with their types. *)
Definition scope_ok (s : DeviationScope) : Prop :=
  (kind s = SCOPE_KIND_ISSUER_DN_CONTAINS → is_Some (get_text PROP_ISSUER_DN_SUBSTRING s)) ∧
  (kind s = SCOPE_KIND_ISSUER_DN_EXACT → is_Some (get_bytes PROP_ISSUER_DN_DER s)) ∧
  (kind s = SCOPE_KIND_SERIAL_RANGE →
     is_Some (get_bytes PROP_ISSUER_DN_DER s) ∧ is_Some (get_bytes PROP_SERIAL_START s) ∧
     is_Some (get_bytes PROP_SERIAL_END s)).

(** The invariant of a store. *)
Definition store_ok st : Prop :=
  NoDup (dev_id <$> st) ∧
  ∀ d, d ∈ st → justification d ≠ [] ∧ authorized_by d ≠ [] ∧ scope_ok (dev_scope d).

Lemma require_bytes_Ok s prop : require_bytes s prop = Ok tt ↔ is_Some (get_bytes prop s).
Proof.
  unfold require_bytes, get_bytes. destruct (get_prop prop s) as [[t|b]|];
    (split; [by intros|by intros [? ?]]).
Qed.

Lemma validate_scope_Ok s : validate_scope s = Ok tt ↔ scope_ok s.
Proof.
  unfold validate_scope, scope_ok. case_decide as Ha.
  { rewrite Ha. split; [by intros _; split_and!|done]. }
  case_decide as Hc.
  { rewrite Hc. unfold get_text. destruct (get_prop _ s) as [[t|b]|]; split;
      try done; try (intros (Hx & _); by destruct (Hx eq_refl)). }
  case_decide as He.
  { rewrite He, require_bytes_Ok. split; [intros Hb; by split_and!|intros (_ & Hb & _); by apply Hb]. }
  case_decide as Hs; [|split; [by intros _; split_and!|done]].
  rewrite Hs, try_for_each_Ok. setoid_rewrite require_bytes_Ok. split.
  - intros Hall. split_and!; [done..|]. intros _.
    split_and!; [by apply (Hall 0)|by apply (Hall 1)|by apply (Hall 2)].
  - intros (_ & _ & Hall) [|[|[|j]]] p; cbn; try done; intros [= <-]; by apply Hall.
Qed.

Lemma normalize_prop_pair k v :
  normalize_prop (k, v) =
  (k, match v with
      | Text s => Text (if decide (k = PROP_ISSUER_DN_SUBSTRING) then to_lowercase s else s)
      | Bytes b => Bytes b
      end).
Proof. unfold normalize_prop. cbn. by destruct v; case_decide. Qed.

Lemma find_prop_normalize name l :
  find_prop name (normalize_prop <$> l) =
  match find_prop name l with
  | Some (Text s) =>
      Some (Text (if decide (name = PROP_ISSUER_DN_SUBSTRING) then to_lowercase s else s))
  | o => o
  end.
Proof.
  induction l as [|[k v] l IH]; [done|]. rewrite fmap_cons, normalize_prop_pair.
  cbn [find_prop]. destruct (decide (k = name)) as [->|Hk]; [by destruct v|exact IH].
Qed.

Lemma normalize_scope_ok s : scope_ok s → scope_ok (normalize_scope s).
Proof.
  unfold normalize_scope. case_decide as Hk; [|done]. intros (Hc & _ & _).
  unfold scope_ok. cbn [kind]. rewrite Hk. split_and!; [intros _|done..].
  destruct (Hc Hk) as [t Ht]. unfold get_text, get_prop in *. cbn [props].
  rewrite find_prop_normalize.
  destruct (find_prop PROP_ISSUER_DN_SUBSTRING (props s)) as [[]|]; by eexists.
Qed.

(** What adding a deviation does. *)
Lemma store_add_spec st d :
  match store_add st d with
  | Ok st' => st' = st ++ [set_dev_scope (normalize_scope (dev_scope d)) d] ∧
      justification d ≠ [] ∧ authorized_by d ≠ [] ∧ ¬ (dev_id d ∈ (dev_id <$> st)) ∧ scope_ok (dev_scope d)
  | Err (EmptyField f) => f = str "justification" ∧ justification d = [] ∨
      f = str "authorized_by" ∧ authorized_by d = []
  | Err (DuplicateId i) => i = dev_id d ∧ i ∈ (dev_id <$> st)
  | Err (MalformedScope k _) => k = kind (dev_scope d) ∧ ¬ scope_ok (dev_scope d)
  | Panic => False
  end.
Proof.
  unfold store_add. destruct (justification d) as [|c j] eqn:Hj; cbn [str_is_empty fail_if mbind result_bind];
    [by left|].
  destruct (authorized_by d) as [|c' a] eqn:Ha; cbn [str_is_empty fail_if mbind result_bind]; [by right|].
  destruct (existsb _ st) eqn:Hdup; cbn [fail_if mbind result_bind].
  { split; [done|]. apply existsb_elem in Hdup as (e & He & Hid%bool_decide_eq_true).
    rewrite <-Hid. by apply list_elem_of_fmap_2. }
  assert (Hn : dev_id d ∉ (dev_id <$> st)).
  { intros (e & Hid & He)%list_elem_of_fmap. apply existsb_elem_false with (x := e) in Hdup; [|done].
    apply bool_decide_eq_false in Hdup. congruence. }
  pose proof (validate_scope_Ok (dev_scope d)) as Hv.
  assert (Hk : ∀ e, validate_scope (dev_scope d) = Err e →
    ∃ r, e = MalformedScope (kind (dev_scope d)) r).
  { unfold validate_scope, require_bytes, missing_prop, wrong_type. intros e.
    repeat (case_decide; [|]); try done; [repeat case_match; naive_solver..|].
    intros (j' & p & _ & Hp & _)%try_for_each_Err. repeat case_match; naive_solver. }
  assert (Hp : validate_scope (dev_scope d) ≠ Panic).
  { unfold validate_scope, require_bytes. repeat (case_decide; [|]); try done;
      [repeat case_match; done..|]. apply no_panic_try_for_each. intros; repeat case_match; done. }
  destruct (validate_scope (dev_scope d)) as [[]|e|]; cbn [mbind result_bind]; [| |done].
  - split_and!; [done..|by apply Hv].
  - destruct (Hk e eq_refl) as [r ->]. split; [done|]. by intros ?%Hv.
Qed.

(** A store that is filled by [add] from the empty one. *)
Inductive reachable : DeviationStore → Prop :=
| reachable_new : reachable []
| reachable_add st d st' : reachable st → store_add st d = Ok st' → reachable st'.

Lemma store_add_ok st d st' : store_ok st → store_add st d = Ok st' → store_ok st'.
Proof.
  intros [Hnd Hall] Hadd. pose proof (store_add_spec st d) as Hs. rewrite Hadd in Hs.
  destruct Hs as (-> & Hj & Ha & Hid & Hok). split.
  - rewrite fmap_app. apply NoDup_app. split_and!; [done| |cbn; apply NoDup_singleton].
    intros i Hi. cbn. rewrite list_elem_of_singleton. intros ->. done.
  - intros e [He|He%list_elem_of_singleton]%elem_of_app; [by apply Hall|]. subst e. cbn.
    split_and!; [done..|by apply normalize_scope_ok].
Qed.

(** ** The deviation that is found *)

(** The first of the entries with the highest priority among those chosen. *)
Definition best_of (P : Deviation → Prop) st (o : option Deviation) : Prop :=
  match o with
  | Some d => ∃ i, st !! i = Some d ∧ P d ∧
      ∀ j e, st !! j = Some e → P e →
        (priority e ≤ priority d)%Z ∧ (priority e = priority d → i ≤ j)
  | None => ∀ d, d ∈ st → ¬ P d
  end.

Lemma best_of_snoc_skip P st d o : best_of P st o → ¬ P d → best_of P (st ++ [d]) o.
Proof.
  intros Hb Hd. destruct o as [b|]; cbn in *.
  - destruct Hb as (i & Hi & Hp & Hall). exists i.
    split_and!; [by apply lookup_app_l_Some|done|].
    intros j e [Hj|[_ [_ <-]%list_lookup_singleton_Some]]%lookup_app_Some He; [by eapply Hall|done].
  - intros e [?|He%list_elem_of_singleton]%elem_of_app; [by apply Hb|by subst].
Qed.

Lemma best_of_snoc P st d o : best_of P st o → P d → best_of P (st ++ [d]) (better o d).
Proof.
  intros Hb Hd.
  assert (Hlast : (st ++ [d]) !! length st = Some d).
  { rewrite lookup_app_r, Nat.sub_diag; done. }
  destruct o as [b|]; cbn [better] in *.
  - destruct Hb as (i & Hi & Hp & Hall). case_decide as Hlt.
    + exists (length st). split_and!; [done..|].
      intros j e [Hj|[Hle [_ <-]%list_lookup_singleton_Some]]%lookup_app_Some He; [|done].
      destruct (Hall j e Hj He). lia.
    + exists i. split_and!; [by apply lookup_app_l_Some|done|].
      intros j e [Hj|[Hle [_ <-]%list_lookup_singleton_Some]]%lookup_app_Some He;
        [by eapply Hall|]. apply lookup_lt_Some in Hi. lia.
  - exists (length st). split_and!; [done..|].
    intros j e [Hj|[Hle [_ <-]%list_lookup_singleton_Some]]%lookup_app_Some He; [|done].
    exfalso. apply (Hb e); [by eapply list_elem_of_lookup_2|done].
Qed.

Lemma best_fold (f : Deviation → bool) st :
  best_of (λ d, f d = true) st (foldl (λ best d, if f d then better best d else best) None st).
Proof.
  induction st as [|d st IH] using rev_ind; [by intros d ?%elem_of_nil|].
  rewrite foldl_app. cbn. destruct (f d) eqn:Hf; [by apply best_of_snoc|].
  apply best_of_snoc_skip; [done|]. congruence.
Qed.

Lemma best_of_ext P Q st o : (∀ d, P d ↔ Q d) → best_of P st o → best_of Q st o.
Proof. intros HPQ. destruct o; cbn; setoid_rewrite HPQ; done. Qed.

(** A deviation covers a lint on a certificate at a time. *)
Definition covers (lint : bytes) (cert : Certificate) (now : N) d : Prop :=
  target_lint d = lint ∧ (∀ s, effective_start d = Some s → (s ≤ now)%N) ∧
  (∀ e, effective_end d = Some e → (now < e)%N) ∧ scope_matches (dev_scope d) cert = true.

Lemma covers_spec lint cert now d :
  bool_decide (target_lint d = lint) && deviation_applies_to d cert now = true ↔
  covers lint cert now d.
Proof.
  unfold covers, deviation_applies_to, is_active_at. rewrite andb_true_iff, bool_decide_eq_true.
  assert (Hs : match effective_start d with Some s => bool_decide (s ≤ now)%N | None => true end = true
    ↔ ∀ s, effective_start d = Some s → (s ≤ now)%N).
  { destruct (effective_start d); rewrite ?bool_decide_eq_true; naive_solver. }
  assert (He : match effective_end d with Some e => bool_decide (now < e)%N | None => true end = true
    ↔ ∀ e, effective_end d = Some e → (now < e)%N).
  { destruct (effective_end d); rewrite ?bool_decide_eq_true; naive_solver. }
  rewrite <-Hs, <-He.
  destruct (match effective_start d with Some _ => _ | _ => _ end), (match effective_end d with Some _ => _ | _ => _ end);
    cbn [andb negb]; naive_solver.
Qed.

Lemma find_deviation_spec st lint cert now :
  best_of (covers lint cert now) st (find_deviation st lint cert now).
Proof. eapply best_of_ext; [apply covers_spec|]. apply (best_fold _ st). Qed.

Lemma find_deviation_for_chain_spec st lint chain now :
  best_of (λ d, ∃ cert, cert ∈ chain ∧ covers lint cert now d) st
    (find_deviation_for_chain st lint chain now).
Proof.
  eapply best_of_ext; [|apply (best_fold _ st)]. intros d. cbn.
  rewrite andb_true_iff, bool_decide_eq_true, existsb_elem. setoid_rewrite <-covers_spec.
  setoid_rewrite andb_true_iff. setoid_rewrite bool_decide_eq_true. naive_solver.
Qed.

(** C27: a store that is filled by [add] holds distinct identifiers, no entry
    without justification or author, and only well-formed scopes.  The
    deviation that a finding gets is the first one of the highest priority
    among those that cover its lint on the certificate (on some certificate of
    the chain, for a path) at the time, from the start of their term and before
    its end; it gets none when none covers it. *)
Theorem deviation_store_correct st lint cert chain now (Hst : reachable st) :
  store_ok st ∧
  best_of (covers lint cert now) st (find_deviation st lint cert now) ∧
  best_of (λ d, ∃ cert, cert ∈ chain ∧ covers lint cert now d) st
    (find_deviation_for_chain st lint chain now).
Proof.
  split_and!; [|apply find_deviation_spec|apply find_deviation_for_chain_spec].
  induction Hst; [split; [constructor|by intros d ?%elem_of_nil]|by eapply store_add_ok].
Qed.
End store_spec.

(** ** Runs under deviations *)

(** The deviation that waives a finding: pass and not-applicable are never waived. *)
Definition waiver (find : bytes → option Deviation) (f : Finding) : option Deviation :=
  if is_finding (finding_result f) then find (lint_id f) else None.

(** The findings split: what stands and what is waived, both in order. *)
Definition split_findings (find : bytes → option Deviation) (raw : list Finding) :
    DeviationRunResult := {|
  findings := filter (λ f, waiver find f = None) raw;
  deviated := omap (λ f, make_deviated f <$> waiver find f) raw |}.

Lemma deviate_loop_spec find raw r :
  deviate_loop find raw r = extend_result r (split_findings find raw).
Proof.
  revert r. induction raw as [|f raw IH]; intros [fs ds]; cbn [deviate_loop].
  { unfold extend_result. cbn. by rewrite !app_nil_r. }
  unfold split_findings, extend_result. cbn [findings deviated omap list_omap].
  destruct (waiver find f) as [dev|] eqn:Hw.
  - rewrite filter_cons_False by congruence. unfold waiver in Hw.
    destruct (is_finding (finding_result f)); cbn [negb]; [|done]. rewrite Hw.
    rewrite IH. unfold extend_result, push_deviated. cbn. by rewrite <-app_assoc.
  - rewrite filter_cons_True by done. unfold waiver in Hw.
    destruct (is_finding (finding_result f)); cbn [negb]; rewrite ?Hw, IH;
      unfold extend_result, push_finding; cbn; by rewrite <-app_assoc.
Qed.

Lemma split_findings_app find raw1 raw2 :
  split_findings find (raw1 ++ raw2) =
  extend_result (split_findings find raw1) (split_findings find raw2).
Proof.
  unfold split_findings, extend_result. cbn. by rewrite filter_app, omap_app.
Qed.

(** No finding is lost. *)
Lemma split_findings_length find raw :
  length (findings (split_findings find raw)) + length (deviated (split_findings find raw)) =
  length raw.
Proof.
  cbn. induction raw as [|f raw IH]; [done|]. rewrite filter_cons. cbn.
  case_decide as Hw; [rewrite Hw; cbn; lia|].
  destruct (waiver find f); cbn [fmap option_fmap option_map length]; [lia|done].
Qed.

Section run_spec.
Context `{NameText} `{DecodeOwned Name} {L : Type} `{Lint L} `{Sha256} `{Encode Certificate}.

(** The chain: each certificate is split by the deviations that cover it. *)
Fixpoint split_chain (self : DeviationRunner L) (now : N) (i : nat)
    (chain : list (Certificate * SubjectKind)) : DeviationRunResult :=
  match chain with
  | [] => run_result_default
  | (cert, kind) :: chain =>
      extend_result
        (split_findings (λ lint, find_deviation (store self) lint cert now)
           (run_cert (runner self) cert kind i now))
        (split_chain self now (S i) chain)
  end.

Lemma extend_default_l r : extend_result run_result_default r = r.
Proof. by destruct r. Qed.
Lemma extend_result_assoc a b c :
  extend_result (extend_result a b) c = extend_result a (extend_result b c).
Proof. unfold extend_result. cbn. by rewrite !app_assoc. Qed.

Lemma deviation_chain_loop_spec {E} (self : DeviationRunner L) kinds now i chain r :
  length kinds = i + length chain →
  deviation_chain_loop (E:=E) self kinds now i chain r =
  Ok (extend_result r (split_chain self now i (zip chain (drop i kinds)))).
Proof.
  revert i r. induction chain as [|c chain IH]; intros i r Hlen;
    cbn [deviation_chain_loop length] in *.
  { unfold extend_result. cbn. rewrite !app_nil_r. by destruct r. }
  destruct (lookup_lt_is_Some_2 kinds i) as [k Hk]; [lia|].
  unfold index. rewrite Hk. cbn [mbind result_bind]. rewrite IH by lia.
  rewrite (drop_S kinds k i) by done. cbn [zip zip_with split_chain].
  unfold apply_deviations. rewrite deviate_loop_spec, extend_default_l.
  by rewrite extend_result_assoc.
Qed.

(** C28: a run under a policy of deviations is the run of the lints with its
    findings split, both parts in order and together as many as there were: a
    finding is waived exactly when it is actionable (a warning, an error or
    fatal) and a deviation covers it, and then it carries the identifier, the
    action and the justification of the deviation found.  A run over a chain splits the findings of
    each certificate by the deviations that cover that certificate, and panics
    only when the numbers of kinds and certificates differ. *)
Theorem deviation_run_correct {E} (self : DeviationRunner L) cert kind i now chain kinds path :
  let of_cert := λ c lint, find_deviation (store self) lint c now in
  let of_chain := λ lint, find_deviation_for_chain (store self) lint chain now in
  deviation_run_cert self cert kind i now =
    split_findings (of_cert cert) (run_cert (runner self) cert kind i now) ∧
  deviation_run_path self chain path now =
    split_findings of_chain (run_path (runner self) chain path now) ∧
  deviation_run_chain (E:=E) self chain kinds now =
    (if decide (length kinds = length chain)
     then Ok (split_chain self now 0 (zip chain kinds)) else Panic) ∧
  ∀ find raw, length (findings (split_findings find raw)) +
              length (deviated (split_findings find raw)) = length raw.
Proof.
  cbv zeta. split_and!; [| | |apply split_findings_length].
  - unfold deviation_run_cert, apply_deviations. by rewrite deviate_loop_spec, extend_default_l.
  - unfold deviation_run_path, apply_deviations_for_chain.
    by rewrite deviate_loop_spec, extend_default_l.
  - unfold deviation_run_chain. repeat case_decide; try done.
    by rewrite deviation_chain_loop_spec, drop_0, extend_default_l.
Qed.
End run_spec.

(** ** Reports *)

(** The threshold of a report keeps exactly the findings of at least that rank,
    and severities rank as they are listed. *)
Lemma findings_at_or_above_spec r min f :
  f ∈ findings_at_or_above r min ↔
  f ∈ er_findings r ∧ ∃ s, severity_of (finding_result f) = Some s ∧ (rank min ≤ rank s)%N.
Proof.
  unfold findings_at_or_above. rewrite list_elem_of_filter.
  destruct (severity_of (finding_result f)); rewrite ?bool_decide_eq_true; naive_solver.
Qed.

Lemma has_findings_spec r :
  has_findings r = true ↔ ∃ f, f ∈ findings_at_or_above r SevInfo.
Proof.
  unfold has_findings, finding_is_finding. rewrite existsb_elem.
  setoid_rewrite findings_at_or_above_spec. split.
  - intros (f & Hf & Hr). exists f. split; [done|].
    destruct (finding_result f); try done; eexists; (split; [done|]); cbn; lia.
  - intros (f & Hf & s & Hs & _). exists f. split; [done|]. by destruct (finding_result f).
Qed.
