(* ===== verification/OscalSpec.v ===== *)
(** * What the OSCAL documents promise

    A policy of deviations survives being written and read; a Catalog lists the
    lints it was made of; identifiers have the form of version 8; a time is
    written as the calendar has it. *)
From S2P Require Import Prelude X509 PathTypes Names Samples Identity IdentitySpec Json LintTypes Deviation OscalParse OscalProfile LintRunner LintSpec DeviationRunner OscalEmit HexSpec DeviationSpec.

(** ** Numbers *)
Lemma fmt_u64_parse n : (n ≤ u64_max)%N → from_str_radix 10 u64_max (fmt_u64 n) = Some n.
Proof.
  intros Hn. unfold fmt_u64.
  destruct (fmt_number_fuel 20 10 u64_max n) as (? & _); [done|done| |done|done].
  eapply N.le_lt_trans; [exact Hn|done].
Qed.

(** [i32] *)
Definition i32_ok (z : Z) : Prop := (- 2147483648 ≤ z ≤ 2147483647)%Z.

Lemma fmt_i32_parse z : i32_ok z → parse_i32 (fmt_i32 z) = Some z.
Proof.
  intros Hz. unfold i32_ok in Hz. unfold fmt_i32, fmt_u64. case_decide as Hneg.
  - destruct (fmt_number_fuel 20 10 (i32_max + 1) (Z.to_N (- z))) as (_ & Hne & _ & _ & Hp);
      [done|done|eapply (N.lt_le_trans _ 4294967296); [lia|done]|unfold i32_max; lia|].
    unfold parse_i32. destruct (fmt_digits 20 10 (Z.to_N (- z)) []) as [|c s]; [done|].
    rewrite Hp. cbn. f_equal. lia.
  - destruct (fmt_number_fuel 20 10 i32_max (Z.to_N z)) as (Hp & Hne & _ & Hc & _);
      [done|done|eapply (N.lt_le_trans _ 4294967296); [lia|done]|unfold i32_max; lia|].
    unfold parse_i32. destruct (fmt_digits 20 10 (Z.to_N z) []) as [|c s]; [done|].
    assert (c ≠ 45%N) as Hc45 by (specialize (Hc c ltac:(by left)); lia).
    rewrite decide_False, Hp by done. cbn. f_equal. lia.
Qed.

Lemma parse_digits_le limit acc ds n :
  (acc ≤ limit)%N → parse_digits 10 limit acc ds = Some n → (n ≤ limit)%N.
Proof.
  revert acc. induction ds as [|c ds IH]; intros acc Hacc; cbn [parse_digits].
  - by intros [= <-].
  - destruct (to_digit 10 c); cbn; [|done]. case_decide; [|done]. by apply IH.
Qed.

Lemma from_str_radix_le limit s n : from_str_radix 10 limit s = Some n → (n ≤ limit)%N.
Proof.
  unfold from_str_radix. destruct s as [|c ds]; [done|].
  case_decide; [destruct ds; [done|]|]; apply parse_digits_le; lia.
Qed.

Lemma parse_i32_ok s z : parse_i32 s = Some z → i32_ok z.
Proof.
  unfold parse_i32, i32_ok. destruct s as [|c ds]; [done|]. case_decide.
  - destruct ds as [|c' ds]; [done|].
    intros (n & Hn%parse_digits_le & [= <-])%bind_Some; unfold i32_max in *; lia.
  - intros (n & Hn%from_str_radix_le & [= <-])%bind_Some. unfold i32_max in *. lia.
Qed.

(** ** The policy of deviations *)
Section policy.
Context `{Sha256} `{NameText} `{DecodeOwned Name}.
Implicit Types (st : DeviationStore) (d : Deviation).

(** The scopes that a document can hold: those of the four constructors, with
    an issuer that can be decoded. *)
Definition issuer_ok (der : bytes) : Prop :=
  octets der ∧ der ≠ [] ∧ ∃ n : Name, from_der der = inr n.
Definition canonical_scope (s : DeviationScope) : Prop :=
  s = scope_any ∨
  (∃ t, s = issuer_dn_contains t) ∨
  (∃ der, s = issuer_dn_exact der ∧ issuer_ok der) ∨
  (∃ der a b, s = serial_range der a b ∧ issuer_ok der ∧ octets a ∧ octets b).

Definition deviation_ok d : Prop :=
  dev_id d ≠ [] ∧ target_lint d ≠ [] ∧ authorized_by d ≠ [] ∧
  (∀ s, effective_start d = Some s → (s ≤ u64_max)%N) ∧
  (∀ e, effective_end d = Some e → (e ≤ u64_max)%N) ∧
  i32_ok (priority d) ∧ canonical_scope (dev_scope d).

Lemma required_hex_Ok idx props name b :
  octets b → find_prop_value props name = Some (hex b) → required_hex idx props name = Ok b.
Proof. intros Hb Hf. unfold required_hex. rewrite Hf. cbn. by rewrite hex_decode_hex. Qed.

Lemma decode_name_Ok idx der prop :
  issuer_ok der → ∃ n, decode_name idx der prop = Ok n.
Proof.
  intros (_ & Hne & n & Hn). exists n. unfold decode_name. destruct der; [done|].
  cbn [str_is_empty fail_if mbind result_bind]. by rewrite Hn.
Qed.

(** A Subject is read back as the scope it was written for. *)
Lemma parse_subject_encode idx s :
  canonical_scope s → ∃ v, encode_scope s = [v] ∧ parse_subject idx v = Ok s.
Proof.
  intros [->|[[t ->]|[(der & -> & Hder)|(der & a & b & -> & Hder & Ha & Hb)]]];
    (eexists; split; [reflexivity|]).
  - reflexivity.
  - reflexivity.
  - destruct (decode_name_Ok idx der PROP_ISSUER_DN_DER Hder) as [n Hn]. destruct Hder as [Ho _].
    transitivity (der' ← required_hex idx
        (Some [prop (str "pkix-lint.issuer-dn") (decode_name_display der);
               prop PROP_ISSUER_DN_DER (hex der)]) PROP_ISSUER_DN_DER;
      _ ← decode_name idx der' PROP_ISSUER_DN_DER; Ok (issuer_dn_exact der')); [reflexivity|].
    rewrite (required_hex_Ok _ _ _ der) by done. cbn [mbind result_bind]. by rewrite Hn.
  - destruct (decode_name_Ok idx der PROP_ISSUER_DN_DER Hder) as [n Hn]. destruct Hder as [Ho _].
    set (ps := Some [prop (str "pkix-lint.issuer-dn") (decode_name_display der);
                     prop PROP_ISSUER_DN_DER (hex der); prop PROP_SERIAL_START (hex a);
                     prop PROP_SERIAL_END (hex b)]).
    transitivity (der' ← required_hex idx ps PROP_ISSUER_DN_DER;
      _ ← decode_name idx der' PROP_ISSUER_DN_DER;
      a' ← required_hex idx ps PROP_SERIAL_START;
      b' ← required_hex idx ps PROP_SERIAL_END; Ok (serial_range der' a' b')); [reflexivity|].
    rewrite (required_hex_Ok _ _ PROP_ISSUER_DN_DER der) by done. cbn [mbind result_bind].
    rewrite Hn. cbn [mbind result_bind].
    rewrite (required_hex_Ok _ _ PROP_SERIAL_START a) by done. cbn [mbind result_bind].
    by rewrite (required_hex_Ok _ _ PROP_SERIAL_END b) by done.
Qed.

(** The props of a Risk. *)
Definition risk_props d : list Value := [
  prop (str "pkix-lint.deviation-id") (dev_id d);
  prop (str "pkix-lint.target-lint") (target_lint d);
  prop (str "pkix-lint.action") (deviation_action_prop_value (dev_action d));
  prop (str "pkix-lint.authorized-by") (authorized_by d)] ++
  match effective_start d with
  | Some s => [prop (str "pkix-lint.effective-start") (fmt_u64 s)] | None => [] end ++
  match effective_end d with
  | Some e => [prop (str "pkix-lint.effective-end") (fmt_u64 e)] | None => [] end ++
  (if decide (priority d ≠ 0)%Z
   then [prop (str "pkix-lint.deviation-priority") (fmt_i32 (priority d))] else []).

Lemma risk_prop_values d :
  let p := find_prop_value (Some (risk_props d)) in
  p (str "pkix-lint.deviation-id") = Some (dev_id d) ∧
  p (str "pkix-lint.target-lint") = Some (target_lint d) ∧
  p (str "pkix-lint.action") = Some (deviation_action_prop_value (dev_action d)) ∧
  p (str "pkix-lint.authorized-by") = Some (authorized_by d) ∧
  p (str "pkix-lint.effective-start") = fmt_u64 <$> effective_start d ∧
  p (str "pkix-lint.effective-end") = fmt_u64 <$> effective_end d ∧
  p (str "pkix-lint.deviation-priority") =
    (if decide (priority d ≠ 0)%Z then Some (fmt_i32 (priority d)) else None).
Proof.
  unfold risk_props. destruct (effective_start d), (effective_end d), (decide (priority d ≠ 0)%Z);
    split_and!; reflexivity.
Qed.

Lemma risk_fields d :
  ∃ m, risk_for_deviation d = Object m ∧
    get (str "status") m = Some (String (str "deviation-approved")) ∧
    get (str "description") m = Some (String (justification d)) ∧
    get (str "props") m = Some (Array (risk_props d)) ∧
    get (str "subjects") m = Some (Array (encode_scope (dev_scope d))) ∧
    parse_evidence_uri (get (str "links") m) = evidence_uri d.
Proof.
  unfold risk_for_deviation. cbv zeta. fold (risk_props d).
  destruct (evidence_uri d); (eexists; split; [reflexivity|]); split_and!; reflexivity.
Qed.

Lemma parse_action_value idx a : parse_action idx (deviation_action_prop_value a) = Ok a.
Proof. by destruct a as [[]|]. Qed.

Lemma required_Ok idx s name :
  s ≠ [] → required_nonempty_prop idx (Some s) name = Ok s.
Proof. by destruct s. Qed.

Lemma parse_optional_u64_fmt idx o prop :
  (∀ n, o = Some n → (n ≤ u64_max)%N) → parse_optional_u64 idx (fmt_u64 <$> o) prop = Ok o.
Proof.
  intros Ho. destruct o as [n|]; [|done].
  cbn [parse_optional_u64 fmap option_fmap option_map]. by rewrite fmt_u64_parse by by apply Ho.
Qed.

(** A Risk is read back as the deviation it was written for. *)
Lemma parse_risk_for_deviation idx d :
  deviation_ok d → parse_risk idx (risk_for_deviation d) = Ok d.
Proof.
  intros (Hid & Htl & Hau & Hs & He & Hp & Hsc).
  destruct (risk_fields d) as (m & -> & Hst & Hde & Hpr & Hsu & Hli).
  destruct (risk_prop_values d) as (P1 & P2 & P3 & P4 & P5 & P6 & P7).
  destruct (parse_subject_encode idx (dev_scope d) Hsc) as (v & Hv & Hparse).
  unfold parse_risk. cbn [as_object ok_or mbind result_bind]. unfold props_slice.
  rewrite Hst, Hde, Hpr, Hsu, Hli. cbn [mbind option_bind result_bind as_str as_array default ok_or].
  rewrite P1, P2, P3, P4, P5, P6, P7, Hv.
  rewrite bool_decide_true by done. cbn [negb fail_if mbind result_bind].
  rewrite !required_Ok by (try done; by destruct (dev_action d) as [[]|]).
  cbn [mbind result_bind]. rewrite parse_action_value. cbn [mbind result_bind].
  rewrite !parse_optional_u64_fmt by done. cbn [mbind result_bind head ok_or].
  assert (Hprio : ∃ z, parse_optional_i32 idx
      (if decide (priority d ≠ 0)%Z then Some (fmt_i32 (priority d)) else None)
      (str "pkix-lint.deviation-priority") = Ok z ∧ default 0%Z z = priority d).
  { case_decide as Hz; cbn [parse_optional_i32].
    - rewrite fmt_i32_parse by done. by exists (Some (priority d)).
    - exists None. split; [done|]. cbn. lia. }
  destruct Hprio as (z & -> & Hz). cbn [mbind result_bind]. rewrite Hparse. cbn [mbind result_bind].
  rewrite Hz. by destruct d.
Qed.

(** What [add] leaves as it is. *)
Definition settled d : Prop := normalize_scope (dev_scope d) = dev_scope d.

Lemma store_add_settled st d :
  deviation_ok d → justification d ≠ [] → settled d → dev_id d ∉ (dev_id <$> st) →
  store_add st d = Ok (st ++ [d]).
Proof.
  intros (_ & _ & Ha & _ & _ & _ & Hsc) Hj Hset Hid. pose proof (store_add_spec st d) as Hs.
  destruct (store_add st d) as [st'|[i|f|k r]|].
  - destruct Hs as (-> & _). rewrite Hset. by destruct d.
  - by destruct Hs as [-> ?].
  - by destruct Hs as [[_ ?]|[_ ?]].
  - destruct Hs as [_ []].
    destruct Hsc as [->|[[t ->]|[(der & -> & _)|(der & a & b & -> & _)]]];
      unfold scope_ok; cbn; split_and!; try done; by eexists.
  - done.
Qed.

Lemma risks_loop_settled idx st l :
  NoDup (dev_id <$> (st ++ l)) →
  Forall (λ d, deviation_ok d ∧ justification d ≠ [] ∧ settled d) l →
  risks_loop idx st (risk_for_deviation <$> l) = Ok (st ++ l).
Proof.
  revert idx st. induction l as [|d l IH]; intros idx st Hnd Hall; cbn [risks_loop fmap list_fmap].
  { by rewrite app_nil_r. }
  apply Forall_cons in Hall as [(Hd & Hj & Hset) Hall].
  rewrite parse_risk_for_deviation by done. cbn [mbind result_bind].
  rewrite store_add_settled; [|done..|].
  - cbn [map_err mbind result_bind]. rewrite IH; [by rewrite <-app_assoc|by rewrite <-app_assoc|done].
  - rewrite fmap_app, fmap_cons in Hnd. apply NoDup_app in Hnd as (_ & Hn & _).
    intros Hin. apply (Hn _ Hin). by left.
Qed.

(** What the parser accepts is in turn fit to be written. *)
Lemma nibble_lt c n : nibble c = Some n → (n < 16)%N.
Proof. unfold nibble. repeat case_decide; intros [= <-]; lia. Qed.

Lemma nibbles_octet hi lo : (hi < 16)%N → (lo < 16)%N → (N.lor (N.shiftl hi 4) lo < 256)%N.
Proof.
  intros Hhi Hlo. destruct (decide (N.lor (N.shiftl hi 4) lo = 0)%N) as [->|Hne]; [done|].
  change 256%N with (2 ^ 8)%N. apply N.log2_lt_pow2; [lia|]. rewrite N.log2_lor.
  assert (N.log2 lo < 8)%N.
  { destruct (decide (lo = 0)%N) as [->|]; [done|]. apply N.log2_lt_pow2; [lia|]. cbn; lia. }
  assert (N.log2 (N.shiftl hi 4) < 8)%N; [|lia].
  rewrite N.shiftl_mul_pow2. destruct (decide (hi = 0)%N) as [->|]; [done|].
  apply N.log2_lt_pow2; cbn; lia.
Qed.

Lemma hex_pairs_octets s b : hex_pairs s = Some b → octets b.
Proof.
  assert (Hn : ∀ n s b, length s ≤ n → hex_pairs s = Some b → octets b); [|by eapply Hn].
  clear. intros n. induction n as [|n IH]; intros [|x [|y s]] b Hlen; cbn in *; try lia;
    try (by intros [= <-]; constructor).
  intros (hi & Hhi & (lo & Hlo & (out & Hout & [= <-])%bind_Some)%bind_Some)%bind_Some.
  constructor; [by apply nibbles_octet; eapply nibble_lt|eapply IH; [|done]; lia].
Qed.

Lemma required_hex_octets idx props name b : required_hex idx props name = Ok b → octets b.
Proof.
  unfold required_hex, hex_decode. intros Hb. inv_ok. case_decide; [done|]. by eapply hex_pairs_octets.
Qed.

Lemma decode_name_issuer idx der prop n : octets der → decode_name idx der prop = Ok n → issuer_ok der.
Proof.
  unfold decode_name. intros Ho Hd. inv_ok. apply lift_der_Ok in Hd.
  split_and!; [done| |by exists n]. by destruct der.
Qed.

Lemma parse_subject_canonical idx v s : parse_subject idx v = Ok s → canonical_scope s.
Proof.
  unfold parse_subject, canonical_scope. intros Hs. inv_ok. case_decide; [inv_ok; by left|].
  case_decide; [inv_ok; right; left; eauto|]. case_decide.
  { inv_ok. right. right. left. subst s. eexists. split; [done|].
    eapply decode_name_issuer; [by eapply required_hex_octets|done]. }
  case_decide; [|done]. inv_ok. subst s. do 3 right. do 3 eexists.
  split_and!; [done|eapply decode_name_issuer; [by eapply required_hex_octets|done]
    |by eapply required_hex_octets..].
Qed.

Lemma required_nonempty idx o name s : required_nonempty_prop idx o name = Ok s → s ≠ [].
Proof. unfold required_nonempty_prop. intros Hs. inv_ok. by destruct s; subst. Qed.

Lemma parse_optional_u64_ok idx o prop r :
  parse_optional_u64 idx o prop = Ok r → ∀ n, r = Some n → (n ≤ u64_max)%N.
Proof.
  unfold parse_optional_u64. destruct o as [v|]; intros Hr n ->; inv_ok; [|done].
  simplify_eq. by eapply from_str_radix_le.
Qed.

Lemma parse_optional_i32_ok idx o prop r :
  parse_optional_i32 idx o prop = Ok r → i32_ok (default 0%Z r).
Proof.
  unfold parse_optional_i32. destruct o as [v|]; intros Hr; inv_ok; subst; cbn.
  - by eapply parse_i32_ok.
  - done.
Qed.

Lemma parse_risk_ok idx v d : parse_risk idx v = Ok d → deviation_ok d.
Proof.
  unfold parse_risk. intros Hd. inv_ok. subst d. unfold deviation_ok.
  cbn [dev_id target_lint authorized_by effective_start effective_end priority dev_scope].
  repeat match goal with |- _ ∧ _ => split end;
    [by eapply required_nonempty..|by eapply parse_optional_u64_ok|by eapply parse_optional_u64_ok
    |by eapply parse_optional_i32_ok|by eapply parse_subject_canonical].
Qed.

(** Entries that survive: read or built, and lower-cased by [add]. *)
Definition storable d : Prop := deviation_ok d ∧ justification d ≠ [] ∧ settled d.

Lemma canonical_normalize s :
  canonical_scope s → canonical_scope (normalize_scope s).
Proof.
  intros [->|[[t ->]|[(der & -> & ?)|(der & a & b & -> & ?)]]].
  - by left.
  - right. left. by exists (to_lowercase t).
  - right. right. left. by exists der.
  - do 3 right. by exists der, a, b.
Qed.

Lemma normalize_scope_idem s :
  (∀ t, to_lowercase (to_lowercase t) = to_lowercase t) →
  normalize_scope (normalize_scope s) = normalize_scope s.
Proof.
  intros Hidem. unfold normalize_scope.
  destruct (decide (kind s = SCOPE_KIND_ISSUER_DN_CONTAINS)) as [Hk|Hk]; [|by rewrite decide_False].
  cbn [kind]. rewrite decide_True by done. cbn [props]. f_equal. rewrite <-list_fmap_compose.
  apply list_fmap_ext. intros _ [k v] _. cbn [compose]. rewrite !normalize_prop_pair. f_equal.
  destruct v; [|done]. case_decide; [by rewrite Hidem|done].
Qed.

Lemma store_add_storable st d st' :
  (∀ t, to_lowercase (to_lowercase t) = to_lowercase t) →
  NoDup (dev_id <$> st) → Forall storable st → deviation_ok d → store_add st d = Ok st' →
  NoDup (dev_id <$> st') ∧ Forall storable st'.
Proof.
  intros Hidem Hnd Hst (? & ? & ? & ? & ? & ? & Hsc) Hadd.
  pose proof (store_add_spec st d) as Hs. rewrite Hadd in Hs.
  destruct Hs as (-> & Hj & _ & Hid & _). split.
  - rewrite fmap_app. apply NoDup_app. split_and!; [done| |cbn; apply NoDup_singleton].
    intros i Hi. cbn. rewrite list_elem_of_singleton. by intros ->.
  - apply Forall_app. split; [done|]. apply Forall_singleton. split_and!; [|done|].
    + unfold deviation_ok. do 6 (split; [done|]). by apply canonical_normalize.
    + by apply normalize_scope_idem.
Qed.

Lemma risks_loop_storable idx st risks st' :
  (∀ t, to_lowercase (to_lowercase t) = to_lowercase t) →
  NoDup (dev_id <$> st) → Forall storable st → risks_loop idx st risks = Ok st' →
  NoDup (dev_id <$> st') ∧ Forall storable st'.
Proof.
  intros Hidem. revert idx st. induction risks as [|v risks IH]; intros idx st Hnd Hst;
    cbn [risks_loop]; [by intros [= <-]|].
  intros Hr. apply bind_Ok in Hr as (d & Hd%parse_risk_ok & Hr).
  apply bind_Ok in Hr as (st1 & Hadd%map_err_Ok & Hr).
  destruct (store_add_storable st d st1 Hidem Hnd Hst Hd Hadd). by eapply IH.
Qed.

(** C29: a policy of deviations that is written as Risks and read again is the
    same policy, in the same order, when its identifiers are distinct and every
    entry is complete, has bounds of a [u64] and a priority of an [i32], is
    lower-cased as [add] leaves it, and has one of the four built-in scopes with
    an issuer that can be decoded.  Any policy the parser accepts is of this
    kind, so what was read is written and read back unchanged. *)
Theorem policy_round_trip st (risks : Value)
    (Hlower : ∀ t, to_lowercase (to_lowercase t) = to_lowercase t) :
  (NoDup (dev_id <$> st) → Forall storable st →
   deviation_store_from_risks (Array (risks_from_store st)) = Ok st) ∧
  (deviation_store_from_risks risks = Ok st →
   deviation_store_from_risks (Array (risks_from_store st)) = Ok st).
Proof.
  assert (Hrt : NoDup (dev_id <$> st) → Forall storable st →
    deviation_store_from_risks (Array (risks_from_store st)) = Ok st).
  { intros Hnd Hst. unfold deviation_store_from_risks, risks_from_store.
    cbn [as_array ok_or mbind result_bind]. by apply (risks_loop_settled 0 []). }
  split; [exact Hrt|]. unfold deviation_store_from_risks at 1. intros Hr. inv_ok.
  apply risks_loop_storable in Hr as [? ?]; [by apply Hrt|done|constructor|done].
Qed.

(** A scope of another kind is written, and what is written is refused: the
    parser knows the four built-in kinds only. *)
Lemma custom_scope_not_read idx s v :
  kind s ≠ SCOPE_KIND_ANY → kind s ≠ SCOPE_KIND_ISSUER_DN_CONTAINS →
  kind s ≠ SCOPE_KIND_ISSUER_DN_EXACT → kind s ≠ SCOPE_KIND_SERIAL_RANGE →
  encode_scope s = [v] → parse_subject idx v = Err (UnknownSubjectType idx (kind s)).
Proof.
  intros Ha Hc He Hs. unfold encode_scope. rewrite !decide_False by done. intros [= <-].
  unfold parse_subject. cbn [obj as_object ok_or mbind result_bind].
  match goal with |- context [get (str "type") ?m] =>
    change (get (str "type") m) with (Some (String (kind s))) end.
  cbn [mbind option_bind as_str ok_or result_bind]. by rewrite !decide_False.
Qed.
End policy.

(** ** The Catalog of a bundle *)
Section catalog.
Context `{Sha256} {L : Type} `{Lint L}.
Implicit Types (l : L) (ls : list L).

(** An object in which [get] finds [w] under [k]; fields set later keep it. *)
Definition holds (k : bytes) (w v : Value) : Prop := ∃ m, v = Object m ∧ get k m = Some w.

Lemma holds_set_key key v o k w : holds k w o → holds k w (set_key key v o).
Proof.
  intros (m & -> & Hg). eexists. split; [done|]. unfold insert_new. by rewrite get_app, Hg.
Qed.
Lemma holds_set_non_empty key vs o k w : holds k w o → holds k w (set_non_empty key vs o).
Proof. intros Ho. destruct vs; [done|]. by apply holds_set_key. Qed.

Lemma control_for_lint_id cid ver l :
  holds (str "id") (String (id l)) (control_for_lint cid ver l).
Proof.
  apply holds_set_non_empty, holds_set_non_empty, holds_set_key, holds_set_non_empty.
  eexists. by split.
Qed.

Lemma control_ids_of_lints cid ver i ls :
  Forall (λ l, id l ≠ []) ls →
  control_ids_loop i (control_for_lint cid ver <$> ls) = Ok (id <$> ls).
Proof.
  intros Hall. revert i. induction Hall as [|l ls Hl Hall IH]; intros i; [done|].
  rewrite !fmap_cons. cbn [control_ids_loop]. unfold control_id at 1.
  destruct (control_for_lint_id cid ver l) as (m & -> & Hm).
  cbn [as_object ok_or mbind result_bind]. rewrite Hm. cbn [ok_or mbind result_bind as_str].
  destruct (id l) as [|c s] eqn:Hid; [done|]. cbn [str_is_empty fail_if mbind result_bind].
  rewrite IH. cbn [mbind result_bind]. done.
Qed.

Lemma lint_ids_of_catalog cid ver ls :
  Forall (λ l, id l ≠ []) ls →
  lint_ids_from_catalog (catalog_from_lints ls cid ver) = Ok (id <$> ls).
Proof.
  intros Hall. rewrite <-(control_ids_of_lints cid ver 0 ls Hall).
  unfold lint_ids_from_catalog, catalog_from_lints. cbv zeta. reflexivity.
Qed.

Lemma same_ids_same_lints ls out :
  NoDup (id <$> ls) → (∀ l, l ∈ out → l ∈ ls) → id <$> out = id <$> ls → out = ls.
Proof.
  intros Hnd Hin Hids. apply list_eq_same_length with (n := length ls); [done| |].
  - by rewrite <-(length_fmap id out), Hids, length_fmap.
  - intros i x y _ Hx Hy.
    assert (id <$> out !! i = id <$> ls !! i) as Hi by by rewrite <-!list_lookup_fmap, Hids.
    rewrite Hx, Hy in Hi. injection Hi as Hi.
    destruct (proj1 (list_elem_of_lookup ls x)) as [j Hj]; [by eapply Hin, list_elem_of_lookup_2|].
    assert (i = j) as ->; [|congruence].
    apply (NoDup_lookup (id <$> ls) i j (id y)); [done|..]; rewrite list_lookup_fmap.
    + by rewrite Hy.
    + by rewrite Hj; cbn; rewrite Hi.
Qed.

(** The Catalog that is written for a bundle of lints lists their
    identifiers in order; a runner that selects its lints by the identifiers
    read from its own Catalog is the runner itself, so it gives the same
    findings on every certificate, chain and path. *)
Theorem catalog_round_trip (self : LintRunner L) cid ver
    (Hunique : unique_ids self) (Hnonempty : Forall (λ l, id l ≠ []) (lints self)) :
  (ids ← lint_ids_from_catalog (catalog_from_lints (lints self) cid ver);
   filter_to_ids self ids) = Ok self.
Proof.
  rewrite lint_ids_of_catalog by done. cbn [mbind result_bind]. unfold filter_to_ids.
  pose proof (index_by_id_spec (lints self)) as Hm. set (m := index_by_id (lints self)) in *.
  assert (Hslot : ∀ i s, m !! i = Some s ↔ ∃ l, l ∈ lints self ∧ id l = i ∧ s = Some l)
    by (intros; by apply Hm).
  destruct (take_ids m (id <$> lints self)) as [out|e|] eqn:Ht; cbn [mbind result_bind].
  - apply take_ids_Ok in Ht as (Hmem & _ & Hids).
    + assert (out = lints self) as ->; [|by destruct self].
      apply same_ids_same_lints; [done| |].
      * intros l (i & _ & (l' & ? & _ & [= ->])%Hslot)%Hmem. done.
      * apply Hids; [done|]. by intros i _ (l & _ & _ & ?)%Hslot.
    + by intros i l (l' & _ & ? & [= ->])%Hslot.
  - apply take_ids_Err in Ht as (j & i & Hj & _ & Hi & _).
    apply list_elem_of_lookup_2, list_elem_of_fmap in Hj as (l & -> & Hl).
    assert (m !! id l = Some (Some l)) by (apply Hslot; eauto). congruence.
  - by apply take_ids_no_panic in Ht.
Qed.
End catalog.
