(* ===== verification/OscalProfileSpec.v ===== *)
(** * What the resolution of Profiles promises

    [resolve_profile] terminates on every set of documents, cyclic or not, and
    selects exactly the Controls that the chain of imports selects, each once;
    the parameters of an outer Profile come after those of the inner ones. *)
From S2P Require Import Prelude X509 Samples Identity Json LintTypes Deviation OscalParse OscalProfile.
From stdpp Require Import gmap.

#[local] Arguments str : simpl never.

(** ** Which identifiers a filter names *)

(** [x] is in a [with-ids] of the entries. *)
Definition named_in (entries : list Value) (x : bytes) : Prop :=
  ∃ eo ids, Object eo ∈ entries ∧ get (str "with-ids") eo = Some (Array ids) ∧ String x ∈ ids.
Definition wanted (imp : Map) (x : bytes) : Prop :=
  contains_key (str "include-all") imp = true ∨
  ∃ entries, get (str "include-controls") imp = Some (Array entries) ∧ named_in entries x.
Definition unwanted (imp : Map) (x : bytes) : Prop :=
  ∃ entries, get (str "exclude-controls") imp = Some (Array entries) ∧ named_in entries x.

Lemma insert_ids_spec i j acc ids acc' :
  try_fold (insert_with_id i j) acc ids = Ok acc' → ∀ x, x ∈ acc' ↔ x ∈ acc ∨ String x ∈ ids.
Proof.
  revert acc. induction ids as [|v ids IH]; intros acc; cbn [try_fold].
  { intros [= <-] x. rewrite elem_of_nil. tauto. }
  intros Hf. apply bind_Ok in Hf as (acc1 & Hv & Hf). unfold insert_with_id in Hv. inv_ok.
  subst acc1. destruct v; try done. cbn in *. simplify_eq. intros x. rewrite (IH _ Hf x).
  rewrite elem_of_cons, elem_of_union, elem_of_singleton. naive_solver.
Qed.

Lemma with_ids_loop_spec i j entries acc acc' :
  with_ids_loop i j entries acc = Ok acc' → ∀ x, x ∈ acc' ↔ x ∈ acc ∨ named_in entries x.
Proof.
  revert j acc. induction entries as [|e entries IH]; intros j acc; cbn [with_ids_loop].
  { intros [= <-] x. split; [by left|]. intros [?|(eo & ids & ?%elem_of_nil & _)]; done. }
  intros Hf. apply bind_Ok in Hf as (acc1 & He & Hf). intros x. rewrite (IH _ _ Hf x). clear IH Hf.
  assert (Hone : x ∈ acc1 ↔ x ∈ acc ∨ named_in [e] x).
  { unfold with_ids_entry in He. inv_ok. destruct e as [| | | | |eo]; try done. cbn in *. simplify_eq.
    assert (Hn : named_in [Object r] x ↔ ∃ ids, get (str "with-ids") r = Some (Array ids) ∧ String x ∈ ids).
    { unfold named_in. setoid_rewrite list_elem_of_singleton. naive_solver. }
    rewrite Hn. destruct (get (str "with-ids") r) as [v|].
    - inv_ok. destruct v; try done. cbn in *. simplify_eq. rewrite (insert_ids_spec _ _ _ _ _ He x).
      naive_solver.
    - inv_ok. subst. naive_solver. }
  rewrite Hone. unfold named_in. setoid_rewrite elem_of_cons. setoid_rewrite elem_of_nil. naive_solver.
Qed.

Lemma included_ids_spec i imp available inc :
  included_ids i imp available = Ok inc → ∀ x, x ∈ inc ↔ x ∈ available ∧ wanted imp x.
Proof.
  unfold included_ids, wanted. destruct (contains_key (str "include-all") imp).
  { intros [= <-]. naive_solver. }
  destruct (get (str "include-controls") imp) as [v|].
  - intros Hi. inv_ok. destruct v; try done. cbn in *. simplify_eq. intros x.
    rewrite list_elem_of_filter, (with_ids_loop_spec _ _ _ _ _ Hr0 x), elem_of_empty. naive_solver.
  - intros [= <-] x. rewrite elem_of_nil. naive_solver.
Qed.

Lemma excluded_ids_spec i imp ex :
  excluded_ids i imp = Ok ex → ∀ x, x ∈ ex ↔ unwanted imp x.
Proof.
  unfold excluded_ids, unwanted. destruct (get (str "exclude-controls") imp) as [v|].
  - intros Hi. inv_ok. destruct v; try done. cbn in *. simplify_eq. intros x.
    rewrite (with_ids_loop_spec _ _ _ _ _ Hi x), elem_of_empty. naive_solver.
  - intros [= <-] x. rewrite elem_of_empty. naive_solver.
Qed.

(** The identifiers kept so far and the set of those seen. *)
Definition seen_ok (acc : list bytes * gset bytes) : Prop :=
  NoDup acc.1 ∧ ∀ x, x ∈ acc.2 ↔ x ∈ acc.1.

Lemma push_ids_spec ex ids acc :
  seen_ok acc → seen_ok (push_ids ex ids acc) ∧
  ∀ x, x ∈ (push_ids ex ids acc).1 ↔ x ∈ acc.1 ∨ x ∈ ids ∧ x ∉ ex.
Proof.
  revert acc. induction ids as [|i ids IH]; intros acc Hok; cbn [push_ids].
  { split; [done|]. intros x. rewrite elem_of_nil. tauto. }
  case_decide as Hex.
  { destruct (IH acc Hok) as [? Hx]. split; [done|]. intros x. rewrite Hx, elem_of_cons. naive_solver. }
  case_decide as Hseen.
  { destruct (IH acc Hok) as [? Hx]. split; [done|]. intros x. rewrite Hx, elem_of_cons.
    destruct Hok as [_ Hs]. apply Hs in Hseen. naive_solver. }
  destruct Hok as [Hnd Hs]. destruct (IH (acc.1 ++ [i], {[i]} ∪ acc.2)) as [? Hx].
  { split; cbn.
    - apply NoDup_app. split_and!; [done| |apply NoDup_singleton].
      intros x Hin. rewrite list_elem_of_singleton. intros ->. by apply Hseen, Hs.
    - intros x. rewrite elem_of_union, elem_of_singleton, elem_of_app, list_elem_of_singleton, Hs. tauto. }
  split; [done|]. intros x. rewrite Hx. cbn.
  rewrite elem_of_app, list_elem_of_singleton, elem_of_cons. naive_solver.
Qed.

Section resolve_spec.
Context (sources : Sources).

(** ** Selection, by rules

    A document offers the Controls of a Catalog or those that a Profile
    selects; a Profile selects what one of its imports offers, wants and does
    not exclude. *)
Inductive selected : Value → bytes → Prop :=
| selected_import profile prof imports imp href source x :
    value_get (str "profile") profile = Some (Object prof) →
    get (str "imports") prof = Some (Array imports) → Object imp ∈ imports →
    get (str "href") imp = Some (String href) → sources !! href = Some source →
    offered source x → wanted imp x → ¬ unwanted imp x → selected profile x
with offered : Value → bytes → Prop :=
| offered_profile m x :
    contains_key (str "profile") m = true → selected (Object m) x → offered (Object m) x
| offered_catalog m ids x :
    contains_key (str "profile") m = false → contains_key (str "catalog") m = true →
    lint_ids_from_catalog (Object m) = Ok ids → x ∈ ids → offered (Object m) x.

(** What one import selects. *)
Definition import_selects (v : Value) (x : bytes) : Prop :=
  ∃ imp href source, v = Object imp ∧ get (str "href") imp = Some (String href) ∧
    sources !! href = Some source ∧ offered source x ∧ wanted imp x ∧ ¬ unwanted imp x.

Lemma selected_spec profile prof imports x :
  value_get (str "profile") profile = Some (Object prof) →
  get (str "imports") prof = Some (Array imports) →
  selected profile x ↔ ∃ v, v ∈ imports ∧ import_selects v x.
Proof.
  intros Hp Hi. split.
  - intros Hs. destruct Hs as [profile prof' imports' imp href source x Hp' Hi'].
    simplify_eq. exists (Object imp). split; [done|]. by exists imp, href, source.
  - intros (v & Hv & imp & href & source & -> & ? & ? & ? & ? & ?). by econstructor.
Qed.

(** The recursive call does what it promises. *)
Definition rec_ok (rec : Value → Stack → ParseResult (ResolvedProfile * Stack)) : Prop :=
  ∀ profile stack r stack', rec profile stack = Ok (r, stack') →
    stack' = stack ∧ NoDup (control_ids r) ∧ ∀ x, x ∈ control_ids r ↔ selected profile x.

Lemma import_source_spec rec i href stack ids ovs stack' :
  rec_ok rec → import_source sources rec i href stack = Ok (ids, ovs, stack') →
  stack' = stack ∧ ∃ source, sources !! href = Some source ∧ ∀ x, x ∈ ids ↔ offered source x.
Proof.
  intros Hrec Hs. unfold import_source in Hs.
  apply bind_Ok in Hs as (source & Hsrc%ok_or_Ok & Hs).
  apply bind_Ok in Hs as (m & Hm%ok_or_Ok & Hs).
  destruct source as [| | | | |m']; try done. injection Hm as ->.
  destruct (contains_key (str "profile") m) eqn:Hp.
  - apply bind_Ok in Hs as ([] & Hin%fail_if_Ok & Hs). apply bool_decide_eq_false in Hin.
    apply bind_Ok in Hs as ([nested stack1] & Hrun & Hs). injection Hs as <- <- <-.
    destruct (Hrec _ _ _ _ Hrun) as (-> & _ & Hx). split; [set_solver|].
    exists (Object m). split; [done|]. intros x. rewrite Hx. split; [by apply offered_profile|].
    intros Ho. inversion Ho; [done|congruence].
  - destruct (contains_key (str "catalog") m) eqn:Hc; [|done].
    apply bind_Ok in Hs as (cids & Hcat & Hs). injection Hs as <- <- <-.
    split; [done|]. exists (Object m). split; [done|]. intros x. split.
    + intros Hx. by eapply offered_catalog.
    + intros Ho. inversion Ho; congruence.
Qed.

Lemma import_turn_spec rec i v s s' :
  rec_ok rec → seen_ok (is_control_ids s, is_seen_ids s) → import_turn sources rec i v s = Ok s' →
  is_stack s' = is_stack s ∧ seen_ok (is_control_ids s', is_seen_ids s') ∧
  ∀ x, x ∈ is_control_ids s' ↔ x ∈ is_control_ids s ∨ import_selects v x.
Proof.
  intros Hrec Hok Hs. unfold import_turn in Hs.
  apply bind_Ok in Hs as (imp & Himp%ok_or_Ok & Hs).
  destruct v as [| | | | |m]; try done. injection Himp as ->.
  apply bind_Ok in Hs as (href & Hh & Hs). apply bind_Ok in Hs as ([[ids ovs] stack] & Hsrc & Hs).
  apply bind_Ok in Hs as (inc & Hinc & Hs). apply bind_Ok in Hs as (ex & Hex & Hs).
  destruct (import_source_spec _ _ _ _ _ _ _ Hrec Hsrc) as (-> & source & Hl & Hoff).
  destruct (push_ids_spec ex inc _ Hok) as [Hseen Hx].
  destruct (push_ids ex inc _) as [ids' seen']. injection Hs as <-. cbn [is_stack is_control_ids is_seen_ids] in *.
  split_and!; [done..|]. intros x. cbn [fst snd] in *. rewrite Hx.
  rewrite (included_ids_spec _ _ _ _ Hinc x), (excluded_ids_spec _ _ _ Hex x), Hoff.
  assert (Hg : get (str "href") imp = Some (String href)).
  { unfold import_href in Hh. apply bind_Ok in Hh as (hv & Hg%ok_or_Ok & Hh).
    apply bind_Ok in Hh as (h & Hstr%ok_or_Ok & Hh). apply bind_Ok in Hh as (? & _ & [= ->]).
    destruct hv; try done. by injection Hstr as ->. }
  unfold import_selects. split.
  - intros [?|[[? ?] ?]]; [by left|]. right. by exists imp, href, source.
  - intros [?|(imp' & href' & source' & [= <-] & Hg' & Hl' & ? & ? & ?)]; [by left|right].
    rewrite Hg in Hg'. injection Hg' as <-. rewrite Hl in Hl'. injection Hl' as <-. tauto.
Qed.

Lemma imports_loop_spec rec i imports s s' :
  rec_ok rec → seen_ok (is_control_ids s, is_seen_ids s) →
  imports_loop sources rec i imports s = Ok s' →
  is_stack s' = is_stack s ∧ seen_ok (is_control_ids s', is_seen_ids s') ∧
  ∀ x, x ∈ is_control_ids s' ↔ x ∈ is_control_ids s ∨ ∃ v, v ∈ imports ∧ import_selects v x.
Proof.
  intros Hrec. revert i s. induction imports as [|v imports IH]; intros i s Hok; cbn [imports_loop].
  { intros [= <-]. split_and!; [done..|]. intros x. setoid_rewrite elem_of_nil. naive_solver. }
  intros Hs. apply bind_Ok in Hs as (s1 & H1 & Hs).
  destruct (import_turn_spec _ _ _ _ _ Hrec Hok H1) as (Hst & Hok1 & Hx1).
  destruct (IH _ _ Hok1 Hs) as (Hst' & Hok' & Hx'). split_and!; [congruence|done|].
  intros x. rewrite Hx', Hx1. setoid_rewrite elem_of_cons. naive_solver.
Qed.

Lemma resolve_body_ok rec : rec_ok rec → rec_ok (resolve_body sources rec).
Proof.
  intros Hrec profile stack r stack' Hr. unfold resolve_body in Hr.
  apply bind_Ok in Hr as (m & Hm%ok_or_Ok & Hr). apply bind_Ok in Hr as (prof & Hp%ok_or_Ok & Hr).
  apply bind_Ok in Hr as ([] & _ & Hr). apply bind_Ok in Hr as (imports & Hi%ok_or_Ok & Hr).
  apply bind_Ok in Hr as (s & Hs & Hr). apply bind_Ok in Hr as (own & _ & [= <- <-]).
  assert (Hok : seen_ok ([], ∅)) by (split; [apply NoDup_nil_2|intros y; cbn; set_solver]).
  apply imports_loop_spec in Hs as (Hst & [Hnd _] & Hx); [|done|exact Hok]. cbn in Hst, Hnd.
  split_and!; [done..|]. intros x. cbn [control_ids]. rewrite Hx. cbn [is_control_ids].
  apply bind_Some in Hp as (pv & Hpg & Hpo), Hi as (iv & Hig & Hio).
  destruct profile as [| | | | |m']; try done. injection Hm as ->.
  destruct pv as [| | | | |prof']; try done. injection Hpo as ->.
  destruct iv as [| | | |imports'|]; try done. injection Hio as ->.
  rewrite (selected_spec (Object m) prof imports) by done. rewrite elem_of_nil. tauto.
Qed.

Lemma resolve_inner_ok fuel : rec_ok (resolve_profile_inner sources fuel).
Proof.
  induction fuel as [|fuel IH]; [by intros ????|]. cbn [resolve_profile_inner]. by apply resolve_body_ok.
Qed.

(** ** Termination: the stack holds distinct documents of [sources] *)
Definition room (stack : Stack) : nat := size (dom sources ∖ stack).

Lemma room_push href stack :
  is_Some (sources !! href) → href ∉ stack → room ({[href]} ∪ stack) < room stack.
Proof.
  intros Hs Hn. apply elem_of_dom in Hs. unfold room. apply subset_size. split; [set_solver|].
  intros Hsub. assert (href ∈ dom sources ∖ ({[href]} ∪ stack)); set_solver.
Qed.

Lemma no_panic_control_ids i l : no_panic (control_ids_loop i l).
Proof.
  revert i. induction l as [|c l IH]; intros i; cbn [control_ids_loop]; [done|].
  apply no_panic_bind; [unfold control_id; solve_no_panic|intros ? _].
  apply no_panic_bind; [apply IH|done].
Qed.

Lemma no_panic_lint_ids v : no_panic (lint_ids_from_catalog v).
Proof.
  unfold lint_ids_from_catalog, check_oscal_version.
  repeat (apply no_panic_bind; [solve_no_panic|intros ? _]). apply no_panic_control_ids.
Qed.

Lemma no_panic_insert_ids i j acc ids : no_panic (try_fold (insert_with_id i j) acc ids).
Proof.
  revert acc. induction ids as [|v ids IH]; intros acc; cbn [try_fold]; [done|].
  apply no_panic_bind; [unfold insert_with_id; solve_no_panic|auto].
Qed.

Lemma no_panic_with_ids i j entries acc : no_panic (with_ids_loop i j entries acc).
Proof.
  revert j acc. induction entries as [|e entries IH]; intros j acc; cbn [with_ids_loop]; [done|].
  apply no_panic_bind; [|auto]. unfold with_ids_entry.
  apply no_panic_bind; [auto with pkix|intros m _]. destruct (get _ m); [|done].
  apply no_panic_bind; [auto with pkix|intros; apply no_panic_insert_ids].
Qed.

Lemma no_panic_own prof : no_panic (own_overrides prof).
Proof.
  unfold own_overrides. destruct (_ ≫= _) as [modify|]; [|done]. destruct (get _ modify); [|done].
  apply no_panic_bind; [auto with pkix|intros entries _]. generalize 0 as i.
  induction entries as [|e entries IH]; intros i; cbn [set_parameters_loop]; [done|].
  apply no_panic_bind; [unfold set_parameter_entry; solve_no_panic|intros ? _].
  apply no_panic_bind; [apply IH|done].
Qed.

Lemma no_panic_import_turn rec i v s n :
  (∀ p st, room st < n → no_panic (rec p st)) → room (is_stack s) ≤ n →
  no_panic (import_turn sources rec i v s).
Proof.
  intros Hrec Hroom. unfold import_turn. apply no_panic_bind; [auto with pkix|intros imp _].
  apply no_panic_bind; [unfold import_href; solve_no_panic|intros href _].
  apply no_panic_bind.
  - unfold import_source. apply no_panic_bind; [auto with pkix|intros source Hs%ok_or_Ok].
    apply no_panic_bind; [auto with pkix|intros m _]. destruct (contains_key _ m).
    + apply no_panic_bind; [auto with pkix|intros [] Hin%fail_if_Ok].
      apply bool_decide_eq_false in Hin. apply no_panic_bind; [|by intros []].
      apply Hrec. eapply Nat.lt_le_trans; [|exact Hroom]. by apply room_push.
    + destruct (contains_key _ m); [|done]. apply no_panic_bind; [apply no_panic_lint_ids|done].
  - intros [[ids ovs] stack] _. apply no_panic_bind.
    + unfold included_ids. destruct (contains_key _ imp); [done|]. destruct (get _ imp); [|done].
      apply no_panic_bind; [auto with pkix|intros entries _].
      apply no_panic_bind; [apply no_panic_with_ids|done].
    + intros inc _. apply no_panic_bind.
      * unfold excluded_ids. destruct (get _ imp); [|done].
        apply no_panic_bind; [auto with pkix|intros; apply no_panic_with_ids].
      * intros ex _. by destruct (push_ids _ _ _).
Qed.

Lemma no_panic_imports_loop rec i imports s n :
  rec_ok rec → (∀ p st, room st < n → no_panic (rec p st)) → room (is_stack s) ≤ n →
  seen_ok (is_control_ids s, is_seen_ids s) → no_panic (imports_loop sources rec i imports s).
Proof.
  intros Hok Hrec. revert i s. induction imports as [|v imports IH]; intros i s Hroom Hseen;
    cbn [imports_loop]; [done|].
  apply no_panic_bind; [by eapply no_panic_import_turn|]. intros s1 H1.
  destruct (import_turn_spec _ _ _ _ _ Hok Hseen H1) as (Hst & Hseen1 & _).
  apply IH; [by rewrite Hst|done].
Qed.

Lemma resolve_inner_no_panic fuel profile stack :
  room stack < fuel → no_panic (resolve_profile_inner sources fuel profile stack).
Proof.
  revert profile stack. induction fuel as [|fuel IH]; intros profile stack Hroom; [lia|].
  cbn [resolve_profile_inner]. unfold resolve_body.
  do 2 (apply no_panic_bind; [auto with pkix|intros ? _]).
  apply no_panic_bind; [unfold check_oscal_version; solve_no_panic|intros ? _].
  apply no_panic_bind; [auto with pkix|intros imports _].
  apply no_panic_bind; [|intros; apply no_panic_bind; [apply no_panic_own|done]].
  apply (no_panic_imports_loop _ _ _ _ fuel); [apply resolve_inner_ok|exact IH|cbn; lia|].
  split; [apply NoDup_nil_2|intros y; cbn; set_solver].
Qed.

(** C30: resolving a Profile terminates for every set of documents, even one
    where Profiles import each other in a circle (one level of recursion for
    each document and one for the Profile itself is enough), and never panics.
    When it succeeds it lists, each once, exactly the Controls that the rules
    of selection give: those that a Catalog or a nested Profile offers, that
    the import wants and does not exclude. *)
Theorem resolve_profile_correct profile :
  match resolve_profile sources profile with
  | Ok r => NoDup (control_ids r) ∧ ∀ x, x ∈ control_ids r ↔ selected profile x
  | Err _ => True
  | Panic => False
  end.
Proof.
  assert (Hp : no_panic (resolve_profile_inner sources (S (size sources)) profile ∅)).
  { apply resolve_inner_no_panic. unfold room. rewrite difference_empty_L, size_dom. lia. }
  unfold resolve_profile.
  destruct (resolve_profile_inner sources (S (size sources)) profile ∅) as [[r st]| |] eqn:Hr; [|done..].
  apply resolve_inner_ok in Hr as (_ & ? & ?). done.
Qed.

(** The parameters of the Profile itself come last, so they take effect. *)
Lemma own_overrides_last fuel profile stack r stack' :
  resolve_profile_inner sources fuel profile stack = Ok (r, stack') →
  ∃ prof own inner, value_get (str "profile") profile = Some (Object prof) ∧
    own_overrides prof = Ok own ∧ parameter_overrides r = inner ++ own.
Proof.
  destruct fuel as [|fuel]; [done|]. cbn [resolve_profile_inner]. unfold resolve_body. intros Hr.
  apply bind_Ok in Hr as (m & Hm%ok_or_Ok & Hr). apply bind_Ok in Hr as (prof & Hp%ok_or_Ok & Hr).
  apply bind_Ok in Hr as (? & _ & Hr). apply bind_Ok in Hr as (imports & Hi%ok_or_Ok & Hr).
  apply bind_Ok in Hr as (s & Hs & Hr). apply bind_Ok in Hr as (own & Hown & [= <- <-]).
  exists prof, own, (is_overrides s). split_and!; [|done..].
  unfold value_get. rewrite Hm. apply bind_Some in Hp as (pv & -> & Hpo).
  destruct pv; try done. by injection Hpo as ->.
Qed.
End resolve_spec.

(** ** Examples: a nested Profile, and a circle of Profiles *)
Module ProfileSample.
Definition text (s : string) : Value := String (str s).
Definition doc (m : list (string * Value)) : Value := Object ((λ p, (str p.1, p.2)) <$> m).
Definition metadata : string * Value := ("metadata"%string, doc [("oscal-version"%string, text "1.1.2")]).
Definition catalog : Value := doc [("catalog"%string, doc [metadata;
  ("controls"%string, Array [doc [("id"%string, text "a")]; doc [("id"%string, text "b")];
                             doc [("id"%string, text "c")]])])].
Definition with_ids (ids : list string) : Value :=
  Array [doc [("with-ids"%string, Array (text <$> ids))]].
Definition profile_of (imports : list Value) (value : string) : Value :=
  doc [("profile"%string, doc [metadata; ("imports"%string, Array imports);
    ("modify"%string, doc [("set-parameters"%string, Array [doc
      [("param-id"%string, text "a.p"); ("values"%string, Array [text value])]])])])].
Definition inner_profile : Value :=
  profile_of [doc [("href"%string, text "cat"); ("include-controls"%string, with_ids ["a"; "c"; "z"])]] "1".
Definition outer_profile : Value :=
  profile_of [doc [("href"%string, text "inner"); ("include-all"%string, Null);
                   ("exclude-controls"%string, with_ids ["c"])];
              doc [("href"%string, text "cat"); ("include-all"%string, Null)]] "2".
Definition docs : Sources := {[ str "cat" := catalog; str "inner" := inner_profile ]}.

Definition over (v : string) : ParameterOverride :=
  {| over_param_id := str "a.p"; over_value := str v |}.

Example nested :
  resolve_profile docs outer_profile =
  Ok {| control_ids := [str "a"; str "b"; str "c"]; parameter_overrides := [over "1"; over "2"] |}.
Proof. vm_compute. reflexivity. Qed.

Definition circle : Value := profile_of [doc [("href"%string, text "self"); ("include-all"%string, Null)]] "1".
Example circular :
  resolve_profile {[ str "self" := circle ]} circle = Err (ProfileImportCycle (str "self")).
Proof. vm_compute. reflexivity. Qed.
End ProfileSample.
