(* ===== verification/TimeSpec.v ===== *)
(** * The calendar of the OSCAL documents

    [unix_to_rfc3339] of pkix-lint inverts the reading of such times in pkix-ct
    ([parse_rfc3339_to_unix_ms]), which is related to the calendar by
    [days_from_civil_correct]. *)
From S2P Require Import Prelude X509 Identity Merkle Sct CtLogList LintTypes OscalEmit.

Local Open Scope Z_scope.

(** The year of the era and the day of its year, counted from March. *)
Lemma civil_bounds doe :
  0 ≤ doe ≤ 146096 →
  let yoe := (doe - doe / 1460 + doe / 36524 - doe / 146096) / 365 in
  let doy := doe - (365 * yoe + yoe / 4 - yoe / 100) in
  0 ≤ yoe ≤ 399 ∧ 0 ≤ doy ≤ 365.
Proof.
  intros Hdoe yoe doy. subst yoe doy. Z.to_euclidean_division_equations. lia.
Qed.

(** The date of a day number, as the source computes it. *)
Definition civil_from_days (days : Z) : Z * Z * Z :=
  let z := days + 719468 in
  let era := z / 146097 in
  let doe := z - era * 146097 in
  let yoe := (doe - doe / 1460 + doe / 36524 - doe / 146096) / 365 in
  let doy := doe - (365 * yoe + yoe / 4 - yoe / 100) in
  let mp := (5 * doy + 2) / 153 in
  let m := if decide (mp < 10) then mp + 3 else mp - 9 in
  let y := yoe + era * 400 in
  (if decide (m ≤ 2) then y + 1 else y, m, doy - (153 * mp + 2) / 5 + 1).

Lemma civil_from_days_correct days :
  0 ≤ days → let '(y, m, d) := civil_from_days days in
  0 ≤ y ∧ 1 ≤ m ≤ 12 ∧ 1 ≤ d ≤ 31 ∧ days_from_civil y m d = Ok days.
Proof.
  intros Hdays. unfold civil_from_days. cbv zeta.
  set (z := days + 719468). set (era := z / 146097). set (doe := z - era * 146097).
  assert (Hera : 0 ≤ era) by (apply Z.div_pos; lia).
  assert (Hdoe : 0 ≤ doe ≤ 146096).
  { unfold doe, era. pose proof (Z.mod_eq z 146097 ltac:(lia)).
    pose proof (Z.mod_pos_bound z 146097 ltac:(lia)). lia. }
  pose proof (civil_bounds doe Hdoe) as Hb. cbv zeta in Hb. revert Hb.
  set (yoe := (doe - doe / 1460 + doe / 36524 - doe / 146096) / 365).
  set (doy := doe - (365 * yoe + yoe / 4 - yoe / 100)). intros [Hyoe Hdoy].
  set (mp := (5 * doy + 2) / 153).
  assert (Hmp : 0 ≤ mp ≤ 11) by (unfold mp; Z.to_euclidean_division_equations; lia).
  assert (Hd : 1 ≤ doy - (153 * mp + 2) / 5 + 1 ≤ 31)
    by (unfold mp; Z.to_euclidean_division_equations; lia).
  set (m := if decide (mp < 10) then mp + 3 else mp - 9).
  assert (Hm : 1 ≤ m ≤ 12) by (unfold m; case_decide; lia).
  set (y := yoe + era * 400).
  assert (Hy : 0 ≤ (if decide (m ≤ 2) then y + 1 else y)) by (unfold y; case_decide; lia).
  split_and!; try lia; try done.
  rewrite days_from_civil_formula by lia. f_equal.
  assert (Hyy : (if decide (m ≤ 2) then (if decide (m ≤ 2) then y + 1 else y) - 1
                 else if decide (m ≤ 2) then y + 1 else y) = y) by (case_decide; lia).
  rewrite Hyy. unfold march_days, day_of_year.
  assert (Hmm : (if decide (2 < m) then m - 3 else m + 9) = mp).
  { unfold m. repeat case_decide; lia. }
  rewrite Hmm.
  assert (Hye : y / 4 - y / 100 + y / 400 = yoe / 4 - yoe / 100 + era * 97).
  { unfold y. Z.to_euclidean_division_equations. lia. }
  unfold doy, doe, z, y in *. lia.
Qed.

Lemma civil_year_bound days :
  0 ≤ days ≤ 2932896 → (civil_from_days days).1.1 < 10000.
Proof.
  intros Hdays. unfold civil_from_days. cbv zeta. cbn [fst].
  set (z := days + 719468). set (era := z / 146097). set (doe := z - era * 146097).
  assert (Hera : 0 ≤ era ≤ 24) by (unfold era, z; Z.to_euclidean_division_equations; lia).
  assert (Hdoe : 0 ≤ doe ≤ 146096).
  { unfold doe, era. pose proof (Z.mod_eq z 146097 ltac:(lia)).
    pose proof (Z.mod_pos_bound z 146097 ltac:(lia)). lia. }
  pose proof (civil_bounds doe Hdoe) as [Hyoe Hdoy].
  set (yoe := (doe - doe / 1460 + doe / 36524 - doe / 146096) / 365) in *.
  set (doy := doe - (365 * yoe + yoe / 4 - yoe / 100)) in *.
  set (mp := (5 * doy + 2) / 153).
  assert (Hlast : era = 24 → yoe = 399 → doy ≤ 305).
  { intros He Hyo. unfold doy. rewrite Hyo.
    change (399 / 4) with 99. change (399 / 100) with 3. unfold doe. rewrite He. unfold z. lia. }
  assert (Hmp : doy ≤ 305 → mp < 10) by (unfold mp; intros; apply Z.div_lt_upper_bound; lia).
  assert (Hmp0 : 0 ≤ mp) by (apply Z.div_pos; lia).
  clearbody mp doy yoe era. repeat case_decide; lia.
Qed.

(** ** Digits *)
Lemma fmt_digits_last fuel n acc : (n < 10)%N →
  fmt_digits (S fuel) 10 n acc = (48 + n)%N :: acc.
Proof.
  intros Hn. cbn [fmt_digits]. rewrite N.mod_small, !decide_True by done. done.
Qed.
Lemma fmt_digits_next fuel n acc : (10 ≤ n)%N →
  fmt_digits (S fuel) 10 n acc = fmt_digits fuel 10 (n / 10) ((48 + n mod 10)%N :: acc).
Proof.
  intros Hn. cbn [fmt_digits]. rewrite (decide_True (P := (n mod 10 < 10)%N)).
  - rewrite decide_False by lia. done.
  - apply N.mod_lt. lia.
Qed.

Ltac digits :=
  repeat apply (f_equal2 cons); try reflexivity; zify; Z.to_euclidean_division_equations; lia.

Lemma fmt_pad_2_digits n : (n < 100)%N →
  fmt_pad 2 (Z.of_N n) = [48 + n / 10; 48 + n mod 10]%N.
Proof.
  intros Hn. unfold fmt_pad, fmt_u64. rewrite N2Z.id.
  destruct (decide (n < 10)%N); [rewrite fmt_digits_last by done; cbn [length replicate Nat.sub app]; digits|].
  rewrite fmt_digits_next by lia. rewrite fmt_digits_last; [|zify; Z.to_euclidean_division_equations; lia].
  cbn [length replicate Nat.sub app]. digits.
Qed.

Lemma fmt_pad_4_digits n : (n < 10000)%N →
  fmt_pad 4 (Z.of_N n) = [48 + n / 1000; 48 + n / 100 mod 10; 48 + n / 10 mod 10; 48 + n mod 10]%N.
Proof.
  intros Hn. unfold fmt_pad, fmt_u64. rewrite N2Z.id.
  destruct (decide (n < 10)%N); [rewrite fmt_digits_last by done; cbn [length replicate Nat.sub app]; digits|].
  rewrite fmt_digits_next by lia.
  destruct (decide (n / 10 < 10)%N); [rewrite fmt_digits_last by done; cbn [length replicate Nat.sub app]; digits|].
  rewrite fmt_digits_next by lia.
  destruct (decide (n / 10 / 10 < 10)%N); [rewrite fmt_digits_last by done; cbn [length replicate Nat.sub app]; digits|].
  rewrite fmt_digits_next by lia.
  rewrite fmt_digits_last; [|zify; Z.to_euclidean_division_equations; lia].
  cbn [length replicate Nat.sub app]. digits.
Qed.

(** Decimal digits are read as the number they write. *)
Lemma parse_digits_step out d b : (d < 10)%N → (out * 10 + d < 4294967296)%N →
  parse_digits_loop out ((48 + d)%N :: b) = parse_digits_loop (out * 10 + d) b.
Proof.
  intros Hd Hv. cbn [parse_digits_loop]. rewrite bool_decide_true by lia. cbn [negb].
  unfold u32_max. rewrite (decide_True (P := (out * 10 ≤ _)%N)) by lia.
  replace (48 + d - 48)%N with d by lia. by rewrite decide_True by lia.
Qed.

Lemma fmt_pad_2 n : 0 ≤ n < 100 →
  length (fmt_pad 2 n) = 2%nat ∧ parse_digits (fmt_pad 2 n) = Ok (Z.to_N n).
Proof.
  intros Hn. replace n with (Z.of_N (Z.to_N n)) at 1 2 by lia. set (k := Z.to_N n).
  assert (k < 100)%N by lia. rewrite fmt_pad_2_digits by done. split; [done|].
  unfold parse_digits. rewrite !parse_digits_step by (zify; Z.to_euclidean_division_equations; lia).
  cbn [parse_digits_loop]. f_equal. zify. Z.to_euclidean_division_equations. lia.
Qed.

Lemma fmt_pad_4 n : 0 ≤ n < 10000 →
  length (fmt_pad 4 n) = 4%nat ∧ parse_digits (fmt_pad 4 n) = Ok (Z.to_N n).
Proof.
  intros Hn. replace n with (Z.of_N (Z.to_N n)) at 1 2 by lia. set (k := Z.to_N n).
  assert (k < 10000)%N by lia. rewrite fmt_pad_4_digits by done. split; [done|].
  unfold parse_digits. rewrite !parse_digits_step by (zify; Z.to_euclidean_division_equations; lia).
  cbn [parse_digits_loop]. f_equal. zify. Z.to_euclidean_division_equations. lia.
Qed.

(** The fields of a time, in the layout of the text. *)
Definition time_text (y m d hh mm ss : Z) : bytes :=
  fmt_pad 4 y ++ str "-" ++ fmt_pad 2 m ++ str "-" ++ fmt_pad 2 d ++ str "T" ++
  fmt_pad 2 hh ++ str ":" ++ fmt_pad 2 mm ++ str ":" ++ fmt_pad 2 ss ++ str "Z".

Lemma length_2 {A} (l : list A) : length l = 2%nat → ∃ a b, l = [a; b].
Proof. destruct l as [|a [|b [|]]]; try done. by exists a, b. Qed.
Lemma length_4 {A} (l : list A) : length l = 4%nat → ∃ a b c d, l = [a; b; c; d].
Proof. destruct l as [|a [|b [|c [|d [|]]]]]; try done. by exists a, b, c, d. Qed.

Lemma ok_bind {A B} (a : A) (k : A → CtResult B) : Ok a ≫= k = k a.
Proof. done. Qed.

Lemma parse_time_text y m d hh mm ss days :
  0 ≤ y < 10000 → 1 ≤ m ≤ 12 → 1 ≤ d ≤ 31 → 0 ≤ hh < 24 → 0 ≤ mm < 60 → 0 ≤ ss < 60 →
  0 ≤ days → days_from_civil y m d = Ok days →
  parse_rfc3339_to_unix_ms (time_text y m d hh mm ss) =
    Ok (Z.to_N (days * 86400 + hh * 3600 + mm * 60 + ss) * 1000)%N.
Proof.
  intros Hy Hm Hd Hh Hmm Hs Hdays Hciv. unfold time_text.
  destruct (fmt_pad_4 y Hy) as [Hl1 Hp1]. destruct (fmt_pad_2 m ltac:(lia)) as [Hl2 Hp2].
  destruct (fmt_pad_2 d ltac:(lia)) as [Hl3 Hp3]. destruct (fmt_pad_2 hh ltac:(lia)) as [Hl4 Hp4].
  destruct (fmt_pad_2 mm ltac:(lia)) as [Hl5 Hp5]. destruct (fmt_pad_2 ss ltac:(lia)) as [Hl6 Hp6].
  apply length_4 in Hl1 as (y1 & y2 & y3 & y4 & Ey). rewrite Ey in *.
  apply length_2 in Hl2 as (m1 & m2 & Em), Hl3 as (d1 & d2 & Ed), Hl4 as (h1 & h2 & Eh),
    Hl5 as (n1 & n2 & En), Hl6 as (s1 & s2 & Es).
  rewrite Em, Ed, Eh, En, Es in *. clear Ey Em Ed Eh En Es.
  set (t := _ ++ _).
  assert (F1 : sub_bytes 0 4 t = Ok [y1; y2; y3; y4]) by reflexivity.
  assert (F2 : sub_bytes 5 7 t = Ok [m1; m2]) by reflexivity.
  assert (F3 : sub_bytes 8 10 t = Ok [d1; d2]) by reflexivity.
  assert (F4 : sub_bytes 11 13 t = Ok [h1; h2]) by reflexivity.
  assert (F5 : sub_bytes 14 16 t = Ok [n1; n2]) by reflexivity.
  assert (F6 : sub_bytes 17 19 t = Ok [s1; s2]) by reflexivity.
  assert (F7 : (index t 19 : CtResult N) = Ok 90%N) by reflexivity.
  assert (F8 : bool_decide (length t < 20)%nat || negb (bool_decide (t !! 10%nat = Some 84%N))
     || negb (bool_decide (last t = Some 90%N)) = false) by reflexivity.
  unfold parse_rfc3339_to_unix_ms. rewrite F8, F1, F2, F3, F4, F5, F6, F7.
  clearbody t. rewrite ?ok_bind, Hp1, ?ok_bind, Hp2, ?ok_bind, Hp3, ?ok_bind, Hp4, ?ok_bind, Hp5,
    ?ok_bind, Hp6, ?ok_bind.
  rewrite (decide_False (P := 90%N = 46%N)) by done.
  rewrite (decide_False (P := 90%N ≠ 90%N)) by (intros []; done). rewrite ?ok_bind.
  rewrite !Z2N.id by lia. rewrite Hciv, ?ok_bind. cbv zeta.
  rewrite decide_False by lia. f_equal. lia.
Qed.

Lemma unix_to_rfc3339_text unix : (unix ≤ i64_max)%N →
  let days := Z.of_N unix / 86400 in let s := Z.of_N unix mod 86400 in
  let '(y, m, d) := civil_from_days days in
  unix_to_rfc3339 unix = time_text y m d (s / 3600) (s mod 3600 / 60) (s mod 60).
Proof.
  intros Hmax. unfold unix_to_rfc3339. rewrite N.min_l by done. cbv zeta.
  set (days := Z.of_N unix / 86400). set (s := Z.of_N unix mod 86400).
  assert (Hdays : 0 ≤ days) by (apply Z.div_pos; lia).
  assert (Hs : 0 ≤ s) by (apply Z.mod_pos_bound; lia).
  unfold civil_from_days, time_text. cbv zeta.
  rewrite (decide_True (P := 0 ≤ days + 719468)) by lia.
  rewrite (Z.quot_div_nonneg (days + 719468)) by lia.
  set (z := days + 719468). set (era := z / 146097). set (doe := z - era * 146097).
  assert (Hdoe : 0 ≤ doe ≤ 146096).
  { unfold doe, era. pose proof (Z.mod_eq z 146097 ltac:(lia)).
    pose proof (Z.mod_pos_bound z 146097 ltac:(lia)). lia. }
  pose proof (civil_bounds doe Hdoe) as [Hyoe Hdoy].
  rewrite !(Z.quot_div_nonneg doe) by lia.
  rewrite (Z.quot_div_nonneg (doe - doe / 1460 + doe / 36524 - doe / 146096)).
  2: { Z.to_euclidean_division_equations. lia. } 2: lia.
  set (yoe := (doe - doe / 1460 + doe / 36524 - doe / 146096) / 365) in *.
  rewrite !(Z.quot_div_nonneg yoe) by lia.
  set (doy := doe - (365 * yoe + yoe / 4 - yoe / 100)) in *.
  rewrite (Z.quot_div_nonneg (5 * doy + 2)) by lia.
  set (mp := (5 * doy + 2) / 153).
  assert (Hmp : 0 ≤ mp) by (apply Z.div_pos; lia).
  rewrite (Z.quot_div_nonneg (153 * mp + 2)) by lia.
  rewrite !(Z.rem_mod_nonneg s) by lia.
  rewrite (Z.quot_div_nonneg s) by lia.
  rewrite (Z.quot_div_nonneg (s mod 3600)); [done| |lia].
  apply Z.mod_pos_bound. lia.
Qed.

(** (round trip) the time of an OSCAL document, for every second of the
    years 1970 to 9999, is RFC 3339 text that the reader of pkix-ct maps back
    to the same second. *)
Theorem unix_to_rfc3339_round_trip unix (Hrange : (unix ≤ 253402300799)%N) :
  parse_rfc3339_to_unix_ms (unix_to_rfc3339 unix) = Ok (unix * 1000)%N.
Proof.
  pose proof (unix_to_rfc3339_text unix ltac:(unfold i64_max; lia)) as Ht. cbv zeta in Ht.
  set (days := Z.of_N unix / 86400) in *. set (s := Z.of_N unix mod 86400) in *.
  assert (Hd : 0 ≤ days ≤ 2932896) by (unfold days; Z.to_euclidean_division_equations; lia).
  assert (Hs : 0 ≤ s < 86400) by (apply Z.mod_pos_bound; lia).
  pose proof (civil_from_days_correct days ltac:(lia)) as Hc.
  pose proof (civil_year_bound days ltac:(lia)) as Hy.
  destruct (civil_from_days days) as [[y m] d]. cbn in Hy.
  destruct Hc as (Hy0 & Hm & Hdd & Hciv). rewrite Ht.
  rewrite (parse_time_text _ _ _ _ _ _ days); [|lia|done|done| | | |lia|done].
  - f_equal. f_equal. unfold days, s in *. Z.to_euclidean_division_equations. lia.
  - Z.to_euclidean_division_equations. lia.
  - Z.to_euclidean_division_equations. lia.
  - apply Z.mod_pos_bound. lia.
Qed.

Lemma unix_to_rfc3339_round_trip_witness :
  parse_rfc3339_to_unix_ms (unix_to_rfc3339 1700000000) = Ok 1700000000000%N.
Proof. apply (unix_to_rfc3339_round_trip 1700000000). lia. Defined.
