(* ===== verification/LintExamples.v ===== *)
(** * A bundle, a policy and a certificate

    The shipped lints and a policy of one deviation on concrete certificates,
    with toy decoders: the theorems on lints, deviations and documents applied
    where their hypotheses hold. *)
From S2P Require Import Prelude X509 PathTypes Verifier Samples LintTypes Json Deviation OscalParse OscalProfile LintRunner DeviationRunner LintRules OscalEmit LintSpec HexSpec LintRulesSpec DeviationSpec OscalSpec.

#[local] Instance ex_sha : Sha256 := pad32.
#[local] Instance ex_encode : Encode Certificate := λ c, inr (serial_number (tbs_certificate c)).
#[local] Instance ex_name_text : NameText := {|
  name_display := λ _, str "CN=x";
  to_lowercase := λ s, (λ c, if decide (65 ≤ c ≤ 90)%N then (c + 32)%N else c) <$> s |}.
#[local] Instance ex_name : DecodeOwned Name := λ b, inr [
  [{| ava_oid := [2; 5; 4; 3]%N; ava_value := {| any_tag := Utf8String; any_value := b |} |}]].
#[local] Instance ex_bc : DecodeOwned BasicConstraints := decode_basic_constraints.
#[local] Instance ex_eku : DecodeOwned ExtendedKeyUsage := decode_extended_key_usage.
#[local] Instance ex_san : DecodeOwned SubjectAltName := decode_subject_alt_name.
#[local] Instance ex_lib : LintLib := {|
  domain_to_ascii_utf8 := Some; utf8_string_ref := λ a, Some (any_value a);
  oid_to_string := λ _, [] |}.

(** Two lints, in the order of a bundle. *)
Definition max_serial_lint : ShippedLint := Rfc5280MaxSerialLengthLint MAX_SERIAL_DEFAULT.
Definition bundle : LintRunner ShippedLint := {|
  lints := [max_serial_lint; Rfc5280BasicConstraintsCaLeafLint];
  bundle_version := str "1" |}.

Lemma bundle_unique : unique_ids bundle.
Proof. apply (bool_decide_unpack _). vm_compute. exact I. Qed.

(** An authority that is presented as a leaf, with a serial number of one octet. *)
Definition ca_as_leaf : Certificate := sample_ca "i" "s" 7 [].

Example bundle_runs :
  finding_result <$> run_cert bundle ca_as_leaf KindLeaf 0 150 =
    [LintPass; bc_ca_leaf_check ca_as_leaf].
Proof. vm_compute. reflexivity. Qed.

(** ** Selection and parameters *)
Definition selection : list bytes := [id Rfc5280BasicConstraintsCaLeafLint].

Lemma filter_to_ids_correct_witness :
  match filter_to_ids bundle selection with
  | Ok r => unique_ids r ∧ (NoDup selection → id <$> lints r = selection)
  | _ => False
  end.
Proof.
  pose proof (filter_to_ids_correct bundle selection bundle_unique) as Hf.
  destruct (filter_to_ids bundle selection) as [r|e|] eqn:Hr; [|vm_compute in Hr; discriminate Hr|done].
  destruct Hf as (Hu & _ & _ & Hids). exact (conj Hu Hids).
Defined.

(** The override of the cap, by the name of the parameter and the value. *)
Definition cap_override (v : string) : list ParameterOverride :=
  [{| over_param_id := str "rfc5280.cert.serial_number.max_octets.max-octets";
      over_value := str v |}].

Example cap_lowered :
  (apply_parameter_overrides bundle (cap_override "19")).2 = Ok tt ∧
  lints (apply_parameter_overrides bundle (cap_override "19")).1 =
    [Rfc5280MaxSerialLengthLint 19; Rfc5280BasicConstraintsCaLeafLint].
Proof. split; vm_compute; reflexivity. Qed.

Lemma max_octets_invariant_witness :
  cap_ok max_serial_lint ∧ cap_ok (set_parameter max_serial_lint (str "max-octets") (str "22")).1.
Proof.
  assert (Hcap : cap_ok max_serial_lint) by (vm_compute; split; discriminate).
  split; [exact Hcap|].
  pose proof (max_octets_invariant max_serial_lint (str "max-octets") (str "22") Hcap) as Hm.
  destruct (set_parameter max_serial_lint (str "max-octets") (str "22")) as [l' r]. exact (proj1 Hm).
Defined.

Lemma apply_parameter_overrides_correct_witness :
  id <$> lints (apply_parameter_overrides bundle (cap_override "22")).1 = id <$> lints bundle.
Proof. exact (proj1 (proj2 (apply_parameter_overrides_correct bundle (cap_override "22")))). Defined.

(** ** Deviations *)
Definition waiver : Deviation := {|
  dev_id := str "dev-1"; target_lint := id Rfc5280BasicConstraintsCaLeafLint;
  dev_scope := serial_range (str "i") [0; 5]%N [9]%N; effective_start := Some 100%N;
  effective_end := None; dev_action := Suppress; justification := str "because";
  authorized_by := str "me"; evidence_uri := None; priority := 3 |}.

Example waiver_is_built :
  with_priority 3 <$> (with_effective_start 100 <$>
    deviation_new (str "dev-1") (id Rfc5280BasicConstraintsCaLeafLint)
      (serial_range (str "i") [0; 5]%N [9]%N) Suppress (str "because") (str "me")) = Ok waiver.
Proof. vm_compute. reflexivity. Qed.

Lemma waiver_reachable : reachable [waiver].
Proof. apply (reachable_add [] waiver); [constructor|vm_compute; reflexivity]. Qed.

Example waiver_found :
  find_deviation [waiver] (id Rfc5280BasicConstraintsCaLeafLint) ca_as_leaf 150 = Some waiver ∧
  find_deviation [waiver] (id Rfc5280BasicConstraintsCaLeafLint) ca_as_leaf 99 = None.
Proof. split; vm_compute; reflexivity. Qed.

Lemma deviation_store_correct_witness :
  store_ok [waiver] ∧
  best_of (covers (id Rfc5280BasicConstraintsCaLeafLint) ca_as_leaf 150) [waiver]
    (find_deviation [waiver] (id Rfc5280BasicConstraintsCaLeafLint) ca_as_leaf 150).
Proof.
  destruct (deviation_store_correct [waiver] (id Rfc5280BasicConstraintsCaLeafLint) ca_as_leaf
    [ca_as_leaf] 150 waiver_reachable) as (Hok & Hbest & _). exact (conj Hok Hbest).
Defined.

(** Padding does not count: 5 as two octets is below 7, which is below 9. *)
Lemma serial_cmp_correct_witness :
  serial_cmp [0; 5]%N [9]%N = Lt ∧
  scope_matches (serial_range (str "i") [0; 5]%N [9]%N) ca_as_leaf = true.
Proof.
  assert (Ha : octets [0; 5]%N) by (repeat constructor).
  assert (Hb : octets [9]%N) by (repeat constructor).
  assert (Hs : octets (serial_number (tbs_certificate ca_as_leaf))) by (repeat constructor).
  destruct (serial_cmp_correct [0; 5]%N [9]%N ca_as_leaf (str "i") [0; 5]%N [9]%N Ha Hb Hs Ha Hb)
    as [Hc [_ Hr]].
  split; [rewrite Hc; reflexivity|]. apply Hr. eexists.
  split; [reflexivity|]. split; [vm_compute; reflexivity|]. vm_compute. split; discriminate.
Defined.

(** ** Documents *)
Lemma ex_to_lowercase_idem t : to_lowercase (to_lowercase t) = to_lowercase t.
Proof.
  unfold to_lowercase, ex_name_text. rewrite <-list_fmap_compose. apply list_fmap_ext.
  intros _ c _. cbn. repeat case_decide; lia.
Qed.

Lemma waiver_storable : storable waiver.
Proof.
  split; [|split; [done|by split]]. split_and!; try done.
  - intros s [= <-]. done.
  - right. right. right. exists (str "i"), [0; 5]%N, [9]%N. split_and!; [done| |repeat constructor..].
    split; [repeat constructor|]. split; [done|]. by eexists.
Qed.

Lemma policy_round_trip_witness :
  deviation_store_from_risks (Array (risks_from_store [waiver])) = Ok [waiver].
Proof.
  destruct (policy_round_trip [waiver] Null ex_to_lowercase_idem) as [Hrt _]. apply Hrt.
  - apply NoDup_singleton.
  - constructor; [exact waiver_storable|constructor].
Defined.

Lemma catalog_round_trip_witness :
  (ids ← lint_ids_from_catalog (catalog_from_lints (lints bundle) (str "c") (str "1"));
   filter_to_ids bundle ids) = Ok bundle.
Proof.
  apply (catalog_round_trip bundle (str "c") (str "1") bundle_unique).
  repeat constructor; discriminate.
Defined.

(** A scope of a kind of its own is written and then refused. *)
Definition custom_scope : DeviationScope := {| kind := str "spiffe"; props := [] |}.
Example custom_scope_refused :
  parse_subject 0 <$> encode_scope custom_scope = [Err (UnknownSubjectType 0 (str "spiffe"))].
Proof. vm_compute. reflexivity. Qed.
