(* ===== verification/CabfLints.v ===== *)
(** * The CA/B Forum lints (pkix-lint-cabf/src/cabf_tls_br.rs)

    The six lints of the TLS Baseline Requirements as one type, an instance of
    [Lint], with the reader of the DER of an RSA key that the lint on key sizes
    uses.  A length of DER is a [usize] of 64 bits. *)
From S2P Require Import Prelude X509 PathTypes Identity Sct LintTypes LintRunner LintRules.

Definition SHA1_WITH_RSA : ObjectIdentifier := [1; 2; 840; 113549; 1; 1; 5]%N.
Definition ECDSA_WITH_SHA1 : ObjectIdentifier := [1; 2; 840; 10045; 4; 1]%N.
Definition RSA_ENCRYPTION : ObjectIdentifier := [1; 2; 840; 113549; 1; 1; 1]%N.
Definition SECS_PER_DAY : N := 86400.

(** The midnights from which the caps of SC-081 hold. *)
Definition SC081_200D_EPOCH : N := 1773532800.
Definition SC081_100D_EPOCH : N := 1805068800.
Definition SC081_47D_EPOCH : N := 1868227200.

Definition sc081_validity_cap (not_before_unix : N) : N :=
  if decide (SC081_47D_EPOCH ≤ not_before_unix)%N then 47 * SECS_PER_DAY
  else if decide (SC081_100D_EPOCH ≤ not_before_unix)%N then 100 * SECS_PER_DAY
  else if decide (SC081_200D_EPOCH ≤ not_before_unix)%N then 200 * SECS_PER_DAY
  else 398 * SECS_PER_DAY.

(** ** cabf.br.tls.validity.max *)
Definition validity_max_check (cert : Certificate) : LintResult :=
  let not_before := to_unix_secs (not_before (tbs_certificate cert)) in
  let not_after := to_unix_secs (not_after (tbs_certificate cert)) in
  if decide (not_after < not_before)%N then
    LintError (str "leaf certificate notAfter precedes notBefore (inverted validity period)")
  else
    let duration_secs := (not_after - not_before)%N in
    let cap := sc081_validity_cap not_before in
    if decide (cap < duration_secs)%N then
      LintError (str "leaf certificate validity period " ++ fmt_u64 (duration_secs / 86400) ++
        str " days exceeds SC-081 cap of " ++ fmt_u64 (cap / 86400) ++ str " days at issuance")
    else LintPass.

(** ** cabf.br.tls.alg.sha1_prohibited *)
Definition sha1_prohibited_check (cert : Certificate) : LintResult :=
  let sig_alg := alg_oid (signature_algorithm cert) in
  if decide (sig_alg = SHA1_WITH_RSA ∨ sig_alg = ECDSA_WITH_SHA1)
  then LintError (str "certificate uses SHA-1 signature algorithm, prohibited by TLS BR §7.1.3")
  else LintPass.

(** ** cabf.br.tls.rsa.min_key_size *)

(** [length.checked_shl(8)?.checked_add(b)?]: the shift drops what leaves the
    64 bits, only the sum is checked. *)
Fixpoint der_length_loop (length : N) (len_bytes : bytes) : option N :=
  match len_bytes with
  | [] => Some length
  | b :: len_bytes =>
      let length := (N.shiftl length 8 mod 2 ^ 64 + b)%N in
      if decide (length ≤ u64_max)%N then der_length_loop length len_bytes else None
  end.

Definition parse_der_length (input : bytes) : option (N * bytes) :=
  match input with
  | [] => None
  | first :: rest =>
      if decide (first < 128)%N then Some (first, rest)
      else
        let n_bytes := N.to_nat (N.land first 127) in
        if decide (n_bytes = 0 ∨ 4 < n_bytes ∨ length rest < n_bytes) then None
        else length ← der_length_loop 0 (take n_bytes rest); Some (length, drop n_bytes rest)
  end.

Definition der_peel_tlv (input : bytes) (expected_tag : N) : option (bytes * bytes) :=
  match input with
  | [] => None
  | tag :: rest =>
      if decide (tag ≠ expected_tag) then None
      else
        '(len, rest) ← parse_der_length rest;
        if decide (N.of_nat (length rest) < len)%N then None
        else Some (take (N.to_nat len) rest, drop (N.to_nat len) rest)
  end.

(** The padding of the sign, then the loop over the zeros. *)
Definition strip_sign_octet (int_value : bytes) : bytes :=
  match int_value with
  | 0%N :: (b :: _) as rest => if decide (N.land b 128 ≠ 0)%N then rest else int_value
  | _ => int_value
  end.
Fixpoint skip_zeros (int_value : bytes) : bytes :=
  match int_value with
  | first :: rest => if decide (first = 0)%N then skip_zeros rest else int_value
  | [] => []
  end.

(** [u8::leading_zeros] *)
Definition leading_zeros_u8 (b : N) : N := 8 - N.size b.

Definition rsa_modulus_bit_len (der : bytes) : option N :=
  '(seq_content, _) ← der_peel_tlv der 48;
  '(int_value, _) ← der_peel_tlv seq_content 2;
  match skip_zeros (strip_sign_octet int_value) with
  | [] => None
  | high :: rest =>
      if decide (high = 0)%N then None
      else Some (N.of_nat (length rest) * 8 + (8 - leading_zeros_u8 high))%N
  end.

Definition rsa_min_key_size_check (cert : Certificate) : LintResult :=
  let spki := subject_public_key_info (tbs_certificate cert) in
  if decide (alg_oid (spki_algorithm spki) ≠ RSA_ENCRYPTION) then LintNotApplicable
  else match rsa_modulus_bit_len (raw_bytes (subject_public_key spki)) with
       | None => LintError (str "RSA public key structure is unparseable")
       | Some n_bits =>
           if decide (2048 ≤ n_bits)%N then LintPass
           else LintError (str "RSA key modulus is less than 2048 bits")
       end.

Section rules.
Context `{DecodeOwned BasicConstraints} `{DecodeOwned ExtendedKeyUsage} `{DecodeOwned SubjectAltName}.

(** ** cabf.br.tls.san.required *)
Definition san_present_check (cert : Certificate) : LintResult :=
  match extensions (tbs_certificate cert) with
  | None => LintError (str "leaf certificate has no extensions; SubjectAltName absent")
  | Some exts =>
      match lint_find_ext OID_SUBJECT_ALT_NAME exts with
      | None => LintError (str "SubjectAltName extension absent from leaf certificate")
      | Some san_ext =>
          match from_der (T:=SubjectAltName) (extn_value san_ext) with
          | inr san =>
              match san_names san with
              | [] => LintError (str "SubjectAltName extension is present but contains no names")
              | _ => LintPass
              end
          | inl _ => LintError (str "SubjectAltName extension value is malformed DER")
          end
      end
  end.

(** ** cabf.br.tls.eku.server_auth *)
Definition cabf_eku_check (cert : Certificate) : LintResult :=
  match extensions (tbs_certificate cert) with
  | None => LintError (str "leaf certificate has no extensions; ExtendedKeyUsage absent")
  | Some exts =>
      match lint_find_ext OID_EXTENDED_KEY_USAGE exts with
      | None => LintError (str "ExtendedKeyUsage extension absent from leaf certificate")
      | Some eku_ext =>
          match from_der (T:=ExtendedKeyUsage) (extn_value eku_ext) with
          | inr eku =>
              if decide (ID_KP_SERVER_AUTH ∈ eku_oids eku) then LintPass
              else LintError (str "ExtendedKeyUsage does not include id-kp-serverAuth (1.3.6.1.5.5.7.3.1)")
          | inl _ => LintError (str "ExtendedKeyUsage extension value is malformed DER")
          end
      end
  end.

(** ** cabf.br.tls.bc.ca_flag *)
Definition bc_ca_flag_check (cert : Certificate) : LintResult :=
  match extensions (tbs_certificate cert) with
  | None =>
      LintError (str "intermediate CA certificate has no extensions; BasicConstraints absent")
  | Some exts =>
      match lint_find_ext OID_BASIC_CONSTRAINTS exts with
      | None =>
          LintError (str "BasicConstraints extension absent from intermediate CA certificate")
      | Some bc_ext =>
          match from_der (T:=BasicConstraints) (extn_value bc_ext) with
          | inr bc =>
              if ca bc then LintPass
              else LintError (str "BasicConstraints present but cA flag is not TRUE")
          | inl _ => LintError (str "BasicConstraints extension value is malformed DER")
          end
      end
  end.
End rules.

(** ** The bundle *)
Inductive CabfLint :=
| ValidityMaxLint
| Sha1ProhibitedLint
| RsaMinKeySizeLint
| SanRequiredLint
| EkuServerAuthLint
| BcCaFlagLint.
#[global] Instance CabfLint_eq_dec : EqDecision CabfLint.
Proof. solve_decision. Defined.

(** What a lint declares of itself; the lints keep the default [spec_url]. *)
Record CabfMeta := {
  c_id : bytes; c_citation : bytes; c_applies_to : SubjectKind; c_title : bytes;
  c_spec_section_id : bytes }.

Definition validity_max_meta : CabfMeta := {|
  c_id := str "cabf.br.tls.validity.max"; c_citation := str "CA/B Forum TLS BR §6.3.2 (SC-081)";
  c_applies_to := KindLeaf; c_title := str "Leaf certificate validity must not exceed SC-081 cap";
  c_spec_section_id := str "cabf-tls-br-6.3.2" |}.
Definition sha1_prohibited_meta : CabfMeta := {|
  c_id := str "cabf.br.tls.alg.sha1_prohibited"; c_citation := str "CA/B Forum TLS BR §7.1.3";
  c_applies_to := KindAny; c_title := str "SHA-1 signature algorithm prohibited";
  c_spec_section_id := str "cabf-tls-br-7.1.3" |}.
Definition rsa_min_key_size_meta : CabfMeta := {|
  c_id := str "cabf.br.tls.rsa.min_key_size"; c_citation := str "CA/B Forum TLS BR §6.1.5";
  c_applies_to := KindAny; c_title := str "RSA modulus must be at least 2048 bits";
  c_spec_section_id := str "cabf-tls-br-6.1.5" |}.
Definition san_required_meta : CabfMeta := {|
  c_id := str "cabf.br.tls.san.required"; c_citation := str "CA/B Forum TLS BR §7.1.2.7.12";
  c_applies_to := KindLeaf; c_title := str "Leaf certificate must include subjectAltName";
  c_spec_section_id := str "cabf-tls-br-7.1.2.7.12" |}.
Definition eku_server_auth_meta : CabfMeta := {|
  c_id := str "cabf.br.tls.eku.server_auth"; c_citation := str "CA/B Forum TLS BR §7.1.2.7.10";
  c_applies_to := KindLeaf; c_title := str "Leaf certificate must include id-kp-serverAuth EKU";
  c_spec_section_id := str "cabf-tls-br-7.1.2.7.10" |}.
Definition bc_ca_flag_meta : CabfMeta := {|
  c_id := str "cabf.br.tls.bc.ca_flag"; c_citation := str "CA/B Forum TLS BR §7.1.2.10.4";
  c_applies_to := KindIntermediateCa;
  c_title := str "CA certificates must set BasicConstraints.cA=TRUE";
  c_spec_section_id := str "cabf-tls-br-7.1.2.10.4" |}.

Definition cabf_meta (l : CabfLint) : CabfMeta :=
  match l with
  | ValidityMaxLint => validity_max_meta
  | Sha1ProhibitedLint => sha1_prohibited_meta
  | RsaMinKeySizeLint => rsa_min_key_size_meta
  | SanRequiredLint => san_required_meta
  | EkuServerAuthLint => eku_server_auth_meta
  | BcCaFlagLint => bc_ca_flag_meta
  end.

#[global] Instance CabfLint_impl `{DecodeOwned BasicConstraints} `{DecodeOwned ExtendedKeyUsage}
    `{DecodeOwned SubjectAltName} : Lint CabfLint := {|
  id l := c_id (cabf_meta l);
  lint_citation l := c_citation (cabf_meta l);
  severity _ := SevError;
  scope _ := ScopeCertificate;
  applies_to l := c_applies_to (cabf_meta l);
  title l := c_title (cabf_meta l);
  description _ := default_description;
  spec_section_id l := Some (c_spec_section_id (cabf_meta l));
  spec_url _ := None;
  parameters _ := default_parameters;
  set_parameter := default_set_parameter;
  check_cert l cert _ _ :=
    match l with
    | ValidityMaxLint => validity_max_check cert
    | Sha1ProhibitedLint => sha1_prohibited_check cert
    | RsaMinKeySizeLint => rsa_min_key_size_check cert
    | SanRequiredLint => san_present_check cert
    | EkuServerAuthLint => cabf_eku_check cert
    | BcCaFlagLint => bc_ca_flag_check cert
    end;
  check_path _ := default_check_path |}.

Definition all_lints : list CabfLint :=
  [ValidityMaxLint; Sha1ProhibitedLint; RsaMinKeySizeLint; SanRequiredLint; EkuServerAuthLint;
   BcCaFlagLint].
