(* ===== verification/CabfLintsSpec.v ===== *)
(** * What the CA/B Forum lints check

    The reader of an RSA key measures the integer that the key encodes; each
    lint passes exactly the certificates that satisfy its rule; the caps of
    SC-081 change at the midnights they name. *)
From S2P Require Import Prelude X509 PathTypes Identity Merkle Sct CtLogList LintTypes LintRunner LintRules LintRulesSpec HexSpec DeviationSpec CabfLints.

Local Open Scope N_scope.

(** ** Lengths of DER *)

(** The octets of a length: one below 128, or up to four after their number. *)
Definition length_octets (l : bytes) (n : N) : Prop :=
  (n < 128 ∧ l = [n]) ∨
  (∃ b, (1 ≤ length b ≤ 4)%nat ∧ l = (128 + N.of_nat (length b)) :: b ∧ n = from_be_bytes b).

Lemma der_length_loop_spec acc b :
  octets b → acc * 256 ^ N.of_nat (length b) + from_be_bytes b < 2 ^ 64 →
  der_length_loop acc b = Some (acc * 256 ^ N.of_nat (length b) + from_be_bytes b).
Proof.
  intros Hb. revert acc. induction Hb as [|x b Hx Hb IH]; intros acc Hlt.
  { cbn. f_equal. unfold from_be_bytes. cbn. lia. }
  cbn [der_length_loop]. rewrite be_bytes_cons in Hlt |- *. cbn [length] in *.
  rewrite Nat2N.inj_succ, N.pow_succ_r' in *.
  assert (Hp : 1 ≤ 256 ^ N.of_nat (length b)) by (apply N.lt_pred_le, N.neq_0_lt_0, N.pow_nonzero; lia).
  rewrite N.shiftl_mul_pow2. change (2 ^ 8) with 256.
  rewrite N.mod_small by nia. rewrite decide_True by (unfold u64_max; nia).
  rewrite IH by nia. f_equal. nia.
Qed.

Lemma parse_der_length_spec input n rest :
  octets input →
  parse_der_length input = Some (n, rest) ↔ ∃ l, input = l ++ rest ∧ length_octets l n.
Proof.
  intros Ho. destruct input as [|first input]; cbn [parse_der_length].
  { split; [done|]. intros (l & Hl & [[_ ->]|(b & _ & -> & _)]); done. }
  apply Forall_cons in Ho as [Hf Ho]. case_decide as Hs.
  { split.
    - intros [= <- <-]. exists [first]. split; [done|]. by left.
    - intros (l & Hl & [[Hn ->]|(b & Hb & -> & _)]); injection Hl as -> ->; [done|lia]. }
  set (k := N.to_nat (N.land first 127)).
  assert (Hk : N.land first 127 = first - 128).
  { change 127 with (N.ones 7). rewrite N.land_ones. change (2 ^ 7) with 128.
    rewrite <-(N.mod_small (first - 128) 128) by lia.
    replace first with (first - 128 + 1 * 128) at 1 by lia. by rewrite N.Div0.mod_add. }
  case_decide as Hbad.
  { split; [done|]. intros (l & Hl & [[Hn ->]|(b & Hb & -> & _)]); injection Hl as -> Hi; [lia|].
    exfalso. subst input. rewrite length_app in Hbad. unfold k in Hbad. rewrite Hk in Hbad. lia. }
  apply Decidable.not_or in Hbad as [Hk0 [Hk4 Hklen]%Decidable.not_or].
  assert (Hlt : octets (take k input)) by by apply Forall_take.
  assert (Hlen : length (take k input) = k) by (rewrite length_take; lia).
  assert (Hsmall : from_be_bytes (take k input) < 2 ^ 64).
  { eapply N.lt_le_trans; [by apply be_bytes_lt|]. rewrite Hlen.
    change (2 ^ 64) with (256 ^ 8). apply N.pow_le_mono_r; lia. }
  rewrite der_length_loop_spec by (done || lia). rewrite N.mul_0_l, N.add_0_l. cbn [mbind option_bind].
  split.
  - intros [= <- <-]. exists (first :: take k input).
    split; [by rewrite <-app_comm_cons, take_drop|]. right. exists (take k input).
    rewrite Hlen. split_and!; [lia..| |done]. f_equal. unfold k. rewrite Hk. lia.
  - intros (l & Hl & [[Hn ->]|(b & Hb & -> & ->)]); injection Hl as -> Hi; [lia|].
    assert (k = length b) as -> by (unfold k; rewrite Hk; lia).
    subst input. by rewrite take_app_length, drop_app_length.
Qed.

(** The value of the first element, which has the tag wanted. *)
Lemma der_peel_tlv_spec input tag v rest :
  octets input →
  der_peel_tlv input tag = Some (v, rest) ↔
  ∃ l, input = tag :: l ++ v ++ rest ∧ length_octets l (N.of_nat (length v)).
Proof.
  intros Ho. destruct input as [|t input]; cbn [der_peel_tlv].
  { split; [done|]. by intros (l & ? & _). }
  apply Forall_cons in Ho as [_ Ho]. case_decide as Ht.
  { split; [done|]. intros (l & [= ? _] & _). congruence. }
  subst t. split.
  - intros ([n r] & Hp & Hv)%bind_Some. apply parse_der_length_spec in Hp as (l & -> & Hl); [|done].
    case_decide as Hlen; [done|]. injection Hv as <- <-. exists l.
    rewrite take_drop. split; [done|]. rewrite length_take, Nat.min_l by lia.
    by rewrite N2Nat.id.
  - intros (l & [= ->] & Hl).
    assert (Hp : parse_der_length (l ++ v ++ rest) = Some (N.of_nat (length v), v ++ rest))
      by (apply parse_der_length_spec; [done|]; by exists l).
    rewrite Hp. cbn [mbind option_bind]. rewrite length_app, decide_False by lia.
    by rewrite Nat2N.id, take_app_length, drop_app_length.
Qed.

(** ** The size of a key *)
Lemma skip_zeros_spec b :
  octets b → octets (skip_zeros b) ∧ from_be_bytes (skip_zeros b) = from_be_bytes b ∧
  head (skip_zeros b) ≠ Some 0.
Proof.
  induction 1 as [|x b Hx Hb IH]; [by split_and!; [constructor|..]|]. cbn [skip_zeros]. case_decide as H0.
  - subst x. exact IH.
  - split_and!; [by constructor|done|]. cbn. congruence.
Qed.

Lemma strip_sign_octet_spec b :
  octets b → octets (strip_sign_octet b) ∧ from_be_bytes (strip_sign_octet b) = from_be_bytes b.
Proof.
  intros Hb. unfold strip_sign_octet. destruct b as [|[|p] [|y b]]; try done.
  case_decide; [|done]. apply Forall_cons in Hb as [_ Hb]. by split.
Qed.

(** The bits of a number from those of its first octet. *)
Lemma size_be_bytes x b :
  octets (x :: b) → x ≠ 0 → N.size (from_be_bytes (x :: b)) = N.of_nat (length b) * 8 + N.size x.
Proof.
  intros [Hx Hb]%Forall_cons Hx0. rewrite be_bytes_cons.
  pose proof (be_bytes_lt b Hb) as Hlt. set (k := N.of_nat (length b)) in *.
  assert (Hpow : 256 ^ k = 2 ^ (k * 8)) by (rewrite N.mul_comm, N.pow_mul_r; done).
  rewrite Hpow in *. assert (Hp : 1 ≤ 2 ^ (k * 8)) by (apply N.lt_pred_le, N.neq_0_lt_0, N.pow_nonzero; lia).
  rewrite !N.size_log2 by nia.
  rewrite (N.log2_unique (x * 2 ^ (k * 8) + from_be_bytes b) (k * 8 + N.log2 x)); [lia|lia|].
  destruct (N.log2_spec x) as [Hlo Hhi]; [lia|].
  rewrite <-N.add_succ_r, !N.pow_add_r. split; nia.
Qed.

(** The integer in the first element of the sequence that the octets encode. *)
Definition encodes_modulus (der : bytes) (n : N) : Prop :=
  ∃ l body r l' i r', der = 48 :: l ++ body ++ r ∧ length_octets l (N.of_nat (length body)) ∧
    body = 2 :: l' ++ i ++ r' ∧ length_octets l' (N.of_nat (length i)) ∧ n = from_be_bytes i.

Lemma rsa_modulus_bit_len_spec der bits :
  octets der →
  rsa_modulus_bit_len der = Some bits ↔ ∃ n, encodes_modulus der n ∧ n ≠ 0 ∧ bits = N.size n.
Proof.
  intros Ho. unfold rsa_modulus_bit_len, encodes_modulus.
  assert (Hi : ∀ i, octets i →
    match skip_zeros (strip_sign_octet i) with
    | [] => None
    | high :: rest => if decide (high = 0) then None
                      else Some (N.of_nat (length rest) * 8 + (8 - leading_zeros_u8 high))
    end = (if decide (from_be_bytes i = 0) then None else Some (N.size (from_be_bytes i)))).
  { intros i Hi. apply strip_sign_octet_spec in Hi as [Hi <-].
    destruct (skip_zeros_spec _ Hi) as (Hs & <- & Hh).
    destruct (skip_zeros _) as [|high rest]; [done|].
    assert (high ≠ 0) by (cbn in Hh; congruence). rewrite decide_False by done.
    rewrite decide_False by (rewrite be_bytes_cons; pose proof (N.pow_nonzero 256 (N.of_nat (length rest))); nia).
    rewrite size_be_bytes by done. f_equal. unfold leading_zeros_u8.
    apply Forall_cons in Hs as [Hh8 _]. cut (N.size high ≤ 8); [lia|].
    rewrite N.size_log2 by done. apply N.le_succ_l. apply N.log2_lt_pow2; [lia|]. exact Hh8. }
  split.
  - intros ([body r] & Hb & Hv)%bind_Some. cbn beta iota in Hv.
    apply bind_Some in Hv as ([i r'] & Hi' & Hv). cbn beta iota in Hv.
    apply der_peel_tlv_spec in Hb as (l & -> & Hl); [|done].
    assert (Hob : octets body).
    { apply Forall_cons in Ho as [_ Ho]. rewrite !Forall_app in Ho. tauto. }
    apply der_peel_tlv_spec in Hi' as (l' & -> & Hl'); [|done].
    apply Forall_cons in Hob as [_ Hob]. rewrite !Forall_app in Hob.
    rewrite Hi in Hv by tauto. case_decide as H0; [done|]. injection Hv as <-.
    exists (from_be_bytes i). split_and!; [|done..]. by exists l, (2 :: l' ++ i ++ r'), r, l', i, r'.
  - intros (n & (l & body & r & l' & i & r' & -> & Hl & -> & Hl' & ->) & H0 & ->).
    pose proof Ho as Hob. apply Forall_cons in Hob as [_ Hob]. rewrite !Forall_app, Forall_cons, !Forall_app in Hob.
    rewrite (proj2 (der_peel_tlv_spec _ 48 (2 :: l' ++ i ++ r') r Ho)) by by exists l.
    cbn [mbind option_bind].
    rewrite (proj2 (der_peel_tlv_spec (2 :: l' ++ i ++ r') 2 i r' ltac:(apply Forall_cons; rewrite !Forall_app; tauto)))
      by by exists l'.
    cbn [mbind option_bind]. rewrite Hi by tauto. by rewrite decide_False.
Qed.

(** ** The lints *)
Section cabf_spec.
Context `{DecodeOwned BasicConstraints} `{DecodeOwned ExtendedKeyUsage} `{DecodeOwned SubjectAltName}.
Implicit Types (cert : Certificate).

(** The extension is there, can be decoded, and its value is as wanted. *)
Definition ext_rule {T} `{DecodeOwned T} (oid : ObjectIdentifier) (P : T → Prop) cert : Prop :=
  ∃ e v, find_ext cert oid = Some e ∧ from_der (extn_value e) = inr v ∧ P v.

Lemma ext_rule_inv {T} `{DecodeOwned T} oid (P : T → Prop) cert e :
  find_ext cert oid = Some e →
  ext_rule oid P cert ↔ ∃ v, from_der (extn_value e) = inr v ∧ P v.
Proof.
  intros He. unfold ext_rule. rewrite He. split; [|by intros (v & ?); exists e, v].
  intros (e' & v & [= <-] & ?). by exists v.
Qed.

Lemma ex_inr {A B} (P : B → Prop) b : (∃ x, @inr A B b = inr x ∧ P x) ↔ P b.
Proof. split; [by intros (? & [= <-] & ?)|eauto]. Qed.

(** The cases of a lint that looks for an extension and decodes it. *)
Ltac ext_absent := split; [split; [done|intros (? & ? & ? & _); congruence]|eauto].
Ltac ext_lint cert oid :=
  pose proof (lint_find_ext_spec cert oid) as Hf;
  destruct (extensions _) as [exts|]; [rewrite Hf|ext_absent];
  let e := fresh "e" in let He := fresh "He" in
  destruct (find_ext cert oid) as [e|] eqn:He; [|ext_absent];
  rewrite (ext_rule_inv _ _ _ _ He);
  destruct (from_der (extn_value e)) as [?|v] eqn:Hv; [by split; [split; [done|intros (? & ? & _); congruence]|eauto]|rewrite ex_inr].

Lemma san_present_spec cert :
  (san_present_check cert = LintPass ↔
   ext_rule OID_SUBJECT_ALT_NAME (λ s : SubjectAltName, san_names s ≠ []) cert) ∧
  pass_or_error (san_present_check cert).
Proof.
  unfold san_present_check, pass_or_error. ext_lint cert OID_SUBJECT_ALT_NAME.
  destruct (san_names v) eqn:Hn; (split; [|eauto]); split; congruence.
Qed.

Lemma cabf_eku_spec cert :
  (cabf_eku_check cert = LintPass ↔
   ext_rule OID_EXTENDED_KEY_USAGE (λ k : ExtendedKeyUsage, ID_KP_SERVER_AUTH ∈ eku_oids k) cert) ∧
  pass_or_error (cabf_eku_check cert).
Proof.
  unfold cabf_eku_check, pass_or_error. ext_lint cert OID_EXTENDED_KEY_USAGE.
  case_decide; (split; [|eauto]); done.
Qed.

Lemma bc_ca_flag_spec cert :
  (bc_ca_flag_check cert = LintPass ↔
   ext_rule OID_BASIC_CONSTRAINTS (λ bc : BasicConstraints, ca bc = true) cert) ∧
  pass_or_error (bc_ca_flag_check cert).
Proof.
  unfold bc_ca_flag_check, pass_or_error. ext_lint cert OID_BASIC_CONSTRAINTS.
  destruct (ca v) eqn:Hc; (split; [|eauto]); split; congruence.
Qed.

(** The validity of the certificate in seconds, and its key. *)
Definition starts cert : N := to_unix_secs (not_before (tbs_certificate cert)).
Definition ends cert : N := to_unix_secs (not_after (tbs_certificate cert)).
Definition key_octets cert : bytes :=
  raw_bytes (subject_public_key (subject_public_key_info (tbs_certificate cert))).
Definition is_rsa cert : Prop :=
  alg_oid (spki_algorithm (subject_public_key_info (tbs_certificate cert))) = RSA_ENCRYPTION.

Definition cabf_rule (l : CabfLint) cert : Prop :=
  match l with
  | ValidityMaxLint => starts cert ≤ ends cert ≤ starts cert + sc081_validity_cap (starts cert)
  | Sha1ProhibitedLint =>
      alg_oid (signature_algorithm cert) ∉ [SHA1_WITH_RSA; ECDSA_WITH_SHA1]
  | RsaMinKeySizeLint => ∃ n, encodes_modulus (key_octets cert) n ∧ 2 ^ 2047 ≤ n
  | SanRequiredLint =>
      ext_rule OID_SUBJECT_ALT_NAME (λ s : SubjectAltName, san_names s ≠ []) cert
  | EkuServerAuthLint =>
      ext_rule OID_EXTENDED_KEY_USAGE
        (λ k : ExtendedKeyUsage, ID_KP_SERVER_AUTH ∈ eku_oids k) cert
  | BcCaFlagLint => ext_rule OID_BASIC_CONSTRAINTS (λ bc : BasicConstraints, ca bc = true) cert
  end.

Lemma size_ge_2048 n : n ≠ 0 → 2048 ≤ N.size n ↔ 2 ^ 2047 ≤ n.
Proof.
  intros Hn. rewrite N.size_log2 by done. rewrite N.log2_le_pow2 by lia. lia.
Qed.

Lemma validity_max_spec cert :
  (validity_max_check cert = LintPass ↔ cabf_rule ValidityMaxLint cert) ∧
  pass_or_error (validity_max_check cert).
Proof.
  unfold validity_max_check, pass_or_error, cabf_rule, starts, ends. cbv zeta.
  case_decide; [|case_decide]; (split; [|eauto]); split; try done; lia.
Qed.

Lemma rsa_min_key_size_spec cert :
  octets (key_octets cert) → is_rsa cert →
  (rsa_min_key_size_check cert = LintPass ↔ cabf_rule RsaMinKeySizeLint cert) ∧
  pass_or_error (rsa_min_key_size_check cert).
Proof.
  intros Ho Hrsa. unfold rsa_min_key_size_check, pass_or_error, cabf_rule. cbv zeta.
  rewrite decide_False by (by intros []). fold (key_octets cert).
  pose proof (λ b, rsa_modulus_bit_len_spec (key_octets cert) b Ho) as Hs.
  assert (Hex : (∃ n, encodes_modulus (key_octets cert) n ∧ 2 ^ 2047 ≤ n) ↔
    ∃ b, rsa_modulus_bit_len (key_octets cert) = Some b ∧ 2048 ≤ b).
  { setoid_rewrite Hs. split.
    - intros (n & Hn & Hge). exists (N.size n). assert (n ≠ 0) by (pose proof (N.pow_nonzero 2 2047); lia).
      split; [by exists n|]. by apply size_ge_2048.
    - intros (b & (n & Hn & Hne & ->) & Hge). exists n. split; [done|]. by apply size_ge_2048. }
  rewrite Hex. destruct (rsa_modulus_bit_len (key_octets cert)) as [b|].
  - case_decide; (split; [|eauto]); split; naive_solver.
  - split; [|eauto]. split; naive_solver.
Qed.

(** The verdict of each lint. *)
Lemma cabf_lint_spec l cert kind now (Hkey : octets (key_octets cert)) :
  (check_cert l cert kind now = LintNotApplicable ↔ l = RsaMinKeySizeLint ∧ ¬ is_rsa cert) ∧
  (check_cert l cert kind now = LintPass ↔
   cabf_rule l cert ∧ (l = RsaMinKeySizeLint → is_rsa cert)) ∧
  (check_cert l cert kind now ≠ LintNotApplicable → pass_or_error (check_cert l cert kind now)).
Proof.
  assert (Hpe : ∀ r (P : Prop), l ≠ RsaMinKeySizeLint → (r = LintPass ↔ P) ∧ pass_or_error r →
    (r = LintNotApplicable ↔ l = RsaMinKeySizeLint ∧ ¬ is_rsa cert) ∧
    (r = LintPass ↔ P ∧ (l = RsaMinKeySizeLint → is_rsa cert)) ∧
    (r ≠ LintNotApplicable → pass_or_error r)).
  { intros r P Hl [Hr Hp]. split_and!; [|tauto|done].
    split; [|tauto]. intros ->. by destruct Hp as [|[]]. }
  destruct l; cbn [check_cert CabfLint_impl].
  - apply Hpe; [done|]. apply validity_max_spec.
  - apply Hpe; [done|]. unfold sha1_prohibited_check, pass_or_error, cabf_rule. cbv zeta.
    rewrite elem_of_cons, list_elem_of_singleton. case_decide; (split; [|eauto]); split; naive_solver.
  - destruct (decide (alg_oid (spki_algorithm (subject_public_key_info (tbs_certificate cert)))
                      = RSA_ENCRYPTION)) as [Hrsa|Hrsa].
    + destruct (rsa_min_key_size_spec cert Hkey Hrsa) as [Hr Hp].
      split_and!; [|unfold is_rsa in *; tauto|done].
      split; [|unfold is_rsa; tauto]. intros Hn. rewrite Hn in Hp. by destruct Hp as [|[]].
    + unfold rsa_min_key_size_check. cbv zeta. rewrite decide_True by done. unfold is_rsa.
      split_and!; [tauto| |done]. split; [done|]. intros [_ Hi]. by destruct Hrsa; apply Hi.
  - apply Hpe; [done|]. apply san_present_spec.
  - apply Hpe; [done|]. apply cabf_eku_spec.
  - apply Hpe; [done|]. apply bc_ca_flag_spec.
Qed.

(** Each lint of the TLS Baseline Requirements passes exactly the
    certificates that satisfy its rule and reports an error on the others; the
    lint on the size of RSA keys does not apply to other keys, and measures
    the integer that the octets of the key encode, so that a modulus of 2047
    bits is refused. *)
Theorem cabf_lints_correct l cert kind now (Hkey : octets (key_octets cert)) :
  (check_cert l cert kind now = LintNotApplicable ↔ l = RsaMinKeySizeLint ∧ ¬ is_rsa cert) ∧
  (check_cert l cert kind now = LintPass ↔
   cabf_rule l cert ∧ (l = RsaMinKeySizeLint → is_rsa cert)) ∧
  (check_cert l cert kind now ≠ LintNotApplicable → pass_or_error (check_cert l cert kind now)).
Proof. by apply cabf_lint_spec. Qed.
End cabf_spec.

(** ** SC-081 *)

(** The caps never grow, and change at the midnights of the ballot as the
    reader of times has them. *)
Lemma sc081_validity_cap_antitone a b : a ≤ b → sc081_validity_cap b ≤ sc081_validity_cap a.
Proof. intros Hab. unfold sc081_validity_cap. repeat case_decide; unfold SECS_PER_DAY; lia. Qed.

Example sc081_epochs :
  parse_rfc3339_to_unix_ms (str "2026-03-15T00:00:00Z") = Ok (SC081_200D_EPOCH * 1000) ∧
  parse_rfc3339_to_unix_ms (str "2027-03-15T00:00:00Z") = Ok (SC081_100D_EPOCH * 1000) ∧
  parse_rfc3339_to_unix_ms (str "2029-03-15T00:00:00Z") = Ok (SC081_47D_EPOCH * 1000).
Proof. split_and!; vm_compute; reflexivity. Qed.
