(* ===== verification/Profiles.v ===== *)
(** * Profiles (pkix-profiles/src/lib.rs, pkix-profiles-cabf/src/lib.rs)

    The policies that the profiles of the RFCs and of the CA/B Forum build, the
    bundles of lints of those that have one, and the shape checks.  A policy is
    built by assignments to the fields of [ValidationPolicy::new]; each setter
    below is one of them. *)
From S2P Require Import Prelude X509 PathTypes Names Identity Chain LintTypes LintRunner LintRules CabfLints.

(** ** Assignments to a policy *)
Definition set_max_validity_secs (v : option N) (p : ValidationPolicy) : ValidationPolicy := {|
  max_path_len := max_path_len p; current_time_unix := current_time_unix p;
  enforce_key_usage := enforce_key_usage p; require_crl_sign_on_cas := require_crl_sign_on_cas p;
  initial_explicit_policy := initial_explicit_policy p;
  initial_any_policy_inhibit := initial_any_policy_inhibit p;
  initial_policy_mapping_inhibit := initial_policy_mapping_inhibit p;
  initial_policy_set := initial_policy_set p; max_validity_secs := v;
  allowed_signature_algs := allowed_signature_algs p; min_rsa_key_bits := min_rsa_key_bits p;
  require_subject_alt_name := require_subject_alt_name p; require_rfc822_san := require_rfc822_san p;
  required_leaf_eku := required_leaf_eku p; required_leaf_policy_oids := required_leaf_policy_oids p;
  required_leaf_subject_dn_attrs := required_leaf_subject_dn_attrs p |}.
Definition set_allowed_signature_algs (v : option (list ObjectIdentifier)) (p : ValidationPolicy) :
    ValidationPolicy := {|
  max_path_len := max_path_len p; current_time_unix := current_time_unix p;
  enforce_key_usage := enforce_key_usage p; require_crl_sign_on_cas := require_crl_sign_on_cas p;
  initial_explicit_policy := initial_explicit_policy p;
  initial_any_policy_inhibit := initial_any_policy_inhibit p;
  initial_policy_mapping_inhibit := initial_policy_mapping_inhibit p;
  initial_policy_set := initial_policy_set p; max_validity_secs := max_validity_secs p;
  allowed_signature_algs := v; min_rsa_key_bits := min_rsa_key_bits p;
  require_subject_alt_name := require_subject_alt_name p; require_rfc822_san := require_rfc822_san p;
  required_leaf_eku := required_leaf_eku p; required_leaf_policy_oids := required_leaf_policy_oids p;
  required_leaf_subject_dn_attrs := required_leaf_subject_dn_attrs p |}.
Definition set_min_rsa_key_bits (v : option N) (p : ValidationPolicy) : ValidationPolicy := {|
  max_path_len := max_path_len p; current_time_unix := current_time_unix p;
  enforce_key_usage := enforce_key_usage p; require_crl_sign_on_cas := require_crl_sign_on_cas p;
  initial_explicit_policy := initial_explicit_policy p;
  initial_any_policy_inhibit := initial_any_policy_inhibit p;
  initial_policy_mapping_inhibit := initial_policy_mapping_inhibit p;
  initial_policy_set := initial_policy_set p; max_validity_secs := max_validity_secs p;
  allowed_signature_algs := allowed_signature_algs p; min_rsa_key_bits := v;
  require_subject_alt_name := require_subject_alt_name p; require_rfc822_san := require_rfc822_san p;
  required_leaf_eku := required_leaf_eku p; required_leaf_policy_oids := required_leaf_policy_oids p;
  required_leaf_subject_dn_attrs := required_leaf_subject_dn_attrs p |}.
Definition set_require_subject_alt_name (v : bool) (p : ValidationPolicy) : ValidationPolicy := {|
  max_path_len := max_path_len p; current_time_unix := current_time_unix p;
  enforce_key_usage := enforce_key_usage p; require_crl_sign_on_cas := require_crl_sign_on_cas p;
  initial_explicit_policy := initial_explicit_policy p;
  initial_any_policy_inhibit := initial_any_policy_inhibit p;
  initial_policy_mapping_inhibit := initial_policy_mapping_inhibit p;
  initial_policy_set := initial_policy_set p; max_validity_secs := max_validity_secs p;
  allowed_signature_algs := allowed_signature_algs p; min_rsa_key_bits := min_rsa_key_bits p;
  require_subject_alt_name := v; require_rfc822_san := require_rfc822_san p;
  required_leaf_eku := required_leaf_eku p; required_leaf_policy_oids := required_leaf_policy_oids p;
  required_leaf_subject_dn_attrs := required_leaf_subject_dn_attrs p |}.
Definition set_require_rfc822_san (v : bool) (p : ValidationPolicy) : ValidationPolicy := {|
  max_path_len := max_path_len p; current_time_unix := current_time_unix p;
  enforce_key_usage := enforce_key_usage p; require_crl_sign_on_cas := require_crl_sign_on_cas p;
  initial_explicit_policy := initial_explicit_policy p;
  initial_any_policy_inhibit := initial_any_policy_inhibit p;
  initial_policy_mapping_inhibit := initial_policy_mapping_inhibit p;
  initial_policy_set := initial_policy_set p; max_validity_secs := max_validity_secs p;
  allowed_signature_algs := allowed_signature_algs p; min_rsa_key_bits := min_rsa_key_bits p;
  require_subject_alt_name := require_subject_alt_name p; require_rfc822_san := v;
  required_leaf_eku := required_leaf_eku p; required_leaf_policy_oids := required_leaf_policy_oids p;
  required_leaf_subject_dn_attrs := required_leaf_subject_dn_attrs p |}.
Definition set_required_leaf_eku (v : option (list ObjectIdentifier)) (p : ValidationPolicy) :
    ValidationPolicy := {|
  max_path_len := max_path_len p; current_time_unix := current_time_unix p;
  enforce_key_usage := enforce_key_usage p; require_crl_sign_on_cas := require_crl_sign_on_cas p;
  initial_explicit_policy := initial_explicit_policy p;
  initial_any_policy_inhibit := initial_any_policy_inhibit p;
  initial_policy_mapping_inhibit := initial_policy_mapping_inhibit p;
  initial_policy_set := initial_policy_set p; max_validity_secs := max_validity_secs p;
  allowed_signature_algs := allowed_signature_algs p; min_rsa_key_bits := min_rsa_key_bits p;
  require_subject_alt_name := require_subject_alt_name p; require_rfc822_san := require_rfc822_san p;
  required_leaf_eku := v; required_leaf_policy_oids := required_leaf_policy_oids p;
  required_leaf_subject_dn_attrs := required_leaf_subject_dn_attrs p |}.
Definition set_required_leaf_policy_oids (v : option (list ObjectIdentifier)) (p : ValidationPolicy) :
    ValidationPolicy := {|
  max_path_len := max_path_len p; current_time_unix := current_time_unix p;
  enforce_key_usage := enforce_key_usage p; require_crl_sign_on_cas := require_crl_sign_on_cas p;
  initial_explicit_policy := initial_explicit_policy p;
  initial_any_policy_inhibit := initial_any_policy_inhibit p;
  initial_policy_mapping_inhibit := initial_policy_mapping_inhibit p;
  initial_policy_set := initial_policy_set p; max_validity_secs := max_validity_secs p;
  allowed_signature_algs := allowed_signature_algs p; min_rsa_key_bits := min_rsa_key_bits p;
  require_subject_alt_name := require_subject_alt_name p; require_rfc822_san := require_rfc822_san p;
  required_leaf_eku := required_leaf_eku p; required_leaf_policy_oids := v;
  required_leaf_subject_dn_attrs := required_leaf_subject_dn_attrs p |}.
Definition set_required_leaf_subject_dn_attrs (v : option DnAttrRule) (p : ValidationPolicy) :
    ValidationPolicy := {|
  max_path_len := max_path_len p; current_time_unix := current_time_unix p;
  enforce_key_usage := enforce_key_usage p; require_crl_sign_on_cas := require_crl_sign_on_cas p;
  initial_explicit_policy := initial_explicit_policy p;
  initial_any_policy_inhibit := initial_any_policy_inhibit p;
  initial_policy_mapping_inhibit := initial_policy_mapping_inhibit p;
  initial_policy_set := initial_policy_set p; max_validity_secs := max_validity_secs p;
  allowed_signature_algs := allowed_signature_algs p; min_rsa_key_bits := min_rsa_key_bits p;
  require_subject_alt_name := require_subject_alt_name p; require_rfc822_san := require_rfc822_san p;
  required_leaf_eku := required_leaf_eku p; required_leaf_policy_oids := required_leaf_policy_oids p;
  required_leaf_subject_dn_attrs := v |}.

(** ** The profiles of the RFCs *)
Definition ID_KP_CLIENT_AUTH : ObjectIdentifier := [1; 3; 6; 1; 5; 5; 7; 3; 2]%N.
Definition ID_KP_CODE_SIGNING : ObjectIdentifier := [1; 3; 6; 1; 5; 5; 7; 3; 3]%N.
Definition ID_KP_OCSP_SIGNING : ObjectIdentifier := [1; 3; 6; 1; 5; 5; 7; 3; 9]%N.

Inductive Rfc5280Profile := MkRfc5280Profile.
Definition rfc5280_profile_policy_of (now_unix : N) : ValidationPolicy :=
  let p := validation_policy_new now_unix in
  p.
#[global] Instance Rfc5280Profile_impl : Profile Rfc5280Profile := {|
  profile_id _ := "ietf.rfc5280"; profile_version _ := "RFC 5280";
  profile_policy _ := rfc5280_profile_policy_of; profile_policy_oids _ := [] |}.

Inductive BasicTlsProfile := MkBasicTlsProfile.
Definition basic_tls_profile_policy_of (now_unix : N) : ValidationPolicy :=
  let p := validation_policy_new now_unix in
  let p := set_require_subject_alt_name true p in
  let p := set_required_leaf_eku (Some [ID_KP_SERVER_AUTH]) p in
  p.
#[global] Instance BasicTlsProfile_impl : Profile BasicTlsProfile := {|
  profile_id _ := "ietf.tls-basic"; profile_version _ := "RFC 5280 + RFC 6125";
  profile_policy _ := basic_tls_profile_policy_of; profile_policy_oids _ := [] |}.

Inductive BasicTlsClientProfile := MkBasicTlsClientProfile.
Definition basic_tls_client_profile_policy_of (now_unix : N) : ValidationPolicy :=
  let p := validation_policy_new now_unix in
  let p := set_required_leaf_eku (Some [ID_KP_CLIENT_AUTH]) p in
  p.
#[global] Instance BasicTlsClientProfile_impl : Profile BasicTlsClientProfile := {|
  profile_id _ := "ietf.tls-client-basic"; profile_version _ := "RFC 5280 §4.2.1.12";
  profile_policy _ := basic_tls_client_profile_policy_of; profile_policy_oids _ := [] |}.

Inductive BasicSmimeProfile := MkBasicSmimeProfile.
Definition basic_smime_profile_policy_of (now_unix : N) : ValidationPolicy :=
  let p := validation_policy_new now_unix in
  let p := set_required_leaf_eku (Some [ID_KP_EMAIL_PROTECTION]) p in
  let p := set_require_subject_alt_name true p in
  let p := set_require_rfc822_san true p in
  p.
#[global] Instance BasicSmimeProfile_impl : Profile BasicSmimeProfile := {|
  profile_id _ := "ietf.smime-basic"; profile_version _ := "RFC 8551";
  profile_policy _ := basic_smime_profile_policy_of; profile_policy_oids _ := [] |}.

Inductive BasicCodeSigningProfile := MkBasicCodeSigningProfile.
Definition basic_code_signing_profile_policy_of (now_unix : N) : ValidationPolicy :=
  let p := validation_policy_new now_unix in
  let p := set_required_leaf_eku (Some [ID_KP_CODE_SIGNING]) p in
  p.
#[global] Instance BasicCodeSigningProfile_impl : Profile BasicCodeSigningProfile := {|
  profile_id _ := "ietf.code-signing-basic"; profile_version _ := "RFC 5280 §4.2.1.12";
  profile_policy _ := basic_code_signing_profile_policy_of; profile_policy_oids _ := [] |}.

Inductive BasicTimeStampingProfile := MkBasicTimeStampingProfile.
Definition basic_time_stamping_profile_policy_of (now_unix : N) : ValidationPolicy :=
  let p := validation_policy_new now_unix in
  let p := set_required_leaf_eku (Some [ID_KP_TIME_STAMPING]) p in
  p.
#[global] Instance BasicTimeStampingProfile_impl : Profile BasicTimeStampingProfile := {|
  profile_id _ := "ietf.time-stamping-basic"; profile_version _ := "RFC 3161 §2.3";
  profile_policy _ := basic_time_stamping_profile_policy_of; profile_policy_oids _ := [] |}.

Inductive BasicOcspResponderProfile := MkBasicOcspResponderProfile.
Definition basic_ocsp_responder_profile_policy_of (now_unix : N) : ValidationPolicy :=
  let p := validation_policy_new now_unix in
  let p := set_required_leaf_eku (Some [ID_KP_OCSP_SIGNING]) p in
  p.
#[global] Instance BasicOcspResponderProfile_impl : Profile BasicOcspResponderProfile := {|
  profile_id _ := "ietf.ocsp-responder-basic"; profile_version _ := "RFC 6960 §4.2.2.2";
  profile_policy _ := basic_ocsp_responder_profile_policy_of; profile_policy_oids _ := [] |}.

(** ** The profiles of the CA/B Forum *)
Definition SHA256_WITH_RSA : ObjectIdentifier := [1; 2; 840; 113549; 1; 1; 11]%N.
Definition SHA384_WITH_RSA : ObjectIdentifier := [1; 2; 840; 113549; 1; 1; 12]%N.
Definition SHA512_WITH_RSA : ObjectIdentifier := [1; 2; 840; 113549; 1; 1; 13]%N.
Definition ECDSA_WITH_SHA256 : ObjectIdentifier := [1; 2; 840; 10045; 4; 3; 2]%N.
Definition ECDSA_WITH_SHA384 : ObjectIdentifier := [1; 2; 840; 10045; 4; 3; 3]%N.
Definition ECDSA_WITH_SHA512 : ObjectIdentifier := [1; 2; 840; 10045; 4; 3; 4]%N.

Definition CABF_TLS_BR_ALLOWED_ALGS : list ObjectIdentifier :=
  [SHA256_WITH_RSA; SHA384_WITH_RSA; SHA512_WITH_RSA; ECDSA_WITH_SHA256; ECDSA_WITH_SHA384;
   ECDSA_WITH_SHA512].
Definition CABF_SMIME_BR_ALLOWED_ALGS : list ObjectIdentifier :=
  [SHA256_WITH_RSA; SHA384_WITH_RSA; SHA512_WITH_RSA; ECDSA_WITH_SHA256; ECDSA_WITH_SHA384;
   ECDSA_WITH_SHA512].
Definition CABF_CS_BR_ALLOWED_ALGS : list ObjectIdentifier :=
  [SHA256_WITH_RSA; SHA384_WITH_RSA; SHA512_WITH_RSA; ECDSA_WITH_SHA256; ECDSA_WITH_SHA384;
   ECDSA_WITH_SHA512].

Definition OID_SURNAME : ObjectIdentifier := [2; 5; 4; 4]%N.
Definition OID_ORGANIZATION_NAME : ObjectIdentifier := [2; 5; 4; 10]%N.
Definition OID_GIVEN_NAME : ObjectIdentifier := [2; 5; 4; 42]%N.
Definition OID_PSEUDONYM : ObjectIdentifier := [2; 5; 4; 65]%N.
Definition OID_ORGANIZATION_IDENTIFIER : ObjectIdentifier := [2; 5; 4; 97]%N.
Definition CABF_SMIME_SPONSOR_VALIDATED_STRICT_POLICY : ObjectIdentifier :=
  [2; 23; 140; 1; 5; 3; 3]%N.
Definition CABF_SMIME_INDIVIDUAL_VALIDATED_STRICT_POLICY : ObjectIdentifier :=
  [2; 23; 140; 1; 5; 4; 3]%N.
Definition CABF_SMIME_INDIVIDUAL_VALIDATED_MULTIPURPOSE_POLICY : ObjectIdentifier :=
  [2; 23; 140; 1; 5; 4; 2]%N.
Definition CABF_SMIME_SPONSOR_VALIDATED_MULTIPURPOSE_POLICY : ObjectIdentifier :=
  [2; 23; 140; 1; 5; 3; 2]%N.

Inductive WebPkiProfile := MkWebPkiProfile.
Definition web_pki_profile_policy_of (now_unix : N) : ValidationPolicy :=
  let p := validation_policy_new now_unix in
  let p := set_allowed_signature_algs (Some CABF_TLS_BR_ALLOWED_ALGS) p in
  let p := set_min_rsa_key_bits (Some 2048%N) p in
  let p := set_require_subject_alt_name true p in
  let p := set_required_leaf_eku (Some [ID_KP_SERVER_AUTH]) p in
  p.
#[global] Instance WebPkiProfile_impl : Profile WebPkiProfile := {|
  profile_id _ := "cabf.br.tls"; profile_version _ := "2.2.6";
  profile_policy _ := web_pki_profile_policy_of; profile_policy_oids _ := [] |}.

Inductive SmimeProfile := MkSmimeProfile.
Definition smime_profile_policy_of (now_unix : N) : ValidationPolicy :=
  let p := validation_policy_new now_unix in
  let p := set_max_validity_secs (Some (825 * SECS_PER_DAY)%N) p in
  let p := set_allowed_signature_algs (Some CABF_SMIME_BR_ALLOWED_ALGS) p in
  let p := set_min_rsa_key_bits (Some 2048%N) p in
  let p := set_require_subject_alt_name true p in
  let p := set_require_rfc822_san true p in
  let p := set_required_leaf_eku (Some [ID_KP_EMAIL_PROTECTION]) p in
  p.
#[global] Instance SmimeProfile_impl : Profile SmimeProfile := {|
  profile_id _ := "cabf.smime"; profile_version _ := "1.0.14";
  profile_policy _ := smime_profile_policy_of; profile_policy_oids _ := [] |}.

Inductive SmimeIndividualValidated := MkSmimeIndividualValidated.
Definition smime_individual_validated_policy_of (now_unix : N) : ValidationPolicy :=
  let p := validation_policy_new now_unix in
  let p := set_max_validity_secs (Some (825 * SECS_PER_DAY)%N) p in
  let p := set_allowed_signature_algs (Some CABF_SMIME_BR_ALLOWED_ALGS) p in
  let p := set_min_rsa_key_bits (Some 2048%N) p in
  let p := set_require_subject_alt_name true p in
  let p := set_require_rfc822_san true p in
  let p := set_required_leaf_eku (Some [ID_KP_EMAIL_PROTECTION]) p in
  let p := set_required_leaf_policy_oids 
    (Some [CABF_SMIME_INDIVIDUAL_VALIDATED_STRICT_POLICY]) p in
  let p := set_required_leaf_subject_dn_attrs (Some
    (AnyOf [Field OID_PSEUDONYM; AllOf [Field OID_GIVEN_NAME; Field OID_SURNAME]])) p in
  p.
#[global] Instance SmimeIndividualValidated_impl : Profile SmimeIndividualValidated := {|
  profile_id _ := "cabf.smime.individual"; profile_version _ := "1.0.14";
  profile_policy _ := smime_individual_validated_policy_of; profile_policy_oids _ := [] |}.

Inductive SmimeIndividualValidatedMultipurpose := MkSmimeIndividualValidatedMultipurpose.
Definition smime_individual_validated_multipurpose_policy_of (now_unix : N) : ValidationPolicy :=
  let p := validation_policy_new now_unix in
  let p := set_max_validity_secs (Some (825 * SECS_PER_DAY)%N) p in
  let p := set_allowed_signature_algs (Some CABF_SMIME_BR_ALLOWED_ALGS) p in
  let p := set_min_rsa_key_bits (Some 2048%N) p in
  let p := set_require_subject_alt_name true p in
  let p := set_require_rfc822_san true p in
  let p := set_required_leaf_eku (Some [ID_KP_EMAIL_PROTECTION]) p in
  let p := set_required_leaf_policy_oids 
    (Some [CABF_SMIME_INDIVIDUAL_VALIDATED_MULTIPURPOSE_POLICY]) p in
  let p := set_required_leaf_subject_dn_attrs (Some
    (AnyOf [Field OID_PSEUDONYM; AllOf [Field OID_GIVEN_NAME; Field OID_SURNAME]])) p in
  p.
#[global] Instance SmimeIndividualValidatedMultipurpose_impl : Profile SmimeIndividualValidatedMultipurpose := {|
  profile_id _ := "cabf.smime.individual.multipurpose"; profile_version _ := "1.0.14";
  profile_policy _ := smime_individual_validated_multipurpose_policy_of; profile_policy_oids _ := [] |}.

Inductive SmimeSponsorValidated := MkSmimeSponsorValidated.
Definition smime_sponsor_validated_policy_of (now_unix : N) : ValidationPolicy :=
  let p := validation_policy_new now_unix in
  let p := set_max_validity_secs (Some (825 * SECS_PER_DAY)%N) p in
  let p := set_allowed_signature_algs (Some CABF_SMIME_BR_ALLOWED_ALGS) p in
  let p := set_min_rsa_key_bits (Some 2048%N) p in
  let p := set_require_subject_alt_name true p in
  let p := set_require_rfc822_san true p in
  let p := set_required_leaf_eku (Some [ID_KP_EMAIL_PROTECTION]) p in
  let p := set_required_leaf_policy_oids 
    (Some [CABF_SMIME_SPONSOR_VALIDATED_STRICT_POLICY]) p in
  let p := set_required_leaf_subject_dn_attrs (Some (AllOf
    [Field OID_ORGANIZATION_NAME; Field OID_ORGANIZATION_IDENTIFIER;
     AnyOf [Field OID_PSEUDONYM; AllOf [Field OID_GIVEN_NAME; Field OID_SURNAME]]])) p in
  p.
#[global] Instance SmimeSponsorValidated_impl : Profile SmimeSponsorValidated := {|
  profile_id _ := "cabf.smime.sponsor"; profile_version _ := "1.0.14";
  profile_policy _ := smime_sponsor_validated_policy_of; profile_policy_oids _ := [] |}.

Inductive SmimeSponsorValidatedMultipurpose := MkSmimeSponsorValidatedMultipurpose.
Definition smime_sponsor_validated_multipurpose_policy_of (now_unix : N) : ValidationPolicy :=
  let p := validation_policy_new now_unix in
  let p := set_max_validity_secs (Some (825 * SECS_PER_DAY)%N) p in
  let p := set_allowed_signature_algs (Some CABF_SMIME_BR_ALLOWED_ALGS) p in
  let p := set_min_rsa_key_bits (Some 2048%N) p in
  let p := set_require_subject_alt_name true p in
  let p := set_require_rfc822_san true p in
  let p := set_required_leaf_eku (Some [ID_KP_EMAIL_PROTECTION]) p in
  let p := set_required_leaf_policy_oids 
    (Some [CABF_SMIME_SPONSOR_VALIDATED_MULTIPURPOSE_POLICY]) p in
  let p := set_required_leaf_subject_dn_attrs (Some (AllOf
    [Field OID_ORGANIZATION_NAME; Field OID_ORGANIZATION_IDENTIFIER;
     AnyOf [Field OID_PSEUDONYM; AllOf [Field OID_GIVEN_NAME; Field OID_SURNAME]]])) p in
  p.
#[global] Instance SmimeSponsorValidatedMultipurpose_impl : Profile SmimeSponsorValidatedMultipurpose := {|
  profile_id _ := "cabf.smime.sponsor.multipurpose"; profile_version _ := "1.0.14";
  profile_policy _ := smime_sponsor_validated_multipurpose_policy_of; profile_policy_oids _ := [] |}.

Inductive CodeSigningProfile := MkCodeSigningProfile.
Definition code_signing_profile_policy_of (now_unix : N) : ValidationPolicy :=
  let p := validation_policy_new now_unix in
  let p := set_max_validity_secs (Some (460 * SECS_PER_DAY)%N) p in
  let p := set_allowed_signature_algs (Some CABF_CS_BR_ALLOWED_ALGS) p in
  let p := set_min_rsa_key_bits (Some 3072%N) p in
  let p := set_require_subject_alt_name false p in
  let p := set_required_leaf_eku (Some [ID_KP_CODE_SIGNING]) p in
  p.
#[global] Instance CodeSigningProfile_impl : Profile CodeSigningProfile := {|
  profile_id _ := "cabf.cs"; profile_version _ := "3.10.0";
  profile_policy _ := code_signing_profile_policy_of; profile_policy_oids _ := [] |}.

(** The copy of the cap in pkix-profiles-cabf. *)
Definition sc081_validity_cap (not_before_unix : N) : N :=
  if decide (1868227200 ≤ not_before_unix)%N then 47 * SECS_PER_DAY
  else if decide (1805068800 ≤ not_before_unix)%N then 100 * SECS_PER_DAY
  else if decide (1773532800 ≤ not_before_unix)%N then 200 * SECS_PER_DAY
  else 398 * SECS_PER_DAY.

(** ** The aliases *)

Definition rfc5280_policy : N → ValidationPolicy := profile_policy MkRfc5280Profile.
Definition basic_tls_policy : N → ValidationPolicy := profile_policy MkBasicTlsProfile.
Definition basic_tls_client_policy : N → ValidationPolicy := profile_policy MkBasicTlsClientProfile.
Definition basic_smime_policy : N → ValidationPolicy := profile_policy MkBasicSmimeProfile.
Definition basic_code_signing_policy : N → ValidationPolicy := profile_policy MkBasicCodeSigningProfile.
Definition basic_time_stamping_policy : N → ValidationPolicy := profile_policy MkBasicTimeStampingProfile.
Definition basic_ocsp_responder_policy : N → ValidationPolicy := profile_policy MkBasicOcspResponderProfile.
Definition web_pki_policy : N → ValidationPolicy := profile_policy MkWebPkiProfile.
Definition smime_policy : N → ValidationPolicy := profile_policy MkSmimeProfile.
Definition smime_individual_policy : N → ValidationPolicy := profile_policy MkSmimeIndividualValidated.
Definition smime_individual_multipurpose_policy : N → ValidationPolicy := profile_policy MkSmimeIndividualValidatedMultipurpose.
Definition smime_sponsor_policy : N → ValidationPolicy := profile_policy MkSmimeSponsorValidated.
Definition smime_sponsor_multipurpose_policy : N → ValidationPolicy := profile_policy MkSmimeSponsorValidatedMultipurpose.
Definition code_signing_policy : N → ValidationPolicy := profile_policy MkCodeSigningProfile.

(** ** The bundles of lints *)
Section lints.
Context `{LintLib} `{DecodeOwned BasicConstraints} `{DecodeOwned ExtendedKeyUsage}
  `{DecodeOwned SubjectAltName}.

Definition basic_tls_lints : list ShippedLint :=
  [Rfc6125TlsServerSanLint; Rfc5280EkuServerAuthLint; Rfc5280BasicConstraintsCaLeafLint;
   Rfc5280SanRequiredWhenSubjectEmptyLint; Rfc5280SignatureAlgorithmMatchLint;
   Rfc5280MaxSerialLengthLint MAX_SERIAL_DEFAULT].
Definition basic_smime_lints : list ShippedLint :=
  [Rfc8398SmimeSanLint; Rfc8551EkuEmailProtectionLint; Rfc8398SmimeMailboxEquivalenceLint;
   Rfc5280SignatureAlgorithmMatchLint; Rfc5280MaxSerialLengthLint MAX_SERIAL_DEFAULT].

(** [lint_runner] calls [LintRunner::new], which panics on equal identifiers
    and returns the runner otherwise. *)
Definition new_runner {L} `{Lint L} (ls : list L) : LintRunner L :=
  match lint_runner_new (E:=Empty_set) ls with
  | Ok r => r
  | _ => {| lints := ls; bundle_version := [] |}
  end.

#[global] Instance BasicTlsProfile_lints : LintProfile BasicTlsProfile := {|
  profile_lints _ := basic_tls_lints; lint_runner _ := new_runner basic_tls_lints |}.
#[global] Instance BasicSmimeProfile_lints : LintProfile BasicSmimeProfile := {|
  profile_lints _ := basic_smime_lints; lint_runner _ := new_runner basic_smime_lints |}.
#[global] Instance WebPkiProfile_lints : LintProfile WebPkiProfile := {|
  profile_lints _ := all_lints; lint_runner _ := new_runner all_lints |}.
#[global] Instance SmimeProfile_lints : LintProfile (L:=CabfLint) SmimeProfile := {|
  profile_lints _ := []; lint_runner _ := new_runner [] |}.
#[global] Instance SmimeIndividualValidated_lints :
    LintProfile (L:=CabfLint) SmimeIndividualValidated := {|
  profile_lints _ := []; lint_runner _ := new_runner [] |}.
#[global] Instance SmimeIndividualValidatedMultipurpose_lints :
    LintProfile (L:=CabfLint) SmimeIndividualValidatedMultipurpose := {|
  profile_lints _ := []; lint_runner _ := new_runner [] |}.
#[global] Instance SmimeSponsorValidated_lints :
    LintProfile (L:=CabfLint) SmimeSponsorValidated := {|
  profile_lints _ := []; lint_runner _ := new_runner [] |}.
#[global] Instance SmimeSponsorValidatedMultipurpose_lints :
    LintProfile (L:=CabfLint) SmimeSponsorValidatedMultipurpose := {|
  profile_lints _ := []; lint_runner _ := new_runner [] |}.
#[global] Instance CodeSigningProfile_lints : LintProfile (L:=CabfLint) CodeSigningProfile := {|
  profile_lints _ := []; lint_runner _ := new_runner [] |}.

(** ** Shape checks *)
Context `{Sha256} `{Encode Certificate}.

Definition check_basic_tls_shape (cert : Certificate) (now_unix : N) : result (list Finding) unit :=
  check_shape cert KindLeaf now_unix MkBasicTlsProfile.
Definition check_basic_smime_shape (cert : Certificate) (now_unix : N) : result (list Finding) unit :=
  check_shape cert KindLeaf now_unix MkBasicSmimeProfile.
Definition check_web_pki_shape (cert : Certificate) (now_unix : N) : result (list Finding) unit :=
  check_shape cert KindLeaf now_unix MkWebPkiProfile.
Definition check_smime_shape (cert : Certificate) (now_unix : N) : result (list Finding) unit :=
  check_shape cert KindLeaf now_unix MkSmimeProfile.
Definition check_code_signing_shape (cert : Certificate) (now_unix : N) :
    result (list Finding) unit :=
  check_shape cert KindLeaf now_unix MkCodeSigningProfile.
End lints.
