(* ===== verification/ProfilesSpec.v ===== *)
(** * What the profiles promise

    The shape checks accept exactly the certificates that satisfy the rule of
    every lint of the bundle; a path that a profile validates has what its
    document asks for; a leaf that the web profile validates can fail the shape
    check for its term or its key only. *)
From S2P Require Import Prelude X509 PathTypes Verifier Samples Names CertChecks ChainWalk WalkSound ValidatePath Identity LintTypes LintRunner LintRules LintSpec HexSpec LintRulesSpec CabfLints CabfLintsSpec Profiles.

(** ** Runs without fatal verdicts *)
Section no_fatal.
Context {L : Type} `{Lint L} `{Sha256} `{Encode Certificate}.

(** The lints of the bundle look at certificates and never give up. *)
Definition never_fatal (ls : list L) cert kind now : Prop :=
  ∀ l, l ∈ ls → scope l = ScopeCertificate ∧ is_fatal (verdict l cert kind now) = false.

Lemma run_cert_loop_no_fatal self cert kind i now ls :
  never_fatal ls cert kind now →
  run_cert_loop self cert kind i now (cert_sha256_of cert) ls =
  cert_finding self cert kind i now <$> ls.
Proof.
  induction ls as [|l ls IH]; intros Hls; cbn [run_cert_loop]; [done|].
  destruct (Hls l) as [Hs Hf]; [by left|]. rewrite decide_False by congruence.
  change (if kind_matches kind (applies_to l) then check_cert l cert kind now
          else LintNotApplicable) with (verdict l cert kind now).
  rewrite Hf, fmap_cons, IH; [done|]. intros l' Hl'. apply Hls. by right.
Qed.

Lemma check_shape_no_fatal {P} `{!LintProfile (L:=L) P} (p : P) cert kind now :
  never_fatal (lints (lint_runner p)) cert kind now →
  check_shape cert kind now p = Ok tt ↔
  ∀ l, l ∈ lints (lint_runner p) → ¬ fails (verdict l cert kind now).
Proof.
  intros Hnf. unfold check_shape, run_cert. rewrite run_cert_loop_no_fatal by done.
  rewrite fail_if_Ok. split.
  - intros Hb l Hl Hfail.
    apply existsb_elem_false with (x := cert_finding (lint_runner p) cert kind 0 now l) in Hb;
      [|by apply list_elem_of_fmap_2]. cbn in Hb. by destruct (verdict l cert kind now).
  - intros Hok. destruct (existsb _ _) eqn:Hb; [|done].
    apply existsb_elem in Hb as (f & Hf & Hr). apply list_elem_of_fmap in Hf as (l & -> & Hl).
    cbn in Hr. specialize (Hok l Hl). by destruct (verdict l cert kind now).
Qed.
End no_fatal.

(** ** The bundles *)
Section shapes.
Context `{LintLib} `{DecodeOwned BasicConstraints} `{DecodeOwned ExtendedKeyUsage}
  `{DecodeOwned SubjectAltName} `{Sha256} `{Encode Certificate}.
Implicit Types (cert : Certificate).

(** The constructors do not panic: the identifiers differ. *)
Lemma bundles_are_built :
  lint_runner_new (E:=Empty_set) basic_tls_lints = Ok (new_runner basic_tls_lints) ∧
  lint_runner_new (E:=Empty_set) basic_smime_lints = Ok (new_runner basic_smime_lints) ∧
  lint_runner_new (E:=Empty_set) all_lints = Ok (new_runner all_lints).
Proof. split_and!; vm_compute; reflexivity. Qed.

Lemma new_runner_lints {L} `{Lint L} (ls : list L) : lints (new_runner ls) = ls.
Proof.
  unfold new_runner, lint_runner_new.
  destruct (check_unique_ids (E:=Empty_set) ls) as [[]| |]; done.
Qed.

(** A leaf is linted for the lints on leaves and on any certificate. *)
Lemma verdict_pass_or_error (l : ShippedLint) cert now :
  applies_to l = KindLeaf ∨ applies_to l = KindAny →
  verdict l cert KindLeaf now = check_cert l cert KindLeaf now.
Proof. intros Hl. unfold verdict. by destruct Hl as [-> | ->]. Qed.

Lemma pass_or_error_fails r : pass_or_error r → (¬ fails r ↔ r = LintPass).
Proof. intros [-> | [d ->]]; cbn; split; [done|by intros _ []|by intros []|done]. Qed.
Lemma pass_or_error_not_fatal r : pass_or_error r → is_fatal r = false.
Proof. by intros [-> | [d ->]]. Qed.

(** A bundle of shipped lints that all apply to leaves. *)
Lemma shipped_shape {P} `{!LintProfile P} (p : P) (ls : list ShippedLint) cert now :
  lints (lint_runner p) = ls →
  (∀ l, l ∈ ls → applies_to l = KindLeaf ∨ applies_to l = KindAny) →
  check_shape cert KindLeaf now p = Ok tt ↔ ∀ l, l ∈ ls → rule l cert.
Proof.
  intros Hp Hls. rewrite check_shape_no_fatal; rewrite Hp.
  - split; intros Hr l Hl; specialize (Hr l Hl);
      rewrite verdict_pass_or_error in * by (by apply Hls);
      destruct (shipped_lint_spec l cert KindLeaf now) as [Hpass Hpe].
    + by apply Hpass, pass_or_error_fails.
    + by apply pass_or_error_fails, Hpass.
  - intros l Hl. rewrite verdict_pass_or_error by (by apply Hls).
    split; [by destruct l|]. by apply pass_or_error_not_fatal, shipped_lint_spec.
Qed.

(** The lints of the CA/B Forum on a leaf. *)
Definition web_rule (l : CabfLint) cert : Prop :=
  l ≠ BcCaFlagLint → (l = RsaMinKeySizeLint → is_rsa cert) → cabf_rule l cert.

Lemma cabf_verdict l cert now :
  octets (key_octets cert) →
  is_fatal (verdict l cert KindLeaf now) = false ∧
  (¬ fails (verdict l cert KindLeaf now) ↔ web_rule l cert).
Proof.
  intros Hkey. destruct (cabf_lint_spec l cert KindLeaf now Hkey) as (Hna & Hpass & Hpe).
  unfold web_rule. destruct (decide (l = BcCaFlagLint)) as [->|Hl]; [split; [done|]; split; [by intros _ []|by intros _ Hf]|].
  assert (Hv : verdict l cert KindLeaf now = check_cert l cert KindLeaf now) by (by destruct l).
  rewrite Hv. destruct (decide (check_cert l cert KindLeaf now = LintNotApplicable)) as [Hn|Hn].
  - rewrite Hn. split; [done|]. apply Hna in Hn as [? ?]. split; [|by intros _ []]. tauto.
  - specialize (Hpe Hn). split; [by apply pass_or_error_not_fatal|].
    rewrite pass_or_error_fails by done. rewrite Hpass. split; [tauto|]. intros Hr.
    assert (Hrsa : l = RsaMinKeySizeLint → is_rsa cert).
    { intros Hl'. destruct (decide (alg_oid (spki_algorithm (subject_public_key_info
        (tbs_certificate cert))) = RSA_ENCRYPTION)) as [|Hr']; [done|]. destruct Hn. by apply Hna. }
    tauto.
Qed.

(** The shape checks accept exactly the certificates that satisfy, as a
    leaf, the rule of every lint of the bundle: those of the RFCs for TLS and
    for mail, those of the Baseline Requirements for the web (an authority's
    flag aside, and the size of a key that is not RSA).  The checks for S/MIME
    and code signing of the CA/B Forum have no lints and accept everything. *)
Theorem shape_checks_correct cert now (Hkey : octets (key_octets cert)) :
  (check_basic_tls_shape cert now = Ok tt ↔ ∀ l, l ∈ basic_tls_lints → rule l cert) ∧
  (check_basic_smime_shape cert now = Ok tt ↔ ∀ l, l ∈ basic_smime_lints → rule l cert) ∧
  (check_web_pki_shape cert now = Ok tt ↔ ∀ l, web_rule l cert) ∧
  check_smime_shape cert now = Ok tt ∧ check_code_signing_shape cert now = Ok tt.
Proof.
  split_and!.
  - apply shipped_shape; [apply new_runner_lints|]. apply Forall_forall.
    repeat (apply Forall_cons; split; [first [by left|by right]|]). constructor.
  - apply shipped_shape; [apply new_runner_lints|]. apply Forall_forall.
    repeat (apply Forall_cons; split; [first [by left|by right]|]). constructor.
  - unfold check_web_pki_shape. rewrite check_shape_no_fatal; cbn [lint_runner WebPkiProfile_lints];
      rewrite new_runner_lints.
    + assert (Hall : ∀ l, l ∈ all_lints) by (intros []; unfold all_lints; set_solver).
      split; intros Hr l; [|intros _]; by apply (cabf_verdict l cert now Hkey), Hr.
    + intros l _. split; [done|]. by apply cabf_verdict.
  - done.
  - done.
Qed.
End shapes.

(** ** Paths *)
Section paths.
Context `{PathAsn1} {V : Type} `{SignatureVerifier V}.
Implicit Types (chain : list Certificate) (verifier : V) (cert : Certificate).

Lemma validate_path_cert_ok chain anchors policy verifier vp :
  validate_path chain anchors policy verifier = Ok vp →
  ∃ a, ∀ i c, chain !! i = Some c → cert_ok policy verifier chain a i c.
Proof.
  intros Hv. destruct (validate_path_walk _ _ _ _ _ Hv) as (a & t & _ & Hw & _).
  exists a. by eapply chain_walk_sound.
Qed.

Lemma validated_leaf_ok chain anchors policy verifier vp :
  validate_path chain anchors policy verifier = Ok vp →
  ∃ leaf, chain !! 0 = Some leaf ∧ leaf_ok policy leaf.
Proof.
  intros Hv. pose proof Hv as ([Hc _ _ _ _] & _)%validate_path_Ok.
  destruct (validate_path_cert_ok _ _ _ _ _ Hv) as [a Hok].
  destruct chain as [|leaf chain]; [done|]. exists leaf. split; [done|].
  eapply ok_leaf; [by eapply (Hok 0)|done].
Qed.

Lemma ext_is_ext_rule {T} `{DecodeOwned T} cert oid (v : T) (P : T → Prop) :
  ext_is cert oid (Some v) → P v → ext_rule oid P cert.
Proof.
  unfold ext_is, ext_rule. destruct (find_ext cert oid) as [e|]; [|done].
  intros (t & Ht & [= ->]) HP. by exists e, t.
Qed.

(** The leaf can be used for a purpose, has a name, or a mailbox, and asserts a
    policy; its subject has an attribute. *)
Definition has_purpose (oid : ObjectIdentifier) : Certificate → Prop :=
  ext_rule OID_EXTENDED_KEY_USAGE (λ k : ExtendedKeyUsage, oid ∈ eku_oids k).
Definition has_names : Certificate → Prop :=
  ext_rule OID_SUBJECT_ALT_NAME (λ s : SubjectAltName, san_names s ≠ []).
Definition has_mailbox : Certificate → Prop :=
  ext_rule OID_SUBJECT_ALT_NAME (λ s : SubjectAltName, ∃ m, Rfc822Name m ∈ san_names s).
Definition asserts_policy (oid : ObjectIdentifier) : Certificate → Prop :=
  ext_rule OID_CERTIFICATE_POLICIES (λ p : CertificatePolicies,
    ∃ i, i ∈ cp_infos p ∧ policy_identifier i = oid).
Definition has_attr cert (oid : ObjectIdentifier) : Prop :=
  ∃ rdn ava, rdn ∈ subject (tbs_certificate cert) ∧ ava ∈ rdn ∧ ava_oid ava = oid.
Definition names_person cert : Prop :=
  has_attr cert OID_PSEUDONYM ∨ has_attr cert OID_GIVEN_NAME ∧ has_attr cert OID_SURNAME.

Lemma leaf_purpose policy leaf req oid :
  leaf_ok policy leaf → required_leaf_eku policy = Some req → oid ∈ req → has_purpose oid leaf.
Proof.
  intros Hl Hreq Hoid. destruct (leaf_eku _ _ Hl req oid Hreq Hoid) as (e & He & Hin).
  by eapply ext_is_ext_rule.
Qed.
Lemma leaf_names policy leaf :
  leaf_ok policy leaf → require_subject_alt_name policy = true →
  has_names leaf ∧ (require_rfc822_san policy = true → has_mailbox leaf).
Proof.
  intros Hl Hreq. destruct (leaf_san _ _ Hl Hreq) as (s & Hs & Hne & Hm).
  split; [by eapply ext_is_ext_rule|]. intros Hr. by eapply ext_is_ext_rule; [|by apply Hm].
Qed.

(** C31: on a path that the web profile validates every certificate is valid at
    the time, is signed with SHA-2, and its RSA key, if it has one that can be
    read, is measured at 2048 bits or more; the leaf has an alternative name
    and may authenticate servers.  Its shape check can fail for the term of the
    certificate and for the exact size of its key only. *)
Theorem web_pki_path_correct chain anchors verifier now vp
    (Hv : validate_path chain anchors (web_pki_policy now) verifier = Ok vp) :
  (∀ i c, chain !! i = Some c →
    (starts c ≤ now ≤ ends c)%N ∧ alg_oid (signature_algorithm c) ∈ CABF_TLS_BR_ALLOWED_ALGS ∧
    ∀ b, rsa_public_key_bits (subject_public_key_info (tbs_certificate c)) = Some b →
      (2048 ≤ b)%N) ∧
  ∃ leaf, chain !! 0 = Some leaf ∧ has_names leaf ∧ has_purpose ID_KP_SERVER_AUTH leaf ∧
    ∀ l, ¬ web_rule l leaf → l = ValidityMaxLint ∨ l = RsaMinKeySizeLint.
Proof.
  destruct (validate_path_cert_ok _ _ _ _ _ Hv) as [a Hok].
  assert (Hall : ∀ i c, chain !! i = Some c →
    (starts c ≤ now ≤ ends c)%N ∧ alg_oid (signature_algorithm c) ∈ CABF_TLS_BR_ALLOWED_ALGS ∧
    ∀ b, rsa_public_key_bits (subject_public_key_info (tbs_certificate c)) = Some b → (2048 ≤ b)%N).
  { intros i c Hc. specialize (Hok i c Hc). split; [exact (ok_validity _ _ _ _ _ _ Hok)|split].
    - by eapply ok_algorithm.
    - intros b. by eapply ok_rsa_bits. }
  split; [done|]. destruct (validated_leaf_ok _ _ _ _ _ Hv) as (leaf & Hl & Hleaf).
  destruct (leaf_names _ _ Hleaf eq_refl) as [Hn _].
  assert (Hp : has_purpose ID_KP_SERVER_AUTH leaf)
    by (eapply leaf_purpose; [exact Hleaf|reflexivity|by left]).
  exists leaf. split_and!; [done..|]. intros l Hr. destruct l; try tauto.
  - destruct Hr. intros _ _. cbn. destruct (Hall 0 leaf Hl) as (_ & Ha & _).
    revert Ha. generalize (alg_oid (signature_algorithm leaf)). apply Forall_forall.
    apply (bool_decide_unpack _). vm_compute. exact I.
  - destruct Hr. by intros _ _.
  - destruct Hr. by intros _ _.
  - destruct Hr. by intros Hne.
Qed.

(** The tiers of the S/MIME requirements: the policy, the identifier that the
    leaf asserts, and whether an organisation vouches for the person. *)
Definition smime_tiers : list ((N → ValidationPolicy) * ObjectIdentifier * bool) := [
  (smime_individual_policy, CABF_SMIME_INDIVIDUAL_VALIDATED_STRICT_POLICY, false);
  (smime_individual_multipurpose_policy, CABF_SMIME_INDIVIDUAL_VALIDATED_MULTIPURPOSE_POLICY, false);
  (smime_sponsor_policy, CABF_SMIME_SPONSOR_VALIDATED_STRICT_POLICY, true);
  (smime_sponsor_multipurpose_policy, CABF_SMIME_SPONSOR_VALIDATED_MULTIPURPOSE_POLICY, true)].

Lemma eval_field cert oid :
  evaluate_dn_attr_rule (subject (tbs_certificate cert)) (Field oid) = true ↔ has_attr cert oid.
Proof. apply dn_contains_oid_spec. Qed.

Lemma eval_person cert :
  evaluate_dn_attr_rule (subject (tbs_certificate cert))
    (AnyOf [Field OID_PSEUDONYM; AllOf [Field OID_GIVEN_NAME; Field OID_SURNAME]]) = true ↔
  names_person cert.
Proof.
  unfold names_person. rewrite <-!eval_field. cbn.
  rewrite orb_true_iff, orb_false_r, andb_true_r, andb_true_iff. done.
Qed.

(** On a path that a tier of the S/MIME profiles validates no certificate
    is valid for more than 825 days, and the leaf has a mailbox, may protect
    mail, asserts the policy of the tier and names a person by a pseudonym or
    by both names; a sponsored one names the organisation and its identifier
    too. *)
Theorem smime_tiers_correct policy oid sponsored chain anchors verifier now vp
    (Htier : (policy, oid, sponsored) ∈ smime_tiers)
    (Hv : validate_path chain anchors (policy now) verifier = Ok vp) :
  (∀ c, c ∈ chain → (ends c - starts c ≤ 825 * 86400)%N) ∧
  ∃ leaf, chain !! 0 = Some leaf ∧ has_mailbox leaf ∧ has_purpose ID_KP_EMAIL_PROTECTION leaf ∧
    asserts_policy oid leaf ∧ names_person leaf ∧
    (sponsored = true →
      has_attr leaf OID_ORGANIZATION_NAME ∧ has_attr leaf OID_ORGANIZATION_IDENTIFIER).
Proof.
  assert (Hpol : max_validity_secs (policy now) = Some (825 * 86400)%N ∧
    require_subject_alt_name (policy now) = true ∧ require_rfc822_san (policy now) = true ∧
    required_leaf_eku (policy now) = Some [ID_KP_EMAIL_PROTECTION] ∧
    required_leaf_policy_oids (policy now) = Some [oid] ∧
    ∃ r, required_leaf_subject_dn_attrs (policy now) = Some r ∧
      ∀ cert, evaluate_dn_attr_rule (subject (tbs_certificate cert)) r = true →
        names_person cert ∧ (sponsored = true →
          has_attr cert OID_ORGANIZATION_NAME ∧ has_attr cert OID_ORGANIZATION_IDENTIFIER)).
  { unfold smime_tiers in Htier. rewrite !elem_of_cons in Htier.
    destruct Htier as [[= -> -> ->]|[[= -> -> ->]|[[= -> -> ->]|[[= -> -> ->]|[]%not_elem_of_nil]]]];
      (split_and!; [reflexivity..|]; eexists; split; [reflexivity|]); intros cert Hr.
    1, 2: split; [by apply eval_person|done].
    all: cbn [evaluate_dn_attr_rule forallb] in Hr; apply andb_true_iff in Hr as [Hn Hr];
      apply andb_true_iff in Hr as [Hi Hr]; rewrite andb_true_r in Hr;
      split; [by apply eval_person|intros _; split; by apply dn_contains_oid_spec]. }
  destruct Hpol as (Hmax & Hsan & Hmail & Heku & Hoid & r & Hdn & Hr). split.
  - intros c [i Hc]%list_elem_of_lookup. destruct (validate_path_cert_ok _ _ _ _ _ Hv) as [a Hok].
    exact (ok_max_validity _ _ _ _ _ _ (Hok i c Hc) _ Hmax).
  - destruct (validated_leaf_ok _ _ _ _ _ Hv) as (leaf & Hl & Hleaf).
    destruct (leaf_names _ _ Hleaf Hsan) as [_ Hm]. exists leaf.
    assert (oid ∈ [oid]) as Hin by by left.
    destruct (leaf_policies _ _ Hleaf _ oid Hoid Hin) as (cp & Hcp & Hpi).
    split_and!; [done|by apply Hm|by eapply leaf_purpose; [| |by left]|by eapply ext_is_ext_rule|..].
    all: apply Hr; by apply (leaf_dn _ _ Hleaf).
Qed.
End paths.

(** The rule of the tiers refuses a subject with a given name alone. *)
Example given_name_alone_refused :
  let given_name := {| ava_oid := OID_GIVEN_NAME;
                       ava_value := {| any_tag := Utf8String; any_value := str "Ada" |} |} in
  ∃ r, required_leaf_subject_dn_attrs (smime_individual_policy 0) = Some r ∧
    evaluate_dn_attr_rule [[given_name]] r = false.
Proof. eexists. split; [reflexivity|]. reflexivity. Qed.

(** The two copies of the cap agree. *)
Lemma sc081_copies_agree t : Profiles.sc081_validity_cap t = CabfLints.sc081_validity_cap t.
Proof. reflexivity. Qed.

(** ** Certificates of the profiles

    A certificate for the web, one for mail and an RSA key of 2048 bits, with
    the toy decoders. *)
Module ProfilesExamples.
#[local] Instance pe_sha : Sha256 := pad32.
#[local] Instance pe_encode : Encode Certificate := λ c, inr (serial_number (tbs_certificate c)).
#[local] Instance pe_bc : DecodeOwned BasicConstraints := decode_basic_constraints.
#[local] Instance pe_eku : DecodeOwned ExtendedKeyUsage := decode_extended_key_usage.
#[local] Instance pe_san : DecodeOwned SubjectAltName := decode_subject_alt_name.
#[local] Instance pe_lib : LintLib := {|
  domain_to_ascii_utf8 := Some; utf8_string_ref := λ a, Some (any_value a);
  oid_to_string := λ _, [] |}.

(** The certificate [c] signed with [alg], for the subject [subj] with the key [k]. *)
Definition made_with (alg : ObjectIdentifier) (subj : Name) (k : SubjectPublicKeyInfo)
    (c : Certificate) : Certificate :=
  let a := {| alg_oid := alg; alg_parameters := None |} in
  let t := tbs_certificate c in {|
  tbs_certificate := {|
    serial_number := serial_number t; tbs_signature := a; issuer := issuer t;
    not_before := not_before t; not_after := not_after t; subject := subj;
    subject_public_key_info := k; extensions := extensions t |};
  signature_algorithm := a; cert_signature := cert_signature c |}.

(** The modulus 2 ^ 2047 and the exponent 65537, in DER. *)
Definition rsa_2048 : SubjectPublicKeyInfo := {|
  spki_algorithm := {| alg_oid := RSA_ENCRYPTION; alg_parameters := None |};
  subject_public_key := {| unused_bits := 0; raw_bytes :=
    ([48; 130; 1; 10; 2; 130; 1; 1; 0; 128] ++ replicate 255 0 ++ [2; 3; 1; 0; 1])%N |} |}.

Definition attr (oid : ObjectIdentifier) (v : string) : RelativeDistinguishedName :=
  [{| ava_oid := oid; ava_value := {| any_tag := Utf8String; any_value := str v |} |}].

Definition web_leaf : Certificate :=
  made_with ECDSA_WITH_SHA256 (sample_name "leaf") rsa_2048
    (sample_cert "root" "leaf" 2 [sample_ext OID_SUBJECT_ALT_NAME (2%N :: str "a.test");
                                  sample_ext OID_EXTENDED_KEY_USAGE [1]%N]).
Definition mail_leaf : Certificate :=
  made_with SHA256_WITH_RSA (sample_name "leaf" ++ [attr OID_GIVEN_NAME "Ada"; attr OID_SURNAME "L"])
    rsa_2048
    (sample_cert "root" "leaf" 2 [sample_ext OID_SUBJECT_ALT_NAME (1%N :: str "a@a.test");
                                  sample_ext OID_EXTENDED_KEY_USAGE [4]%N;
                                  sample_ext OID_CERTIFICATE_POLICIES [254]%N]).

Lemma web_leaf_key : octets (key_octets web_leaf).
Proof. apply (bool_decide_unpack _). vm_compute. exact I. Qed.

Lemma cabf_lints_correct_witness :
  ∃ n, encodes_modulus (key_octets web_leaf) n ∧ (2 ^ 2047 ≤ n)%N.
Proof.
  destruct (cabf_lints_correct RsaMinKeySizeLint web_leaf KindLeaf 150 web_leaf_key) as (_ & Hp & _).
  refine (proj1 (proj1 Hp _)). vm_compute. reflexivity.
Defined.

Lemma shape_checks_correct_witness :
  web_rule RsaMinKeySizeLint web_leaf ∧ web_rule ValidityMaxLint web_leaf.
Proof.
  destruct (shape_checks_correct web_leaf 150 web_leaf_key) as (_ & _ & Hw & _).
  assert (Hs : check_web_pki_shape web_leaf 150 = Ok tt) by (vm_compute; reflexivity).
  exact (conj (proj1 Hw Hs RsaMinKeySizeLint) (proj1 Hw Hs ValidityMaxLint)).
Defined.

Lemma web_pki_path_correct_witness : has_purpose ID_KP_SERVER_AUTH web_leaf.
Proof.
  destruct (validate_path [web_leaf] [sample_anchor "root"] (web_pki_policy 150) MkSampleVerifier)
    as [vp|e|] eqn:Hv; [|vm_compute in Hv; discriminate Hv..].
  destruct (web_pki_path_correct [web_leaf] [sample_anchor "root"] MkSampleVerifier 150 vp Hv)
    as (_ & leaf & Hl & _ & Hp & _).
  injection Hl as <-. exact Hp.
Defined.

Lemma smime_tiers_correct_witness : names_person mail_leaf.
Proof.
  destruct (validate_path [mail_leaf] [sample_anchor "root"] (smime_individual_policy 150)
    MkSampleVerifier) as [vp|e|] eqn:Hv; [|vm_compute in Hv; discriminate Hv..].
  destruct (smime_tiers_correct smime_individual_policy CABF_SMIME_INDIVIDUAL_VALIDATED_STRICT_POLICY
    false [mail_leaf] [sample_anchor "root"] MkSampleVerifier 150 vp (list_elem_of_here _ _) Hv)
    as (_ & leaf & Hl & _ & _ & _ & Hn & _).
  injection Hl as <-. exact Hn.
Defined.
End ProfilesExamples.
