(* ===== verification/ChainSimple.v ===== *)
(** * Simple chains (pkix-chain-simple/src/lib.rs)

    [verify_simple] checks the shape of a chain of at most three certificates
    against lists of algorithms and extensions, and then validates the path
    with the default verifier. *)
From S2P Require Import Prelude X509 PathTypes Verifier ChainWalk ValidatePath.

(** ** The lists *)
Definition OID_RSA_PKCS1V15_SHA256 : ObjectIdentifier := [1; 2; 840; 113549; 1; 1; 11]%N.
Definition OID_ECDSA_P256_SHA256 : ObjectIdentifier := [1; 2; 840; 10045; 4; 3; 2]%N.
Definition ALLOWED_SIG_ALGS : list ObjectIdentifier :=
  [OID_RSA_PKCS1V15_SHA256; OID_ECDSA_P256_SHA256].

Definition OID_EXT_BASIC_CONSTRAINTS : ObjectIdentifier := [2; 5; 29; 19]%N.
Definition OID_EXT_KEY_USAGE : ObjectIdentifier := [2; 5; 29; 15]%N.
Definition OID_EXT_EXTENDED_KEY_USAGE : ObjectIdentifier := [2; 5; 29; 37]%N.
Definition OID_EXT_SUBJECT_ALT_NAME : ObjectIdentifier := [2; 5; 29; 17]%N.
Definition OID_EXT_SUBJECT_KEY_ID : ObjectIdentifier := [2; 5; 29; 14]%N.
Definition OID_EXT_AUTHORITY_KEY_ID : ObjectIdentifier := [2; 5; 29; 35]%N.
Definition OID_EXT_CRL_DISTRIBUTION_POINTS : ObjectIdentifier := [2; 5; 29; 31]%N.
Definition OID_EXT_AUTHORITY_INFO_ACCESS : ObjectIdentifier := [1; 3; 6; 1; 5; 5; 7; 1; 1]%N.
Definition OID_EXT_CERTIFICATE_POLICIES : ObjectIdentifier := [2; 5; 29; 32]%N.
Definition OID_EXT_POLICY_MAPPINGS : ObjectIdentifier := [2; 5; 29; 33]%N.
Definition OID_EXT_NAME_CONSTRAINTS : ObjectIdentifier := [2; 5; 29; 30]%N.
Definition OID_EXT_POLICY_CONSTRAINTS : ObjectIdentifier := [2; 5; 29; 36]%N.
Definition OID_EXT_INHIBIT_ANY_POLICY : ObjectIdentifier := [2; 5; 29; 54]%N.
Definition OID_EXT_ISSUER_ALT_NAME : ObjectIdentifier := [2; 5; 29; 18]%N.

Definition ALLOWED_LEAF_EXTENSIONS : list ObjectIdentifier :=
  [OID_EXT_BASIC_CONSTRAINTS; OID_EXT_KEY_USAGE; OID_EXT_EXTENDED_KEY_USAGE;
   OID_EXT_SUBJECT_ALT_NAME; OID_EXT_SUBJECT_KEY_ID; OID_EXT_AUTHORITY_KEY_ID;
   OID_EXT_CRL_DISTRIBUTION_POINTS; OID_EXT_AUTHORITY_INFO_ACCESS].
Definition ALLOWED_INTERMEDIATE_EXTENSIONS : list ObjectIdentifier :=
  [OID_EXT_BASIC_CONSTRAINTS; OID_EXT_KEY_USAGE; OID_EXT_SUBJECT_KEY_ID;
   OID_EXT_AUTHORITY_KEY_ID; OID_EXT_CRL_DISTRIBUTION_POINTS; OID_EXT_AUTHORITY_INFO_ACCESS;
   OID_EXT_CERTIFICATE_POLICIES; OID_EXT_POLICY_MAPPINGS; OID_EXT_NAME_CONSTRAINTS;
   OID_EXT_POLICY_CONSTRAINTS; OID_EXT_INHIBIT_ANY_POLICY; OID_EXT_EXTENDED_KEY_USAGE;
   OID_EXT_SUBJECT_ALT_NAME; OID_EXT_ISSUER_ALT_NAME].
Definition CRITICAL_OK_LEAF_EXTENSIONS : list ObjectIdentifier :=
  [OID_EXT_BASIC_CONSTRAINTS; OID_EXT_KEY_USAGE; OID_EXT_SUBJECT_ALT_NAME;
   OID_EXT_EXTENDED_KEY_USAGE].
Definition CRITICAL_OK_INTERMEDIATE_EXTENSIONS : list ObjectIdentifier :=
  [OID_EXT_BASIC_CONSTRAINTS; OID_EXT_KEY_USAGE; OID_EXT_CERTIFICATE_POLICIES;
   OID_EXT_NAME_CONSTRAINTS; OID_EXT_POLICY_CONSTRAINTS; OID_EXT_INHIBIT_ANY_POLICY;
   OID_EXT_POLICY_MAPPINGS; OID_EXT_EXTENDED_KEY_USAGE; OID_EXT_SUBJECT_ALT_NAME].

Definition MAX_INTERMEDIATES : nat := 2.

(** ** Errors *)
Inductive SimpleError :=
| EmptyChain
| ChainTooLong (len : nat)
| NoTrustAnchors
| AlgorithmNotAllowed (index : nat)
| UnhandledCriticalExtension (index : nat)
| UnexpectedExtension (index : nat)
| MissingRequiredExtension (index : nat)
| LeafIsCA
| Path (e : PathTypes.Error).

(** [impl From<PathError> for Error] *)
Definition error_from_path (e : PathTypes.Error) : SimpleError := Path e.

(** ** The gate *)
Definition check_algorithm (index : nat) (cert : Certificate) : result SimpleError unit :=
  let oid := alg_oid (signature_algorithm cert) in
  if decide (oid ∉ ALLOWED_SIG_ALGS) then Err (AlgorithmNotAllowed index) else Ok tt.

(** The scan of the extensions: whether one is unexpected, and whether a
    critical one is not handled. *)
Fixpoint scan_extensions (allowed critical_ok : list ObjectIdentifier)
    (unexpected unhandled_critical : bool) (exts : list Extension) : bool * bool :=
  match exts with
  | [] => (unexpected, unhandled_critical)
  | ext :: exts =>
      if decide (extn_id ext ∉ allowed) then
        if critical ext then scan_extensions allowed critical_ok unexpected true exts
        else scan_extensions allowed critical_ok true unhandled_critical exts
      else if critical ext && bool_decide (extn_id ext ∉ critical_ok)
      then scan_extensions allowed critical_ok unexpected true exts
      else scan_extensions allowed critical_ok unexpected unhandled_critical exts
  end.

(** [extensions.iter().find(|e| e.extn_id == oid)] *)
Definition find_in (extensions : list Extension) (oid : ObjectIdentifier) : option Extension :=
  snd <$> list_find (λ e, extn_id e = oid) extensions.

Section verify_simple.
Context `{PathAsn1} `{RustCrypto}.

(** [T::from_der(..).map_err(|e| Error::Path(pkix_path::Error::from(e)))] *)
Definition decode_or_path {T} `{DecodeOwned T} (ext : Extension) : result SimpleError T :=
  lift_der (λ e, Path (Der (der_error_new e))) (from_der (extn_value ext)).

Definition check_extensions (index : nat) (cert : Certificate) (is_leaf : bool) :
    result SimpleError unit :=
  let allowed := if is_leaf then ALLOWED_LEAF_EXTENSIONS else ALLOWED_INTERMEDIATE_EXTENSIONS in
  let critical_ok :=
    if is_leaf then CRITICAL_OK_LEAF_EXTENSIONS else CRITICAL_OK_INTERMEDIATE_EXTENSIONS in
  match extensions (tbs_certificate cert) with
  | None => if is_leaf then Ok tt else Err (MissingRequiredExtension index)
  | Some exts =>
      let scanned := scan_extensions allowed critical_ok false false exts in
      if scanned.2 then Err (UnhandledCriticalExtension index)
      else if scanned.1 then Err (UnexpectedExtension index)
      else if is_leaf then
        match find_in exts OID_EXT_BASIC_CONSTRAINTS with
        | None => Ok tt
        | Some ext =>
            bc ← decode_or_path (T:=BasicConstraints) ext;
            if ca bc then Err LeafIsCA else Ok tt
        end
      else
        bc_ext ← ok_or (find_in exts OID_EXT_BASIC_CONSTRAINTS) (MissingRequiredExtension index);
        bc ← decode_or_path (T:=BasicConstraints) bc_ext;
        _ ← fail_if (negb (ca bc)) (MissingRequiredExtension index);
        ku_ext ← ok_or (find_in exts OID_EXT_KEY_USAGE) (MissingRequiredExtension index);
        ku ← decode_or_path (T:=KeyUsage) ku_ext;
        if key_cert_sign ku then Ok tt else Err (MissingRequiredExtension index)
  end.

(** The body of the loop over the chain. *)
Definition gate_cert (i : nat) (cert : Certificate) : result SimpleError unit :=
  _ ← check_algorithm i cert;
  check_extensions i cert (bool_decide (i = 0)).

(** [ValidationPolicy::new(now_unix)] with [max_path_len] assigned. *)
Definition simple_policy (now_unix : N) : ValidationPolicy :=
  let p := validation_policy_new now_unix in {|
  max_path_len := N.of_nat MAX_INTERMEDIATES; current_time_unix := current_time_unix p;
  enforce_key_usage := enforce_key_usage p; require_crl_sign_on_cas := require_crl_sign_on_cas p;
  initial_explicit_policy := initial_explicit_policy p;
  initial_any_policy_inhibit := initial_any_policy_inhibit p;
  initial_policy_mapping_inhibit := initial_policy_mapping_inhibit p;
  initial_policy_set := initial_policy_set p; max_validity_secs := max_validity_secs p;
  allowed_signature_algs := allowed_signature_algs p; min_rsa_key_bits := min_rsa_key_bits p;
  require_subject_alt_name := require_subject_alt_name p; require_rfc822_san := require_rfc822_san p;
  required_leaf_eku := required_leaf_eku p; required_leaf_policy_oids := required_leaf_policy_oids p;
  required_leaf_subject_dn_attrs := required_leaf_subject_dn_attrs p |}.

(** The features of pkix-path are those the build enables. *)
Definition verify_simple (features : Features) (chain : list Certificate)
    (anchors : list TrustAnchor) (now_unix : N) : result SimpleError ValidatedPath :=
  if decide (chain = []) then Err EmptyChain
  else if decide (1 + MAX_INTERMEDIATES < length chain) then Err (ChainTooLong (length chain))
  else if decide (anchors = []) then Err NoTrustAnchors
  else
    _ ← try_for_each gate_cert chain;
    map_err Path (validate_path chain anchors (simple_policy now_unix)
                    {| default_features := features |}).
End verify_simple.
