(* ===== verification/ChainSimpleSpec.v ===== *)
(** * What [verify_simple] promises

    A chain is accepted exactly when it has the simple shape and its path
    validates; what an accepted chain has, by composition with the validation of
    paths and the default verifier; and the first failure as the error. *)
From S2P Require Import Prelude X509 PathTypes Verifier Samples CertChecks ChainWalk WalkSound ValidatePath ChainSimple.

Section spec.
Context `{PathAsn1} `{RustCrypto}.
Implicit Types (cert : Certificate) (chain : list Certificate) (exts : list Extension).

(** ** The gate *)
Definition allowed_at (is_leaf : bool) : list ObjectIdentifier :=
  if is_leaf then ALLOWED_LEAF_EXTENSIONS else ALLOWED_INTERMEDIATE_EXTENSIONS.
Definition critical_at (is_leaf : bool) : list ObjectIdentifier :=
  if is_leaf then CRITICAL_OK_LEAF_EXTENSIONS else CRITICAL_OK_INTERMEDIATE_EXTENSIONS.

(** An extension that the position admits. *)
Definition admitted (is_leaf : bool) (e : Extension) : Prop :=
  extn_id e ∈ allowed_at is_leaf ∧ (critical e = true → extn_id e ∈ critical_at is_leaf).

#[global] Instance admitted_dec is_leaf e : Decision (admitted is_leaf e).
Proof. unfold admitted. apply _. Defined.

(** A certificate of the simple shape at its position. *)
Record simple_cert (i : nat) cert : Prop := {
  simple_algorithm : alg_oid (signature_algorithm cert) ∈ ALLOWED_SIG_ALGS;
  simple_extensions : ∀ e, e ∈ cert_extensions cert → admitted (bool_decide (i = 0)) e;
  simple_leaf : i = 0 → ∀ e, find_ext cert OID_EXT_BASIC_CONSTRAINTS = Some e →
    ∃ bc : BasicConstraints, from_der (extn_value e) = inr bc ∧ ca bc = false;
  simple_issuer : i ≠ 0 →
    (∃ bc : BasicConstraints, ext_is cert OID_EXT_BASIC_CONSTRAINTS (Some bc) ∧ ca bc = true) ∧
    ∃ ku : KeyUsage, ext_is cert OID_EXT_KEY_USAGE (Some ku) ∧ key_cert_sign ku = true }.

(** The flags of the scan: an extension that is not listed and not critical,
    and a critical one that is not admitted. *)
Definition unexpected_ext (is_leaf : bool) (e : Extension) : bool :=
  bool_decide (extn_id e ∉ allowed_at is_leaf) && negb (critical e).
Definition unhandled_ext (is_leaf : bool) (e : Extension) : bool :=
  critical e && (bool_decide (extn_id e ∉ allowed_at is_leaf) ||
                 bool_decide (extn_id e ∉ critical_at is_leaf)).

Lemma scan_extensions_spec is_leaf u c exts :
  scan_extensions (allowed_at is_leaf) (critical_at is_leaf) u c exts =
  (u || existsb (unexpected_ext is_leaf) exts, c || existsb (unhandled_ext is_leaf) exts).
Proof.
  revert u c. induction exts as [|e exts IH]; intros u c; cbn [scan_extensions existsb].
  { by rewrite !orb_false_r. }
  rewrite !IH. pose proof (eq_refl (unexpected_ext is_leaf e)) as Hu.
  pose proof (eq_refl (unhandled_ext is_leaf e)) as Hc.
  unfold unexpected_ext at 2 in Hu. unfold unhandled_ext at 2 in Hc. rewrite Hu, Hc.
  destruct (critical e), (decide (extn_id e ∉ allowed_at is_leaf)) as [Ha|Ha];
    rewrite ?(bool_decide_eq_true_2 _ Ha), ?(bool_decide_eq_false_2 _ Ha); cbn [andb orb negb];
    try destruct (bool_decide (extn_id e ∉ critical_at is_leaf)); cbn [andb orb negb];
    by rewrite ?orb_true_r, ?orb_true_l.
Qed.

Lemma no_flags is_leaf exts :
  existsb (unexpected_ext is_leaf) exts = false ∧ existsb (unhandled_ext is_leaf) exts = false ↔
  ∀ e, e ∈ exts → admitted is_leaf e.
Proof.
  rewrite !existsb_elem_false. unfold unexpected_ext, unhandled_ext, admitted. split.
  - intros [Hu Hc] e He. specialize (Hu e He). specialize (Hc e He).
    destruct (decide (extn_id e ∈ allowed_at is_leaf)) as [Ha|Ha].
    + split; [done|]. intros Hcr. rewrite Hcr, (bool_decide_eq_false_2 _ (λ f, f Ha)) in Hc.
      cbn in Hc. apply bool_decide_eq_false in Hc. by apply dec_stable.
    + rewrite (bool_decide_eq_true_2 _ Ha) in Hu, Hc. by destruct (critical e).
  - intros Ha. split; intros e He; specialize (Ha e He) as [Ha Hc];
      rewrite (bool_decide_eq_false_2 _ (λ f, f Ha)); [done|].
    destruct (critical e); [|done]. cbn. apply bool_decide_eq_false. intros f. by apply f, Hc.
Qed.

(** ** The gate *)
Lemma check_algorithm_Ok i cert :
  check_algorithm i cert = Ok tt ↔ alg_oid (signature_algorithm cert) ∈ ALLOWED_SIG_ALGS.
Proof.
  unfold check_algorithm. cbv zeta. destruct (decide _) as [Ha|Ha]; [by split|].
  split; [intros _; by apply dec_stable|done].
Qed.

Lemma decode_or_path_Ok {T} `{DecodeOwned T} ext (t : T) :
  decode_or_path ext = Ok t ↔ from_der (extn_value ext) = inr t.
Proof. apply lift_der_Ok. Qed.

Lemma find_in_exts cert exts oid :
  extensions (tbs_certificate cert) = Some exts → find_in exts oid = find_ext cert oid.
Proof. intros He. unfold find_in, find_ext, cert_extensions. by rewrite He. Qed.

Lemma ext_is_Some {T} `{DecodeOwned T} cert oid (P : T → Prop) :
  (∃ t, ext_is cert oid (Some t) ∧ P t) ↔
  ∃ e t, find_ext cert oid = Some e ∧ from_der (extn_value e) = inr t ∧ P t.
Proof.
  unfold ext_is. destruct (find_ext cert oid) as [e|]; [|naive_solver].
  split; [intros (t & (t' & Ht & [= ->]) & HP); by exists e, t'|].
  intros (e' & t & [= <-] & Ht & HP). exists t. split; [by exists t|done].
Qed.

(** No panic anywhere in the gate. *)
Lemma no_panic_gate_cert i cert : no_panic (gate_cert i cert).
Proof. unfold gate_cert, check_algorithm, check_extensions, decode_or_path. solve_no_panic. Qed.

(** The scan succeeds exactly on admitted extensions. *)
Lemma scan_Ok {E} (is_leaf : bool) cert exts (e1 e2 : E) (r : result E unit) :
  extensions (tbs_certificate cert) = Some exts →
  let s := scan_extensions (allowed_at is_leaf) (critical_at is_leaf) false false exts in
  (if s.2 then Err e1 else if s.1 then Err e2 else r) = Ok tt ↔
  (∀ e, e ∈ cert_extensions cert → admitted is_leaf e) ∧ r = Ok tt.
Proof.
  intros He. cbv zeta. unfold cert_extensions. rewrite He, scan_extensions_spec.
  cbn [default fst snd orb]. unfold id. rewrite <-no_flags.
  destruct (existsb (unhandled_ext is_leaf) exts), (existsb (unexpected_ext is_leaf) exts);
    (split; [intros Hr|intros [[Hu Hc] Hr]]); done.
Qed.

Lemma leaf_extensions_Ok i cert :
  check_extensions i cert true = Ok tt ↔
  (∀ e, e ∈ cert_extensions cert → admitted true e) ∧
  ∀ e, find_ext cert OID_EXT_BASIC_CONSTRAINTS = Some e →
    ∃ bc : BasicConstraints, from_der (extn_value e) = inr bc ∧ ca bc = false.
Proof.
  unfold check_extensions. destruct (extensions (tbs_certificate cert)) as [exts|] eqn:He.
  - etrans; [apply (scan_Ok true cert exts _ _ _ He)|]. apply and_iff_compat_l.
    rewrite (find_in_exts cert exts) by done.
    destruct (find_ext cert _) as [e|]; [|done]. rewrite bind_Ok.
    setoid_rewrite decode_or_path_Ok. split.
    + intros (bc & Hbc & Hca) e' [= <-]. exists bc. split; [done|]. by destruct (ca bc).
    + intros Hall. destruct (Hall e eq_refl) as (bc & Hbc & Hca). exists bc. by rewrite Hca.
  - unfold find_ext, cert_extensions. rewrite He. split; [|done]. intros _.
    split; [by intros e ?%elem_of_nil|done].
Qed.

Lemma issuer_extensions_Ok i cert :
  check_extensions i cert false = Ok tt ↔
  (∀ e, e ∈ cert_extensions cert → admitted false e) ∧
  (∃ bc : BasicConstraints, ext_is cert OID_EXT_BASIC_CONSTRAINTS (Some bc) ∧ ca bc = true) ∧
  ∃ ku : KeyUsage, ext_is cert OID_EXT_KEY_USAGE (Some ku) ∧ key_cert_sign ku = true.
Proof.
  unfold check_extensions. rewrite !ext_is_Some.
  destruct (extensions (tbs_certificate cert)) as [exts|] eqn:He.
  - etrans; [apply (scan_Ok false cert exts _ _ _ He)|]. apply and_iff_compat_l.
    rewrite !(find_in_exts cert exts) by done. split.
    + intros Hr. inv_ok. apply decode_or_path_Ok in Hr1, Hr4. apply negb_false_iff in Hr2.
      destruct (key_cert_sign _) eqn:Hk in Hr; [|done]. naive_solver.
    + intros ((e & bc & He1 & Hbc & Hca) & e' & ku & He2 & Hku & Hk).
      rewrite He1, He2. cbn [ok_or]. unfold decode_or_path. cbn. rewrite Hbc. cbn. rewrite Hca.
      cbn. rewrite Hku. cbn. by rewrite Hk.
  - unfold find_ext, cert_extensions. rewrite He. naive_solver.
Qed.

Lemma gate_cert_Ok i cert : gate_cert i cert = Ok tt ↔ simple_cert i cert.
Proof.
  unfold gate_cert. rewrite bind_Ok. split.
  - intros ([] & Ha%check_algorithm_Ok & Hx). case_bool_decide as Hi.
    + apply leaf_extensions_Ok in Hx as [Hx Hl]. split; [done|by rewrite bool_decide_eq_true_2|done|done].
    + apply issuer_extensions_Ok in Hx as [Hx Hl].
      split; [done|by rewrite bool_decide_eq_false_2|done|done].
  - intros [Ha Hx Hl Hi]. exists tt. split; [by apply check_algorithm_Ok|].
    case_bool_decide as Hi0; [apply leaf_extensions_Ok|apply issuer_extensions_Ok]; auto.
Qed.

(** What an error of the gate at index [i] says. *)
Definition gate_error (i : nat) cert (e : SimpleError) : Prop :=
  match e with
  | AlgorithmNotAllowed j => j = i ∧ alg_oid (signature_algorithm cert) ∉ ALLOWED_SIG_ALGS
  | UnhandledCriticalExtension j => j = i ∧
      ∃ x, x ∈ cert_extensions cert ∧ critical x = true ∧ ¬ admitted (bool_decide (i = 0)) x
  | UnexpectedExtension j => j = i ∧
      (∃ x, x ∈ cert_extensions cert ∧ extn_id x ∉ allowed_at (bool_decide (i = 0))) ∧
      ∀ x, x ∈ cert_extensions cert → critical x = true → admitted (bool_decide (i = 0)) x
  | MissingRequiredExtension j => j = i ∧ i ≠ 0
  | LeafIsCA => i = 0 ∧
      ∃ bc : BasicConstraints, ext_is cert OID_EXT_BASIC_CONSTRAINTS (Some bc) ∧ ca bc = true
  | Path (Der _) => ∃ x, x ∈ cert_extensions cert ∧
      extn_id x ∈ [OID_EXT_BASIC_CONSTRAINTS; OID_EXT_KEY_USAGE]
  | _ => False
  end.

Lemma unhandled_ext_true is_leaf x :
  unhandled_ext is_leaf x = true ↔ critical x = true ∧ ¬ admitted is_leaf x.
Proof.
  unfold unhandled_ext, admitted. rewrite andb_true_iff, orb_true_iff, !bool_decide_eq_true.
  split; [tauto|]. intros [Hc Hn]. split; [done|].
  destruct (decide (extn_id x ∈ allowed_at is_leaf)); [|by left]. right. tauto.
Qed.

Lemma decode_or_path_Err {T} `{DecodeOwned T} cert oid x e :
  find_ext cert oid = Some x → oid ∈ [OID_EXT_BASIC_CONSTRAINTS; OID_EXT_KEY_USAGE] →
  decode_or_path (T:=T) x = Err e → ∀ i, gate_error i cert e.
Proof.
  unfold decode_or_path, find_ext. intros Hx Hoid He i.
  apply fmap_Some in Hx as ([k y] & Hl & ->). apply list_find_Some in Hl as (Hy & <- & _).
  destruct (from_der _); [|done]. injection He as <-. exists y.
  split; [by eapply list_elem_of_lookup_2|done].
Qed.

Lemma gate_cert_Err i cert e : gate_cert i cert = Err e → gate_error i cert e.
Proof.
  unfold gate_cert. rewrite bind_Err. intros [Ha|([] & _ & Hx)].
  { unfold check_algorithm in Ha. cbv zeta in Ha. destruct (decide _); [|done]. by injection Ha as <-. }
  unfold check_extensions in Hx.
  destruct (extensions (tbs_certificate cert)) as [exts|] eqn:He;
    [|case_bool_decide; [done|by injection Hx as <-]].
  assert (Hce : cert_extensions cert = exts) by (by unfold cert_extensions; rewrite He).
  fold (allowed_at (bool_decide (i = 0))) (critical_at (bool_decide (i = 0))) in Hx.
  rewrite scan_extensions_spec in Hx. cbn [fst snd orb] in Hx. rewrite !(find_in_exts cert exts _ He) in Hx.
  destruct (existsb (unhandled_ext _) exts) eqn:Hu.
  { injection Hx as <-. apply existsb_elem in Hu as (x & Hin & Hu). split; [done|]. exists x.
    rewrite Hce. split; [done|]. by apply unhandled_ext_true. }
  destruct (existsb (unexpected_ext _) exts) eqn:Hun.
  { injection Hx as <-. apply existsb_elem in Hun as (x & Hin & Hun). unfold unexpected_ext in Hun.
    apply andb_true_iff in Hun as [Hun _]. apply bool_decide_eq_true in Hun.
    split; [done|]. rewrite Hce. split; [by exists x|]. intros y Hy Hc.
    apply existsb_elem_false with (x := y) in Hu; [|done]. 
    apply not_true_iff_false in Hu. rewrite unhandled_ext_true in Hu.
    destruct (decide (admitted (bool_decide (i = 0)) y)); [done|]. by destruct Hu. }
  assert (Hbc : OID_EXT_BASIC_CONSTRAINTS ∈ [OID_EXT_BASIC_CONSTRAINTS; OID_EXT_KEY_USAGE]) by by left.
  assert (Hku : OID_EXT_KEY_USAGE ∈ [OID_EXT_BASIC_CONSTRAINTS; OID_EXT_KEY_USAGE]) by (right; by left).
  case_bool_decide as Hi.
  - destruct (find_ext cert OID_EXT_BASIC_CONSTRAINTS) as [x|] eqn:Hf; [|done].
    apply bind_Err in Hx as [Hd|(bc & Hd%decode_or_path_Ok & Hx)]; [by eapply decode_or_path_Err|].
    destruct (ca bc) eqn:Hca; [|done]. injection Hx as <-. split; [done|]. apply ext_is_Some. eauto.
  - assert (Hmiss : ∀ e', MissingRequiredExtension i = e' → gate_error i cert e') by (by intros ? <-).
    apply bind_Err in Hx as [Hx|(x & Hf%ok_or_Ok & Hx)];
      [destruct (find_ext cert _); [done|]; apply Hmiss; by injection Hx|].
    apply bind_Err in Hx as [Hx|(bc & _ & Hx)]; [by eapply decode_or_path_Err|].
    apply bind_Err in Hx as [[_ Hx]%fail_if_Err|([] & _ & Hx)]; [by apply Hmiss|].
    apply bind_Err in Hx as [Hx|(y & Hg%ok_or_Ok & Hx)];
      [destruct (find_ext cert OID_EXT_KEY_USAGE); [done|]; apply Hmiss; by injection Hx|].
    apply bind_Err in Hx as [Hx|(ku & _ & Hx)]; [by eapply decode_or_path_Err|].
    destruct (key_cert_sign ku); [done|]. apply Hmiss. by injection Hx.
Qed.

(** ** Chains *)

(** Every certificate of the chain has the simple shape. *)
Definition simple_chain chain : Prop := ∀ i c, chain !! i = Some c → simple_cert i c.

Lemma gate_Ok chain : try_for_each gate_cert chain = Ok tt ↔ simple_chain chain.
Proof. rewrite try_for_each_Ok. unfold simple_chain. by setoid_rewrite gate_cert_Ok. Qed.

(** What an error of [verify_simple] says. *)
Definition simple_error features chain anchors now (e : SimpleError) : Prop :=
  match e with
  | EmptyChain => chain = []
  | ChainTooLong n => n = length chain ∧ 3 < n
  | NoTrustAnchors => anchors = []
  | _ =>
      (∃ i c, chain !! i = Some c ∧ gate_error i c e ∧
         ∀ j d, j < i → chain !! j = Some d → simple_cert j d) ∨
      (simple_chain chain ∧ ∃ e', e = Path e' ∧
         validate_path chain anchors (simple_policy now) {| default_features := features |} = Err e')
  end.

(** The scheme of an allowed algorithm. *)
Lemma allowed_scheme features oid s :
  oid ∈ ALLOWED_SIG_ALGS → (oid, s) ∈ scheme_table features →
  (oid, s) ∈ [(OID_RSA_PKCS1V15_SHA256, rsa_pkcs1v15_sha256);
              (OID_ECDSA_P256_SHA256, p256_ecdsa_sha256)].
Proof.
  unfold ALLOWED_SIG_ALGS, scheme_table. rewrite !elem_of_app, !elem_of_cons.
  intros [->|[->|[]%not_elem_of_nil]];
    destruct (feature_p256 features), (feature_p384 features), (feature_rsa features);
    rewrite ?elem_of_cons, ?elem_of_nil; intros Hs; destruct_or?; try done; simplify_eq;
    (by left) || (right; by left).
Qed.

(** What a certificate of an accepted chain has. *)
Record simple_ok anchor chain now (i : nat) cert : Prop := {
  simple_shape : simple_cert i cert;
  simple_in_date : (to_unix_secs (not_before (tbs_certificate cert)) ≤ now ≤
    to_unix_secs (not_after (tbs_certificate cert)))%N;
  simple_signed : ∃ s tbs, (alg_oid (signature_algorithm cert), s) ∈
      [(OID_RSA_PKCS1V15_SHA256, rsa_pkcs1v15_sha256); (OID_ECDSA_P256_SHA256, p256_ecdsa_sha256)] ∧
    to_der (tbs_certificate cert) = inr tbs ∧
    scheme_accepts s (issuer_of chain anchor i).1.1 tbs (raw_bytes (cert_signature cert)) }.

Lemma simple_chain_ok features chain anchors now vp :
  simple_chain chain →
  validate_path chain anchors (simple_policy now) {| default_features := features |} = Ok vp →
  ∃ a, anchors !! anchor_index vp = Some a ∧
    ∀ i c, chain !! i = Some c → simple_ok a chain now i c.
Proof.
  intros Hg Hv. destruct (validate_path_walk _ _ _ _ _ Hv) as (a & t & Ha & Hw & _).
  exists a. split; [done|]. intros i c Hc. pose proof (chain_walk_sound _ _ _ _ _ Hw i c Hc) as Hok.
  split; [by apply Hg|exact (ok_validity _ _ _ _ _ _ Hok)|].
  destruct (ok_signature _ _ _ _ _ _ Hok) as (tbs & Htbs & (s & Hs & Hacc)%default_verifier_dispatch).
  exists s, tbs. split; [|done]. eapply allowed_scheme; [|exact Hs].
  exact (simple_algorithm _ _ (Hg i c Hc)).
Qed.

(** C32: a chain is accepted exactly when it has one to three certificates, some
    anchor is given, every certificate has the simple shape for its position
    (the leaf is no authority, the others may sign certificates) and the path
    validates with at most two intermediates.  Every certificate of an accepted
    chain is in date and carries a signature that the scheme of its algorithm,
    RSA or ECDSA on P-256 with SHA-256, verifies under the key of its issuer.
    Otherwise the error names the first check that fails; there is no panic. *)
Theorem verify_simple_correct features chain anchors now :
  match verify_simple features chain anchors now with
  | Ok vp => 0 < length chain ≤ 3 ∧ anchors ≠ [] ∧ simple_chain chain ∧
      validate_path chain anchors (simple_policy now) {| default_features := features |} = Ok vp ∧
      ∃ a, anchors !! anchor_index vp = Some a ∧
        ∀ i c, chain !! i = Some c → simple_ok a chain now i c
  | Err e => simple_error features chain anchors now e ∧
      ¬ (0 < length chain ≤ 3 ∧ anchors ≠ [] ∧ simple_chain chain ∧
         ∃ vp, validate_path chain anchors (simple_policy now)
           {| default_features := features |} = Ok vp)
  | Panic => False
  end.
Proof.
  unfold verify_simple, MAX_INTERMEDIATES. destruct (decide (chain = [])) as [->|Hne].
  { split; [done|]. cbn. lia. }
  destruct (decide _) as [Hlen|Hlen]; [split; [done|lia]|].
  destruct (decide _) as [->|Ha]; [split; [done|tauto]|].
  destruct (try_for_each gate_cert chain) as [[]|e|] eqn:Hg; cbn [mbind result_bind].
  - apply gate_Ok in Hg. destruct (validate_path _ _ _ _) as [vp|e|] eqn:Hv; cbn [map_err].
    + apply length_pos in Hne. split_and!; [lia|lia|done..|].
      by eapply simple_chain_ok.
    + split; [|intros (_ & _ & _ & ? & [=])]. right. split; [done|]. by exists e.
    + by destruct (no_panic_validate_path chain anchors (simple_policy now)
        {| default_features := features |}).
  - pose proof Hg as (i & c & Hc & He%gate_cert_Err & Hlt)%try_for_each_Err.
    assert (Hns : ¬ simple_chain chain) by (intros Hs%gate_Ok; congruence).
    split; [|tauto].
    assert (Hf : ∃ i c, chain !! i = Some c ∧ gate_error i c e ∧
      ∀ j d, j < i → chain !! j = Some d → simple_cert j d).
    { exists i, c. split_and!; [done..|]. intros j d Hj Hd. by apply gate_cert_Ok, Hlt. }
    destruct e; cbn; first [done|by left].
  - destruct (no_panic_try_for_each gate_cert chain no_panic_gate_cert Hg).
Qed.

End spec.

(** ** A chain with an intermediate *)

(** Signatures are equal to the key of the issuer. *)
Definition toy_scheme : Scheme := {|
  VerifyingKey := bytes; Signature := bytes;
  key_try_from := λ k, Some (raw_bytes (subject_public_key k)); signature_try_from := Some;
  verify := λ k _ sig, bool_decide (sig = k) |}.
#[local] Instance toy_crypto : RustCrypto := {|
  p256_ecdsa_sha256 := toy_scheme; p384_ecdsa_sha384 := toy_scheme;
  rsa_pkcs1v15_sha256 := toy_scheme; rsa_pkcs1v15_sha384 := toy_scheme;
  rsa_pkcs1v15_sha512 := toy_scheme |}.

(** The certificate [c] signed with ECDSA. *)
Definition ecdsa_signed (c : Certificate) : Certificate :=
  let a := {| alg_oid := OID_ECDSA_P256_SHA256; alg_parameters := None |} in
  let t := tbs_certificate c in {|
  tbs_certificate := {|
    serial_number := serial_number t; tbs_signature := a; issuer := issuer t;
    not_before := not_before t; not_after := not_after t; subject := subject t;
    subject_public_key_info := subject_public_key_info t; extensions := extensions t |};
  signature_algorithm := a; cert_signature := cert_signature c |}.

Definition simple_wit : list Certificate :=
  [ecdsa_signed (sample_cert "ca" "leaf" 2 []); ecdsa_signed (sample_ca "root" "ca" 1 [])].
Definition all_features : Features :=
  {| feature_p256 := true; feature_p384 := true; feature_rsa := true |}.

Example simple_wit_accepted :
  ∃ vp, verify_simple all_features simple_wit [sample_anchor "root"] 150 = Ok vp.
Proof. eexists. vm_compute. reflexivity. Qed.

(** The same chain with the leaf above, and without its intermediate. *)
Example simple_wit_refused :
  verify_simple all_features (reverse simple_wit) [sample_anchor "root"] 150 = Err LeafIsCA ∧
  verify_simple all_features (take 1 simple_wit) [sample_anchor "root"] 150 =
    Err (Path NoTrustedPath).
Proof. split; vm_compute; reflexivity. Qed.
