(* ===== verification/TrustStore.v ===== *)
(** * Loading trust anchors (pkix-truststore/src/lib.rs)

    Files are read up to a cap, PEM bundles and DER certificates become trust
    anchors.  The file system, the PEM reader of [x509-cert] and the decoders
    are parameters. *)
From S2P Require Import Prelude X509 PathTypes Aia LintTypes.

(** ** Input and output *)

(** [std::io::Error]: its kind and its rendering. *)
Record io_error := { io_kind : ErrorKind.ErrorKind; io_display : bytes }.

(** What a read at a position of an open file gives: an octet, the end, or an
    error; a device may never end. *)
Inductive ReadStep := Octet (b : N) | Eof | ReadError (e : io_error).

(** An open file: the length that its metadata report, when they can be read,
    and its contents. *)
Record File := { metadata_len : option N; contents : nat → ReadStep }.

(** [fs::File::open] *)
Class FileSystem (Path : Type) := open : Path → io_error + File.

(** [file.take(limit).read_to_end(&mut bytes)], from a position; a read that
    is interrupted is repeated by the library and is no step. *)
Fixpoint take_read_to_end (f : nat → ReadStep) (limit pos : nat) : io_error + bytes :=
  match limit with
  | 0 => inr []
  | S limit =>
      match f pos with
      | Eof => inr []
      | ReadError e => inl e
      | Octet b =>
          match take_read_to_end f limit (S pos) with
          | inl e => inl e
          | inr r => inr (b :: r)
          end
      end
  end.

(** ** Errors *)
Record IoFailure := { failure_kind : ErrorKind.ErrorKind; failure_message : bytes }.
(** [IoFailure::from_io] *)
Definition from_io (e : io_error) : IoFailure :=
  {| failure_kind := io_kind e; failure_message := io_display e |}.

(** [io_error_kind_serde::serialize] and [deserialize] of this crate, on the
    string. *)
Definition serialize_kind (k : ErrorKind.ErrorKind) : string := ErrorKind.kind_debug k.
Definition deserialize_kind (s : string) : ErrorKind.ErrorKind :=
  if decide (s = "NotFound") then ErrorKind.NotFound
  else if decide (s = "PermissionDenied") then ErrorKind.PermissionDenied
  else if decide (s = "ConnectionRefused") then ErrorKind.ConnectionRefused
  else if decide (s = "ConnectionReset") then ErrorKind.ConnectionReset
  else if decide (s = "ConnectionAborted") then ErrorKind.ConnectionAborted
  else if decide (s = "NotConnected") then ErrorKind.NotConnected
  else if decide (s = "AddrInUse") then ErrorKind.AddrInUse
  else if decide (s = "AddrNotAvailable") then ErrorKind.AddrNotAvailable
  else if decide (s = "BrokenPipe") then ErrorKind.BrokenPipe
  else if decide (s = "AlreadyExists") then ErrorKind.AlreadyExists
  else if decide (s = "WouldBlock") then ErrorKind.WouldBlock
  else if decide (s = "InvalidInput") then ErrorKind.InvalidInput
  else if decide (s = "InvalidData") then ErrorKind.InvalidData
  else if decide (s = "TimedOut") then ErrorKind.TimedOut
  else if decide (s = "WriteZero") then ErrorKind.WriteZero
  else if decide (s = "Interrupted") then ErrorKind.Interrupted
  else if decide (s = "Unsupported") then ErrorKind.Unsupported
  else if decide (s = "UnexpectedEof") then ErrorKind.UnexpectedEof
  else if decide (s = "OutOfMemory") then ErrorKind.OutOfMemory
  else ErrorKind.Other.

Inductive TrustError :=
| Io (e : IoFailure)
| Pem (e : DerError)
| Der (e : DerError)
| NoCertificates
| MalformedAnchor (index : nat) (source : DerError).

(** [impl From<io::Error> for Error] *)
Definition trust_error_from_io (e : io_error) : TrustError := Io (from_io e).

(** The [?] on a result of the standard library. *)
Definition io_try {A} (r : io_error + A) : result TrustError A :=
  match r with inl e => Err (trust_error_from_io e) | inr a => Ok a end.

(** ** Files *)
Definition DEFAULT_FILE_SIZE_CAP : N := 67108864.

(** [cap.saturating_add(1)] *)
Definition u64_saturating_add (a b : N) : N := N.min u64_max (a + b).

Definition invalid_data (message : bytes) : TrustError :=
  trust_error_from_io {| io_kind := ErrorKind.InvalidData; io_display := message |}.

Section files.
Context {Path : Type} `{FileSystem Path}.

Definition read_file_capped (path : Path) (cap : N) : result TrustError bytes :=
  file ← io_try (open path);
  _ ← match metadata_len file with
      | Some len =>
          fail_if (bool_decide (cap < len)%N)
            (invalid_data (str "trust-anchor file is " ++ fmt_u64 len ++
               str " bytes; exceeds " ++ fmt_u64 cap ++ str "-byte cap"))
      | None => Ok tt
      end;
  bytes ← io_try (take_read_to_end (contents file) (N.to_nat (u64_saturating_add cap 1)) 0);
  if decide (cap < N.of_nat (length bytes))%N then
    Err (invalid_data (str "trust-anchor file exceeds " ++ fmt_u64 cap ++
      str "-byte cap during read"))
  else Ok bytes.
End files.

(** ** Certificates *)

(** [Certificate::load_pem_chain]: the certificates of a bundle, or an error
    with its kind; the library panics on some inputs. *)
Record PemError := { pem_kind : bool; pem_error : der_error }.
Class PemLib := load_pem_chain : bytes → result PemError (list Certificate).

Definition UTF8_BOM : bytes := [239; 187; 191]%N.
Definition BEGIN_BOUNDARY : bytes := str "-----BEGIN CERTIFICATE-----".

(** [bytes.strip_prefix(UTF8_BOM).unwrap_or(bytes)] *)
Definition strip_bom (b : bytes) : bytes :=
  if decide (UTF8_BOM `prefix_of` b) then drop (length UTF8_BOM) b else b.

(** [bytes.windows(n)] *)
Definition windows (n : nat) (b : bytes) : list bytes :=
  (λ i, take n (drop i b)) <$> seq 0 (S (length b) - n).

Definition map_pem_chain_error (e : PemError) : TrustError :=
  if pem_kind e then Pem (der_error_new (pem_error e)) else Der (der_error_new (pem_error e)).

(** [into_iter().map(f).collect::<Result<Vec<_>, _>>()]: the first error ends
    it. *)
Fixpoint collect {A B E} (f : A → result E B) (l : list A) : result E (list B) :=
  match l with
  | [] => Ok []
  | x :: l => y ← f x; (y ::.) <$> collect f l
  end.

Section certificates.
Context `{PemLib} `{DecodeOwned Certificate} `{DecodeOwned NameConstraints}.

(** [TrustAnchor::try_from(c).map_err(Error::Der)] *)
Definition anchor_from (c : Certificate) : result TrustError TrustAnchor :=
  map_err Der (trust_anchor_try_from c).

Definition from_pem (b : bytes) : result TrustError (list TrustAnchor) :=
  let b := strip_bom b in
  if negb (existsb (λ w, bool_decide (w = BEGIN_BOUNDARY)) (windows (length BEGIN_BOUNDARY) b))
  then Err NoCertificates
  else
    certs ← map_err map_pem_chain_error (load_pem_chain b);
    if decide (certs = []) then Err NoCertificates else collect anchor_from certs.

(** The function [from_der] of the crate. *)
Definition anchor_from_der (b : bytes) : result TrustError TrustAnchor :=
  cert ← lift_der (λ e, Der (der_error_new e)) (from_der (T:=Certificate) b);
  anchor_from cert.

(** The closure of [from_der_iter]. *)
Definition indexed_anchor (index : nat) (b : bytes) : result TrustError TrustAnchor :=
  cert ← lift_der (λ e, MalformedAnchor index (der_error_new e)) (from_der (T:=Certificate) b);
  map_err (MalformedAnchor index) (trust_anchor_try_from cert).

(** [iter.enumerate().map(..).collect()], with the part of the iterator that is
    not polled. *)
Fixpoint collect_indexed (index : nat) (iter : list bytes) :
    result TrustError (list TrustAnchor) * list bytes :=
  match iter with
  | [] => (Ok [], [])
  | b :: iter =>
      match indexed_anchor index b with
      | Ok a => let (r, rest) := collect_indexed (S index) iter in ((a ::.) <$> r, rest)
      | Err e => (Err e, iter)
      | Panic => (Panic, iter)
      end
  end.

Definition from_der_iter (iter : list bytes) :
    result TrustError (list TrustAnchor) * list bytes :=
  let (r, rest) := collect_indexed 0 iter in
  (anchors ← r; if decide (anchors = []) then Err NoCertificates else Ok anchors, rest).

Context {Path : Type} `{FileSystem Path}.

Definition from_pem_file_with_cap (path : Path) (cap : N) : result TrustError (list TrustAnchor) :=
  bytes ← read_file_capped path cap; from_pem bytes.
Definition from_pem_file (path : Path) : result TrustError (list TrustAnchor) :=
  from_pem_file_with_cap path DEFAULT_FILE_SIZE_CAP.
Definition from_der_file_with_cap (path : Path) (cap : N) : result TrustError TrustAnchor :=
  bytes ← read_file_capped path cap; anchor_from_der bytes.
Definition from_der_file (path : Path) : result TrustError TrustAnchor :=
  from_der_file_with_cap path DEFAULT_FILE_SIZE_CAP.
End certificates.

(** [impl Display for IoFailure] and [Error]; the rendering of [DerError] is
    its message. *)
Definition io_failure_display (e : IoFailure) : bytes := failure_message e.
Definition trust_error_display (e : TrustError) : bytes :=
  match e with
  | Io e => str "i/o error: " ++ io_failure_display e
  | Pem e => str "PEM decoding failed: " ++ str (message e)
  | Der e => str "DER decoding failed: " ++ str (message e)
  | NoCertificates =>
      str "input contained no certificates (no `-----BEGIN CERTIFICATE-----` marker; " ++
      str "if the input is non-PEM the loader cannot tell)"
  | MalformedAnchor index source =>
      str "malformed certificate at position " ++ fmt_u64 (N.of_nat index) ++ str ": " ++
      str (message source)
  end.
