(* ===== verification/TrustStoreSpec.v ===== *)
(** * What the loader of trust anchors promises

    A file is read whole or refused, and never more of it than the cap and one
    octet; every certificate of a bundle becomes an anchor with the name
    constraints it states, or none does. *)
From S2P Require Import Prelude X509 PathTypes Verifier Samples Aia LintTypes WalkSound TrustStore.

(** ** Reading *)

(** The octets of [l] from a position. *)
Definition reads (f : nat → ReadStep) (pos : nat) (l : bytes) : Prop :=
  ∀ i b, l !! i = Some b → f (pos + i) = Octet b.

Lemma reads_cons f pos b l : reads f pos (b :: l) ↔ f pos = Octet b ∧ reads f (S pos) l.
Proof.
  unfold reads. split.
  - intros Hr. split; [specialize (Hr 0 b eq_refl); by rewrite Nat.add_0_r in Hr|].
    intros i x Hx. specialize (Hr (S i) x Hx). by rewrite Nat.add_succ_r in Hr.
  - intros [Hb Hr] [|i] x Hx; [injection Hx as <-; by rewrite Nat.add_0_r|].
    rewrite Nat.add_succ_r. by apply Hr.
Qed.

Lemma take_read_to_end_spec f limit pos l :
  take_read_to_end f limit pos = inr l ↔
  reads f pos l ∧ (length l = limit ∨ length l < limit ∧ f (pos + length l) = Eof).
Proof.
  revert pos l. induction limit as [|limit IH]; intros pos l; cbn [take_read_to_end].
  { split; [intros [= <-]; split; [done|by left]|]. intros [_ [Hl|[Hl _]]]; [|lia]. by destruct l. }
  destruct (f pos) as [b| |e] eqn:Hf.
  - assert (Hcons : (∃ r, take_read_to_end f limit (S pos) = inr r ∧ b :: r = l) ↔
      reads f pos l ∧ (length l = S limit ∨ length l < S limit ∧ f (pos + length l) = Eof)).
    { setoid_rewrite IH. split.
      - intros (r & [Hr Hl] & <-). rewrite reads_cons. cbn [length].
        rewrite Nat.add_succ_r. split; [done|]. destruct Hl as [|[]]; [left; lia|right; split; [lia|done]].
      - intros [Hr Hl]. destruct l as [|x l].
        + destruct Hl as [Hl|[_ Hl]]; [done|]. cbn in Hl. rewrite Nat.add_0_r in Hl. congruence.
        + apply reads_cons in Hr as [Hx Hr]. cbn [length] in Hl. rewrite Nat.add_succ_r in Hl.
          exists l. split; [|congruence]. split; [done|]. destruct Hl as [|[]]; [left; lia|right; split; [lia|done]]. }
    rewrite <-Hcons. destruct (take_read_to_end f limit (S pos)) as [e|r]; naive_solver.
  - split; [intros [= <-]|].
    + split; [done|]. right. cbn. rewrite Nat.add_0_r. split; [lia|done].
    + intros [Hr Hl]. destruct l as [|x l]; [done|]. apply reads_cons in Hr as [Hx _]. congruence.
  - split; [done|]. intros [Hr Hl]. destruct l as [|x l].
    + destruct Hl as [Hl|[_ Hl]]; [done|]. cbn in Hl. rewrite Nat.add_0_r in Hl. congruence.
    + apply reads_cons in Hr as [Hx _]. congruence.
Qed.

Lemma take_read_to_end_ext f g limit pos :
  (∀ i, i < limit → f (pos + i) = g (pos + i)) →
  take_read_to_end f limit pos = take_read_to_end g limit pos.
Proof.
  revert pos. induction limit as [|limit IH]; intros pos Hfg; [done|]. cbn [take_read_to_end].
  pose proof (Hfg 0) as H0. rewrite Nat.add_0_r in H0. rewrite H0 by lia.
  rewrite (IH (S pos)); [done|]. intros i Hi. specialize (Hfg (S i)).
  rewrite Nat.add_succ_r in Hfg. apply Hfg. lia.
Qed.

Section files.
Context {Path : Type} `{FileSystem Path}.
Implicit Types (path : Path) (cap : N).

(** C33: below the largest cap a file is read exactly when its metadata do not
    announce more than the cap, and its octets, at most the cap, are followed
    by its end; and the outcome depends on nothing but the metadata and the
    contents up to one octet past the cap, so a device that never ends is
    refused. *)
Theorem read_file_capped_correct path cap file
    (Hcap : (cap < u64_max)%N) (Hopen : open path = inr file) :
  (∀ l, read_file_capped path cap = Ok l ↔
    (∀ n, metadata_len file = Some n → n ≤ cap)%N ∧ (N.of_nat (length l) ≤ cap)%N ∧
    reads (contents file) 0 l ∧ contents file (length l) = Eof) ∧
  (∀ path' file', open path' = inr file' → metadata_len file' = metadata_len file →
    (∀ i, (N.of_nat i ≤ cap)%N → contents file' i = contents file i) →
    read_file_capped path' cap = read_file_capped path cap) ∧
  ((∀ i, contents file i = Octet 0) →
    ∃ m, read_file_capped path cap = Err (Io {| failure_kind := ErrorKind.InvalidData; failure_message := m |})).
Proof.
  assert (Hlim : N.to_nat (u64_saturating_add cap 1) = S (N.to_nat cap))
    by (unfold u64_saturating_add, u64_max in *; lia).
  unfold read_file_capped. rewrite Hopen, Hlim. cbn [io_try mbind result_bind].
  split_and!.
  - intros l. rewrite bind_Ok. split.
    + intros ([] & Hm & Hr). apply bind_Ok in Hr as (r & Hr & Hl).
      destruct (take_read_to_end _ _ _) as [e|r'] eqn:Ht; [done|]. injection Hr as ->.
      destruct (decide _) as [|Hle]; [done|]. injection Hl as ->.
      apply take_read_to_end_spec in Ht as [Hr [He|[Hlt He]]]; [lia|].
      split_and!; [|lia|done|done]. intros n Hn. rewrite Hn in Hm.
      apply fail_if_Ok, bool_decide_eq_false in Hm. lia.
    + intros (Hm & Hl & Hr & He). exists tt. split.
      * destruct (metadata_len file) as [n|]; [|done]. apply fail_if_Ok, bool_decide_eq_false.
        specialize (Hm n eq_refl). lia.
      * assert (Ht : take_read_to_end (contents file) (S (N.to_nat cap)) 0 = inr l).
        { apply take_read_to_end_spec. split; [done|]. right. split; [lia|done]. }
        rewrite Ht. cbn. rewrite decide_False by lia. done.
  - intros path' file' Hopen' Hm Hc. rewrite Hopen'. cbn [io_try mbind result_bind]. rewrite Hm.
    rewrite (take_read_to_end_ext (contents file') (contents file)); [done|].
    intros i Hi. apply Hc. lia.
  - intros Hz. assert (Ht : take_read_to_end (contents file) (S (N.to_nat cap)) 0 =
        inr (replicate (S (N.to_nat cap)) 0%N)).
    { apply take_read_to_end_spec. split; [|left; apply length_replicate].
      intros i b [-> _]%lookup_replicate_1. apply Hz. }
    destruct (metadata_len file) as [n|]; [case_bool_decide|]; cbn [fail_if mbind result_bind];
      [by eexists|..]; rewrite Ht; cbn [io_try mbind result_bind];
      rewrite decide_True by (rewrite length_replicate; lia); by eexists.
Qed.
End files.

Lemma kind_serialisers_agree k s :
  serialize_kind k = ErrorKind.kind_serialize k ∧
  deserialize_kind s = ErrorKind.kind_deserialize s.
Proof. done. Qed.

(** ** Bundles *)
Lemma windows_elem n b w :
  w ∈ windows n b ↔ ∃ x y, b = x ++ w ++ y ∧ length w = n.
Proof.
  unfold windows. rewrite list_elem_of_fmap. setoid_rewrite elem_of_seq. split.
  - intros (i & -> & Hi). exists (take i b), (drop n (drop i b)). rewrite length_take, length_drop.
    split; [by rewrite take_drop, take_drop|lia].
  - intros (x & y & -> & Hn). exists (length x). rewrite !length_app.
    split; [|lia]. by rewrite drop_app_length, <-Hn, take_app_length.
Qed.

(** [collect] is the map of a function that never fails on the list. *)
Lemma collect_Ok {A B E} (f : A → result E B) l k :
  collect f l = Ok k ↔ Forall2 (λ x y, f x = Ok y) l k.
Proof.
  revert k. induction l as [|x l IH]; intros k; cbn.
  { split; [by intros [= <-]|by intros ->%Forall2_nil_inv_l]. }
  rewrite bind_Ok. setoid_rewrite fmap_Ok. setoid_rewrite IH. split.
  - intros (y & Hy & k' & Hk & <-). by constructor.
  - intros (y & k' & Hy & Hk & ->)%Forall2_cons_inv_l. eauto.
Qed.

(** It fails with the error of the first element it fails on. *)
Lemma collect_Err {A B E} (f : A → result E B) l e :
  collect f l = Err e →
  ∃ before x after, l = before ++ x :: after ∧ f x = Err e ∧
    Forall (λ y, ∃ r, f y = Ok r) before.
Proof.
  induction l as [|x l IH]; cbn; [done|]. intros [Hx|(y & Hy & Hl)]%bind_Err.
  { by exists [], x, l. }
  destruct (collect f l) as [k|e'|] eqn:Hc; [done| |done]. injection Hl as ->.
  destruct (IH eq_refl) as (before & z & after & -> & He & Hall).
  exists (x :: before), z, after. split_and!; [done..|]. constructor; eauto.
Qed.

Lemma no_panic_collect {A B E} (f : A → result E B) l :
  (∀ x, no_panic (f x)) → no_panic (collect f l).
Proof.
  intros Hf. induction l as [|x l IH]; cbn; [done|].
  apply no_panic_bind; [apply Hf|]. intros y _. by apply no_panic_fmap.
Qed.

Section certificates.
Context `{PemLib} `{DecodeOwned Certificate} `{DecodeOwned NameConstraints}.
Implicit Types (c : Certificate) (a : TrustAnchor) (b : bytes).

(** The anchor of a certificate, with the name constraints it states. *)
Definition anchor_of c a : Prop :=
  ∃ nc, ext_is c OID_NAME_CONSTRAINTS nc ∧ a = {|
    anchor_subject := subject (tbs_certificate c);
    anchor_spki := subject_public_key_info (tbs_certificate c);
    anchor_name_constraints := nc |}.

(** The name constraints of a certificate cannot be decoded. *)
Definition constraints_malformed c (e : DerError) : Prop :=
  ∃ x m, find_ext c OID_NAME_CONSTRAINTS = Some x ∧
    from_der (T:=NameConstraints) (extn_value x) = inl m ∧ e = der_error_new m.

Lemma trust_anchor_try_from_spec c :
  match trust_anchor_try_from c with
  | Ok a => anchor_of c a
  | Err e => constraints_malformed c e
  | Panic => False
  end.
Proof.
  unfold trust_anchor_try_from, anchor_of, constraints_malformed, ext_is, try_find_cert_ext.
  destruct (find_ext c OID_NAME_CONSTRAINTS) as [x|]; cbn; [|by eauto].
  destruct (from_der (extn_value x)) as [m|nc] eqn:Hx; cbn; eauto 10.
Qed.

Lemma anchor_from_Ok c a : anchor_from c = Ok a → anchor_of c a.
Proof.
  unfold anchor_from. intros Ha%map_err_Ok. pose proof (trust_anchor_try_from_spec c) as Hs.
  by rewrite Ha in Hs.
Qed.
Lemma anchor_from_Err c e :
  anchor_from c = Err e → ∃ d, e = Der d ∧ constraints_malformed c d.
Proof.
  unfold anchor_from. intros (d & Hd & <-)%map_err_Err.
  pose proof (trust_anchor_try_from_spec c) as Hs. rewrite Hd in Hs. by exists d.
Qed.
Lemma no_panic_anchor_from c : no_panic (anchor_from c).
Proof.
  unfold anchor_from. apply no_panic_map_err. intros Hp.
  pose proof (trust_anchor_try_from_spec c) as Hs. by rewrite Hp in Hs.
Qed.

(** The input has the first line of a certificate after its byte order mark. *)
Definition has_marker b : Prop := ∃ x y, strip_bom b = x ++ BEGIN_BOUNDARY ++ y.

Lemma marker_found b :
  existsb (λ w, bool_decide (w = BEGIN_BOUNDARY)) (windows (length BEGIN_BOUNDARY) (strip_bom b)) =
  true ↔ has_marker b.
Proof.
  rewrite existsb_elem. setoid_rewrite bool_decide_eq_true. unfold has_marker. split.
  - by intros (w & (x & y & Hb & _)%windows_elem & ->); eauto.
  - intros (x & y & Hb). exists BEGIN_BOUNDARY. rewrite windows_elem. eauto.
Qed.

(** Blanks: the only inputs on which the reader of bundles may panic. *)
Definition blank b : Prop := Forall (λ x, x ∈ [9; 10; 12; 13; 32]%N) b.

Lemma marker_not_blank b : has_marker b → ¬ blank (strip_bom b).
Proof.
  intros (x & y & ->) Hb. unfold blank in Hb. rewrite !Forall_app in Hb.
  destruct Hb as (_ & Hb & _). revert Hb. apply (bool_decide_unpack (¬ _)). vm_compute. exact I.
Qed.

(** C34: a bundle gives an anchor for every certificate of it, with the subject,
    the key and the decoded name constraints, or none at all: it fails without
    the first line of a certificate, on the first error of the reader, and with
    the error of the first certificate of the bundle whose name constraints
    cannot be decoded.  It does not panic, although the reader does on blank
    input. *)
Theorem from_pem_correct b
    (Hlib : ∀ i, load_pem_chain i = Panic → blank i) :
  match from_pem b with
  | Ok anchors => anchors ≠ [] ∧ has_marker b ∧
      ∃ certs, load_pem_chain (strip_bom b) = Ok certs ∧ Forall2 anchor_of certs anchors
  | Err NoCertificates => ¬ has_marker b ∨ load_pem_chain (strip_bom b) = Ok []
  | Err (Pem e) => ∃ p, load_pem_chain (strip_bom b) = Err p ∧ pem_kind p = true ∧
      e = der_error_new (pem_error p)
  | Err (Der e) =>
      (∃ p, load_pem_chain (strip_bom b) = Err p ∧ pem_kind p = false ∧
         e = der_error_new (pem_error p)) ∨
      ∃ before c after, load_pem_chain (strip_bom b) = Ok (before ++ c :: after) ∧
        constraints_malformed c e ∧ Forall (λ c, ∃ a, anchor_of c a) before
  | _ => False
  end.
Proof.
  unfold from_pem. cbv zeta. destruct (existsb _ _) eqn:Hm; cbn [negb].
  2: { left. rewrite <-marker_found. congruence. }
  apply marker_found in Hm.
  destruct (load_pem_chain (strip_bom b)) as [certs|p|] eqn:Hl; cbn [map_err mbind result_bind].
  - destruct (decide (certs = [])) as [->|Hne]; [by right|].
    destruct (collect anchor_from certs) as [anchors|e|] eqn:Hc.
    + apply collect_Ok in Hc. split_and!; [|done|].
      * intros ->. by apply Hne, (Forall2_nil_inv_r _ _ Hc).
      * exists certs. split; [done|]. eapply Forall2_impl; [exact Hc|]. apply anchor_from_Ok.
    + apply collect_Err in Hc as (before & c & after & -> & (d & -> & Hd)%anchor_from_Err & Hall).
      right. exists before, c, after. split_and!; [done..|].
      eapply Forall_impl; [exact Hall|]. intros c' [a Ha]. exists a. by apply anchor_from_Ok.
    + exact (no_panic_collect anchor_from certs no_panic_anchor_from Hc).
  - unfold map_pem_chain_error. destruct (pem_kind p) eqn:Hk; [|left]; by exists p.
  - exact (marker_not_blank b Hm (Hlib _ Hl)).
Qed.

(** The octets of one anchor. *)
Definition anchor_der b a : Prop :=
  ∃ c, from_der (T:=Certificate) b = inr c ∧ anchor_of c a.
Definition anchor_der_malformed b (e : DerError) : Prop :=
  (∃ m, from_der (T:=Certificate) b = inl m ∧ e = der_error_new m) ∨
  ∃ c, from_der (T:=Certificate) b = inr c ∧ constraints_malformed c e.

Lemma indexed_anchor_spec i b :
  match indexed_anchor i b with
  | Ok a => anchor_der b a
  | Err e => ∃ d, e = MalformedAnchor i d ∧ anchor_der_malformed b d
  | Panic => False
  end.
Proof.
  unfold indexed_anchor, anchor_der, anchor_der_malformed.
  destruct (from_der b) as [m|c]; cbn; [by eauto 10|].
  pose proof (trust_anchor_try_from_spec c) as Hs.
  destruct (trust_anchor_try_from c); cbn; eauto 10.
Qed.

Lemma collect_indexed_spec k iter :
  let (r, rest) := collect_indexed k iter in
  match r with
  | Ok anchors => rest = [] ∧ Forall2 anchor_der iter anchors
  | Err e => ∃ before b d, iter = before ++ b :: rest ∧
      e = MalformedAnchor (k + length before) d ∧ anchor_der_malformed b d ∧
      Forall (λ b, ∃ a, anchor_der b a) before
  | Panic => False
  end.
Proof.
  revert k. induction iter as [|b iter IH]; intros k; cbn [collect_indexed].
  { split; [done|constructor]. }
  pose proof (indexed_anchor_spec k b) as Hb. destruct (indexed_anchor k b) as [a|e|]; [|
    destruct Hb as (d & -> & Hd); exists [], b, d; rewrite Nat.add_0_r;
    split_and!; [done..|constructor]|done].
  specialize (IH (S k)). destruct (collect_indexed (S k) iter) as [[anchors|e|] rest]; cbn.
  - destruct IH as [-> Hall]. split; [done|by constructor].
  - destruct IH as (before & b' & d & -> & -> & Hd & Hall).
    exists (b :: before), b', d. cbn. rewrite Nat.add_succ_r.
    split_and!; [done..|]. constructor; eauto.
  - done.
Qed.

(** The adapter for a sequence of DER certificates: all or nothing, with the
    index of the first malformed one, after which nothing is polled. *)
Theorem from_der_iter_correct iter :
  let (r, rest) := from_der_iter iter in
  match r with
  | Ok anchors => rest = [] ∧ anchors ≠ [] ∧ Forall2 anchor_der iter anchors
  | Err NoCertificates => iter = []
  | Err (MalformedAnchor i d) => ∃ b, iter = take i iter ++ b :: rest ∧
      anchor_der_malformed b d ∧ Forall (λ b, ∃ a, anchor_der b a) (take i iter)
  | _ => False
  end.
Proof.
  unfold from_der_iter. pose proof (collect_indexed_spec 0 iter) as Hs.
  destruct (collect_indexed 0 iter) as [[anchors|e|] rest]; cbn [mbind result_bind]; [| |done].
  - destruct Hs as [-> Hall]. destruct (decide (anchors = [])) as [->|Hne]; [|done].
    by apply Forall2_nil_inv_r in Hall.
  - destruct Hs as (before & b & d & -> & -> & Hd & Hall). cbn [Nat.add].
    rewrite take_app_length. by exists b.
Qed.

(** A file is loaded through its octets. *)
Lemma from_pem_file_Ok {Path} `{FileSystem Path} (path : Path) cap anchors :
  from_pem_file_with_cap path cap = Ok anchors ↔
  ∃ b, read_file_capped path cap = Ok b ∧ from_pem b = Ok anchors.
Proof. apply bind_Ok. Qed.
End certificates.

(** ** A device, a file and a bundle *)
Inductive Disk := Zero | Three.
#[local] Instance disk : FileSystem Disk := λ p, inr
  match p with
  | Zero => {| metadata_len := Some 0%N; contents := λ _, Octet 0 |}
  | Three => {| metadata_len := None;
                contents := λ i, match [7; 8; 9]%N !! i with Some b => Octet b | None => Eof end |}
  end.

Lemma read_file_capped_correct_witness :
  read_file_capped Three 3 = Ok [7; 8; 9]%N ∧
  ∃ m, read_file_capped Zero 3 =
    Err (Io {| failure_kind := ErrorKind.InvalidData; failure_message := m |}).
Proof.
  assert (Hcap : (3 < u64_max)%N) by reflexivity. split.
  - apply (proj1 (read_file_capped_correct Three 3 _ Hcap eq_refl)). split_and!; [done|done| |done].
    intros [|[|[|i]]] b Hb; [injection Hb as <-; reflexivity..|by rewrite lookup_ge_None_2 in Hb by (cbn; lia)].
  - by apply (read_file_capped_correct Zero 3 _ Hcap eq_refl).
Defined.

(** A reader that panics on blank input and gives an authority otherwise. *)
#[local] Instance toy_pem : PemLib := λ b,
  if decide (Forall (λ x, x ∈ [9; 10; 12; 13; 32]%N) b) then Panic
  else Ok [sample_ca "i" "s" 7 [sample_ext OID_NAME_CONSTRAINTS (0%N :: str "a.test")]].

Lemma from_pem_correct_witness :
  ∃ a, from_pem (UTF8_BOM ++ BEGIN_BOUNDARY ++ [10]%N) = Ok [a] ∧
    anchor_name_constraints a = Some {| permitted_subtrees := Some [dns_subtree (str "a.test")];
                                        excluded_subtrees := None |} ∧
    has_marker (UTF8_BOM ++ BEGIN_BOUNDARY ++ [10]%N).
Proof.
  assert (Hlib : ∀ i, load_pem_chain i = Panic → blank i).
  { intros i. unfold load_pem_chain, toy_pem, blank. by destruct (decide _). }
  pose proof (from_pem_correct (UTF8_BOM ++ BEGIN_BOUNDARY ++ [10]%N) Hlib) as Hc.
  destruct (from_pem (UTF8_BOM ++ BEGIN_BOUNDARY ++ [10]%N)) as [l|e|] eqn:Hp;
    vm_compute in Hp; [|discriminate Hp..].
  destruct Hc as (_ & Hm & _). injection Hp as <-. eexists. split; [reflexivity|].
  split; [reflexivity|exact Hm].
Defined.
