(* ===== verification/SerdeDer.v ===== *)
(** * Serialised inputs and results (pkix-path/src/serde_der.rs, pkix-path/src/lib.rs)

    The helpers that serialise values through their DER encoding, and what the
    derived implementations make of trust anchors, validated paths and errors.
    A serialised value is a tree of the data model of serde; the crate and the
    format are parameters. *)
From S2P Require Import Prelude X509 PathTypes.

(** ** The data model *)
Inductive SerVal :=
| VBool (b : bool)
| VInt (n : N)
| VStr (s : bytes)
| VBytes (b : bytes)
| VNone
| VSome (v : SerVal)
| VSeq (l : list SerVal)
| VStruct (fields : list (string * SerVal))
| VUnitVariant (name : string)
| VVariant (name : string) (v : SerVal).

Inductive SerdeError :=
| Custom (e : der_error) | InvalidBase64 | UnknownVariant (name : string) | Refused (reason : bytes).

(** The crate serde and a format of it: whether it is made for people, the trees
    it can write, and what it reads of a tree it has written: integers by their
    largest value, [bool], [String], [Vec<u8>], [Option<T>], [Vec<T>], the fields
    of a structure (one of a type [Option] may be absent) and the variant of an
    enumeration. *)
Class SerdeLib := {
  is_human_readable : bool;
  writable : SerVal → Prop;
  de_int : N → SerVal → result SerdeError N;
  de_bool : SerVal → result SerdeError bool;
  de_string : SerVal → result SerdeError bytes;
  de_byte_vec : SerVal → result SerdeError bytes;
  de_option : ∀ {A}, (SerVal → result SerdeError A) → SerVal → result SerdeError (option A);
  de_vec : ∀ {A}, (SerVal → result SerdeError A) → SerVal → result SerdeError (list A);
  de_field : string → SerVal → result SerdeError SerVal;
  de_optional_field : string → SerVal → result SerdeError SerVal;
  de_variant : SerVal → result SerdeError (string * option SerVal) }.

(** [impl Serialize for [u8]] and [Vec<u8>]: a sequence. *)
Definition ser_octets (b : bytes) : SerVal := VSeq (VInt <$> b).

(** ** The helpers *)

(** [T::to_der] and [T::from_der] of a type; the crate [base64ct]. *)
Record DerCodec (T : Type) := {
  codec_to_der : T → der_error + bytes; codec_from_der : bytes → der_error + T }.
Arguments codec_to_der {T}. Arguments codec_from_der {T}.
Class Base64 := { encode_string : bytes → bytes; decode_vec : bytes → option bytes }.

(** [impl Serialize for [T]] and [Vec<T>] where an element may fail. *)
Fixpoint ser_list {A} (ser : A → result SerdeError SerVal) (l : list A) :
    result SerdeError (list SerVal) :=
  match l with
  | [] => Ok []
  | a :: l => v ← ser a; (v ::.) <$> ser_list ser l
  end.

Section serde_der.
Context `{SerdeLib} `{Base64} {T : Type} (codec : DerCodec T).

(** [value.to_der().map_err(serde::ser::Error::custom)] *)
Definition ser_der (value : T) : result SerdeError bytes := lift_der Custom (codec_to_der codec value).
(** [T::from_der(&der_bytes).map_err(serde::de::Error::custom)] *)
Definition de_der (b : bytes) : result SerdeError T := lift_der Custom (codec_from_der codec b).
(** [Base64::decode_vec(&s).map_err(serde::de::Error::custom)] *)
Definition de_base64 (s : bytes) : result SerdeError bytes := ok_or (decode_vec s) InvalidBase64.

Definition serialize (value : T) : result SerdeError SerVal :=
  der_bytes ← ser_der value;
  mret (if is_human_readable then VStr (encode_string der_bytes) else VBytes der_bytes).

Definition deserialize (v : SerVal) : result SerdeError T :=
  der_bytes ← (if is_human_readable then s ← de_string v; de_base64 s else de_byte_vec v);
  de_der der_bytes.

Definition option_serialize (value : option T) : result SerdeError SerVal :=
  match value with
  | Some v =>
      der_bytes ← ser_der v;
      mret (VSome (if is_human_readable then VStr (encode_string der_bytes)
                   else ser_octets der_bytes))
  | None => mret VNone
  end.

Definition option_deserialize (v : SerVal) : result SerdeError (option T) :=
  if is_human_readable then
    opt ← de_option de_string v;
    match opt with
    | Some s => der_bytes ← de_base64 s; v ← de_der der_bytes; mret (Some v)
    | None => mret None
    end
  else
    opt ← de_option (de_byte_vec) v;
    match opt with
    | Some b => v ← de_der b; mret (Some v)
    | None => mret None
    end.

(** One element of a sequence. *)
Definition ser_element (value : T) : result SerdeError SerVal :=
  der_bytes ← ser_der value;
  mret (if is_human_readable then VStr (encode_string der_bytes) else ser_octets der_bytes).

Definition vec_serialize (values : list T) : result SerdeError SerVal :=
  VSeq <$> ser_list ser_element values.

(** The loops over the strings and over the byte vectors. *)
Fixpoint de_strings (strs : list bytes) : result SerdeError (list T) :=
  match strs with
  | [] => mret []
  | s :: strs => der_bytes ← de_base64 s; v ← de_der der_bytes; (v ::.) <$> de_strings strs
  end.
Fixpoint de_byte_vecs (l : list bytes) : result SerdeError (list T) :=
  match l with
  | [] => mret []
  | b :: l => v ← de_der b; (v ::.) <$> de_byte_vecs l
  end.

Definition vec_deserialize (v : SerVal) : result SerdeError (list T) :=
  if is_human_readable then strs ← de_vec de_string v; de_strings strs
  else byte_vecs ← de_vec (de_byte_vec) v; de_byte_vecs byte_vecs.

Definition option_vec_serialize (value : option (list T)) : result SerdeError SerVal :=
  match value with
  | Some values => (λ l, VSome (VSeq l)) <$> ser_list ser_element values
  | None => mret VNone
  end.

Definition option_vec_deserialize (v : SerVal) : result SerdeError (option (list T)) :=
  if is_human_readable then
    opt ← de_option (de_vec de_string) v;
    match opt with Some strs => Some <$> de_strings strs | None => mret None end
  else
    opt ← de_option (de_vec (de_byte_vec)) v;
    match opt with Some byte_vecs => Some <$> de_byte_vecs byte_vecs | None => mret None end.
End serde_der.

(** ** Derived implementations *)

(** The encodings of the types of the fields. *)
Class FieldCodecs := {
  name_codec : DerCodec Name; spki_codec : DerCodec SubjectPublicKeyInfo;
  serial_codec : DerCodec SerialNumber; oid_codec : DerCodec ObjectIdentifier;
  constraints_codec : DerCodec NameConstraints; qualifier_codec : DerCodec PolicyQualifierInfo }.

Section derived.
Context `{SerdeLib} `{Base64} `{FieldCodecs}.

Definition trust_anchor_serialize (a : TrustAnchor) : result SerdeError SerVal :=
  s ← serialize name_codec (anchor_subject a);
  k ← serialize spki_codec (anchor_spki a);
  n ← option_serialize constraints_codec (anchor_name_constraints a);
  mret (VStruct [("subject", s); ("subject_public_key_info", k); ("name_constraints", n)])%string.
Definition trust_anchor_deserialize (v : SerVal) : result SerdeError TrustAnchor :=
  s ← (de_field "subject" v ≫= deserialize name_codec);
  k ← (de_field "subject_public_key_info" v ≫= deserialize spki_codec);
  n ← (de_field "name_constraints" v ≫= option_deserialize constraints_codec);
  mret {| anchor_subject := s; anchor_spki := k; anchor_name_constraints := n |}.

(** [DerError]: its [Wire] form; the original error is lost. *)
Definition der_error_serialize (e : DerError) : result SerdeError SerVal :=
  mret (VStruct [("message", VStr (str (message e)))])%string.
Definition der_error_deserialize (v : SerVal) : result SerdeError DerError :=
  m ← (de_field "message" v ≫= de_string);
  mret {| inner := None; message := String.string_of_list_ascii (Ascii.ascii_of_N <$> m) |}.

Definition node_serialize (n : PolicyTreeNode) : result SerdeError SerVal :=
  p ← serialize oid_codec (ptn_valid_policy n);
  e ← vec_serialize oid_codec (ptn_expected_policy_set n);
  q ← vec_serialize qualifier_codec (ptn_qualifiers n);
  mret (VStruct [("depth", VInt (N.of_nat (ptn_depth n))); ("valid_policy", p);
    ("expected_policy_set", e); ("qualifiers", q)])%string.
Definition node_deserialize (v : SerVal) : result SerdeError PolicyTreeNode :=
  d ← (de_field "depth" v ≫= de_int u64_max);
  p ← (de_field "valid_policy" v ≫= deserialize oid_codec);
  e ← (de_field "expected_policy_set" v ≫= vec_deserialize oid_codec);
  q ← (de_field "qualifiers" v ≫= vec_deserialize qualifier_codec);
  mret {| ptn_depth := N.to_nat d; ptn_valid_policy := p; ptn_expected_policy_set := e;
          ptn_qualifiers := q |}.

Definition path_serialize (p : ValidatedPath) : result SerdeError SerVal :=
  s ← serialize name_codec (leaf_subject p);
  i ← serialize name_codec (leaf_issuer p);
  n ← serialize serial_codec (leaf_serial p);
  k ← serialize spki_codec (leaf_spki p);
  t ← match valid_policy_tree p with
      | Some nodes => (λ l, VSome (VSeq l)) <$> ser_list node_serialize nodes
      | None => mret VNone
      end;
  mret (VStruct [("anchor_index", VInt (N.of_nat (anchor_index p)));
    ("depth", VInt (N.of_nat (path_depth p))); ("leaf_subject", s); ("leaf_issuer", i);
    ("leaf_serial", n); ("leaf_spki", k); ("valid_policy_tree", t)])%string.
Definition path_deserialize (v : SerVal) : result SerdeError ValidatedPath :=
  a ← (de_field "anchor_index" v ≫= de_int u64_max);
  d ← (de_field "depth" v ≫= de_int u64_max);
  s ← (de_field "leaf_subject" v ≫= deserialize name_codec);
  i ← (de_field "leaf_issuer" v ≫= deserialize name_codec);
  n ← (de_field "leaf_serial" v ≫= deserialize serial_codec);
  k ← (de_field "leaf_spki" v ≫= deserialize spki_codec);
  t ← (de_optional_field "valid_policy_tree" v ≫= de_option (de_vec node_deserialize));
  mret {| anchor_index := N.to_nat a; path_depth := N.to_nat d; leaf_subject := s;
          leaf_issuer := i; leaf_serial := n; leaf_spki := k; valid_policy_tree := t |}.

(** The variants of [Error] with an index. *)
Definition index_variant (name : string) (i : nat) : SerVal :=
  VVariant name (VStruct [("index", VInt (N.of_nat i))])%string.
Definition error_serialize (e : Error) : result SerdeError SerVal :=
  match e with
  | SignatureInvalid i => mret (index_variant "SignatureInvalid" i)
  | MalformedCertificate i => mret (index_variant "MalformedCertificate" i)
  | ValidityPeriod i => mret (index_variant "ValidityPeriod" i)
  | ChainBroken i => mret (index_variant "ChainBroken" i)
  | NoTrustedPath => mret (VUnitVariant "NoTrustedPath")
  | PathTooLong => mret (VUnitVariant "PathTooLong")
  | NotCA i => mret (index_variant "NotCA" i)
  | KeyUsageMissing i => mret (index_variant "KeyUsageMissing" i)
  | CrlSignMissing i => mret (index_variant "CrlSignMissing" i)
  | UnhandledCriticalExtension i => mret (index_variant "UnhandledCriticalExtension" i)
  | NameConstraintViolation i => mret (index_variant "NameConstraintViolation" i)
  | PolicyViolation i => mret (index_variant "PolicyViolation" i)
  | Der e => VVariant "Der" <$> der_error_serialize e
  | ValidityPeriodExceedsMax i => mret (index_variant "ValidityPeriodExceedsMax" i)
  | AlgorithmNotAllowed i => mret (index_variant "AlgorithmNotAllowed" i)
  | KeyTooSmall i => mret (index_variant "KeyTooSmall" i)
  | MissingSan => mret (VUnitVariant "MissingSan")
  | MissingRfc822San => mret (VUnitVariant "MissingRfc822San")
  | MissingEku => mret (VUnitVariant "MissingEku")
  | MissingLeafPolicyOid required =>
      r ← serialize oid_codec required;
      mret (VVariant "MissingLeafPolicyOid" (VStruct [("required", r)]))
  | SubjectDnAttrRuleUnmet => mret (VUnitVariant "SubjectDnAttrRuleUnmet")
  | DuplicateCertificate first second =>
      mret (VVariant "DuplicateCertificate"
        (VStruct [("first", VInt (N.of_nat first)); ("second", VInt (N.of_nat second))]))
  end%string.

Definition de_index (k : nat → Error) (v : SerVal) : result SerdeError Error :=
  i ← (de_field "index" v ≫= de_int u64_max); mret (k (N.to_nat i)).
Definition error_deserialize (v : SerVal) : result SerdeError Error :=
  variant ← de_variant v;
  match variant with
  | (name, None) =>
      if decide (name = "NoTrustedPath") then Ok NoTrustedPath
      else if decide (name = "PathTooLong") then Ok PathTooLong
      else if decide (name = "MissingSan") then Ok MissingSan
      else if decide (name = "MissingRfc822San") then Ok MissingRfc822San
      else if decide (name = "MissingEku") then Ok MissingEku
      else if decide (name = "SubjectDnAttrRuleUnmet") then Ok SubjectDnAttrRuleUnmet
      else Err (UnknownVariant name)
  | (name, Some v) =>
      if decide (name = "SignatureInvalid") then de_index SignatureInvalid v
      else if decide (name = "MalformedCertificate") then de_index MalformedCertificate v
      else if decide (name = "ValidityPeriod") then de_index ValidityPeriod v
      else if decide (name = "ChainBroken") then de_index ChainBroken v
      else if decide (name = "NotCA") then de_index NotCA v
      else if decide (name = "KeyUsageMissing") then de_index KeyUsageMissing v
      else if decide (name = "CrlSignMissing") then de_index CrlSignMissing v
      else if decide (name = "UnhandledCriticalExtension") then de_index UnhandledCriticalExtension v
      else if decide (name = "NameConstraintViolation") then de_index NameConstraintViolation v
      else if decide (name = "PolicyViolation") then de_index PolicyViolation v
      else if decide (name = "Der") then Der <$> der_error_deserialize v
      else if decide (name = "ValidityPeriodExceedsMax") then de_index ValidityPeriodExceedsMax v
      else if decide (name = "AlgorithmNotAllowed") then de_index AlgorithmNotAllowed v
      else if decide (name = "KeyTooSmall") then de_index KeyTooSmall v
      else if decide (name = "MissingLeafPolicyOid") then
        r ← (de_field "required" v ≫= deserialize oid_codec);
        mret (MissingLeafPolicyOid r)
      else if decide (name = "DuplicateCertificate") then
        a ← (de_field "first" v ≫= de_int u64_max);
        b ← (de_field "second" v ≫= de_int u64_max);
        mret (DuplicateCertificate (N.to_nat a) (N.to_nat b))
      else Err (UnknownVariant name)
  end%string.
End derived.
