(* ===== verification/SerdeDerSpec.v ===== *)
(** * Round trips of serialised inputs and results

    What a format has written is read back, in every format for people and in
    every binary format that hands byte strings over as sequences of octets; but
    a trust anchor without name constraints only where the absence of a value is
    written. *)
From S2P Require Import Prelude X509 PathTypes SerdeDer.

(** A reader undoes a writer, on what the format writes. *)
Definition undoes `{SerdeLib} {A} (de : SerVal → result SerdeError A)
    (ser : A → result SerdeError SerVal) : Prop :=
  ∀ a v, ser a = Ok v → writable v → de v = Ok a.

(** The laws of an encoding: it is read back, and consists of octets. *)
Record lawful {T} (c : DerCodec T) : Prop := {
  codec_inverse : ∀ t b, codec_to_der c t = inr b → codec_from_der c b = inr t;
  codec_octets : ∀ t b, codec_to_der c t = inr b → Forall (λ x, x ≤ 255)%N b }.

(** A string or a sequence: not a value that a format may take for the absence
    of one, as JSON does with [Some(None)]. *)
Definition plain (v : SerVal) : bool := match v with VStr _ | VSeq _ => true | _ => false end.

(** The laws of serde: what is written has written parts, and the readers take
    it for what the data model says.  A field whose value is [None] need not be
    written; a field of a type [Option] that is absent is read as [None]. *)
Record serde_laws `{SerdeLib} : Prop := {
  writable_field : ∀ fields n v,
    writable (VStruct fields) → (n, v) ∈ fields → v ≠ VNone → writable v;
  writable_element : ∀ l v, writable (VSeq l) → v ∈ l → writable v;
  writable_some : ∀ v, writable (VSome v) → writable v;
  writable_variant : ∀ n v, writable (VVariant n v) → writable v;
  int_law : ∀ max n, writable (VInt n) → (n ≤ max)%N → de_int max (VInt n) = Ok n;
  string_law : ∀ s, writable (VStr s) → de_string (VStr s) = Ok s;
  octets_law : ∀ b, writable (ser_octets b) → Forall (λ x, x ≤ 255)%N b →
    de_byte_vec (ser_octets b) = Ok b;
  none_law : ∀ A (de : SerVal → result SerdeError A), de_option de VNone = Ok None;
  some_law : ∀ A (de : SerVal → result SerdeError A) v a,
    writable (VSome v) → plain v = true → de v = Ok a → de_option de (VSome v) = Ok (Some a);
  vec_law : ∀ A (de : SerVal → result SerdeError A) vs l,
    writable (VSeq vs) → Forall2 (λ v a, de v = Ok a) vs l → de_vec de (VSeq vs) = Ok l;
  field_law : ∀ fields n v, writable (VStruct fields) → NoDup fields.*1 → (n, v) ∈ fields →
    v ≠ VNone → de_field n (VStruct fields) = Ok v;
  optional_field_law : ∀ fields n v, writable (VStruct fields) → NoDup fields.*1 →
    (n, v) ∈ fields → de_optional_field n (VStruct fields) = Ok v;
  unit_law : ∀ n, writable (VUnitVariant n) → de_variant (VUnitVariant n) = Ok (n, None);
  variant_law : ∀ n v, writable (VVariant n v) → de_variant (VVariant n v) = Ok (n, Some v) }.

(** What a format does with a field whose value is [None]: JSON and the binary
    formats write it; TOML leaves it out, and the field is missing when it is
    read. *)
Definition keeps_none `{SerdeLib} : Prop :=
  ∀ fields n, writable (VStruct fields) → NoDup fields.*1 → (n, VNone) ∈ fields →
    de_field n (VStruct fields) = Ok VNone.
Definition leaves_out_none `{SerdeLib} : Prop :=
  ∀ fields n, writable (VStruct fields) → NoDup fields.*1 → (n, VNone) ∈ fields →
    ∃ e, de_field n (VStruct fields) = Err e.

(** A format for people, or one that reads a byte string as a sequence of
    octets. *)
Definition reads_byte_strings `{SerdeLib} : Prop :=
  is_human_readable = true ∨
  ∀ b, writable (VBytes b) → Forall (λ x, x ≤ 255)%N b → de_byte_vec (VBytes b) = Ok b.

(** ** Sequences *)
Lemma ser_list_undone {A} (ser : A → result SerdeError SerVal)
    (de : SerVal → result SerdeError A) l vs :
  (∀ a v, a ∈ l → v ∈ vs → ser a = Ok v → de v = Ok a) →
  ser_list ser l = Ok vs → Forall2 (λ v a, de v = Ok a) vs l.
Proof.
  revert vs. induction l as [|a l IH]; intros vs Hu Hs; cbn in Hs; [by injection Hs as <-|].
  inv_ok. subst vs. constructor; [apply Hu; [by left|by left|done]|].
  apply IH; [|done]. intros b v Hb Hv. apply Hu; by right.
Qed.

(** ** The helpers *)
Section helpers.
Context `{SerdeLib} `{Base64} {T : Type} (c : DerCodec T).
Context (Hlib : serde_laws) (Hbase64 : ∀ b, decode_vec (encode_string b) = Some b) (Hc : lawful c).

(** A value and the form of it in a sequence. *)
Lemma element_undone t v :
  ser_element c t = Ok v → plain v = true ∧ (writable v →
  if is_human_readable
  then ∃ s b, v = VStr s ∧ de_string v = Ok s ∧ de_base64 s = Ok b ∧ de_der c b = Ok t
  else ∃ b, de_byte_vec v = Ok b ∧ de_der c b = Ok t).
Proof.
  unfold ser_element, ser_der, de_der, de_base64. intros Hs. inv_ok. apply lift_der_Ok in Hr.
  assert (Hd : lift_der Custom (codec_from_der c r) = Ok t)
    by (by apply lift_der_Ok, (codec_inverse c Hc)).
  subst v. destruct is_human_readable; (split; [done|]); intros Hw.
  - eexists _, r. split; [done|]. rewrite Hbase64. by rewrite (string_law Hlib).
  - exists r. split; [|done]. apply (octets_law Hlib); [done|]. by eapply (codec_octets c Hc).
Qed.

Lemma elements_undone ts vs :
  ser_list (ser_element c) ts = Ok vs → writable (VSeq vs) →
  if is_human_readable
  then ∃ strs, de_vec de_string (VSeq vs) = Ok strs ∧ de_strings c strs = Ok ts
  else ∃ l, de_vec de_byte_vec (VSeq vs) = Ok l ∧ de_byte_vecs c l = Ok ts.
Proof.
  intros Hs Hw. assert (Hparts : Forall writable vs).
  { apply Forall_forall. intros v Hv. by eapply (writable_element Hlib). }
  assert (Hall : if is_human_readable
    then ∃ strs, Forall2 (λ v s, de_string v = Ok s) vs strs ∧ de_strings c strs = Ok ts
    else ∃ l, Forall2 (λ v b, de_byte_vec v = Ok b) vs l ∧ de_byte_vecs c l = Ok ts).
  { clear Hw. revert vs Hs Hparts. induction ts as [|t ts IH]; intros vs Hs Hparts; cbn in Hs.
    { injection Hs as <-. destruct is_human_readable; by exists []. }
    inv_ok. subst vs. apply Forall_cons in Hparts as [Hw Hparts].
    specialize (IH _ Hr0 Hparts). apply element_undone in Hr as [_ Hr]. specialize (Hr Hw).
    destruct is_human_readable.
    - destruct Hr as (s & b & -> & Hs & Hb & Ht), IH as (strs & Hl & Hts). exists (s :: strs).
      split; [by constructor|]. cbn. rewrite Hb. cbn. rewrite Ht. cbn. by rewrite Hts.
    - destruct Hr as (b & Hb & Ht), IH as (l & Hl & Hts). exists (b :: l).
      split; [by constructor|]. cbn. rewrite Ht. cbn. by rewrite Hts. }
  destruct is_human_readable; destruct Hall as (l & Hl & Hts); exists l;
    (split; [by apply (vec_law Hlib)|done]).
Qed.

Lemma serialize_undone : reads_byte_strings → undoes (deserialize c) (serialize c).
Proof.
  intros Hf t v. unfold serialize, deserialize, ser_der, de_der, de_base64. intros Hs Hw. inv_ok.
  apply lift_der_Ok in Hr. subst v. pose proof (codec_octets c Hc _ _ Hr) as Ho.
  apply (codec_inverse c Hc) in Hr. unfold reads_byte_strings in Hf. destruct is_human_readable.
  - rewrite (string_law Hlib) by done. cbn. rewrite Hbase64. cbn. by rewrite Hr.
  - destruct Hf as [|Hf]; [done|]. rewrite Hf by done. cbn. by rewrite Hr.
Qed.

(** Where byte strings are refused, so is what the plain writer gives. *)
Lemma serialize_not_undone t v e :
  is_human_readable = false → (∀ b, de_byte_vec (VBytes b) = Err e) →
  serialize c t = Ok v → deserialize c v = Err e.
Proof.
  unfold serialize, deserialize. intros -> Hb Hs. inv_ok. subst v. by rewrite Hb.
Qed.

Lemma option_undone : undoes (option_deserialize c) (option_serialize c).
Proof.
  intros [t|] v; unfold option_serialize, option_deserialize.
  - intros Hs Hw. assert (∃ w, ser_element c t = Ok w ∧ v = VSome w) as (w & He & ->).
    { unfold ser_element. inv_ok. subst v. exists (if is_human_readable then VStr (encode_string r)
        else ser_octets r). rewrite Hr. split; [done|]. by destruct is_human_readable. }
    apply element_undone in He as [Hp He].
    specialize (He (writable_some Hlib _ Hw)). destruct is_human_readable.
    + destruct He as (s & b & -> & Hstr & Hb & Ht). rewrite (some_law Hlib _ _ _ s) by done.
      cbn. rewrite Hb. cbn. by rewrite Ht.
    + destruct He as (b & Hb & Ht). rewrite (some_law Hlib _ _ _ b) by done. cbn. by rewrite Ht.
  - intros [= <-] _. by destruct is_human_readable; rewrite (none_law Hlib).
Qed.

Lemma vec_undone : undoes (vec_deserialize c) (vec_serialize c).
Proof.
  intros ts v. unfold vec_serialize, vec_deserialize. intros Hs Hw. inv_ok. subst v.
  apply elements_undone in Hr; [|done]. destruct is_human_readable;
    destruct Hr as (l & Hl & Hts); rewrite Hl; exact Hts.
Qed.

Lemma option_vec_undone : undoes (option_vec_deserialize c) (option_vec_serialize c).
Proof.
  intros [ts|] v; unfold option_vec_serialize, option_vec_deserialize.
  - intros Hs Hw. inv_ok. subst v. pose proof (writable_some Hlib _ Hw) as Hw'.
    apply elements_undone in Hr; [|done].
    destruct is_human_readable; destruct Hr as (l & Hl & Hts);
      rewrite (some_law Hlib _ _ _ l) by done; cbn; by rewrite Hts.
  - intros [= <-] _. by destruct is_human_readable; rewrite (none_law Hlib).
Qed.

(** None of the plain helpers writes [None]. *)
Lemma serialize_not_none t v : serialize c t = Ok v → v ≠ VNone.
Proof. unfold serialize. intros Hs. inv_ok. subst v. by destruct is_human_readable. Qed.
Lemma vec_not_none ts v : vec_serialize c ts = Ok v → v ≠ VNone.
Proof. unfold vec_serialize. intros Hs. inv_ok. by subst v. Qed.
Lemma option_not_none o v : o ≠ None → option_serialize c o = Ok v → v ≠ VNone.
Proof. destruct o as [t|]; [|done]. cbn. intros _ Hs. inv_ok. by subst v. Qed.
End helpers.

(** ** Derived implementations *)
Lemma field_undone `{SerdeLib} {A} (de : SerVal → result SerdeError A) fields n v a :
  serde_laws → writable (VStruct fields) → NoDup fields.*1 → (n, v) ∈ fields → v ≠ VNone →
  (writable v → de v = Ok a) → (de_field n (VStruct fields) ≫= de) = Ok a.
Proof.
  intros Hlib Hw Hnd Hin Hv Hde. rewrite (field_law Hlib fields n v) by done. cbn.
  by eapply Hde, (writable_field Hlib).
Qed.

(** Reads all fields of a structure that was just written, and their values. *)
Ltac find_pair := first [apply list_elem_of_here | apply list_elem_of_further; find_pair].
Ltac names := apply (bool_decide_unpack _); vm_compute; exact I.
Ltac not_none :=
  first [discriminate | eapply serialize_not_none; eassumption | eapply vec_not_none; eassumption
        |eapply option_not_none; [|eassumption]; discriminate].
Ltac readable Hlib :=
  intros;
  first [eapply serialize_undone; eassumption | eapply vec_undone; eassumption
        |eapply (int_law Hlib); eassumption | eapply (string_law Hlib); eassumption].
Ltac reread Hlib Hw :=
  repeat (match goal with
    | |- (de_field ?n (VStruct ?fields) ≫= ?de) ≫= _ = _ =>
        erewrite (field_undone de fields n _ _ Hlib Hw);
          [|names|find_pair|not_none
           |readable Hlib]
    end; cbn [mbind result_bind]).

Section derived.
Context `{SerdeLib} `{Base64} `{FieldCodecs}.
Context (Hlib : serde_laws) (Hf : reads_byte_strings).
Context (Hbase64 : ∀ b, decode_vec (encode_string b) = Some b).
Context (Hname : lawful name_codec) (Hspki : lawful spki_codec) (Hserial : lawful serial_codec)
  (Hoid : lawful oid_codec) (Hnc : lawful constraints_codec) (Hqual : lawful qualifier_codec).

Lemma trust_anchor_undone a v :
  anchor_name_constraints a ≠ None ∨ keeps_none →
  trust_anchor_serialize a = Ok v → writable v → trust_anchor_deserialize v = Ok a.
Proof.
  intros Hk Hs Hw. unfold trust_anchor_serialize in Hs. inv_ok. subst v.
  unfold trust_anchor_deserialize. reread Hlib Hw.
  assert (∀ fields, writable (VStruct fields) → NoDup fields.*1 →
    ("name_constraints"%string, r1) ∈ fields →
    (de_field "name_constraints" (VStruct fields) ≫= option_deserialize constraints_codec) =
    Ok (anchor_name_constraints a)) as Hopt.
  { intros fields Hwf Hnd Hin. destruct (anchor_name_constraints a) as [nc|].
    - eapply field_undone; [done..|not_none|]. by eapply option_undone.
    - destruct Hk as [|Hk]; [done|]. injection Hr1 as <-. rewrite Hk by done. cbn.
      unfold option_deserialize. by destruct is_human_readable; rewrite (none_law Hlib). }
  rewrite Hopt; [cbn; by destruct a|done|names|find_pair].
Qed.

(** An anchor without name constraints is lost where [None] is left out. *)
Lemma trust_anchor_lost a v :
  leaves_out_none → anchor_name_constraints a = None →
  trust_anchor_serialize a = Ok v → writable v → ∃ e, trust_anchor_deserialize v = Err e.
Proof.
  intros Hl Hnone Hs Hw. unfold trust_anchor_serialize in Hs. inv_ok. subst v.
  rewrite Hnone in Hr1. injection Hr1 as <-.
  edestruct (Hl _ "name_constraints"%string Hw) as [e He]; [names|find_pair|].
  exists e. unfold trust_anchor_deserialize. reread Hlib Hw. by rewrite He.
Qed.

(** The integers of a value have the widths of their types. *)
Definition usize_fits (n : nat) : Prop := (N.of_nat n ≤ u64_max)%N.

(** The message of an error is kept, and with it the equality of errors. *)
Lemma der_error_undone e v :
  der_error_serialize e = Ok v → writable v →
  ∃ e', der_error_deserialize v = Ok e' ∧ der_error_eq e e' = true ∧ inner e' = None.
Proof.
  intros [= <-] Hw. eexists. split; [unfold der_error_deserialize; reread Hlib Hw; reflexivity|].
  split; [|done]. apply bool_decide_eq_true. cbn. unfold str.
  rewrite <-list_fmap_compose, (list_fmap_ext _ id), list_fmap_id.
  - by rewrite String.string_of_list_ascii_of_string.
  - intros _ c _. cbn. apply Ascii.ascii_N_embedding.
Qed.

Lemma node_undone n v :
  usize_fits (ptn_depth n) → node_serialize n = Ok v → writable v → node_deserialize v = Ok n.
Proof.
  intros Hn Hs Hw. unfold node_serialize in Hs. inv_ok. subst v. unfold usize_fits in Hn.
  unfold node_deserialize. reread Hlib Hw. rewrite Nat2N.id. by destruct n.
Qed.

(** The integers of a validated path. *)
Definition path_fits (p : ValidatedPath) : Prop :=
  usize_fits (anchor_index p) ∧ usize_fits (path_depth p) ∧
  ∀ nodes n, valid_policy_tree p = Some nodes → n ∈ nodes → usize_fits (ptn_depth n).

Lemma path_undone p v :
  path_fits p → path_serialize p = Ok v → writable v → path_deserialize v = Ok p.
Proof.
  intros (Ha & Hd & Ht) Hs Hw. unfold path_serialize in Hs. inv_ok. subst v.
  unfold usize_fits in Ha, Hd.
  assert (Htree : (r3 ≠ VNone → writable r3) →
    de_option (de_vec node_deserialize) r3 = Ok (valid_policy_tree p)).
  { intros Hw3. destruct (valid_policy_tree p) as [nodes|]; [|injection Hr3 as <-; apply (none_law Hlib)].
    apply fmap_Ok in Hr3 as (l & Hl & <-). specialize (Hw3 ltac:(done)).
    pose proof (writable_some Hlib _ Hw3) as Hseq. apply (some_law Hlib); [done..|].
    apply (vec_law Hlib); [done|]. eapply ser_list_undone; [|exact Hl].
    intros n w Hn Hwn Hsn. apply node_undone; [by eapply Ht|done|].
    by eapply (writable_element Hlib). }
  unfold path_deserialize. reread Hlib Hw.
  erewrite (optional_field_law Hlib _ "valid_policy_tree"%string r3 Hw); [|names|find_pair].
  cbn [mbind result_bind]. rewrite Htree.
  - cbn. rewrite !Nat2N.id. by destruct p.
  - intros Hne. eapply (writable_field Hlib); [exact Hw|find_pair|exact Hne].
Qed.

(** The derived equality of errors: that of [DerError] compares messages. *)
Definition error_eq (e e' : Error) : Prop :=
  match e, e' with
  | Der d, Der d' => der_error_eq d d' = true
  | _, _ => e = e'
  end.
Definition error_fits (e : Error) : Prop :=
  match e with
  | SignatureInvalid i | MalformedCertificate i | ValidityPeriod i | ChainBroken i | NotCA i
  | KeyUsageMissing i | CrlSignMissing i | UnhandledCriticalExtension i
  | NameConstraintViolation i | PolicyViolation i | ValidityPeriodExceedsMax i
  | AlgorithmNotAllowed i | KeyTooSmall i => usize_fits i
  | DuplicateCertificate i j => usize_fits i ∧ usize_fits j
  | _ => True
  end.

Lemma index_undone k i :
  usize_fits i → writable (VStruct [("index"%string, VInt (N.of_nat i))]) →
  de_index k (VStruct [("index"%string, VInt (N.of_nat i))]) = Ok (k i).
Proof.
  unfold usize_fits. intros Hi Hw. unfold de_index. reread Hlib Hw. by rewrite Nat2N.id.
Qed.

Lemma error_undone e v :
  error_fits e → error_serialize e = Ok v → writable v →
  ∃ e', error_deserialize v = Ok e' ∧ error_eq e e'.
Proof.
  destruct e; cbn [error_fits error_serialize]; intros Hi Hs Hw; cbv [mret result_ret] in Hs;
    try (injection Hs as <-; unfold error_deserialize, index_variant in *;
         rewrite ?(unit_law Hlib), ?(variant_law Hlib) by done; eexists; split;
         [first [reflexivity|exact (index_undone _ _ Hi (writable_variant Hlib _ _ Hw))]|done]).
  - apply fmap_Ok in Hs as (w & Hd & <-).
    apply der_error_undone in Hd as (d & Hd & Heq & _); [|by eapply (writable_variant Hlib)].
    exists (Der d). split; [|done]. unfold error_deserialize. rewrite (variant_law Hlib) by done. cbn.
    by rewrite Hd.
  - inv_ok. subst v. exists (MissingLeafPolicyOid required). split; [|done]. unfold error_deserialize.
    rewrite (variant_law Hlib) by done. apply (writable_variant Hlib) in Hw.
    cbn [mbind result_bind]. repeat rewrite decide_False by done. rewrite decide_True by done.
    by reread Hlib Hw.
  - destruct Hi as [Ha Hb]. unfold usize_fits in Ha, Hb. injection Hs as <-.
    exists (DuplicateCertificate first second). split; [|done]. unfold error_deserialize.
    rewrite (variant_law Hlib) by done. apply (writable_variant Hlib) in Hw.
    cbn [mbind result_bind]. repeat rewrite decide_False by done. rewrite decide_True by done.
    reread Hlib Hw. by rewrite !Nat2N.id.
Qed.

(** C35: what a format has written of a trust anchor, a validated path or an
    error is read back as it was, an error of the decoder by its message; in
    every format for people, and in every binary format that hands a byte string
    over as a sequence of octets.  A trust anchor without name constraints is
    read back where the absence of a value is written, and is refused where it
    is left out. *)
Theorem serde_round_trip :
  (∀ a v, trust_anchor_serialize a = Ok v → writable v →
     (anchor_name_constraints a ≠ None ∨ keeps_none → trust_anchor_deserialize v = Ok a) ∧
     (anchor_name_constraints a = None → leaves_out_none →
        ∃ e, trust_anchor_deserialize v = Err e)) ∧
  (∀ p v, path_fits p → path_serialize p = Ok v → writable v → path_deserialize v = Ok p) ∧
  (∀ e v, error_fits e → error_serialize e = Ok v → writable v →
     ∃ e', error_deserialize v = Ok e' ∧ error_eq e e').
Proof.
  split; [|split; [exact path_undone|exact error_undone]].
  intros a v Hs Hw. split; intros; [by eapply trust_anchor_undone|by eapply trust_anchor_lost].
Qed.
End derived.

(** ** A format, and encodings of one value each *)
Definition single_codec {T} `{EqDecision T} (t : T) : DerCodec T := {|
  codec_to_der t' := if decide (t' = t) then inr [7]%N else inl "other"%string;
  codec_from_der b := if decide (b = [7]%N) then inr t else inl "other"%string |}.
Lemma single_codec_lawful {T} `{EqDecision T} (t : T) : lawful (single_codec t).
Proof.
  split; intros t' b; cbn; destruct (decide _) as [->|]; try done; intros [= <-].
  - done.
  - repeat constructor. lia.
Qed.

#[local] Instance plain_base64 : Base64 := {| encode_string := id; decode_vec := Some |}.
#[local] Instance single_codecs : FieldCodecs := {|
  name_codec := single_codec []; serial_codec := single_codec [1]%N;
  spki_codec := single_codec {| spki_algorithm := {| alg_oid := [1]%N; alg_parameters := None |};
                                subject_public_key := {| unused_bits := 0; raw_bytes := [] |} |};
  oid_codec := single_codec [1; 2]%N;
  constraints_codec := single_codec {| permitted_subtrees := None; excluded_subtrees := None |};
  qualifier_codec := single_codec {| policy_qualifier_id := [1]%N; qualifier := None |} |}.

(** The readers of formats: one for people or one that keeps byte strings apart
    from sequences; and, like TOML, one that leaves out [None] and has the
    integers of [i64], or not.  [Some(v)] is what [v] is, and [None] is [null]. *)
Fixpoint read_list {A} (de : SerVal → result SerdeError A) (l : list SerVal) :
    result SerdeError (list A) :=
  match l with [] => Ok [] | v :: l => a ← de v; (a ::.) <$> read_list de l end.
Definition read_int (max : N) (v : SerVal) : result SerdeError N :=
  match v with
  | VInt n => if decide (n ≤ max)%N then Ok n else Err (Refused [])
  | _ => Err (Refused [])
  end.
Definition read_vec {A} (de : SerVal → result SerdeError A) (v : SerVal) :
    result SerdeError (list A) :=
  match v with VSeq l => read_list de l | _ => Err (Refused []) end.
Definition read_field (name : string) (v : SerVal) : result SerdeError SerVal :=
  match v with
  | VStruct fields =>
      match list_find (λ p, p.1 = name) fields with
      | Some (_, p) => Ok p.2
      | None => Err (Refused (str name))
      end
  | _ => Err (Refused [])
  end.
Definition toml_int_max : N := 9223372036854775807.
(** The trees without an integer that is too large, and with [None] only as the
    value of a field. *)
Fixpoint toml_writable (v : SerVal) : bool :=
  match v with
  | VInt n => bool_decide (n ≤ toml_int_max)%N
  | VBytes _ | VNone => false
  | VSome v | VVariant _ v => toml_writable v
  | VSeq l => forallb toml_writable l
  | VStruct fields =>
      forallb (λ p, match p.2 with VNone => true | _ => toml_writable p.2 end) fields
  | _ => true
  end.
(** The value without [Some]. *)
Fixpoint bare (v : SerVal) : SerVal := match v with VSome v => bare v | _ => v end.
Definition format (for_people leaves_out : bool) : SerdeLib := {|
  is_human_readable := for_people;
  writable v := leaves_out = true → toml_writable v = true;
  de_int := read_int;
  de_bool v := match v with VBool b => Ok b | _ => Err (Refused []) end;
  de_string v := match v with VStr s => Ok s | _ => Err (Refused []) end;
  de_byte_vec := read_vec (read_int 255);
  de_option A de v := match bare v with VNone => Ok None | w => Some <$> de w end;
  de_vec A := read_vec;
  de_field n v :=
    w ← read_field n v;
    match w with VNone => if leaves_out then Err (Refused (str n)) else Ok w | _ => Ok w end;
  de_optional_field := read_field;
  de_variant v :=
    match v with
    | VUnitVariant n => Ok (n, None) | VVariant n v => Ok (n, Some v) | _ => Err (Refused [])
    end |}.

Lemma read_list_Forall2 {A} (de : SerVal → result SerdeError A) vs l :
  Forall2 (λ v a, de v = Ok a) vs l → read_list de vs = Ok l.
Proof. induction 1 as [|v a vs l Hv _ IH]; [done|]. cbn. rewrite Hv. cbn. by rewrite IH. Qed.

Lemma read_field_found fields n v :
  NoDup fields.*1 → (n, v) ∈ fields → read_field n (VStruct fields) = Ok v.
Proof.
  intros Hnd Hin. unfold read_field. destruct (list_find _ fields) as [[i p]|] eqn:Hf.
  - apply list_find_Some in Hf as (Hp & Hn & _). apply list_elem_of_lookup in Hin as [j Hj].
    assert (i = j) as ->.
    { eapply NoDup_lookup; [exact Hnd|..]; rewrite list_lookup_fmap.
      - by rewrite Hp.
      - rewrite Hj. cbn. congruence. }
    rewrite Hp in Hj. by injection Hj as ->.
  - apply list_find_None in Hf. rewrite Forall_forall in Hf. by destruct (Hf _ Hin).
Qed.

Lemma format_laws p q : @serde_laws (format p q).
Proof.
  split; cbn -[read_field]; try done.
  - intros fields n v Hw Hin Hv Hq. specialize (Hw Hq). rewrite forallb_forall in Hw.
    specialize (Hw (n, v) ltac:(by apply list_elem_of_In)). cbn in Hw. by destruct v.
  - intros l v Hw Hin Hq. specialize (Hw Hq). rewrite forallb_forall in Hw.
    by apply Hw, list_elem_of_In.
  - intros max n _ Hn. unfold read_int. by rewrite decide_True.
  - intros b _. induction 1 as [|x b Hx Hb IH]; [done|]. cbn. rewrite decide_True by done. cbn.
    change (read_list (read_int 255) (VInt <$> b) = Ok b) in IH. by rewrite IH.
  - intros A de v a _ Hp Hv. destruct v; try done; cbn; by rewrite Hv.
  - intros A de vs l _. apply read_list_Forall2.
  - intros fields n v _ Hnd Hin Hv.
    rewrite (read_field_found fields n v) by done. by destruct v.
  - intros fields n v _. apply read_field_found.
Qed.

(** JSON writes [null], TOML nothing. *)
Lemma json_keeps_none p : @keeps_none (format p false).
Proof.
  intros fields n _ Hnd Hin. unfold de_field, format. by rewrite (read_field_found fields n VNone).
Qed.
Lemma toml_leaves_out_none p : @leaves_out_none (format p true).
Proof.
  intros fields n _ Hnd Hin. unfold de_field, format. rewrite (read_field_found fields n VNone) by done.
  cbn. by eexists.
Qed.

Definition written_path : ValidatedPath := {|
  anchor_index := 1; path_depth := 2; leaf_subject := []; leaf_issuer := [];
  leaf_serial := [1]%N;
  leaf_spki := {| spki_algorithm := {| alg_oid := [1]%N; alg_parameters := None |};
                  subject_public_key := {| unused_bits := 0; raw_bytes := [] |} |};
  valid_policy_tree := Some [{| ptn_depth := 1; ptn_valid_policy := [1; 2]%N;
    ptn_expected_policy_set := [[1; 2]%N]; ptn_qualifiers := [] |}] |}.

Definition written_anchor (nc : option NameConstraints) : TrustAnchor := {|
  anchor_subject := []; anchor_spki := leaf_spki written_path; anchor_name_constraints := nc |}.

(** In JSON and in TOML a path is read back; an anchor without name constraints
    is read back from JSON, and is refused by TOML. *)
Lemma serde_round_trip_witness :
  (∀ q, ∃ v, path_serialize (H:=format true q) written_path = Ok v ∧
    path_deserialize (H:=format true q) v = Ok written_path) ∧
  (∃ v, trust_anchor_serialize (H:=format true false) (written_anchor None) = Ok v ∧
    trust_anchor_deserialize (H:=format true false) v = Ok (written_anchor None)) ∧
  (∃ v e, trust_anchor_serialize (H:=format true true) (written_anchor None) = Ok v ∧
    trust_anchor_deserialize (H:=format true true) v = Err e).
Proof.
  pose proof (λ q, @serde_round_trip (format true q) plain_base64 single_codecs (format_laws true q)
    (or_introl eq_refl) (λ b, eq_refl) (single_codec_lawful _) (single_codec_lawful _)
    (single_codec_lawful _) (single_codec_lawful _) (single_codec_lawful _)
    (single_codec_lawful _)) as Hr.
  split; [|split].
  - intros q. destruct (Hr q) as (_ & Hp & _). eexists. split; [vm_compute; reflexivity|].
    refine (Hp written_path _ _ _ _); [|vm_compute; reflexivity|by intros _].
    split; [vm_compute; discriminate|]. split; [vm_compute; discriminate|].
    intros nodes n [= <-] ->%list_elem_of_singleton. vm_compute. discriminate.
  - destruct (Hr false) as (Ha & _ & _). eexists. split; [vm_compute; reflexivity|].
    refine (proj1 (Ha (written_anchor None) _ _ _) (or_intror (json_keeps_none true)));
      [vm_compute; reflexivity|by intros].
  - destruct (Hr true) as (Ha & _ & _).
    destruct (proj2 (Ha (written_anchor None) _ eq_refl (λ _, eq_refl)) eq_refl
      (toml_leaves_out_none true)) as [e He].
    eexists _, e. split; [|exact He]. vm_compute. reflexivity.
Defined.

(** A format that keeps byte strings apart from sequences reads back an
    optional value but not the same value on its own. *)
Example byte_strings_not_read :
  (option_serialize (H:=format false false) oid_codec (Some [1; 2]%N) ≫=
     option_deserialize (H:=format false false) oid_codec) = Ok (Some [1; 2]%N) ∧
  (serialize (H:=format false false) oid_codec [1; 2]%N ≫=
     deserialize (H:=format false false) oid_codec) = Err (Refused []).
Proof. split; reflexivity. Qed.
