(* ===== verification/RustStr.v ===== *)
(** * Strings of the standard library

    UTF-8 as [str::from_utf8] and [String::from_utf8_lossy] check it, lines,
    trimming and characters.  A [str] is the list of its octets.  Nothing of
    this file is code of the repository. *)
From S2P Require Import Prelude LintTypes.

(** ** UTF-8 *)

(** The next character: its octets, or the octets of a maximal invalid part, or
    a character cut off by the end. *)
Inductive Utf8Next := Char (n : nat) | Bad (n : nat) | Cut.

Definition between (a b x : N) : bool := bool_decide (a ≤ x ≤ b)%N.
Definition is_cont : N → bool := between 128 191.

(** The octets of the second position after a first octet of three or four. *)
Definition second_ok (first x : N) : bool :=
  if decide (first = 224)%N then between 160 191 x
  else if decide (first = 237)%N then between 128 159 x
  else if decide (first = 240)%N then between 144 191 x
  else if decide (first = 244)%N then between 128 143 x
  else is_cont x.

Definition utf8_width (first : N) : nat :=
  if between 0 127 first then 1 else if between 194 223 first then 2
  else if between 224 239 first then 3 else if between 240 244 first then 4 else 0.

Definition utf8_next (first : N) (r : bytes) : Utf8Next :=
  match utf8_width first with
  | 1 => Char 1
  | 2 => match r with [] => Cut | x :: _ => if is_cont x then Char 2 else Bad 1 end
  | 3 =>
      match r with
      | [] => Cut
      | x :: r => if second_ok first x
          then match r with [] => Cut | y :: _ => if is_cont y then Char 3 else Bad 2 end
          else Bad 1
      end
  | 4 =>
      match r with
      | [] => Cut
      | x :: r => if second_ok first x
          then match r with
               | [] => Cut
               | y :: r => if is_cont y
                   then match r with [] => Cut | z :: _ => if is_cont z then Char 4 else Bad 3 end
                   else Bad 2
               end
          else Bad 1
      end
  | _ => Bad 1
  end.

(** [str::from_utf8]: the index up to which the octets are valid and the length
    of the invalid part, none when it is cut off by the end. *)
Record Utf8Error := { valid_up_to : nat; error_len : option nat }.
Fixpoint check_utf8 (fuel i : nat) (b : bytes) : option Utf8Error :=
  match fuel, b with
  | S fuel, first :: r =>
      match utf8_next first r with
      | Char n => check_utf8 fuel (i + n) (drop (n - 1) r)
      | Bad n => Some {| valid_up_to := i; error_len := Some n |}
      | Cut => Some {| valid_up_to := i; error_len := None |}
      end
  | _, _ => None
  end.
Definition from_utf8 (b : bytes) : Utf8Error + bytes :=
  match check_utf8 (length b) 0 b with Some e => inl e | None => inr b end.

(** [impl Display for Utf8Error] *)
Definition utf8_error_display (e : Utf8Error) : bytes :=
  match error_len e with
  | Some n => str "invalid utf-8 sequence of " ++ fmt_u64 (N.of_nat n) ++
      str " bytes from index " ++ fmt_u64 (N.of_nat (valid_up_to e))
  | None => str "incomplete utf-8 byte sequence from index " ++ fmt_u64 (N.of_nat (valid_up_to e))
  end.

(** [String::from_utf8_lossy]: every invalid part becomes U+FFFD. *)
Definition REPLACEMENT : bytes := [239; 191; 189]%N.
Fixpoint lossy (fuel : nat) (b : bytes) : bytes :=
  match fuel, b with
  | S fuel, first :: r =>
      match utf8_next first r with
      | Char n => take n b ++ lossy fuel (drop n b)
      | Bad n => REPLACEMENT ++ lossy fuel (drop n b)
      | Cut => REPLACEMENT
      end
  | _, _ => []
  end.
Definition from_utf8_lossy (b : bytes) : bytes := lossy (length b) b.

(** [s.chars().take(n).collect()] *)
Fixpoint take_chars (n : nat) (s : bytes) : bytes :=
  match s with
  | [] => []
  | b :: r => if is_cont b then b :: take_chars n r
      else match n with 0 => [] | S n => b :: take_chars n r end
  end.

(** [s.contains(pat)] for a string *)
Definition contains_pat (pat s : bytes) : bool :=
  match find_str pat s with Some _ => true | None => false end.

(** [s.strip_prefix(pat)] *)
Definition strip_prefix (pat s : bytes) : option bytes :=
  if decide (pat `prefix_of` s) then Some (drop (length pat) s) else None.

(** ** Lines and blanks *)

(** [s.lines()]: the parts that end with a line feed, and the rest when there
    is some; a carriage return before the line feed goes with it. *)
Definition strip_cr (line : bytes) : bytes :=
  match last line with
  | Some c => if decide (c = 13)%N then removelast line else line
  | None => line
  end.
Fixpoint lines_from (acc s : bytes) : list bytes :=
  match s with
  | [] => match acc with [] => [] | _ => [reverse acc] end
  | c :: s => if decide (c = 10)%N then strip_cr (reverse acc) :: lines_from [] s
              else lines_from (c :: acc) s
  end.
Definition lines (s : bytes) : list bytes := lines_from [] s.

(** The encodings of the characters with the property [White_Space]. *)
Definition WHITE_SPACE : list bytes :=
  [[9]; [10]; [11]; [12]; [13]; [32]; [194; 133]; [194; 160]; [225; 154; 128];
   [226; 128; 128]; [226; 128; 129]; [226; 128; 130]; [226; 128; 131]; [226; 128; 132];
   [226; 128; 133]; [226; 128; 134]; [226; 128; 135]; [226; 128; 136]; [226; 128; 137];
   [226; 128; 138]; [226; 128; 168]; [226; 128; 169]; [226; 128; 175]; [226; 129; 159];
   [227; 128; 128]]%N.

(** [s.trim()]: white space off the start and off the end. *)
Fixpoint trim_with (spaces : list bytes) (fuel : nat) (s : bytes) : bytes :=
  match fuel with
  | 0 => s
  | S fuel =>
      match list_find (λ w, w `prefix_of` s) spaces with
      | Some (_, w) => trim_with spaces fuel (drop (length w) s)
      | None => s
      end
  end.
Definition trim_start (s : bytes) : bytes := trim_with WHITE_SPACE (length s) s.
Definition trim_end (s : bytes) : bytes :=
  reverse (trim_with (reverse <$> WHITE_SPACE) (length s) (reverse s)).
Definition trim (s : bytes) : bytes := trim_end (trim_start s).

Example lines_example :
  trim <$> lines (str "  a b " ++ [13; 10; 10]%N ++ str "c") = [str "a b"; []; str "c"].
Proof. vm_compute. reflexivity. Qed.
Example utf8_example :
  from_utf8 (str "ab" ++ [226; 130; 172]%N) = inr (str "ab" ++ [226; 130; 172]%N) ∧
  from_utf8 (str "ab" ++ [226; 130]%N) = inl {| valid_up_to := 2; error_len := None |} ∧
  from_utf8_lossy ([192; 128; 226; 130]%N ++ str "x") =
    REPLACEMENT ++ REPLACEMENT ++ REPLACEMENT ++ str "x".
Proof. vm_compute. repeat split; reflexivity. Qed.
