(* ===== verification/ZlintBridge.v ===== *)
(** * The bridge to zlint (pkix-zlint-bridge/src/lib.rs)

    The subprocess with its deadline, the parsing of its output, the cache of
    verdicts, and the runs on one certificate and on a batch.  The operating
    system is a parameter with a state that the calls pass along; so are
    [serde_json] and the escapes of [Debug]. *)
From stdpp Require Import gmap.
From S2P Require Import Prelude X509 Identity LintTypes Json Aia TrustStore RustStr.

(** ** Verdicts, catalogue entries and errors *)
Inductive Verdict :=
| VNotApplicable | VPass | VNotice | VWarn | VError | VFatal.
#[global] Instance Verdict_eq_dec : EqDecision Verdict.
Proof. solve_decision. Defined.
Abbreviation VerdictMap := (gmap bytes Verdict).

Record ZlintLintInfo := {
  check_id : bytes; zl_description : bytes; zl_citation : bytes; zl_source : bytes;
  zl_severity : Severity }.

(** Paths are octets, a [Duration] is its nanoseconds. *)
Inductive BridgeError :=
| BinaryNotFound (path : bytes)
| BinaryNotExecutable (path : bytes)
| SubprocessFailed (exit_code : option Z) (stderr : bytes)
| SubprocessKilled (signal : option Z)
| SubprocessTimeout (timeout : N)
| OutputParseError (detail : bytes).
Inductive PerCertError :=
| MalformedDer (detail : bytes)
| UnsupportedCertType (detail : bytes)
| OtherCertError (detail : bytes).
Inductive ZlintError := Bridge (e : BridgeError) | Cert (e : PerCertError).

Abbreviation CertResult := (PerCertError + VerdictMap)%type.

(** [{:?}] of a [str], [{:?}] of a [Duration] and [{}] of an [i32]. *)
Class DebugText := {
  str_debug : bytes → bytes; duration_debug : N → bytes; fmt_i32_code : Z → bytes }.

Definition truncate_for_display (s : bytes) : bytes :=
  if decide (length s ≤ 512) then s else take_chars 512 s ++ str "... (truncated)".

Section displays.
Context `{DebugText}.

Definition bridge_error_display (e : BridgeError) : bytes :=
  match e with
  | BinaryNotFound path => str "zlint binary not found at " ++ path
  | BinaryNotExecutable path => str "zlint binary at " ++ path ++ str " is not executable"
  | SubprocessFailed (Some code) stderr =>
      str "zlint subprocess exited with code " ++ fmt_i32_code code ++ str ": " ++
      truncate_for_display stderr
  | SubprocessFailed None stderr =>
      str "zlint subprocess exited abnormally: " ++ truncate_for_display stderr
  | SubprocessKilled (Some sig) => str "zlint subprocess killed by signal " ++ fmt_i32_code sig
  | SubprocessKilled None => str "zlint subprocess killed by unknown signal"
  | SubprocessTimeout timeout => str "zlint subprocess exceeded timeout " ++ duration_debug timeout
  | OutputParseError detail => str "zlint output parse error: " ++ detail
  end.
Definition per_cert_error_display (e : PerCertError) : bytes :=
  match e with
  | MalformedDer detail => str "malformed certificate DER: " ++ detail
  | UnsupportedCertType detail => str "unsupported certificate type: " ++ detail
  | OtherCertError detail => str "per-cert error: " ++ detail
  end.
Definition zlint_error_display (e : ZlintError) : bytes :=
  match e with
  | Bridge e => str "zlint bridge error: " ++ bridge_error_display e
  | Cert e => str "zlint cert error: " ++ per_cert_error_display e
  end.
End displays.

(** ** Parsing *)
Class JsonText := from_str : bytes → bytes + Value.

Definition parse_error {A} (m : bytes) : result bytes A := Err m.

Section parsing.
Context `{DebugText} `{JsonText}.

Definition verdict_from_str (s : bytes) : result bytes Verdict :=
  if decide (s = str "NA" ∨ s = str "NE") then Ok VNotApplicable
  else if decide (s = str "pass") then Ok VPass
  else if decide (s = str "notice") then Ok VNotice
  else if decide (s = str "warn") then Ok VWarn
  else if decide (s = str "error") then Ok VError
  else if decide (s = str "fatal") then Ok VFatal
  else Err (str "unknown zlint verdict " ++ str_debug s ++
    str "; expected NA / NE / pass / notice / warn / error / fatal").

Definition severity_for_check_name (name : bytes) : result bytes Severity :=
  match strip_prefix (str "e_") name with
  | Some rest =>
      if decide (rest = []) then Err (str "empty check id after e_ prefix: " ++ str_debug name)
      else Ok SevError
  | None =>
      match strip_prefix (str "w_") name with
      | Some rest =>
          if decide (rest = []) then Err (str "empty check id after w_ prefix: " ++ str_debug name)
          else Ok SevWarn
      | None =>
          match strip_prefix (str "n_") name with
          | Some rest =>
              if decide (rest = []) then Err (str "empty check id after n_ prefix: " ++ str_debug name)
              else Ok SevNotice
          | None => Err (str "unrecognised zlint catalog severity prefix in " ++ str_debug name ++
              str "; expected e_/w_/n_")
          end
      end
  end.

Definition json_required_string (obj : Map) (key : bytes) : result bytes bytes :=
  v ← ok_or (get key obj) (str "missing required field " ++ str_debug key);
  ok_or (as_str v) (str "field " ++ str_debug key ++ str " is not a string").
Definition json_optional_string (obj : Map) (key : bytes) : result bytes bytes :=
  match get key obj with
  | None => Ok []
  | Some Null => Ok []
  | Some v => ok_or (as_str v) (str "field " ++ str_debug key ++ str " is not a string")
  end.

(** [serde_json::from_str(..).map_err(..)] and [as_object().ok_or_else(..)] *)
Definition json_object (text : bytes) : result bytes Map :=
  value ← match from_str text with
          | inl e => Err (str "malformed JSON: " ++ e)
          | inr v => Ok v
          end;
  ok_or (as_object value) (str "expected JSON object at top level").

Definition parse_list_lints_line (line : bytes) : result bytes ZlintLintInfo :=
  obj ← json_object line;
  name ← json_required_string obj (str "name");
  description ← json_optional_string obj (str "description");
  citation ← json_optional_string obj (str "citation");
  source ← json_optional_string obj (str "source");
  severity ← severity_for_check_name name;
  mret {| check_id := name; zl_description := description; zl_citation := citation;
          zl_source := source; zl_severity := severity |}.

(** The loop over the lines that are not blank, from a line number. *)
Fixpoint parse_lines {A} (parse : bytes → result bytes A) (lineno : nat) (ls : list bytes) :
    result bytes (list A) :=
  match ls with
  | [] => Ok []
  | line :: ls =>
      let line := trim line in
      if decide (line = []) then parse_lines parse (S lineno) ls
      else
        a ← map_err (λ d, str "line " ++ fmt_u64 (N.of_nat (S lineno)) ++ str ": " ++ d) (parse line);
        (a ::.) <$> parse_lines parse (S lineno) ls
  end.

Definition parse_list_lints_ndjson (stdout : bytes) : result BridgeError (list ZlintLintInfo) :=
  match from_utf8 stdout with
  | inl e => Err (OutputParseError (str "zlint stdout is not valid UTF-8: " ++ utf8_error_display e))
  | inr text =>
      out ← map_err OutputParseError (parse_lines parse_list_lints_line 0 (lines text));
      if decide (out = [])
      then Err (OutputParseError (str "zlint -list-lints-json produced no entries"))
      else Ok out
  end.

(** The loop over the entries of the object. *)
Fixpoint parse_entries (out : VerdictMap) (obj : Map) : result bytes VerdictMap :=
  match obj with
  | [] => Ok out
  | (name, entry) :: obj =>
      result_str ← ok_or (o ← as_object entry; v ← get (str "result") o; as_str v)
        (str "entry " ++ str_debug name ++ str " missing 'result' string");
      verdict ← map_err (λ e, str "entry " ++ str_debug name ++ str ": " ++ e)
        (verdict_from_str result_str);
      parse_entries (<[name := verdict]> out) obj
  end.
Definition parse_per_cert_json_value (text : bytes) : result bytes VerdictMap :=
  obj ← json_object text; parse_entries ∅ obj.

Definition parse_per_cert_output (stdout : bytes) : result bytes VerdictMap :=
  match from_utf8 stdout with
  | inl e => Err (str "stdout not valid UTF-8: " ++ utf8_error_display e)
  | inr text => parse_per_cert_json_value (trim text)
  end.
Definition parse_per_cert_ndjson (stdout : bytes) : result bytes (list VerdictMap) :=
  match from_utf8 stdout with
  | inl e => Err (str "stdout not valid UTF-8: " ++ utf8_error_display e)
  | inr text => parse_lines parse_per_cert_json_value 0 (lines text)
  end.
End parsing.

(** ** The subprocess *)

(** [std::process::ExitStatus] and [Output] *)
Record ExitStatus := { exit_code_of : option Z; signal_of : option Z }.
Definition success (s : ExitStatus) : bool := bool_decide (exit_code_of s = Some 0%Z).
Record Output := { status : ExitStatus; stdout : bytes; stderr : bytes }.

Definition spawn_error (path : bytes) (err : io_error) : BridgeError :=
  match io_kind err with
  | ErrorKind.NotFound => BinaryNotFound path
  | ErrorKind.PermissionDenied => BinaryNotExecutable path
  | _ => SubprocessFailed None (io_display err)
  end.

(** A reader thread: it panics, or gives the result of [drain_pipe]. *)
Inductive Drained := ThreadPanicked | Drained_ (r : io_error + bytes).

(** A child as the parent sees it: the answers of [try_wait] and the clock at
    each turn, the pipes, and what the reader threads collect. *)
Record Child := {
  try_wait : nat → io_error + option ExitStatus;
  clock : nat → N;
  stdout_pipe : option Drained;
  stderr_pipe : option Drained }.

(** [std::process::id], [std::env::temp_dir], [PathBuf::push], and the largest
    [Instant] of the platform, in nanoseconds. *)
Class Host := {
  process_id : N; temp_dir : bytes; push : bytes → bytes → bytes; instant_max : N }.

(** [Instant + Duration], which panics beyond the largest instant. *)
Definition instant_add `{Host} {E : Type} (now d : N) : result E N :=
  if decide (now + d ≤ instant_max)%N then Ok (now + d)%N else Panic.

(** The loop of [wait_for_child] with the number of the turn; the second
    component tells whether the child was killed and reaped. *)
Fixpoint wait_loop (fuel : nat) (child : Child) (timeout deadline : N) (turn : nat) :
    option (result BridgeError ExitStatus * bool) :=
  match fuel with
  | 0 => None
  | S fuel =>
      match try_wait child turn with
      | inr (Some status) => Some (Ok status, false)
      | inr None =>
          if decide (deadline ≤ clock child turn)%N then Some (Err (SubprocessTimeout timeout), true)
          else wait_loop fuel child timeout deadline (S turn)
      | inl e => Some (Err (SubprocessFailed None (io_display e)), false)
      end
  end.

(** The turns of ten milliseconds up to the deadline, and one more. *)
Definition wait_turns (timeout : N) : nat := S (S (N.to_nat (timeout / 10000000))).
Definition wait_for_child `{Host} (child : Child) (start timeout : N) :
    option (result BridgeError ExitStatus * bool) :=
  match instant_add start timeout with
  | Ok deadline => wait_loop (wait_turns timeout) child timeout deadline 0
  | Err e => Some (Err e, false)
  | Panic => Some (Panic, false)
  end.

Definition drained (code : option Z) (what : bytes) (d : Drained) : result BridgeError bytes :=
  match d with
  | ThreadPanicked => Err (SubprocessFailed code (what ++ str " reader thread panicked"))
  | Drained_ (inl e) => Err (SubprocessFailed code (what ++ str " drain io error: " ++ io_display e))
  | Drained_ (inr b) => Ok b
  end.

(** [run_subprocess] on what [spawn] gives, with the instant before the wait.
    When the wait fails the reader threads are not joined; when it panics the
    child is left alone. *)
Definition run_subprocess `{Host} (spawned : io_error + N * Child) (path : bytes) (timeout : N) :
    option (result BridgeError Output) :=
  match spawned with
  | inl e => Some (Err (spawn_error path e))
  | inr (start, child) =>
      match stdout_pipe child, stderr_pipe child with
      | None, _ => Some (Err (SubprocessFailed None (str "child stdout pipe missing")))
      | _, None => Some (Err (SubprocessFailed None (str "child stderr pipe missing")))
      | Some out, Some err =>
          match wait_for_child child start timeout with
          | None => None
          | Some (waited, _) => Some (
              status ← waited;
              stdout ← drained (exit_code_of status) (str "stdout") out;
              stderr ← drained (exit_code_of status) (str "stderr") err;
              mret {| status := status; stdout := stdout; stderr := stderr |})
          end
      end
  end.

(** On Unix a signal comes first. *)
Definition classify_exit (status : ExitStatus) (stderr : bytes) : BridgeError :=
  match signal_of status with
  | Some sig => SubprocessKilled (Some sig)
  | None => SubprocessFailed (exit_code_of status) (from_utf8_lossy stderr)
  end.

Definition looks_malformed (stderr : bytes) : bool :=
  contains_pat (str "unable to parse input") stderr ||
  contains_pat (str "parsing as certificate") stderr || contains_pat (str "malformed") stderr.
Definition classify_zlint_cert_error (stderr_bytes : bytes) : PerCertError :=
  let stderr := from_utf8_lossy stderr_bytes in
  if looks_malformed stderr then MalformedDer stderr else OtherCertError stderr.

Definition hex_digit (n : N) : N := if decide (n < 10)%N then (48 + n)%N else (87 + n)%N.
Definition hex_encode (b : bytes) : bytes :=
  b ≫= λ x, [hex_digit (x / 16)%N; hex_digit (x mod 16)%N].

(** ** The bridge *)
Record BridgeConfig := { zlint_path : bytes; zlint_timeout : N }.
Definition bridge_config_default : BridgeConfig :=
  {| zlint_path := str "zlint"; zlint_timeout := 60000000000 |}.

(** The operating system: a child for a program and its arguments, with the
    instant it was started; the files; the clock. *)
Class Os (W : Type) := {
  spawn : bytes → list bytes → W → (io_error + N * Child) * W;
  system_nanos : W → N;
  create_dir : bytes → W → option io_error * W;
  write_file : bytes → bytes → W → option io_error * W;
  remove_dir_all : bytes → W → W }.
#[global] Hint Mode Os ! : typeclass_instances.

(** What a call can change: the cache behind its mutex, the counter of scratch
    directories of the process, and the system. *)
Record BridgeState (W : Type) := {
  zcache : gmap bytes VerdictMap; cache_poisoned : bool; temp_dir_counter : N; world : W }.
Arguments zcache {W}. Arguments cache_poisoned {W}. Arguments temp_dir_counter {W}.
Arguments world {W}.

Definition bridge (W E A : Type) : Type := BridgeState W → result E A * BridgeState W.
#[global] Instance bridge_ret {W E} : MRet (bridge W E) := λ A a s, (Ok a, s).
#[global] Instance bridge_bind {W E} : MBind (bridge W E) := λ A B k m s,
  match m s with
  | (Ok a, s') => k a s'
  | (Err e, s') => (Err e, s')
  | (Panic, s') => (Panic, s')
  end.
Definition lift_result {W E A : Type} (r : result E A) : bridge W E A := λ s, (r, s).
Definition bridge_map_err {W E F A : Type} (f : E → F) (m : bridge W E A) : bridge W F A :=
  λ s, let (r, s') := m s in (map_err f r, s').

(** The slots of a batch that are filled. *)
Abbreviation Slots := (list (option CertResult)).

Section bridge.
Context {W : Type} `{Os W} `{Host} `{Sha256} `{DebugText} `{JsonText}.
Implicit Types (config : BridgeConfig).

(** A call of the system. *)
Definition os_call {E A : Type} (f : W → A * W) : bridge W E A := λ s,
  let (a, w) := f (world s) in
  (Ok a, {| zcache := zcache s; cache_poisoned := cache_poisoned s;
            temp_dir_counter := temp_dir_counter s; world := w |}).

(** [TEMP_DIR_COUNTER.fetch_add(1)], which wraps around. *)
Definition next_temp_dir {E : Type} : bridge W E N := λ s,
  (Ok (temp_dir_counter s),
   {| zcache := zcache s; cache_poisoned := cache_poisoned s;
      temp_dir_counter := ((temp_dir_counter s + 1) mod (u64_max + 1))%N; world := world s |}).

Definition io_failed {A} (what path : bytes) (e : io_error) : bridge W BridgeError A :=
  lift_result (Err (SubprocessFailed None
    (what ++ str " failed at " ++ path ++ str ": " ++ io_display e))).

(** [TempDir::new] *)
Definition temp_dir_new : bridge W BridgeError bytes :=
  counter ← next_temp_dir;
  now ← os_call (λ w, (system_nanos w, w));
  let path := push temp_dir (str "pkix-zlint-bridge-" ++ fmt_u64 process_id ++ str "-" ++
    fmt_u64 counter ++ str "-" ++ fmt_digits 39 10 now []) in
  created ← os_call (create_dir path);
  match created with
  | Some e => io_failed (str "temp dir create") path e
  | None => mret path
  end.

(** [TempDir::write_der] *)
Definition write_der (dir der key : bytes) : bridge W BridgeError bytes :=
  let path := push dir (hex_encode key ++ str ".der") in
  written ← os_call (write_file path der);
  match written with
  | Some e => io_failed (str "temp file write") path e
  | None => mret path
  end.

(** [TempDir::drop], when the computation ends *)
Definition removing {E A : Type} (dir : bytes) (m : bridge W E A) : bridge W E A := λ s,
  let (r, s') := m s in
  (r, {| zcache := zcache s'; cache_poisoned := cache_poisoned s';
         temp_dir_counter := temp_dir_counter s'; world := remove_dir_all dir (world s') |}).

(** The rest of a function after [TempDir::new()?]. *)
Definition with_temp_dir {E A : Type} (f : BridgeError → E) (k : bytes → bridge W E A) : bridge W E A :=
  dir ← bridge_map_err f temp_dir_new;
  removing dir (k dir).

(** [run_subprocess] of a command; without the property of the clock that makes
    the wait end there is no result. *)
Definition run_command config (args : list bytes) : bridge W BridgeError Output :=
  spawned ← os_call (spawn (zlint_path config) args);
  match run_subprocess spawned (zlint_path config) (zlint_timeout config) with
  | Some r => lift_result r
  | None => lift_result Panic
  end.

(** [ZlintBridge::new] *)
Definition zlint_bridge_new (w : W) (counter : N) : BridgeState W :=
  {| zcache := ∅; cache_poisoned := false; temp_dir_counter := counter; world := w |}.

(** [ZlintBridge::cache_get] and [cache_put] *)
Definition cache_get {E : Type} (key : bytes) : bridge W E (option VerdictMap) := λ s,
  (Ok (if cache_poisoned s then None else zcache s !! key), s).
Definition cache_put {E : Type} (key : bytes) (value : VerdictMap) : bridge W E unit := λ s,
  (Ok tt, if cache_poisoned s then s else
    {| zcache := <[key := value]> (zcache s); cache_poisoned := cache_poisoned s;
       temp_dir_counter := temp_dir_counter s; world := world s |}).

Definition enumerate_lints config : bridge W BridgeError (list ZlintLintInfo) :=
  output ← run_command config [str "-list-lints-json"];
  lift_result (
    if negb (success (status output)) then Err (classify_exit (status output) (stderr output))
    else parse_list_lints_ndjson (stdout output)).

Definition run_on_cert config (cert_der : bytes) : bridge W ZlintError VerdictMap :=
  let key := sha256_digest cert_der in
  hit ← cache_get key;
  match hit with
  | Some hit => mret hit
  | None =>
      with_temp_dir Bridge (λ scratch,
        path ← bridge_map_err Bridge (write_der scratch cert_der key);
        output ← bridge_map_err Bridge (run_command config [str "-format"; str "der"; path]);
        if negb (success (status output))
        then lift_result (Err (Cert (classify_zlint_cert_error (stderr output))))
        else
          verdicts ← lift_result (map_err (λ detail, Bridge (OutputParseError detail))
            (parse_per_cert_output (stdout output)));
          _ ← cache_put key verdicts;
          mret verdicts)
  end.

(** ** Batches *)

(** [results[slot] = v], which panics out of range. *)
Definition set_slot {E : Type} (results : Slots) (slot : nat) (v : CertResult) : result E Slots :=
  if decide (slot < length results) then Ok (<[slot := Some v]> results) else Panic.

(** [for (slot, line) in pending.iter().zip(lines)] *)
Fixpoint fill_slots (keys : list bytes) (results : Slots) (filled : list (nat * VerdictMap)) :
    bridge W BridgeError Slots :=
  match filled with
  | [] => mret results
  | (slot, line) :: filled =>
      key ← lift_result (index keys slot);
      _ ← cache_put key line;
      results ← lift_result (set_slot results slot (inr line));
      fill_slots keys results filled
  end.

Fixpoint write_pending (scratch : bytes) (certs_der keys : list bytes) (pending : list nat) :
    bridge W BridgeError (list bytes) :=
  match pending with
  | [] => mret []
  | idx :: pending =>
      der ← lift_result (index certs_der idx);
      key ← lift_result (index keys idx);
      path ← write_der scratch der key;
      paths ← write_pending scratch certs_der keys pending;
      mret (path :: paths)
  end.

(** What a turn makes of the output: the pending indices that are left, and the
    slots. *)
Definition settle_batch (keys : list bytes) (pending : list nat) (results : Slots) (output : Output) :
    bridge W BridgeError (list nat * Slots) :=
  ls ← lift_result (map_err OutputParseError (parse_per_cert_ndjson (stdout output)));
  let count := fmt_u64 (N.of_nat (length ls)) in
  let inputs := fmt_u64 (N.of_nat (length pending)) in
  if success (status output) then
    if decide (length ls ≠ length pending) then
      lift_result (Err (OutputParseError (str "zlint succeeded but emitted " ++ count ++
        str " lines for " ++ inputs ++ str " inputs")))
    else
      results ← fill_slots keys results (zip pending ls);
      mret ([], results)
  else
    let stderr_str := from_utf8_lossy (stderr output) in
    if negb (looks_malformed stderr_str) then
      lift_result (Err (classify_exit (status output) (stderr output)))
    else
      let num_success := length ls in
      if decide (length pending < num_success) then
        lift_result (Err (OutputParseError (str "zlint failed but emitted " ++ count ++
          str " lines for " ++ inputs ++ str " inputs")))
      else
        results ← fill_slots keys results (zip (take num_success pending) ls);
        if decide (num_success = length pending) then
          lift_result (Err (OutputParseError
            (str "zlint failed but every input produced a line; stderr: " ++
             truncate_for_display stderr_str)))
        else
          failing_slot ← lift_result (index pending num_success);
          results ← lift_result (set_slot results failing_slot (inl (MalformedDer stderr_str)));
          mret (drop (S num_success) pending, results).

(** One turn of the loop *)
Definition run_pending_batch config (certs_der keys : list bytes) (pending : list nat)
    (results : Slots) : bridge W BridgeError (list nat * Slots) :=
  with_temp_dir id (λ scratch,
    paths ← write_pending scratch certs_der keys pending;
    output ← run_command config ([str "-format"; str "der"] ++ paths);
    settle_batch keys pending results output).

(** The lookups of step 1, from an index. *)
Fixpoint lookup_all (i : nat) (certs_der : list bytes) :
    bridge W BridgeError (Slots * list bytes * list nat) :=
  match certs_der with
  | [] => mret ([], [], [])
  | der :: certs_der =>
      let key := sha256_digest der in
      cached ← cache_get key;
      rest ← lookup_all (S i) certs_der;
      let '(results, keys, pending) := rest in
      mret match cached with
           | Some m => (Some (inr m) :: results, key :: keys, pending)
           | None => (None :: results, key :: keys, i :: pending)
           end
  end.

(** The loop of step 2; every turn shortens [pending]. *)
Fixpoint batch_loop config (fuel : nat) (certs_der keys : list bytes) (pending : list nat)
    (results : Slots) : bridge W BridgeError Slots :=
  match fuel, pending with
  | _, [] => mret results
  | 0, _ => lift_result Panic
  | S fuel, _ =>
      turn ← run_pending_batch config certs_der keys pending results;
      batch_loop config fuel certs_der keys turn.1 turn.2
  end.

(** [r.expect("every index filled")] of every slot *)
Fixpoint expect_all {E : Type} (results : Slots) : result E (list CertResult) :=
  match results with
  | [] => Ok []
  | r :: results => r ← expect r; (r ::.) <$> expect_all results
  end.

Definition run_on_certs config (certs_der : list bytes) : bridge W BridgeError (list CertResult) :=
  if decide (certs_der = []) then mret []
  else
    found ← lookup_all 0 certs_der;
    let '(results, keys, pending) := found in
    results ← batch_loop config (length pending) certs_der keys pending results;
    lift_result (expect_all results).
End bridge.
