(* ===== verification/ZlintBridgeSpec.v ===== *)
(** * What the bridge to zlint promises

    The wait for a child ends soon after its deadline.  With a zlint that lints
    the files it is given up to the first malformed one, a batch gives one
    result per certificate, in order, that of the certificate alone. *)
From stdpp Require Import gmap.
From S2P Require Import Prelude X509 LintTypes Json Aia TrustStore RustStr ZlintBridge.

(** ** The wait *)

(** [sleep] takes at least its ten milliseconds and [Instant] never goes back. *)
Definition clock_advances (child : Child) (start : N) : Prop :=
  (start ≤ clock child 0)%N ∧ ∀ t, (clock child t + 10000000 ≤ clock child (S t))%N.

Lemma clock_lower child start t :
  clock_advances child start → (start + N.of_nat t * 10000000 ≤ clock child t)%N.
Proof. intros [H0 Hs]. induction t as [|t IH]; [lia|]. specialize (Hs t). lia. Qed.
Lemma clock_mono child start t u :
  clock_advances child start → t ≤ u → (clock child t ≤ clock child u)%N.
Proof. intros [_ Hs]. induction 1 as [|u _ IH]; [done|]. specialize (Hs u). lia. Qed.

(** What a turn of the loop does. *)
Inductive turn_end (child : Child) (timeout deadline : N) (t : nat) :
    result BridgeError ExitStatus * bool → Prop :=
| turn_exited st : try_wait child t = inr (Some st) → turn_end child timeout deadline t (Ok st, false)
| turn_late : try_wait child t = inr None → (deadline ≤ clock child t)%N →
    turn_end child timeout deadline t (Err (SubprocessTimeout timeout), true)
| turn_failed e : try_wait child t = inl e →
    turn_end child timeout deadline t (Err (SubprocessFailed None (io_display e)), false).
Definition turn_goes_on (child : Child) (deadline : N) (t : nat) : Prop :=
  try_wait child t = inr None ∧ (clock child t < deadline)%N.

Lemma turn_goes_on_dec child deadline t :
  turn_goes_on child deadline t ∨ ¬ turn_goes_on child deadline t.
Proof.
  unfold turn_goes_on. destruct (try_wait child t) as [e|[st|]]; [naive_solver..|].
  destruct (decide (clock child t < deadline)%N); naive_solver.
Qed.

Lemma wait_loop_spec fuel child timeout deadline t r :
  wait_loop fuel child timeout deadline t = Some r ↔
  ∃ u, t ≤ u ∧ u < t + fuel ∧ (∀ i, t ≤ i → i < u → turn_goes_on child deadline i) ∧
    turn_end child timeout deadline u r.
Proof.
  revert t. induction fuel as [|fuel IH]; intros t; cbn [wait_loop].
  { split; [done|]. intros (u & ? & ? & _). lia. }
  destruct (turn_goes_on_dec child deadline t) as [[Hw Hc]|Hgo].
  { rewrite Hw, decide_False by lia. rewrite IH. split.
    - intros (u & Htu & Hu & Hi & He). exists u. split_and!; [lia|lia| |done].
      intros i Hti Hiu. destruct (decide (i = t)) as [->|]; [done|]. apply Hi; lia.
    - intros (u & Htu & Hu & Hi & He). exists u. destruct (decide (u = t)) as [->|].
      { exfalso. inversion He; subst; [congruence|lia|congruence]. }
      split_and!; [lia|lia| |done]. intros i Hti Hiu. apply Hi; lia. }
  assert (Hend : ∀ r', turn_end child timeout deadline t r' →
    (Some r' = Some r ↔ ∃ u, t ≤ u ∧ u < t + S fuel ∧
      (∀ i, t ≤ i → i < u → turn_goes_on child deadline i) ∧ turn_end child timeout deadline u r)).
  { intros r' He. split.
    - intros [= <-]. exists t. split_and!; [done|lia| |done]. intros; lia.
    - intros (u & Htu & Hu & Hi & He'). destruct (decide (u = t)) as [->|].
      + inversion He; inversion He'; subst; congruence.
      + exfalso. apply Hgo, Hi; lia. }
  destruct (try_wait child t) as [e|[st|]] eqn:Hw; [|apply Hend; by constructor|].
  - apply Hend. by constructor.
  - destruct (decide _) as [Hd|Hd]; [apply Hend; by constructor|].
    exfalso. apply Hgo. split; [done|lia].
Qed.

(** Past the turns that the deadline allows, a turn is not the last one only if
    the clock stands still. *)
Lemma turns_end child start timeout fuel t :
  clock_advances child start →
  (timeout < N.of_nat (t + fuel) * 10000000)%N →
  (∀ i, t ≤ i → i < t + fuel → turn_goes_on child (start + timeout) i) ∨
  (∃ u r, t ≤ u ∧ u < t + fuel ∧ (∀ i, t ≤ i → i < u → turn_goes_on child (start + timeout) i) ∧
    turn_end child timeout (start + timeout) u r).
Proof.
  intros Hclock. revert t. induction fuel as [|fuel IH]; intros t Ht; [left; lia|].
  assert (Hend : (∃ r, turn_end child timeout (start + timeout) t r) ∨
    turn_goes_on child (start + timeout) t).
  { destruct (try_wait child t) as [e|[st|]] eqn:Hw; [left; eexists; by constructor..|].
    destruct (decide (start + timeout ≤ clock child t)%N);
      [left; eexists; by constructor|right; split; [done|lia]]. }
  destruct Hend as [[r Hr]|Hgo].
  { right. exists t, r. split_and!; [done|lia| |done]. intros; lia. }
  destruct (IH (S t)) as [Hall|(u & r & Hu & Hlt & Hi & Hr)]; [by rewrite Nat.add_succ_comm| |].
  - left. intros i Hti Hi. destruct (decide (i = t)) as [->|]; [done|]. apply Hall; lia.
  - right. exists u, r. split_and!; [lia|lia| |done].
    intros i Hti Hiu. destruct (decide (i = t)) as [->|]; [done|]. apply Hi; lia.
Qed.

Lemma wait_turns_bound timeout : (timeout < N.of_nat (wait_turns timeout - 1) * 10000000)%N.
Proof.
  unfold wait_turns. pose proof (N.div_mod timeout 10000000 ltac:(done)).
  pose proof (N.mod_lt timeout 10000000 ltac:(done)). lia.
Qed.

(** C36: the wait for a child ends when its deadline is an instant of the
    platform: within the number of turns that the deadline allows it gives the
    status of a child that has exited, the error of [try_wait], or, at a turn
    past the deadline and no more than ten milliseconds worth of turns after it,
    a timeout with the child killed and reaped; and a child that exits before
    the deadline is never killed.  A timeout beyond the largest instant makes it
    panic, and the child is neither awaited nor killed. *)
Theorem wait_for_child_ends `{Host} child start timeout (Hclock : clock_advances child start) :
  ((start + timeout ≤ instant_max)%N →
   ∃ u r, wait_for_child child start timeout = Some r ∧
    (N.of_nat u * 10000000 ≤ timeout + 10000000)%N ∧
    (∀ i, i < u → turn_goes_on child (start + timeout) i) ∧
    turn_end child timeout (start + timeout) u r ∧
    (∀ v st, try_wait child v = inr (Some st) → (clock child v < start + timeout)%N →
      r.2 = false ∧ u ≤ v)) ∧
  ((instant_max < start + timeout)%N → wait_for_child child start timeout = Some (Panic, false)).
Proof.
  unfold wait_for_child, instant_add. split; intros Hmax; [|by rewrite decide_False by lia].
  rewrite decide_True by done.
  pose proof (wait_turns_bound timeout) as Hb.
  assert (Hpos : 0 < wait_turns timeout) by apply Nat.lt_0_succ.
  destruct (turns_end child start timeout (wait_turns timeout) 0 Hclock) as
    [Hall|(u & r & _ & Hu & Hi & Hr)]; [cbn; lia| |].
  - exfalso. destruct (Hall (wait_turns timeout - 1)) as [_ Hc]; [lia..|].
    pose proof (clock_lower child start (wait_turns timeout - 1) Hclock). lia.
  - exists u, r. split_and!.
    + apply wait_loop_spec. exists u. split_and!; [lia|done|intros; apply Hi; lia|done].
    + destruct u as [|u]; [lia|]. destruct (Hi u) as [_ Hc]; [lia..|].
      pose proof (clock_lower child start u Hclock). lia.
    + intros i Hlt. apply Hi; lia.
    + done.
    + intros v st Hv Hc. assert (Huv : u ≤ v).
      { destruct (decide (u ≤ v)); [done|]. destruct (Hi v) as [Hw _]; [lia..|congruence]. }
      split; [|done]. inversion Hr as [| |]; subst; [done| |done].
      pose proof (clock_mono child start u v Hclock Huv). lia.
Qed.

(** ** A zlint that works *)

(** What zlint does with the files it is given: it lints them in order up to
    the first one that it cannot parse. *)
Section zlint.
Variable verdicts_of : bytes → option VerdictMap.

Fixpoint zlint_run (ders : list bytes) : list VerdictMap * option bytes :=
  match ders with
  | [] => ([], None)
  | d :: ders =>
      match verdicts_of d with
      | Some v => let (vs, bad) := zlint_run ders in (v :: vs, bad)
      | None => ([], Some d)
      end
  end.

Lemma zlint_run_split ders :
  (∃ vs, zlint_run ders = (vs, None) ∧ Forall2 (λ d v, verdicts_of d = Some v) ders vs) ∨
  (∃ xs d ys vs, zlint_run ders = (vs, Some d) ∧ ders = xs ++ d :: ys ∧ verdicts_of d = None ∧
    Forall2 (λ d v, verdicts_of d = Some v) xs vs).
Proof.
  induction ders as [|d ders IH]; [left; by exists []|]. cbn.
  destruct (verdicts_of d) as [v|] eqn:Hd; [|right; by exists [], d, ders, []].
  destruct IH as [(vs & -> & Hvs)|(xs & b & ys & vs & -> & -> & Hb & Hvs)].
  - left. exists (v :: vs). split; [done|by constructor].
  - right. exists (d :: xs), b, ys, (v :: vs). split_and!; [done..|by constructor].
Qed.

(** How many certificates cannot be parsed. *)
Definition malformed (d : bytes) : Prop := verdicts_of d = None.
Definition malformed_count (ders : list bytes) : nat := length (filter malformed ders).

Lemma malformed_count_app xs ys :
  malformed_count (xs ++ ys) = malformed_count xs + malformed_count ys.
Proof. unfold malformed_count. by rewrite filter_app, length_app. Qed.
Lemma malformed_count_sublist xs ys : xs `sublist_of` ys → malformed_count xs ≤ malformed_count ys.
Proof.
  unfold malformed_count. induction 1 as [|x xs ys _ IH|x xs ys _ IH]; [done|..];
    rewrite ?filter_cons; repeat case_decide; cbn; lia.
Qed.
Lemma malformed_count_linted xs vs :
  Forall2 (λ d v, verdicts_of d = Some v) xs vs → malformed_count xs = 0.
Proof.
  unfold malformed_count, malformed. induction 1 as [|d v xs vs Hd _ IH]; [done|].
  by rewrite filter_cons_False by congruence.
Qed.
End zlint.

Section works.
Context {W : Type} `{HOs : Os W} `{HHost : Host} `{HSha : Sha256} `{HDebug : DebugText} `{HJson : JsonText}.
Variable (config : BridgeConfig).
(** The verdicts on a certificate, none when it cannot be parsed; and what
    zlint says on its standard error then. *)
Variable (verdicts_of : bytes → option VerdictMap) (complaint : bytes → bytes).

(** What zlint leaves when it is given files with these contents; one object
    may also be read as a whole. *)
Definition zlint_output (ders : list bytes) (out : Output) : Prop :=
  ∃ vs bad, zlint_run verdicts_of ders = (vs, bad) ∧
    parse_per_cert_ndjson (stdout out) = Ok vs ∧
    (∀ v, vs = [v] → bad = None → parse_per_cert_output (stdout out) = Ok v) ∧
    match bad with
    | None => success (status out) = true
    | Some d => success (status out) = false ∧ stderr out = complaint d ∧
        looks_malformed (from_utf8_lossy (complaint d)) = true
    end.

(** A system whose files can be written and read back, and on which zlint is
    installed and answers in time.  [spawns] counts the children. *)
Class WorkingZlint := {
  read_file : W → bytes → option bytes;
  spawns : W → nat;
  create_dir_works p w : ∃ w', create_dir p w = (None, w') ∧ spawns w' = spawns w;
  write_file_works p d w : ∃ w', write_file p d w = (None, w') ∧ spawns w' = spawns w ∧
    ∀ q, read_file w' q = if decide (q = p) then Some d else read_file w q;
  remove_dir_all_works p w : spawns (remove_dir_all p w) = spawns w;
  spawn_works paths ders w : ders ≠ [] → Forall2 (λ p d, read_file w p = Some d) paths ders →
    ∃ spawned w' out, spawn (zlint_path config) ([str "-format"; str "der"] ++ paths) w = (spawned, w') ∧
      spawns w' = S (spawns w) ∧
      run_subprocess spawned (zlint_path config) (zlint_timeout config) = Some (Ok out) ∧
      zlint_output ders out;
  push_inj dir a b : push dir (hex_encode a ++ str ".der") = push dir (hex_encode b ++ str ".der") →
    hex_encode a = hex_encode b }.
Context `{HW : WorkingZlint}.

(** The certificates in play, on which the digest has no collision. *)
Variable known : bytes → Prop.
Hypothesis collision_free : ∀ a b, known a → known b → sha256_digest a = sha256_digest b → a = b.

Definition path_of (dir d : bytes) : bytes := push dir (hex_encode (sha256_digest d) ++ str ".der").

Lemma hex_digit_inj x y : (x < 16)%N → (y < 16)%N → hex_digit x = hex_digit y → x = y.
Proof. intros ??. unfold hex_digit. repeat case_decide; lia. Qed.
Lemma hex_encode_inj a b :
  Forall (λ x, x < 256)%N a → Forall (λ x, x < 256)%N b → hex_encode a = hex_encode b → a = b.
Proof.
  intros Ha. revert b. induction Ha as [|x a Hx _ IH]; intros [|y b] Hb; [done|done|done|].
  apply Forall_cons in Hb as [Hy Hb]. cbn. intros [= Hd Hm Hr].
  apply hex_digit_inj in Hd; [|apply N.Div0.div_lt_upper_bound; lia..].
  apply hex_digit_inj in Hm; [|apply N.mod_lt; lia..].
  f_equal; [|by apply IH]. rewrite (N.div_mod x 16), (N.div_mod y 16) by done. by rewrite Hd, Hm.
Qed.
Lemma path_of_inj dir a b : known a → known b → path_of dir a = path_of dir b → a = b.
Proof.
  intros Ha Hb Hp. apply push_inj, hex_encode_inj in Hp; [|apply sha256_octets..].
  by apply collision_free.
Qed.

(** The lock of the cache works, and it holds only verdicts of the certificates
    in play. *)
Definition cache_ok (s : BridgeState W) : Prop :=
  cache_poisoned s = false ∧
  ∀ d v, known d → zcache s !! sha256_digest d = Some v → verdicts_of d = Some v.
(** Nothing but files has changed. *)
Definition quiet (s s' : BridgeState W) : Prop :=
  zcache s' = zcache s ∧ cache_poisoned s' = cache_poisoned s ∧ spawns (world s') = spawns (world s).

Lemma bridge_bind_Ok {E A B} (m : bridge W E A) (k : A → bridge W E B) s a s' :
  m s = (Ok a, s') → (m ≫= k) s = k a s'.
Proof. intros Hm. unfold mbind, bridge_bind. by rewrite Hm. Qed.
Lemma bridge_map_err_Ok {E F A} (f : E → F) (m : bridge W E A) s a s' :
  m s = (Ok a, s') → bridge_map_err f m s = (Ok a, s').
Proof. intros Hm. unfold bridge_map_err. by rewrite Hm. Qed.
Lemma quiet_trans s1 s2 s3 : quiet s1 s2 → quiet s2 s3 → quiet s1 s3.
Proof. unfold quiet. intros (?&?&?) (?&?&?). split_and!; congruence. Qed.

Lemma os_call_Ok {E A} (f : W → A * W) s a w :
  f (world s) = (a, w) → ∃ s', os_call (E := E) f s = (Ok a, s') ∧ world s' = w ∧
    zcache s' = zcache s ∧ cache_poisoned s' = cache_poisoned s.
Proof. intros Hf. unfold os_call. rewrite Hf. by eexists. Qed.

Lemma temp_dir_new_works s : ∃ dir s', temp_dir_new s = (Ok dir, s') ∧ quiet s s'.
Proof.
  unfold temp_dir_new. erewrite bridge_bind_Ok by reflexivity.
  erewrite bridge_bind_Ok by reflexivity. cbv zeta.
  match goal with |- context [os_call (create_dir ?p)] => generalize p; intros dir end.
  match goal with |- context [(os_call (create_dir dir) ≫= ?k) ?s1] =>
    assert (Hq : quiet s s1) by done; revert Hq; generalize s1; intros s2 Hq end.
  destruct (create_dir_works dir (world s2)) as (w' & Hw & Hs).
  destruct (os_call_Ok (E := BridgeError) _ s2 _ _ Hw) as (s3 & Hs3 & Hw3 & Hc & Hp).
  rewrite (bridge_bind_Ok _ _ _ _ _ Hs3). exists dir, s3. split; [done|].
  apply (quiet_trans _ _ _ Hq). unfold quiet. by rewrite Hc, Hp, Hw3.
Qed.

(** The files of a batch: all are there when the last one is written. *)
Lemma write_der_works dir d s :
  ∃ s', write_der dir d (sha256_digest d) s = (Ok (path_of dir d), s') ∧ quiet s s' ∧
    ∀ q, read_file (world s') q = if decide (q = path_of dir d) then Some d else read_file (world s) q.
Proof.
  destruct (write_file_works (path_of dir d) d (world s)) as (w' & Hw & Hs & Hr).
  destruct (os_call_Ok (E := BridgeError) _ s _ _ Hw) as (s' & Hs' & Hw' & Hc & Hp).
  exists s'. split.
  - unfold write_der. cbv zeta. fold (path_of dir d). by rewrite (bridge_bind_Ok _ _ _ _ _ Hs').
  - split; [unfold quiet; by rewrite Hc, Hp, Hw'|by rewrite Hw'].
Qed.

(** The contents of the files of the certificates at some indices. *)
Definition at_indices (certs : list bytes) (pending : list nat) (ders : list bytes) : Prop :=
  Forall2 (λ i d, certs !! i = Some d ∧ known d) pending ders.

Lemma write_pending_works dir certs pending ders s :
  at_indices certs pending ders →
  ∃ s', write_pending dir certs (sha256_digest <$> certs) pending s = (Ok (path_of dir <$> ders), s') ∧
    quiet s s' ∧
    (∀ d, d ∈ ders → read_file (world s') (path_of dir d) = Some d) ∧
    (∀ d, known d → read_file (world s) (path_of dir d) = Some d →
      read_file (world s') (path_of dir d) = Some d).
Proof.
  intros Hat. revert s. induction Hat as [|i d pending ders [Hd Hk] Hat IH]; intros s.
  { exists s. split_and!; [done|done|set_solver|done]. }
  cbn [write_pending].
  rewrite (bridge_bind_Ok _ _ _ d s) by (unfold lift_result; by apply pair_eq; rewrite index_Ok).
  rewrite (bridge_bind_Ok _ _ _ (sha256_digest d) s)
    by (unfold lift_result; apply pair_eq; by rewrite index_Ok, list_lookup_fmap, Hd).
  destruct (write_der_works dir d s) as (s1 & H1 & Hq1 & Hr1).
  rewrite (bridge_bind_Ok _ _ _ _ _ H1).
  destruct (IH s1) as (s2 & Hs2 & Hq2 & Hr2 & Hp2). rewrite (bridge_bind_Ok _ _ _ _ _ Hs2).
  exists s2. split; [done|]. split; [by eapply quiet_trans|]. split.
  - intros d' [->|Hd']%elem_of_cons; [|by apply Hr2].
    apply Hp2; [done|]. by rewrite Hr1, decide_True.
  - intros d' Hk' Hd'. apply Hp2; [done|]. rewrite Hr1. destruct (decide _) as [Hp|]; [|done].
    f_equal. by eapply path_of_inj.
Qed.

(** What a certificate gives on its own. *)
Definition reference (d : bytes) : CertResult :=
  match verdicts_of d with
  | Some v => inr v
  | None => inl (MalformedDer (from_utf8_lossy (complaint d)))
  end.
(** Every certificate outside the pending indices has its result. *)
Definition filled (certs : list bytes) (pending : list nat) (results : Slots) : Prop :=
  length results = length certs ∧
  ∀ i d, certs !! i = Some d → i ∈ pending ∨ results !! i = Some (Some (reference d)).

Lemma set_slot_filled certs i pending d results :
  certs !! i = Some d → filled certs (i :: pending) results →
  ∃ results', set_slot (E := BridgeError) results i (reference d) = Ok results' ∧
    filled certs pending results'.
Proof.
  intros Hd [Hlen Hf]. pose proof (lookup_lt_Some _ _ _ Hd) as Hi. unfold set_slot.
  rewrite decide_True by lia. eexists. split; [done|]. split; [by rewrite length_insert|].
  intros j d' Hd'. destruct (decide (j = i)) as [->|Hj].
  - right. rewrite list_lookup_insert_eq by lia. congruence.
  - rewrite list_lookup_insert_ne by done. destruct (Hf j d' Hd') as [[|]%elem_of_cons|]; naive_solver.
Qed.

Definition stored (s s' : BridgeState W) : Prop := cache_ok s' ∧ world s' = world s.

Lemma cache_put_works {E : Type} d v s :
  known d → verdicts_of d = Some v → cache_ok s →
  ∃ s', cache_put (E := E) (sha256_digest d) v s = (Ok tt, s') ∧ stored s s' ∧
    zcache s' !! sha256_digest d = Some v.
Proof.
  intros Hk Hv [Hp Hs]. unfold cache_put. rewrite Hp. eexists. split; [done|].
  split; [|by apply lookup_insert_eq]. split; [|done]. split; [done|].
  intros d' v' Hk' Hl. cbn in Hl. apply lookup_insert_Some in Hl as [[Hd <-]|[_ Hl]]; [|by apply Hs].
  apply collision_free in Hd as ->; done.
Qed.

Lemma fill_slots_works certs slots pending ders vs results s :
  at_indices certs slots ders → Forall2 (λ d v, verdicts_of d = Some v) ders vs → cache_ok s →
  filled certs (slots ++ pending) results →
  ∃ results' s', fill_slots (sha256_digest <$> certs) results (zip slots vs) s = (Ok results', s') ∧
    stored s s' ∧ filled certs pending results'.
Proof.
  intros Hat. revert vs results s. induction Hat as [|i d slots ders [Hd Hk] Hat IH];
    intros vs results s Hvs Hs Hf.
  { exists results, s. split_and!; done. }
  apply Forall2_cons_inv_l in Hvs as (v & vs' & Hv & Hvs & ->). cbn [zip zip_with fill_slots].
  rewrite (bridge_bind_Ok _ _ _ (sha256_digest d) s)
    by (unfold lift_result; apply pair_eq; by rewrite index_Ok, list_lookup_fmap, Hd).
  destruct (cache_put_works (E := BridgeError) d v s Hk Hv Hs) as (s1 & H1 & [Hs1 Hw1] & _).
  rewrite (bridge_bind_Ok _ _ _ _ _ H1).
  assert (Href : reference d = inr v) by (unfold reference; by rewrite Hv).
  destruct (set_slot_filled certs i (slots ++ pending) d results Hd Hf) as (r1 & Hr1 & Hf1).
  rewrite Href in Hr1.
  rewrite (bridge_bind_Ok _ _ _ r1 s1) by (unfold lift_result; by rewrite Hr1).
  destruct (IH vs' r1 s1 Hvs Hs1 Hf1) as (r2 & s2 & Hs2 & [Hc2 Hw2] & Hf2).
  exists r2, s2. split_and!; [done| |done]. split; [done|congruence].
Qed.

(** [s'] is [s] after one more child, its files aside. *)
Definition spawned_one (s s' : BridgeState W) : Prop :=
  zcache s' = zcache s ∧ cache_poisoned s' = cache_poisoned s ∧
  spawns (world s') = S (spawns (world s)).

Lemma run_command_works paths ders s :
  ders ≠ [] → Forall2 (λ p d, read_file (world s) p = Some d) paths ders →
  ∃ out s', run_command config ([str "-format"; str "der"] ++ paths) s = (Ok out, s') ∧
    spawned_one s s' ∧ zlint_output ders out.
Proof.
  intros Hne Hr. destruct (spawn_works paths ders (world s) Hne Hr) as (sp & w' & out & Hsp & Hn & Hrun & Ho).
  destruct (os_call_Ok (E := BridgeError) _ s _ _ Hsp) as (s' & Hs' & Hw' & Hc & Hp).
  exists out, s'. unfold run_command. rewrite (bridge_bind_Ok _ _ _ _ _ Hs'), Hrun.
  split; [done|]. unfold spawned_one. by rewrite Hw', Hc, Hp.
Qed.

Lemma with_temp_dir_works {E A : Type} (f : BridgeError → E) (k : bytes → bridge W E A)
    (P : BridgeState W → A → Prop) s :
  (∀ s1 s2 a, P s1 a → zcache s2 = zcache s1 → cache_poisoned s2 = cache_poisoned s1 →
    spawns (world s2) = spawns (world s1) → P s2 a) →
  (∀ dir s1, quiet s s1 → ∃ a s2, k dir s1 = (Ok a, s2) ∧ P s2 a) →
  ∃ a s', with_temp_dir f k s = (Ok a, s') ∧ P s' a.
Proof.
  intros HP Hk. unfold with_temp_dir.
  destruct (temp_dir_new_works s) as (dir & s1 & H1 & Hq).
  apply (bridge_map_err_Ok f) in H1. rewrite (bridge_bind_Ok _ _ _ _ _ H1).
  destruct (Hk dir s1 Hq) as (a & s2 & H2 & Ha). unfold removing. rewrite H2.
  do 2 eexists. split; [done|]. eapply HP; [done..|]. cbn. apply remove_dir_all_works.
Qed.

Lemma at_indices_app_inv certs pending xs ys :
  at_indices certs pending (xs ++ ys) →
  ∃ p q, pending = p ++ q ∧ at_indices certs p xs ∧ at_indices certs q ys.
Proof. intros (p & q & ? & ? & ?)%Forall2_app_inv_r. naive_solver. Qed.

(** What a turn leaves of the pending certificates and of the slots. *)
Definition turn_left (certs : list bytes) (pending : list nat) (ders : list bytes)
    (s' : BridgeState W) (turn : list nat * Slots) : Prop :=
  ∃ ders', at_indices certs turn.1 ders' ∧ filled certs turn.1 turn.2 ∧ cache_ok s' ∧
    length turn.1 < length pending ∧
    (turn.1 = [] ∨ malformed_count verdicts_of ders = S (malformed_count verdicts_of ders')).

Lemma cache_ok_quiet s s' :
  cache_ok s → zcache s' = zcache s → cache_poisoned s' = cache_poisoned s → cache_ok s'.
Proof. unfold cache_ok. by intros ? -> ->. Qed.

Section settle.
Variables (certs : list bytes) (results : Slots) (output : Output) (s : BridgeState W).
Hypothesis Hs : cache_ok s.

Lemma settle_all_linted pending ders vs :
  pending ≠ [] → at_indices certs pending ders → filled certs pending results →
  Forall2 (λ d v, verdicts_of d = Some v) ders vs →
  parse_per_cert_ndjson (stdout output) = Ok vs → success (status output) = true →
  ∃ turn s', settle_batch (sha256_digest <$> certs) pending results output s = (Ok turn, s') ∧
    turn_left certs pending ders s' turn ∧ world s' = world s.
Proof.
  intros Hne Hat Hf Hvs Hparse Hst. unfold settle_batch.
  rewrite (bridge_bind_Ok _ _ _ vs s) by (unfold lift_result; by rewrite Hparse).
  cbv zeta. rewrite Hst, decide_False
    by (intros []; by rewrite <-(Forall2_length _ _ _ Hvs), (Forall2_length _ _ _ Hat)).
  destruct (fill_slots_works certs pending [] ders vs results s Hat Hvs Hs) as
    (results' & s4 & H4 & [Hc4 Hw4] & Hf4); [by rewrite app_nil_r|].
  rewrite (bridge_bind_Ok _ _ _ _ _ H4). do 2 eexists. split; [done|]. split; [|done].
  exists []. split_and!; [constructor|done|done|destruct pending; [done|cbn; lia]|by left].
Qed.

Lemma settle_one_malformed p i q xs d ys vs :
  at_indices certs p xs → certs !! i = Some d → at_indices certs q ys →
  filled certs (p ++ i :: q) results →
  Forall2 (λ d v, verdicts_of d = Some v) xs vs → verdicts_of d = None →
  parse_per_cert_ndjson (stdout output) = Ok vs → success (status output) = false →
  stderr output = complaint d → looks_malformed (from_utf8_lossy (complaint d)) = true →
  ∃ turn s', settle_batch (sha256_digest <$> certs) (p ++ i :: q) results output s = (Ok turn, s') ∧
    turn_left certs (p ++ i :: q) (xs ++ d :: ys) s' turn ∧ world s' = world s.
Proof.
  intros Hp Hi Hq Hf Hvs Hd Hparse Hst Herr Hmal. unfold settle_batch.
  pose proof (Forall2_length _ _ _ Hvs) as Hlen. pose proof (Forall2_length _ _ _ Hp) as Hlenp.
  rewrite (bridge_bind_Ok _ _ _ vs s) by (unfold lift_result; by rewrite Hparse).
  cbv zeta. rewrite Hst, Herr, Hmal. cbn [negb].
  rewrite decide_False by (rewrite length_app; cbn; lia).
  rewrite take_app_length' by lia.
  destruct (fill_slots_works certs p (i :: q) xs vs results s Hp Hvs Hs Hf) as
    (results' & s4 & H4 & [Hc4 Hw4] & Hf4).
  rewrite (bridge_bind_Ok _ _ _ _ _ H4), decide_False by (rewrite length_app; cbn; lia).
  rewrite (bridge_bind_Ok _ _ _ i s4)
    by (unfold lift_result; apply pair_eq; rewrite index_Ok; split; [|done]; apply list_lookup_middle; lia).
  destruct (set_slot_filled certs i q d results' Hi Hf4) as (r5 & H5 & Hf5).
  unfold reference in H5. rewrite Hd in H5.
  rewrite (bridge_bind_Ok _ _ _ r5 s4) by (unfold lift_result; by rewrite H5).
  rewrite (drop_app_ge p) by lia. replace (S (length vs) - length p) with 1 by lia.
  change (drop 1 (i :: q)) with q.
  do 2 eexists. split; [done|]. split; [|done]. exists ys.
  split_and!; [done|done|done|cbn [fst]; rewrite length_app; cbn; lia|right].
  rewrite malformed_count_app, (malformed_count_linted _ xs vs Hvs).
  unfold malformed_count. by rewrite filter_cons_True.
Qed.
End settle.

Lemma turn_works certs pending ders results s :
  pending ≠ [] → at_indices certs pending ders → cache_ok s → filled certs pending results →
  ∃ turn s', run_pending_batch config certs (sha256_digest <$> certs) pending results s = (Ok turn, s') ∧
    turn_left certs pending ders s' turn ∧ spawns (world s') = S (spawns (world s)).
Proof.
  intros Hne Hat Hs Hf. unfold run_pending_batch.
  apply (with_temp_dir_works _ _ (λ s' turn, turn_left certs pending ders s' turn ∧
    spawns (world s') = S (spawns (world s)))).
  { intros s1 s2 turn [(ders' & ? & ? & ? & ? & ?) ?] Hc Hpo Hw. split; [|congruence]. exists ders'.
    split_and!; [done..|by eapply cache_ok_quiet|done|done]. }
  intros dir s1 Hq1.
  destruct (write_pending_works dir certs pending ders s1 Hat) as (s2 & H2 & Hq2 & Hread & _).
  rewrite (bridge_bind_Ok _ _ _ _ _ H2).
  assert (Hders : ders ≠ []) by (intros ->; apply Forall2_nil_inv_r in Hat; done).
  destruct (run_command_works (path_of dir <$> ders) ders s2 Hders) as (out & s3 & H3 & Hone & Hout).
  { apply Forall2_fmap_l, Forall_Forall2_diag, Forall_forall. intros d Hd. by apply Hread. }
  rewrite (bridge_bind_Ok _ _ _ _ _ H3).
  destruct Hout as (vs & bad & Hrun & Hparse & _ & Hbad).
  assert (Hcache3 : cache_ok s3) 
    by (destruct Hq1 as (?&?&_), Hq2 as (?&?&_), Hone as (?&?&_); eapply cache_ok_quiet; [done|congruence..]).
  assert (Hsp3 : spawns (world s3) = S (spawns (world s)))
    by (destruct Hq1 as (_ & _ & ?), Hq2 as (_ & _ & ?), Hone as (_ & _ & ?); congruence).
  rewrite <-Hsp3.
  destruct (zlint_run_split verdicts_of ders) as [(vs' & Hr & Hvs)|(xs & d & ys & vs' & Hr & -> & Hd & Hvs)];
    rewrite Hr in Hrun; injection Hrun as <- <-.
  - destruct (settle_all_linted certs results out s3 Hcache3 pending ders vs') as
      (turn & s4 & H4 & Ht & Hw); [done..|]. exists turn, s4. by rewrite Hw.
  - destruct Hbad as (Hst & Herr & Hmal).
    apply at_indices_app_inv in Hat as (p & q & -> & Hp & Hq).
    apply Forall2_cons_inv_r in Hq as (i & q' & [Hi Hki] & Hq & ->).
    destruct (settle_one_malformed certs results out s3 Hcache3 p i q' xs d ys vs') as
      (turn & s4 & H4 & Ht & Hw); [done..|]. exists turn, s4. by rewrite Hw.
Qed.

Lemma batch_loop_works fuel certs pending ders results s :
  length pending ≤ fuel → at_indices certs pending ders → cache_ok s → filled certs pending results →
  ∃ results' s', batch_loop config fuel certs (sha256_digest <$> certs) pending results s =
      (Ok results', s') ∧
    filled certs [] results' ∧ cache_ok s' ∧
    spawns (world s') ≤ spawns (world s) +
      (if decide (pending = []) then 0 else S (malformed_count verdicts_of ders)).
Proof.
  revert pending ders results s. induction fuel as [|fuel IH]; intros pending ders results s Hfuel Hat Hs Hf;
    (destruct pending as [|i pending]; [exists results, s; split_and!; [done..|lia]|]); [cbn in Hfuel; lia|].
  cbn [batch_loop].
  destruct (turn_works certs (i :: pending) ders results s) as
    ([pending' r'] & s1 & H1 & (ders' & Hat' & Hf' & Hc' & Hlen & Hbad) & Hsp); [done..|].
  rewrite (bridge_bind_Ok _ _ _ _ _ H1). cbn [fst snd] in *.
  destruct (IH pending' ders' r' s1) as (r2 & s2 & H2 & Hf2 & Hc2 & Hsp2); [cbn in Hlen, Hfuel; lia|done..|].
  exists r2, s2. split_and!; [done..|]. rewrite (decide_False (P := i :: pending = [])) by done.
  case_decide; [|destruct Hbad; [done|]]; lia.
Qed.

Lemma lookup_all_works certs k s :
  Forall known certs → cache_ok s →
  ∃ results pending ders, lookup_all k certs s =
      (Ok (results, sha256_digest <$> certs, pending), s) ∧
    ders `sublist_of` certs ∧
    Forall2 (λ j d, ∃ i, j = k + i ∧ certs !! i = Some d ∧ known d) pending ders ∧
    length results = length certs ∧
    (∀ i d, certs !! i = Some d → k + i ∈ pending ∨ results !! i = Some (Some (reference d))) ∧
    (pending = [] ↔ Forall (λ d, is_Some (zcache s !! sha256_digest d)) certs).
Proof.
  intros Hk [Hp Hs]. revert k. induction Hk as [|d certs Hd Hk IH]; intros k.
  { exists [], [], []. split_and!; [done..|constructor|done|done|done]. }
  cbn [lookup_all]. rewrite (bridge_bind_Ok _ _ _ (zcache s !! sha256_digest d) s)
    by (unfold cache_get; by rewrite Hp).
  destruct (IH (S k)) as (rs & pd & ds & H1 & Hsub & Hat & Hlen & Hf & Hnil).
  rewrite (bridge_bind_Ok _ _ _ _ _ H1).
  assert (Hshift : Forall2 (λ j d', ∃ i, j = k + i ∧ (d :: certs) !! i = Some d' ∧ known d') pd ds).
  { eapply Forall2_impl; [exact Hat|]. intros j d' (i & -> & Hi). exists (S i). split; [lia|done]. }
  destruct (zcache s !! sha256_digest d) as [v|] eqn:Hc.
  - exists (Some (inr v) :: rs), pd, ds. split_and!; [done|by constructor|done|cbn; by rewrite Hlen|..].
    + intros [|i] d' Hi; [|rewrite <-Nat.add_succ_comm; by apply Hf]. injection Hi as <-. right. cbn.
      unfold reference. by rewrite (Hs d v Hd Hc).
    + rewrite Hnil, Forall_cons, Hc. naive_solver.
  - exists (None :: rs), (k :: pd), (d :: ds).
    split_and!; [done|by constructor|constructor; [|done]|cbn; by rewrite Hlen|..].
    + exists 0. split; [lia|done].
    + intros [|i] d' Hi; [left; rewrite Nat.add_0_r; by left|].
      rewrite <-Nat.add_succ_comm. destruct (Hf i d' Hi); [left; by right|by right].
    + rewrite Forall_cons, Hc. split; [done|]. intros [[] _]. done.
Qed.

Lemma expect_all_filled {E : Type} certs results :
  filled certs [] results → expect_all (E := E) results = Ok (reference <$> certs).
Proof.
  intros [Hlen Hf]. revert results Hlen Hf. induction certs as [|d certs IH]; intros [|r results] Hlen Hf;
    [done|done|done|]. cbn [expect_all].
  destruct (Hf 0 d eq_refl) as [[]%elem_of_nil|Hr]. injection Hr as ->. cbn.
  rewrite IH; [done|by injection Hlen|]. intros i d' Hi. destruct (Hf (S i) d' Hi) as [[]%elem_of_nil|]; by right.
Qed.

(** C37: when zlint works, a batch gives one result per certificate, in the
    order of the certificates: the verdicts of each one that can be parsed and
    an error for each that cannot, whatever the cache holds and wherever zlint
    stops; it starts at most one child more than there are certificates that
    cannot be parsed, none when every certificate is in the cache, and the
    cache stays right. *)
Theorem run_on_certs_correct certs s (Hknown : Forall known certs) (Hs : cache_ok s) :
  ∃ s', run_on_certs config certs s = (Ok (reference <$> certs), s') ∧ cache_ok s' ∧
    spawns (world s') ≤ spawns (world s) + S (malformed_count verdicts_of certs) ∧
    (Forall (λ d, is_Some (zcache s !! sha256_digest d)) certs → s' = s).
Proof.
  unfold run_on_certs. destruct (decide (certs = [])) as [->|Hne].
  { exists s. split_and!; [done|done|lia|done]. }
  destruct (lookup_all_works certs 0 s Hknown Hs) as (rs & pd & ds & H1 & Hsub & Hat & Hlen & Hf & Hnil).
  rewrite (bridge_bind_Ok _ _ _ _ _ H1).
  assert (Hat' : at_indices certs pd ds)
    by (eapply Forall2_impl; [exact Hat|]; intros j d (i & -> & ? & ?); done).
  destruct (batch_loop_works (length pd) certs pd ds rs s) as (r2 & s2 & H2 & Hf2 & Hc2 & Hsp); [done..|].
  rewrite (bridge_bind_Ok _ _ _ _ _ H2). unfold lift_result.
  rewrite (expect_all_filled certs r2 Hf2). exists s2. split_and!; [done..| |].
  - pose proof (malformed_count_sublist verdicts_of _ _ Hsub). case_decide; lia.
  - intros Hall. apply Hnil in Hall as ->. cbn in H2. by injection H2 as _ <-.
Qed.

(** [run_on_cert] on its own certificate. *)
Definition cert_reference (d : bytes) : result ZlintError VerdictMap :=
  match reference d with inr v => Ok v | inl e => Err (Cert e) end.

(** A certificate that is not in the cache costs one child, and its verdicts
    are kept. *)
Definition paid (d : bytes) (s s' : BridgeState W) : Prop :=
  cache_ok s' ∧ spawns (world s') = S (spawns (world s)) ∧
  zcache s' !! sha256_digest d = verdicts_of d.

Lemma run_on_cert_miss d s :
  known d → cache_ok s → zcache s !! sha256_digest d = None →
  ∃ s', run_on_cert config d s = (cert_reference d, s') ∧ paid d s s'.
Proof.
  intros Hk Hs Hmiss. unfold run_on_cert. cbv zeta.
  rewrite (bridge_bind_Ok _ _ _ None s) by (unfold cache_get; by destruct Hs as [-> _]; rewrite Hmiss).
  unfold with_temp_dir. destruct (temp_dir_new_works s) as (dir & s1 & H1 & Hq1).
  apply (bridge_map_err_Ok Bridge) in H1. rewrite (bridge_bind_Ok _ _ _ _ _ H1).
  destruct (write_der_works dir d s1) as (s2 & H2 & Hq2 & Hr2).
  apply (bridge_map_err_Ok Bridge) in H2. unfold removing. rewrite (bridge_bind_Ok _ _ _ _ _ H2).
  destruct (run_command_works [path_of dir d] [d] s2) as (out & s3 & H3 & Hone & vs & bad & Hrun & _ & Hparse & Hbad);
    [done|constructor; [by rewrite Hr2, decide_True|constructor]|].
  apply (bridge_map_err_Ok Bridge) in H3. rewrite (bridge_bind_Ok _ _ _ _ _ H3).
  destruct Hq1 as (Hc1 & Hp1 & Hn1), Hq2 as (Hc2 & Hp2 & Hn2), Hone as (Hc3 & Hp3 & Hn3).
  assert (Hs3 : cache_ok s3) by (eapply cache_ok_quiet; [done|congruence..]).
  unfold cert_reference, reference. cbn in Hrun.
  destruct (verdicts_of d) as [v|] eqn:Hd; injection Hrun as <- <-.
  - rewrite Hbad. cbn [negb].
    rewrite (bridge_bind_Ok _ _ _ v s3) by (unfold lift_result; by rewrite (Hparse v)).
    destruct (cache_put_works (E := ZlintError) d v s3 Hk Hd Hs3) as (s4 & H4 & [Hs4 Hw4] & Hl4).
    rewrite (bridge_bind_Ok _ _ _ _ _ H4). eexists. split; [done|].
    split_and!; [exact Hs4|cbn; rewrite remove_dir_all_works; congruence|cbn; congruence].
  - destruct Hbad as (Hst & Herr & Hmal). rewrite Hst, Herr. cbn [negb].
    unfold classify_zlint_cert_error. rewrite Hmal. eexists. split; [done|].
    split_and!; [exact Hs3|cbn; rewrite remove_dir_all_works; congruence|cbn; congruence].
Qed.

(** When zlint works, one certificate gives its verdicts, or the error of
    a certificate that cannot be parsed; a hit of the cache changes nothing, a
    miss costs one child, and only verdicts are kept: after an error the next
    call pays again. *)
Theorem run_on_cert_correct d s (Hknown : known d) (Hs : cache_ok s) :
  ∃ s', run_on_cert config d s = (cert_reference d, s') ∧ cache_ok s' ∧
    match zcache s !! sha256_digest d with Some _ => s' = s | None => paid d s s' end.
Proof.
  destruct (zcache s !! sha256_digest d) as [v|] eqn:Hc.
  - exists s. pose proof Hs as [Hp Hok]. split_and!; [|done|done].
    unfold run_on_cert. cbv zeta.
    rewrite (bridge_bind_Ok _ _ _ (Some v) s) by (unfold cache_get; by rewrite Hp, Hc).
    unfold cert_reference, reference. by rewrite (Hok d v Hknown Hc).
  - destruct (run_on_cert_miss d s Hknown Hs Hc) as (s' & H1 & H2).
    exists s'. split_and!; [done|apply H2|done].
Qed.
End works.
