(* ===== verification/PolicyZlint.v ===== *)
(** * The lints of zlint (pkix-policy-zlint/src/lib.rs)

    A lint per check of zlint's catalogue.  All share one bridge, so checking a
    certificate passes the state of the bridge along; [Lint] itself has no
    state, and its instance here takes zlint's answers from a function.  Linting a
    certificate with every check of the catalogue gives the findings that the
    pure lints give, and starts zlint once, or once per check when the
    certificate cannot be parsed. *)
From stdpp Require Import gmap.
From S2P Require Import Prelude X509 PathTypes Samples LintTypes Json LintRunner TrustStore RustStr ZlintBridge ZlintBridgeSpec.

Record ZlintLint := { zlint_info : ZlintLintInfo }.

Definition zlint_title (l : ZlintLint) : bytes :=
  let info := zlint_info l in
  if decide (zl_description info = []) then check_id info else zl_description info.
Definition zlint_description (l : ZlintLint) : option bytes :=
  let info := zlint_info l in
  if decide (zl_description info = []) then None else Some (zl_description info).

(** The mapping of the verdicts of a certificate. *)
Definition verdict_result (l : ZlintLint) (verdicts : VerdictMap) : LintResult :=
  match verdicts !! check_id (zlint_info l) with
  | Some VNotApplicable | None => LintNotApplicable
  | Some VPass => LintPass
  | Some VNotice => LintWarn (str "zlint notice (see check description)")
  | Some VWarn => LintWarn (str "zlint warn (see check description)")
  | Some VError => LintError (str "zlint error (see check description)")
  | Some VFatal => LintFatal (str "zlint fatal (see check description)")
  end.

Section checks.
Context `{Encode Certificate} `{DebugText}.

Definition answer_result (l : ZlintLint) (r : ZlintError + VerdictMap) : LintResult :=
  match r with
  | inr verdicts => verdict_result l verdicts
  | inl e => LintError (str "pkix-policy-zlint: zlint bridge run_on_cert failed: " ++
      zlint_error_display e)
  end.
Definition not_encoded (e : der_error) : LintResult :=
  LintError (str "pkix-policy-zlint: re-encode cert to DER failed: " ++ str e).

(** [ZlintLint] as a [Lint], for the answers of zlint on encodings. *)
Class ZlintAnswers := zlint_answer : bytes → ZlintError + VerdictMap.

Definition zlint_check_cert `{ZlintAnswers} (l : ZlintLint) (cert : Certificate) : LintResult :=
  match to_der cert with
  | inl e => not_encoded e
  | inr der => answer_result l (zlint_answer der)
  end.

#[global] Instance ZlintLint_impl `{ZlintAnswers} : Lint ZlintLint := {|
  id l := check_id (zlint_info l);
  lint_citation l := zl_citation (zlint_info l);
  severity l := zl_severity (zlint_info l);
  scope _ := ScopeCertificate;
  applies_to _ := KindAny;
  title := zlint_title;
  description := zlint_description;
  spec_section_id _ := None;
  spec_url _ := None;
  parameters _ := default_parameters;
  set_parameter := default_set_parameter;
  check_cert l cert _ _ := zlint_check_cert l cert;
  check_path _ := default_check_path |}.

(** *** With the bridge *)
Context {W : Type} `{Os W} `{Host} `{Sha256} `{JsonText}.

(** A [match] on a [Result]: errors become values, panics go on. *)
Definition catching {E F A : Type} (m : bridge W E A) : bridge W F (E + A) := λ s,
  match m s with
  | (Ok a, s') => (Ok (inr a), s')
  | (Err e, s') => (Ok (inl e), s')
  | (Panic, s') => (Panic, s')
  end.

(** [ZlintLint::check_cert] *)
Definition check_cert_with_bridge {E : Type} (config : BridgeConfig) (l : ZlintLint)
    (cert : Certificate) : bridge W E LintResult :=
  match to_der cert with
  | inl e => mret (not_encoded e)
  | inr der => r ← catching (run_on_cert config der); mret (answer_result l r)
  end.

Definition all_lints (config : BridgeConfig) : bridge W BridgeError (list ZlintLint) :=
  infos ← enumerate_lints config;
  mret ((λ info, {| zlint_info := info |}) <$> infos).

(** The loop of [LintRunner::run_cert] over lints that share a bridge. *)
Fixpoint run_cert_with_bridge {E : Type} (config : BridgeConfig) (version : bytes)
    (cert : Certificate) (index : nat) (now_unix : N) (sha : option bytes) (ls : list ZlintLint) :
    bridge W E (list Finding) :=
  match ls with
  | [] => mret []
  | lint :: ls =>
      r ← check_cert_with_bridge config lint cert;
      let f := {| lint_id := check_id (zlint_info lint); citation := zl_citation (zlint_info lint);
                  rule_bundle_version := version; finding_result := r;
                  cert_index := Some index; evaluated_at_unix := now_unix; cert_sha256 := sha |} in
      if is_fatal r then mret [f]
      else
        rest ← run_cert_with_bridge config version cert index now_unix sha ls;
        mret (f :: rest)
  end.
End checks.

Lemma verdict_result_spec l verdicts :
  (verdict_result l verdicts = LintPass ↔ verdicts !! check_id (zlint_info l) = Some VPass) ∧
  (verdict_result l verdicts = LintNotApplicable ↔
    verdicts !! check_id (zlint_info l) = None ∨
    verdicts !! check_id (zlint_info l) = Some VNotApplicable) ∧
  (is_finding (verdict_result l verdicts) ↔ ∃ v, verdicts !! check_id (zlint_info l) = Some v ∧
    v ≠ VPass ∧ v ≠ VNotApplicable) ∧
  (is_fatal (verdict_result l verdicts) ↔ verdicts !! check_id (zlint_info l) = Some VFatal).
Proof. unfold verdict_result. destruct (_ !! _) as [[]|]; naive_solver. Qed.

Lemma kind_matches_any kind : kind_matches kind KindAny = true.
Proof. by destruct kind. Qed.

Section policy.
Context {W : Type} `{HOs : Os W} `{HHost : Host} `{HSha : Sha256} `{HDebug : DebugText} `{HJson : JsonText}
  `{Encode Certificate}.
Variables (config : BridgeConfig) (verdicts_of : bytes → option VerdictMap) (complaint : bytes → bytes).
Context `{HW : !WorkingZlint (W := W) config verdicts_of complaint}.
Variable known : bytes → Prop.
Hypothesis collision_free : ∀ a b, known a → known b → sha256_digest a = sha256_digest b → a = b.

#[local] Instance answers : ZlintAnswers := λ d,
  match reference verdicts_of complaint d with inr v => inr v | inl e => inl (Cert e) end.

(** The children started so far. *)
Definition children (s : BridgeState W) : nat := spawns config verdicts_of complaint (world s).

Lemma catching_cert {F : Type} (m : bridge W ZlintError VerdictMap) d s s' :
  m s = (cert_reference verdicts_of complaint d, s') →
  catching (F := F) m s = (Ok (zlint_answer d), s').
Proof.
  intros Hm. unfold catching, zlint_answer, answers. rewrite Hm. unfold cert_reference.
  by destruct (reference _ _ d).
Qed.

Lemma check_cert_works {E : Type} l cert der s :
  to_der cert = inr der → known der → cache_ok verdicts_of known s →
  ∃ s', check_cert_with_bridge (E := E) config l cert s = (Ok (zlint_check_cert l cert), s') ∧
    cache_ok verdicts_of known s' ∧
    match zcache s !! sha256_digest der with
    | Some _ => s' = s
    | None => children s' = S (children s) ∧
        zcache s' !! sha256_digest der = verdicts_of der
    end.
Proof.
  intros Hder Hk Hs. unfold check_cert_with_bridge, zlint_check_cert. rewrite Hder.
  destruct (run_on_cert_correct config verdicts_of complaint known collision_free der s Hk Hs) as
    (s' & Hrun & Hs' & Hpay).
  apply (catching_cert (F := E)) in Hrun.
  rewrite (bridge_bind_Ok _ _ _ _ _ Hrun). exists s'. split_and!; [done|done|].
  destruct (zcache s !! _); [done|]. apply Hpay.
Qed.

(** Linting a certificate whose verdicts are in the cache changes nothing. *)
Lemma run_cached {E : Type} version cert der kind index now_unix sha v bundle ls (s : BridgeState W) :
  to_der cert = inr der → known der → cache_ok verdicts_of known s →
  zcache s !! sha256_digest der = Some v → bundle_version bundle = version →
  run_cert_with_bridge (E := E) config version cert index now_unix sha ls s =
    (Ok (run_cert_loop bundle cert kind index now_unix sha ls), s).
Proof.
  intros Hder Hk Hs Hc <-. induction ls as [|l ls IH]; [done|].
  cbn [run_cert_with_bridge run_cert_loop].
  destruct (check_cert_works (E := E) l cert der s Hder Hk Hs) as (s' & Hrun & _ & Hpay).
  rewrite Hc in Hpay. subst s'. rewrite (bridge_bind_Ok _ _ _ _ _ Hrun).
  rewrite decide_False by naive_solver.
  change (check_cert l cert kind now_unix) with (zlint_check_cert l cert).
  rewrite kind_matches_any. destruct (is_fatal _); [done|].
  by rewrite (bridge_bind_Ok _ _ _ _ _ IH).
Qed.

(** An error that is not fatal: every lint is run, and every one pays. *)
Lemma run_malformed {E : Type} version cert der kind index now_unix sha bundle ls (s : BridgeState W) :
  to_der cert = inr der → known der → cache_ok verdicts_of known s → verdicts_of der = None →
  bundle_version bundle = version →
  ∃ s', run_cert_with_bridge (E := E) config version cert index now_unix sha ls s =
      (Ok (run_cert_loop bundle cert kind index now_unix sha ls), s') ∧
    cache_ok verdicts_of known s' ∧ children s' = length ls + children s.
Proof.
  intros Hder Hk Hs Hnone <-. revert s Hs. induction ls as [|l ls IH]; intros s Hs; [by exists s|].
  cbn [run_cert_with_bridge run_cert_loop].
  destruct (check_cert_works (E := E) l cert der s Hder Hk Hs) as (s1 & Hrun & Hs1 & Hpay).
  assert (Hmiss : zcache s !! sha256_digest der = None).
  { destruct (zcache s !! _) as [v|] eqn:Hc; [|done]. apply Hs in Hc; [congruence|done]. }
  rewrite Hmiss in Hpay. destruct Hpay as [Hn _]. rewrite (bridge_bind_Ok _ _ _ _ _ Hrun).
  destruct (IH s1 Hs1) as (s2 & H2 & Hs2 & Hn2).
  rewrite decide_False by naive_solver.
  change (check_cert l cert kind now_unix) with (zlint_check_cert l cert).
  rewrite kind_matches_any.
  assert (Hf : is_fatal (zlint_check_cert l cert) = false).
  { unfold zlint_check_cert. rewrite Hder. unfold zlint_answer, answers, reference. by rewrite Hnone. }
  rewrite Hf, (bridge_bind_Ok _ _ _ _ _ H2). exists s2. split_and!; [done|done|cbn; lia].
Qed.

(** C38: linting a certificate with the checks of zlint over a shared bridge
    gives the findings of the runner on pure lints that know zlint's answers;
    zlint is started at most once for a certificate that it can parse, and once
    for every check for one that it cannot. *)
Theorem zlint_run_refines {E : Type} bundle cert der kind index now_unix (s : BridgeState W)
    (Hder : to_der cert = inr der) (Hknown : known der) (Hs : cache_ok verdicts_of known s) :
  ∃ s', run_cert_with_bridge (E := E) config (bundle_version bundle) cert index now_unix
        (cert_sha256_of cert) (lints bundle) s =
      (Ok (run_cert bundle cert kind index now_unix), s') ∧
    cache_ok verdicts_of known s' ∧
    match verdicts_of der with
    | Some _ => children s' ≤ S (children s)
    | None => children s' = length (lints bundle) + children s
    end.
Proof.
  destruct (verdicts_of der) as [v|] eqn:Hv; [|by eapply run_malformed].
  unfold run_cert. destruct (zcache s !! sha256_digest der) as [v'|] eqn:Hc.
  { exists s. split_and!; [by eapply run_cached|done|lia]. }
  destruct (lints bundle) as [|l ls]; [exists s; split_and!; [done|done|lia]|].
  cbn [run_cert_with_bridge run_cert_loop].
  destruct (check_cert_works (E := E) l cert der s Hder Hknown Hs) as (s1 & Hrun & Hs1 & Hpay).
  rewrite Hc, Hv in Hpay. destruct Hpay as [Hn Hc1]. rewrite (bridge_bind_Ok _ _ _ _ _ Hrun).
  rewrite decide_False by naive_solver.
  change (check_cert l cert kind now_unix) with (zlint_check_cert l cert).
  rewrite kind_matches_any.
  destruct (is_fatal _); [exists s1; split_and!; [done|done|lia]|].
  rewrite (bridge_bind_Ok _ _ _ _ _ (run_cached (E := E) _ cert der kind index now_unix _ v bundle ls s1
    Hder Hknown Hs1 Hc1 eq_refl)).
  exists s1. split_and!; [done|done|lia].
Qed.
End policy.

(** ** A system with a toy zlint

    Files in memory, a zlint that parses exactly the certificates of one octet
    and finds nothing in them. *)
Module ZlintExamples.
(** ** The system *)
Record Toy := { toy_files : gmap bytes bytes; toy_spawns : nat }.

Definition toy_map : VerdictMap := {[ str "e_x" := VPass ]}.
Definition toy_verdicts (d : bytes) : option VerdictMap :=
  if decide (length d = 1) then Some toy_map else None.
Definition toy_complaint (_ : bytes) : bytes := str "malformed".

(** An object is written P. *)
#[local] Instance toy_json : JsonText := λ t,
  if decide (t = str "P") then inr (Object [(str "e_x", Object [(str "result", Json.String (str "pass"))])])
  else inl [].
#[local] Instance toy_debug : DebugText := {|
  str_debug := λ s, s; duration_debug := λ _, []; fmt_i32_code := λ _, [] |}.
#[local] Instance toy_sha : Sha256 := λ b, pad32 (N.of_nat (length b) :: b).
#[local] Instance toy_host : Host := {|
  process_id := 1; temp_dir := []; push := app; instant_max := 9223372036854775807999999999 |}.

(** The output on files with some contents. *)
Definition toy_output (ders : list bytes) : bytes * option bytes :=
  let (vs, bad) := zlint_run toy_verdicts ders in (vs ≫= λ _, str "P" ++ [10%N], bad).
Definition toy_child (ders : list bytes) : Child :=
  let (out, bad) := toy_output ders in
  {| try_wait := λ t, if decide (t = 0) then inr None else
       inr (Some {| exit_code_of := Some (match bad with Some _ => 1 | None => 0 end)%Z; signal_of := None |});
     clock := λ t, (N.of_nat t * 10000000)%N;
     stdout_pipe := Some (Drained_ (inr out));
     stderr_pipe := Some (Drained_ (inr (match bad with Some d => toy_complaint d | None => [] end))) |}.
#[local] Instance toy_os : Os Toy := {|
  spawn _ args w :=
    (inr (0%N, toy_child (omap (toy_files w !!.) (drop 2 args))),
     {| toy_files := toy_files w; toy_spawns := S (toy_spawns w) |});
  system_nanos _ := 0%N;
  create_dir _ w := (None, w);
  write_file p d w := (None, {| toy_files := <[p := d]> (toy_files w); toy_spawns := toy_spawns w |});
  remove_dir_all _ w := {| toy_files := ∅; toy_spawns := toy_spawns w |} |}.

Definition toy_config : BridgeConfig := bridge_config_default.

(** ** It works *)
Lemma toy_utf8 {A} (vs : list A) :
  from_utf8 (vs ≫= λ _, str "P" ++ [10%N]) = inr (vs ≫= λ _, str "P" ++ [10%N]).
Proof.
  unfold from_utf8.
  assert (Hc : ∀ i, check_utf8 (length (vs ≫= λ _, str "P" ++ [10%N])) i (vs ≫= λ _, str "P" ++ [10%N]) = None).
  { induction vs as [|v vs IH]; intros i; [done|]. cbn in *. apply IH. }
  by rewrite Hc.
Qed.

Lemma toy_lines {A} (vs : list A) :
  parse_per_cert_ndjson (vs ≫= λ _, str "P" ++ [10%N]) = Ok ((λ _, toy_map) <$> vs).
Proof.
  unfold parse_per_cert_ndjson. rewrite toy_utf8.
  assert (Hl : lines (vs ≫= λ _, str "P" ++ [10%N]) = (λ _, str "P") <$> vs).
  { unfold lines. induction vs as [|v vs IH]; [done|]. cbn in *. by rewrite IH. }
  rewrite Hl. clear Hl. generalize 0. induction vs as [|v vs IH]; intros n; [done|].
  cbn [fmap list_fmap parse_lines].
  change (trim (str "P")) with (str "P"). rewrite decide_False by done.
  change (parse_per_cert_json_value (str "P")) with (Ok (E := bytes) toy_map).
  cbn [map_err mbind result_bind]. by rewrite IH.
Qed.

Lemma toy_run_split ders vs bad :
  zlint_run toy_verdicts ders = (vs, bad) → vs = (λ _, toy_map) <$> vs.
Proof.
  revert vs bad. induction ders as [|d ders IH]; intros vs bad; [by intros [= <-]|]. cbn.
  unfold toy_verdicts at 1. destruct (decide _); [|by intros [= <-]].
  destruct (zlint_run _ ders) as [vs' bad'] eqn:Hr. intros [= <- <-]. cbn. f_equal. exact (IH _ _ eq_refl).
Qed.

Lemma toy_output_ok ders status out err vs bad :
  zlint_run toy_verdicts ders = (vs, bad) → out = (vs ≫= λ _, str "P" ++ [10%N]) →
  success status = (match bad with Some _ => false | None => true end) →
  err = (match bad with Some d => toy_complaint d | None => [] end) →
  zlint_output toy_verdicts toy_complaint ders {| status := status; stdout := out; stderr := err |}.
Proof.
  intros Hr -> Hs ->. exists vs, bad. pose proof (toy_run_split _ _ _ Hr) as Hvs.
  split_and!; [done|cbn [stdout]; by rewrite toy_lines, <-Hvs| |by destruct bad].
  intros v -> _. injection Hvs as ->. vm_compute. reflexivity.
Qed.

#[local] Instance toy_works : WorkingZlint (W := Toy) toy_config toy_verdicts toy_complaint.
Proof.
  refine {| read_file := λ w p, toy_files w !! p; spawns := toy_spawns |}.
  - intros p w. by exists w.
  - intros p d w. eexists. split_and!; [done|done|]. intros q. cbn.
    destruct (decide (q = p)) as [->|]; [apply lookup_insert_eq|by apply lookup_insert_ne].
  - done.
  - intros paths ders w _ Hr.
    assert (Hd : omap (toy_files w !!.) paths = ders).
    { induction Hr as [|p d paths ders Hp _ IH]; [done|]. cbn. rewrite Hp. cbn. by rewrite IH. }
    destruct (zlint_run toy_verdicts ders) as [vs bad] eqn:Hz.
    exists (inr (0%N, toy_child ders)). eexists _, _.
    split; [unfold spawn, toy_os; change (drop 2 ([str "-format"; str "der"] ++ paths)) with paths; rewrite Hd; reflexivity|]. split; [done|].
    unfold toy_child, toy_output. rewrite Hz.
    split; [reflexivity|]. eapply toy_output_ok; [done|done|by destruct bad|done].
  - intros dir a b. cbn [push toy_host]. intros Hp%app_inv_head. by apply app_inv_tail in Hp.
Defined.

(** ** The theorems *)
Definition start : BridgeState Toy :=
  zlint_bridge_new {| toy_files := ∅; toy_spawns := 0 |} 0.
(** Certificates of one octet, and one that is empty. *)
Definition in_play (d : bytes) : Prop := d = [1%N] ∨ d = [2%N] ∨ d = [].
Lemma in_play_distinct a b : in_play a → in_play b → sha256_digest a = sha256_digest b → a = b.
Proof. intros [->|[->| ->]] [->|[->| ->]]; done. Qed.
Lemma start_ok : cache_ok toy_verdicts in_play start.
Proof. split; [done|]. intros d v [->|[->| ->]] Hl; vm_compute in Hl; discriminate Hl. Qed.

(** A child that exits on its third turn, before the deadline. *)
Definition slow_child : Child := {|
  try_wait := λ t, if decide (t < 2) then inr None else
    inr (Some {| exit_code_of := Some 0%Z; signal_of := None |});
  clock := λ t, (5 + N.of_nat t * 10000000)%N; stdout_pipe := None; stderr_pipe := None |}.
Lemma slow_child_clock : clock_advances slow_child 5.
Proof. split; [done|]. intros t. cbn [clock slow_child]. lia. Qed.
(** A timeout of sixty milliseconds, and [Duration::MAX]. *)
Lemma wait_for_child_ends_witness :
  (∃ r, wait_for_child slow_child 5 60000000 = Some r ∧ r.2 = false) ∧
  wait_for_child slow_child 5 18446744073709551615999999999 = Some (Panic, false).
Proof.
  split.
  - destruct (proj1 (wait_for_child_ends slow_child 5 60000000 slow_child_clock)) as
      (u & r & Hr & _ & _ & _ & He); [vm_compute; discriminate|].
    exists r. split; [exact Hr|]. apply (He 2 _ eq_refl). reflexivity.
  - apply (proj2 (wait_for_child_ends slow_child 5 _ slow_child_clock)). reflexivity.
Defined.

Lemma run_on_certs_correct_witness :
  ∃ s', run_on_certs toy_config [[1]; []; [2]; [1]]%N start =
      (Ok [inr toy_map; inl (MalformedDer (str "malformed")); inr toy_map; inr toy_map], s') ∧
    toy_spawns (world s') ≤ 2.
Proof.
  assert (Hk : Forall in_play [[1]; []; [2]; [1]]%N) by (unfold in_play; repeat constructor; naive_solver).
  destruct (run_on_certs_correct toy_config toy_verdicts toy_complaint in_play in_play_distinct
    [[1]; []; [2]; [1]]%N start Hk start_ok) as (s' & Hr & _ & Hn & _).
  exists s'. split; [exact Hr|exact Hn].
Defined.

(** Two checks, on a certificate that encodes to its serial number. *)
#[local] Instance toy_encode : Encode Certificate := λ c, inr (serial_number (tbs_certificate c)).
Definition toy_lint (name : string) : ZlintLint := {| zlint_info := {|
  check_id := str name; zl_description := []; zl_citation := []; zl_source := [];
  zl_severity := SevError |} |}.
Definition toy_bundle : LintRunner ZlintLint :=
  {| lints := [toy_lint "e_x"; toy_lint "e_y"]; bundle_version := str "1" |}.

Lemma zlint_run_refines_witness :
  ∃ s' fs, run_cert_with_bridge (E := BridgeError) toy_config (str "1") (sample_cert "i" "s" 1 []) 0 9
      (cert_sha256_of (sample_cert "i" "s" 1 [])) (lints toy_bundle) start = (Ok fs, s') ∧
    finding_result <$> fs = [LintPass; LintNotApplicable] ∧ toy_spawns (world s') ≤ 1.
Proof.
  destruct (zlint_run_refines (E := BridgeError) toy_config toy_verdicts toy_complaint in_play in_play_distinct
    toy_bundle (sample_cert "i" "s" 1 []) [1%N] KindLeaf 0 9 start eq_refl (or_introl eq_refl) start_ok)
    as (s' & Hr & _ & Hn).
  exists s'. eexists. split; [exact Hr|]. split; [vm_compute; reflexivity|exact Hn].
Defined.
End ZlintExamples.
