(* ===== verification/HttpClients.v ===== *)
(** * The HTTP clients (pkix-revocation-http/src/clients, pkix-aia-http)

    Three fetchers on ureq and reqwest, each with its cap on the size of a body.
    A Module each: they share the names of their operations. *)
From S2P Require Import Prelude X509 CertChecks Aia RevFetch LintTypes TrustStore.

(** ** The libraries ureq and reqwest

    Parameters: what a call of an agent or a client gives, and bodies as streams
    of reads or of chunks. *)

(** The rendering of an error as a [String]. *)
Definition text (b : bytes) : string := String.string_of_list_ascii (Ascii.ascii_of_N <$> b).

(** A header value and its [to_str], which refuses what is not visible ASCII. *)
Class HeaderText := to_str : bytes → option string.

(** [limit.saturating_add(1)] on [u64] *)
Definition read_cap (limit : N) : nat := N.to_nat (u64_saturating_add limit 1).

(** [(200..300).contains(&status)] *)
Definition is_success (status : N) : bool := bool_decide (200 ≤ status < 300)%N.

(** ** ureq *)
Inductive UreqError := StatusCode (code : N) | UreqTimeout (display : bytes) | UreqOther (display : bytes).
Record UreqResponse := {
  u_status : N; u_content_type : option bytes; u_body : nat → ReadStep }.

(** [agent.get(url).call()], [agent.post(url).header(..).send(body)] and the
    agent of a timeout in nanoseconds. *)
Class UreqAgent (G : Type) := {
  agent_call : G → Url → FetchMethod → UreqError + UreqResponse;
  agent_with_timeout : N → G }.
#[global] Hint Mode UreqAgent ! : typeclass_instances.

(** ** reqwest *)

(** A step of the body: a chunk, the end, or an error; a peer may never end. *)
Inductive ChunkStep := Chunk (b : bytes) | ChunkEnd | ChunkError (display : bytes).
Record ReqwestResponse := {
  r_status : N; r_content_type : option bytes; content_length : option N; chunks : nat → ChunkStep }.

(** [builder.send().await], and the client of a timeout. *)
Class ReqwestClient (G : Type) := {
  client_send : G → Url → FetchMethod → bytes + ReqwestResponse;
  client_with_timeout : N → G }.
#[global] Hint Mode ReqwestClient ! : typeclass_instances.

(** ** The synchronous client (pkix-revocation-http/src/clients/ureq.rs) *)
Module Ureq.
Definition DEFAULT_MAX_RESPONSE_SIZE : N := 10 * 1024 * 1024.
Definition DEFAULT_TIMEOUT : N := 30000000000.

Record UreqFetcher (G : Type) := { agent : G; max_response_size : N }.
Arguments agent {G}. Arguments max_response_size {G}.

Definition with_agent {G} (g : G) : UreqFetcher G :=
  {| agent := g; max_response_size := DEFAULT_MAX_RESPONSE_SIZE |}.
Definition with_max_response_size {G} (self : UreqFetcher G) (n : N) : UreqFetcher G :=
  {| agent := agent self; max_response_size := n |}.

Definition map_ureq_err (e : UreqError) : FetchError :=
  match e with
  | StatusCode code => HttpStatus code
  | UreqTimeout other | UreqOther other => Transport (text other)
  end.

Section client.
Context {G : Type} `{UreqAgent G} `{HeaderText}.

Definition new : UreqFetcher G :=
  {| agent := agent_with_timeout DEFAULT_TIMEOUT; max_response_size := DEFAULT_MAX_RESPONSE_SIZE |}.

Definition fetch (self : UreqFetcher G) (req : FetchRequest) : FetchError + FetchResponse :=
  match agent_call (agent self) (fr_url req) (fr_method req) with
  | inl e => inl (map_ureq_err e)
  | inr response =>
      if negb (is_success (u_status response)) then inl (HttpStatus (u_status response))
      else
        let content_type := u_content_type response ≫= to_str in
        let limit := max_response_size self in
        match take_read_to_end (u_body response) (read_cap limit) 0 with
        | inl e => inl (Transport (text (io_display e)))
        | inr b =>
            if decide (limit < N.of_nat (length b))%N then inl TooLarge
            else inr {| resp_bytes := b; resp_content_type := content_type |}
        end
  end.

#[global] Instance UreqFetcher_impl : RevocationFetcher (UreqFetcher G) := fetch.
End client.
End Ureq.

(** ** The asynchronous client (pkix-revocation-http/src/clients/reqwest.rs)

    Its waits for the network are steps of a stream; the loop over the chunks
    takes as fuel the number of chunks it may look at. *)
Module Reqwest.
Definition DEFAULT_MAX_RESPONSE_SIZE : N := 10 * 1024 * 1024.
Definition DEFAULT_TIMEOUT : N := 30000000000.

Record ReqwestFetcher (G : Type) := { client : G; max_response_size : N }.
Arguments client {G}. Arguments max_response_size {G}.

Definition with_client {G} (g : G) : ReqwestFetcher G :=
  {| client := g; max_response_size := DEFAULT_MAX_RESPONSE_SIZE |}.
Definition with_max_response_size {G} (self : ReqwestFetcher G) (n : N) : ReqwestFetcher G :=
  {| client := client self; max_response_size := n |}.

(** [a.saturating_add(b)] on [usize] *)
Definition usize_saturating_add (a b : N) : N := N.min usize_max (a + b).

(** The loop over the chunks from a step of the stream; none while it still
    runs after [fuel] chunks. *)
Fixpoint read_chunks (fuel : nat) (limit : N) (stream : nat → ChunkStep) (step : nat) (b : bytes) :
    option (FetchError + bytes) :=
  match fuel with
  | 0 => None
  | S fuel =>
      match stream step with
      | Chunk chunk =>
          if decide (limit < usize_saturating_add (N.of_nat (length b)) (N.of_nat (length chunk)))%N
          then Some (inl TooLarge)
          else read_chunks fuel limit stream (S step) (b ++ chunk)
      | ChunkEnd => Some (inr b)
      | ChunkError e => Some (inl (Transport (text e)))
      end
  end.

Section client.
Context {G : Type} `{ReqwestClient G} `{HeaderText}.

Definition new : ReqwestFetcher G :=
  {| client := client_with_timeout DEFAULT_TIMEOUT; max_response_size := DEFAULT_MAX_RESPONSE_SIZE |}.

Definition fetch (fuel : nat) (self : ReqwestFetcher G) (req : FetchRequest) :
    option (FetchError + FetchResponse) :=
  match client_send (client self) (fr_url req) (fr_method req) with
  | inl e => Some (inl (Transport (text e)))
  | inr resp =>
      if negb (is_success (r_status resp)) then Some (inl (HttpStatus (r_status resp)))
      else
        let content_type := r_content_type resp ≫= to_str in
        let limit := max_response_size self in
        if match content_length resp with Some hint => bool_decide (limit < hint)%N | None => false end
        then Some (inl TooLarge)
        else
          r ← read_chunks fuel limit (chunks resp) 0 [];
          Some (match r with
                | inl e => inl e
                | inr b => inr {| resp_bytes := b; resp_content_type := content_type |}
                end)
  end.
End client.
End Reqwest.

(** ** The fetcher of issuer certificates (pkix-aia-http/src/lib.rs) *)
Module AiaHttp.
Definition DEFAULT_MAX_RESPONSE_SIZE : N := 1024 * 1024.
Definition DEFAULT_TIMEOUT : N := 10000000000.

Record HttpFetcher (G : Type) := { agent : G; max_response_size : N }.
Arguments agent {G}. Arguments max_response_size {G}.

Definition with_agent {G} (g : G) : HttpFetcher G :=
  {| agent := g; max_response_size := DEFAULT_MAX_RESPONSE_SIZE |}.
Definition with_max_response_size {G} (self : HttpFetcher G) (n : N) : HttpFetcher G :=
  {| agent := agent self; max_response_size := n |}.

(** [uri.split_once(':')] *)
Definition split_once (c : N) (s : bytes) : option (bytes * bytes) :=
  match list_find (c =.) s with
  | Some (i, _) => Some (take i s, drop (S i) s)
  | None => None
  end.
Definition eq_ignore_ascii_case (a b : bytes) : bool := bool_decide (lower a = lower b).

Definition is_http_scheme (uri : Uri) : bool :=
  match split_once 58%N uri with
  | Some (s, _) => eq_ignore_ascii_case s (str "http") || eq_ignore_ascii_case s (str "https")
  | None => false
  end.

Definition map_ureq_err (e : UreqError) : AiaError :=
  match e with
  | StatusCode code => Aia.HttpStatus code
  | UreqTimeout _ => Timeout
  | UreqOther other => Aia.IoFailure ErrorKind.Other (text other)
  end.

Section client.
Context {G : Type} `{UreqAgent G}.

Definition new : HttpFetcher G :=
  {| agent := agent_with_timeout DEFAULT_TIMEOUT; max_response_size := DEFAULT_MAX_RESPONSE_SIZE |}.

Definition fetch (self : HttpFetcher G) (uri : Uri) : AiaError + bytes :=
  if negb (is_http_scheme uri) then inl (UriUnsupported uri)
  else
    match agent_call (agent self) uri Get with
    | inl e => inl (map_ureq_err e)
    | inr response =>
        if negb (is_success (u_status response)) then inl (Aia.HttpStatus (u_status response))
        else
          let limit := max_response_size self in
          match take_read_to_end (u_body response) (read_cap limit) 0 with
          | inl e => inl (Aia.IoFailure (io_kind e) (text (io_display e)))
          | inr b =>
              let read_count := N.of_nat (length b) in
              if decide (limit < read_count)%N then inl (ResponseTooLarge limit read_count)
              else inr b
          end
    end.

#[global] Instance HttpFetcher_impl : AiaFetcher (HttpFetcher G) := {|
  Aia.fetch := fetch; batch_fetch := default_batch_fetch fetch |}.
End client.
End AiaHttp.
