(* ===== verification/HttpClientsSpec.v ===== *)
(** * What the HTTP clients promise

    The three clients agree on every answer of a server: a status other than
    success, a body over the cap and a body within it.  A peer that never stops
    sending is cut off at the cap. *)
From S2P Require Import Prelude X509 CertChecks Aia RevFetch LintTypes TrustStore TrustStoreSpec HttpClients.

(** ** Bodies *)

(** A body that is served octet by octet, and one in chunks. *)
Definition serves (body : nat → ReadStep) (l : bytes) : Prop :=
  reads body 0 l ∧ body (length l) = Eof.
Definition streams (stream : nat → ChunkStep) (cs : list bytes) : Prop :=
  (∀ i c, cs !! i = Some c → stream i = Chunk c) ∧ stream (length cs) = ChunkEnd.

Lemma reads_take body pos l n : reads body pos l → reads body pos (take n l).
Proof. intros Hr i b Hb. apply lookup_take_Some in Hb as [Hb _]. by apply Hr. Qed.

(** Below the largest cap a body is read whole, or one octet past the cap. *)
Lemma capped_body body l limit :
  (limit < u64_max)%N → serves body l →
  take_read_to_end body (read_cap limit) 0 = inr (take (S (N.to_nat limit)) l).
Proof.
  intros Hlim [Hr He].
  assert (Hcap : read_cap limit = S (N.to_nat limit))
    by (unfold read_cap, u64_saturating_add, u64_max in *; lia).
  rewrite Hcap. apply take_read_to_end_spec. split; [by apply reads_take|].
  rewrite length_take. destruct (decide (length l < S (N.to_nat limit))) as [Hl|Hl]; [right|left; lia].
  rewrite Nat.min_r by lia. split; [lia|done].
Qed.

(** The chunks [cs] follow those that gave [b]. *)
Lemma read_chunks_streams limit stream cs step b fuel :
  (limit < u64_max)%N → (N.of_nat (length b) ≤ limit)%N →
  (∀ i c, cs !! i = Some c → stream (step + i) = Chunk c) → stream (step + length cs) = ChunkEnd →
  length cs < fuel →
  Reqwest.read_chunks fuel limit stream step b =
    Some (if decide (limit < N.of_nat (length (b ++ concat cs)))%N then inl TooLarge
          else inr (b ++ concat cs)).
Proof.
  intros Hlim. revert cs step b. induction fuel as [|fuel IH]; intros cs step b Hb Hcs Hend Hfuel; [lia|].
  cbn [Reqwest.read_chunks]. destruct cs as [|c cs].
  { cbn in Hend. rewrite Nat.add_0_r in Hend. rewrite Hend. cbn [concat]. rewrite app_nil_r.
    by rewrite decide_False by lia. }
  pose proof (Hcs 0 c eq_refl) as Hc. rewrite Nat.add_0_r in Hc. rewrite Hc. cbn [concat].
  assert (Hsat : (limit < Reqwest.usize_saturating_add (N.of_nat (length b)) (N.of_nat (length c)) ↔
      limit < N.of_nat (length (b ++ c)))%N).
  { rewrite length_app, Nat2N.inj_add. unfold Reqwest.usize_saturating_add, usize_max, u64_max in *. lia. }
  rewrite (decide_ext _ _ _ _ Hsat). rewrite !(app_assoc b c).
  destruct (decide (limit < N.of_nat (length (b ++ c)))%N) as [Hover|Hin].
  { rewrite decide_True; [done|]. rewrite length_app in *. rewrite length_app. lia. }
  apply IH; [lia| | |cbn in Hfuel; lia].
  - intros i c' Hi. rewrite Nat.add_succ_comm. by apply Hcs.
  - rewrite Nat.add_succ_comm. exact Hend.
Qed.

(** A peer that never ends is cut off, unless it sends empty chunks for ever. *)
Lemma read_chunks_bounded limit stream step b fuel :
  (limit < u64_max)%N → (∀ i, stream i ≠ Chunk []) →
  (N.of_nat (length b) ≤ limit)%N → N.to_nat limit - length b < fuel - 1 →
  ∃ r, Reqwest.read_chunks fuel limit stream step b = Some r ∧
    match r with inr b' => (N.of_nat (length b') ≤ limit)%N | inl _ => True end.
Proof.
  intros Hlim Hne. revert step b. induction fuel as [|fuel IH]; intros step b Hb Hfuel; [lia|].
  cbn [Reqwest.read_chunks]. destruct (stream step) as [c| |e] eqn:Hc; [|by eexists|by eexists].
  destruct (decide _) as [|Hin]; [by eexists|].
  assert (c ≠ []) as Hc0 by (intros ->; by eapply Hne). assert (0 < length c) by (destruct c; [done|cbn; lia]).
  unfold Reqwest.usize_saturating_add, usize_max, u64_max in *.
  apply IH; rewrite length_app; lia.
Qed.

(** ** One server, three clients *)

(** What a server says to a request: a status, a type and a body. *)
Record Answer := { an_status : N; an_type : option bytes; an_body : bytes }.

(** ureq reports a status of 400 or more as an error, as it is configured by
    default, and hands the other answers over. *)
Definition ureq_gives (a : Answer) (r : UreqError + UreqResponse) : Prop :=
  (r = inl (StatusCode (an_status a)) ∧ (400 ≤ an_status a)%N) ∨
  ∃ resp, r = inr resp ∧ u_status resp = an_status a ∧ u_content_type resp = an_type a ∧
    serves (u_body resp) (an_body a).
(** reqwest hands every answer over, in chunks; the announced length, if there
    is one, is that of the body. *)
Definition reqwest_gives (a : Answer) (n : nat) (r : bytes + ReqwestResponse) : Prop :=
  ∃ resp cs, r = inr resp ∧ r_status resp = an_status a ∧ r_content_type resp = an_type a ∧
    streams (chunks resp) cs ∧ length cs = n ∧ concat cs = an_body a ∧
    (content_length resp = None ∨ content_length resp = Some (N.of_nat (length (an_body a)))).

Section agree.
Context `{HeaderText}.

(** What every client makes of an answer. *)
Definition delivered (limit : N) (a : Answer) : FetchError + FetchResponse :=
  if negb (is_success (an_status a)) then inl (HttpStatus (an_status a))
  else if decide (limit < N.of_nat (length (an_body a)))%N then inl TooLarge
  else inr {| resp_bytes := an_body a; resp_content_type := an_type a ≫= to_str |}.

Lemma not_success_400 n : (400 ≤ n)%N → is_success n = false.
Proof. intros Hn. apply bool_decide_eq_false. lia. Qed.

Lemma capped_length (limit : N) (l : bytes) :
  (limit < N.of_nat (length (take (S (N.to_nat limit)) l)))%N ↔ (limit < N.of_nat (length l))%N.
Proof. rewrite length_take. lia. Qed.

Lemma ureq_delivers {G} `{UreqAgent G} (self : Ureq.UreqFetcher G) req a :
  (Ureq.max_response_size self < u64_max)%N →
  ureq_gives a (agent_call (Ureq.agent self) (fr_url req) (fr_method req)) →
  Ureq.fetch self req = delivered (Ureq.max_response_size self) a.
Proof.
  intros Hlim Hg. unfold Ureq.fetch, delivered.
  destruct Hg as [[-> H4]|(resp & -> & Hst & Hct & Hb)]; [by rewrite not_success_400 by done|].
  rewrite Hst, Hct. destruct (negb _); [done|]. rewrite (capped_body _ _ _ Hlim Hb).
  rewrite (decide_ext _ _ _ _ (capped_length _ _)). destruct (decide _); [done|].
  rewrite take_ge by lia. done.
Qed.

Lemma reqwest_delivers {G} `{ReqwestClient G} (self : Reqwest.ReqwestFetcher G) req a n fuel :
  (Reqwest.max_response_size self < u64_max)%N →
  reqwest_gives a n (client_send (Reqwest.client self) (fr_url req) (fr_method req)) → n < fuel →
  Reqwest.fetch fuel self req = Some (delivered (Reqwest.max_response_size self) a).
Proof.
  intros Hlim (resp & cs & Hr & Hst & Hct & [Hcs Hend] & Hn & Hb & Hlen) Hfuel.
  unfold Reqwest.fetch, delivered. rewrite Hr, Hst, Hct. destruct (negb _); [done|].
  rewrite (read_chunks_streams _ (chunks resp) cs 0 []) by (done || (cbn; lia)). rewrite app_nil_l, Hb.
  destruct (decide (Reqwest.max_response_size self < N.of_nat (length (an_body a)))%N) as [Hov|Hov].
  - destruct Hlen as [-> | ->]; [done|]. by rewrite bool_decide_true.
  - destruct Hlen as [-> | ->]; [done|]. by rewrite bool_decide_false.
Qed.

(** [http] or [https] in any case of the letters, before the first colon. *)
Definition http_scheme (uri : Uri) : Prop :=
  ∃ s r, uri = s ++ 58%N :: r ∧ (lower s = str "http" ∨ lower s = str "https").

Lemma lower_no_colon s t : lower s = t → 58%N ∉ t → 58%N ∉ s.
Proof.
  intros <- Ht Hs. apply Ht. unfold lower. apply list_elem_of_fmap. by exists 58%N.
Qed.

Lemma is_http_scheme_spec uri : AiaHttp.is_http_scheme uri = true ↔ http_scheme uri.
Proof.
  unfold AiaHttp.is_http_scheme, AiaHttp.split_once, http_scheme, AiaHttp.eq_ignore_ascii_case.
  assert (Hhttp : ∀ s, lower s = str "http" ∨ lower s = str "https" → 58%N ∉ s).
  { intros s [Hs|Hs]; eapply lower_no_colon; [exact Hs|by apply (bool_decide_unpack _)|exact Hs|by apply (bool_decide_unpack _)]. }
  destruct (list_find (58%N =.) uri) as [[i x]|] eqn:Hf.
  - apply list_find_Some in Hf as (Hi & Hx & Hbefore). subst x.
    rewrite orb_true_iff, !bool_decide_eq_true. split.
    + intros Hs. exists (take i uri), (drop (S i) uri). split; [by rewrite take_drop_middle|done].
    + intros (s & r & -> & Hs). pose proof (Hhttp s Hs) as Hns.
      assert (i = length s) as ->; [|by rewrite take_app_length].
      destruct (lt_eq_lt_dec i (length s)) as [[Hlt|]|Hgt]; [|done|].
      * rewrite lookup_app_l in Hi by done. apply list_elem_of_lookup_2 in Hi. done.
      * exfalso. eapply (Hbefore (length s) 58%N); [by apply list_lookup_middle|done|done].
  - split; [done|]. intros (s & r & -> & _). exfalso.
    apply list_find_None in Hf. rewrite Forall_forall in Hf. eapply (Hf 58%N); [set_solver|done].
Qed.

(** The errors of the fetcher of issuers. *)
Definition as_aia (limit : N) (r : FetchError + FetchResponse) : AiaError + bytes :=
  match r with
  | inr resp => inr (resp_bytes resp)
  | inl (HttpStatus code) => inl (Aia.HttpStatus code)
  | inl TooLarge => inl (ResponseTooLarge limit (limit + 1))
  | inl (Transport e) => inl (Aia.IoFailure ErrorKind.Other e)
  end.

Lemma aia_delivers {G} `{UreqAgent G} (self : AiaHttp.HttpFetcher G) uri a :
  (AiaHttp.max_response_size self < u64_max)%N →
  http_scheme uri → ureq_gives a (agent_call (AiaHttp.agent self) uri Get) →
  AiaHttp.fetch self uri =
    as_aia (AiaHttp.max_response_size self) (delivered (AiaHttp.max_response_size self) a).
Proof.
  intros Hlim Hs Hg. unfold AiaHttp.fetch, delivered.
  apply is_http_scheme_spec in Hs. rewrite Hs. cbn [negb].
  destruct Hg as [[-> H4]|(resp & -> & Hst & _ & Hb)]; [by rewrite not_success_400 by done|].
  rewrite Hst. destruct (negb _); [done|]. rewrite (capped_body _ _ _ Hlim Hb).
  rewrite (decide_ext _ _ _ _ (capped_length _ _)). destruct (decide _) as [Hov|Hov]; cbn [as_aia resp_bytes].
  - f_equal. f_equal. rewrite length_take. lia.
  - by rewrite take_ge by lia.
Qed.

(** C39: given the same answer of a server and the same cap, the synchronous
    client, the asynchronous one, however the body is cut into chunks, and the
    fetcher of issuer certificates deliver the same: the status when it is no
    success, a refusal when the body is over the cap, and else the whole body;
    and the fetcher of issuers calls nobody for another scheme than http and
    https. *)
Theorem clients_agree {G G'} `{UreqAgent G} `{ReqwestClient G'} (u : Ureq.UreqFetcher G)
    (r : Reqwest.ReqwestFetcher G') (h : AiaHttp.HttpFetcher G) req a limit n fuel
    (Hlimit : (limit < u64_max)%N) (Hu : Ureq.max_response_size u = limit)
    (Hr : Reqwest.max_response_size r = limit) (Hh : AiaHttp.max_response_size h = limit)
    (Hureq : ureq_gives a (agent_call (Ureq.agent u) (fr_url req) (fr_method req)))
    (Hreqwest : reqwest_gives a n (client_send (Reqwest.client r) (fr_url req) (fr_method req)))
    (Haia : ureq_gives a (agent_call (AiaHttp.agent h) (fr_url req) Get)) (Hfuel : n < fuel) :
  Ureq.fetch u req = delivered limit a ∧
  Reqwest.fetch fuel r req = Some (delivered limit a) ∧
  (http_scheme (fr_url req) → AiaHttp.fetch h (fr_url req) = as_aia limit (delivered limit a)) ∧
  (¬ http_scheme (fr_url req) → AiaHttp.fetch h (fr_url req) = inl (UriUnsupported (fr_url req))).
Proof.
  split_and!.
  - rewrite <-Hu in *. by apply ureq_delivers.
  - rewrite <-Hr in *. by eapply reqwest_delivers.
  - intros Hs. rewrite <-Hh in *. by apply aia_delivers.
  - intros Hs. unfold AiaHttp.fetch.
    destruct (AiaHttp.is_http_scheme _) eqn:He; [by apply is_http_scheme_spec in He|done].
Qed.
End agree.

(** ** A server on the network

    One answer through the three clients. *)
(** A server that answers three octets, at once or in two chunks. *)
Definition three : Answer := {| an_status := 200; an_type := None; an_body := [1; 2; 3]%N |}.
#[local] Instance toy_header : HeaderText := λ _, None.
#[local] Instance toy_ureq : UreqAgent unit := {|
  agent_call _ _ _ := inr {| u_status := 200; u_content_type := None;
    u_body := λ i, match [1; 2; 3]%N !! i with Some b => Octet b | None => Eof end |};
  agent_with_timeout _ := tt |}.
#[local] Instance toy_reqwest : ReqwestClient unit := {|
  client_send _ _ _ := inr {| r_status := 200; r_content_type := None; content_length := Some 3%N;
    chunks := λ i, match [[1]; [2; 3]]%N !! i with Some c => Chunk c | None => ChunkEnd end |};
  client_with_timeout _ := tt |}.

Lemma clients_agree_witness :
  let u : Ureq.UreqFetcher unit := Ureq.with_max_response_size Ureq.new 2 in
  let r : Reqwest.ReqwestFetcher unit := Reqwest.with_max_response_size Reqwest.new 2 in
  let h : AiaHttp.HttpFetcher unit := AiaHttp.with_max_response_size AiaHttp.new 2 in
  Ureq.fetch u (fetch_get (str "HTTP://a")) = inl TooLarge ∧
  Reqwest.fetch 3 r (fetch_get (str "HTTP://a")) = Some (inl TooLarge) ∧
  AiaHttp.fetch h (str "HTTP://a") = inl (ResponseTooLarge 2 3).
Proof.
  intros u r h.
  assert (Hu : ureq_gives three (agent_call (Ureq.agent u) (str "HTTP://a") Get)).
  { right. eexists. split_and!; [reflexivity..|]. split; [|reflexivity].
    intros [|[|[|i]]] b Hb; [injection Hb as <-; reflexivity..|by rewrite lookup_ge_None_2 in Hb by (cbn; lia)]. }
  assert (Hr : reqwest_gives three 2 (client_send (Reqwest.client r) (str "HTTP://a") Get)).
  { eexists _, [[1]; [2; 3]]%N. split_and!; [reflexivity..| |reflexivity|reflexivity|by right].
    split; [|reflexivity]. intros [|[|i]] b Hb; [injection Hb as <-; reflexivity..|done]. }
  destruct (clients_agree u r h (fetch_get (str "HTTP://a")) three 2 2 3 eq_refl eq_refl eq_refl eq_refl
    Hu Hr Hu ltac:(lia)) as (H1 & H2 & H3 & _).
  split; [exact H1|]. split; [exact H2|]. apply H3.
  exists (str "HTTP"), (str "//a"). split; [reflexivity|by left].
Defined.
