(* ===== verification/AsyncRev.v ===== *)
(** * Asynchronous revocation checking (pkix-revocation-http/src:
    async_fetcher.rs, async_crl.rs, async_ocsp.rs)

    An [async fn] is the computation that it is between its waits: it is done,
    or waits for the answer to a request and goes on with it.  What drives it is
    the caller's runtime.  Whatever the order in which a runtime resumes checks
    that wait, each gives what the synchronous check gives, with the same
    requests, and all are done after as many turns as there are requests. *)
From stdpp Require Import relations.
From S2P Require Import Prelude X509 PathTypes Verifier Samples CertChecks Revocation SignerDiscovery Crl Ocsp Chain RevFetch RevHttpSpec.

Inductive Async (A : Type) :=
| Ready (a : A)
| Waiting (req : FetchRequest) (k : FetchError + FetchResponse → Async A).
Arguments Ready {A}. Arguments Waiting {A}.

(** [trait AsyncRevocationFetcher]: the answer that [fetch(req).await] gives. *)
Class AsyncRevocationFetcher (F : Type) := async_fetch : F → FetchRequest → FetchError + FetchResponse.
#[global] Hint Mode AsyncRevocationFetcher ! : typeclass_instances.

(** [trait AsyncRevocationChecker], with the default for trust anchors. *)
Class AsyncRevocationChecker (C : Type) := {
  async_check_revocation : C → Certificate → Certificate → Async (RevResult unit);
  async_check_revocation_against_anchor : C → Certificate → TrustAnchor → Async (RevResult unit) }.
#[global] Hint Mode AsyncRevocationChecker ! : typeclass_instances.
Definition default_async_check_against_anchor (_ : Certificate) (_ : TrustAnchor) :
    Async (RevResult unit) := Ready (Ok tt).

Record AsyncHttpCrlFetcher (F V : Type) := { ac_fetcher : F; ac_verifier : V; ac_now_unix : N }.
Arguments ac_fetcher {F V}. Arguments ac_verifier {F V}. Arguments ac_now_unix {F V}.
Record AsyncHttpOcspFetcher (F V : Type) :=
  { ao_fetcher : F; ao_verifier : V; ao_now_unix : N; ao_hash_alg : OcspHashAlg }.
Arguments ao_fetcher {F V}. Arguments ao_verifier {F V}. Arguments ao_now_unix {F V}.
Arguments ao_hash_alg {F V}.
Definition async_http_crl_fetcher_new {F V} (f : F) (v : V) (now : N) : AsyncHttpCrlFetcher F V :=
  {| ac_fetcher := f; ac_verifier := v; ac_now_unix := now |}.
Definition async_http_ocsp_fetcher_new {F V} (f : F) (v : V) (now : N) : AsyncHttpOcspFetcher F V :=
  {| ao_fetcher := f; ao_verifier := v; ao_now_unix := now; ao_hash_alg := Sha256Alg |}.
Definition async_with_hash_alg {F V} (self : AsyncHttpOcspFetcher F V) (alg : OcspHashAlg) :
    AsyncHttpOcspFetcher F V :=
  {| ao_fetcher := ao_fetcher self; ao_verifier := ao_verifier self;
     ao_now_unix := ao_now_unix self; ao_hash_alg := alg |}.

Section checkers.
Context `{PathAsn1} `{KeyIdAsn1} `{CrlAsn1} `{OcspAsn1} `{Digests} `{ChainAsn1}.
Context `{OcspRequestLib} `{SerialDisplay}.
Context {F V : Type} `{SignatureVerifier V}.

(** [for url in &urls] *)
Fixpoint async_crl_loop (self : AsyncHttpCrlFetcher F V) (cert issuer : Certificate)
    (all urls : list Url) (failures : list string) : Async (RevResult unit) :=
  match urls with
  | [] => Ready (Err (all_urls_failed all failures))
  | url :: urls =>
      Waiting (fetch_get url) (λ answer,
        match answer with
        | inr resp =>
            match crl_checker_new (resp_bytes resp) (ac_now_unix self) (ac_verifier self) with
            | Ok checker => Ready (check_revocation checker cert issuer)
            | Err e => async_crl_loop self cert issuer all urls
                (failures ++ [display_url url +:+ ": CRL parse: " +:+ rev_error_display e])
            | Panic => Ready Panic
            end
        | inl e => async_crl_loop self cert issuer all urls
            (failures ++ [display_url url +:+ ": " +:+ fetch_error_display e])
        end)
  end.

Definition async_crl_check (self : AsyncHttpCrlFetcher F V) (cert issuer : Certificate) :
    Async (RevResult unit) :=
  match extract_cdp_http_urls cert with
  | Err e => Ready (Err (RevocationFetchFailed
      ("cRLDistributionPoints extension parse failed: " +:+ extract_error_display e)))
  | Panic => Ready Panic
  | Ok urls =>
      if decide (urls = []) then Ready (Ok tt) else async_crl_loop self cert issuer urls urls []
  end.

Fixpoint async_ocsp_loop (self : AsyncHttpOcspFetcher F V) (cert issuer : Certificate) (body : bytes)
    (all urls : list Url) (failures : list string) : Async (RevResult unit) :=
  match urls with
  | [] => Ready (Err (all_urls_failed all failures))
  | url :: urls =>
      Waiting (fetch_post url body OCSP_REQUEST_CT) (λ answer,
        match answer with
        | inr resp =>
            match ocsp_checker_new (resp_bytes resp) (ao_now_unix self) (ao_verifier self) with
            | Ok checker => Ready (check_revocation checker cert issuer)
            | Err e => async_ocsp_loop self cert issuer body all urls
                (failures ++ [display_url url +:+ ": OCSP parse: " +:+ rev_error_display e])
            | Panic => Ready Panic
            end
        | inl e => async_ocsp_loop self cert issuer body all urls
            (failures ++ [display_url url +:+ ": " +:+ fetch_error_display e])
        end)
  end.

Definition async_ocsp_check (self : AsyncHttpOcspFetcher F V) (cert issuer : Certificate) :
    Async (RevResult unit) :=
  match build_ocsp_request cert issuer (ao_hash_alg self) with
  | Err e => Ready (Err (RevocationFetchFailed
      ("OCSP request build failed: " +:+ build_error_display e)))
  | Panic => Ready Panic
  | Ok req_bytes =>
      match extract_aia_http_urls cert with
      | Err e => Ready (Err (RevocationFetchFailed
          ("authorityInfoAccess extension parse failed: " +:+ extract_error_display e)))
      | Panic => Ready Panic
      | Ok aia =>
          if decide (aia_ocsp aia = []) then Ready (Ok tt)
          else async_ocsp_loop self cert issuer (req_body req_bytes) (aia_ocsp aia) (aia_ocsp aia) []
      end
  end.

#[global] Instance AsyncHttpCrlFetcher_impl : AsyncRevocationChecker (AsyncHttpCrlFetcher F V) := {|
  async_check_revocation := async_crl_check;
  async_check_revocation_against_anchor _ := default_async_check_against_anchor |}.
#[global] Instance AsyncHttpOcspFetcher_impl : AsyncRevocationChecker (AsyncHttpOcspFetcher F V) := {|
  async_check_revocation := async_ocsp_check;
  async_check_revocation_against_anchor _ := default_async_check_against_anchor |}.
End checkers.

(** ** A runtime *)
Section runtime.
Context {A F : Type} `{AsyncRevocationFetcher F} (f : F).

(** A task run alone: its requests and its result. *)
Fixpoint run_task (t : Async A) : list FetchRequest * A :=
  match t with
  | Ready a => ([], a)
  | Waiting req k => let (sent, a) := run_task (k (async_fetch f req)) in (req :: sent, a)
  end.
Definition requests_left (t : Async A) : nat := length (run_task t).1.
Definition is_ready (t : Async A) : Prop := ∃ a, t = Ready a.

(** One turn resumes any task that waits. *)
Inductive turn : list (Async A) → list (Async A) → Prop :=
| turn_at i req k tasks : tasks !! i = Some (Waiting req k) →
    turn tasks (<[i := k (async_fetch f req)]> tasks).

Lemma run_task_ready t : is_ready t ↔ requests_left t = 0.
Proof.
  unfold requests_left. split; [by intros [a ->]|]. destruct t as [a|req k]; [by exists a|].
  cbn. by destruct (run_task _).
Qed.

Lemma sum_list_with_insert {B} (g : B → nat) l i x y :
  l !! i = Some x → sum_list_with g (<[i := y]> l) + g x = sum_list_with g l + g y.
Proof.
  revert i. induction l as [|z l IH]; intros i Hi; [done|].
  destruct i as [|i].
  - injection Hi as ->. cbn. lia.
  - specialize (IH i Hi). change (<[S i := y]> (z :: l)) with (z :: <[i := y]> l).
    cbn [sum_list_with]. lia.
Qed.

(** The results do not change along the turns, and each turn sends a request. *)
Lemma poll_spec tasks tasks' :
  turn tasks tasks' →
  (λ t, (run_task t).2) <$> tasks' = (λ t, (run_task t).2) <$> tasks ∧
  sum_list_with requests_left tasks = S (sum_list_with requests_left tasks').
Proof.
  intros [i req k ts Hi].
  assert (Hr : run_task (Waiting req k) = (req :: (run_task (k (async_fetch f req))).1,
    (run_task (k (async_fetch f req))).2)) by (cbn; by destruct (run_task _)).
  split.
  - rewrite list_fmap_insert. apply list_insert_id. rewrite list_lookup_fmap, Hi.
    cbn [fmap option_fmap option_map]. by rewrite Hr.
  - pose proof (sum_list_with_insert requests_left _ _ _ (k (async_fetch f req)) Hi) as Hs.
    unfold requests_left at 2 in Hs. rewrite Hr in Hs. cbn [fst length] in Hs.
    unfold requests_left at 3 in Hs. lia.
Qed.

Lemma polls_spec n tasks tasks' :
  nsteps turn n tasks tasks' →
  (λ t, (run_task t).2) <$> tasks' = (λ t, (run_task t).2) <$> tasks ∧
  sum_list_with requests_left tasks = n + sum_list_with requests_left tasks'.
Proof.
  induction 1 as [|n x y z Hxy _ [IHr IHs]]; [done|]. apply poll_spec in Hxy as [Hr Hs].
  split; [by rewrite IHr|lia].
Qed.

(** A task waits exactly while requests are left. *)
Lemma turn_or_ready tasks : (∃ tasks', turn tasks tasks') ∨ Forall is_ready tasks.
Proof.
  destruct (decide (Forall (λ t, requests_left t = 0) tasks)) as [Hall|Hex].
  - right. eapply Forall_impl; [exact Hall|]. intros t. by rewrite run_task_ready.
  - left. apply not_Forall_Exists in Hex; [|apply _].
    apply Exists_exists in Hex as (t & [i Hi]%list_elem_of_lookup & Ht).
    destruct t as [a|req k]; [by destruct Ht|]. eexists. by apply (turn_at i req k).
Qed.

Lemma ready_when_none_left tasks :
  sum_list_with requests_left tasks = 0 ↔ Forall is_ready tasks.
Proof.
  induction tasks as [|t tasks IH]; [split; [by constructor|done]|]. rewrite Forall_cons, <-IH, run_task_ready. cbn. lia.
Qed.
End runtime.

(** ** The checks *)
Section checks.
Context `{PathAsn1} `{KeyIdAsn1} `{CrlAsn1} `{OcspAsn1} `{Digests} `{ChainAsn1}.
Context `{OcspRequestLib} `{SerialDisplay}.
Context {F V : Type} `{HF : RevocationFetcher F} `{SignatureVerifier V}.

(** The same transport on both sides. *)
#[local] Instance same_transport : AsyncRevocationFetcher F := HF.

(** The synchronous checkers with the fields of the asynchronous ones. *)
Definition sync_crl (self : AsyncHttpCrlFetcher F V) : HttpCrlFetcher F V :=
  {| hc_fetcher := ac_fetcher self; hc_verifier := ac_verifier self; hc_now_unix := ac_now_unix self |}.
Definition sync_ocsp (self : AsyncHttpOcspFetcher F V) : HttpOcspFetcher F V :=
  {| ho_fetcher := ao_fetcher self; ho_verifier := ao_verifier self; ho_now_unix := ao_now_unix self;
     ho_hash_alg := ao_hash_alg self |}.

Lemma async_crl_loop_sync self cert issuer all urls failures sent :
  http_crl_loop (sync_crl self) cert issuer all urls failures sent =
  let (reqs, r) := run_task (ac_fetcher self) (async_crl_loop self cert issuer all urls failures) in
  (sent ++ reqs, r).
Proof.
  revert failures sent. induction urls as [|url urls IH]; intros failures sent; cbn.
  { by rewrite app_nil_r. }
  unfold async_fetch, same_transport, fetch.
  destruct (HF _ _) as [e|resp].
  - rewrite IH. destruct (run_task _ _). by rewrite <-app_assoc.
  - destruct (crl_checker_new _ _ _) as [c|e|]; [done| |done].
    rewrite IH. destruct (run_task _ _). by rewrite <-app_assoc.
Qed.

Lemma async_ocsp_loop_sync self cert issuer body all urls failures sent :
  http_ocsp_loop (sync_ocsp self) cert issuer body all urls failures sent =
  let (reqs, r) := run_task (ao_fetcher self) (async_ocsp_loop self cert issuer body all urls failures) in
  (sent ++ reqs, r).
Proof.
  revert failures sent. induction urls as [|url urls IH]; intros failures sent; cbn.
  { by rewrite app_nil_r. }
  unfold async_fetch, same_transport, fetch.
  destruct (HF _ _) as [e|resp].
  - rewrite IH. destruct (run_task _ _). by rewrite <-app_assoc.
  - destruct (ocsp_checker_new _ _ _) as [c|e|]; [done| |done].
    rewrite IH. destruct (run_task _ _). by rewrite <-app_assoc.
Qed.

Lemma async_crl_check_sync self cert issuer :
  run_task (ac_fetcher self) (async_crl_check self cert issuer) =
    http_crl_check (sync_crl self) cert issuer.
Proof.
  unfold async_crl_check, http_crl_check. destruct (extract_cdp_http_urls cert) as [urls|e|]; [|done..].
  destruct (decide _); [done|]. rewrite async_crl_loop_sync. by destruct (run_task _ _).
Qed.
Lemma async_ocsp_check_sync self cert issuer :
  run_task (ao_fetcher self) (async_ocsp_check self cert issuer) =
    http_ocsp_check (sync_ocsp self) cert issuer.
Proof.
  unfold async_ocsp_check, http_ocsp_check.
  change (ho_hash_alg (sync_ocsp self)) with (ao_hash_alg self).
  destruct (build_ocsp_request _ _ _) as [b|e|]; [|done..].
  destruct (extract_aia_http_urls cert) as [aia|e|]; [|done..].
  destruct (decide _); [done|]. rewrite async_ocsp_loop_sync. by destruct (run_task _ _).
Qed.

(** Checks that run side by side. *)
Inductive Job :=
| CrlJob (self : AsyncHttpCrlFetcher F V) (cert issuer : Certificate)
| OcspJob (self : AsyncHttpOcspFetcher F V) (cert issuer : Certificate).
Definition uses (f : F) (j : Job) : Prop :=
  match j with CrlJob self _ _ => ac_fetcher self = f | OcspJob self _ _ => ao_fetcher self = f end.
Definition start (j : Job) : Async (RevResult unit) :=
  match j with
  | CrlJob self cert issuer => async_check_revocation self cert issuer
  | OcspJob self cert issuer => async_check_revocation self cert issuer
  end.
Definition alone (j : Job) : list FetchRequest * RevResult unit :=
  match j with
  | CrlJob self cert issuer => http_crl_check (sync_crl self) cert issuer
  | OcspJob self cert issuer => http_ocsp_check (sync_ocsp self) cert issuer
  end.

Lemma run_start f j : uses f j → run_task f (start j) = alone j.
Proof. destruct j; intros <-; [apply async_crl_check_sync|apply async_ocsp_check_sync]. Qed.

(** C40: of checks that run side by side over one transport, resumed in any
    order, each one that is done gives what the synchronous check gives; as
    many turns as all synchronous checks send requests finish them, there are
    never more, and as long as one is not done some turn is possible. *)
Theorem async_checks_agree (f : F) jobs n tasks (Huses : Forall (uses f) jobs)
    (Hturns : nsteps (turn f) n (start <$> jobs) tasks) :
  (∀ i j r, jobs !! i = Some j → tasks !! i = Some (Ready r) → r = (alone j).2) ∧
  n ≤ sum_list_with (λ j, length (alone j).1) jobs ∧
  (n = sum_list_with (λ j, length (alone j).1) jobs ↔ Forall is_ready tasks) ∧
  ((∃ tasks', turn f tasks tasks') ∨ Forall is_ready tasks).
Proof.
  apply polls_spec in Hturns as [Hresults Hsum].
  assert (Hstart : sum_list_with (requests_left f) (start <$> jobs) =
    sum_list_with (λ j, length (alone j).1) jobs).
  { clear -Huses. induction Huses as [|j jobs Hj _ IH]; [done|]. cbn. rewrite IH.
    unfold requests_left. by rewrite (run_start f j Hj). }
  split_and!; [|lia|rewrite <-(ready_when_none_left f); lia|apply turn_or_ready].
  intros i j r Hj Hr.
  assert (Hi : ((λ t, (run_task f t).2) <$> tasks) !! i = Some r) by (by rewrite list_lookup_fmap, Hr).
  rewrite Hresults, !list_lookup_fmap, Hj in Hi. injection Hi as <-.
  rewrite (run_start f j); [done|]. by eapply Forall_lookup_1.
Qed.
End checks.

(** ** Two checks of the same certificate *)
Module TwoChecks.
Import OnlineSample.
#[local] Instance toy_digests : Digests := {| sha1 := λ b, b; sha256 := λ b, b; sha384 := λ b, b; sha512 := λ b, b |}.
#[local] Instance toy_chain : ChainAsn1 := {|
  decode_certificate := λ _, inl "malformed"%string;
  decode_authority_info_access := λ _, inl "malformed"%string |}.
#[local] Instance toy_requests : OcspRequestLib := {|
  OcspRequestItem := unit; request_from_cert _ _ _ := inr tt; encode_request _ := inr [];
  decode_request _ := inr []; failed_error := "failed"%string |}.
#[local] Instance server : AsyncRevocationFetcher Server := Server_fetch.

Definition async_fetcher : AsyncHttpCrlFetcher Server SampleVerifier :=
  async_http_crl_fetcher_new {| answers := [0; 5; 200; 2]%N |} MkSampleVerifier 150.
Definition job : Job := CrlJob async_fetcher leaf ca1.

(** Both wait; the second one is resumed first, and then the first. *)
Lemma async_checks_agree_witness :
  ∃ tasks, nsteps (turn (ac_fetcher async_fetcher)) 2 (start <$> [job; job]) tasks ∧
    Forall is_ready tasks ∧
    ∀ r, tasks !! 0 = Some (Ready r) → r = Err (Revoked [2%N] None).
Proof.
  assert (Hsteps : ∃ tasks, nsteps (turn (ac_fetcher async_fetcher)) 2 (start <$> [job; job]) tasks).
  { eexists. eapply nsteps_l; [by eapply (turn_at _ 1)|].
    eapply nsteps_l; [by eapply (turn_at _ 0)|]. apply nsteps_O. }
  destruct Hsteps as [tasks Hn].
  assert (Huses : Forall (uses (ac_fetcher async_fetcher)) [job; job]) by (repeat constructor).
  destruct (async_checks_agree (ac_fetcher async_fetcher) [job; job] 2 tasks Huses Hn) as (Hr & _ & Hall & _).
  exists tasks. split; [exact Hn|]. split; [by apply Hall; vm_compute|].
  intros r H0. rewrite (Hr 0 job r eq_refl H0). vm_compute. reflexivity.
Defined.
End TwoChecks.
