(* ===== verification/DiffTest.v ===== *)
(** * The differential harness (pkix-difftest/src: lib.rs, classify.rs, report.rs)

    Chains from concatenated PEM, the class of a tuple of verdicts, and the
    reports over classified chains. *)
From S2P Require Import Prelude X509 Deviation Aia LintTypes TrustStore Json OscalEmit.

(** ** Verdicts and oracles *)
Inductive Verdict := Pass | Fail_ (reason : bytes).
#[global] Instance Verdict_eq_dec : EqDecision Verdict.
Proof. solve_decision. Defined.
Definition is_pass (v : Verdict) : bool := match v with Pass => true | Fail_ _ => false end.
Definition verdict_display (v : Verdict) : bytes :=
  match v with Pass => str "Pass" | Fail_ reason => str "Fail(" ++ reason ++ str ")" end.

Inductive OracleName := PkixPath | OpenSsl | Pyca.
#[global] Instance OracleName_eq_dec : EqDecision OracleName.
Proof. solve_decision. Defined.
Definition oracle_as_str (o : OracleName) : bytes :=
  str match o with PkixPath => "pkix-path" | OpenSsl => "openssl" | Pyca => "pyca" end.

(** ** Chains *)
Record Chain := {
  certs_der : list bytes; crls : list bytes; root_in_chain : bool; label : bytes;
  validation_time_unix : option N }.
Definition with_crls (self : Chain) (crls : list bytes) : Chain :=
  {| certs_der := certs_der self; crls := crls; root_in_chain := root_in_chain self;
     label := label self; validation_time_unix := validation_time_unix self |}.
Definition with_validation_time (self : Chain) (secs : N) : Chain :=
  {| certs_der := certs_der self; crls := crls self; root_in_chain := root_in_chain self;
     label := label self; validation_time_unix := Some secs |}.

Definition invalid_chain {A} (m : bytes) : result io_error A :=
  Err {| io_kind := ErrorKind.InvalidData; io_display := m |}.

(** *** PEM blocks *)
Definition find_subseq (haystack needle : bytes) : option nat :=
  if decide (needle = [] ∨ length haystack < length needle) then None
  else fst <$> list_find (λ w, w = needle) (windows (length needle) haystack).
Definition find_byte (haystack : bytes) (byte : N) : option nat :=
  fst <$> list_find (λ b, b = byte) haystack.

Definition BEGIN_MARK : bytes := str "-----BEGIN ".
Definition END_MARK : bytes := str "-----END ".

(** The block from the cursor: where it starts and ends, none when there is no
    other block. *)
Definition next_block (bs : bytes) (cursor : nat) : result io_error (option (nat * nat)) :=
  match find_subseq (drop cursor bs) BEGIN_MARK with
  | None => Ok None
  | Some rel_begin =>
      let block_start := cursor + rel_begin in
      match find_byte (drop block_start bs) 10%N with
      | None => invalid_chain (str "malformed PEM: BEGIN line has no terminating newline")
      | Some rel_eol =>
          let after_begin := block_start + rel_eol + 1 in
          match find_subseq (drop after_begin bs) END_MARK with
          | None => invalid_chain (str "malformed PEM: BEGIN block has no matching END marker")
          | Some rel_end =>
              let end_line_start := after_begin + rel_end in
              Ok (Some (block_start,
                match find_byte (drop end_line_start bs) 10%N with
                | Some n => end_line_start + n + 1
                | None => length bs
                end))
          end
      end
  end.

(** [while cursor < bytes.len()]; every block moves the cursor. *)
Fixpoint split_from (fuel : nat) (bs : bytes) (cursor : nat) : option (result io_error (list bytes)) :=
  if decide (length bs ≤ cursor) then Some (Ok [])
  else
    match fuel with
    | 0 => None
    | S fuel =>
        match next_block bs cursor with
        | Ok None => Some (Ok [])
        | Ok (Some (block_start, block_end)) =>
            match split_from fuel bs block_end with
            | None => None
            | Some rest => Some (
                blocks ← rest; Ok (take (block_end - block_start) (drop block_start bs) :: blocks))
            end
        | Err e => Some (Err e)
        | Panic => Some Panic
        end
    end.
Definition split_pem_blocks (bs : bytes) : option (result io_error (list bytes)) :=
  split_from (length bs) bs 0.

(** [pem_rfc7468::decode_vec]: the label and the contents, or the rendering of
    its error. *)
Class PemDecode := decode_vec : bytes → bytes + bytes * bytes.

Section chains.
Context `{Encode Name} `{DecodeOwned Certificate} `{PemDecode}.

Definition is_self_issued (cert : Certificate) : bool :=
  match to_der (subject (tbs_certificate cert)), to_der (issuer (tbs_certificate cert)) with
  | inr s, inr i => bool_decide (s = i)
  | _, _ => false
  end.

Definition detect_leaf_first (certs : list Certificate) : result io_error bool :=
  match certs with
  | [] => invalid_chain (str "empty chain")
  | [_] => Ok true
  | first :: _ =>
      last_cert ← index certs (length certs - 1);
      match is_self_issued first, is_self_issued last_cert with
      | false, true => Ok true
      | true, false => Ok false
      | false, false => invalid_chain
          (str "chain ordering ambiguous: neither end is self-issued (root not in chain?)")
      | true, true => invalid_chain (str "chain ordering ambiguous: both ends are self-issued")
      end
  end.

(** The loop over the blocks. *)
Fixpoint decode_blocks (blocks : list bytes) : result io_error (list (bytes * Certificate)) :=
  match blocks with
  | [] => Ok []
  | block :: blocks =>
      d ← match decode_vec block with
          | inl e => invalid_chain (str "PEM decode failed: " ++ e)
          | inr d => Ok d
          end;
      if decide (d.1 ≠ str "CERTIFICATE")
      then invalid_chain (str "expected CERTIFICATE PEM block, got " ++ d.1)
      else
        cert ← match from_der d.2 with
               | inl e => invalid_chain (str "certificate DER parse failed: " ++ str e)
               | inr cert => Ok cert
               end;
        rest ← decode_blocks blocks;
        Ok ((d.2, cert) :: rest)
  end.

Definition chain_of_blocks (blocks : list bytes) (label : bytes) : result io_error Chain :=
  if decide (blocks = []) then invalid_chain (str "no PEM CERTIFICATE blocks found")
  else
    decoded ← decode_blocks blocks;
    leaf_first ← detect_leaf_first (decoded.*2);
    Ok {| certs_der := if (leaf_first : bool) then decoded.*1 else reverse (decoded.*1);
          crls := []; root_in_chain := true; label := label; validation_time_unix := None |}.
Definition from_pem_bytes (bs label : bytes) : option (result io_error Chain) :=
  match split_pem_blocks bs with
  | None => None
  | Some split => Some (blocks ← split; chain_of_blocks blocks label)
  end.
End chains.

(** [std::fs::read] and [path.display()] *)
Class ReadFile (P : Type) := { fs_read : P → io_error + bytes; path_display : P → bytes }.
Definition from_pem_file `{Encode Name} `{DecodeOwned Certificate} `{PemDecode} {P} `{ReadFile P}
    (path : P) : option (result io_error Chain) :=
  match fs_read path with
  | inl e => Some (Err e)
  | inr bs => from_pem_bytes bs (path_display path)
  end.

(** ** Classification *)
Inductive Class_ :=
| LooserThanWild | StricterThanWild | OracleDivergence | DiagnosticDivergence | Agreement.
#[global] Instance Class_eq_dec : EqDecision Class_.
Proof. solve_decision. Defined.
Definition class_rank (c : Class_) : nat :=
  match c with
  | LooserThanWild => 0 | StricterThanWild => 1 | OracleDivergence => 2
  | DiagnosticDivergence => 3 | Agreement => 4
  end.
Definition class_name (c : Class_) : string :=
  match c with
  | LooserThanWild => "LooserThanWild" | StricterThanWild => "StricterThanWild"
  | OracleDivergence => "OracleDivergence" | DiagnosticDivergence => "DiagnosticDivergence"
  | Agreement => "Agreement"
  end.

Abbreviation Tuple := (list (OracleName * Verdict)).
Record Classified := {
  c_name : bytes; c_verdicts : Tuple; c_class : Class_; ground_truth_agreement : option bool }.

Definition all_reasons_match (tuple : Tuple) : bool :=
  match snd <$> tuple with
  | [] => true
  | first :: iter => forallb (λ v, bool_decide (v = first)) iter
  end.
Definition verdicts_match_pass_fail (a b : Verdict) : bool := bool_decide (is_pass a = is_pass b).

(** [others.windows(2).all(..)] *)
Fixpoint neighbours_agree (l : list Verdict) : bool :=
  match l with
  | a :: (b :: _) as rest => bool_decide (is_pass a = is_pass b) && neighbours_agree rest
  | _ => true
  end.

Definition classify_with_pkix_path (pkix : Verdict) (others : list Verdict) (full : Tuple) : Class_ :=
  let pkix_pass := is_pass pkix in
  let any_oracle_pass := existsb is_pass others in
  let any_oracle_fail := existsb (λ v, negb (is_pass v)) others in
  if pkix_pass && any_oracle_fail then LooserThanWild
  else if negb pkix_pass && any_oracle_pass then StricterThanWild
  else if negb (neighbours_agree others) then OracleDivergence
  else if all_reasons_match full then Agreement else DiagnosticDivergence.

Definition classify_oracles_only (verdicts : Tuple) : Class_ :=
  if decide (verdicts = []) then Agreement
  else
    let pass_states := (λ p, is_pass p.2) <$> verdicts in
    if negb (forallb (λ p, p) pass_states || forallb negb pass_states) then OracleDivergence
    else if all_reasons_match verdicts then Agreement else DiagnosticDivergence.

Definition pkix_path_verdict (verdicts : Tuple) : option Verdict :=
  (λ p, p.2.2) <$> list_find (λ p, p.1 = PkixPath) verdicts.
Definition other_verdicts (verdicts : Tuple) : list Verdict :=
  snd <$> filter (λ p, p.1 ≠ PkixPath) verdicts.

Definition classify (name : bytes) (verdicts : Tuple) (expected : option Verdict) : Classified :=
  {| c_name := name; c_verdicts := verdicts;
     c_class := match pkix_path_verdict verdicts with
                | Some pkix => classify_with_pkix_path pkix (other_verdicts verdicts) verdicts
                | None => classify_oracles_only verdicts
                end;
     ground_truth_agreement :=
       e ← expected; pkix ← pkix_path_verdict verdicts; Some (verdicts_match_pass_fail pkix e) |}.

(** [sort_by] is stable. *)
Definition severity_cmp (a b : Classified) : comparison :=
  match Nat.compare (class_rank (c_class a)) (class_rank (c_class b)) with
  | Eq => slice_cmp (c_name a) (c_name b)
  | c => c
  end.
Fixpoint insert_by {A} (cmp : A → A → comparison) (x : A) (l : list A) : list A :=
  match l with
  | [] => [x]
  | y :: l => match cmp x y with Gt => y :: insert_by cmp x l | _ => x :: y :: l end
  end.
Definition sort_by {A} (cmp : A → A → comparison) (l : list A) : list A := foldr (insert_by cmp) [] l.
Definition sort_by_severity (l : list Classified) : list Classified := sort_by severity_cmp l.

(** ** Reports *)
Record MarkdownOptions := { sample_size : nat; md_title : option bytes }.
Definition markdown_options_default : MarkdownOptions := {| sample_size := 10; md_title := None |}.

Definition CLASSES_WORST_FIRST : list Class_ :=
  [LooserThanWild; StricterThanWild; OracleDivergence; DiagnosticDivergence; Agreement].

(** [counts[rank] += 1] from an array of five zeros *)
Definition count_per_class (l : list Classified) : list nat :=
  foldl (λ counts c, alter S (class_rank (c_class c)) counts) [0; 0; 0; 0; 0] l.
Definition count_of (counts : list nat) (c : Class_) : nat := default 0 (counts !! class_rank c).

Definition fmt_count (n : nat) : bytes := fmt_u64 (N.of_nat n).
Definition line (s : bytes) : bytes := s ++ [10%N].

(** [s.replace(c, with)] for a character *)
Definition replace_char (c : N) (w s : bytes) : bytes := s ≫= λ x, if decide (x = c) then w else [x].
Definition escape_md (s : bytes) : bytes :=
  replace_char 124%N [92; 124]%N (replace_char 96%N [92; 96]%N s).

Definition write_chain_block (c : Classified) : bytes :=
  line (str "### `" ++ escape_md (c_name c) ++ str "`") ++ line [] ++
  match ground_truth_agreement c with
  | Some agreement => line (str "* Ground truth: " ++ str (if agreement then "matches" else "DISAGREES"))
  | None => []
  end ++
  line (str "* Class: `" ++ str (class_name (c_class c)) ++ str "`") ++
  line (str "* Verdicts:") ++
  (c_verdicts c ≫= λ p, line (str "  * " ++ oracle_as_str p.1 ++ str ": " ++ escape_md (verdict_display p.2))) ++
  line [].

(** Up to [n] chains, and how many are left out. *)
Definition write_samples (n : nat) (chains : list Classified) (omitted : bytes) : bytes :=
  (take n chains ≫= write_chain_block) ++
  (if decide (n < length chains)
   then line (str "_(" ++ fmt_count (length chains - n) ++ omitted) ++ line []
   else []).

Definition disagreements (l : list Classified) : list Classified :=
  filter (λ c, ground_truth_agreement c = Some false) l.
Definition in_class (class : Class_) (l : list Classified) : list Classified :=
  filter (λ c, c_class c = class) l.

(** The text, when the writer takes everything. *)
Definition write_markdown (classified : list Classified) (options : MarkdownOptions) : bytes :=
  let title := default (str "pkix-difftest report") (md_title options) in
  let counts := count_per_class classified in
  let gt := disagreements classified in
  line (str "# " ++ title) ++ line [] ++ line (str "## Summary") ++ line [] ++
  line (str "| Class | Count |") ++ line (str "|---|---:|") ++
  (CLASSES_WORST_FIRST ≫= λ class,
     line (str "| " ++ str (class_name class) ++ str " | " ++ fmt_count (count_of counts class) ++ str " |")) ++
  line (str "| **Total** | " ++ fmt_count (length classified) ++ str " |") ++ line [] ++
  (if decide (gt = []) then []
   else
     line (str "## Ground-truth disagreements") ++ line [] ++
     line (fmt_count (length gt) ++ str " chain(s) where pkix-path's verdict disagrees with the corpus's expected verdict. This category is orthogonal to oracle-classification — it counts pkix-path-vs-PKITS only, regardless of what the other oracles say.") ++
     line [] ++
     write_samples (sample_size options) gt
       (str " additional ground-truth disagreement(s) omitted; see JSON report.)_")) ++
  (if decide (sample_size options = 0) then []
   else
     CLASSES_WORST_FIRST ≫= λ class,
       let chains := in_class class classified in
       if decide (chains = []) then []
       else
         line (str "## " ++ str (class_name class) ++ str " (" ++ fmt_count (length chains) ++ str ")") ++
         line [] ++
         write_samples (sample_size options) chains
           (str " additional sample(s) in this class omitted; see JSON report.)_")).

Definition json_count (n : nat) : Value := Number (fmt_count n).
Definition verdict_pair_to_json (pair : OracleName * Verdict) : Value :=
  obj [("oracle", String (oracle_as_str pair.1));
       ("verdict", String (str match pair.2 with Pass => "pass" | Fail_ _ => "fail" end));
       ("reason", match pair.2 with Pass => Null | Fail_ reason => String reason end)].
Definition classified_to_json (c : Classified) : Value :=
  obj [("name", String (c_name c)); ("class", String (str (class_name (c_class c))));
       ("ground_truth_agreement",
         match ground_truth_agreement c with Some b => Bool b | None => Null end);
       ("verdicts", Array (verdict_pair_to_json <$> c_verdicts c))].

(** The value that [write_json] renders. *)
Definition json_report (classified : list Classified) : Value :=
  let counts := count_per_class classified in
  obj [("summary", obj (((λ class, (class_name class, json_count (count_of counts class))) <$>
          CLASSES_WORST_FIRST) ++ [("total"%string, json_count (length classified))]));
       ("ground_truth_disagreements", Array (classified_to_json <$> disagreements classified));
       ("classified", Array (classified_to_json <$> classified))].
