(* ===== verification/DiffTestSpec.v ===== *)
(** * What the differential harness promises

    The class of a tuple of verdicts, the order and the counts of a report, and
    the blocks of a concatenated PEM. *)
From stdpp Require Import sorting.
From S2P Require Import Prelude X509 Aia LintTypes TrustStore Json Deviation LintRunner OscalEmit LintSpec DiffTest.

(** ** Classes *)
Lemma all_reasons_match_spec tuple :
  all_reasons_match tuple = true ↔ ∀ p q, p ∈ tuple → q ∈ tuple → p.2 = q.2.
Proof.
  unfold all_reasons_match. destruct tuple as [|p tuple]; [split; [set_solver|done]|]. cbn [fmap list_fmap].
  rewrite forallb_forall. setoid_rewrite bool_decide_eq_true. split.
  - intros Hall q r Hq Hr.
    assert (He : ∀ q, q ∈ p :: tuple → q.2 = p.2).
    { intros s [->|Hs]%elem_of_cons; [done|]. apply Hall, list_elem_of_In, list_elem_of_fmap. by exists s. }
    by rewrite (He q), (He r).
  - intros Hall v Hv. apply list_elem_of_In, list_elem_of_fmap in Hv as (q & -> & Hq).
    apply Hall; [by right|by left].
Qed.

Lemma neighbours_agree_same l b :
  (∀ v, v ∈ l → is_pass v = b) → neighbours_agree l = true.
Proof.
  induction l as [|v [|w l] IH]; intros Hl; [done|done|]. cbn [neighbours_agree].
  rewrite bool_decide_true by (rewrite !Hl; [done|set_solver..]). apply IH. set_solver.
Qed.

Lemma any_pass_spec l : existsb is_pass l = true ↔ ∃ v, v ∈ l ∧ is_pass v = true.
Proof. rewrite existsb_exists. by setoid_rewrite list_elem_of_In. Qed.
Lemma any_fail_spec l :
  existsb (λ v, negb (is_pass v)) l = true ↔ ∃ v, v ∈ l ∧ is_pass v = false.
Proof. rewrite existsb_exists. setoid_rewrite negb_true_iff. by setoid_rewrite list_elem_of_In. Qed.

(** What the verdict of the system says against the verdicts of the others: it
    is looser when it passes and one of them fails, stricter when it fails and
    one of them passes; else they agree, and the reasons decide.  The class for
    oracles that disagree among themselves is never given: one of them then
    disagrees with the system too. *)
Lemma classify_with_pkix_path_spec pkix others full :
  match classify_with_pkix_path pkix others full with
  | LooserThanWild => is_pass pkix = true ∧ ∃ v, v ∈ others ∧ is_pass v = false
  | StricterThanWild => is_pass pkix = false ∧ ∃ v, v ∈ others ∧ is_pass v = true
  | OracleDivergence => False
  | DiagnosticDivergence => (∀ v, v ∈ others → is_pass v = is_pass pkix) ∧ all_reasons_match full = false
  | Agreement => (∀ v, v ∈ others → is_pass v = is_pass pkix) ∧ all_reasons_match full = true
  end.
Proof.
  unfold classify_with_pkix_path. destruct (is_pass pkix) eqn:Hpk; cbn [andb negb].
  - destruct (existsb (λ v, negb (is_pass v)) others) eqn:He; [by split; [|apply any_fail_spec]|].
    assert (Hsame : ∀ v, v ∈ others → is_pass v = true).
    { intros v Hv. destruct (is_pass v) eqn:Hvp; [done|]. rewrite <-He.
      apply any_fail_spec. by exists v. }
    rewrite (neighbours_agree_same _ _ Hsame). cbn [negb]. by destruct (all_reasons_match full).
  - destruct (existsb is_pass others) eqn:He; [by split; [|apply any_pass_spec]|].
    assert (Hsame : ∀ v, v ∈ others → is_pass v = false).
    { intros v Hv. destruct (is_pass v) eqn:Hvp; [|done]. rewrite <-He. symmetry.
      apply any_pass_spec. by exists v. }
    rewrite (neighbours_agree_same _ _ Hsame). cbn [negb]. by destruct (all_reasons_match full).
Qed.

Lemma forallb_false {A} (f : A → bool) l : forallb f l = false → ∃ x, x ∈ l ∧ f x = false.
Proof.
  induction l as [|x l IH]; [done|]. cbn. intros [Hx|Hl]%andb_false_iff; [exists x; split; [by left|done]|].
  destruct (IH Hl) as (y & Hy & Hf). exists y. split; [by right|done].
Qed.

(** Without a verdict of the system: oracles diverge when one passes and one
    fails; else the reasons decide. *)
Lemma classify_oracles_only_spec verdicts :
  match classify_oracles_only verdicts with
  | OracleDivergence => (∃ p, p ∈ verdicts ∧ is_pass p.2 = true) ∧ ∃ p, p ∈ verdicts ∧ is_pass p.2 = false
  | DiagnosticDivergence => all_reasons_match verdicts = false ∧
      ∀ p q, p ∈ verdicts → q ∈ verdicts → is_pass p.2 = is_pass q.2
  | Agreement => all_reasons_match verdicts = true
  | LooserThanWild | StricterThanWild => False
  end.
Proof.
  unfold classify_oracles_only. destruct (decide (verdicts = [])) as [->|_]; [done|].
  destruct (forallb (λ p, p) _) eqn:Hp, (forallb negb _) eqn:Hf; cbn [orb negb].
  4: { apply forallb_false in Hp as (b & Hb & ->), Hf as (b & Hb' & Hn).
    apply list_elem_of_fmap in Hb as (p & Hp & ?), Hb' as (q & -> & ?).
    apply negb_false_iff in Hn. split; [by exists q|by exists p]. }
  all: destruct (all_reasons_match verdicts); [done|split; [done|]]; intros p q Hpv Hqv.
  3: { rewrite forallb_forall in Hf. setoid_rewrite <-list_elem_of_In in Hf.
    pose proof (Hf (is_pass p.2)) as Hf1. pose proof (Hf (is_pass q.2)) as Hf2.
    rewrite !negb_true_iff in Hf1, Hf2. rewrite Hf1, Hf2; [done|..]; apply list_elem_of_fmap; eauto. }
  all: rewrite forallb_forall in Hp; setoid_rewrite <-list_elem_of_In in Hp;
    rewrite (Hp (is_pass p.2)), (Hp (is_pass q.2)); [done|..]; apply list_elem_of_fmap; eauto.
Qed.

(** The class of a tuple says how the verdict of the system, the first one, is
    related to those of the oracles, and the ground truth is compared with it
    alone. *)
Theorem classify_correct name verdicts expected :
  let c := classify name verdicts expected in
  c_name c = name ∧ c_verdicts c = verdicts ∧
  match pkix_path_verdict verdicts with
  | Some pkix =>
      (c_class c = LooserThanWild ↔ pkix = Pass ∧ ∃ v, v ∈ other_verdicts verdicts ∧ is_pass v = false) ∧
      (c_class c = StricterThanWild ↔ is_pass pkix = false ∧ Pass ∈ other_verdicts verdicts) ∧
      c_class c ≠ OracleDivergence ∧
      (c_class c = Agreement → ∀ p q, p ∈ verdicts → q ∈ verdicts → p.2 = q.2) ∧
      ground_truth_agreement c = (λ e, bool_decide (is_pass pkix = is_pass e)) <$> expected
  | None =>
      (c_class c = OracleDivergence ↔
        (∃ p, p ∈ verdicts ∧ is_pass p.2 = true) ∧ ∃ p, p ∈ verdicts ∧ is_pass p.2 = false) ∧
      (c_class c = Agreement ↔ ∀ p q, p ∈ verdicts → q ∈ verdicts → p.2 = q.2) ∧
      ground_truth_agreement c = None
  end.
Proof.
  cbv zeta. split; [done|]. split; [done|]. unfold classify. cbn [c_class ground_truth_agreement].
  assert (Hpass : ∀ v, is_pass v = true ↔ v = Pass) by (by intros []).
  destruct (pkix_path_verdict verdicts) as [pkix|].
  - pose proof (classify_with_pkix_path_spec pkix (other_verdicts verdicts) verdicts) as Hc.
    rewrite <-(Hpass pkix). setoid_rewrite <-all_reasons_match_spec.
    assert (Hin : Pass ∈ other_verdicts verdicts ↔ ∃ v, v ∈ other_verdicts verdicts ∧ is_pass v = true).
    { split; [by exists Pass|]. intros (v & Hv & ->%Hpass). done. }
    rewrite Hin. destruct (classify_with_pkix_path _ _ _); split_and!; try done; try (by destruct expected);
      try naive_solver congruence.
  - pose proof (classify_oracles_only_spec verdicts) as Hc.
    assert (Hmix : (∀ p q, p ∈ verdicts → q ∈ verdicts → is_pass p.2 = is_pass q.2) →
      (∃ p, p ∈ verdicts ∧ is_pass p.2 = true) → (∃ p, p ∈ verdicts ∧ is_pass p.2 = false) → False).
    { intros Hs (p & Hp & Hp') (q & Hq & Hq'). specialize (Hs p q Hp Hq). congruence. }
    assert (Hall : all_reasons_match verdicts = true →
      ∀ p q, p ∈ verdicts → q ∈ verdicts → is_pass p.2 = is_pass q.2).
    { intros Hm p q Hp Hq. rewrite all_reasons_match_spec in Hm. by rewrite (Hm p q). }
    rewrite <-all_reasons_match_spec.
    split_and!; [| |by destruct expected]; destruct (classify_oracles_only verdicts); try done.
    + split; [done|]. intros []. by destruct Hmix; [apply Hc|..].
    + split; [done|]. intros []. by destruct Hmix; [apply Hall|..].
    + split; [done|]. intros Hm. by destruct Hmix; [apply Hall| |]; try apply Hc.
    + destruct Hc. split; congruence.
Qed.

(** ** Reports *)
Section sorting.
Context {A : Type} (cmp : A → A → comparison).
Definition not_after (x y : A) : Prop := cmp x y ≠ Gt.
Hypothesis cmp_total : ∀ x y, cmp x y = Gt → not_after y x.
Hypothesis cmp_trans : ∀ x y z, not_after x y → not_after y z → not_after x z.

Lemma insert_by_perm x l : insert_by cmp x l ≡ₚ x :: l.
Proof.
  induction l as [|y l IH]; [done|]. cbn. destruct (cmp x y); [done|done|].
  rewrite IH. apply Permutation_swap.
Qed.
Lemma insert_by_sorted x l :
  StronglySorted not_after l → StronglySorted not_after (insert_by cmp x l).
Proof.
  induction 1 as [|y l Hl IH Hy]; [repeat constructor|]. cbn.
  assert (Hcons : not_after x y → StronglySorted not_after (x :: y :: l)).
  { intros Hx. constructor; [by constructor|]. constructor; [done|].
    eapply Forall_impl; [exact Hy|]. intros z Hz. by eapply cmp_trans. }
  destruct (cmp x y) eqn:Hxy; [by apply Hcons; unfold not_after; rewrite Hxy..|].
  constructor; [done|]. rewrite insert_by_perm. constructor; [by apply cmp_total|done].
Qed.
(** Equal elements keep their order. *)
Lemma insert_by_stable (P : A → Prop) `{∀ x, Decision (P x)} x l :
  (∀ y, P x → P y → cmp x y = Eq) → filter P (insert_by cmp x l) = filter P (x :: l).
Proof.
  intros HP. induction l as [|y l IH]; [done|]. cbn [insert_by].
  destruct (cmp x y) eqn:Hxy; [done|done|]. rewrite !filter_cons in *.
  destruct (decide (P y)) as [Hy|Hy], (decide (P x)) as [Hx|Hx]; rewrite ?IH; try done.
  rewrite (HP y Hx Hy) in Hxy. done.
Qed.

Lemma sort_by_correct l :
  sort_by cmp l ≡ₚ l ∧ StronglySorted not_after (sort_by cmp l) ∧
  ∀ (P : A → Prop) `{∀ x, Decision (P x)}, (∀ x y, P x → P y → cmp x y = Eq) →
    filter P (sort_by cmp l) = filter P l.
Proof.
  induction l as [|x l (IHp & IHs & IHf)]; [by repeat constructor|]. split_and!.
  - cbn [sort_by foldr]. by rewrite insert_by_perm, IHp.
  - by apply insert_by_sorted.
  - intros P HP Heq. cbn [sort_by foldr]. rewrite insert_by_stable by eauto.
    rewrite !filter_cons. fold (sort_by cmp l). by rewrite (IHf P HP Heq).
Qed.
End sorting.

Lemma severity_not_after a b :
  not_after severity_cmp a b ↔
  class_rank (c_class a) < class_rank (c_class b) ∨
  class_rank (c_class a) = class_rank (c_class b) ∧ slice_cmp (c_name a) (c_name b) ≠ Gt.
Proof.
  unfold not_after, severity_cmp. destruct (Nat.compare_spec (class_rank (c_class a)) (class_rank (c_class b)));
    naive_solver lia.
Qed.

(** The chains of a report come worst class first, by name within a class, and
    chains of the same class and name in the order they came. *)
Theorem sort_by_severity_correct l :
  sort_by_severity l ≡ₚ l ∧ StronglySorted (not_after severity_cmp) (sort_by_severity l) ∧
  ∀ c n, filter (λ x, c_class x = c ∧ c_name x = n) (sort_by_severity l) =
    filter (λ x, c_class x = c ∧ c_name x = n) l.
Proof.
  destruct (sort_by_correct severity_cmp) with (l := l) as (Hp & Hs & Hf).
  - intros x y Hxy. unfold not_after, severity_cmp in *. rewrite Nat.compare_antisym.
    destruct (Nat.compare _ _) in Hxy |- *; cbn [CompOpp]; [|done|done].
    rewrite slice_cmp_antisym, Hxy. done.
  - intros x y z. rewrite !severity_not_after.
    intros [?|[? Hxy]] [?|[? Hyz]]; [left; lia..|right]. split; [lia|]. by eapply (str_le_trans (c_name x)).
  - split_and!; [done|done|]. intros c n. apply Hf. intros x y [Hx Hx'] [Hy Hy'].
    unfold severity_cmp. rewrite Hx, Hy, Nat.compare_refl, Hx', Hy'. apply slice_cmp_refl.
Qed.

Lemma class_rank_inj c d : class_rank c = class_rank d → c = d.
Proof. by destruct c, d. Qed.
Lemma in_class_cons c x l :
  length (in_class c (x :: l)) = (if decide (c_class x = c) then 1 else 0) + length (in_class c l).
Proof. unfold in_class. rewrite filter_cons. by destruct (decide _). Qed.

Lemma count_per_class_from (counts : list nat) l c n :
  counts !! class_rank c = Some n →
  foldl (λ counts x, alter S (class_rank (c_class x)) counts) counts l !! class_rank c =
    Some (n + length (in_class c l)).
Proof.
  revert counts n. induction l as [|x l IH]; intros counts n Hn; [by rewrite Nat.add_0_r|].
  cbn [foldl]. rewrite in_class_cons. destruct (decide (c_class x = c)) as [<-|Hne].
  - rewrite (IH _ (S n)) by (by rewrite list_lookup_alter_eq, Hn). f_equal. lia.
  - apply IH. rewrite list_lookup_alter_ne; [done|]. intros He. by apply Hne, class_rank_inj.
Qed.

(** The count of a class is the number of its chains, and the counts add up. *)
Theorem count_per_class_correct l :
  (∀ c, count_of (count_per_class l) c = length (in_class c l)) ∧
  sum_list_with (count_of (count_per_class l)) CLASSES_WORST_FIRST = length l.
Proof.
  assert (Hc : ∀ c, count_of (count_per_class l) c = length (in_class c l)).
  { intros c. unfold count_of, count_per_class.
    by rewrite (count_per_class_from _ _ _ 0) by (by destruct c). }
  split; [done|]. cbn [sum_list_with CLASSES_WORST_FIRST]. rewrite !Hc. clear Hc.
  induction l as [|x l IH]; [done|]. rewrite !in_class_cons. cbn [length].
  destruct (c_class x); repeat (case_decide; try done); cbn; lia.
Qed.

(** ** PEM blocks *)

(** The parts of a concatenated PEM from a position: a block starts with the
    mark of its begin, has a line feed and then the mark of its end, and stops
    after the line of that mark or at the end of the octets. *)
Inductive blocks_from (bs : bytes) : nat → list bytes → Prop :=
| blocks_end pos : (length bs ≤ pos ∨ find_subseq (drop pos bs) BEGIN_MARK = None) → blocks_from bs pos []
| blocks_next pos start stop blocks :
    next_block bs pos = Ok (Some (start, stop)) → pos ≤ start → start < stop → stop ≤ length bs →
    BEGIN_MARK `prefix_of` drop start bs →
    blocks_from bs stop blocks → blocks_from bs pos (take (stop - start) (drop start bs) :: blocks).

Lemma list_find_fst {A} (P : A → Prop) `{∀ x, Decision (P x)} l i :
  fst <$> list_find P l = Some i → ∃ x, l !! i = Some x ∧ P x.
Proof.
  intros ([j x] & Hf & ->)%fmap_Some. apply list_find_Some in Hf as (? & ? & _). by exists x.
Qed.

Lemma find_subseq_Some h n i :
  find_subseq h n = Some i → n `prefix_of` drop i h ∧ i + length n ≤ length h.
Proof.
  unfold find_subseq. destruct (decide _) as [|Hn]; [done|].
  intros (w & Hw & ->)%list_find_fst. unfold windows in Hw.
  apply list_lookup_fmap_Some in Hw as (j & -> & Hj). apply lookup_seq in Hj as [-> Hj]. cbn [Nat.add].
  rewrite length_take, length_drop. split; [apply prefix_take|lia].
Qed.

Lemma find_byte_Some h x i : find_byte h x = Some i → h !! i = Some x.
Proof. unfold find_byte. by intros (y & Hy & ->)%list_find_fst. Qed.

Lemma next_block_Some bs pos start stop :
  next_block bs pos = Ok (Some (start, stop)) →
  pos ≤ start ∧ start < stop ∧ stop ≤ length bs ∧ BEGIN_MARK `prefix_of` drop start bs.
Proof.
  unfold next_block. destruct (find_subseq (drop pos bs) BEGIN_MARK) as [b|] eqn:Hb; [|done].
  apply find_subseq_Some in Hb as [Hpre Hb]. rewrite drop_drop in Hpre.
  destruct (find_byte _ _) as [e|] eqn:He; [|done].
  apply find_byte_Some, lookup_lt_Some in He. rewrite length_drop in He.
  destruct (find_subseq _ END_MARK) as [n|] eqn:Hn; [|done].
  apply find_subseq_Some in Hn as [_ Hn]. rewrite length_drop in Hn.
  destruct (find_byte (drop _ _) 10%N) as [k|] eqn:Hk; intros [= <- <-].
  - apply find_byte_Some, lookup_lt_Some in Hk. rewrite length_drop in Hk.
    split_and!; [lia..|done].
  - assert (0 < length END_MARK) by (cbn; lia). split_and!; [lia..|done].
Qed.
Lemma next_block_fails bs pos :
  match next_block bs pos with
  | Ok None => find_subseq (drop pos bs) BEGIN_MARK = None
  | Ok (Some _) => True
  | Err e => io_kind e = ErrorKind.InvalidData
  | Panic => False
  end.
Proof.
  unfold next_block. destruct (find_subseq (drop pos bs) BEGIN_MARK); [|done].
  destruct (find_byte _ _); [|done]. by destruct (find_subseq _ END_MARK).
Qed.

Lemma split_from_correct fuel bs pos :
  length bs - pos ≤ fuel →
  ∃ r, split_from fuel bs pos = Some r ∧
    match r with
    | Ok blocks => blocks_from bs pos blocks
    | Err e => io_kind e = ErrorKind.InvalidData
    | Panic => False
    end.
Proof.
  revert pos. induction fuel as [|fuel IH]; intros pos Hfuel; cbn [split_from].
  { rewrite decide_True by lia. eexists. split; [done|]. constructor. left. lia. }
  destruct (decide _) as [Hd|Hd]; [eexists; split; [done|]; constructor; by left|].
  pose proof (next_block_fails bs pos) as Hf.
  destruct (next_block bs pos) as [[[start stop]|]|e|] eqn:Hn; [| |by eexists|done].
  - pose proof (next_block_Some _ _ _ _ Hn) as (H1 & H2 & H3 & H4).
    destruct (IH stop) as (r & Hr & Hb); [lia|]. rewrite Hr. eexists. split; [done|].
    destruct r as [blocks|e|]; cbn; [|done..]. by eapply blocks_next.
  - eexists. split; [done|]. constructor. by right.
Qed.

(** The search for blocks always ends; what it gives are the blocks in their
    order, without overlap, and a mark of a begin without its end is an error. *)
Theorem split_pem_blocks_correct bs :
  ∃ r, split_pem_blocks bs = Some r ∧
    match r with
    | Ok blocks => blocks_from bs 0 blocks
    | Err e => io_kind e = ErrorKind.InvalidData
    | Panic => False
    end.
Proof. apply split_from_correct. lia. Qed.

(** ** The order of a chain *)
Section order.
Context `{Encode Name}.

(** A chain is turned around exactly when it starts, and does not end, with a
    certificate that names itself; one whose ends do not tell is refused. *)
Theorem detect_leaf_first_correct certs :
  match detect_leaf_first certs with
  | Ok true => length certs = 1 ∨
      (∃ a b, head certs = Some a ∧ last certs = Some b ∧ is_self_issued a = false ∧ is_self_issued b = true)
  | Ok false => ∃ a b, head certs = Some a ∧ last certs = Some b ∧
      is_self_issued a = true ∧ is_self_issued b = false
  | Err _ => certs = [] ∨
      ∃ a b, head certs = Some a ∧ last certs = Some b ∧ is_self_issued a = is_self_issued b
  | Panic => False
  end.
Proof.
  unfold detect_leaf_first. destruct certs as [|a [|b certs]]; [by left|by left|].
  assert (Hl : ∃ c, last (a :: b :: certs) = Some c ∧
    index (E := io_error) (a :: b :: certs) (length (a :: b :: certs) - 1) = Ok c).
  { destruct (last (a :: b :: certs)) as [c|] eqn:Hc; [|by apply last_None in Hc]. exists c. split; [done|].
    apply index_Ok. rewrite <-Hc, last_lookup. by rewrite Nat.sub_1_r. }
  destruct Hl as (c & Hc & ->). cbn [mbind result_bind].
  destruct (is_self_issued a) eqn:Ha, (is_self_issued c) eqn:Hcs.
  - right. exists a, c. split_and!; [done|done|congruence].
  - exists a, c. done.
  - right. exists a, c. done.
  - right. exists a, c. split_and!; [done|done|congruence].
Qed.
End order.
