(* ===== verification/ErrorDisplay.v ===== *)
(** * What errors say (the [Display] and [Error] impls of pkix-path,
    pkix-path-builder, pkix-identity, pkix-aia, pkix-chain, pkix-chain-simple and
    pkix-ct)

    The rendering of every error, the error it was caused by, and that a
    rendering tells the error. *)
From Stdlib Require Import Ascii.
From stdpp Require Import pretty strings.
From S2P Require Import Prelude X509 PathTypes PathBuilder Revocation Identity Aia RevFetch.
From S2P Require Chain ChainSimple Merkle.

(** The [Display] of an [ObjectIdentifier]. *)
Class OidText := oid_text : ObjectIdentifier → string.

Definition index_text (i : nat) : string := pretty i.

(** pkix-path: [DerError] *)
Definition der_error_display (e : DerError) : string := message e.
Definition der_error_source (e : DerError) : option der_error := inner e.

(** pkix-ct *)
Definition ct_error_display (e : Merkle.CtError) : string :=
  match e with
  | Merkle.NoScts => "certificate contains no SCTs"
  | Merkle.InvalidSignature => "SCT signature invalid"
  | Merkle.ParseError => "SCT list parse error"
  | Merkle.UnsupportedVersion v =>
      "unsupported SCT version: " +:+ pretty v +:+ " (only v1 / version=0 is supported)"
  | Merkle.TruncatedOrTrailing => "SCT or SCT list bytes were truncated or had trailing data"
  | Merkle.UnknownLog => "SCT log_id not present in the log list"
  | Merkle.UnsupportedSignatureAlgorithm hash_alg sig_alg =>
      "SCT signature algorithm not supported: hash_alg=" +:+ pretty hash_alg +:+ ", sig_alg=" +:+ pretty sig_alg
  | Merkle.LogKeyMalformed => "CT log key_der is not a valid SubjectPublicKeyInfo"
  | Merkle.SctTimestampOutsideLogWindow => "SCT timestamp falls outside the log's usable window"
  | Merkle.CertDerTooLong => "certificate DER exceeds the 2^24 - 1 octet ASN.1Cert limit"
  | Merkle.LeafMissingSctList => "leaf certificate does not contain the SCT-list extension"
  | Merkle.MerkleProofInvalid => "Merkle inclusion proof failed verification"
  | Merkle.MerkleProofMalformed => "Merkle inclusion proof has invalid shape"
  end.

Section displays.
Context `{OidText} `{SerialDisplay}.

(** pkix-path *)
Definition path_error_display (e : PathTypes.Error) : string :=
  match e with
  | SignatureInvalid index => "signature invalid at chain index " +:+ index_text index
  | ValidityPeriod index => "validity period check failed at chain index " +:+ index_text index
  | PathTypes.MalformedCertificate index => "malformed certificate at chain index " +:+ index_text index
  | ChainBroken index => "issuer/subject linkage broken at chain index " +:+ index_text index
  | NoTrustedPath => "no path to a trusted anchor"
  | PathTooLong => "path length exceeds maximum"
  | NotCA index => "certificate at index " +:+ index_text index +:+ " is not a CA"
  | KeyUsageMissing index => "keyCertSign missing at chain index " +:+ index_text index
  | PathTypes.CrlSignMissing index => "cRLSign missing at chain index " +:+ index_text index
  | UnhandledCriticalExtension index => "unhandled critical extension at chain index " +:+ index_text index
  | NameConstraintViolation index => "name constraints violated at certificate index " +:+ index_text index
  | PolicyViolation index => "certificate policy violation at chain index " +:+ index_text index
  | Der e => "DER error: " +:+ message e
  | ValidityPeriodExceedsMax index => "validity period exceeds maximum at chain index " +:+ index_text index
  | AlgorithmNotAllowed index => "signature algorithm not allowed at chain index " +:+ index_text index
  | KeyTooSmall index => "RSA key too small at chain index " +:+ index_text index
  | PathTypes.MissingSan => "leaf certificate is missing SubjectAltName"
  | MissingRfc822San => "leaf certificate SubjectAltName contains no rfc822Name entry"
  | MissingEku => "leaf certificate is missing required ExtendedKeyUsage OID(s)"
  | MissingLeafPolicyOid required =>
      "leaf certificate is missing required CertificatePolicies OID " +:+ oid_text required
  | SubjectDnAttrRuleUnmet => "leaf certificate Subject DN does not satisfy the required attribute rule"
  | DuplicateCertificate first second =>
      "duplicate certificate (issuer+serial) at chain indices " +:+ index_text first +:+ " and " +:+ index_text second
  end.
Definition path_error_source (e : PathTypes.Error) : option DerError :=
  match e with Der e => Some e | _ => None end.
Definition path_error_from_der (e : der_error) : PathTypes.Error := Der (der_error_new e).

(** pkix-path-builder *)
Definition path_build_error_display (e : BuildError) : string :=
  match e with
  | NoPathFound => "no certification path found to a trust anchor"
  | DepthExceeded =>
      "configured maximum intermediate chain depth exceeded; the chain may require a deeper path than this builder is configured to attempt"
  | BudgetExceeded => "DFS node-visit budget exceeded; pool may be adversarially large"
  | NoValidPath tried last_error =>
      "tried " +:+ pretty tried +:+ " candidate path(s); none validated. Last validation error: " +:+ last_error
  end.

(** pkix-identity *)
Definition identity_error_display (e : IdentityError) : string :=
  match e with
  | MalformedInput => "malformed identity input"
  | NoMatchingSan => "no Subject Alternative Name entry matched the identity"
  | Identity.MissingSan => "certificate has no Subject Alternative Name extension"
  | MalformedSan => "certificate Subject Alternative Name extension is malformed"
  end.

(** pkix-aia *)
Definition aia_error_display (e : AiaError) : string :=
  match e with
  | FetchingDisabled => "AIA fetching is disabled"
  | Aia.HttpStatus code => "AIA fetch returned HTTP status " +:+ pretty code
  | ResponseTooLarge limit actual =>
      "AIA response exceeded size cap: limit " +:+ pretty limit +:+ " bytes, observed " +:+ pretty actual +:+ " bytes"
  | Aia.MalformedCertificate msg => "AIA-fetched bytes did not parse as a certificate: " +:+ msg
  | Timeout => "AIA fetch timed out"
  | UriUnsupported uri => "AIA URI scheme not supported: " +:+ display_url uri
  | Aia.IoFailure kind message =>
      "AIA fetch I/O failure (" +:+ ErrorKind.kind_debug kind +:+ "): " +:+ message
  end.

(** pkix-chain *)
Definition chain_error_display (e : Chain.ChainError) : string :=
  match e with
  | Chain.Path e => "path validation: " +:+ path_error_display e
  | Chain.Revocation e => "revocation: " +:+ rev_error_display e
  | Chain.Identity e => "identity binding: " +:+ identity_error_display e
  | Chain.ProfileViolation reason => "profile violation: " +:+ reason
  | Chain.OcspDelegation reason => "ocsp responder delegation: " +:+ reason
  | Chain.Aia e => "aia fetch: " +:+ aia_error_display e
  | Chain.PathBuild e => "path build: " +:+ path_build_error_display e
  | Chain.AiaDepthExceeded =>
      "aia fetch recursion cap reached (" +:+ pretty Chain.AIA_MAX_DEPTH +:+ " iterations)"
  end.

(** pkix-chain-simple *)
Definition simple_error_display (e : ChainSimple.SimpleError) : string :=
  match e with
  | ChainSimple.EmptyChain => "chain is empty"
  | ChainSimple.ChainTooLong len =>
      "chain has " +:+ pretty len +:+ " certificates; maximum is " +:+ pretty (1 + ChainSimple.MAX_INTERMEDIATES)
  | ChainSimple.NoTrustAnchors => "no trust anchors provided"
  | ChainSimple.AlgorithmNotAllowed index =>
      "certificate at index " +:+ pretty index +:+ " uses a disallowed signature algorithm"
  | ChainSimple.UnhandledCriticalExtension index =>
      "certificate at index " +:+ pretty index +:+ " has an unhandled critical extension"
  | ChainSimple.UnexpectedExtension index =>
      "certificate at index " +:+ pretty index +:+ " has an unexpected extension"
  | ChainSimple.MissingRequiredExtension index =>
      "intermediate at index " +:+ pretty index +:+ " is missing a required extension (BasicConstraints cA=TRUE or KeyUsage keyCertSign)"
  | ChainSimple.LeafIsCA => "end-entity certificate has BasicConstraints cA=TRUE"
  | ChainSimple.Path e => "path validation: " +:+ path_error_display e
  end.
Definition simple_error_source (e : ChainSimple.SimpleError) : option PathTypes.Error :=
  match e with ChainSimple.Path e => Some e | _ => None end.
End displays.

(** [Error::source] of pkix-chain: an error of any of the crates it calls. *)
Inductive ChainSource :=
| SourcePath (e : PathTypes.Error) | SourceRevocation (e : RevocationError)
| SourceIdentity (e : IdentityError) | SourceAia (e : AiaError) | SourceBuild (e : BuildError).
Definition chain_error_source (e : Chain.ChainError) : option ChainSource :=
  match e with
  | Chain.Path e => Some (SourcePath e)
  | Chain.Revocation e => Some (SourceRevocation e)
  | Chain.Identity e => Some (SourceIdentity e)
  | Chain.Aia e => Some (SourceAia e)
  | Chain.PathBuild e => Some (SourceBuild e)
  | Chain.ProfileViolation _ | Chain.OcspDelegation _ | Chain.AiaDepthExceeded => None
  end.

(** ** Renderings tell errors apart *)

(** No blank is in the digits of a number. *)
Fixpoint no_blank (s : string) : bool :=
  match s with
  | EmptyString => true
  | String c s => negb (bool_decide (c = Ascii.ascii_of_nat 32)) && no_blank s
  end.

Lemma no_blank_pretty_go x s : no_blank s = true → no_blank (pretty_N_go x s) = true.
Proof.
  revert s. induction (N.lt_wf_0 x) as [x _ IH]. intros s Hs.
  destruct (decide (0 < x)%N) as [Hx|Hx]; [|by rewrite (proj1 (N.le_0_r x)), pretty_N_go_0 by lia].
  rewrite pretty_N_go_step by done. apply IH; [apply N.div_lt; lia|]. cbn [no_blank].
  rewrite Hs, andb_true_r. unfold pretty_N_char. by repeat case_match.
Qed.
Lemma no_blank_index i : no_blank (index_text i) = true.
Proof.
  unfold index_text, pretty, pretty_nat, pretty, pretty_N. case_decide; [done|].
  by apply no_blank_pretty_go.
Qed.

(** The part before the first blank is determined. *)
Lemma no_blank_inj (a b s t : string) :
  no_blank a = true → no_blank b = true →
  a +:+ String (Ascii.ascii_of_nat 32) s = b +:+ String (Ascii.ascii_of_nat 32) t → a = b ∧ s = t.
Proof.
  revert b. induction a as [|c a IH]; intros [|d b] Ha Hb; cbn; intros Hab.
  - injection Hab as Hr. done.
  - injection Hab as Hc Hr. subst d. done.
  - injection Hab as Hc Hr. subst c. done.
  - injection Hab as Hc Hr. subst d. cbn in Ha, Hb. apply andb_prop in Ha as [_ Ha], Hb as [_ Hb].
    destruct (IH b Ha Hb Hr) as [-> ->]. done.
Qed.

(** The derived [PartialEq] of the errors of pkix-path. *)
Definition path_error_eq (e f : PathTypes.Error) : Prop :=
  match e, f with Der d, Der d' => der_error_eq d d' = true | _, _ => e = f end.

Lemma index_text_inj i j : index_text i = index_text j → i = j.
Proof. apply (inj pretty). Qed.

Section tells.
Context `{OidText}.
Hypothesis oid_text_inj : ∀ o p, oid_text o = oid_text p → o = p.

(** Two errors of the path validation that render alike are equal. *)
Theorem path_error_display_tells e f :
  path_error_display e = path_error_display f → path_error_eq e f.
Proof.
  intros Hef. destruct e, f; cbn in Hef; try discriminate Hef; unfold path_error_eq; try done.
  all: repeat (injection Hef as Hef).
  all: try (f_equal; by apply index_text_inj).
  all: try (f_equal; by apply oid_text_inj).
  - apply no_blank_inj in Hef as [Hef _]; [|apply no_blank_index..]. f_equal. by apply index_text_inj.
  - unfold der_error_eq. by rewrite bool_decide_true.
  - apply no_blank_inj in Hef as [H1 H2]; [|apply no_blank_index..].
    repeat (injection H2 as H2). f_equal; by apply index_text_inj.
Qed.
End tells.

(** So are two errors of pkix-ct. *)
Lemma no_blank_pretty_N (n : N) : no_blank (pretty n) = true.
Proof. unfold pretty, pretty_N. case_decide; [done|]. by apply no_blank_pretty_go. Qed.
Lemma no_blank_app (a b : string) : no_blank (a +:+ b) = no_blank a && no_blank b.
Proof.
  induction a as [|c a IH]; [done|]. change (String c a +:+ b) with (String c (a +:+ b)).
  cbn [no_blank]. by rewrite IH, andb_assoc.
Qed.
Lemma string_app_inj_tail (a b : string) c :
  a +:+ String c EmptyString = b +:+ String c EmptyString → a = b.
Proof.
  revert b. induction a as [|x a IH]; intros [|y b]; cbn; intros Hab; [done| | |].
  - injection Hab as _ Hr. by destruct b.
  - injection Hab as _ Hr. by destruct a.
  - injection Hab as -> Hr. by rewrite (IH b Hr).
Qed.
Lemma no_blank_comma (a s : string) :
  "" +:+ a +:+ String (ascii_of_nat 44) (String (ascii_of_nat 32) s) =
  (a +:+ String (ascii_of_nat 44) EmptyString) +:+ String (ascii_of_nat 32) s.
Proof.
  change ("" +:+ ?t) with t. induction a as [|c a IH]; [done|].
  change (String c a +:+ ?t) with (String c (a +:+ t)). by rewrite IH.
Qed.
Theorem ct_error_display_tells e f : ct_error_display e = ct_error_display f → e = f.
Proof.
  intros Hef. destruct e, f; cbn in Hef; try discriminate Hef; try done.
  all: repeat (injection Hef as Hef).
  - apply no_blank_inj in Hef as [Hef _]; [|apply no_blank_pretty_N..]. f_equal. by apply (inj pretty).
  - assert (Hc : ∀ h g : N, "" +:+ pretty h +:+ ", sig_alg=" +:+ pretty g =
      (pretty h +:+ String (ascii_of_nat 44) EmptyString) +:+
        String (ascii_of_nat 32) ("sig_alg=" +:+ pretty g)) by (intros h g; apply no_blank_comma).
    rewrite !Hc in Hef.
    apply no_blank_inj in Hef as [Hh Hs]; [|by rewrite no_blank_app, no_blank_pretty_N..].
    apply string_app_inj_tail in Hh. repeat (injection Hs as Hs). f_equal; by apply (inj pretty).
Qed.
