(* ===== verification/Stubs.v ===== *)
(** * Placeholders (pkix-composite/src/lib.rs, pkix-ac/src/lib.rs)

    The verifier of composite signatures and the validation of attribute
    certificates are interfaces without an algorithm: nothing is accepted
    through them. *)
From S2P Require Import Prelude X509 PathTypes Verifier CertChecks ChainWalk WalkSound ValidatePath ErrorDisplay.

(** ** pkix-composite *)
Record CompositeVerifier (C P : Type) := { classical : C; post_quantum : P }.
Arguments classical {C P}. Arguments post_quantum {C P}.
Definition composite_verifier_new {C P} (classical : C) (post_quantum : P) : CompositeVerifier C P :=
  {| classical := classical; post_quantum := post_quantum |}.
#[export] Instance CompositeVerifier_impl {C P} `{SignatureVerifier C} `{SignatureVerifier P} :
  SignatureVerifier (CompositeVerifier C P) := λ _ _ _ _ _, false.

(** ** pkix-ac *)
Record AttributeCertificate := { ac_der : bytes }.
Record IssuerSerial := { ac_issuer : Name; ac_serial : bytes }.
Record Holder := { issuer_serial : option IssuerSerial }.
Inductive AcError := AcParseError | AcSignatureInvalid | AcExpired | AaPathInvalid (e : PathTypes.Error).

Definition ac_error_display `{OidText} (e : AcError) : string :=
  match e with
  | AcParseError => "attribute certificate parse error"
  | AcSignatureInvalid => "attribute certificate signature invalid"
  | AcExpired => "attribute certificate validity period check failed"
  | AaPathInvalid e => "attribute authority path invalid: " +:+ path_error_display e
  end.
Definition ac_error_source (e : AcError) : option PathTypes.Error :=
  match e with AaPathInvalid e => Some e | _ => None end.

Definition validate_attribute_cert {V} `{SignatureVerifier V} (ac : AttributeCertificate)
    (aa_anchors : list TrustAnchor) (now_unix : N) (verifier : V) : result AcError unit :=
  Err (AaPathInvalid NoTrustedPath).

(** ** Nothing is accepted *)

(** With the composite verifier no path is valid, whatever its components would
    accept. *)
Theorem composite_validates_nothing `{PathAsn1} {C P} `{SignatureVerifier C} `{SignatureVerifier P}
    chain anchors policy (verifier : CompositeVerifier C P) vp :
  validate_path chain anchors policy verifier ≠ Ok vp.
Proof.
  intros Hv. apply validate_path_Ok in Hv as Hin. destruct Hin as [Hin _].
  destruct (validate_path_walk _ _ _ _ _ Hv) as (a & t & _ & Hw & _).
  destruct chain as [|cert chain]; [by destruct (in_chain _ _ _ Hin)|].
  by destruct (ok_signature _ _ _ _ _ _ (chain_walk_sound _ _ _ _ _ Hw 0 cert eq_refl)) as (tbs & _ & Hsig).
Qed.

(** No attribute certificate is valid, and the error is one of the path. *)
Theorem attribute_certs_refused `{OidText} {V} `{SignatureVerifier V} ac anchors now (verifier : V) :
  ∃ e, validate_attribute_cert ac anchors now verifier = Err e ∧ ac_error_source e = Some NoTrustedPath ∧
    ac_error_display e = "attribute authority path invalid: no path to a trusted anchor".
Proof. eexists. split; [done|]. by vm_compute. Qed.
