(* ===== verification/DiffOracle.v ===== *)
(** * The oracles of the differential harness that run in the process
    (pkix-difftest/src: oracles/pkix_path.rs, lint_oracles/mod.rs,
    lint_oracles/zlint.rs, lint_oracles/pkix_lint_cabf.rs)

    [verify] gives the verdict of the validator on a chain with its revocation
    lists; the lint oracles turn the findings of the lints, and the verdicts of
    zlint, into findings of one form. *)
From stdpp Require Import gmap pretty.
From S2P Require Import Prelude X509 PathTypes Verifier ValidatePath Revocation SignerDiscovery Crl RevFetch LintTypes Deviation LintRunner Aia Json TrustStore RustStr ZlintBridge OscalEmit PolicyZlint DiffTest ErrorDisplay.

(** ** The oracle of pkix-path *)
Section oracle.
Context `{PathAsn1} `{KeyIdAsn1} `{CrlAsn1} `{DecodeOwned Certificate}.
Context `{OidText} `{SerialDisplay} `{DebugText} {V : Type} `{SignatureVerifier V}.
(** [DefaultVerifier] *)
Variable verifier : V.

(** The loop that parses the certificates, from an index. *)
Fixpoint parse_certs (label : bytes) (i : nat) (ders : list bytes) : result io_error (list Certificate) :=
  match ders with
  | [] => Ok []
  | der :: ders =>
      cert ← match from_der der with
             | inl e => invalid_chain (str "cert at index " ++ str (index_text i) ++ str " in chain " ++
                 str_debug label ++ str " failed to parse: " ++ str e)
             | inr cert => Ok cert
             end;
      rest ← parse_certs label (S i) ders;
      Ok (cert :: rest)
  end.

(** The answer of one list on one certificate, none when it does not parse. *)
Definition crl_answer (cert : Certificate) (issuer_cert : option Certificate) (anchor : TrustAnchor)
    (crl_der : bytes) (now_unix : N) : option (RevResult unit) :=
  match crl_checker_new crl_der now_unix verifier with
  | Err _ => None
  | Panic => Some Panic
  | Ok checker => Some
      match issuer_cert with
      | Some issuer => crl_check_revocation checker cert issuer
      | None => crl_check_revocation_against_anchor checker cert anchor
      end
  end.

Definition revoked_text (i : nat) (e : RevocationError) : bytes :=
  str "pkix-path revocation: cert at chain index " ++ str (index_text i) ++ str " revoked by CRL: " ++
  str (rev_error_display e).

(** [for crl_der in crls] *)
Fixpoint check_crls (i : nat) (cert : Certificate) (issuer_cert : option Certificate)
    (anchor : TrustAnchor) (crls : list bytes) (now_unix : N) : result io_error (option bytes) :=
  match crls with
  | [] => Ok None
  | crl_der :: crls =>
      match crl_answer cert issuer_cert anchor crl_der now_unix with
      | Some (Err (Revoked _ _ as e)) => Ok (Some (revoked_text i e))
      | Some Panic => Panic
      | _ => check_crls i cert issuer_cert anchor crls now_unix
      end
  end.

(** [for (i, cert) in chain.iter().enumerate()], from an index. *)
Fixpoint check_chain_crls (i : nat) (chain : list Certificate) (anchor : TrustAnchor)
    (crls : list bytes) (now_unix : N) : result io_error (option bytes) :=
  match chain with
  | [] => Ok None
  | cert :: rest =>
      found ← check_crls i cert (head rest) anchor crls now_unix;
      match found with
      | Some reason => Ok (Some reason)
      | None => check_chain_crls (S i) rest anchor crls now_unix
      end
  end.

(** [system_now] is the time of the system in seconds from the epoch. *)
Definition verify (system_now : Z) (chain : Chain) : result io_error Verdict :=
  if negb (root_in_chain chain) then invalid_chain
    (str "pkix-path oracle requires the trust anchor to be present as the last cert; root_in_chain = false is not supported (PKIX-7nsf.4 follow-up)")
  else if decide (length (certs_der chain) < 2) then invalid_chain
    (str "pkix-path oracle requires at least 2 certs (leaf + root); single-cert chains have no path to validate")
  else
    certs ← parse_certs (label chain) 0 (certs_der chain);
    let last := length certs - 1 in
    anchor_cert ← index certs last;
    let anchor := trust_anchor_from_cert anchor_cert in
    let validation_chain := take last certs in
    let now := default (Z.to_N system_now) (validation_time_unix chain) in
    match validate_path validation_chain [anchor] (validation_policy_new now) verifier with
    | Panic => Panic
    | Err e => Ok (Fail_ (str (path_error_display e)))
    | Ok _ =>
        if decide (crls chain = []) then Ok Pass
        else
          found ← check_chain_crls 0 validation_chain anchor (crls chain) now;
          Ok match found with Some reason => Fail_ reason | None => Pass end
    end.
End oracle.

(** ** Lint oracles *)
Inductive OracleSource := SrcPkixLintCabf | SrcZlint | SrcPkilint.
#[global] Instance OracleSource_eq_dec : EqDecision OracleSource.
Proof. solve_decision. Defined.
Definition oracle_source_as_str (s : OracleSource) : bytes :=
  str match s with
      | SrcPkixLintCabf => "pkix-lint-cabf" | SrcZlint => "zlint" | SrcPkilint => "pkilint"
      end.

Record NormalizedFinding := { nf_id : bytes; nf_severity : Severity; nf_source : OracleSource }.
#[global] Instance NormalizedFinding_eq_dec : EqDecision NormalizedFinding.
Proof. solve_decision. Defined.

Record LintOracleResult := { or_findings : list NormalizedFinding; or_error : option bytes }.
Definition ok_empty : LintOracleResult := {| or_findings := []; or_error := None |}.
Definition oracle_error (reason : bytes) : LintOracleResult :=
  {| or_findings := []; or_error := Some reason |}.

(** [findings.sort_by(|a, b| a.id.cmp(&b.id))] *)
Definition sort_findings (l : list NormalizedFinding) : list NormalizedFinding :=
  sort_by (λ a b, slice_cmp (nf_id a) (nf_id b)) l.

(** zlint *)
Definition verdict_to_severity (verdict : ZlintBridge.Verdict) : option Severity :=
  match verdict with
  | VNotice => Some SevNotice
  | VWarn => Some SevWarn
  | VError => Some SevError
  | VFatal => Some SevFatal
  | _ => None
  end.

Definition zlint_finding (p : bytes * ZlintBridge.Verdict) : option NormalizedFinding :=
  s ← verdict_to_severity p.2; Some {| nf_id := p.1; nf_severity := s; nf_source := SrcZlint |}.
(** The map is iterated in an order that is not specified: that of [map_to_list]. *)
Definition normalize_verdicts (verdicts : VerdictMap) : list NormalizedFinding :=
  sort_findings (omap zlint_finding (map_to_list verdicts)).

Definition zlint_answer `{DebugText} (r : ZlintError + VerdictMap) : LintOracleResult :=
  match r with
  | inr verdicts => {| or_findings := normalize_verdicts verdicts; or_error := None |}
  | inl (Cert per_cert) => oracle_error (str "zlint per-cert error: " ++ per_cert_error_display per_cert)
  | inl (Bridge bridge_err) => oracle_error (str "zlint bridge error: " ++ bridge_error_display bridge_err)
  end.
Definition zlint_lint_cert {W E : Type} `{Os W} `{Host} `{Sha256} `{DebugText} `{JsonText}
    (config : BridgeConfig) (cert_der : bytes) : bridge W E LintOracleResult :=
  r ← catching (run_on_cert config cert_der); mret (zlint_answer r).

(** pkix-lint-cabf *)
Definition result_to_severity (r : LintResult) : option Severity :=
  match r with
  | LintWarn _ => Some SevWarn
  | LintError _ => Some SevError
  | LintFatal _ => Some SevFatal
  | _ => None
  end.
Definition cabf_finding (f : Finding) : option NormalizedFinding :=
  s ← result_to_severity (finding_result f);
  Some {| nf_id := lint_id f; nf_severity := s; nf_source := SrcPkixLintCabf |}.

Section cabf.
Context `{DecodeOwned Certificate} `{Encode Certificate} `{Sha256} {L : Type} `{Lint L}.
Definition cabf_lint_cert (runner : LintRunner L) (cert_der : bytes) : LintOracleResult :=
  match from_der cert_der with
  | inl e => oracle_error (str "pkix-lint-cabf: DER parse failed: " ++ str e)
  | inr cert =>
      {| or_findings := sort_findings (omap cabf_finding (run_cert_at_issuance runner cert KindLeaf 0));
         or_error := None |}
  end.
End cabf.
