(* ===== verification/DiffCorpus.v ===== *)
(** * The corpora of the differential harness (pkix-difftest/src: corpus/mod.rs,
    corpus/limbo.rs, corpus/pkits.rs)

    How a chain is made of the files of a corpus: by a search for a path where
    there is one, in the order of the corpus otherwise; and the dates of a
    test. *)
From stdpp Require Import pretty.
From S2P Require Import Prelude X509 PathTypes Verifier ValidatePath PathBuilder Revocation SignerDiscovery Crl RevFetch LintTypes Deviation Aia TrustStore RustStr ZlintBridge DiffTest ErrorDisplay DiffOracle.

Record CorpusItem := { ci_name : bytes; ci_expected : option Verdict; ci_chain : Chain }.

(** [io::Error::new(e.kind(), format!(..))] around an error. *)
Definition annotate (prefix : bytes) (e : io_error) : io_error :=
  {| io_kind := io_kind e; io_display := prefix ++ io_display e |}.

(** ** Blocks of a PEM that are certificates *)
Definition CERT_LABEL : bytes := str "CERTIFICATE-----".
Definition slice_is (bs : bytes) (start : nat) (w : bytes) : bool :=
  bool_decide (start + length w ≤ length bs) && bool_decide (take (length w) (drop start bs) = w).

(** The block from the cursor: where it starts and ends, none when the search
    stops. *)
Definition filter_next (bs : bytes) (cursor : nat) : option (nat * nat) :=
  rel_begin ← find_subseq (drop cursor bs) BEGIN_MARK;
  let begin_start := cursor + rel_begin in
  rel_eol ← find_byte (drop begin_start bs) 10%N;
  let after_begin := begin_start + rel_eol + 1 in
  rel_end ← find_subseq (drop after_begin bs) END_MARK;
  let end_line_start := after_begin + rel_end in
  Some (begin_start,
    match find_byte (drop end_line_start bs) 10%N with
    | Some n => end_line_start + n + 1
    | None => length bs
    end).

(** [while cursor < bytes.len()] *)
Fixpoint filter_from (fuel : nat) (bs : bytes) (cursor : nat) (out : bytes) : option bytes :=
  if decide (length bs ≤ cursor) then Some out
  else
    match fuel with
    | 0 => None
    | S fuel =>
        match filter_next bs cursor with
        | None => Some out
        | Some (begin_start, block_end) =>
            filter_from fuel bs block_end
              (if slice_is bs (begin_start + length BEGIN_MARK) CERT_LABEL
               then out ++ take (block_end - begin_start) (drop begin_start bs) else out)
        end
    end.
Definition filter_non_certificate_blocks (bs : bytes) : option bytes :=
  filter_from (length bs) bs 0 [].

(** ** Dates of the limbo corpus *)
Definition limbo_days_from_civil (year month day : Z) : result string Z :=
  if negb (bool_decide (1 ≤ month ≤ 12)%Z) || negb (bool_decide (1 ≤ day ≤ 31)%Z)
  then Err "bad month/day"%string
  else
    let y := if decide (month ≤ 2)%Z then (year - 1)%Z else year in
    let era := Z.quot (if decide (0 ≤ y)%Z then y else y - 399)%Z 400 in
    let yoe := (y - era * 400)%Z in
    if decide (yoe < 0)%Z then Err "yoe out of range"%string
    else
      let doy := (Z.quot (153 * (if decide (2 < month) then month - 3 else month + 9) + 2) 5 + day - 1)%Z in
      let doe := (yoe * 365 + Z.quot yoe 4 - Z.quot yoe 100 + doy)%Z in
      Ok (era * 146097 + doe - 719468)%Z.

(** Checked [u32] arithmetic. *)
Definition checked_step (out x : N) : option N :=
  let v := (out * 10)%N in
  if decide (v ≤ u32_max)%N then
    let w := (v + (x - 48))%N in if decide (w ≤ u32_max)%N then Some w else None
  else None.
Fixpoint limbo_digits_from (out : N) (b : bytes) : result string N :=
  match b with
  | [] => Ok out
  | x :: b =>
      if negb (bool_decide (48 ≤ x ≤ 57)%N) then Err "non-digit"%string
      else out ← ok_or (checked_step out x) "overflow"%string; limbo_digits_from out b
  end.
Definition limbo_parse_digits (b : bytes) : result string N := limbo_digits_from 0 b.

(** The digits of [&bytes[a..b]]. *)
Definition digits_at (a b : nat) (s : bytes) : result string N :=
  d ← slice_range a b s; limbo_parse_digits d.

Definition is_ascii_digit (x : N) : bool := bool_decide (48 ≤ x ≤ 57)%N.
Fixpoint count_digits (s : bytes) : nat :=
  match s with [] => 0 | x :: s => if is_ascii_digit x then S (count_digits s) else 0 end.

(** The position after the fractional seconds. *)
Definition after_fraction (s : bytes) : result string nat :=
  if decide (s !! 19 = Some 46%N) then
    let count := count_digits (drop 20 s) in
    if decide (count = 0 ∨ 6 < count) then Err "bad fractional-seconds length"%string
    else Ok (20 + count)
  else Ok 19.

(** Sign, hours and minutes of the offset at a position. *)
Definition signed_offset (sign : Z) (cursor : nat) (s : bytes) : result string (Z * Z * Z) :=
  if decide (cursor + 6 ≠ length s) then Err "bad offset shape"%string
  else
    colon ← index s (cursor + 3);
    if decide (colon ≠ 58%N) then Err "bad offset shape"%string
    else
      oh ← digits_at (cursor + 1) (cursor + 3) s;
      om ← digits_at (cursor + 4) (cursor + 6) s;
      Ok (sign, Z.of_N oh, Z.of_N om).
Definition offset_at (cursor : nat) (s : bytes) : result string (Z * Z * Z) :=
  match s !! cursor with
  | Some 90%N =>
      if decide (cursor + 1 ≠ length s) then Err "trailing bytes after 'Z'"%string else Ok (1, 0, 0)%Z
  | Some 43%N => signed_offset 1 cursor s
  | Some 45%N => signed_offset (-1) cursor s
  | _ => Err "missing timezone designator"%string
  end.

(** The year of four digits fits an [i32], and the [i64] sums stay in range. *)
Definition parse_rfc3339_to_unix (s : bytes) : result string N :=
  if decide (length s < 20 ∨ s !! 10 ≠ Some 84%N) then Err "too short or missing 'T'"%string
  else
    year ← digits_at 0 4 s;
    month ← digits_at 5 7 s;
    day ← digits_at 8 10 s;
    hour ← digits_at 11 13 s;
    min ← digits_at 14 16 s;
    sec ← digits_at 17 19 s;
    cursor ← after_fraction s;
    '(off_sign, off_hour, off_min) ← offset_at cursor s;
    if decide (month = 0 ∨ 12 < month ∨ day = 0 ∨ 31 < day)%N then Err "bad month/day"%string
    else if decide (23 < hour ∨ 59 < min ∨ 60 < sec)%N then Err "bad time-of-day"%string
    else if decide (23 < off_hour ∨ 59 < off_min)%Z then Err "bad offset value"%string
    else
      days ← limbo_days_from_civil (Z.of_N year) (Z.of_N month) (Z.of_N day);
      let local_secs := (days * 86400 + Z.of_N hour * 3600 + Z.of_N min * 60 + Z.of_N sec)%Z in
      let offset_secs := (off_sign * (off_hour * 3600 + off_min * 60))%Z in
      let utc_secs := (local_secs - offset_secs)%Z in
      if decide (utc_secs < 0)%Z then Err "date before Unix epoch"%string else Ok (Z.to_N utc_secs).

(** ** The limbo corpus *)
Inductive ValidationKind := KindClient | KindServer.
#[global] Instance ValidationKind_eq_dec : EqDecision ValidationKind.
Proof. solve_decision. Defined.
Inductive ExpectedResult := ExpSuccess | ExpFailure.
Inductive Feature :=
| HasPolicyConstraints | HasCertPolicies | NoCertPolicies | PedanticPublicSuffixWildcard
| NameConstraintDn | PedanticWebpkiSubscriberKey | PedanticWebpkiEku | PedanticSerialNumber
| MaxChainDepth | PedanticRfc5280 | Rfc5280IncompatibleWithWebpki | DenialOfService | HasCrl.

(** The fields that the harness reads. *)
Record Testcase := {
  tc_id : bytes; tc_validation_kind : ValidationKind; tc_trusted_certs : list bytes;
  tc_untrusted_intermediates : list bytes; tc_peer_certificate : bytes;
  tc_validation_time : option bytes; tc_expected_result : ExpectedResult;
  tc_max_chain_depth : option N; tc_crls : list bytes; tc_features : list Feature }.
Record FilteredTestcase := {
  ft_id : bytes; ft_expected : Verdict; ft_validation_time_unix : N; ft_peer_certificate_pem : bytes;
  ft_intermediates_pem : list bytes; ft_trusted_certs_pem : list bytes }.

(** [serde_json::from_slice::<LimboManifest>]: the cases, or its message. *)
Class LimboJson := parse_manifest : bytes → bytes + list Testcase.

Definition DEFAULT_VALIDATION_TIME_UNIX : N := 1700000000.

(** The four clauses of the filter. *)
Definition in_scope (tc : Testcase) : bool :=
  bool_decide (tc_validation_kind tc = KindServer) && bool_decide (length (tc_features tc) = 0) &&
  bool_decide (tc_max_chain_depth tc = None) && bool_decide (tc_crls tc = []).

Section limbo.
Context `{DebugText}.

Definition limbo_time (tc : Testcase) : result io_error N :=
  match tc_validation_time tc with
  | Some s =>
      map_err (λ e, {| io_kind := ErrorKind.InvalidData;
        io_display := str "limbo corpus: testcase '" ++ tc_id tc ++ str "' has unparseable validation_time " ++
          str_debug s ++ str ": " ++ str e |}) (parse_rfc3339_to_unix s)
  | None => Ok DEFAULT_VALIDATION_TIME_UNIX
  end.

Fixpoint filter_testcases (l : list Testcase) : result io_error (list FilteredTestcase) :=
  match l with
  | [] => Ok []
  | tc :: l =>
      if negb (in_scope tc) then filter_testcases l
      else
        validation_time_unix ← limbo_time tc;
        rest ← filter_testcases l;
        Ok ({| ft_id := tc_id tc;
               ft_expected := match tc_expected_result tc with ExpSuccess => Pass | ExpFailure => Fail_ [] end;
               ft_validation_time_unix := validation_time_unix;
               ft_peer_certificate_pem := tc_peer_certificate tc;
               ft_intermediates_pem := tc_untrusted_intermediates tc;
               ft_trusted_certs_pem := tc_trusted_certs tc |} :: rest)
  end.

Definition load_from_bytes `{LimboJson} (bs : bytes) : result io_error (list FilteredTestcase) :=
  match parse_manifest bs with
  | inl e => invalid_chain (str "limbo corpus: malformed JSON: " ++ e)
  | inr testcases => filter_testcases testcases
  end.
End limbo.

Definition pem_to_der `{PemDecode} (pem_text : bytes) : result io_error bytes :=
  match decode_vec pem_text with
  | inl e => invalid_chain (str "PEM decode failed: " ++ e)
  | inr (label, der) =>
      if decide (label ≠ str "CERTIFICATE")
      then invalid_chain (str "expected CERTIFICATE PEM block, got " ++ label)
      else Ok der
  end.

(** ** Chains by a search for a path *)

(** [Option]s in which an index can panic: [Err tt] is [None]. *)
Abbreviation Try := (result unit).

Section build.
Context `{PathAsn1} `{KeyIdAsn1} `{DecodeOwned Certificate}.

(** [Certificate::from_der(bytes).ok()?] for every block. *)
Fixpoint parse_blocks (ders : list bytes) : Try (list Certificate) :=
  match ders with
  | [] => Ok []
  | der :: ders => cert ← lift_der (λ _, tt) (from_der der); rest ← parse_blocks ders; Ok (cert :: rest)
  end.

(** The octets that every certificate of a chain was read from. *)
Fixpoint source_ders (ders : list bytes) (parsed built : list Certificate) : Try (list bytes) :=
  match built with
  | [] => Ok []
  | built_cert :: built =>
      idx ← ok_or (fst <$> list_find (λ p, p = built_cert) parsed) tt;
      der ← index ders idx;
      rest ← source_ders ders parsed built;
      Ok (der :: rest)
  end.

(** The chain of a builder's answer, with the octets of the anchor at the end. *)
Definition built_chain (ders : list bytes) (parsed : list Certificate) (anchor_idx : nat)
    (answer : option (BuildError + list Certificate)) : Try (list bytes) :=
  match answer with
  | None => Panic
  | Some (inl _) => Err tt
  | Some (inr built) =>
      chain_der ← source_ders ders parsed built;
      anchor_der ← index ders anchor_idx;
      Ok (chain_der ++ [anchor_der])
  end.

(** *** limbo: the leaf comes first, the anchor last *)
Section verified.
Context `{OidText} {V : Type} `{SignatureVerifier V}.
(** [DefaultVerifier] *)
Variable verifier : V.
Definition limbo_try_build_chain (ders : list bytes) (now_unix : N) : Try (list bytes) :=
  if decide (length ders < 2) then Err tt
  else
    parsed ← parse_blocks ders;
    let anchor_idx := length parsed - 1 in
    ee ← index parsed 0;
    anchor ← index parsed anchor_idx;
    let pool := cert_pool_from_iter (delete anchor_idx parsed) in
    built_chain ders parsed anchor_idx
      (build_first_valid_path path_error_display ee pool [trust_anchor_from_cert anchor]
         (validation_policy_new now_unix) verifier).

(** [unwrap_or] *)
Definition unwrap_or_else {A E} (r : Try A) (default : A) : result E A :=
  match r with Ok a => Ok a | Err _ => Ok default | Panic => Panic end.

Context `{PemDecode}.
Fixpoint pems_to_ders (l : list bytes) : result io_error (list bytes) :=
  match l with
  | [] => Ok []
  | p :: l => der ← pem_to_der p; rest ← pems_to_ders l; Ok (der :: rest)
  end.

Definition limbo_build_item (tc : FilteredTestcase) : result io_error CorpusItem :=
  trusted_pem ← ok_or (head (ft_trusted_certs_pem tc))
    {| io_kind := ErrorKind.InvalidData;
       io_display := str "trusted_certs is empty (need at least one anchor)" |};
  peer ← pem_to_der (ft_peer_certificate_pem tc);
  inters ← pems_to_ders (ft_intermediates_pem tc);
  trusted ← pem_to_der trusted_pem;
  let positional_der := peer :: inters ++ [trusted] in
  ders ← unwrap_or_else (limbo_try_build_chain positional_der (ft_validation_time_unix tc)) positional_der;
  Ok {| ci_name := ft_id tc; ci_expected := Some (ft_expected tc);
        ci_chain := with_validation_time
          {| certs_der := ders; crls := []; root_in_chain := true; label := ft_id tc;
             validation_time_unix := None |} (ft_validation_time_unix tc) |}.
(** An element of [LimboCorpus::iter]. *)
Definition limbo_item (tc : FilteredTestcase) : result io_error CorpusItem :=
  map_err (annotate (str "limbo '" ++ ft_id tc ++ str "': ")) (limbo_build_item tc).
End verified.

(** *** PKITS: the anchor comes first, the leaf last *)
(** The fields that the harness reads. *)
Record PkitsVector := {
  pv_name : bytes; pv_cert_path : list bytes; pv_crl_path : list bytes; pv_should_validate : bool }.

Definition pkits_try_build_chain (ders : list bytes) : Try (list bytes) :=
  parsed ← parse_blocks ders;
  let anchor_idx := 0 in
  if decide (length parsed = 0) then Panic
  else
    let ee_idx := length parsed - 1 in
    anchor ← index parsed anchor_idx;
    ee ← index parsed ee_idx;
    let pool := cert_pool_from_iter (delete anchor_idx parsed) in
    built_chain ders parsed anchor_idx (build_path ee pool [trust_anchor_from_cert anchor]).

(** [Path::join] and [std::fs::read] *)
Context {P : Type} `{ReadFile P}.
Variable join : P → bytes → P.

Fixpoint read_files (dir : P) (names : list bytes) : result io_error (list bytes) :=
  match names with
  | [] => Ok []
  | name :: names =>
      let path := join dir name in
      bs ← match fs_read path with
           | inl e => Err (annotate (str "read " ++ path_display path ++ str ": ") e)
           | inr bs => Ok bs
           end;
      rest ← read_files dir names;
      Ok (bs :: rest)
  end.

Definition pkits_build_item (certs_dir crls_dir : P) (vec : PkitsVector) : result io_error CorpusItem :=
  if decide (length (pv_cert_path vec) < 2)
  then invalid_chain (str "CertPath has fewer than 2 entries")
  else
    der_blocks ← read_files certs_dir (pv_cert_path vec);
    chain_der ← unwrap_or_else (pkits_try_build_chain der_blocks) (reverse der_blocks);
    crl_blocks ← read_files crls_dir (pv_crl_path vec);
    Ok {| ci_name := pv_name vec;
          ci_expected := Some (if pv_should_validate vec then Pass else Fail_ []);
          ci_chain := {| certs_der := chain_der; crls := crl_blocks; root_in_chain := true;
                         label := pv_name vec; validation_time_unix := None |} |}.
Definition pkits_item (certs_dir crls_dir : P) (vec : PkitsVector) : result io_error CorpusItem :=
  map_err (annotate (str "PKITS '" ++ pv_name vec ++ str "': ")) (pkits_build_item certs_dir crls_dir vec).
End build.
