(* ===== verification/DiffTree.v ===== *)
(** * Directory trees of the differential harness
    (pkix-difftest/src/corpus/pem_tree.rs)

    The walk over a tree of directories, the revocation lists beside a chain,
    and what the walk finds: every regular file of the name that is sought, in
    an order that does not depend on how the system lists a directory.  The walk
    takes as fuel the depth of the tree. *)
From stdpp Require Import sorting.
From S2P Require Import Prelude X509 Aia LintTypes TrustStore RustStr DiffTest DiffTestSpec DiffCorpus.

(** ** Directories *)
Inductive FileType := TypeDir | TypeFile | TypeOther.

(** [std::fs::DirEntry]: its path and [file_type()]. *)
Record DirEntry (P : Type) := { de_path : P; de_file_type : io_error + FileType }.
Arguments de_path {P}. Arguments de_file_type {P}.

(** [Path::is_dir] and [std::fs::read_dir]; the iterator can fail at an entry. *)
Class DirFs (P : Type) := {
  is_dir : P → bool;
  read_dir : P → io_error + list (io_error + DirEntry P) }.
#[global] Hint Mode DirFs ! : typeclass_instances.

(** [Path::file_name], [parent], [join], [strip_prefix], [to_string_lossy] and
    the order of paths. *)
Class PathLib (P : Type) := {
  file_name : P → option bytes;
  parent : P → option P;
  path_join : P → bytes → P;
  path_strip_prefix : P → P → option P;
  to_string_lossy : P → bytes;
  path_cmp : P → P → comparison }.
#[global] Hint Mode PathLib ! : typeclass_instances.

Record PemTreeCorpus (P : Type) := { chain_paths : list P; tree_root : P }.
Arguments chain_paths {P}. Arguments tree_root {P}.

Section tree.
Context {P : Type} `{DirFs P} `{PathLib P}.

Definition is_named (filename : bytes) (path : P) : bool :=
  match file_name path with Some n => bool_decide (from_utf8_lossy n = filename) | None => false end.

(** The loop over the entries of a directory, with what walks a directory below. *)
Fixpoint walk_entries (walk : P → list P → option (result io_error (list P))) (filename : bytes)
    (entries : list (io_error + DirEntry P)) (out : list P) : option (result io_error (list P)) :=
  match entries with
  | [] => Some (Ok out)
  | inl e :: _ => Some (Err e)
  | inr entry :: entries =>
      let path := de_path entry in
      match de_file_type entry with
      | inl e => Some (Err e)
      | inr TypeDir =>
          match walk path out with
          | Some (Ok out) => walk_entries walk filename entries out
          | other => other
          end
      | inr TypeFile =>
          walk_entries walk filename entries (if is_named filename path then out ++ [path] else out)
      | inr TypeOther => walk_entries walk filename entries out
      end
  end.
Fixpoint walk (fuel : nat) (filename : bytes) (dir : P) (out : list P) : option (result io_error (list P)) :=
  match fuel with
  | 0 => None
  | S fuel =>
      match read_dir dir with
      | inl e => Some (Err e)
      | inr entries => walk_entries (walk fuel filename) filename entries out
      end
  end.

Context `{ReadFile P}.
Definition load_with_filename (fuel : nat) (root : P) (filename : bytes) :
    option (result io_error (PemTreeCorpus P)) :=
  if negb (is_dir root)
  then Some (Err {| io_kind := ErrorKind.NotFound;
    io_display := str "PEM-tree corpus: not a directory: " ++ path_display root |})
  else
    r ← walk fuel filename root [];
    Some (paths ← r; Ok {| chain_paths := sort_by path_cmp paths; tree_root := root |}).
Definition load (fuel : nat) (root : P) : option (result io_error (PemTreeCorpus P)) :=
  load_with_filename fuel root (str "chain.pem").

(** [.collect::<Result<Vec<_>, _>>()] *)
Fixpoint collect_entries (l : list (io_error + DirEntry P)) : result io_error (list (DirEntry P)) :=
  match l with
  | [] => Ok []
  | inl e :: _ => Err e
  | inr entry :: l => rest ← collect_entries l; Ok (entry :: rest)
  end.

Context `{PemDecode}.
Fixpoint load_crl_entries (entries : list (DirEntry P)) : result io_error (list bytes) :=
  match entries with
  | [] => Ok []
  | entry :: entries =>
      match de_file_type entry with
      | inl e => Err e
      | inr TypeFile =>
          let path := de_path entry in
          bs ← match fs_read path with inl e => Err e | inr bs => Ok bs end;
          crl ← match decode_vec bs with
                | inr (label, der) =>
                    if decide (label ≠ str "X509 CRL")
                    then invalid_chain (path_display path ++
                      str ": expected PEM block 'X509 CRL', got '" ++ label ++ str "'")
                    else Ok der
                | inl _ => Ok bs
                end;
          rest ← load_crl_entries entries;
          Ok (crl :: rest)
      | inr _ => load_crl_entries entries
      end
  end.
Definition load_crls_in_dir (dir : P) : result io_error (list bytes) :=
  match read_dir dir with
  | inl e => Err e
  | inr l =>
      entries ← collect_entries l;
      load_crl_entries (sort_by (λ a b, path_cmp (de_path a) (de_path b)) entries)
  end.

(** The chain with the lists of the directory [crls] next to it. *)
Definition attach_crls (path : P) (chain : Chain) : result io_error Chain :=
  match parent path with
  | None => Ok chain
  | Some dir =>
      let crls_dir := path_join dir (str "crls") in
      if is_dir crls_dir then
        crls ← map_err (annotate (str "crls/ for " ++ path_display path ++ str ": "))
          (load_crls_in_dir crls_dir);
        Ok (if decide (crls = []) then chain else with_crls chain crls)
      else Ok chain
  end.

Context `{Encode Name} `{DecodeOwned Certificate}.
Definition load_one (root path : P) : option (result io_error CorpusItem) :=
  match fs_read path with
  | inl e => Some (Err e)
  | inr bs =>
      cert_only ← filter_non_certificate_blocks bs;
      let name := to_string_lossy (default path (path_strip_prefix root path)) in
      r ← from_pem_bytes cert_only name;
      Some (chain ← r; chain ← attach_crls path chain;
            Ok {| ci_name := name; ci_expected := None; ci_chain := chain |})
  end.

(** [PemTreeCorpus::iter], when all of it is asked for. *)
Definition tree_item (root path : P) : option (result io_error CorpusItem) :=
  map_err (annotate (str "PEM-tree '" ++ path_display path ++ str "': ")) <$> load_one root path.
Definition tree_items (self : PemTreeCorpus P) : option (list (result io_error CorpusItem)) :=
  mapM (tree_item (tree_root self)) (chain_paths self).
End tree.

(** ** What the walk finds *)

(** Lists of lists, related one by one. *)
Lemma Forall2_perm_l {A B} (R : A → B → Prop) l l' k :
  l ≡ₚ l' → Forall2 R l k → ∃ k', k ≡ₚ k' ∧ Forall2 R l' k'.
Proof.
  intros Hl. revert k. induction Hl as [|x l l' _ IH|x y l|l1 l2 l3 _ IH1 _ IH2]; intros k Hk.
  - by exists k.
  - inversion Hk as [|? z ? k0 Hz Hk0]; subst. destruct (IH k0 Hk0) as (k' & Hp & Hk').
    exists (z :: k'). by split; [rewrite Hp|constructor].
  - inversion Hk as [|? z1 ? k1 Hz1 Hk1]; subst. inversion Hk1 as [|? z2 ? k2 Hz2 Hk2]; subst.
    exists (z2 :: z1 :: k2). split; [constructor|by repeat constructor].
  - destruct (IH1 k Hk) as (k1 & Hp1 & Hk1). destruct (IH2 k1 Hk1) as (k2 & Hp2 & Hk2).
    exists k2. by rewrite Hp1.
Qed.
Lemma concat_perm {A} (ls ks : list (list A)) : Forall2 Permutation ls ks → concat ls ≡ₚ concat ks.
Proof. induction 1 as [|l k ls ks Hl _ IH]; [done|]. cbn. by rewrite Hl, IH. Qed.

Section found.
Context {P : Type} `{DirFs P} `{PathLib P} (filename : bytes).

(** What an entry contributes, with what a directory below does. *)
Definition entry_finds (dir_finds : P → list P → Prop) (e : io_error + DirEntry P) (part : list P) : Prop :=
  match e with
  | inl _ => False
  | inr entry =>
      match de_file_type entry with
      | inl _ => False
      | inr TypeDir => dir_finds (de_path entry) part
      | inr TypeFile => part = if is_named filename (de_path entry) then [de_path entry] else []
      | inr TypeOther => part = []
      end
  end.
Fixpoint finds (fuel : nat) (dir : P) (found : list P) : Prop :=
  match fuel with
  | 0 => False
  | S fuel => ∃ entries parts, read_dir dir = inr entries ∧
      Forall2 (entry_finds (finds fuel)) entries parts ∧ found = concat parts
  end.

(** One turn of the loop. *)
Definition entry_step (walk_dir : P → list P → option (result io_error (list P)))
    (e : io_error + DirEntry P) (out : list P) : option (result io_error (list P)) :=
  match e with
  | inl e => Some (Err e)
  | inr entry =>
      match de_file_type entry with
      | inl e => Some (Err e)
      | inr TypeDir => walk_dir (de_path entry) out
      | inr TypeFile => Some (Ok (if is_named filename (de_path entry) then out ++ [de_path entry] else out))
      | inr TypeOther => Some (Ok out)
      end
  end.
Lemma walk_entries_step walk_dir e entries out :
  walk_entries walk_dir filename (e :: entries) out =
  match entry_step walk_dir e out with
  | Some (Ok out) => walk_entries walk_dir filename entries out
  | other => other
  end.
Proof. destruct e as [e|entry]; cbn; [done|]. by destruct (de_file_type entry) as [e|[| |]]. Qed.

Definition appends (walk_dir : P → list P → option (result io_error (list P)))
    (dir_finds : P → list P → Prop) : Prop :=
  ∀ p out r, walk_dir p out = Some (Ok r) ↔ ∃ found, dir_finds p found ∧ r = out ++ found.
Lemma entry_step_finds walk_dir dir_finds e out r :
  appends walk_dir dir_finds →
  entry_step walk_dir e out = Some (Ok r) ↔ ∃ part, entry_finds dir_finds e part ∧ r = out ++ part.
Proof.
  intros Hw. unfold entry_step, entry_finds. destruct e as [e|entry]; [naive_solver|].
  destruct (de_file_type entry) as [e|[| |]]; [naive_solver|by apply Hw| |].
  - destruct (is_named filename (de_path entry)); [naive_solver|].
    split; [intros [= <-]|intros (part & -> & ->)]; [exists []|]; by rewrite ?app_nil_r.
  - split; [intros [= <-]|intros (part & -> & ->)]; [exists []|]; by rewrite ?app_nil_r.
Qed.
Lemma walk_entries_finds walk_dir dir_finds entries out r :
  appends walk_dir dir_finds →
  walk_entries walk_dir filename entries out = Some (Ok r) ↔
  ∃ parts, Forall2 (entry_finds dir_finds) entries parts ∧ r = out ++ concat parts.
Proof.
  intros Hw. revert out. induction entries as [|e entries IH]; intros out.
  { cbn [walk_entries]. split; [intros [= <-]; exists []; by rewrite app_nil_r|].
    intros (parts & Hp & ->). inversion Hp. by rewrite app_nil_r. }
  rewrite walk_entries_step. split.
  - destruct (entry_step walk_dir e out) as [[out'|?|]|] eqn:He; intros Hr; [|done..].
    apply (entry_step_finds _ _ _ _ _ Hw) in He as (part & Hpart & ->).
    apply IH in Hr as (parts & Hparts & ->). exists (part :: parts).
    split; [by constructor|]. cbn. by rewrite app_assoc.
  - intros (l & Hl & ->). inversion Hl as [|? part ? parts Hpart Hparts]; subst.
    rewrite (proj2 (entry_step_finds _ _ e out (out ++ part) Hw)) by eauto.
    apply IH. exists parts. cbn. by rewrite app_assoc.
Qed.
Lemma walk_finds fuel dir out r :
  walk fuel filename dir out = Some (Ok r) ↔ ∃ found, finds fuel dir found ∧ r = out ++ found.
Proof.
  revert dir out r. induction fuel as [|fuel IH]; intros dir out r; cbn [walk finds].
  { split; [done|by intros (found & [] & _)]. }
  destruct (read_dir dir) as [e|entries] eqn:Hd.
  { split; [done|]. intros (found & (entries & parts & Hd' & _) & _). congruence. }
  rewrite (walk_entries_finds _ (finds fuel) _ _ _ IH). split.
  - intros (parts & Hp & ->). exists (concat parts). split; [by exists entries, parts|done].
  - intros (found & (entries' & parts & Hd' & Hp & ->) & ->). simplify_eq. by exists parts.
Qed.
End found.

(** The walk ends when the fuel is the depth of the tree. *)
Inductive depth_le {P} `{DirFs P} : nat → P → Prop :=
| depth_le_S n dir :
    (∀ entries entry, read_dir dir = inr entries → inr entry ∈ entries →
      de_file_type entry = inr TypeDir → depth_le n (de_path entry)) → depth_le (S n) dir.
Lemma walk_total {P} `{DirFs P} `{PathLib P} filename n (dir : P) out :
  depth_le n dir → walk n filename dir out ≠ None.
Proof.
  intros Hdepth. revert out. induction Hdepth as [n dir _ IH]; intros out. cbn [walk].
  destruct (read_dir dir) as [e|entries] eqn:Hd; [done|]. specialize (IH entries).
  assert (Hsub : entries ⊆ entries) by done. revert Hsub. generalize entries at 1 3 as l.
  intros l. revert out. induction l as [|e l IHl]; intros out Hsub; [done|]. rewrite walk_entries_step.
  assert (Hl : l ⊆ entries) by (intros x Hx; apply Hsub; by right).
  destruct (entry_step filename (walk n filename) e out) as [[out'|?|]|] eqn:He; [by apply IHl|done..|].
  unfold entry_step in He. destruct e as [e|entry]; [done|].
  destruct (de_file_type entry) as [e|[| |]] eqn:Ht; [done| |done..].
  exfalso. eapply (IH entry); [done|apply Hsub; by left|done|exact He].
Qed.

(** The regular files of the name below a directory. *)
Inductive below {P} `{DirFs P} `{PathLib P} (filename : bytes) : P → P → Prop :=
| below_file dir entries entry :
    read_dir dir = inr entries → inr entry ∈ entries → de_file_type entry = inr TypeFile →
    is_named filename (de_path entry) = true → below filename dir (de_path entry)
| below_dir dir entries entry p :
    read_dir dir = inr entries → inr entry ∈ entries → de_file_type entry = inr TypeDir →
    below filename (de_path entry) p → below filename dir p.
Lemma finds_below {P} `{DirFs P} `{PathLib P} filename fuel (dir : P) found p :
  finds filename fuel dir found → p ∈ found ↔ below filename dir p.
Proof.
  revert dir found. induction fuel as [|fuel IH]; intros dir found; cbn [finds]; [done|].
  intros (entries & parts & Hd & Hp & ->). rewrite list_elem_of_In, in_concat. setoid_rewrite <-list_elem_of_In. split.
  - intros (part & Hpart & Hin). apply list_elem_of_lookup in Hpart as (i & Hi).
    destruct (Forall2_lookup_r _ _ _ _ _ Hp Hi) as (e & He & Hf). apply list_elem_of_lookup_2 in He.
    destruct e as [e|entry]; [done|]. cbn in Hf. destruct (de_file_type entry) as [e|[| |]] eqn:Ht; [done| | |by subst; apply elem_of_nil in Hin].
    + eapply below_dir; [exact Hd|exact He|exact Ht|]. by apply (IH _ _ Hf).
    + destruct (is_named filename (de_path entry)) eqn:Hn; subst; [|by apply elem_of_nil in Hin].
      apply list_elem_of_singleton in Hin as ->. by eapply below_file.
  - intros Hb. assert (Hcase : ∃ entry, inr entry ∈ entries ∧
      ((de_file_type entry = inr TypeFile ∧ is_named filename (de_path entry) = true ∧ p = de_path entry) ∨
       (de_file_type entry = inr TypeDir ∧ below filename (de_path entry) p))).
    { inversion Hb as [? es entry Hd'|? es entry ? Hd']; subst; rewrite Hd in Hd';
        injection Hd' as <-; exists entry; eauto. }
    destruct Hcase as (entry & Hin & Hcase). apply list_elem_of_lookup in Hin as (i & Hi).
    destruct (Forall2_lookup_l _ _ _ _ _ Hp Hi) as (part & Hpart & Hf).
    exists part. split; [by eapply list_elem_of_lookup_2|]. cbn in Hf.
    destruct Hcase as [(Ht & Hn & ->)|[Ht Hbelow]]; rewrite Ht in Hf.
    + rewrite Hn in Hf. subst. by left.
    + by apply (IH _ _ Hf).
Qed.

(** ** The order of a corpus *)

(** Two file systems that list the same directories, each in its own order. *)
Definition same_listing {P} (fs1 fs2 : DirFs P) : Prop :=
  ∀ dir, match read_dir (DirFs := fs1) dir, read_dir (DirFs := fs2) dir with
         | inr l1, inr l2 => l1 ≡ₚ l2
         | inl _, inl _ => True
         | _, _ => False
         end.
Lemma finds_perm {P} (fs1 fs2 : DirFs P) `{PathLib P} filename fuel1 fuel2 (dir : P) found1 found2 :
  same_listing fs1 fs2 → finds (H := fs1) filename fuel1 dir found1 →
  finds (H := fs2) filename fuel2 dir found2 → found1 ≡ₚ found2.
Proof.
  intros Hsame. revert fuel2 dir found1 found2. induction fuel1 as [|fuel1 IH]; intros [|fuel2] dir found1 found2; [done..|].
  cbn [finds]. intros (entries1 & parts1 & Hd1 & Hp1 & ->) (entries2 & parts2 & Hd2 & Hp2 & ->).
  specialize (Hsame dir). rewrite Hd1, Hd2 in Hsame.
  destruct (Forall2_perm_l _ _ _ _ Hsame Hp1) as (parts & -> & Hparts). apply concat_perm.
  clear Hp1 Hd1 Hd2 Hsame entries1 parts1. revert parts Hparts.
  induction Hp2 as [|e part2 entries parts2 He2 _ IHp]; intros parts Hparts;
    inversion Hparts as [|? part1 ? parts1 He1 Hparts1]; subst; constructor; [|by apply IHp].
  destruct e as [e|entry]; [done|]. cbn in He1, He2.
  destruct (de_file_type entry) as [e|[| |]]; [done|by eapply IH|by subst..].
Qed.

(** The order of paths is a total order. *)
Class PathOrder (P : Type) `{PathLib P} : Prop := {
  path_cmp_total : ∀ x y : P, path_cmp x y = Gt → path_cmp y x ≠ Gt;
  path_cmp_trans : ∀ x y z : P, path_cmp x y ≠ Gt → path_cmp y z ≠ Gt → path_cmp x z ≠ Gt;
  path_cmp_antisym : ∀ x y : P, path_cmp x y ≠ Gt → path_cmp y x ≠ Gt → x = y }.

(** A corpus that is loaded holds exactly the regular files of the name below
    its root, in order; loading ends when the fuel is the depth of the tree. *)
Theorem load_correct {P} `{DirFs P} `{PathOrder P} `{ReadFile P} fuel (root : P) filename :
  (depth_le fuel root → load_with_filename fuel root filename ≠ None) ∧
  ∀ corpus, load_with_filename fuel root filename = Some (Ok corpus) →
    tree_root corpus = root ∧ is_dir root = true ∧
    StronglySorted (not_after path_cmp) (chain_paths corpus) ∧
    ∀ p, p ∈ chain_paths corpus ↔ below filename root p.
Proof.
  unfold load_with_filename. destruct (is_dir root) eqn:Hdir; cbn [negb]; [|by split].
  split.
  - intros Hd Hn. pose proof (walk_total filename fuel root [] Hd) as Ht.
    by destruct (walk fuel filename root []).
  - intros corpus (r & Hr & [= Hc])%bind_Some. destruct r as [paths|e|]; [|done..]. injection Hc as <-. cbn.
    apply walk_finds in Hr as (found & Hf & ->). cbn [app].
    destruct (sort_by_correct path_cmp path_cmp_total path_cmp_trans found) as (Hp & Hs & _).
    split_and!; [done..|]. intros p. rewrite Hp. by eapply finds_below.
Qed.

(** The corpus does not depend on the order in which the system lists the
    entries of a directory. *)
Theorem load_order_independent {P} (fs1 fs2 : DirFs P) `{PathOrder P} `{ReadFile P}
    fuel1 fuel2 (root : P) filename corpus1 corpus2 :
  same_listing fs1 fs2 →
  load_with_filename (H := fs1) fuel1 root filename = Some (Ok corpus1) →
  load_with_filename (H := fs2) fuel2 root filename = Some (Ok corpus2) → corpus1 = corpus2.
Proof.
  intros Hsame. unfold load_with_filename.
  destruct (is_dir (DirFs := fs1) root), (is_dir (DirFs := fs2) root); cbn [negb]; [|done..].
  intros (r1 & Hr1 & [= Hc1])%bind_Some (r2 & Hr2 & [= Hc2])%bind_Some.
  destruct r1 as [paths1|e|]; [|done..]. destruct r2 as [paths2|e|]; [|done..].
  injection Hc1 as <-. injection Hc2 as <-. f_equal.
  apply walk_finds in Hr1 as (found1 & Hf1 & ->). apply walk_finds in Hr2 as (found2 & Hf2 & ->).
  destruct (sort_by_correct path_cmp path_cmp_total path_cmp_trans found1) as (Hp1 & Hs1 & _).
  destruct (sort_by_correct path_cmp path_cmp_total path_cmp_trans found2) as (Hp2 & Hs2 & _).
  assert (AntiSymm (=) (not_after (path_cmp (P := P)))) by exact path_cmp_antisym.
  apply (StronglySorted_unique _ _ _ Hs1 Hs2). cbn [app].
  rewrite Hp1, Hp2. exact (finds_perm fs1 fs2 filename _ _ root _ _ Hsame Hf1 Hf2).
Qed.

(** ** A tree of three directories *)
Module TreeSample.
#[local] Instance toy_dirs : DirFs nat := {|
  is_dir d := bool_decide (d ∈ [0; 1; 2]);
  read_dir d := inr match d with
    | 0 => [inr {| de_path := 2; de_file_type := inr TypeDir |};
            inr {| de_path := 5; de_file_type := inr TypeFile |};
            inr {| de_path := 1; de_file_type := inr TypeDir |}]
    | 1 => [inr {| de_path := 4; de_file_type := inr TypeFile |};
            inr {| de_path := 7; de_file_type := inr TypeOther |}]
    | 2 => [inr {| de_path := 3; de_file_type := inr TypeFile |}]
    | _ => []
    end |}.
#[local] Instance toy_paths : PathLib nat := {|
  file_name p := Some (if decide (p = 4) then str "key.pem" else str "chain.pem");
  parent _ := None; path_join d _ := d; path_strip_prefix _ p := Some p;
  to_string_lossy _ := []; path_cmp := Nat.compare |}.
#[local] Instance toy_files : ReadFile nat := {| fs_read _ := inr []; path_display _ := [] |}.
Example toy_walk :
  load 2 0 = Some (Ok {| chain_paths := [3; 5]; tree_root := 0 |}) ∧ load 1 0 = None ∧
  load 2 9 = Some (Err {| io_kind := ErrorKind.NotFound; io_display := str "PEM-tree corpus: not a directory: " |}).
Proof. vm_compute. repeat split; reflexivity. Qed.
End TreeSample.
