(* ===== verification/DiffRun.v ===== *)
(** * Runs of the differential harness (pkix-difftest/src: corpus/pem_multi.rs,
    main.rs)

    The chain of the files of a command line, the names of the oracles, the loop
    that asks every oracle about every chain of a corpus, the reports, and the
    commands with their exit codes.  What lies outside has a state that the calls
    pass along; the arguments are those that [clap] has parsed. *)
From S2P Require Import Prelude X509 PathTypes Verifier ValidatePath PathBuilder Revocation SignerDiscovery Crl RevFetch LintTypes Deviation Aia TrustStore Json RustStr ZlintBridge DiffTest ErrorDisplay DiffOracle DiffCorpus DiffTree.

Definition io_err {A} (kind : ErrorKind.ErrorKind) (m : bytes) : result io_error A :=
  Err {| io_kind := kind; io_display := m |}.

(** ** A chain of explicit files *)
Definition is_ascii_whitespace (b : N) : bool := bool_decide (b ∈ [9; 10; 12; 13; 32]%N).
Definition looks_like_pem (bs : bytes) : bool :=
  match list_find (λ b, is_ascii_whitespace b = false ∧ b ∉ [239; 187; 191]%N) bs with
  | Some (start, _) => bool_decide (str "-----BEGIN " `prefix_of` drop start bs)
  | None => false
  end.

(** [pem_rfc7468::encode_string(label, LineEnding::LF, ..)] *)
Class PemEncode := encode_string : bytes → bytes → bytes + bytes.

Section files.
Context `{Encode Name} `{DecodeOwned Certificate} `{PemDecode} `{PemEncode} {P : Type} `{ReadFile P}.

(** What a file adds: its PEM, or the PEM of its octets. *)
Definition pem_of_file (path : P) : result io_error bytes :=
  bs ← match fs_read path with
       | inl e => Err (annotate (str "read " ++ path_display path ++ str ": ") e)
       | inr bs => Ok bs
       end;
  if looks_like_pem bs then
    match from_utf8 bs with
    | inl e => invalid_chain (path_display path ++ str ": invalid UTF-8 in PEM: " ++ utf8_error_display e)
    | inr s => Ok s
    end
  else
    match encode_string (str "CERTIFICATE") bs with
    | inl e => invalid_chain
        (path_display path ++ str ": DER " ++ [226; 134; 146]%N ++ str " PEM encode failed: " ++ e)
    | inr s => Ok s
    end.

(** [if !concat.ends_with(b"\n") { concat.push(b'\n') }] *)
Definition ensure_newline (s : bytes) : bytes :=
  if decide (last s = Some 10%N) then s else s ++ [10%N].
Fixpoint concat_files (acc : bytes) (paths : list P) : result io_error bytes :=
  match paths with
  | [] => Ok acc
  | path :: paths => pem ← pem_of_file path; concat_files (ensure_newline (acc ++ pem)) paths
  end.
Definition pem_multi_build_chain (paths : list P) (label : bytes) : option (result io_error Chain) :=
  if decide (paths = [])
  then Some (io_err ErrorKind.InvalidInput (str "pem-multi corpus: no cert files provided"))
  else
    match concat_files [] paths with
    | Ok concat => from_pem_bytes concat label
    | Err e => Some (Err e)
    | Panic => Some Panic
    end.
End files.

(** ** The list of oracles *)
Section names.
Context `{DebugText}.
Definition parse_oracle_name (s : bytes) : result io_error OracleName :=
  if decide (s = str "pkix-path") then Ok PkixPath
  else if decide (s = str "openssl") then Ok OpenSsl
  else if decide (s = str "pyca") then Ok Pyca
  else io_err ErrorKind.InvalidInput
    (str "unknown oracle: " ++ str_debug s ++ str " (try pkix-path, openssl, pyca)").

(** [s.split(',')] *)
Fixpoint split_commas (part s : bytes) : list bytes :=
  match s with
  | [] => [part]
  | 44%N :: s => part :: split_commas [] s
  | c :: s => split_commas (part ++ [c]) s
  end.
Fixpoint parse_names (l : list bytes) : result io_error (list OracleName) :=
  match l with
  | [] => Ok []
  | s :: l => n ← parse_oracle_name s; rest ← parse_names l; Ok (n :: rest)
  end.
Definition parse_oracle_list (s : bytes) : result io_error (list OracleName) :=
  parse_names (filter (λ s, s ≠ []) (trim <$> split_commas [] s)).
End names.

(** ** Runs *)

(** The clock, the two streams that are printed to (printing to a stream that is
    closed ends the process and is no step), and the files of the reports: to
    create one and to write to it. *)
Class Console (W : Type) := {
  system_time : W → Z;
  println : bytes → W → W;
  eprintln : bytes → W → W;
  write_stdout : bytes → W → option io_error * W;
  file_create : bytes → W → option io_error * W;
  file_write : bytes → bytes → W → option io_error * W }.
#[global] Hint Mode Console ! : typeclass_instances.

(** The oracles that are processes. *)
Class Harness (W : Type) := {
  openssl_verify : Chain → W → result io_error Verdict * W;
  pyca_verify : Chain → W → result io_error Verdict * W }.
#[global] Hint Mode Harness ! : typeclass_instances.

Section run.
Context `{PathAsn1} `{KeyIdAsn1} `{CrlAsn1} `{DecodeOwned Certificate}.
Context `{OidText} `{SerialDisplay} `{DebugText} {V : Type} `{SignatureVerifier V}.
Context {W : Type} `{Console W} `{Harness W}.
Variable verifier : V.

Definition run_oracle (name : OracleName) (chain : Chain) (w : W) : result io_error Verdict * W :=
  match name with
  | PkixPath => (verify verifier (system_time w) chain, w)
  | OpenSsl => openssl_verify chain w
  | Pyca => pyca_verify chain w
  end.

(** The verdicts of the oracles on the chain of an item, up to the first error,
    which is printed. *)
Fixpoint ask_oracles (names : list OracleName) (item : bytes) (chain : Chain) (w : W) :
    result io_error Tuple * W :=
  match names with
  | [] => (Ok [], w)
  | name :: names =>
      match run_oracle name chain w with
      | (Ok v, w) =>
          match ask_oracles names item chain w with
          | (Ok rest, w) => (Ok ((name, v) :: rest), w)
          | other => other
          end
      | (Err e, w) =>
          (Err e, eprintln (str "pkix-difftest: oracle " ++ oracle_as_str name ++ str " on chain " ++
                    str_debug item ++ str ": " ++ io_display e) w)
      | (Panic, w) => (Panic, w)
      end
  end.

(** [for item_result in corpus.iter()], with the vectors filled so far. *)
Fixpoint run_items (names : list OracleName) (items : list (result io_error CorpusItem))
    (classified : list Classified) (harness_errors : list (bytes * io_error)) (w : W) :
    result io_error (list Classified * list (bytes * io_error)) * W :=
  match items with
  | [] => (Ok (classified, harness_errors), w)
  | Err e :: items =>
      run_items names items classified (harness_errors ++ [(str "(corpus loader)", e)]) w
  | Panic :: _ => (Panic, w)
  | Ok item :: items =>
      match ask_oracles names (ci_name item) (ci_chain item) w with
      | (Ok verdicts, w) =>
          run_items names items
            (classified ++ [classify (ci_name item) verdicts (ci_expected item)]) harness_errors w
      | (Err e, w) => run_items names items classified (harness_errors ++ [(ci_name item, e)]) w
      | (Panic, w) => (Panic, w)
      end
  end.

(** [run_corpus] up to the reports. *)
Definition run_corpus (oracles : bytes) (items : list (result io_error CorpusItem)) (w : W) :
    result io_error (list Classified * list (bytes * io_error)) * W :=
  match parse_oracle_list oracles with
  | Ok names =>
      match run_items names items [] [] w with
      | (Ok (classified, errors), w) => (Ok (sort_by_severity classified, errors), w)
      | other => other
      end
  | Err e => (Err e, w)
  | Panic => (Panic, w)
  end.

(** The loop of [single]: every verdict is printed, the last one that is not a
    pass is kept. *)
Fixpoint single_loop (names : list OracleName) (chain : Chain) (worst : Verdict) (w : W) :
    result io_error Verdict * W :=
  match names with
  | [] => (Ok worst, w)
  | name :: names =>
      match run_oracle name chain w with
      | (Ok verdict, w) =>
          single_loop names chain (if is_pass verdict then worst else verdict)
            (println (oracle_as_str name ++ str ": " ++ verdict_display verdict) w)
      | other => other
      end
  end.
Definition run_single (chain : Chain) (oracle : bytes) (w : W) : result io_error Verdict * W :=
  match parse_oracle_list oracle with
  | Ok names => single_loop names chain Pass w
  | Err e => (Err e, w)
  | Panic => (Panic, w)
  end.
End run.

(** The class of what the processes promise: an error is one of input and output. *)
Class ProcessOracles (W : Type) `{Harness W} : Prop := {
  openssl_no_panic : ∀ chain (w : W), (openssl_verify chain w).1 ≠ Panic;
  pyca_no_panic : ∀ chain (w : W), (pyca_verify chain w).1 ≠ Panic }.

(** ** The command line *)
Inductive SingleOrRun := Single (v : Verdict) | ReportEmitted.

Record RunOpts := {
  opt_oracles : bytes; output_md : option bytes; output_json : option bytes;
  opt_sample_size : nat; opt_title : option bytes }.
Inductive CorpusCmd (P : Type) :=
| CmdPkits (dir : P) (opts : RunOpts)
| CmdPemTree (dir : P) (opts : RunOpts)
| CmdPemMulti (files : list P) (opts : RunOpts)
| CmdLimbo (manifest : P) (opts : RunOpts).
Arguments CmdPkits {P}. Arguments CmdPemTree {P}. Arguments CmdPemMulti {P}. Arguments CmdLimbo {P}.
Inductive Cmd (P : Type) := CmdSingle (chain : P) (oracle : bytes) | CmdRun (corpus : CorpusCmd P).
Arguments CmdSingle {P}. Arguments CmdRun {P}.
Definition opts_of {P} (cmd : CorpusCmd P) : RunOpts :=
  match cmd with
  | CmdPkits _ opts | CmdPemTree _ opts | CmdPemMulti _ opts | CmdLimbo _ opts => opts
  end.

(** [serde_json::from_slice::<Vec<PkitsVector>>] and [to_writer_pretty] on a
    writer that takes everything. *)
Class PkitsJson := parse_vectors : bytes → bytes + list PkitsVector.
Class JsonPretty := to_pretty : Value → bytes.

Section cli.
Context `{PathAsn1} `{KeyIdAsn1} `{CrlAsn1} `{Encode Name} `{DecodeOwned Certificate}.
Context `{OidText} `{SerialDisplay} `{DebugText} {V : Type} `{SignatureVerifier V}.
Context `{PemDecode} `{PemEncode} `{LimboJson} `{PkitsJson} `{JsonPretty}.
Context {P : Type} `{ReadFile P} `{DirFs P} `{PathLib P} {W : Type} `{Console W} `{Harness W}.
Variable verifier : V.

(** [LimboCorpus::load] and [PkitsCorpus::load] *)
Definition limbo_load (manifest_path : P) : result io_error (list FilteredTestcase) :=
  match fs_read manifest_path with
  | inl e => Err (annotate (str "limbo corpus: cannot read manifest at " ++
      path_display manifest_path ++ str ": ") e)
  | inr bs => load_from_bytes bs
  end.
Definition pkits_load (root : P) : result io_error (list PkitsVector) :=
  let manifest_path := path_join root (str "vectors.json") in
  match fs_read manifest_path with
  | inl e => Err (annotate (str "PKITS corpus: cannot read manifest at " ++
      path_display manifest_path ++ str ": ") e)
  | inr bs =>
      match parse_vectors bs with
      | inl e => invalid_chain (str "PKITS corpus: malformed manifest at " ++
          path_display manifest_path ++ str ": " ++ e)
      | inr vectors => Ok vectors
      end
  end.
Definition pem_multi_items (files : list P) : option (list (result io_error CorpusItem)) :=
  r ← pem_multi_build_chain files (str "pem-multi");
  Some [chain ← r; Ok {| ci_name := str "pem-multi"; ci_expected := None; ci_chain := chain |}].

(** A corpus is loaded, and all that its iterator gives; the fuel bounds the
    depth of a tree of directories. *)
Definition load_corpus (fuel : nat) (cmd : CorpusCmd P) :
    option (result io_error (list (result io_error CorpusItem))) :=
  match cmd with
  | CmdPkits dir _ => Some
      (map (pkits_item path_join (path_join dir (str "certs")) (path_join dir (str "crls"))) <$>
        pkits_load dir)
  | CmdPemTree dir _ =>
      r ← load fuel dir;
      match r with
      | Ok corpus => Ok <$> tree_items corpus
      | Err e => Some (Err e)
      | Panic => Some Panic
      end
  | CmdPemMulti files _ => Ok <$> pem_multi_items files
  | CmdLimbo manifest _ => Some (map (limbo_item verifier) <$> limbo_load manifest)
  end.

(** *** Reports *)

(** One write to the target that is open. *)
Definition write_to (target text : bytes) (w : W) : option io_error * W :=
  if decide (target = str "-") then write_stdout text w else file_write target text w.
Definition open_target (target : bytes) (w : W) : option io_error * W :=
  if decide (target = str "-") then (None, w) else file_create target w.
Definition emit_md (target : bytes) (classified : list Classified) (md_opts : MarkdownOptions) (w : W) :
    option io_error * W :=
  match open_target target w with
  | (Some e, w) => (Some e, w)
  | (None, w) => write_to target (write_markdown classified md_opts) w
  end.
Definition json_encode_error (e : io_error) : io_error :=
  {| io_kind := ErrorKind.Other; io_display := str "JSON encode: " ++ io_display e |}.
Definition emit_json (target : bytes) (classified : list Classified) (w : W) : option io_error * W :=
  match open_target target w with
  | (Some e, w) => (Some e, w)
  | (None, w) =>
      match write_to target (to_pretty (json_report classified)) w with
      | (Some e, w) => (Some (json_encode_error e), w)
      | (None, w) => write_to target [10%N] w
      end
  end.
Definition when_set (target : option bytes) (emit : bytes → W → option io_error * W) (w : W) :
    option io_error * W :=
  match target with Some target => emit target w | None => (None, w) end.
Definition emit_reports (opts : RunOpts) (classified : list Classified) (w : W) : option io_error * W :=
  let md_opts := {| sample_size := opt_sample_size opts; md_title := opt_title opts |} in
  match when_set (output_md opts) (λ target, emit_md target classified md_opts) w with
  | (Some e, w) => (Some e, w)
  | (None, w) =>
      match when_set (output_json opts) (λ target, emit_json target classified) w with
      | (Some e, w) => (Some e, w)
      | (None, w) =>
          if decide (output_md opts = None ∧ output_json opts = None)
          then write_stdout (write_markdown classified md_opts) w
          else (None, w)
      end
  end.

(** The rest of [run_corpus] when the corpus is loaded. *)
Definition run_loaded (opts : RunOpts) (items : list (result io_error CorpusItem)) (w : W) :
    result io_error unit * W :=
  match run_corpus verifier (opt_oracles opts) items w with
  | (Ok (classified, errors), w) =>
      match emit_reports opts classified w with
      | (Some e, w) => (Err e, w)
      | (None, w) =>
          (Ok tt, if decide (errors = []) then w
                  else eprintln (str "pkix-difftest: " ++ fmt_count (length errors) ++
                    str " harness error(s) during run; chains skipped from classification") w)
      end
  | (Err e, w) => (Err e, w)
  | (Panic, w) => (Panic, w)
  end.
Definition run (fuel : nat) (cmd : Cmd P) (w : W) : option (result io_error SingleOrRun * W) :=
  match cmd with
  | CmdSingle path oracle =>
      r ← from_pem_file path;
      Some match r with
           | Ok chain => let (v, w) := run_single verifier chain oracle w in (Single <$> v, w)
           | Err e => (Err e, w)
           | Panic => (Panic, w)
           end
  | CmdRun corpus =>
      r ← load_corpus fuel corpus;
      Some match r with
           | Ok items => let (u, w) := run_loaded (opts_of corpus) items w in
               ((λ _, ReportEmitted) <$> u, w)
           | Err e => (Err e, w)
           | Panic => (Panic, w)
           end
  end.

(** The exit code; a panic ends the process otherwise. *)
Definition exit_code (r : result io_error SingleOrRun) : option N :=
  match r with
  | Ok (Single Pass) | Ok ReportEmitted => Some 0%N
  | Ok (Single (Fail_ _)) => Some 1%N
  | Err _ => Some 2%N
  | Panic => None
  end.
Definition main (fuel : nat) (cmd : Cmd P) (w : W) : option (option N * W) :=
  '(r, w) ← run fuel cmd w;
  Some (exit_code r, match r with
                     | Err e => eprintln (str "pkix-difftest: error: " ++ io_display e) w
                     | _ => w
                     end).
End cli.
