(* ===== verification/DiffOracleSpec.v ===== *)
(** * What the in-process oracle of the differential harness and its chains promise *)
From stdpp Require Import gmap sorting pretty.
From S2P Require Import Prelude X509 PathTypes Verifier Samples Names CertChecks ValidatePath PathBuilder PathBuilderSpec Revocation SignerDiscovery Crl Chain ChainSpec RevFetch RevHttpSpec LintTypes Deviation LintRunner LintSpec Aia CtLogList TrustStore RustStr ZlintBridge DiffTest DiffTestSpec ErrorDisplay DiffOracle DiffCorpus DiffRun.

(** ** The oracle of pkix-path *)
Section crl_total.
Context `{PathAsn1} `{KeyIdAsn1} `{CrlAsn1} {V : Type} `{SignatureVerifier V}.

Lemma no_panic_check_crl_sign cert : no_panic (check_crl_sign cert).
Proof. unfold check_crl_sign. solve_no_panic. Qed.
Lemma no_panic_check_crl_window c now : no_panic (check_crl_window c now).
Proof. unfold check_crl_window. solve_no_panic. Qed.
Lemma no_panic_check_crl_signature c spki (v : V) : no_panic (check_crl_signature c spki v).
Proof. unfold check_crl_signature. solve_no_panic. Qed.
Lemma no_panic_cert_is_ca_cert cert : no_panic (cert_is_ca_cert cert).
Proof. unfold cert_is_ca_cert, cert_is_ca. apply no_panic_map_err. solve_no_panic. Qed.
Lemma no_panic_check_idp_scope cert idp name : no_panic (check_idp_scope cert idp name).
Proof.
  unfold check_idp_scope, check_idp_dp_scope, cert_crl_distribution_points. destruct idp; [|done].
  repeat (apply no_panic_bind; [|intros ? _]); auto using no_panic_cert_is_ca_cert with pkix.
  all: repeat case_match; auto with pkix.
  apply no_panic_bind; [unfold dpn_to_general_names; by case_match|]. intros ? _. by destruct (existsb _ _).
Qed.
Lemma no_panic_matching_loop name serial ind eff entries :
  no_panic (matching_loop name serial ind eff entries).
Proof.
  revert eff. induction entries as [|entry entries IH]; intros eff; [done|]. cbn [matching_loop].
  apply no_panic_bind; [|intros a _; by case_match].
  unfold update_effective, parse_certificate_issuer_dn. solve_no_panic.
Qed.
Lemma no_panic_delta_entries (self : CrlChecker V) signer : no_panic (delta_entries self signer).
Proof.
  unfold delta_entries, verify_delta_crl_and_collect. case_match; [|done].
  repeat (apply no_panic_bind; [|intros ? _]);
    auto using no_panic_check_crl_window with pkix. by case_match.
Qed.
Lemma no_panic_status name serial delta c dflt ind :
  no_panic (check_revocation_status_indirect name serial delta c dflt ind).
Proof.
  unfold check_revocation_status_indirect, find_matching_entry.
  apply no_panic_bind; [apply no_panic_matching_loop|]. intros [entry|] _; [by cbv zeta; case_decide|].
  apply no_panic_bind; [apply no_panic_matching_loop|]. by intros [].
Qed.
Lemma no_panic_check_with_signer (self : CrlChecker V) cert idp signer :
  no_panic (check_with_signer self cert idp signer).
Proof.
  unfold check_with_signer.
  apply no_panic_bind; [case_match; [apply no_panic_check_crl_sign|done]|intros _ _].
  apply no_panic_bind; [apply no_panic_check_crl_window|intros _ _].
  apply no_panic_bind; [apply no_panic_check_crl_signature|intros _ _].
  apply no_panic_bind; [apply no_panic_check_idp_scope|intros _ _].
  apply no_panic_bind; [apply no_panic_delta_entries|intros delta _]. apply no_panic_status.
Qed.
Lemma no_panic_parse_issuing_dp c : no_panic (parse_issuing_dp c).
Proof. unfold parse_issuing_dp. case_match; [apply no_panic_fmap; auto with pkix|done]. Qed.
Lemma no_panic_select_signer (self : CrlChecker V) idp own : no_panic (select_signer self idp own).
Proof. unfold select_signer. by repeat case_match. Qed.
#[global] Instance CrlChecker_total : RevocationTotal (CrlChecker V).
Proof.
  split; intros; cbn [check_revocation check_revocation_against_anchor CrlChecker_impl];
    unfold crl_check_revocation, crl_check_revocation_against_anchor;
    (apply no_panic_bind; [apply no_panic_parse_issuing_dp|intros idp _]);
    (apply no_panic_bind; [apply no_panic_select_signer|intros signer _]);
    repeat (apply no_panic_bind; [apply no_panic_fail_if|intros _ _]);
    apply no_panic_check_with_signer.
Qed.
End crl_total.

Section oracle_spec.
Context `{PathAsn1} `{KeyIdAsn1} `{CrlAsn1} `{DecodeOwned Certificate}.
Context `{OidText} `{SerialDisplay} `{DebugText} {V : Type} `{SignatureVerifier V}.
Variable verifier : V.

Definition decodes_to (der : bytes) (cert : Certificate) : Prop := from_der der = inr cert.

Lemma parse_certs_spec label i ders :
  match parse_certs label i ders with
  | Ok certs => Forall2 decodes_to ders certs
  | Err e => io_kind e = ErrorKind.InvalidData ∧ ∃ der e', der ∈ ders ∧ from_der (T:=Certificate) der = inl e'
  | Panic => False
  end.
Proof.
  revert i. induction ders as [|der ders IH]; intros i; cbn [parse_certs]; [constructor|].
  destruct (from_der der) as [e'|cert] eqn:Hd; cbn.
  - split; [done|]. exists der, e'. by split; [left|].
  - specialize (IH (S i)). destruct (parse_certs label (S i) ders) as [certs|e|]; cbn; [|destruct IH as (? & d & e' & ? & ?)|done].
    + by constructor.
    + split; [done|]. exists d, e'. by split; [right|].
Qed.

(** A list of the chain says that a certificate is revoked. *)
Definition revoked_by (cert : Certificate) (issuer_cert : option Certificate) (anchor : TrustAnchor)
    (now : N) (crl : bytes) (serial : SerialNumber) (reason : option CrlReason) : Prop :=
  crl_answer verifier cert issuer_cert anchor crl now = Some (Err (Revoked serial reason)).

Lemma crl_answer_no_panic cert issuer_cert anchor crl now :
  crl_answer verifier cert issuer_cert anchor crl now ≠ Some Panic.
Proof.
  unfold crl_answer. pose proof (crl_checker_new_no_panic crl now verifier) as Hn.
  destruct (crl_checker_new crl now verifier) as [c|e|]; [|done..]. intros [= Hp]. revert Hp.
  destruct issuer_cert as [issuer|]; [exact (check_total c cert issuer)|exact (check_anchor_total c cert anchor)].
Qed.

Lemma check_crls_spec i cert issuer_cert anchor crls now :
  match check_crls verifier i cert issuer_cert anchor crls now with
  | Ok None => ∀ crl serial code, crl ∈ crls → ¬ revoked_by cert issuer_cert anchor now crl serial code
  | Ok (Some text) => ∃ crl serial code, crl ∈ crls ∧
      revoked_by cert issuer_cert anchor now crl serial code ∧ text = revoked_text i (Revoked serial code)
  | _ => False
  end.
Proof.
  induction crls as [|crl crls IH]; cbn [check_crls]; [by intros ? ? ? ?%not_elem_of_nil|].
  assert (Hgo : (∀ serial code, ¬ revoked_by cert issuer_cert anchor now crl serial code) →
    match check_crls verifier i cert issuer_cert anchor crls now with
    | Ok None => ∀ c serial code, c ∈ crl :: crls → ¬ revoked_by cert issuer_cert anchor now c serial code
    | Ok (Some text) => ∃ c serial code, c ∈ crl :: crls ∧
        revoked_by cert issuer_cert anchor now c serial code ∧ text = revoked_text i (Revoked serial code)
    | _ => False
    end).
  { intros Hno. destruct (check_crls _ _ _ _ _ crls _) as [[text|]|e|]; [|by intros c s k [->|?]%elem_of_cons; auto|done..].
    destruct IH as (c & s & k & ? & ? & ?). exists c, s, k. by split; [right|]. }
  pose proof (crl_answer_no_panic cert issuer_cert anchor crl now) as Hn.
  destruct (crl_answer verifier cert issuer_cert anchor crl now) as [[u|e|]|] eqn:Ha; [..|];
    try (by apply Hgo; intros ? ?; unfold revoked_by; rewrite Ha); [|done].
  destruct e; try (by apply Hgo; intros ? ?; unfold revoked_by; rewrite Ha).
  exists crl, serial, reason_code. by split; [left|].
Qed.

Lemma check_chain_crls_spec i chain anchor crls now :
  match check_chain_crls verifier i chain anchor crls now with
  | Ok None => ∀ k cert crl serial code, chain !! k = Some cert → crl ∈ crls →
      ¬ revoked_by cert (chain !! S k) anchor now crl serial code
  | Ok (Some text) => ∃ k cert crl serial code, chain !! k = Some cert ∧ crl ∈ crls ∧
      revoked_by cert (chain !! S k) anchor now crl serial code ∧
      text = revoked_text (i + k) (Revoked serial code)
  | _ => False
  end.
Proof.
  revert i. induction chain as [|cert chain IH]; intros i; cbn [check_chain_crls]; [by intros|].
  pose proof (check_crls_spec i cert (head chain) anchor crls now) as Hc. rewrite head_lookup in *.
  destruct (check_crls _ _ _ _ _ _ _) as [[text|]|e|]; cbn [mbind result_bind]; [| |done..].
  - destruct Hc as (crl & s & k & ? & ? & ->). exists 0, cert, crl, s, k. by rewrite Nat.add_0_r.
  - specialize (IH (S i)). destruct (check_chain_crls _ _ _ _ _ _) as [[text|]|e|]; [| |done..].
    + destruct IH as (j & c & crl & s & k & ? & ? & ? & ->). exists (S j), c, crl, s, k.
      by rewrite Nat.add_succ_r.
    + intros [|j] c crl s k; cbn; [intros [= <-]|]; eauto.
Qed.

(** What the oracle answers on a chain that it can read: the certificates before
    the last one, the anchor that the last one makes, and the time. *)
Definition verdict_spec (certs : list Certificate) (anchor : TrustAnchor) (now : N) (crls : list bytes)
    (v : Verdict) : Prop :=
  let path := validate_path certs [anchor] (validation_policy_new now) verifier in
  match v with
  | Pass => (∃ vp, path = Ok vp) ∧ ∀ k cert crl serial code, certs !! k = Some cert → crl ∈ crls →
      ¬ revoked_by cert (certs !! S k) anchor now crl serial code
  | Fail_ reason =>
      (∃ e, path = Err e ∧ reason = str (path_error_display e)) ∨
      (∃ vp, path = Ok vp) ∧ ∃ k cert crl serial code, certs !! k = Some cert ∧ crl ∈ crls ∧
        revoked_by cert (certs !! S k) anchor now crl serial code ∧
        reason = revoked_text k (Revoked serial code)
  end.

Definition oracle_time (t : Z) (chain : Chain) : N := default (Z.to_N t) (validation_time_unix chain).

Lemma verify_readable t chain certs anchor_cert :
  root_in_chain chain = true → certs ≠ [] → Forall2 decodes_to (certs_der chain) (certs ++ [anchor_cert]) →
  ∃ v, verify verifier t chain = Ok v ∧
    verdict_spec certs (trust_anchor_from_cert anchor_cert) (oracle_time t chain) (crls chain) v.
Proof.
  intros Hroot Hne Hder. unfold verify. rewrite Hroot. cbn [negb].
  pose proof (Forall2_length _ _ _ Hder) as Hl. rewrite length_app in Hl. cbn in Hl.
  assert (length certs ≠ 0) by by destruct certs.
  rewrite decide_False by lia. pose proof (parse_certs_spec (label chain) 0 (certs_der chain)) as Hp.
  destruct (parse_certs _ _ _) as [parsed|e|]; [| |done].
  2: { destruct Hp as (_ & d & e' & (k & Hk)%list_elem_of_lookup & He').
    destruct (Forall2_lookup_l _ _ _ _ _ Hder Hk) as (c & _ & Hc). unfold decodes_to in Hc. congruence. }
  assert (parsed = certs ++ [anchor_cert]) as ->.
  { clear -Hp Hder. revert parsed Hp. induction Hder as [|d c ds cs Hd _ IH]; intros parsed Hp;
      inversion Hp as [|? c' ? cs' Hd' Hds']; subst; [done|]. unfold decodes_to in *. f_equal; [congruence|auto]. }
  cbn [mbind result_bind]. rewrite length_app. cbn [length]. rewrite Nat.add_sub.
  rewrite (proj2 (index_Ok _ _ anchor_cert)) by (by rewrite lookup_app_r, Nat.sub_diag by lia).
  cbn [mbind result_bind]. rewrite take_app_length. fold (oracle_time t chain).
  set (anchor := trust_anchor_from_cert anchor_cert). set (now := oracle_time t chain).
  unfold verdict_spec. pose proof (no_panic_validate_path certs [anchor] (validation_policy_new now) verifier) as Hn.
  destruct (validate_path certs [anchor] (validation_policy_new now) verifier) as [vp|e|]; [| |done].
  2: { eexists. split; [done|]. left. by exists e. }
  destruct (decide (crls chain = [])) as [->|_].
  { exists Pass. split; [done|]. split; [by exists vp|]. by intros ? ? ? ? ? _ ?%not_elem_of_nil. }
  pose proof (check_chain_crls_spec 0 certs anchor (crls chain) now) as Hc.
  destruct (check_chain_crls _ _ _ _ _ _) as [[text|]|e|]; [| |done..]; cbn; eexists; (split; [done|]).
  - right. split; [by exists vp|exact Hc].
  - split; [by exists vp|exact Hc].
Qed.

(** The oracle never panics.  It has a verdict on exactly the chains that come
    with their root, have two certificates and are readable: a pass when the
    path to the last certificate is valid at the time of the chain and none of
    its lists revokes one of the certificates, and otherwise a failure with the
    error of the path or the first revocation. *)
Theorem verify_correct t chain :
  match verify verifier t chain with
  | Ok v => root_in_chain chain = true ∧ ∃ certs anchor_cert, certs ≠ [] ∧
      Forall2 decodes_to (certs_der chain) (certs ++ [anchor_cert]) ∧
      verdict_spec certs (trust_anchor_from_cert anchor_cert) (oracle_time t chain) (crls chain) v
  | Err e => io_kind e = ErrorKind.InvalidData ∧ (root_in_chain chain = false ∨
      length (certs_der chain) < 2 ∨ ∃ der e', der ∈ certs_der chain ∧ from_der (T:=Certificate) der = inl e')
  | Panic => False
  end.
Proof.
  destruct (root_in_chain chain) eqn:Hroot; [|unfold verify; rewrite Hroot; by split; [|left]].
  destruct (decide (length (certs_der chain) < 2)) as [Hl|Hl].
  { unfold verify. rewrite Hroot. cbn [negb]. rewrite decide_True by done. by split; [|right; left]. }
  pose proof (parse_certs_spec (label chain) 0 (certs_der chain)) as Hp.
  destruct (parse_certs (label chain) 0 (certs_der chain)) as [parsed|e|] eqn:He; [| |done].
  - pose proof (Forall2_length _ _ _ Hp) as Hlen.
    destruct parsed as [|anchor_cert certs _] using rev_ind; [cbn in Hlen; lia|].
    rewrite length_app in Hlen. cbn in Hlen. assert (certs ≠ []) by (by intros ->; cbn in Hlen; lia).
    destruct (verify_readable t chain certs anchor_cert) as (v & -> & Hv); [done..|].
    split; [done|]. by exists certs, anchor_cert.
  - unfold verify. rewrite Hroot. cbn [negb]. rewrite decide_False, He by done. cbn.
    split; [apply Hp|]. right. right. apply Hp.
Qed.
End oracle_spec.

(** ** Chains by a search for a path *)
Section build_spec.
Context `{PathAsn1} `{KeyIdAsn1} `{DecodeOwned Certificate}.

Lemma parse_blocks_spec ders :
  match parse_blocks ders with
  | Ok parsed => Forall2 decodes_to ders parsed
  | Err _ => ∃ der e, der ∈ ders ∧ from_der (T:=Certificate) der = inl e
  | Panic => False
  end.
Proof.
  induction ders as [|der ders IH]; cbn [parse_blocks]; [constructor|].
  destruct (from_der der) as [e|cert] eqn:Hd; cbn; [by exists der, e; split; [left|]|].
  destruct (parse_blocks ders) as [parsed|u|]; cbn; [by constructor| |done].
  destruct IH as (d & e & ? & ?). exists d, e. by split; [right|].
Qed.

(** The octets found for certificates that were read from them decode to them. *)
Lemma source_ders_spec ders parsed built :
  Forall2 decodes_to ders parsed → (∀ c, c ∈ built → c ∈ parsed) →
  ∃ out, source_ders ders parsed built = Ok out ∧ Forall2 decodes_to out built ∧ ∀ d, d ∈ out → d ∈ ders.
Proof.
  intros Hp. induction built as [|c built IH]; intros Hin; cbn [source_ders].
  { exists []. split_and!; [done|by apply Forall2_nil|]. by intros ? ?%not_elem_of_nil. }
  destruct (list_find_elem_of (λ p, p = c) parsed c) as [[idx x] Hf]; [by apply Hin; left|done|].
  rewrite Hf. apply list_find_Some in Hf as (Hidx & -> & _). cbn [fmap option_fmap option_map fst ok_or mbind result_bind].
  destruct (Forall2_lookup_r _ _ _ _ _ Hp Hidx) as (der & Hder & Hdec).
  rewrite (proj2 (index_Ok _ _ der)) by done. cbn [mbind result_bind].
  destruct IH as (out & -> & Hout & Hsub); [by intros x Hx; apply Hin; right|].
  cbn. exists (der :: out). split_and!; [done|by constructor|].
  intros d [->|Hd]%elem_of_cons; [by eapply list_elem_of_lookup_2|by apply Hsub].
Qed.

Lemma built_chain_spec ders parsed anchor_idx anchor_der answer :
  Forall2 decodes_to ders parsed → ders !! anchor_idx = Some anchor_der →
  (∀ chain c, answer = inr chain → c ∈ chain → c ∈ parsed) →
  match built_chain ders parsed anchor_idx (Some answer) with
  | Ok out => ∃ chain l, answer = inr chain ∧ out = l ++ [anchor_der] ∧ Forall2 decodes_to l chain ∧
      ∀ d, d ∈ out → d ∈ ders
  | Err _ => ∃ e, answer = inl e
  | Panic => False
  end.
Proof.
  intros Hp Ha Hin. unfold built_chain. destruct answer as [e|chain]; [by exists e|].
  destruct (source_ders_spec ders parsed chain Hp) as (l & -> & Hl & Hsub); [by intros; eapply Hin|].
  cbn [mbind result_bind]. rewrite (proj2 (index_Ok _ _ anchor_der)) by done. cbn.
  exists chain, l. split_and!; [done..|]. intros d Hd. apply elem_of_app in Hd as [Hd|Hd]; [by apply Hsub|].
  apply list_elem_of_singleton in Hd as ->. by eapply list_elem_of_lookup_2.
Qed.

(** The certificates of a chain that a search found, and their octets. *)
Record found_chain (ders out : list bytes) (target anchor_cert : Certificate) (certs : list Certificate)
    (anchor_der : bytes) : Prop := {
  fc_decodes : Forall2 decodes_to out (certs ++ [anchor_cert]);
  fc_target : head certs = Some target;
  fc_anchor : last out = Some anchor_der;
  fc_members : ∀ d, d ∈ out → d ∈ ders }.

Lemma found_chain_of ders out l target anchor_cert anchor_der certs :
  Forall2 decodes_to l certs → decodes_to anchor_der anchor_cert → head certs = Some target →
  out = l ++ [anchor_der] → (∀ d, d ∈ out → d ∈ ders) →
  found_chain ders out target anchor_cert certs anchor_der.
Proof.
  intros Hl Ha Ht -> Hsub. split; [|done|by rewrite last_snoc|done]. by apply Forall2_app; [|repeat constructor].
Qed.

Section verified.
Context `{OidText} {V : Type} `{SignatureVerifier V}.
Variable verifier : V.

(** Whatever is found starts with the first certificate, ends with the last one
    and is valid; the search fails only on one that cannot be read, or when the
    builder finds no valid chain. *)
Lemma limbo_try_build_chain_spec ders now :
  match limbo_try_build_chain verifier ders now with
  | Ok out => ∃ ee anchor_cert certs anchor_der vp, from_der <$> head ders = Some (inr ee) ∧
      last ders = Some anchor_der ∧ found_chain ders out ee anchor_cert certs anchor_der ∧
      validate_path certs [trust_anchor_from_cert anchor_cert] (validation_policy_new now) verifier = Ok vp
  | Err _ => length ders < 2 ∨ (∃ der e, der ∈ ders ∧ from_der (T:=Certificate) der = inl e) ∨
      ∃ ee mid anchor_cert e, Forall2 decodes_to ders (ee :: mid ++ [anchor_cert]) ∧
        build_first_valid_path path_error_display ee (cert_pool_from_iter (ee :: mid))
          [trust_anchor_from_cert anchor_cert] (validation_policy_new now) verifier = Some (inl e)
  | Panic => False
  end.
Proof.
  unfold limbo_try_build_chain. destruct (decide _) as [|Hl]; [by left|].
  pose proof (parse_blocks_spec ders) as Hp. destruct (parse_blocks ders) as [parsed|u|]; [|by right; left|done].
  pose proof (Forall2_length _ _ _ Hp) as Hlen. cbn [mbind result_bind].
  destruct parsed as [|ee parsed]; [cbn in Hlen; lia|].
  destruct parsed as [|anchor_cert mid _] using rev_ind; [cbn in Hlen; lia|].
  assert (length (ee :: mid ++ [anchor_cert]) - 1 = length (ee :: mid)) as Hidx
    by (cbn; rewrite length_app; cbn; lia).
  assert ((ee :: mid ++ [anchor_cert]) !! length (ee :: mid) = Some anchor_cert) as Ha
    by (change (ee :: mid ++ [anchor_cert]) with ((ee :: mid) ++ [anchor_cert]);
      by rewrite lookup_app_r, Nat.sub_diag).
  rewrite Hidx. cbn [index lookup list_lookup mbind result_bind] in *.
  rewrite (proj2 (index_Ok _ _ anchor_cert)) by exact Ha. cbn [mbind result_bind].
  assert (delete (length (ee :: mid)) (ee :: mid ++ [anchor_cert]) = ee :: mid) as Hdel
    by (change (ee :: mid ++ [anchor_cert]) with ((ee :: mid) ++ [anchor_cert]);
      by rewrite delete_middle, app_nil_r).
  rewrite Hdel. set (pool := cert_pool_from_iter (ee :: mid)).
  destruct (build_first_valid_path_cases path_error_display ee pool [trust_anchor_from_cert anchor_cert]
    (validation_policy_new now) verifier) as (answer & Hans & Hcases). rewrite Hans.
  destruct (Forall2_lookup_r _ _ _ _ _ Hp Ha) as (anchor_der & Hder & Hdec).
  assert (last ders = Some anchor_der) as Hlast
    by (rewrite last_lookup, Hlen, <-Hder; f_equal; cbn in *; lia).
  assert (∀ chain c, answer = inr chain → c ∈ chain → c ∈ ee :: mid ++ [anchor_cert]) as Hmem.
  { intros chain c -> Hc. destruct Hcases as [Hm _]. apply paths_members in Hm as [_ Hm].
    destruct (Hm c Hc) as [->|Hin]; [by left|]. rewrite (app_comm_cons mid), elem_of_app. by left. }
  pose proof (built_chain_spec ders _ (length (ee :: mid)) anchor_der answer Hp Hder Hmem) as Hb.
  destruct (built_chain _ _ _ _) as [out|u|]; [| |done].
  - destruct Hb as (chain & l & -> & -> & Hl' & Hsub).
    destruct Hcases as [Hm [vp Hvp]]. apply paths_members in Hm as [Hhead _].
    exists ee, anchor_cert, chain, anchor_der, vp. split_and!; [|done| |done].
    + inversion Hp as [|d0 ? ? ? Hd0]; subst. cbn. by rewrite Hd0.
    + by eapply found_chain_of.
  - right. right. destruct Hb as [e ->]. by exists ee, mid, anchor_cert, e.
Qed.
End verified.

Lemma build_path_member target pool anchors :
  ∃ r, build_path target pool anchors = Some r ∧
    match r with
    | inr chain => chain ∈ paths (certs pool) anchors (N.to_nat DEFAULT_MAX_DEPTH) [target]
    | inl _ => True
    end.
Proof.
  unfold build_path, build_path_with_config.
  destruct (next_start target pool anchors path_builder_config_new) as (item & s' & -> & Hi).
  cbn [mbind option_bind]. destruct item as [[e|chain]|].
  - by eexists.
  - eexists. split; [done|]. change (N.to_nat (max_depth path_builder_config_new)) with (N.to_nat DEFAULT_MAX_DEPTH) in Hi.
    destruct (paths _ _ _ _) as [|c l]; [done|]. injection Hi as ->. by left.
  - destruct (depth_probe_spec target pool anchors path_builder_config_new) as (e & -> & _). by eexists.
Qed.

(** The search on a bundle of PKITS never panics; what it finds starts with the
    last certificate of the bundle and ends with the first, its anchor. *)
Theorem pkits_try_build_chain_correct ders :
  ders ≠ [] →
  match pkits_try_build_chain ders with
  | Ok out => ∃ ee anchor_cert certs anchor_der, from_der <$> last ders = Some (inr ee) ∧
      head ders = Some anchor_der ∧ found_chain ders out ee anchor_cert certs anchor_der
  | Err _ => True
  | Panic => False
  end.
Proof.
  intros Hne. unfold pkits_try_build_chain. pose proof (parse_blocks_spec ders) as Hp.
  destruct (parse_blocks ders) as [parsed|u|]; [|done..]. cbn [mbind result_bind].
  pose proof (Forall2_length _ _ _ Hp) as Hlen. destruct ders as [|anchor_der ders]; [done|].
  destruct parsed as [|anchor_cert parsed]; [done|]. rewrite decide_False by done.
  cbn [index lookup list_lookup mbind result_bind].
  destruct (last (anchor_cert :: parsed)) as [ee|] eqn:Hee; [|by apply last_None in Hee].
  rewrite last_lookup in Hee. rewrite Nat.sub_1_r. rewrite (proj2 (index_Ok _ _ ee)) by exact Hee.
  cbn [mbind result_bind delete list_delete].
  destruct (build_path_member ee (cert_pool_from_iter parsed) [trust_anchor_from_cert anchor_cert])
    as (answer & Hans & Hm). rewrite Hans.
  pose proof (built_chain_spec (anchor_der :: ders) _ 0 anchor_der answer Hp eq_refl) as Hb.
  destruct (Forall2_lookup_r _ _ _ _ _ Hp Hee) as (ee_der & Heed & Hdec).
  assert (Hmem : ∀ chain c, answer = inr chain → c ∈ chain → c ∈ anchor_cert :: parsed).
  { intros chain c -> Hc. apply paths_members in Hm as [_ Hm]. destruct (Hm c Hc) as [->|Hin]; [|by right].
    by eapply list_elem_of_lookup_2. }
  specialize (Hb Hmem). destruct (built_chain _ _ _ _) as [out|u|]; [|done..].
  destruct Hb as (chain & l & -> & -> & Hl & Hsub). apply paths_members in Hm as [Hhead _].
  exists ee, anchor_cert, chain, anchor_der. split_and!; [|done|].
  - rewrite last_lookup, Hlen, Heed. cbn. by rewrite Hdec.
  - inversion Hp as [|? ? ? ? Hd]; subst. by eapply found_chain_of.
Qed.
End build_spec.

(** ** Items of the corpora *)
Section items.
Context `{PathAsn1} `{KeyIdAsn1} `{CrlAsn1} `{DecodeOwned Certificate} `{PemDecode}.
Context `{OidText} `{SerialDisplay} `{DebugText} {V : Type} `{SignatureVerifier V}.
Variable verifier : V.

Lemma pem_to_der_no_panic p : no_panic (pem_to_der p).
Proof. unfold pem_to_der. destruct (decode_vec p) as [e|[l d]]; [done|]. by case_decide. Qed.
Lemma pems_to_ders_no_panic l : no_panic (pems_to_ders l).
Proof.
  induction l as [|p l IH]; [done|]. cbn [pems_to_ders].
  apply no_panic_bind; [apply pem_to_der_no_panic|intros d _]. by apply no_panic_bind.
Qed.

(** The certificates of a test in the order it lists them. *)
Definition positional (tc : FilteredTestcase) (ders : list bytes) : Prop :=
  ∃ peer inters trusted_pem trusted, pem_to_der (ft_peer_certificate_pem tc) = Ok peer ∧
    pems_to_ders (ft_intermediates_pem tc) = Ok inters ∧ head (ft_trusted_certs_pem tc) = Some trusted_pem ∧
    pem_to_der trusted_pem = Ok trusted ∧ ders = peer :: inters ++ [trusted].

(** A chain of a limbo test that is not in the order of the test is one that the
    builder found: it is made of the certificates of the test, starts with the
    one of the peer and ends with the first trusted one, and the oracle of
    pkix-path, asked at any time, passes it; the time is that of the test. *)
Theorem limbo_item_passes tc t :
  match limbo_build_item verifier tc with
  | Ok item => ci_name item = ft_id tc ∧ ci_expected item = Some (ft_expected tc) ∧
      ∃ ders, positional tc ders ∧ let out := certs_der (ci_chain item) in
        out = ders ∨
        (∀ d, d ∈ out → d ∈ ders) ∧ last out = last ders ∧
        (∃ target certs, from_der (T:=Certificate) <$> head ders = Some (inr target) ∧
          Forall2 decodes_to out (target :: certs)) ∧
        verify verifier t (ci_chain item) = Ok Pass
  | Err _ => True
  | Panic => False
  end.
Proof.
  unfold limbo_build_item. destruct (head (ft_trusted_certs_pem tc)) as [trusted_pem|] eqn:Hh; [|done].
  cbn [ok_or mbind result_bind].
  destruct (pem_to_der (ft_peer_certificate_pem tc)) as [peer|e|] eqn:Hpeer; [|done|by destruct (pem_to_der_no_panic _ Hpeer)].
  cbn [mbind result_bind].
  destruct (pems_to_ders (ft_intermediates_pem tc)) as [inters|e|] eqn:Hint; [|done|by destruct (pems_to_ders_no_panic _ Hint)].
  cbn [mbind result_bind].
  destruct (pem_to_der trusted_pem) as [trusted|e|] eqn:Htr; [|done|by destruct (pem_to_der_no_panic _ Htr)].
  cbn [mbind result_bind]. set (ders := peer :: inters ++ [trusted]).
  assert (positional tc ders) as Hpos by (by exists peer, inters, trusted_pem, trusted).
  pose proof (limbo_try_build_chain_spec verifier ders (ft_validation_time_unix tc)) as Hs.
  destruct (limbo_try_build_chain _ _ _) as [out|u|]; [| |done]; cbn [unwrap_or_else mbind result_bind].
  2: { split_and!; [done..|]. exists ders. split; [done|]. by left. }
  destruct Hs as (ee & anchor_cert & certs & anchor_der & vp & Hee & Hlast & Hfound & Hvp).
  destruct Hfound as [Hdec Htarget Hanchor Hsub]. split_and!; [done..|]. exists ders. split; [done|]. right. cbn.
  destruct certs as [|c certs]; [done|]. injection Htarget as ->. split_and!; [done|by rewrite Hlast| |].
  - by exists ee, (certs ++ [anchor_cert]).
  - destruct (verify_readable verifier t (with_validation_time
      {| certs_der := out; crls := []; root_in_chain := true; label := ft_id tc; validation_time_unix := None |}
      (ft_validation_time_unix tc)) (ee :: certs) anchor_cert) as (v & Hv & Hspec); [done..|].
    etrans; [exact Hv|]. destruct v as [|reason]; [done|]. destruct Hspec as [(e & He & _)|(_ & k & c & crl & s & code & _ & Hcrl & _)].
    + change (oracle_time t _) with (ft_validation_time_unix tc) in He. congruence.
    + by apply not_elem_of_nil in Hcrl.
Qed.
End items.
