(* ===== verification/DiffProcess.v ===== *)
(** * The oracles of the differential harness that are other programs
    (pkix-difftest/src/oracles: openssl.rs, pyca.rs)

    The files and the arguments that openssl is given and the reason read from
    what it prints; the specification that the Python program reads and the
    verdict it writes.  Both are the processes of the runs of [DiffRun].  The
    operating system is a parameter with a state that the calls pass along. *)
From S2P Require Import Prelude X509 Aia LintTypes TrustStore Json RustStr ZlintBridge OscalEmit DiffTest DiffOracle DiffCorpus DiffRun.

(** ** The operating system *)

(** The variables of the environment that are Unicode; temporary directories;
    files; a program run to its end; a program with its standard streams piped:
    its process and whether the pipe of its input is there, what is written to
    it, its output when it has ended. *)
Class Processes (W : Type) := {
  env_var : bytes → W → option bytes;
  current_dir : W → io_error + bytes;
  path_exists : bytes → W → bool;
  tempdir_new : W → (io_error + bytes) * W;
  tempdir_drop : bytes → W → W;
  fs_write : bytes → bytes → W → option io_error * W;
  command_output : bytes → list bytes → W → (io_error + Output) * W;
  spawn_piped : bytes → list bytes → W → (io_error + N * bool) * W;
  write_stdin : N → bytes → W → option io_error * W;
  wait_with_output : N → W → (io_error + Output) * W }.
#[global] Hint Mode Processes ! : typeclass_instances.

(** [Path::ancestors]: the path itself comes first. *)
Class Ancestors := ancestors : bytes → list bytes.

(** [serde_json::from_slice] and [serde_json::to_string] on values. *)
Class JsonBytes := { from_slice : bytes → bytes + Value; to_string : Value → bytes + bytes }.

(** Computations that call the system. *)
Definition io (W A : Type) : Type := W → result io_error A * W.
#[global] Instance io_ret {W} : MRet (io W) := λ A a w, (Ok a, w).
#[global] Instance io_bind {W} : MBind (io W) := λ A B k m w,
  match m w with
  | (Ok a, w) => k a w
  | (Err e, w) => (Err e, w)
  | (Panic, w) => (Panic, w)
  end.
Definition io_lift {W A : Type} (r : result io_error A) : io W A := λ w, (r, w).
(** The [?] on a call. *)
Definition io_call {W A : Type} (f : W → (io_error + A) * W) : io W A := λ w,
  let (r, w) := f w in (match r with inl e => Err e | inr a => Ok a end, w).
Definition io_unit {W : Type} (f : W → option io_error * W) : io W unit := λ w,
  let (r, w) := f w in (match r with Some e => Err e | None => Ok tt end, w).
Definition io_map_err {W A : Type} (g : io_error → io_error) (m : io W A) : io W A := λ w,
  let (r, w) := m w in (map_err g r, w).

(** A program that is not there is reported with a text of its own. *)
Definition not_found_as (m : bytes) (e : io_error) : io_error :=
  if decide (io_kind e = ErrorKind.NotFound)
  then {| io_kind := ErrorKind.NotFound; io_display := m |} else e.

(** Both oracles need a chain that ends in its anchor. *)
Definition check_chain (oracle : bytes) (chain : Chain) : result io_error unit :=
  if negb (root_in_chain chain)
  then invalid_chain (oracle ++ str " oracle requires the trust anchor to be present as the last cert")
  else if decide (length (certs_der chain) < 2)
  then invalid_chain (oracle ++ str " oracle requires at least 2 certs (leaf + root)")
  else Ok tt.

(** ** openssl *)

(** *** What it prints *)

(** [s.rsplit_once(pat)]: around the last occurrence. *)
Fixpoint rsplit_once_str (pat s : bytes) : option (bytes * bytes) :=
  match s with
  | [] => None
  | c :: r =>
      match rsplit_once_str pat r with
      | Some (a, b) => Some (c :: a, b)
      | None => if decide (pat `prefix_of` s) then Some ([], drop (length pat) s) else None
      end
  end.

Definition parse_error_line (line : bytes) : option bytes :=
  if negb (bool_decide (str "error " `prefix_of` line)) then None
  else if bool_decide (str ": verification failed" `suffix_of` line) then None
  else if negb (contains_pat (str " at ") line) then None
  else trim ∘ snd <$> rsplit_once_str (str ": ") line.

Fixpoint first_reason (ls : list bytes) : option bytes :=
  match ls with
  | [] => None
  | line :: ls =>
      match parse_error_line (trim line) with
      | Some reason => Some reason
      | None => first_reason ls
      end
  end.
Definition NO_DIAGNOSTIC : bytes := str "openssl verify failed (no diagnostic on stderr)".
Definition extract_reason (stderr : bytes) : bytes :=
  match first_reason (lines stderr) with
  | Some reason => reason
  | None => default NO_DIAGNOSTIC (snd <$> list_find (λ l, l ≠ []) (trim <$> lines stderr))
  end.

(** *** What it is given *)
Definition OPENSSL_BIN_ENV : bytes := str "PKIX_DIFFTEST_OPENSSL_BIN".
Record VerifyArgs := {
  purpose : option bytes; verify_hostname : option bytes;
  verify_email : option bytes; verify_ip : option bytes }.
Definition verify_args_default : VerifyArgs :=
  {| purpose := None; verify_hostname := None; verify_email := None; verify_ip := None |}.

Section openssl.
Context `{Host} `{PemEncode} {W : Type} `{Processes W}.
Implicit Types (chain : Chain) (dir : bytes).

Definition der_to_pem (der : bytes) : result io_error bytes :=
  match encode_string (str "CERTIFICATE") der with
  | inl e => invalid_chain (str "PEM encode: " ++ e)
  | inr pem => Ok pem
  end.
Definition crl_to_pem (der : bytes) : result io_error bytes :=
  match encode_string (str "X509 CRL") der with
  | inl e => invalid_chain (str "CRL PEM encode: " ++ e)
  | inr pem => Ok pem
  end.
(** [for der in ders { out.push_str(&to_pem(der)?) }] *)
Fixpoint push_pems (to_pem : bytes → result io_error bytes) (out : bytes) (ders : list bytes) :
    result io_error bytes :=
  match ders with
  | [] => Ok out
  | der :: ders => pem ← to_pem der; push_pems to_pem (out ++ pem) ders
  end.

Definition write_chain_to_tempdir chain dir : io W bool :=
  let n := length (certs_der chain) in
  leaf_der ← io_lift (index (certs_der chain) 0);
  leaf ← io_lift (der_to_pem leaf_der);
  _ ← io_unit (fs_write (push dir (str "leaf.pem")) leaf);
  root_der ← io_lift (index (certs_der chain) (n - 1));
  root ← io_lift (der_to_pem root_der);
  _ ← io_unit (fs_write (push dir (str "root.pem")) root);
  if decide (n - 2 = 0) then mret false
  else
    ders ← io_lift (slice_range 1 (n - 1) (certs_der chain));
    intermediates ← io_lift (push_pems der_to_pem [] ders);
    _ ← io_unit (fs_write (push dir (str "intermediates.pem")) intermediates);
    mret true.
Definition write_crls_to_tempdir chain dir : io W bool :=
  if decide (crls chain = []) then mret false
  else
    concat ← io_lift (push_pems crl_to_pem [] (crls chain));
    _ ← io_unit (fs_write (push dir (str "crls.pem")) concat);
    mret true.

(** An option and its value, when there is one. *)
Definition opt_arg (name : bytes) (value : option bytes) : list bytes :=
  match value with Some v => [name; v] | None => [] end.
Definition openssl_args chain dir (has_intermediates has_crls : bool) (args : VerifyArgs) : list bytes :=
  [str "verify"; str "-CAfile"; push dir (str "root.pem")] ++
  (if has_intermediates then [str "-untrusted"; push dir (str "intermediates.pem")] else []) ++
  (if has_crls then [str "-CRLfile"; push dir (str "crls.pem"); str "-crl_check_all"] else []) ++
  opt_arg (str "-attime") (fmt_u64 <$> validation_time_unix chain) ++
  opt_arg (str "-purpose") (purpose args) ++
  opt_arg (str "-verify_hostname") (verify_hostname args) ++
  opt_arg (str "-verify_email") (verify_email args) ++
  opt_arg (str "-verify_ip") (verify_ip args) ++
  [push dir (str "leaf.pem")].

Definition openssl_verdict (output : Output) : Verdict :=
  if success (status output) then Pass
  else Fail_ (extract_reason (from_utf8_lossy (stderr output))).

(** The rest of a function after [TempDir::new()?]: the directory is removed when
    it ends. *)
Definition dropping {A} (dir : bytes) (m : io W A) : io W A := λ w,
  let (r, w) := m w in (r, tempdir_drop dir w).
Definition with_tempdir {A} (k : bytes → io W A) : io W A :=
  dir ← io_call tempdir_new; dropping dir (k dir).

Definition verify_with_bin_and_args chain (bin : bytes) (args : VerifyArgs) : io W Verdict :=
  _ ← io_lift (check_chain (str "openssl") chain);
  with_tempdir (λ dir,
    has_intermediates ← write_chain_to_tempdir chain dir;
    has_crls ← write_crls_to_tempdir chain dir;
    output ← io_map_err
      (not_found_as (str "openssl binary not found: tried `" ++ bin ++ str "` (set " ++
        OPENSSL_BIN_ENV ++ str " to override)"))
      (io_call (command_output bin (openssl_args chain dir has_intermediates has_crls args)));
    mret (openssl_verdict output)).

Definition openssl_bin (w : W) : bytes := default (str "openssl") (env_var OPENSSL_BIN_ENV w).
Definition verify_with_args chain (args : VerifyArgs) : io W Verdict := λ w,
  verify_with_bin_and_args chain (openssl_bin w) args w.
Definition verify_with_bin chain (bin : bytes) : io W Verdict :=
  verify_with_bin_and_args chain bin verify_args_default.
Definition openssl_rs_verify chain : io W Verdict := λ w, verify_with_bin chain (openssl_bin w) w.
End openssl.

(** ** Python *)

(** *** base64 *)
Definition ALPHABET : bytes :=
  str "ABCDEFGHIJKLMNOPQRSTUVWXYZabcdefghijklmnopqrstuvwxyz0123456789+/".
(** [ALPHABET[((n >> shift) & 0x3f) as usize]], inside its 64 octets. *)
Definition b64_char (n shift : N) : N :=
  default 0%N (ALPHABET !! N.to_nat (N.land (N.shiftr n shift) 63)).
Fixpoint base64_encode (bs : bytes) : bytes :=
  match bs with
  | a :: b :: c :: bs =>
      let n := N.lor (N.lor (N.shiftl a 16) (N.shiftl b 8)) c in
      b64_char n 18 :: b64_char n 12 :: b64_char n 6 :: b64_char n 0 :: base64_encode bs
  | [a; b] =>
      let n := N.lor (N.shiftl a 16) (N.shiftl b 8) in
      [b64_char n 18; b64_char n 12; b64_char n 6; 61%N]
  | [a] =>
      let n := N.shiftl a 16 in
      [b64_char n 18; b64_char n 12; 61%N; 61%N]
  | [] => []
  end.

Section pyca.
Context `{Host} `{Ancestors} `{DebugText} `{JsonBytes} `{PemEncode} {W : Type} `{Processes W}.
Implicit Types (chain : Chain).

(** *** What the program reads *)
Fixpoint certs_to_pems (ders : list bytes) : result io_error (list bytes) :=
  match ders with
  | [] => Ok []
  | der :: ders => pem ← der_to_pem der; rest ← certs_to_pems ders; Ok (pem :: rest)
  end.

(** The value that is rendered; the time in decimal. *)
Definition spec_value (leaf_pem root_pem : bytes) (intermediates : list bytes) chain : Value :=
  Object (
    [(str "leaf", String leaf_pem); (str "intermediates", Array (String <$> intermediates));
     (str "roots", Array [String root_pem])] ++
    match validation_time_unix chain with
    | Some secs => [(str "validation_time_unix", Number (fmt_u64 secs))]
    | None => []
    end ++
    match crls chain with
    | [] => []
    | crls => [(str "crls", Array (String ∘ base64_encode <$> crls))]
    end).
Definition build_spec_json chain : result io_error bytes :=
  let n := length (certs_der chain) in
  leaf_der ← index (certs_der chain) 0;
  leaf_pem ← der_to_pem leaf_der;
  root_der ← index (certs_der chain) (n - 1);
  root_pem ← der_to_pem root_der;
  ders ← slice_range 1 (n - 1) (certs_der chain);
  intermediates ← certs_to_pems ders;
  match to_string (spec_value leaf_pem root_pem intermediates chain) with
  | inl e => io_err ErrorKind.Other (str "JSON encode: " ++ e)
  | inr spec => Ok spec
  end.

(** *** What it writes *)
Definition parse_verdict (stdout : bytes) : result io_error Verdict :=
  v ← match from_slice stdout with
      | inl e => invalid_chain (str "pyca sidecar stdout is not JSON: " ++ e ++ str " (stdout: " ++
          str_debug (from_utf8_lossy stdout) ++ str ")")
      | inr v => Ok v
      end;
  verdict ← ok_or (x ← value_get (str "verdict") v; as_str x)
    {| io_kind := ErrorKind.InvalidData;
       io_display := str "pyca sidecar JSON missing " ++ [34%N] ++ str "verdict" ++ [34%N] ++ str " field" |};
  if decide (verdict = str "pass") then Ok Pass
  else if decide (verdict = str "fail")
  then Ok (Fail_ (default (str "(no reason supplied)") (x ← value_get (str "reason") v; as_str x)))
  else invalid_chain (str "pyca sidecar JSON: unknown verdict " ++ str_debug verdict).

(** The error of a program that ends with a code other than zero. *)
Definition sidecar_error (output : Output) : io_error :=
  let stderr := trim (from_utf8_lossy (stderr output)) in
  let code := exit_code_of (status output) in
  {| io_kind := if decide (code = Some 2%Z) then ErrorKind.NotFound else ErrorKind.Other;
     io_display := str "pyca sidecar exited " ++ fmt_i32_code (default (-1)%Z code) ++ str " (" ++
       default [] (head (lines stderr)) ++ str "): " ++ stderr |}.

(** *** Where it is *)
Definition PYCA_PYTHON_ENV : bytes := str "PYCA_DIFFTEST_PYTHON".
Definition find_up (relative : bytes) (cwd : bytes) (w : W) : option bytes :=
  snd <$> list_find (λ candidate, path_exists candidate w = true)
    ((λ ancestor, push ancestor relative) <$> ancestors cwd).
Definition default_venv_python (w : W) : option bytes :=
  match current_dir w with
  | inl _ => None
  | inr cwd => find_up (str "pkix-difftest/python/.venv/bin/python") cwd w
  end.
Definition resolve_python (w : W) : bytes :=
  match env_var PYCA_PYTHON_ENV w with
  | Some env_path => env_path
  | None =>
      match default_venv_python w with
      | Some venv => if path_exists venv w then venv else str "python3"
      | None => str "python3"
      end
  end.
Definition sidecar_script_path (w : W) : result io_error bytes :=
  match current_dir w with
  | inl e => Err e
  | inr cwd =>
      match find_up (str "pkix-difftest/python/pyca_oracle.py") cwd w with
      | Some candidate => Ok candidate
      | None => io_err ErrorKind.NotFound
          (str "pkix-difftest/python/pyca_oracle.py not found relative to current directory")
      end
  end.

Definition verify_with_python chain (python sidecar_script : bytes) : io W Verdict :=
  _ ← io_lift (check_chain (str "pyca") chain);
  spec ← io_lift (build_spec_json chain);
  '(child, stdin) ← io_map_err
    (not_found_as (str "pyca python interpreter not found: tried `" ++ from_utf8_lossy python ++ str "` (set " ++
      PYCA_PYTHON_ENV ++ str " or run pkix-difftest/python/setup-venv.sh)"))
    (io_call (spawn_piped python [sidecar_script]));
  _ ← (if stdin : bool then io_unit (write_stdin child spec)
       else io_lift (io_err ErrorKind.Other (str "could not open sidecar stdin")));
  output ← io_call (wait_with_output child);
  if negb (success (status output)) then io_lift (Err (sidecar_error output))
  else io_lift (parse_verdict (stdout output)).
Definition pyca_rs_verify chain : io W Verdict := λ w,
  match sidecar_script_path w with
  | Ok script => verify_with_python chain (resolve_python w) script w
  | Err e => (Err e, w)
  | Panic => (Panic, w)
  end.
End pyca.

#[export] Instance process_harness `{Host} `{Ancestors} `{DebugText} `{JsonBytes} `{PemEncode}
    {W : Type} `{Processes W} : Harness W :=
  {| openssl_verify := openssl_rs_verify; pyca_verify := pyca_rs_verify |}.

(** ** What openssl prints *)
Lemma rsplit_str_complete pat a b : pat ≠ [] → rsplit_once_str pat (a ++ pat ++ b) ≠ None.
Proof.
  intros Hpat. induction a as [|c a IH]; cbn [app].
  - destruct pat as [|c pat]; [done|]. cbn [app rsplit_once_str]. destruct (rsplit_once_str _ (pat ++ b)) as [[? ?]|]; [done|].
    rewrite decide_True by (by exists b). done.
  - cbn [rsplit_once_str]. by destruct (rsplit_once_str pat (a ++ pat ++ b)) as [[? ?]|].
Qed.
Lemma rsplit_str_Some pat s a b :
  pat ≠ [] → rsplit_once_str pat s = Some (a, b) →
  s = a ++ pat ++ b ∧ ∀ a' b', s = a' ++ pat ++ b' → length a' ≤ length a.
Proof.
  intros Hpat. revert a. induction s as [|c r IH]; intros a; cbn [rsplit_once_str]; [done|].
  destruct (rsplit_once_str pat r) as [[a0 b0]|] eqn:Hr.
  - intros [= <- <-]. destruct (IH a0 eq_refl) as [-> Hlast]. split; [done|]. intros [|x a'] b' Hs; cbn; [lia|].
    injection Hs as -> Hs. apply Hlast in Hs. lia.
  - case_decide as Hp; [|done]. intros [= <- <-]. destruct Hp as [k Hk]. rewrite Hk, drop_app_length.
    split; [done|]. intros [|x a'] b' Hs; cbn; [lia|]. rewrite <-Hk in Hs. injection Hs as -> Hs.
    by destruct (rsplit_str_complete pat a' b' Hpat); rewrite <-Hs.
Qed.

(** A line is read as an error when it has the form that is sought; the reason
    is what follows the last colon. *)
Theorem parse_error_line_correct line reason :
  parse_error_line line = Some reason ↔
  str "error " `prefix_of` line ∧ ¬ str ": verification failed" `suffix_of` line ∧
  contains_pat (str " at ") line = true ∧
  ∃ a b, line = a ++ str ": " ++ b ∧ (∀ a' b', line = a' ++ str ": " ++ b' → length a' ≤ length a) ∧
    reason = trim b.
Proof.
  unfold parse_error_line. case_bool_decide as Hpre; cbn [negb]; [|naive_solver].
  case_bool_decide as Hsuf; [naive_solver|]. destruct (contains_pat (str " at ") line); cbn [negb]; [|naive_solver].
  split.
  - intros ([a b] & Hr & ->)%fmap_Some. apply rsplit_str_Some in Hr as [-> Hlast]; [|done].
    split_and!; [done..|]. by exists a, b.
  - intros (_ & _ & _ & a & b & Hline & Hlast & ->).
    destruct (rsplit_once_str (str ": ") line) as [[a0 b0]|] eqn:Hr.
    + apply rsplit_str_Some in Hr as [Hline0 Hlast0]; [|done].
      cut (b0 = b); [by intros ->|]. pose proof (Hlast _ _ Hline0). pose proof (Hlast0 _ _ Hline).
      rewrite Hline in Hline0. apply app_inj_1 in Hline0 as [_ Hb]; [|lia]. by apply app_inv_head in Hb.
    + pose proof (rsplit_str_complete (str ": ") a b ltac:(done)) as Hc. by rewrite <-Hline in Hc.
Qed.

(** The reason of a failure is that of the first line that has the form; without
    one it is the first line that is not blank. *)
Theorem extract_reason_correct stderr :
  (∀ before line after reason, lines stderr = before ++ line :: after →
    Forall (λ l, parse_error_line (trim l) = None) before →
    parse_error_line (trim line) = Some reason → extract_reason stderr = reason) ∧
  (Forall (λ l, parse_error_line (trim l) = None) (lines stderr) →
    (∀ before line after, trim <$> lines stderr = before ++ line :: after → Forall (λ l, l = []) before →
      line ≠ [] → extract_reason stderr = line) ∧
    (Forall (λ l, trim l = []) (lines stderr) → extract_reason stderr = NO_DIAGNOSTIC)).
Proof.
  unfold extract_reason. split_and!; [|intros Hnone].
  - intros before line after reason -> Hb Hl.
    assert (Hf : first_reason (before ++ line :: after) = Some reason)
      by (induction Hb as [|l before Hn _ IH]; cbn [app first_reason]; [by rewrite Hl|by rewrite Hn]).
    by rewrite Hf.
  - assert (Hf : first_reason (lines stderr) = None) by (induction Hnone as [|l ls Hl _ IH]; cbn [first_reason]; [done|by rewrite Hl]).
    rewrite Hf. split.
    + intros before line after -> Hb Hl. rewrite (proj2 (list_find_Some _ _ (length before) line)); [done|].
      split_and!; [by rewrite lookup_app_r, Nat.sub_diag by lia|done|].
      intros j y Hj Hlt. rewrite lookup_app_l in Hj by done. rewrite Forall_lookup in Hb. rewrite (Hb _ _ Hj). by intros Hy.
    + intros Hall. rewrite (proj2 (list_find_None _ _)); [done|]. apply Forall_fmap.
      eapply Forall_impl; [exact Hall|]. by intros l Hl Hne.
Qed.

(** What OpenSSL 3 prints for a bad signature; a byte order mark hides the line. *)
Example extract_reason_example :
  extract_reason (str "CN = x" ++ [10%N] ++ str "error 7 at 1 depth lookup: certificate signature failure" ++
    [10%N] ++ str "error ee.pem: verification failed" ++ [10%N]) = str "certificate signature failure" ∧
  extract_reason ([239; 187; 191]%N ++ str "error 7 at 1 depth lookup: expired") =
    [239; 187; 191]%N ++ str "error 7 at 1 depth lookup: expired" ∧
  extract_reason [10; 32; 13; 10]%N = NO_DIAGNOSTIC.
Proof. vm_compute. repeat split; reflexivity. Qed.

(** ** base64 *)

(** The value of a character, and a decoder as RFC 4648, section 4, describes
    it. *)
Definition b64_value (c : N) : option N := N.of_nat ∘ fst <$> list_find (c =.) ALPHABET.
Fixpoint base64_decode (s : bytes) : option bytes :=
  match s with
  | [] => Some []
  | a :: b :: c :: d :: r =>
      x ← b64_value a;
      y ← b64_value b;
      let first := (x * 4 + y / 16)%N in
      if decide (c = 61%N ∧ d = 61%N ∧ r = []) then Some [first]
      else
        z ← b64_value c;
        let second := (y mod 16 * 16 + z / 4)%N in
        if decide (d = 61%N ∧ r = []) then Some [first; second]
        else
          t ← b64_value d;
          rest ← base64_decode r;
          Some (first :: second :: (z mod 4 * 64 + t)%N :: rest)
  | _ => None
  end.

Lemma lor_shiftl_add a b k : (b < 2 ^ k)%N → N.lor (N.shiftl a k) b = (a * 2 ^ k + b)%N.
Proof.
  intros Hb. assert (Hland : N.land (N.shiftl a k) b = 0%N).
  { apply N.bits_inj_0. intros i. rewrite N.land_spec. destruct (N.lt_ge_cases i k) as [Hi|Hi].
    - by rewrite N.shiftl_spec_low.
    - rewrite <-(N.mod_small b (2 ^ k)) by done. rewrite N.mod_pow2_bits_high by done. apply andb_false_r. }
  by rewrite <-N.lxor_lor, <-N.add_nocarry_lxor, N.shiftl_mul_pow2 by done.
Qed.
Lemma b64_table : Forall (λ v, b64_value (default 0%N (ALPHABET !! v)) = Some (N.of_nat v) ∧
  default 0%N (ALPHABET !! v) ≠ 61%N) (seq 0 64).
Proof. by_computation. Qed.
Lemma b64_char_spec n s : b64_value (b64_char n s) = Some (n / 2 ^ s mod 64)%N ∧ b64_char n s ≠ 61%N.
Proof.
  unfold b64_char. rewrite N.shiftr_div_pow2. change 63%N with (N.ones 6). rewrite N.land_ones. change (2 ^ 6)%N with 64%N.
  pose proof (N.mod_lt (n / 2 ^ s) 64 ltac:(done)) as Hlt.
  set (v := ((n / 2 ^ s) mod 64)%N) in *. clearbody v.
  pose proof (proj1 (Forall_forall _ _) b64_table (N.to_nat v)) as Ht.
  cbv beta in Ht. rewrite N2Nat.id in Ht. apply Ht. apply elem_of_seq. lia.
Qed.

Lemma b64_group a b c :
  (a < 256)%N → (b < 256)%N → (c < 256)%N →
  let n := N.lor (N.lor (N.shiftl a 16) (N.shiftl b 8)) c in
  let digit s := (n / 2 ^ s mod 64)%N in
  (digit 18 * 4 + digit 12 / 16 = a ∧ digit 12 mod 16 * 16 + digit 6 / 4 = b ∧
    digit 6 mod 4 * 64 + digit 0 = c)%N.
Proof.
  intros Ha Hb Hc n digit. assert (Hn : n = (a * 65536 + b * 256 + c)%N).
  { assert (Hb8 : N.shiftl b 8 = (b * 256)%N) by (by rewrite N.shiftl_mul_pow2).
    assert (Hinner : N.lor (N.shiftl a 16) (N.shiftl b 8) = N.shiftl (a * 256 + b) 8).
    { rewrite lor_shiftl_add, Hb8, N.shiftl_mul_pow2; [|rewrite Hb8; change (2 ^ 16)%N with 65536%N; lia].
      change (2 ^ 16)%N with 65536%N. change (2 ^ 8)%N with 256%N. lia. }
    unfold n. rewrite Hinner, lor_shiftl_add by done. change (2 ^ 8)%N with 256%N. lia. }
  unfold digit. rewrite Hn. change (2 ^ 18)%N with 262144%N. change (2 ^ 12)%N with 4096%N.
  change (2 ^ 6)%N with 64%N. change (2 ^ 0)%N with 1%N. clear n digit Hn. split_and!; zify; Z.to_euclidean_division_equations; lia.
Qed.

(** What the Python program decodes is what was encoded, in four characters for
    every three octets begun. *)
Theorem base64_roundtrip bs :
  Forall (λ b, b < 256)%N bs →
  base64_decode (base64_encode bs) = Some bs ∧ length (base64_encode bs) = 4 * ((length bs + 2) / 3).
Proof.
  induction bs as [bs IH] using (induction_ltof1 _ length). unfold ltof in IH.
  destruct bs as [|a [|b [|c bs]]]; [by repeat constructor| | |]; intros Ho.
  - inversion Ho as [|? ? Ha _]; subst. destruct (b64_group a 0 0 Ha) as (H1 & _); [done..|].
    rewrite N.shiftl_0_l, !N.lor_0_r in H1. cbn [base64_encode base64_decode].
    destruct (b64_char_spec (N.shiftl a 16) 18) as [-> _], (b64_char_spec (N.shiftl a 16) 12) as [-> _].
    cbn [mbind option_bind]. rewrite decide_True by done. by rewrite H1.
  - inversion Ho as [|? ? Ha Ho']; subst. inversion Ho' as [|? ? Hb _]; subst.
    destruct (b64_group a b 0 Ha Hb) as (H1 & H2 & _); [done|]. rewrite !N.lor_0_r in *. cbn [base64_encode base64_decode].
    set (n := N.lor _ _) in *.
    destruct (b64_char_spec n 18) as [-> _], (b64_char_spec n 12) as [-> _], (b64_char_spec n 6) as [-> Hne].
    cbn [mbind option_bind]. rewrite decide_False by naive_solver. cbn [mbind option_bind].
    rewrite decide_True by done. by rewrite H1, H2.
  - inversion Ho as [|? ? Ha Ho']; subst. inversion Ho' as [|? ? Hb Ho'']; subst. inversion Ho'' as [|? ? Hc Hbs]; subst.
    destruct (IH bs ltac:(cbn; lia) Hbs) as [IHd IHl].
    destruct (b64_group a b c Ha Hb Hc) as (H1 & H2 & H3). cbn [base64_encode base64_decode].
    set (n := N.lor _ _) in *. cbv zeta.
    destruct (b64_char_spec n 18) as [-> _], (b64_char_spec n 12) as [-> _], (b64_char_spec n 6) as [-> Hne],
      (b64_char_spec n 0) as [-> Hne'].
    cbn [mbind option_bind]. rewrite decide_False by naive_solver. cbn [mbind option_bind].
    rewrite decide_False by naive_solver. cbn [mbind option_bind]. rewrite IHd. cbn [mbind option_bind].
    rewrite H1, H2, H3. split; [done|]. cbn [length]. rewrite IHl.
    replace (S (S (S (length bs))) + 2) with (1 * 3 + (length bs + 2)) by lia. rewrite Nat.div_add_l by lia. lia.
Qed.

(** The vectors of RFC 4648, section 10. *)
Example base64_vectors :
  base64_encode (str "") = str "" ∧ base64_encode (str "f") = str "Zg==" ∧
  base64_encode (str "fo") = str "Zm8=" ∧ base64_encode (str "foo") = str "Zm9v" ∧
  base64_encode (str "foob") = str "Zm9vYg==" ∧ base64_encode (str "fooba") = str "Zm9vYmE=" ∧
  base64_encode (str "foobar") = str "Zm9vYmFy".
Proof. vm_compute. repeat split; reflexivity. Qed.

(** ** What the Python program reads and writes *)
Lemma certs_to_pems_Ok `{PemEncode} ders pems :
  certs_to_pems ders = Ok pems ↔ Forall2 (λ der pem, encode_string (str "CERTIFICATE") der = inr pem) ders pems.
Proof.
  assert (Hpem : ∀ der pem, der_to_pem der = Ok pem ↔ encode_string (str "CERTIFICATE") der = inr pem).
  { intros der pem. unfold der_to_pem. destruct (encode_string _ der); naive_solver. }
  revert pems. induction ders as [|der ders IH]; intros pems; cbn [certs_to_pems].
  { split; [intros [= <-]; constructor|by intros Hp; inversion Hp]. }
  rewrite bind_Ok. setoid_rewrite bind_Ok. split.
  - intros (pem & Hp%Hpem & rest & Hrest%IH & [= <-]). by constructor.
  - intros Hall. inversion Hall as [|? pem ? rest Hp Hrest]; subst. exists pem. split; [by apply Hpem|].
    exists rest. by split; [apply IH|].
Qed.

(** The certificates of a chain in their three parts. *)
Definition parted (chain : Chain) (leaf root : bytes) (middle : list bytes) : Prop :=
  certs_der chain = leaf :: middle ++ [root].
Lemma check_chain_Ok oracle chain :
  check_chain oracle chain = Ok tt ↔
  root_in_chain chain = true ∧ ∃ leaf root middle, parted chain leaf root middle.
Proof.
  unfold check_chain, parted. destruct (root_in_chain chain); cbn [negb]; [|naive_solver]. case_decide as Hl.
  - split; [done|]. intros (_ & leaf & root & middle & Hc). rewrite Hc in Hl. cbn in Hl. rewrite length_app in Hl. cbn in Hl. lia.
  - split; [|done]. intros _. split; [done|]. destruct (certs_der chain) as [|leaf ders] eqn:Hc; [cbn in Hl; lia|].
    destruct ders as [|root middle _] using rev_ind; [cbn in Hl; lia|]. by exists leaf, root, middle.
Qed.
Lemma parted_reads chain leaf root middle {E} :
  parted chain leaf root middle →
  let n := length (certs_der chain) in
  index (E:=E) (certs_der chain) 0 = Ok leaf ∧ index (E:=E) (certs_der chain) (n - 1) = Ok root ∧
  slice_range (E:=E) 1 (n - 1) (certs_der chain) = Ok middle ∧ n - 2 = length middle.
Proof.
  intros Hc n. assert (Hn : n = S (S (length middle))) by (unfold n; rewrite Hc; cbn; rewrite length_app; cbn; lia).
  unfold index. rewrite Hn, Hc. replace (S (S (length middle)) - 1) with (S (length middle)) by lia. split_and!; [done| | |lia].
  - rewrite (list_lookup_middle (leaf :: middle) [] root _ eq_refl : (leaf :: middle ++ [root]) !! S (length middle) = _). done.
  - rewrite slice_range_Ok by (cbn; rewrite ?length_app; lia). cbn [drop].
    by rewrite drop_0, take_app_length' by lia.
Qed.

(** A specification is made exactly when every certificate has a PEM.  When it
    is read back, its fields are those of the chain, and the revocation lists
    decode to their octets. *)
Theorem build_spec_json_correct `{JsonBytes} `{PemEncode} chain leaf root middle spec
    (Hlaw : ∀ v b, to_string v = inr b → from_slice b = inr v)
    (Hparts : parted chain leaf root middle) (Hspec : build_spec_json chain = Ok spec)
    (Hoctets : Forall (Forall (λ b, b < 256)%N) (crls chain)) :
  ∃ v leaf_pem root_pem pems, from_slice spec = inr v ∧
    encode_string (str "CERTIFICATE") leaf = inr leaf_pem ∧
    encode_string (str "CERTIFICATE") root = inr root_pem ∧
    Forall2 (λ der pem, encode_string (str "CERTIFICATE") der = inr pem) middle pems ∧
    value_get (str "leaf") v = Some (String leaf_pem) ∧
    value_get (str "roots") v = Some (Array [String root_pem]) ∧
    value_get (str "intermediates") v = Some (Array (String <$> pems)) ∧
    value_get (str "validation_time_unix") v = Number ∘ fmt_u64 <$> validation_time_unix chain ∧
    (x ← value_get (str "crls") v; l ← as_array x; mapM (λ x, s ← as_str x; base64_decode s) l) =
      (if decide (crls chain = []) then None else Some (crls chain)).
Proof.
  destruct (parted_reads (E:=io_error) chain leaf root middle Hparts) as (Hl & Hr & Hm & _).
  unfold build_spec_json in Hspec. rewrite Hl, Hr, Hm in Hspec. cbn [mbind result_bind] in Hspec.
  apply bind_Ok in Hspec as (leaf_pem & Hlp & Hspec). apply bind_Ok in Hspec as (root_pem & Hrp & Hspec).
  apply bind_Ok in Hspec as (pems & Hp%certs_to_pems_Ok & Hspec).
  destruct (to_string _) as [e|b] eqn:Hts; [done|]. injection Hspec as <-. apply Hlaw in Hts.
  unfold der_to_pem in Hlp, Hrp. destruct (encode_string _ leaf) as [|lp] eqn:Hle; [done|].
  destruct (encode_string _ root) as [|rp] eqn:Hre; [done|]. injection Hlp as ->. injection Hrp as ->.
  eexists _, leaf_pem, root_pem, pems. split_and!; [exact Hts|done|done|done|reflexivity|reflexivity|reflexivity| |].
  - unfold spec_value. by destruct (validation_time_unix chain), (crls chain).
  - assert (Hget : value_get (str "crls") (spec_value leaf_pem root_pem pems chain) =
      if decide (crls chain = []) then None else Some (Array (String ∘ base64_encode <$> crls chain)))
      by (unfold spec_value; by destruct (validation_time_unix chain), (crls chain)).
    rewrite Hget. case_decide as Hnil; [done|]. cbn. clear Hget Hnil.
    induction Hoctets as [|crl l Hcrl _ IH]; [done|]. cbn. destruct (base64_roundtrip crl Hcrl) as [-> _]. cbn.
    by rewrite IH.
Qed.

(** The verdict that the program writes; every other output is an error. *)
Lemma string_field_Some key v s : (x ← value_get key v; as_str x) = Some s ↔ value_get key v = Some (String s).
Proof. destruct (value_get key v) as [[]|]; cbn; naive_solver. Qed.
Theorem parse_verdict_correct `{DebugText} `{JsonBytes} stdout :
  parse_verdict stdout ≠ Panic ∧
  ∀ verdict, parse_verdict stdout = Ok verdict ↔
    ∃ v, from_slice stdout = inr v ∧
    match verdict with
    | Pass => value_get (str "verdict") v = Some (String (str "pass"))
    | Fail_ reason => value_get (str "verdict") v = Some (String (str "fail")) ∧
        reason = default (str "(no reason supplied)") (x ← value_get (str "reason") v; as_str x)
    end.
Proof.
  unfold parse_verdict. destruct (from_slice stdout) as [e|v]; cbn [mbind result_bind]; [naive_solver|].
  pose proof (string_field_Some (str "verdict") v) as Hv. revert Hv.
  generalize (x ← value_get (str "verdict") v; as_str x) as field.
  intros field Hv.
  assert (Hne : str "pass" ≠ str "fail") by done.
  revert Hv Hne. generalize (str "pass") (str "fail") (str "(no reason supplied)"). intros pass fail no_reason Hv Hne.
  destruct field as [s|]; cbn [ok_or mbind result_bind]; split.
  - by repeat case_decide.
  - intros verdict. split.
    + intros Hok. exists v. split; [done|]. repeat case_decide; simplify_eq; [by apply Hv|]. split; [by apply Hv|done].
    + intros (v' & [= <-] & Hcase). destruct verdict as [|r].
      * apply Hv in Hcase as [= ->]. by rewrite decide_True.
      * destruct Hcase as [[= ->]%Hv ->]. by rewrite decide_False, decide_True by congruence.
  - done.
  - intros verdict. split; [done|]. intros (v' & [= <-] & Hcase).
    destruct verdict as [|r]; [by apply Hv in Hcase|]. by destruct Hcase as [?%Hv _].
Qed.

(** ** Runs of the two programs *)
Section io.
Context {W : Type}.
Lemma io_bind_Ok {A B} (m : io W A) (k : A → io W B) w b w' :
  (m ≫= k) w = (Ok b, w') ↔ ∃ a w1, m w = (Ok a, w1) ∧ k a w1 = (Ok b, w').
Proof. unfold mbind, io_bind. destruct (m w) as [[a|e|] w1]; naive_solver. Qed.
Lemma io_lift_Ok {A} (r : result io_error A) (w : W) a w' : io_lift r w = (Ok a, w') ↔ r = Ok a ∧ w' = w.
Proof. unfold io_lift. naive_solver. Qed.
Lemma io_unit_Ok (f : W → option io_error * W) w u w' : io_unit f w = (Ok u, w') ↔ f w = (None, w').
Proof. unfold io_unit. destruct u. destruct (f w) as [[e|] w1]; naive_solver. Qed.
Lemma io_call_Ok {A} (f : W → (io_error + A) * W) w a w' : io_call f w = (Ok a, w') ↔ f w = (inr a, w').
Proof. unfold io_call. destruct (f w) as [[e|b] w1]; naive_solver. Qed.
Lemma io_map_err_Ok {A} g (m : io W A) w a w' : io_map_err g m w = (Ok a, w') ↔ m w = (Ok a, w').
Proof. unfold io_map_err. destruct (m w) as [[b|e|] w1]; cbn; naive_solver. Qed.

Definition io_no_panic {A} (m : io W A) : Prop := ∀ w, (m w).1 ≠ Panic.
Lemma io_no_panic_bind {A B} (m : io W A) (k : A → io W B) :
  io_no_panic m → (∀ a, io_no_panic (k a)) → io_no_panic (m ≫= k).
Proof.
  intros Hm Hk w. specialize (Hm w). unfold mbind, io_bind. destruct (m w) as [[a|e|] w1]; [apply Hk|done|done].
Qed.
Lemma io_no_panic_lift {A} (r : result io_error A) : no_panic r → io_no_panic (io_lift r).
Proof. intros Hr w. exact Hr. Qed.
Lemma io_no_panic_ret {A} (a : A) : io_no_panic (mret a).
Proof. by intros w. Qed.
Lemma io_no_panic_unit f : io_no_panic (io_unit f).
Proof. intros w. unfold io_unit. by destruct (f w) as [[e|] w1]. Qed.
Lemma io_no_panic_call {A} (f : W → (io_error + A) * W) : io_no_panic (io_call f).
Proof. intros w. unfold io_call. by destruct (f w) as [[e|a] w1]. Qed.
Lemma io_no_panic_map_err {A} g (m : io W A) : io_no_panic m → io_no_panic (io_map_err g m).
Proof. intros Hm w. specialize (Hm w). unfold io_map_err. by destruct (m w) as [[a|e|] w1]. Qed.
End io.
#[local] Hint Resolve io_no_panic_lift io_no_panic_ret io_no_panic_unit io_no_panic_call
  io_no_panic_map_err : pkix.

(** A file that is written holds what was written, and the others stay. *)
Class FileLaws (W : Type) `{Processes W} := {
  file_at : bytes → W → option bytes;
  fs_write_file : ∀ path b w w', fs_write path b w = (None, w') →
    file_at path w' = Some b ∧ ∀ q, q ≠ path → file_at q w' = file_at q w }.
(** The four files of a directory are different. *)
Definition FILES : list bytes := [str "leaf.pem"; str "root.pem"; str "intermediates.pem"; str "crls.pem"].
Class HostLaws `{Host} : Prop := files_differ : ∀ dir a b, a ∈ FILES → b ∈ FILES → a ≠ b → push dir a ≠ push dir b.

Section openssl_spec.
Context `{HostLaws} `{PemEncode} {W : Type} `{FileLaws W}.
Implicit Types (chain : Chain) (dir : bytes) (w : W).

Definition is_pem (label der pem : bytes) : Prop := encode_string label der = inr pem.
(** A file with the PEM of every element of a list. *)
Definition holds_pems dir (name label : bytes) (ders : list bytes) w : Prop :=
  ∃ pems, Forall2 (is_pem label) ders pems ∧ file_at (push dir name) w = Some (concat pems).
Lemma der_to_pem_Ok der pem : der_to_pem der = Ok pem ↔ is_pem (str "CERTIFICATE") der pem.
Proof. unfold der_to_pem, is_pem. destruct (encode_string _ der); naive_solver. Qed.
Lemma crl_to_pem_Ok der pem : crl_to_pem der = Ok pem ↔ is_pem (str "X509 CRL") der pem.
Proof. unfold crl_to_pem, is_pem. destruct (encode_string _ der); naive_solver. Qed.
Lemma push_pems_Ok to_pem label out ders r :
  (∀ der pem, to_pem der = Ok pem ↔ is_pem label der pem) →
  push_pems to_pem out ders = Ok r ↔ ∃ pems, Forall2 (is_pem label) ders pems ∧ r = out ++ concat pems.
Proof.
  intros Hpem. revert out. induction ders as [|der ders IH]; intros out; cbn [push_pems].
  { split; [intros [= <-]; exists []; by rewrite app_nil_r|]. intros (pems & Hp & ->). inversion Hp. by rewrite app_nil_r. }
  rewrite bind_Ok. setoid_rewrite IH. split.
  - intros (pem & Hp%Hpem & pems & Hps & ->). exists (pem :: pems). split; [by constructor|]. cbn. by rewrite app_assoc.
  - intros (l & Hl & ->). inversion Hl as [|? pem ? pems Hp Hps]; subst. exists pem. split; [by apply Hpem|].
    exists pems. cbn. by rewrite app_assoc.
Qed.
Lemma holds_pems_write dir name name' label ders b w w' :
  name ∈ FILES → name' ∈ FILES → name ≠ name' → fs_write (push dir name') b w = (None, w') →
  holds_pems dir name label ders w → holds_pems dir name label ders w'.
Proof.
  intros Hn Hn' Hne Hw (pems & Hp & Hf). exists pems. split; [done|]. rewrite <-Hf.
  apply (fs_write_file _ _ _ _ Hw). by apply files_differ.
Qed.
Lemma holds_pems_written dir name label ders pems w w' :
  Forall2 (is_pem label) ders pems → fs_write (push dir name) (concat pems) w = (None, w') →
  holds_pems dir name label ders w'.
Proof. intros Hp Hw. exists pems. split; [done|]. by apply (fs_write_file _ _ _ _ Hw). Qed.
Lemma holds_pem_written dir name label der pem w w' :
  is_pem label der pem → fs_write (push dir name) pem w = (None, w') → holds_pems dir name label [der] w'.
Proof. intros Hp Hw. apply (holds_pems_written dir name label [der] [pem] w w'); [by repeat constructor|]. cbn. by rewrite app_nil_r. Qed.

(** The files of a chain. *)
Definition chain_files dir (leaf root : bytes) (middle : list bytes) w : Prop :=
  holds_pems dir (str "leaf.pem") (str "CERTIFICATE") [leaf] w ∧
  holds_pems dir (str "root.pem") (str "CERTIFICATE") [root] w ∧
  (middle ≠ [] → holds_pems dir (str "intermediates.pem") (str "CERTIFICATE") middle w).
Ltac other_file := eapply holds_pems_write; [| | |eassumption|]; [by_computation|by_computation|by_computation|].
Lemma write_chain_Ok chain dir leaf root middle has w w' :
  parted chain leaf root middle → write_chain_to_tempdir chain dir w = (Ok has, w') →
  has = bool_decide (middle ≠ []) ∧ chain_files dir leaf root middle w'.
Proof.
  intros Hparts. destruct (parted_reads (E:=io_error) _ _ _ _ Hparts) as (Hl & Hr & Hm & Hn).
  unfold write_chain_to_tempdir. rewrite Hl, Hr, Hm, Hn. clear Hl Hr Hm Hn.
  intros (l & w1 & [[= <-] ->]%io_lift_Ok & Hw)%io_bind_Ok.
  apply io_bind_Ok in Hw as (lp & w1 & [Hlp%der_to_pem_Ok ->]%io_lift_Ok & Hw).
  apply io_bind_Ok in Hw as ([] & w1 & Hw1%io_unit_Ok & Hw).
  apply io_bind_Ok in Hw as (r & w2 & [[= <-] ->]%io_lift_Ok & Hw).
  apply io_bind_Ok in Hw as (rp & w2 & [Hrp%der_to_pem_Ok ->]%io_lift_Ok & Hw).
  apply io_bind_Ok in Hw as ([] & w2 & Hw2%io_unit_Ok & Hw).
  pose proof (holds_pem_written _ _ _ _ _ _ _ Hlp Hw1) as Hleaf.
  pose proof (holds_pem_written _ _ _ _ _ _ _ Hrp Hw2) as Hroot.
  assert (Hleaf2 : holds_pems dir (str "leaf.pem") (str "CERTIFICATE") [leaf] w2) by (other_file; exact Hleaf).
  destruct (decide (length middle = 0)) as [Hz|Hz].
  - injection Hw as <- <-. apply length_zero_iff_nil in Hz as ->. by split_and!.
  - apply io_bind_Ok in Hw as (ds & w3 & [[= <-] ->]%io_lift_Ok & Hw).
    apply io_bind_Ok in Hw as (ip & w3 & [Hip ->]%io_lift_Ok & Hw).
    apply (push_pems_Ok _ (str "CERTIFICATE")) in Hip as (pems & Hps & ->); [|apply der_to_pem_Ok].
    apply io_bind_Ok in Hw as ([] & w3 & Hw3%io_unit_Ok & Hw). injection Hw as <- <-.
    split; [symmetry; apply bool_decide_eq_true; by intros ->|]. split_and!.
    + other_file. exact Hleaf2.
    + other_file. exact Hroot.
    + intros _. by eapply holds_pems_written.
Qed.
Lemma write_crls_Ok chain dir leaf root middle has w w' :
  chain_files dir leaf root middle w → write_crls_to_tempdir chain dir w = (Ok has, w') →
  has = bool_decide (crls chain ≠ []) ∧ chain_files dir leaf root middle w' ∧
  (crls chain ≠ [] → holds_pems dir (str "crls.pem") (str "X509 CRL") (crls chain) w').
Proof.
  intros (Hleaf & Hroot & Hmiddle). unfold write_crls_to_tempdir. case_decide as Hc.
  { intros [= <- <-]. rewrite Hc. by split_and!. }
  intros (ip & w1 & [Hip ->]%io_lift_Ok & Hw)%io_bind_Ok.
  apply (push_pems_Ok _ (str "X509 CRL")) in Hip as (pems & Hps & ->); [|apply crl_to_pem_Ok].
  apply io_bind_Ok in Hw as ([] & w1 & Hw1%io_unit_Ok & Hw). injection Hw as <- <-.
  split_and!; [by rewrite bool_decide_true|split_and!|intros _; by eapply holds_pems_written].
  - other_file. exact Hleaf.
  - other_file. exact Hroot.
  - intros Hm. other_file. by apply Hmiddle.
Qed.

(** A verdict of openssl is that of a run with the arguments of the chain, in a
    system where the files that they name hold the certificates and the lists of
    the chain; the directory of the files is then removed. *)
Theorem openssl_run_correct chain bin args w v w' :
  verify_with_bin_and_args chain bin args w = (Ok v, w') →
  ∃ leaf root middle dir w0 w1 output w2,
    root_in_chain chain = true ∧ certs_der chain = leaf :: middle ++ [root] ∧
    tempdir_new w = (inr dir, w0) ∧ chain_files dir leaf root middle w1 ∧
    (crls chain ≠ [] → holds_pems dir (str "crls.pem") (str "X509 CRL") (crls chain) w1) ∧
    command_output bin (openssl_args chain dir (bool_decide (middle ≠ [])) (bool_decide (crls chain ≠ [])) args) w1 =
      (inr output, w2) ∧
    v = openssl_verdict output ∧ w' = tempdir_drop dir w2.
Proof.
  unfold verify_with_bin_and_args. intros ([] & w0 & [Hc ->]%io_lift_Ok & Hw)%io_bind_Ok.
  apply check_chain_Ok in Hc as (Hroot & leaf & root & middle & Hparts).
  unfold with_tempdir in Hw. apply io_bind_Ok in Hw as (dir & w0 & Hdir%io_call_Ok & Hw).
  unfold dropping in Hw. match type of Hw with context [let (_, _) := ?m w0 in _] => destruct (m w0) as [r w2] eqn:Hk end.
  injection Hw as -> <-.
  apply io_bind_Ok in Hk as (has & w1 & Hchain & Hk). apply io_bind_Ok in Hk as (has_crls & w3 & Hcrls & Hk).
  apply io_bind_Ok in Hk as (output & w4 & Hout%io_map_err_Ok%io_call_Ok & Hk). injection Hk as <- <-.
  destruct (write_chain_Ok _ _ _ _ _ _ _ _ Hparts Hchain) as [-> Hfiles].
  destruct (write_crls_Ok _ _ _ _ _ _ _ _ Hfiles Hcrls) as (-> & Hfiles' & Hlists).
  exists leaf, root, middle, dir, w0, w3, output, w4. by split_and!.
Qed.
End openssl_spec.

(** ** The processes of a run *)
Section processes.
Context `{Host} `{Ancestors} `{DebugText} `{JsonBytes} `{PemEncode} {W : Type} `{Processes W}.

(** A verdict of the Python program is read from what it writes when it ends
    well, given the specification of the chain. *)
Theorem pyca_run_correct chain python script (w : W) v w' :
  verify_with_python chain python script w = (Ok v, w') →
  ∃ spec child w1 w2 output,
    root_in_chain chain = true ∧ 2 ≤ length (certs_der chain) ∧ build_spec_json chain = Ok spec ∧
    spawn_piped python [script] w = (inr (child, true), w1) ∧ write_stdin child spec w1 = (None, w2) ∧
    wait_with_output child w2 = (inr output, w') ∧ success (status output) = true ∧
    parse_verdict (stdout output) = Ok v.
Proof.
  unfold verify_with_python. intros ([] & w0 & [Hc ->]%io_lift_Ok & Hw)%io_bind_Ok.
  apply check_chain_Ok in Hc as (Hroot & leaf & root & middle & Hparts).
  apply io_bind_Ok in Hw as (spec & w0 & [Hspec ->]%io_lift_Ok & Hw).
  apply io_bind_Ok in Hw as ([child stdin] & w1 & Hs%io_map_err_Ok%io_call_Ok & Hw).
  apply io_bind_Ok in Hw as ([] & w2 & Hin & Hw). destruct stdin; [|by apply io_lift_Ok in Hin as [? _]].
  apply io_unit_Ok in Hin. apply io_bind_Ok in Hw as (output & w3 & Hout%io_call_Ok & Hw).
  destruct (success (status output)) eqn:Hok; cbn [negb] in Hw; apply io_lift_Ok in Hw as [Hv ->]; [|done].
  exists spec, child, w1, w2, output. split_and!; [done| |done..].
  rewrite Hparts. cbn. rewrite length_app. cbn. lia.
Qed.

Lemma no_panic_push_pems to_pem out ders :
  (∀ der, no_panic (to_pem der)) → no_panic (push_pems to_pem out ders).
Proof.
  intros Hp. revert out. induction ders as [|der ders IH]; intros out; cbn [push_pems]; [done|].
  apply no_panic_bind; [apply Hp|]. intros pem _. apply IH.
Qed.
Lemma no_panic_der_to_pem der : no_panic (der_to_pem der).
Proof. unfold der_to_pem. by destruct (encode_string _ der). Qed.
Lemma no_panic_crl_to_pem der : no_panic (crl_to_pem der).
Proof. unfold crl_to_pem. by destruct (encode_string _ der). Qed.
Lemma no_panic_certs_to_pems ders : no_panic (certs_to_pems ders).
Proof.
  induction ders as [|der ders IH]; cbn [certs_to_pems]; [done|].
  apply no_panic_bind; [apply no_panic_der_to_pem|]. intros pem _. by apply no_panic_bind.
Qed.
Lemma no_panic_build_spec_json chain leaf root middle :
  parted chain leaf root middle → no_panic (build_spec_json chain).
Proof.
  intros Hp. destruct (parted_reads (E:=io_error) _ _ _ _ Hp) as (Hl & Hr & Hm & _).
  unfold build_spec_json. rewrite Hl, Hr, Hm. cbn [mbind result_bind].
  apply no_panic_bind; [apply no_panic_der_to_pem|]. intros lp _.
  apply no_panic_bind; [apply no_panic_der_to_pem|]. intros rp _.
  apply no_panic_bind; [apply no_panic_certs_to_pems|]. intros pems _. by destruct (to_string _).
Qed.
#[local] Hint Resolve no_panic_push_pems no_panic_der_to_pem no_panic_crl_to_pem : pkix.
Ltac io_steps := repeat (apply io_no_panic_bind; [auto with pkix|intros ?]); auto with pkix.

Lemma io_no_panic_checked {A} oracle chain (k : io W A) :
  (∀ leaf root middle, parted chain leaf root middle → io_no_panic k) →
  io_no_panic (_ ← io_lift (check_chain oracle chain); k).
Proof.
  intros Hk w. unfold mbind, io_bind, io_lift. destruct (check_chain oracle chain) as [[]|e|] eqn:Hc; [|done|].
  - apply check_chain_Ok in Hc as (_ & leaf & root & middle & Hp). by eapply Hk.
  - unfold check_chain in Hc. by repeat case_match.
Qed.
Lemma io_no_panic_openssl chain bin args : io_no_panic (W := W) (verify_with_bin_and_args chain bin args).
Proof.
  unfold verify_with_bin_and_args. apply io_no_panic_checked. intros leaf root middle Hp.
  destruct (parted_reads (E:=io_error) _ _ _ _ Hp) as (Hl & Hr & Hm & _).
  unfold with_tempdir. apply io_no_panic_bind; [auto with pkix|]. intros dir w. unfold dropping.
  assert (Hk : io_no_panic (write_chain_to_tempdir (W := W) chain dir)).
  { unfold write_chain_to_tempdir. rewrite Hl, Hr, Hm. io_steps. case_decide; io_steps. }
  assert (Hc : io_no_panic (write_crls_to_tempdir (W := W) chain dir))
    by (unfold write_crls_to_tempdir; case_decide; io_steps).
  match goal with |- context [let (_, _) := ?m w in _] =>
    assert (Hm' : io_no_panic m) by io_steps; specialize (Hm' w); by destruct (m w) as [r w'] end.
Qed.
Lemma io_no_panic_pyca chain python script : io_no_panic (W := W) (verify_with_python chain python script).
Proof.
  unfold verify_with_python. apply io_no_panic_checked. intros leaf root middle Hp.
  apply io_no_panic_bind; [by eapply io_no_panic_lift, no_panic_build_spec_json|]. intros spec.
  apply io_no_panic_bind; [auto with pkix|]. intros [child stdin].
  apply io_no_panic_bind; [destruct stdin; auto with pkix; by apply io_no_panic_lift|]. intros [].
  apply io_no_panic_bind; [auto with pkix|]. intros output.
  destruct (negb _); apply io_no_panic_lift; [done|]. apply parse_verdict_correct.
Qed.

(** Both are what the runs of the harness expect of a process. *)
#[export] Instance process_oracles : ProcessOracles W.
Proof.
  split; intros chain w; cbn.
  - apply io_no_panic_openssl.
  - unfold pyca_rs_verify. destruct (sidecar_script_path w) as [script|e|] eqn:Hs; [apply io_no_panic_pyca|done|].
    unfold sidecar_script_path in Hs. destruct (current_dir w) as [e|cwd]; [done|]. by destruct (find_up _ cwd w).
Qed.
End processes.

(** ** A system of files *)
Module ProcessSample.
#[local] Instance toy_host : Host :=
  {| process_id := 0; temp_dir := str "/tmp"; push dir name := dir ++ [47%N] ++ name;
     instant_max := 1000 |}.
#[local] Instance toy_encode : PemEncode := λ label der, inr (label ++ der).
Abbreviation Files := (list (bytes * bytes)).
(** A program that refuses a chain when it is asked to check revocation. *)
#[local] Instance toy_processes : Processes Files := {|
  env_var _ _ := None;
  current_dir _ := inr (str "/");
  path_exists _ _ := false;
  tempdir_new w := (inr (str "/tmp/x"), w);
  tempdir_drop dir w := filter (λ f, ¬ dir `prefix_of` f.1) w;
  fs_write path b w := (None, (path, b) :: w);
  command_output bin args w :=
    (if decide (bin = str "openssl") then
       inr (if decide (str "-crl_check_all" ∈ args)
            then {| status := {| exit_code_of := Some 2%Z; signal_of := None |}; stdout := [];
                    stderr := str "error 23 at 0 depth lookup: certificate revoked" |}
            else {| status := {| exit_code_of := Some 0%Z; signal_of := None |}; stdout := []; stderr := [] |})
     else inl {| io_kind := ErrorKind.NotFound; io_display := str "No such file or directory" |}, w);
  spawn_piped _ _ w := (inl {| io_kind := ErrorKind.PermissionDenied; io_display := str "denied" |}, w);
  write_stdin _ _ w := (None, w);
  wait_with_output _ w := (inl {| io_kind := ErrorKind.Other; io_display := [] |}, w) |}.
#[local] Instance toy_host_laws : HostLaws.
Proof. intros dir a b _ _ Hab Hp. apply Hab. by apply app_inv_head, app_inv_head in Hp. Qed.
#[local] Program Instance toy_file_laws : FileLaws Files :=
  {| file_at path w := (λ x, x.2.2) <$> list_find (λ f : bytes * bytes, f.1 = path) w |}.
Next Obligation.
  intros path b w w' [= <-]. split; cbn; [by rewrite decide_True|]. intros q Hq.
  rewrite decide_False by done. by destruct (list_find _ w) as [[]|].
Qed.

Definition toy_chain (crls : list bytes) : Chain := {|
  certs_der := [[1]; [2]; [3]]%N; crls := crls; root_in_chain := true; label := str "t";
  validation_time_unix := Some 150%N |}.
Example openssl_example :
  openssl_rs_verify (toy_chain []) ([] : Files) = (Ok Pass, []) ∧
  openssl_rs_verify (toy_chain [[4%N]]) ([] : Files) = (Ok (Fail_ (str "certificate revoked")), []) ∧
  (verify_with_bin (toy_chain []) (str "ossl") ([] : Files)).1 =
    io_err ErrorKind.NotFound
      (str "openssl binary not found: tried `ossl` (set PKIX_DIFFTEST_OPENSSL_BIN to override)") ∧
  openssl_args (toy_chain [[4%N]]) (str "d") true true
    {| purpose := Some (str "sslserver"); verify_hostname := None; verify_email := None; verify_ip := None |} =
    str <$> ["verify"; "-CAfile"; "d/root.pem"; "-untrusted"; "d/intermediates.pem"; "-CRLfile"; "d/crls.pem";
      "-crl_check_all"; "-attime"; "150"; "-purpose"; "sslserver"; "d/leaf.pem"]%string.
Proof. vm_compute. repeat split; reflexivity. Qed.

Lemma openssl_run_correct_witness :
  ∃ dir w1, chain_files dir [1%N] [3%N] [[2%N]] (w1 : Files) ∧
    holds_pems dir (str "crls.pem") (str "X509 CRL") [[4%N]] w1.
Proof.
  destruct (openssl_run_correct (toy_chain [[4%N]]) (str "openssl") verify_args_default ([] : Files)
    (Fail_ (str "certificate revoked")) [] ltac:(by vm_compute))
    as (leaf & root & middle & dir & w0 & w1 & output & w2 & _ & Hcerts & _ & Hfiles & Hcrls & _).
  destruct middle as [|m [|m' middle]]; [done| |by destruct middle].
  injection Hcerts as <- <- <-. exists dir, w1. split; [exact Hfiles|]. by apply Hcrls.
Defined.
End ProcessSample.
