(* ===== verification/DiffMain.v ===== *)
(** * What the command line of the differential harness promises

    A command ends with one of its three exit codes, whatever the corpus holds;
    a run that ends well has written its reports. *)
From stdpp Require Import sorting.
From S2P Require Import Prelude X509 PathTypes Verifier Samples ValidatePath PathBuilder Revocation SignerDiscovery Crl CrlSpec Identity Aia CtLogList RevFetch LintTypes Json Deviation LintRunner LintSpec TrustStore RustStr ZlintBridge DiffTest DiffTestSpec ErrorDisplay DiffOracle DiffCorpus DiffTree DiffRun DiffOracleSpec DiffRunSpec.

(** ** Nothing panics while a corpus is loaded *)
Lemma no_panic_slice_range {E A} a b (l : list A) : a ≤ b → b ≤ length l → no_panic (slice_range (E:=E) a b l).
Proof. intros. by rewrite slice_range_Ok. Qed.
Lemma no_panic_limbo_digits b out : no_panic (limbo_digits_from out b).
Proof.
  revert out. induction b as [|x b IH]; intros out; cbn [limbo_digits_from]; [done|]. case_match; [done|].
  apply no_panic_bind; [auto with pkix|]. intros n _. apply IH.
Qed.
Lemma no_panic_digits_at a b s : a ≤ b → b ≤ length s → no_panic (digits_at a b s).
Proof.
  intros Hab Hb. unfold digits_at. apply no_panic_bind; [by apply no_panic_slice_range|].
  intros d _. apply no_panic_limbo_digits.
Qed.
Lemma no_panic_offset_at cursor s : no_panic (offset_at cursor s).
Proof.
  assert (Hs : ∀ sign, no_panic (signed_offset sign cursor s)).
  { intros sign. unfold signed_offset. case_decide as Hl; [done|].
    assert (Hlen : length s = cursor + 6) by (destruct (decide (cursor + 6 = length s)); [done|done]).
    unfold index. destruct (s !! (cursor + 3)) as [colon|] eqn:Hc; [|apply lookup_ge_None in Hc; lia].
    cbn [mbind result_bind]. case_decide; [done|].
    apply no_panic_bind; [apply no_panic_digits_at; lia|]. intros oh _.
    apply no_panic_bind; [apply no_panic_digits_at; lia|]. by intros om _. }
  unfold offset_at. by repeat case_match.
Qed.
Lemma no_panic_limbo_days y m d : no_panic (limbo_days_from_civil y m d).
Proof. unfold limbo_days_from_civil. repeat (case_match; try done). Qed.
Lemma no_panic_parse_rfc3339 s : no_panic (parse_rfc3339_to_unix s).
Proof.
  unfold parse_rfc3339_to_unix. case_decide as Hl; [done|]. assert (Hlen : 20 ≤ length s) by lia.
  do 6 (apply no_panic_bind; [apply no_panic_digits_at; lia|intros ? _]).
  apply no_panic_bind; [unfold after_fraction; repeat case_match; done|]. intros cursor _.
  apply no_panic_bind; [apply no_panic_offset_at|]. intros [[sign oh] om] _. repeat (case_decide; [done|]).
  apply no_panic_bind; [apply no_panic_limbo_days|]. intros days _. cbv zeta. by case_decide.
Qed.

Section load.
Context `{PathAsn1} `{KeyIdAsn1} `{CrlAsn1} `{Encode Name} `{DecodeOwned Certificate}.
Context `{OidText} `{SerialDisplay} `{DebugText} {V : Type} `{SignatureVerifier V}.
Context `{PemDecode} `{PemEncode} `{LimboJson} `{PkitsJson}.
Context {P : Type} `{ReadFile P} `{DirFs P} `{PathLib P}.
Variable verifier : V.

Lemma no_panic_filter_testcases l : no_panic (filter_testcases l).
Proof.
  induction l as [|tc l IH]; cbn [filter_testcases]; [done|]. case_match; [done|].
  apply no_panic_bind.
  - unfold limbo_time. destruct (tc_validation_time tc); [|done]. apply no_panic_map_err, no_panic_parse_rfc3339.
  - intros t _. by apply no_panic_bind.
Qed.
Lemma no_panic_limbo_item tc : no_panic (limbo_item verifier tc).
Proof.
  apply no_panic_map_err. pose proof (limbo_item_passes verifier tc 0) as Hi. intros Hp. by rewrite Hp in Hi.
Qed.
Lemma no_panic_read_files dir names : no_panic (read_files path_join dir names).
Proof.
  induction names as [|name names IH]; cbn [read_files]; [done|].
  apply no_panic_bind; [by destruct (fs_read _)|]. intros bs _. by apply no_panic_bind.
Qed.
Lemma read_files_length dir names l : read_files path_join dir names = Ok l → length l = length names.
Proof.
  revert l. induction names as [|name names IH]; intros l; cbn [read_files]; [by intros [= <-]|].
  intros (bs & _ & (rest & Hr & [= <-])%bind_Ok)%bind_Ok. cbn. by rewrite (IH rest Hr).
Qed.
Lemma no_panic_pkits_item certs_dir crls_dir vec : no_panic (pkits_item path_join certs_dir crls_dir vec).
Proof.
  apply no_panic_map_err. unfold pkits_build_item. case_decide as Hl; [done|].
  apply no_panic_bind; [apply no_panic_read_files|]. intros ders Hd%read_files_length.
  assert (Hne : ders ≠ []) by (intros ->; cbn in Hd; lia).
  pose proof (pkits_try_build_chain_correct ders Hne) as Hb.
  apply no_panic_bind; [by destruct (pkits_try_build_chain ders)|]. intros out _.
  apply no_panic_bind; [apply no_panic_read_files|]. by intros crls _.
Qed.

(** A chain from PEM: the search for blocks ends. *)
Lemma no_panic_decode_blocks blocks : no_panic (decode_blocks blocks).
Proof.
  induction blocks as [|block blocks IH]; cbn [decode_blocks]; [done|].
  apply no_panic_bind; [by destruct (decode_vec block)|]. intros d _. case_decide; [done|].
  apply no_panic_bind; [by destruct (from_der d.2)|]. intros cert _. by apply no_panic_bind.
Qed.
Lemma from_pem_bytes_total bs label : ∃ r, from_pem_bytes bs label = Some r ∧ no_panic r.
Proof.
  unfold from_pem_bytes. destruct (split_pem_blocks_correct bs) as (r & -> & Hr). eexists. split; [done|].
  apply no_panic_bind; [by destruct r|]. intros blocks _. unfold chain_of_blocks. case_decide; [done|].
  apply no_panic_bind; [apply no_panic_decode_blocks|]. intros decoded _.
  apply no_panic_bind; [|by intros]. pose proof (detect_leaf_first_correct decoded.*2) as Hd.
  intros Hp. by rewrite Hp in Hd.
Qed.

Lemma no_panic_load_crl_entries entries : no_panic (load_crl_entries (P := P) entries).
Proof.
  induction entries as [|entry entries IH]; cbn [load_crl_entries]; [done|].
  destruct (de_file_type entry) as [e|[| |]]; [done..| |done].
  apply no_panic_bind; [by destruct (fs_read _)|]. intros bs _.
  apply no_panic_bind; [destruct (decode_vec bs) as [e|[l d]]; [done|by case_decide]|]. intros crl _.
  by apply no_panic_bind.
Qed.
Lemma no_panic_collect_entries (l : list (io_error + DirEntry P)) : no_panic (collect_entries l).
Proof. induction l as [|[e|entry] l IH]; cbn [collect_entries]; [done..|]. by apply no_panic_bind. Qed.
Lemma no_panic_attach_crls (path : P) chain : no_panic (attach_crls path chain).
Proof.
  unfold attach_crls. destruct (parent path) as [dir|]; [|done]. case_match; [|done].
  apply no_panic_bind; [|done]. apply no_panic_map_err. unfold load_crls_in_dir.
  destruct (read_dir _) as [e|l]; [done|]. apply no_panic_bind; [apply no_panic_collect_entries|].
  intros entries _. apply no_panic_load_crl_entries.
Qed.
Lemma tree_item_total (root path : P) : ∃ r, tree_item root path = Some r ∧ no_panic r.
Proof.
  unfold tree_item, load_one. destruct (fs_read path) as [e|bs]; [by eexists|].
  destruct (filter_non_certificate_blocks_correct bs) as (out & -> & _). cbn [mbind option_bind].
  destruct (from_pem_bytes_total out (to_string_lossy (default path (path_strip_prefix root path)))) as (r & -> & Hr).
  eexists. split; [done|]. apply no_panic_map_err. apply no_panic_bind; [done|]. intros chain _.
  apply no_panic_bind; [apply no_panic_attach_crls|done].
Qed.
End load.

(** ** Loading a corpus *)
Lemma mapM_total {A B} (f : A → option B) (Q : B → Prop) l :
  (∀ x, ∃ y, f x = Some y ∧ Q y) → ∃ k, mapM f l = Some k ∧ Forall Q k.
Proof.
  intros Hf. induction l as [|x l (k & Hk & Hq)]; [by exists []|]. destruct (Hf x) as (y & Hy & Hqy).
  exists (y :: k). cbn. rewrite Hy. cbn. rewrite Hk. cbn. by split; [|constructor].
Qed.
Lemma no_panic_walk {P} `{DirFs P} `{PathLib P} fuel filename (dir : P) out :
  walk fuel filename dir out ≠ Some Panic.
Proof.
  revert dir out. induction fuel as [|fuel IH]; intros dir out; cbn [walk]; [done|].
  destruct (read_dir dir) as [e|entries]; [done|]. revert out.
  induction entries as [|e entries IHe]; intros out; [done|]. rewrite walk_entries_step.
  destruct (entry_step filename (walk fuel filename) e out) as [[out'|?|]|] eqn:Hs; [apply IHe|done| |done].
  unfold entry_step in Hs. by repeat case_match; try destruct (IH _ _ Hs).
Qed.

Section cli.
Context `{PathAsn1} `{KeyIdAsn1} `{CrlAsn1} `{Encode Name} `{DecodeOwned Certificate}.
Context `{OidText} `{SerialDisplay} `{DebugText} {V : Type} `{SignatureVerifier V}.
Context `{PemDecode} `{PemEncode} `{LimboJson} `{PkitsJson} `{JsonPretty}.
Context {P : Type} `{ReadFile P} `{DirFs P} `{PathLib P} {W : Type} `{Console W} `{ProcessOracles W}.
Variable verifier : V.

Lemma no_panic_concat_files acc (paths : list P) : no_panic (concat_files acc paths).
Proof.
  revert acc. induction paths as [|path paths IH]; intros acc; cbn [concat_files]; [done|].
  apply no_panic_bind; [|intros pem _; apply IH]. unfold pem_of_file.
  apply no_panic_bind; [by destruct (fs_read path)|]. intros bs _. by repeat case_match.
Qed.
Lemma pem_multi_total (files : list P) label : ∃ r, pem_multi_build_chain files label = Some r ∧ no_panic r.
Proof.
  unfold pem_multi_build_chain. case_decide; [by eexists|]. pose proof (no_panic_concat_files [] files) as Hc.
  destruct (concat_files [] files) as [concat|e|]; [apply from_pem_bytes_total|by eexists|done].
Qed.

(** The depth of the tree of a command. *)
Definition deep_enough (fuel : nat) (cmd : CorpusCmd P) : Prop :=
  match cmd with CmdPemTree dir _ => depth_le fuel dir | _ => True end.
Definition loads (r : result io_error (list (result io_error CorpusItem))) : Prop :=
  match r with Ok items => Forall no_panic items | Err _ => True | Panic => False end.
Lemma load_corpus_total fuel cmd :
  deep_enough fuel cmd → ∃ r, load_corpus verifier fuel cmd = Some r ∧ loads r.
Proof.
  destruct cmd as [dir o|dir o|files o|manifest o]; intros Hd; cbn [load_corpus].
  - eexists. split; [done|]. unfold pkits_load. destruct (fs_read _) as [e|bs]; [done|].
    destruct (parse_vectors bs) as [e|vectors]; [done|]. cbn. apply Forall_fmap, Forall_true. intros v. apply no_panic_pkits_item.
  - unfold load, load_with_filename. destruct (is_dir dir); cbn [negb]; [|by eexists].
    pose proof (walk_total (str "chain.pem") fuel dir [] Hd) as Ht.
    pose proof (no_panic_walk fuel (str "chain.pem") dir []) as Hp.
    destruct (walk fuel (str "chain.pem") dir []) as [[paths|e|]|]; [|by eexists|done..]. cbn [mbind option_bind result_bind].
    destruct (mapM_total (tree_item dir) no_panic (sort_by path_cmp paths) (tree_item_total dir)) as (k & Hk & Hq).
    unfold tree_items. cbn [tree_root chain_paths]. rewrite Hk. by eexists.
  - unfold pem_multi_items. destruct (pem_multi_total files (str "pem-multi")) as (r & -> & Hr). eexists. split; [done|].
    constructor; [|done]. by apply no_panic_bind.
  - eexists. split; [done|]. unfold limbo_load. destruct (fs_read manifest) as [e|bs]; [done|].
    unfold load_from_bytes. destruct (parse_manifest bs) as [e|l]; [done|].
    pose proof (no_panic_filter_testcases l) as Hl. destruct (filter_testcases l) as [tcs|e|]; [|done..].
    cbn. apply Forall_fmap, Forall_true. intros tc. apply no_panic_limbo_item.
Qed.

Lemma no_panic_parse_oracle_list s : no_panic (parse_oracle_list s).
Proof.
  unfold parse_oracle_list. generalize (filter (λ s, s ≠ []) (trim <$> split_commas [] s)) as l.
  induction l as [|n l IH]; cbn [parse_names]; [done|].
  apply no_panic_bind; [unfold parse_oracle_name; by repeat case_decide|]. intros x _. by apply no_panic_bind.
Qed.
Lemma single_loop_no_panic names chain worst (w : W) : (single_loop verifier names chain worst w).1 ≠ Panic.
Proof.
  revert worst w. induction names as [|name names IH]; intros worst w; cbn [single_loop]; [done|].
  pose proof (run_oracle_no_panic verifier name chain w) as Hn.
  destruct (run_oracle verifier name chain w) as [[v|e|] w1]; [apply IH|done..].
Qed.

(** A run that is loaded ends in an error of the list of oracles or of a report,
    or it has written what the options ask for: of all items a chain of the
    report or a harness error, sorted. *)
Lemma run_loaded_spec opts items (w : W) :
  Forall no_panic items →
  match run_loaded verifier opts items w with
  | (Ok _, w') => ∃ names cl (errs : list (bytes * io_error)) w1 w2, parse_oracle_list (opt_oracles opts) = Ok names ∧
      (c_name <$> cl) ++ errs.*1 ≡ₚ item_name <$> items ∧ Forall (classified_item names items) cl ∧
      StronglySorted (not_after severity_cmp) cl ∧ emit_reports opts cl w1 = (None, w2) ∧
      (errs = [] → w' = w2)
  | (Err _, _) => True
  | (Panic, _) => False
  end.
Proof.
  intros Hall. unfold run_loaded. pose proof (run_corpus_correct verifier (opt_oracles opts) items w Hall) as Hr.
  pose proof (no_panic_parse_oracle_list (opt_oracles opts)) as Hp.
  destruct (parse_oracle_list (opt_oracles opts)) as [names|e|] eqn:Hn; [| |done].
  - destruct Hr as (cl & errs & w1 & -> & Hperm & Hcl & Hs).
    destruct (emit_reports opts cl w1) as [[e|] w2] eqn:He; [done|].
    exists names, cl, errs, w1, w2. split_and!; [done..|]. intros ->. by rewrite decide_True.
  - by rewrite Hr.
Qed.

(** Every command ends with the exit code 0, 1 or 2, and with 1 only one that
    asks about a single chain; the fuel is the depth of the tree of a corpus. *)
Theorem main_exit_codes fuel cmd (w : W) :
  (∀ corpus, cmd = CmdRun corpus → deep_enough fuel corpus) →
  ∃ c w', main verifier fuel cmd w = Some (Some c, w') ∧ (c ≤ 2)%N ∧
    (c = 1%N → ∃ path oracle, cmd = CmdSingle path oracle).
Proof.
  intros Hd. unfold main, run. destruct cmd as [path oracle|corpus].
  - assert (Hf : ∃ r, from_pem_file path = Some r ∧ no_panic r).
    { unfold from_pem_file. destruct (fs_read path) as [e|bs]; [by eexists|apply from_pem_bytes_total]. }
    destruct Hf as (r & -> & Hr). cbn [mbind option_bind]. destruct r as [chain|e|]; [| |done].
    2: { eexists 2%N, _. split; [done|]. by split. }
    destruct (run_single verifier chain oracle w) as [v w1] eqn:Hs.
    assert (Hv : v ≠ Panic).
    { unfold run_single in Hs. pose proof (no_panic_parse_oracle_list oracle) as Hp.
      destruct (parse_oracle_list oracle) as [names|e|]; [|by simplify_eq|done].
      pose proof (single_loop_no_panic names chain Pass w) as Hn. by rewrite Hs in Hn. }
    destruct v as [[|reason]|e|]; [| | |done]; eexists _, _; (split; [done|]); split; [done|eauto|done|eauto|done|eauto].
  - destruct (load_corpus_total fuel corpus (Hd _ eq_refl)) as (r & -> & Hr). cbn [mbind option_bind].
    destruct r as [items|e|]; [| |done].
    2: { eexists 2%N, _. split; [done|]. by split. }
    pose proof (run_loaded_spec (opts_of corpus) items w Hr) as Hl.
    destruct (run_loaded verifier (opts_of corpus) items w) as [[u|e|] w1]; [| |done];
      eexists _, _; (split; [done|]); by split.
Qed.
End cli.

(** ** The reports *)

(** A file that is created is empty, a write appends to it, and the other files
    and the standard output stay; a write to the standard output appends to it. *)
Class ConsoleLaws (W : Type) `{Console W} := {
  out_file : bytes → W → option bytes;
  printed : W → bytes;
  file_create_law : ∀ t w w', file_create t w = (None, w') →
    out_file t w' = Some [] ∧ (∀ u, u ≠ t → out_file u w' = out_file u w) ∧ printed w' = printed w;
  file_write_law : ∀ t b w w' old, file_write t b w = (None, w') → out_file t w = Some old →
    out_file t w' = Some (old ++ b) ∧ (∀ u, u ≠ t → out_file u w' = out_file u w) ∧ printed w' = printed w;
  write_stdout_law : ∀ b w w', write_stdout b w = (None, w') →
    (∀ u, out_file u w' = out_file u w) ∧ printed w' = printed w ++ b }.

Section reports.
Context `{JsonPretty} {W : Type} `{ConsoleLaws W}.

(** The JSON report, with the newline at its end. *)
Definition json_text (classified : list Classified) : bytes := line (to_pretty (json_report classified)).
Lemma emit_md_file t cl o (w w' : W) :
  t ≠ str "-" → emit_md t cl o w = (None, w') →
  out_file t w' = Some (write_markdown cl o) ∧ (∀ u, u ≠ t → out_file u w' = out_file u w) ∧ printed w' = printed w.
Proof.
  intros Ht. unfold emit_md, open_target, write_to. rewrite decide_False by done.
  destruct (file_create t w) as [[e|] w1] eqn:Hc; [done|].
  rewrite decide_False by done. intros Hw.
  destruct (file_create_law t w w1 Hc) as (Hs1 & Hs2 & Hs3).
  destruct (file_write_law t _ w1 w' [] Hw Hs1) as (Hs4 & Hs5 & Hs6).
  split_and!; [done| |by rewrite Hs6]. intros u Hu. by rewrite Hs5, Hs2.
Qed.
Lemma emit_json_file t cl (w w' : W) :
  t ≠ str "-" → emit_json t cl w = (None, w') →
  out_file t w' = Some (json_text cl) ∧ (∀ u, u ≠ t → out_file u w' = out_file u w) ∧ printed w' = printed w.
Proof.
  intros Ht. unfold emit_json, open_target, write_to. rewrite decide_False by done.
  destruct (file_create t w) as [[e|] w1] eqn:Hc; [done|].
  rewrite decide_False by done.
  destruct (file_write t _ w1) as [[e|] w2] eqn:Hw1; [done|]. rewrite decide_False by done. intros Hw2.
  destruct (file_create_law t w w1 Hc) as (Hs1 & Hs2 & Hs3).
  destruct (file_write_law t _ w1 w2 [] Hw1 Hs1) as (Hs4 & Hs5 & Hs6). cbn [app] in Hs4.
  destruct (file_write_law t _ w2 w' _ Hw2 Hs4) as (Hs7 & Hs8 & Hs9).
  split_and!; [done| |by rewrite Hs9, Hs6]. intros u Hu. by rewrite Hs8, Hs5, Hs2.
Qed.

(** Reports that are written are complete: two files hold the two forms of the
    report, and a run without files prints the first. *)
Theorem emit_reports_correct opts cl (w w' : W) :
  emit_reports opts cl w = (None, w') →
  let md := write_markdown cl {| sample_size := opt_sample_size opts; md_title := opt_title opts |} in
  (∀ t j, output_md opts = Some t → output_json opts = Some j → t ≠ str "-" → j ≠ str "-" → t ≠ j →
    out_file t w' = Some md ∧ out_file j w' = Some (json_text cl) ∧ printed w' = printed w) ∧
  (∀ t, output_md opts = Some t → output_json opts = None → t ≠ str "-" →
    out_file t w' = Some md ∧ printed w' = printed w) ∧
  (output_md opts = None → output_json opts = None → printed w' = printed w ++ md).
Proof.
  intros He md. unfold emit_reports in He. split_and!.
  - intros t j Ht Hj Htd Hjd Htj. rewrite Ht, Hj in He. cbn [when_set] in He.
    destruct (emit_md t cl _ w) as [[e|] w1] eqn:Hs1; [done|]. destruct (emit_json j cl w1) as [[e|] w2] eqn:Hs2; [done|].
    rewrite decide_False in He by naive_solver. injection He as ->.
    destruct (emit_md_file _ _ _ _ _ Htd Hs1) as (Ha & _ & Hp). destruct (emit_json_file _ _ _ _ Hjd Hs2) as (Hb & Hu & Hp').
    split_and!; [by rewrite Hu|done|by rewrite Hp'].
  - intros t Ht Hj Htd. rewrite Ht, Hj in He. cbn [when_set] in He.
    destruct (emit_md t cl _ w) as [[e|] w1] eqn:Hs1; [done|]. rewrite decide_False in He by naive_solver. injection He as ->.
    by destruct (emit_md_file _ _ _ _ _ Htd Hs1) as (Ha & _ & Hp).
  - intros Ht Hj. rewrite Ht, Hj in He. cbn [when_set] in He. rewrite decide_True in He by done.
    by apply write_stdout_law in He as [_ ->].
Qed.
End reports.

(** ** A run on a console *)
Module MainSample.
(** What is printed, and the files. *)
Abbreviation Screen := (bytes * list (bytes * bytes))%type.
Definition file_of (t : bytes) (w : Screen) : option bytes :=
  (λ x, x.2.2) <$> list_find (λ f : bytes * bytes, f.1 = t) w.2.
#[local] Instance screen : Console Screen := {|
  system_time _ := 0%Z;
  println b w := (w.1 ++ line b, w.2);
  eprintln _ w := w;
  write_stdout b w := (None, (w.1 ++ b, w.2));
  file_create t w := if decide (t = []) then (Some {| io_kind := ErrorKind.NotFound; io_display := [] |}, w)
    else (None, (w.1, (t, []) :: w.2));
  file_write t b w := (None, (w.1, (t, default [] (file_of t w) ++ b) :: w.2)) |}.
Lemma file_of_cons t b p fs u : file_of u (p, (t, b) :: fs) = if decide (t = u) then Some b else file_of u (p, fs).
Proof.
  unfold file_of. cbn. destruct (decide (t = u)); [done|]. cbn. by destruct (list_find _ fs) as [[]|].
Qed.
#[local] Instance screen_laws : ConsoleLaws Screen.
Proof.
  refine {| out_file := file_of; printed := fst |}.
  - intros t [p fs] w'. cbn [file_create screen]. case_decide; [done|]. intros [= <-]. cbn [fst snd].
    rewrite file_of_cons, decide_True by done. split_and!; [done| |done]. intros u Hu. by rewrite file_of_cons, decide_False.
  - intros t b [p fs] w' old [= <-] Hold. cbn [fst snd]. rewrite file_of_cons, decide_True, Hold by done.
    split_and!; [done| |done]. intros u Hu. by rewrite file_of_cons, decide_False.
  - by intros b [p fs] w' [= <-].
Defined.

#[local] Instance toy_pretty : JsonPretty := λ _, str "{}".
Lemma emit_reports_correct_witness :
  let opts := {| opt_oracles := []; output_md := Some (str "a.md"); output_json := Some (str "a.json");
                 opt_sample_size := 10; opt_title := None |} in
  let w' := (emit_reports opts [] (([], []) : Screen)).2 in
  out_file (str "a.json") w' = Some (line (str "{}")) ∧
  out_file (str "a.md") w' = Some (write_markdown [] markdown_options_default).
Proof.
  intros opts w'.
  destruct (emit_reports_correct opts [] (([], []) : Screen) w' ltac:(by vm_compute)) as (Hboth & _).
  destruct (Hboth (str "a.md") (str "a.json") eq_refl eq_refl ltac:(done) ltac:(done) ltac:(done)) as (Hmd & Hjson & _).
  by split.
Defined.
End MainSample.
